(* ===== verification/_CoqProject ===== *)
-Q . S2P
Prelude.v
Configuration.v
Os.v
Json.v
FsUtil.v
Types.v
Rpc.v
Encoding.v
StateMachine.v
RaftLog.v
RaftLogFacts.v
RaftLogDisk.v
WorkingDisk.v
RaftNode.v
Snapshot.v
RaftNodeFacts.v
RaftNodeRoles.v
StateFile.v
Config.v
Replicator.v
Engine.v
EngineLoop.v
EngineFacts.v
EngineApi.v
EngineRaces.v
EngineRun.v
EngineFrame.v
EngineChannels.v
EngineMoves.v
EngineBounds.v
EngineReplica.v
EngineReads.v
EngineWrites.v
EngineFloor.v
EngineMachine.v
EngineServe.v
Startup.v
Main.v
Transport.v
Cluster.v
RaftSpec.v
RaftSafety.v
RaftReads.v
RaftSystem.v
RaftSimulation.v
Fleet.v
FleetSafety.v
FleetWrites.v
FleetReads.v
FleetReplicas.v
FakeNet.v
TestCluster.v
Examples.v
DiskExamples.v
WalRaces.v
RaftRaces.v
EngineExamples.v
TestExamples.v
RaftExamples.v
FleetExamples.v
ReadExamples.v
ReplicaExamples.v
ReadRaces.v
