(* ===== verification/Prelude.v ===== *)
(** * Crystal: a verification development for a Raft-replicated key-value store

    The program under src/ is a replicated key-value store in Go.  A server keeps a
    log of commands in a write-ahead log (internal/raft/log.go), a term and a vote
    in a metadata file (node.go) and a state machine with client sessions
    (internal/store/statemachine.go).  One control loop per server
    (internal/engine) waits on channels and runs elections, commitment,
    application, compaction and reads; one goroutine per peer runs replication
    rounds; HTTP handlers (internal/transport) serve clients and peers.  Everything
    that must survive a crash goes through fsync and atomic replacement
    (internal/fsutil).

    ** Files

    Prelude.v            machine integers, results, the state-and-error monad, the
                         representation of Go maps, shared tactics and lemmas
    Configuration.v      raft/configuration.go: memberships, quorums, joint consensus
    Os.v                 the file system: faults, torn writes, crashes, reboots
    Json.v               encoding/json and base64 as used by the wire types
    FsUtil.v             fsutil/atomic.go, syncdir_unix.go, syncdir_windows.go
    Types.v, Rpc.v       raft/types.go; the interfaces rpcHandler and Transport
    Encoding.v           the JSON form of every struct, with its round trips
    StateMachine.v       store/statemachine.go: Apply, sessions, snapshots
    RaftLog.v            raft/log.go: the cache, the boundary and the disk calls
    RaftLogFacts.v       what each method does to the log
    RaftLogDisk.v        what each method leaves on disk, and what a boot recovers
    WorkingDisk.v        on a disk that works every method of the log succeeds
    RaftNode.v           raft/node.go: every critical section of the node
    RaftNodeFacts.v, RaftNodeRoles.v   its theorems; who can change a role
    Snapshot.v           store/snapshot.go and restoreFromSnapshot of main.go
    StateFile.v          fileStateStore as an instance of the interface StateStore
    Config.v             config/config.go: flags, peer lists; the bootstrap of main.go
    Replicator.v         raft/replicator.go: requests, replies, one round
    Engine.v             engine.go, quorum.go: state, waiters, apply loop, reads
    EngineLoop.v         engine.go, replicator_loop.go: elections, tick, snapshots
    EngineFacts.v        what each handler does
    EngineApi.v          quorum.go: the blocking entry points; reports to the loop
    EngineRun.v          New, Run: the select statement and runs of the loop
    EngineFrame.v, EngineChannels.v, EngineMoves.v, EngineBounds.v, EngineReplica.v,
    EngineReads.v, EngineWrites.v, EngineFloor.v, EngineMachine.v, EngineServe.v
                         theorems about runs
    EngineRaces.v, RaftRaces.v, ReadRaces.v, WalRaces.v   runs in which the locks taken
                         one by one, the term of a reply, the recovery of a log, a
                         failed no-op or a failed append break what is promised
    Startup.v            what main does between its configuration and the loop
    Main.v               main.go: start-up, from the files on disk to a running loop
    Transport.v          transport/http.go, raft/transport.go
    Cluster.v            a cluster of nodes under faults: election safety
    RaftSpec.v, RaftSafety.v, RaftReads.v   Raft as an abstract machine, its safety, and
                         what a leader may answer reads with
    RaftSystem.v, RaftSimulation.v   clusters of the real servers refine it
    Fleet.v, FleetSafety.v, FleetWrites.v, FleetReads.v, FleetReplicas.v   clusters
                         of whole running programs: each orderly action of a loop is a
                         run of RaftSystem.v; Log Matching, Leader Completeness, State
                         Machine Safety; what clients are told of their writes and
                         reads; the state machines of the servers
    FakeNet.v, TestCluster.v   testcluster/fakenet.go, cluster.go: the test harness
    Examples.v, DiskExamples.v, EngineExamples.v, TestExamples.v,
    RaftExamples.v, FleetExamples.v, ReadExamples.v, ReplicaExamples.v   concrete runs, the theorems applied

    ** How the model reads

    A method of a Go struct is a function from the struct's record to its results
    and the new record, under the source's name; a name that clashes gets a prefix
    (EngineHandleAppendEntries is Engine.HandleAppendEntries).  A method that takes
    a lock once is one function; one that takes locks several times reads the state
    each section sees from its arguments, so that another goroutine may act in
    between (append_request, followerRead), or is the composition of the functions
    when only its own goroutine changes what it reads.  Errors are values of
    [result]; methods that touch the disk are in the monad [M] over the record that
    carries the disk.  Integers are [Z] with Go's wrap-around written [+!] and
    [-!]; a Go map is a [gmap], optional where the source tells nil from empty.
    The wall clock and the random election timeout are arguments.

    The disk is a file system whose every call can fail, happen in part or be the
    last one before a crash (Os.v).  A crash keeps of unsynced data and directory
    entries any combination the model of [fsync] allows; [reboot] relates the disk
    before to the disks a boot may find.

    The metadata store is an interface, the class [StateStore] with its laws
    [StateStoreLaws]; the node, the engine and the cluster are proved against the
    laws, and StateFile.v proves them for the file-backed store.  The JSON codec is
    the class [Codec], instantiated in Encoding.v.  [rpcHandler] and [Transport]
    state what the two ends of an RPC promise; the engine implements the first and
    Transport.v the second.

    The control loop is an executable [run] over a list of [action]s: the messages
    the select statement may receive, in any order and number, interleaved with the
    RPCs served on other goroutines and with replication rounds whose replies may
    be lost, delayed or arbitrary (EngineRun.v).  The record [Loop] adds to the
    engine what no variable holds and the theorems are about: the channels requests
    came on, the rounds in flight, the rounds acknowledged.  [run_within] states
    the limits of a run: integers that fit their types, and for theorems about the
    log those of [sound_limits] (a batch is contiguous, above the boundary and does
    not meet a disk fault; a snapshot covers what was applied, continues or replaces
    the log, and once restored is also written).

    ** What is proved

    Reads and writes.  A read answered with an index came to a leader, at an index
    covering everything committed, and the same leadership was confirmed by a
    quorum afterwards and before the answer (EngineReads.v); a read at a follower
    is at an index its leader confirmed (EngineServe.v); a bounded read keeps its
    bound; a proposal answered nil was committed at its index in its term
    (EngineWrites.v).  Every request is answered exactly once, and by the first
    tick after its deadline (EngineChannels.v).

    State.  Through every run within the limits the log is well formed, the boundaries are
    ordered and only advance, the term and vote obey the rules of Raft and are on disk, and
    the engine refines the abstract replicated state machine (EngineBounds.v,
    EngineReplica.v, EngineServe.v).

    Elections.  At most one leader per term, in any cluster of these nodes with
    message loss, duplication, forgery, failed writes and crashes (Cluster.v);
    HandleRequestVote grants exactly when Figure 2 does, HandlePreVote predicts it,
    quorums intersect, also across joint consensus.

    Consensus.  An abstract Raft machine has one inductive invariant that gives Log
    Matching, Leader Completeness and State Machine Safety (RaftSafety.v).  The
    node's and the log's methods refine it (RaftSystem.v, RaftSimulation.v), and so do
    clusters of whole programs, in orderly runs (FleetSafety.v).

    The whole program.  A [Fleet] is a cluster of running loops: each server is the
    loop it started as and the actions since, and the mail is everything the loops
    sent.  An action delivers only what was mailed, late, twice or never; a server
    may stop between any two actions, or at a call of its disk, and starts again with
    [startup] from what the reboot left ([fleet_step]).  In orderly runs a fleet
    refines the abstract machine; a write some loop acknowledged is in every later
    committed log at the same place (FleetWrites.v); and a read some loop answered
    covers every write acknowledged before it came in (FleetReads.v), for rounds that
    are calls, whose replies come after them, and a leader whose no-op was appended
    (ReadRaces.v: without it the read may be stale).  The state machine of every
    server is what executing the committed entries on an empty machine gives, as far
    as the server has applied (FleetReplicas.v), so replicas agree, and a server that
    has applied an acknowledged write, as one does that serves a read at its index,
    has executed it.  [Replicas] adds to a fleet every machine there was: a server
    ships and starts from one of those (what Snapshot.v, Startup.v and Main.v show of
    the disk at one server), all are configured with one session lifetime, and an
    installed snapshot is not older than the state and can be written.

    ** Orderly runs

    [fleet_step] has every step of a cluster whose handlers run one at a time, and
    [orderly] names the limits of the theorems about clusters.  The program enforces
    none of them; except for the last, a closed run shows what is lost without it.
    - Handlers, inbound RPCs, rounds and starts run one at a time
      ([proposal_across_deposition], [snapshot_across_apply], which are not runs of
      [act]; the theorems about one loop are about [act] too).
    - Every request is read from one state of its sender
      ([torn_round_breaks_log_matching]).
    - A leader uses no reply to a round of another of its leaderships
      ([stale_reply_loses_write]).
    - A batch is written whole or leaves the log as it was, and an install leaves a
      well-formed log ([ResetToSnapshot_stale_nextIndex]).
    - A shipped snapshot is of applied entries that its sender's log goes on from.
    - A start recovers the log the server had when it stopped.  [settled_start] shows
      that it does when the last operation on the WAL had completed; after an operation
      that failed or was cut short it may not ([restart_keeps_conflicting_suffix],
      [torn_append_stops_recovery], [failed_fsync_revives_refused],
      [retried_batch_not_durable]).
    - Machines ([Replicas] only): [snapshot_regresses_machine] and
      [failed_install_diverges] are installs outside [clean].
    - Indices and terms stay below 2^63 - 1.

    Replication.  AppendEntriesToLog implements the log half of Figure 2; a round
    brings the follower level; backtracking ends; InstallSnapshot is acknowledged
    only once durable; AdvanceCommitIndex never commits an earlier term by counting.

    Disk.  Recovery returns exactly the whole frames written; on a settled WAL (all
    that recovery and successful operations leave) an appended entry, an acknowledged
    batch and a compaction survive every crash of the machine, as do a snapshot and a
    saved vote; WriteFileAtomic is atomic under every fault, on Windows too, where its
    durability is the file system's.  WalRaces.v shows what a WAL left unsettled by a
    failed call does.

    Start-up.  On a disk that works, main comes up with the term, vote, log and
    state machine the files hold, whatever crash they survived (Main.v).

    Test harness.  The fake network's faults cut what they say they cut, and the
    harness's monitor raises the alarm exactly when two nodes it polls lead the
    same term (FakeNet.v, TestCluster.v).

    State machine.  Retransmissions execute once, expiry is a function of the log,
    a snapshot restores the captured state.  HTTP: RPCs arrive unchanged, handlers
    admit only well-formed requests and answer only what the engine decided.

    Defects found are stated as closed runs and named in the manifest:
    EngineRaces.v, RaftRaces.v, ReadRaces.v, WalRaces.v,
    Replicator.torn_round_breaks_log_matching, and the negative results of
    RaftLogFacts.v, StateFile.v and FsUtil.v.

    ** Bounds and fuel

    [recover_loop] gets one unit per byte of the file and one more, and consumes a
    frame of at least four bytes per unit; [conflict_walk] one per index between
    the hint and the first entry; the apply loop one per committed index not yet
    applied; the JSON parser one per byte of input and one more.  Each is shown to
    be enough where its function is proved correct.  Round numbers are 64 bits wide
    and theorems about reads are for runs of fewer than 2^64 actions.

    ** Not modelled

    Goroutine scheduling below the level of critical sections and the memory model
    (and, in runs of [act], between the critical sections of one handler); a process
    that stops on a machine that does not, except in StateFile.v;
    contents of channel buffers (a run's order of actions stands for them); log
    output; sockets, URL decoding, the flag package and time.ParseDuration
    (parameters where they are used); HTML escaping and invalid UTF-8 in JSON;
    the journal Windows relies on in place of a directory sync; of main.go, the HTTP server it
    starts and the signals it waits for; of internal/testcluster, the goroutines
    and the sleeps (each call made while they run is a function here). *)

From Stdlib Require Export ZArith Lia.
From stdpp Require Export base tactics option list numbers strings gmap sorting.

Declare Scope go_scope.
Delimit Scope go_scope with go.
#[global] Open Scope Z_scope.

(** ** Machine integers

    Go's [int] is 64 bits wide on every platform the program is built for.  A
    value is a [Z]; every arithmetic operation the source performs on it is
    followed by the two's-complement wrap-around [i64]. *)

Abbreviation MinInt64 := (-9223372036854775808) (only parsing).
Abbreviation MaxInt64 := 9223372036854775807 (only parsing).

Definition i64 (z : Z) : Z :=
  (z + 9223372036854775808) `mod` 18446744073709551616 - 9223372036854775808.

Notation "x +! y" := (i64 (x + y)) (at level 50, left associativity) : Z_scope.
Notation "x -! y" := (i64 (x - y)) (at level 50, left associativity) : Z_scope.

Definition int64 (z : Z) : Prop := MinInt64 ≤ z ≤ MaxInt64.

#[export] Instance int64_dec z : Decision (int64 z).
Proof. unfold int64. apply _. Defined.

Create HintDb crystal discriminated.
Create Rewrite HintDb crystal.
#[export] Hint Unfold int64 : crystal.

Lemma i64_id z : int64 z → i64 z = z.
Proof. unfold int64, i64. intros. rewrite Z.mod_small; lia. Qed.

Lemma i64_range z : int64 (i64 z).
Proof.
  unfold int64, i64.
  pose proof (Z.mod_pos_bound (z + 9223372036854775808) 18446744073709551616).
  lia.
Qed.

(** A value below the range wraps once, to the top. *)
Lemma i64_below z :
  MinInt64 - 18446744073709551616 ≤ z < MinInt64 →
  i64 z = z + 18446744073709551616.
Proof.
  unfold i64. intros.
  rewrite <-(Z.mod_add _ 1) by lia. rewrite Z.mod_small; lia.
Qed.

(** A value above the range wraps once, to the bottom. *)
Lemma i64_above z :
  MaxInt64 < z ≤ MaxInt64 + 18446744073709551616 →
  i64 z = z - 18446744073709551616.
Proof.
  unfold i64. intros.
  rewrite <-(Z.mod_add _ (-1)) by lia. rewrite Z.mod_small; lia.
Qed.

(** [lia] with divisions and remainders replaced by their defining equations. *)
Ltac dlia := Z.to_euclidean_division_equations; lia.

(** [wrapless] removes every wrap-around whose operand is provably in range. *)
Ltac wrapless :=
  repeat match goal with
  | |- context [i64 ?z] => rewrite (i64_id z) by (unfold int64 in *; lia)
  | H : context [i64 ?z] |- _ => rewrite (i64_id z) in H by (unfold int64 in *; lia)
  end.

(** ** Errors

    A Go [error] result is [None] for [nil] or [Some] message; a fallible
    function with a value is a [result]. *)

Abbreviation go_error := string (only parsing).

Inductive result (A : Type) : Type :=
  | Ok (a : A)
  | Err (e : go_error).
Arguments Ok {A} a.
Arguments Err {A} e.

Definition is_Ok {A} (r : result A) : bool :=
  match r with Ok _ => true | Err _ => false end.

(** ** Effects

    A computation that reads and writes a state [S] and may return an error; the
    state it reached is kept on error too, as in the source. *)

Definition M (S A : Type) : Type := S → result A * S.

Definition m_ret {S A} (a : A) : M S A := λ s, (Ok a, s).

Definition m_fail {S A} (e : go_error) : M S A := λ s, (Err e, s).

Definition m_bind {S A B} (m : M S A) (k : A → M S B) : M S B := λ s,
  match m s with
  | (Ok a, s') => k a s'
  | (Err e, s') => (Err e, s')
  end.

Definition m_get {S} : M S S := λ s, (Ok s, s).

Definition m_modify {S} (f : S → S) : M S unit := λ s, (Ok tt, f s).

Notation "x <-- m ;; k" := (m_bind m (λ x, k)) (at level 100, m at next level, right associativity).
Notation "m ;;; k" := (m_bind m (λ _, k)) (at level 100, right associativity).

(** [fmt.Errorf("msg: %w", err)] *)
Definition m_wrap {S A} (msg : string) (m : M S A) : M S A := λ s,
  match m s with
  | (Ok a, s') => (Ok a, s')
  | (Err e, s') => (Err (msg +:+ ": " +:+ e)%string, s')
  end.

(** Run a cleanup action when [m] fails, ignoring the cleanup's own result. *)
Definition m_on_error {S A} (m : M S A) (cleanup : M S unit) : M S A := λ s,
  match m s with
  | (Ok a, s') => (Ok a, s')
  | (Err e, s') => (Err e, (cleanup s').2)
  end.

Lemma m_bind_inv {S A B} (m : M S A) (k : A → M S B) s r s' :
  m_bind m k s = (r, s') →
  (∃ a s1, m s = (Ok a, s1) ∧ k a s1 = (r, s')) ∨
  (∃ e, m s = (Err e, s') ∧ r = Err e).
Proof.
  unfold m_bind. destruct (m s) as [[a|e] s1]; [eauto|].
  intros [= <- <-]. eauto.
Qed.

(** Cutting a sequence after its third step. *)
Lemma m_bind_assoc3_inv {S A B C D} (m1 : M S A) (m2 : M S B) (m3 : M S C) (k : C → M S D) s r s' :
  (m1 ;;; m2 ;;; c <-- m3 ;; k c) s = (r, s') →
  (∃ c s1, (m1 ;;; m2 ;;; m3) s = (Ok c, s1) ∧ k c s1 = (r, s')) ∨
  (∃ e, (m1 ;;; m2 ;;; m3) s = (Err e, s') ∧ r = Err e).
Proof.
  intros H. apply m_bind_inv. rewrite <-H. unfold m_bind.
  destruct (m1 s) as [[a|e] s1]; [|done]. by destruct (m2 s1) as [[b|e] s2].
Qed.

Lemma m_wrap_inv {S A} msg (m : M S A) s r s' :
  m_wrap msg m s = (r, s') →
  ∃ r0, m s = (r0, s') ∧
    match r0 with Ok a => r = Ok a | Err _ => ∃ e, r = Err e end.
Proof.
  unfold m_wrap. destruct (m s) as [[a|e] s1]; intros [= <- <-]; eexists; split; eauto; simpl; eauto.
Qed.

Lemma m_on_error_inv {S A} (m : M S A) (cleanup : M S unit) s r s' :
  m_on_error m cleanup s = (r, s') →
  (∃ a, r = Ok a ∧ m s = (Ok a, s')) ∨
  (∃ e s1 r1, r = Err e ∧ m s = (Err e, s1) ∧ cleanup s1 = (r1, s')).
Proof.
  unfold m_on_error. destruct (m s) as [[a|e] s1].
  - intros [= <- <-]. eauto.
  - destruct (cleanup s1) as [r1 s2] eqn:Hc. intros [= <- <-]. eauto 10.
Qed.

(** ** Go maps

    A Go map is a reference that may be [nil].  Reading, ranging over, taking the
    length of and deleting from a nil map behave as on an empty one. *)

Abbreviation gomap V := (option (gmap Z V)).

Definition gm {V} (m : gomap V) : gmap Z V := default ∅ m.

(** [m[k]] on a map of booleans: the zero value when the key is absent. *)
Definition gm_bool (m : gomap bool) (k : Z) : bool := default false (gm m !! k).

(** [m[k]] on a map of integers. *)
Definition gm_int (m : gmap Z Z) (k : Z) : Z := default 0 (m !! k).

(** The keys of a map, in one iteration order.  Go leaves the order unspecified;
    the theorems that matter are shown not to depend on it. *)
Definition range_keys {V} (m : gomap V) : list Z := (map_to_list (gm m)).*1.

(** [len(m)] *)
Definition gm_len {V} (m : gomap V) : Z := Z.of_nat (size (gm m)).

Lemma elem_of_range_keys {V} (m : gomap V) k :
  k ∈ range_keys m ↔ k ∈ dom (gm m).
Proof.
  unfold range_keys. rewrite list_elem_of_fmap, elem_of_dom. split.
  - intros ([k' v] & -> & H%elem_of_map_to_list). by exists v.
  - intros [v Hv]. exists (k, v). by rewrite elem_of_map_to_list.
Qed.

Lemma NoDup_range_keys {V} (m : gomap V) : NoDup (range_keys m).
Proof. apply NoDup_fst_map_to_list. Qed.

Lemma length_range_keys {V} (m : gomap V) : Z.of_nat (length (range_keys m)) = gm_len m.
Proof. unfold range_keys, gm_len. by rewrite length_fmap, length_map_to_list. Qed.

(** Adding up ones over the elements a test accepts is the length of the filtered
    list: every counting loop of the source has this shape. *)
Definition count_if {A} (p : A → bool) (l : list A) : Z :=
  foldl (λ n x, if p x then n + 1 else n) 0 l.

Lemma count_if_filter {A} (p : A → bool) l :
  count_if p l = Z.of_nat (length (filter (λ x, p x = true) l)).
Proof.
  unfold count_if.
  assert (∀ n, foldl (λ n x, if p x then n + 1 else n) n l
             = n + Z.of_nat (length (filter (λ x, p x = true) l))) as ->; [|lia].
  induction l as [|x l IH]; intros n; simpl; [lia|].
  rewrite IH, filter_cons. destruct (p x); case_decide; simpl; try done; lia.
Qed.

(** Filtering an image by [p] keeps as many elements as filtering by [q], when [q]
    is [p] seen through the map. *)
Lemma length_filter_map {A B} (f : A → B) (p : B → bool) (q : A → bool) l :
  (∀ x, x ∈ l → p (f x) = q x) →
  length (filter (λ y, p y = true) (map f l)) = length (filter (λ x, q x = true) l).
Proof.
  induction l as [|x l IH]; intros Heq; simpl; [done|].
  rewrite !filter_cons, <-(Heq x) by left.
  specialize (IH (λ y Hy, Heq y (list_elem_of_further _ _ _ Hy))).
  destruct (p (f x)); repeat case_decide; simpl; congruence.
Qed.

Lemma Forall_filter {A} (P Q : A → Prop) `{∀ x, Decision (Q x)} l :
  Forall P l → Forall P (filter Q l).
Proof. rewrite !Forall_forall. intros HP x [_ Hx]%list_elem_of_filter. auto. Qed.

(** ** Majorities

    The pigeonhole fact behind every Raft argument: two sets that each hold more
    than half of a finite set share a member of it. *)
Lemma majorities_meet `{Countable A} (U X Y : gset A) :
  X ⊆ U → Y ⊆ U →
  Z.of_nat (size U) `div` 2 < Z.of_nat (size X) →
  Z.of_nat (size U) `div` 2 < Z.of_nat (size Y) →
  ∃ a, a ∈ X ∧ a ∈ Y.
Proof.
  intros HX HY HcX HcY.
  destruct (decide (X ∩ Y = ∅)) as [Hd|Hne].
  - exfalso.
    assert (size (X ∪ Y) ≤ size U)%nat as Hle by (by apply subseteq_size, union_least).
    rewrite size_union in Hle by (clear -Hd; set_solver).
    revert Hle HcX HcY. generalize (size U), (size X), (size Y). clear.
    intros u x y ???. dlia.
  - apply set_choose_L in Hne as [a Ha]. exists a. set_solver.
Qed.

Lemma and_iff_restrict (P Q R : Prop) : (P → Q ↔ R) → P ∧ Q ↔ P ∧ R.
Proof. tauto. Qed.

(** ** Generic tactics *)

(** Case analysis on the innermost match or conditional of the goal. *)
Ltac split_match :=
  match goal with
  | |- context [match ?x with _ => _ end] => destruct x eqn:?
  | H : context [match ?x with _ => _ end] |- _ => destruct x eqn:?
  end.

(** Turn boolean comparisons of integers in the context into propositions. *)
Ltac b2p :=
  repeat match goal with
  | H : (_ <? _) = true |- _ => apply Z.ltb_lt in H
  | H : (_ <? _) = false |- _ => apply Z.ltb_ge in H
  | H : (_ <=? _) = true |- _ => apply Z.leb_le in H
  | H : (_ <=? _) = false |- _ => apply Z.leb_gt in H
  | H : (_ =? _) = true |- _ => apply Z.eqb_eq in H
  | H : (_ =? _) = false |- _ => apply Z.eqb_neq in H
  | H : (_ && _) = true |- _ => apply andb_true_iff in H; destruct H
  | H : (_ || _) = false |- _ => apply orb_false_iff in H; destruct H
  | H : negb _ = true |- _ => apply negb_true_iff in H
  | H : negb _ = false |- _ => apply negb_false_iff in H
  end.
