(* ===== verification/Configuration.v ===== *)
(** * Configuration (internal/raft/configuration.go)

    Cluster membership and the two quorum questions asked of it: which sets of
    servers constitute agreement ([HasQuorum], used by elections) and how far an
    agreement reaches ([QuorumIndex], used by commitment).  A configuration is
    simple or joint (section 6 of the Raft paper); the theorems show that the two
    questions are the same question, that any two agreements of one
    configuration meet, and that they still meet across each half of a
    membership change. *)

From stdpp Require Import pretty.
From S2P Require Import Prelude.

(** ** Data *)

Record Configuration := mkConfiguration {
  Voters : gomap string;
  OldVoters : gomap string;
  Learners : gomap string;
}.

(** Writing every binding of one map over another: the loop
    [for id, addr := range set { out[id] = addr }]. *)
Definition write_all (set out : gmap Z string) : gmap Z string :=
  foldl (λ out '(id, addr), <[id := addr]> out) out (map_to_list set).

Definition copyMembers (m : gomap string) : gomap string :=
  match m with
  | None => None
  | Some m => Some (write_all m ∅)
  end.

Definition NewConfiguration (voters : gomap string) : Configuration :=
  mkConfiguration (copyMembers voters) None None.

(** ** Membership *)

Definition IsJoint (c : Configuration) : bool := 0 <? gm_len (OldVoters c).

Definition IsVoter (c : Configuration) (id : Z) : bool :=
  bool_decide (is_Some (gm (Voters c) !! id)) || bool_decide (is_Some (gm (OldVoters c) !! id)).

Definition IsMember (c : Configuration) (id : Z) : bool :=
  IsVoter c id || bool_decide (is_Some (gm (Learners c) !! id)).

Definition Members (c : Configuration) : gmap Z string :=
  foldl (λ out set, write_all (gm set) out) ∅ [OldVoters c; Voters c; Learners c].

Definition Peers (c : Configuration) (self : Z) : gmap Z string :=
  delete self (Members c).

(** ** Quorums *)

Definition hasMajority (members : gomap string) (have : gomap bool) : bool :=
  if gm_len members =? 0 then true
  else
    let count := count_if (λ id, gm_bool have id) (range_keys members) in
    gm_len members `quot` 2 <? count.

Definition HasQuorum (c : Configuration) (have : gomap bool) : bool :=
  if negb (hasMajority (Voters c) have) then false
  else if IsJoint c && negb (hasMajority (OldVoters c) have) then false
  else true.

(** [sort.Sort(sort.Reverse(sort.IntSlice(indices)))] *)
Definition sort_descending (l : list Z) : list Z := merge_sort Z.ge l.

Definition majorityIndex (members : gomap string) (matchIndex : gmap Z Z) : Z :=
  if gm_len members =? 0 then 0
  else
    let indices := sort_descending (map (gm_int matchIndex) (range_keys members)) in
    default 0 (indices !! (length indices `div` 2)%nat).

Definition QuorumIndex (c : Configuration) (matchIndex : gmap Z Z) : Z :=
  let idx := majorityIndex (Voters c) matchIndex in
  if negb (IsJoint c) then idx
  else
    let old := majorityIndex (OldVoters c) matchIndex in
    if old <? idx then old else idx.

(** ** Membership change *)

Definition EnterJoint (c : Configuration) (target learners : gomap string) : Configuration :=
  let voters := copyMembers target in
  mkConfiguration voters (copyMembers (Voters c))
    (foldl (λ ls id, fmap (delete id) ls) (copyMembers learners) (range_keys voters)).

Definition LeaveJoint (c : Configuration) : Configuration :=
  mkConfiguration (copyMembers (Voters c)) None (copyMembers (Learners c)).

Definition Clone (c : Configuration) : Configuration :=
  mkConfiguration (copyMembers (Voters c)) (copyMembers (OldVoters c)) (copyMembers (Learners c)).

(** The first error a loop body returns, if any. *)
Fixpoint first_error {A} (check : A → option go_error) (l : list A) : option go_error :=
  match l with
  | [] => None
  | x :: l => match check x with Some e => Some e | None => first_error check l end
  end.

Definition Validate (c : Configuration) : option go_error :=
  if gm_len (Voters c) =? 0 then Some "configuration has no voters"%string
  else
    match first_error (λ '(id, addr),
            if id <=? 0 then Some ("voter id must be positive, got " +:+ pretty id)%string
            else if String.eqb addr "" then Some ("voter " +:+ pretty id +:+ " has no address")%string
            else None)
          (map_to_list (gm (Voters c))) with
    | Some e => Some e
    | None =>
        first_error (λ id,
            match gm (Voters c) !! id with
            | Some _ => Some ("server " +:+ pretty id +:+ " is both a voter and a learner")%string
            | None => None
            end)
          (range_keys (Learners c))
    end.

(** ** Rendering *)

(** [strings.Join] *)
Fixpoint strings_Join (parts : list string) (sep : string) : string :=
  match parts with
  | [] => ""
  | [p] => p
  | p :: ps => p +:+ sep +:+ strings_Join ps sep
  end.

Definition renderMembers (m : gomap string) : string :=
  let ids := merge_sort Z.le (range_keys m) in
  "[" +:+ strings_Join (map pretty ids) " " +:+ "]".

Definition String (c : Configuration) : string :=
  "voters=" +:+ renderMembers (Voters c)
  +:+ (if IsJoint c then " old=" +:+ renderMembers (OldVoters c) else "")
  +:+ (if 0 <? gm_len (Learners c) then " learners=" +:+ renderMembers (Learners c) else "").

Definition voters3 : gomap string :=
  Some {[1 := "a"; 2 := "b"; 3 := "c"]}%string.

Example majorityIndex_example :
  majorityIndex voters3 {[1 := 7; 2 := 4; 3 := 5]} = 5.
Proof. vm_compute. reflexivity. Qed.

Example String_example :
  String (EnterJoint (NewConfiguration voters3) (Some {[2 := "b"; 12 := "x"]}%string) None)
  = "voters=[2 12] old=[1 2 3]"%string.
Proof. vm_compute. reflexivity. Qed.

(** ** Maps are copied faithfully *)

Lemma write_all_lookup set out k :
  write_all set out !! k = match set !! k with Some v => Some v | None => out !! k end.
Proof.
  unfold write_all.
  assert (∀ l : list (Z * string), NoDup l.*1 → ∀ out : gmap Z string,
    foldl (λ out '(id, addr), <[id := addr]> out) out l !! k
    = match list_to_map (M := gmap Z string) l !! k with
      | Some v => Some v | None => out !! k end) as Hl.
  { clear. induction l as [|[id addr] l IH]; intros Hnd out; simpl; [done|].
    inv Hnd. rewrite IH by done.
    destruct (decide (id = k)) as [->|Hne].
    - rewrite lookup_insert_eq, not_elem_of_list_to_map_1 by done.
      by rewrite lookup_insert_eq.
    - by rewrite !lookup_insert_ne by done. }
  rewrite Hl by apply NoDup_fst_map_to_list. by rewrite list_to_map_to_list.
Qed.

Lemma copyMembers_id m : copyMembers m = m.
Proof.
  destruct m as [m|]; simpl; [|done]. f_equal.
  apply map_eq. intros k. rewrite write_all_lookup. by destruct (m !! k).
Qed.
#[export] Hint Rewrite copyMembers_id : crystal.

Lemma Clone_id c : Clone c = c.
Proof. unfold Clone. autorewrite with crystal. by destruct c. Qed.
#[export] Hint Rewrite Clone_id : crystal.

Lemma Members_lookup c k :
  Members c !! k =
  match gm (Learners c) !! k with Some a => Some a | None =>
  match gm (Voters c) !! k with Some a => Some a | None => gm (OldVoters c) !! k end end.
Proof.
  unfold Members. simpl. rewrite !write_all_lookup.
  by destruct (gm (Learners c) !! k), (gm (Voters c) !! k), (gm (OldVoters c) !! k).
Qed.

Lemma IsMember_Members c id : IsMember c id = true ↔ is_Some (Members c !! id).
Proof.
  unfold IsMember, IsVoter. rewrite Members_lookup, !orb_true_iff, !bool_decide_eq_true.
  destruct (gm (Learners c) !! id), (gm (Voters c) !! id), (gm (OldVoters c) !! id);
    naive_solver.
Qed.

(** ** Quorums as sets *)

(** The members a ballot [have] actually counts. *)
Definition backing (members : gomap string) (have : gomap bool) : gset Z :=
  filter (λ id, gm_bool have id = true) (dom (gm members)).

Lemma elem_of_backing members have id :
  id ∈ backing members have ↔ is_Some (gm members !! id) ∧ gm_bool have id = true.
Proof. unfold backing. rewrite elem_of_filter, elem_of_dom. naive_solver. Qed.

Lemma gm_len_zero {V} (m : gomap V) : gm_len m = 0 ↔ gm m = ∅.
Proof. unfold gm_len. rewrite <-map_size_empty_iff. lia. Qed.

Lemma gm_len_dom {V} (m : gomap V) : gm_len m = Z.of_nat (size (dom (gm m))).
Proof. unfold gm_len. by rewrite size_dom. Qed.

Lemma count_backing members have :
  count_if (λ id, gm_bool have id) (range_keys members) = Z.of_nat (size (backing members have)).
Proof.
  rewrite count_if_filter. f_equal.
  rewrite <-(size_list_to_set (C := gset Z)) by (apply NoDup_filter, NoDup_range_keys).
  f_equal. apply set_eq. intros id.
  rewrite elem_of_list_to_set, list_elem_of_filter, elem_of_backing, elem_of_range_keys, elem_of_dom.
  naive_solver.
Qed.

Lemma hasMajority_spec members have :
  hasMajority members have = true ↔
  gm members = ∅ ∨
  Z.of_nat (size (dom (gm members))) `div` 2 < Z.of_nat (size (backing members have)).
Proof.
  unfold hasMajority. rewrite count_backing, <-gm_len_zero.
  assert (0 ≤ gm_len members) by (unfold gm_len; lia).
  rewrite Z.quot_div_nonneg by lia. rewrite <-gm_len_dom.
  destruct (Z.eqb_spec (gm_len members) 0); [tauto|].
  rewrite Z.ltb_lt. tauto.
Qed.

Lemma IsJoint_spec c : IsJoint c = true ↔ gm (OldVoters c) ≠ ∅.
Proof.
  unfold IsJoint. rewrite Z.ltb_lt, <-gm_len_zero. unfold gm_len. lia.
Qed.

Lemma HasQuorum_spec c have :
  HasQuorum c have = true ↔
  hasMajority (Voters c) have = true ∧ hasMajority (OldVoters c) have = true.
Proof.
  unfold HasQuorum.
  destruct (hasMajority (Voters c) have); simpl; [|naive_solver].
  destruct (IsJoint c) eqn:Hj; simpl.
  - destruct (hasMajority (OldVoters c) have); naive_solver.
  - assert (hasMajority (OldVoters c) have = true) as ->; [|naive_solver].
    apply hasMajority_spec. left. destruct (decide (gm (OldVoters c) = ∅)); [done|].
    by apply IsJoint_spec in n; congruence.
Qed.

(** Two ballots that each carry a majority of one membership share a member. *)
Lemma hasMajority_meet members h1 h2 :
  gm members ≠ ∅ →
  hasMajority members h1 = true → hasMajority members h2 = true →
  ∃ id, is_Some (gm members !! id) ∧ gm_bool h1 id = true ∧ gm_bool h2 id = true.
Proof.
  intros Hne [?|H1]%hasMajority_spec [?|H2]%hasMajority_spec; try done.
  destruct (majorities_meet (dom (gm members)) (backing members h1) (backing members h2))
    as (id & Hi1 & Hi2); try done.
  1, 2: unfold backing; set_solver.
  rewrite elem_of_backing in Hi1, Hi2. exists id. naive_solver.
Qed.

(** ** The two questions are one

    [sort_descending l !! k] is at least [N] exactly when more than [k] elements
    of [l] are. *)
Lemma descending_rank l k v N :
  StronglySorted Z.ge l → l !! k = Some v →
  N ≤ v ↔ (k < length (filter (λ x, (N <=? x)%Z = true) l))%nat.
Proof.
  intros Hs. revert k. induction Hs as [|x l Hs IH Hx]; intros k Hk; [done|].
  rewrite filter_cons. rewrite Forall_forall in Hx.
  destruct k as [|k]; simpl in Hk.
  - injection Hk as ->. destruct (Z.leb_spec N v) as [Hle|Hgt]; case_decide; try done; simpl; [lia|].
    split; [lia|]. intros Hlt.
    destruct (filter _ l) as [|y ys] eqn:Hf; simpl in Hlt; [lia|].
    assert (y ∈ filter (λ x, (N <=? x)%Z = true) l) as Hy by (rewrite Hf; left).
    apply list_elem_of_filter in Hy as [Hy%Z.leb_le Hin]. specialize (Hx _ Hin). lia.
  - assert (v ∈ l) as Hv by (by eapply list_elem_of_lookup_2).
    specialize (Hx _ Hv). rewrite (IH k Hk).
    destruct (Z.leb_spec N x) as [Hle|Hgt]; case_decide; try done; simpl; [lia|].
    split; intros Hlt; exfalso; assert (N ≤ v) by (apply (IH k Hk); lia); lia.
Qed.

Lemma sort_descending_sorted l : StronglySorted Z.ge (sort_descending l).
Proof.
  assert (Total Z.ge) by (intros x y; lia).
  assert (Transitive Z.ge) by (intros x y z; lia).
  apply StronglySorted_merge_sort; apply _.
Qed.

Lemma sort_descending_Permutation l : sort_descending l ≡ₚ l.
Proof. apply merge_sort_Permutation. Qed.

(** The servers whose match index has reached [N], as a ballot. *)
Definition reached (matchIndex : gmap Z Z) (members : gmap Z string) (N : Z) : gmap Z bool :=
  map_imap (λ id _, Some (N <=? gm_int matchIndex id)) members.

Lemma gm_bool_reached matchIndex members N id :
  gm_bool (Some (reached matchIndex members N)) id
  = bool_decide (is_Some (members !! id)) && (N <=? gm_int matchIndex id).
Proof.
  unfold gm_bool, reached. simpl. rewrite map_lookup_imap.
  destruct (members !! id); simpl; [|done]. by destruct (N <=? _).
Qed.

(** Only the bindings of the members matter to a majority. *)
Lemma hasMajority_ext members h1 h2 :
  (∀ id, is_Some (gm members !! id) → gm_bool h1 id = gm_bool h2 id) →
  hasMajority members h1 = hasMajority members h2.
Proof.
  intros Heq. apply eq_true_iff_eq. rewrite !hasMajority_spec.
  assert (backing members h1 = backing members h2) as ->; [|done].
  apply set_eq. intros id. rewrite !elem_of_backing.
  split; intros [Hi Hh]; (split; [done|]); [rewrite <-Heq|rewrite Heq]; done.
Qed.

Lemma majorityIndex_spec members matchIndex all N :
  gm members ≠ ∅ → gm members ⊆ all →
  N ≤ majorityIndex members matchIndex ↔
  hasMajority members (Some (reached matchIndex all N)) = true.
Proof.
  intros Hne Hsub. unfold majorityIndex.
  destruct (Z.eqb_spec (gm_len members) 0) as [H0%gm_len_zero|Hn]; [done|].
  set (idx := map (gm_int matchIndex) (range_keys members)).
  assert (length (sort_descending idx) = size (gm members)) as Hlen.
  { rewrite sort_descending_Permutation. unfold idx, range_keys.
    by rewrite length_map, length_fmap, length_map_to_list. }
  assert (0 < size (gm members))%nat.
  { apply map_size_non_empty_iff in Hne. lia. }
  destruct (lookup_lt_is_Some_2 (sort_descending idx) (length (sort_descending idx) `div` 2))
    as [v Hv].
  { apply Nat.div_lt; lia. }
  rewrite Hv. simpl.
  rewrite (descending_rank _ _ _ _ (sort_descending_sorted idx) Hv), hasMajority_spec.
  rewrite (Permutation_length (filter_Permutation _ _ _ (sort_descending_Permutation idx))).
  assert (length (filter (λ x, (N <=? x)%Z = true) idx)
          = size (backing members (Some (reached matchIndex all N)))) as ->.
  { rewrite <-(Nat2Z.id (size _)), <-count_backing, count_if_filter, Nat2Z.id.
    apply length_filter_map. intros id [a Ha]%elem_of_range_keys%elem_of_dom.
    rewrite gm_bool_reached, bool_decide_eq_true_2; [done|].
    exists a. by eapply lookup_weaken. }
  rewrite Hlen, <-(size_dom (D := gset Z)). change 2 with (Z.of_nat 2).
  rewrite <-Nat2Z.inj_div. split; [intros; right|intros [?|?]; [done|]]; lia.
Qed.

(** ** Properties *)

Lemma QuorumIndex_min c matchIndex N :
  N ≤ QuorumIndex c matchIndex ↔
  N ≤ majorityIndex (Voters c) matchIndex ∧
  (IsJoint c = true → N ≤ majorityIndex (OldVoters c) matchIndex).
Proof.
  unfold QuorumIndex. destruct (IsJoint c); simpl; [|naive_solver].
  destruct (Z.ltb_spec (majorityIndex (OldVoters c) matchIndex) (majorityIndex (Voters c) matchIndex));
    naive_solver lia.
Qed.

(** The servers of a configuration whose log is known to reach [N]. *)
Definition reached_by (c : Configuration) (matchIndex : gmap Z Z) (N : Z) : gomap bool :=
  Some (reached matchIndex (Members c) N).

Lemma Voters_Members c k : is_Some (gm (Voters c) !! k) → is_Some (Members c !! k).
Proof. rewrite Members_lookup. by destruct (gm (Learners c) !! k), (gm (Voters c) !! k). Qed.

Lemma OldVoters_Members c k : is_Some (gm (OldVoters c) !! k) → is_Some (Members c !! k).
Proof.
  rewrite Members_lookup.
  by destruct (gm (Learners c) !! k), (gm (Voters c) !! k), (gm (OldVoters c) !! k).
Qed.

Lemma majorityIndex_reached members c matchIndex N :
  gm members ≠ ∅ →
  (∀ k, is_Some (gm members !! k) → is_Some (Members c !! k)) →
  N ≤ majorityIndex members matchIndex ↔
  hasMajority members (reached_by c matchIndex N) = true.
Proof.
  intros Hne Hsub. rewrite (majorityIndex_spec members matchIndex (gm members)) by done.
  rewrite (hasMajority_ext members _ (reached_by c matchIndex N)); [done|].
  intros id Hid. unfold reached_by. rewrite !gm_bool_reached.
  by rewrite !bool_decide_eq_true_2 by auto.
Qed.

Lemma QuorumIndex_HasQuorum (c : Configuration) (matchIndex : gmap Z Z) (N : Z) :
  gm (Voters c) ≠ ∅ →
  N ≤ QuorumIndex c matchIndex ↔ HasQuorum c (reached_by c matchIndex N) = true.
Proof.
  intros Hne. rewrite QuorumIndex_min, HasQuorum_spec.
  rewrite (majorityIndex_reached (Voters c) c) by auto using Voters_Members.
  destruct (IsJoint c) eqn:Hj.
  - rewrite (majorityIndex_reached (OldVoters c) c)
      by (auto using OldVoters_Members || by apply IsJoint_spec).
    naive_solver.
  - assert (hasMajority (OldVoters c) (reached_by c matchIndex N) = true).
    { apply hasMajority_spec. left. destruct (decide (gm (OldVoters c) = ∅)); [done|].
      by apply IsJoint_spec in n; congruence. }
    naive_solver.
Qed.

(** The frontier is no higher than the highest known match index. *)
Lemma QuorumIndex_le (c : Configuration) (matchIndex : gmap Z Z) (B : Z) :
  gm (Voters c) ≠ ∅ → 0 ≤ B → map_Forall (λ _ m, m ≤ B) matchIndex → QuorumIndex c matchIndex ≤ B.
Proof.
  intros Hne HB Hall. destruct (Z.le_gt_cases (QuorumIndex c matchIndex) B) as [|Hgt]; [done|].
  assert (B + 1 ≤ QuorumIndex c matchIndex) as Hq by lia.
  apply QuorumIndex_HasQuorum in Hq; [|done]. apply HasQuorum_spec in Hq as [Hq _].
  destruct (hasMajority_meet _ _ _ Hne Hq Hq) as (id & _ & Hid & _).
  unfold reached_by in Hid. rewrite gm_bool_reached in Hid. b2p. unfold gm_int in *.
  destruct (matchIndex !! id) as [m|] eqn:Hm; simpl in *; [|lia]. specialize (Hall _ _ Hm). simpl in Hall. lia.
Qed.

(** C24: commitment and election ask the same question.  An index is at or below
    the quorum frontier exactly when the servers that have replicated it form a
    quorum, in simple and in joint configurations alike; so [QuorumIndex] is the
    highest index a quorum holds. *)
Theorem QuorumIndex_is_quorum (c : Configuration) (matchIndex : gmap Z Z) (N : Z) :
  gm (Voters c) ≠ ∅ →
  N ≤ QuorumIndex c matchIndex ↔ HasQuorum c (reached_by c matchIndex N) = true.
Proof. apply QuorumIndex_HasQuorum. Qed.

(** C23: any two agreements of one configuration share a voter, joint or not: the
    fact both Election Safety and Leader Completeness rest on. *)
Theorem quorums_intersect (c : Configuration) (h1 h2 : gomap bool) :
  gm (Voters c) ≠ ∅ →
  HasQuorum c h1 = true → HasQuorum c h2 = true →
  ∃ id, is_Some (gm (Voters c) !! id) ∧ gm_bool h1 id = true ∧ gm_bool h2 id = true.
Proof.
  intros Hne [H1 _]%HasQuorum_spec [H2 _]%HasQuorum_spec. by eapply hasMajority_meet.
Qed.

Lemma EnterJoint_OldVoters c target learners : OldVoters (EnterJoint c target learners) = Voters c.
Proof. simpl. by autorewrite with crystal. Qed.

Lemma EnterJoint_Voters c target learners : Voters (EnterJoint c target learners) = target.
Proof. simpl. by autorewrite with crystal. Qed.

Lemma LeaveJoint_Voters c : Voters (LeaveJoint c) = Voters c.
Proof. simpl. by autorewrite with crystal. Qed.

(** Deleting a list of keys from a possibly nil map. *)
Lemma delete_keys_lookup (ids : list Z) (m : gomap string) k :
  gm (foldl (λ ls id, fmap (delete id) ls) m ids) !! k =
  if bool_decide (k ∈ ids) then None else gm m !! k.
Proof.
  revert m. induction ids as [|id ids IH]; intros m; simpl; [done|].
  rewrite IH. repeat case_bool_decide; try set_solver.
  all: destruct m as [m|]; simpl; [|by rewrite ?lookup_empty].
  all: destruct (decide (id = k)) as [->|Hne];
    [rewrite lookup_delete_eq|rewrite lookup_delete_ne by done]; try done; set_solver.
Qed.

Lemma EnterJoint_Learners c target learners k :
  gm (Learners (EnterJoint c target learners)) !! k =
  match gm target !! k with Some _ => None | None => gm learners !! k end.
Proof.
  simpl. autorewrite with crystal. rewrite delete_keys_lookup.
  case_bool_decide as Hk; rewrite elem_of_range_keys, elem_of_dom in Hk.
  - by destruct Hk as [? ->].
  - apply eq_None_not_Some in Hk. by rewrite Hk.
Qed.

(** the joint step makes a membership change safe.  An agreement of the old
    configuration meets every agreement of the joint one in an old voter, and an
    agreement of the joint one meets every agreement of the configuration it
    leads to in a new voter, whatever the two memberships are. *)
Theorem joint_consensus_safe (c : Configuration) (target learners : gomap string)
    (h_old h_joint h_new : gomap bool) :
  gm (Voters c) ≠ ∅ → gm target ≠ ∅ →
  HasQuorum c h_old = true →
  HasQuorum (EnterJoint c target learners) h_joint = true →
  HasQuorum (LeaveJoint (EnterJoint c target learners)) h_new = true →
  (∃ id, is_Some (gm (Voters c) !! id) ∧ gm_bool h_old id = true ∧ gm_bool h_joint id = true) ∧
  (∃ id, is_Some (gm target !! id) ∧ gm_bool h_joint id = true ∧ gm_bool h_new id = true).
Proof.
  intros Hc Ht [Ho _]%HasQuorum_spec [Hjn Hjo]%HasQuorum_spec [Hn _]%HasQuorum_spec.
  rewrite LeaveJoint_Voters, EnterJoint_Voters in Hn.
  rewrite EnterJoint_Voters in Hjn. rewrite EnterJoint_OldVoters in Hjo.
  split; by eapply hasMajority_meet.
Qed.

(** What [Validate] accepts. *)
Definition valid_config (c : Configuration) : Prop :=
  gm (Voters c) ≠ ∅ ∧
  (∀ id addr, gm (Voters c) !! id = Some addr → 0 < id ∧ addr ≠ ""%string) ∧
  (∀ id, is_Some (gm (Learners c) !! id) → gm (Voters c) !! id = None).

Lemma first_error_None {A} (check : A → option string) l :
  first_error check l = None ↔ ∀ x, x ∈ l → check x = None.
Proof.
  induction l as [|x l IH]; simpl; [set_solver|].
  destruct (check x) eqn:Hx; [|rewrite IH; set_solver].
  split; [done|]. intros Hall. rewrite Hall in Hx by left. done.
Qed.

Lemma Validate_spec (c : Configuration) : Validate c = None ↔ valid_config c.
Proof.
  unfold Validate, valid_config. rewrite <-gm_len_zero.
  destruct (Z.eqb_spec (gm_len (Voters c)) 0) as [H0|Hn]; [naive_solver|].
  destruct (first_error _ (map_to_list _)) as [e|] eqn:Hf.
  - split; [done|]. intros (_ & Hv & _).
    assert (first_error (λ '(id, addr),
            if id <=? 0 then Some ("voter id must be positive, got " +:+ pretty id)%string
            else if String.eqb addr "" then Some ("voter " +:+ pretty id +:+ " has no address")%string
            else None) (map_to_list (gm (Voters c))) = None); [|congruence].
    apply first_error_None. intros [id addr] [Hp Ha]%elem_of_map_to_list%Hv.
    destruct (Z.leb_spec id 0); [lia|]. by apply String.eqb_neq in Ha as ->.
  - rewrite first_error_None in Hf. rewrite first_error_None.
    setoid_rewrite elem_of_range_keys. setoid_rewrite elem_of_dom.
    assert (∀ id addr, gm (Voters c) !! id = Some addr → 0 < id ∧ addr ≠ ""%string).
    { intros id addr Hl%elem_of_map_to_list%Hf.
      destruct (Z.leb_spec id 0); [done|]. destruct (String.eqb_spec addr ""); [done|].
      split; [lia|done]. }
    split; [|intros (_ & _ & Hl) id Hid; by rewrite Hl].
    intros Hl. split; [done|]. split; [done|]. intros id Hid. specialize (Hl id Hid).
    by destruct (gm (Voters c) !! id).
Qed.

Lemma Validate_voters c : Validate c = None → gm (Voters c) ≠ ∅.
Proof. by intros [? _]%Validate_spec. Qed.

(** [Validate] returns nil exactly on the usable configurations: at least one
    voter, every voter with a positive id and an address, no server both voter
    and learner; the map iteration order decides only which error is reported. *)
Theorem Validate_correct (c : Configuration) : Validate c = None ↔ valid_config c.
Proof. apply Validate_spec. Qed.

(** Entering a joint configuration towards a usable membership gives a usable
    configuration: whoever is promoted to voter stops being a learner. *)
Theorem EnterJoint_valid (c : Configuration) (target learners : gomap string) :
  Validate (NewConfiguration target) = None →
  Validate (EnterJoint c target learners) = None.
Proof.
  rewrite !Validate_spec. unfold valid_config.
  rewrite EnterJoint_Voters. unfold NewConfiguration. cbn [Voters Learners].
  autorewrite with crystal. intros (Hne & Hv & _). split; [done|]. split; [done|].
  intros id [a Ha]. rewrite EnterJoint_Learners in Ha. by destruct (gm target !! id).
Qed.

(** Without the joint step two memberships can act independently. *)
Example direct_switch_splits :
  let c_old := NewConfiguration voters3 in
  let c_new := NewConfiguration (Some {[3 := "c"; 4 := "d"; 5 := "e"]})%string in
  HasQuorum c_old (Some {[1 := true; 2 := true]}) = true ∧
  HasQuorum c_new (Some {[4 := true; 5 := true]}) = true ∧
  HasQuorum (EnterJoint c_old (Voters c_new) None) (Some {[4 := true; 5 := true]}) = false.
Proof. vm_compute. done. Qed.
