(* ===== verification/Os.v ===== *)
(** * The file system the program writes to (Go's os package)

    One directory of regular files, with the two gaps durability has to close:
    bytes written but not fsynced, and directory entries changed but not synced.
    Every system call may fail, possibly after taking partial effect, and the
    machine may stop at any call; both are decided by a script of [fault]s the
    theorems quantify over.  After a stop, later calls have no effect, so the
    final state of a run is the state of the disk at the moment of the crash. *)

From Stdlib Require Export Strings.Byte.
From S2P Require Import Prelude.

Abbreviation bytes := (list Byte.byte).

(** ** State *)

(** The contents of a file: as the running program reads it, and as of the last
    completed fsync. *)
Record inode := mkInode { i_data : bytes; i_synced : bytes }.

(** [fs_dir] is the directory as the program sees it.  [fs_old p] lists the
    bindings of [p] that unsynced operations replaced ([None]: no file): any of
    them may still be what the disk holds. *)
Record Fs := mkFs {
  fs_inodes : gmap nat inode;
  fs_next : nat;
  fs_dir : gmap string nat;
  fs_old : gmap string (list (option nat));
}.

(** What happens at one system call.  A failing or crashing write may first get
    [n] bytes out. *)
Inductive fault := FOk | FFail (n : nat) | FCrash (n : nat).

Record Os := mkOs { os_fs : Fs; os_faults : list fault; os_dead : bool }.

(** ** System calls *)

Abbreviation io := (M Os).

(** One system call: [act] is its effect, [partial n] what an interrupted call
    leaves behind. *)
Definition syscall {A} (partial : nat → Fs → Fs) (act : Fs → result A * Fs) : io A := λ os,
  if os_dead os then (Err "machine stopped"%string, os)
  else
    match os_faults os with
    | FFail n :: fl => (Err "input/output error"%string, mkOs (partial n (os_fs os)) fl false)
    | FCrash n :: fl => (Err "machine stopped"%string, mkOs (partial n (os_fs os)) fl true)
    | fl => let '(r, fs') := act (os_fs os) in (r, mkOs fs' (tail fl) false)
    end.

Definition no_effect (n : nat) (fs : Fs) : Fs := fs.

Definition old_bindings (fs : Fs) (p : string) : list (option nat) := default [] (fs_old fs !! p).

(** Bind [p] to [b], remembering the binding it replaces until the next directory
    sync. *)
Definition fs_rebind (p : string) (i : nat) (fs : Fs) : Fs :=
  mkFs (fs_inodes fs) (fs_next fs) (<[p := i]> (fs_dir fs))
       (<[p := (fs_dir fs !! p) :: old_bindings fs p]> (fs_old fs)).

Definition fs_update (i : nat) (f : inode → inode) (fs : Fs) : Fs :=
  mkFs (alter f i (fs_inodes fs)) (fs_next fs) (fs_dir fs) (fs_old fs).

(** A new empty file at [p]. *)
Definition fs_create (p : string) (fs : Fs) : Fs :=
  let i := fs_next fs in
  fs_rebind p i (mkFs (<[i := mkInode [] []]> (fs_inodes fs)) (S i) (fs_dir fs) (fs_old fs)).

(** [os.OpenFile(p, O_CREATE|..., 0666)]: the file at [p], created if missing. *)
Definition os_OpenFile (p : string) : io nat :=
  syscall no_effect (λ fs,
    match fs_dir fs !! p with
    | Some i => (Ok i, fs)
    | None => (Ok (fs_next fs), fs_create p fs)
    end).

(** [os.OpenFile(p, O_CREATE|O_TRUNC|..., 0666)] *)
Definition os_OpenTrunc (p : string) : io nat :=
  syscall no_effect (λ fs,
    match fs_dir fs !! p with
    | Some i => (Ok i, fs_update i (λ nd, mkInode [] (i_synced nd)) fs)
    | None => (Ok (fs_next fs), fs_create p fs)
    end).

Definition append_data (bs : bytes) (nd : inode) : inode :=
  mkInode (i_data nd ++ bs) (i_synced nd).

(** [f.Write(bs)] at the end of the file: every write of the program is one. *)
Definition file_Write (i : nat) (bs : bytes) : io unit :=
  syscall (λ n, fs_update i (append_data (take n bs)))
          (λ fs, (Ok tt, fs_update i (append_data bs) fs)).

Definition sync_data (nd : inode) : inode := mkInode (i_data nd) (i_data nd).

Definition file_Sync (i : nat) : io unit :=
  syscall no_effect (λ fs, (Ok tt, fs_update i sync_data fs)).

Definition file_Close (i : nat) : io unit :=
  syscall no_effect (λ fs, (Ok tt, fs)).

Definition file_Truncate (i : nat) (n : nat) : io unit :=
  syscall no_effect (λ fs, (Ok tt, fs_update i (λ nd, mkInode (take n (i_data nd)) (i_synced nd)) fs)).

Definition os_Rename (a b : string) : io unit :=
  syscall no_effect (λ fs,
    match fs_dir fs !! a with
    | None => (Err "no such file or directory"%string, fs)
    | Some i =>
        let fs' := fs_rebind b i fs in
        (Ok tt, mkFs (fs_inodes fs') (fs_next fs') (delete a (fs_dir fs')) (fs_old fs'))
    end).

(** [os.Open(dir)] for reading *)
Definition os_OpenDir : io unit := syscall no_effect (λ fs, (Ok tt, fs)).

Definition dir_Sync : io unit :=
  syscall no_effect (λ fs, (Ok tt, mkFs (fs_inodes fs) (fs_next fs) (fs_dir fs) ∅)).

(** What the running program reads at [p]. *)
Definition visible (fs : Fs) (p : string) : option bytes :=
  i ← fs_dir fs !! p; nd ← fs_inodes fs !! i; Some (i_data nd).

(** [os.ReadFile(p)]; [None] is [os.IsNotExist]. *)
Definition os_ReadFile (p : string) : io (option bytes) :=
  syscall no_effect (λ fs, (Ok (visible fs p), fs)).

(** ** Crashes

    After a crash a file holds its last fsynced contents, or those plus part of
    what was written since; a path holds its current binding or one that an
    unsynced directory operation replaced. *)

Definition crash_data (nd : inode) (d : bytes) : Prop :=
  d = i_synced nd ∨
  (d `prefix_of` i_data nd ∧ (i_synced nd `prefix_of` i_data nd → i_synced nd `prefix_of` d)).

Definition crash_binding (fs : Fs) (p : string) (b : option nat) : Prop :=
  b = fs_dir fs !! p ∨ b ∈ old_bindings fs p.

(** [crash_content fs p c]: after a crash in state [fs], [p] may hold [c]. *)
Definition crash_content (fs : Fs) (p : string) (c : option bytes) : Prop :=
  ∃ b, crash_binding fs p b ∧
    match b, c with
    | None, None => True
    | Some i, Some d => ∃ nd, fs_inodes fs !! i = Some nd ∧ crash_data nd d
    | _, _ => False
    end.

(** The disk a restarted machine may find: every path holds something the crash
    allowed, and nothing is pending.  It is the machine that stops.  When only the
    process does, the next one finds what was visible, still unsynced: that is the
    state of the disk itself, with no step in between ([Load_not_durable] in
    StateFile.v is about a start from one). *)
Definition all_synced (fs : Fs) : Prop :=
  fs_old fs = ∅ ∧ ∀ i nd, fs_inodes fs !! i = Some nd → i_synced nd = i_data nd.

(** Well-formed file systems: bindings name existing inodes, no two paths share
    one, and an inode that is bound is not also a replaced binding. *)
Record fs_wf (fs : Fs) : Prop := {
  wf_dir : ∀ p i, fs_dir fs !! p = Some i → (i < fs_next fs)%nat ∧ is_Some (fs_inodes fs !! i);
  wf_old : ∀ p i, Some i ∈ old_bindings fs p → (i < fs_next fs)%nat ∧ is_Some (fs_inodes fs !! i);
  wf_inj : ∀ p q i, fs_dir fs !! p = Some i → fs_dir fs !! q = Some i → p = q;
  wf_replaced : ∀ p q i, fs_dir fs !! p = Some i → Some i ∉ old_bindings fs q;
}.

Definition reboot (os os' : Os) : Prop :=
  fs_wf (os_fs os') ∧ all_synced (os_fs os') ∧ os_dead os' = false ∧
  ∀ p, crash_content (os_fs os) p (visible (os_fs os') p).

(** ** Reasoning about calls *)

(** A call either takes effect or fails, leaving nothing or a partial effect. *)
Lemma syscall_inv {A} partial (act : Fs → result A * Fs) os r os' :
  syscall partial act os = (r, os') →
  (r, os_fs os') = act (os_fs os) ∨
  (∃ e, r = Err e) ∧ (os_fs os' = os_fs os ∨ ∃ n, os_fs os' = partial n (os_fs os)).
Proof.
  unfold syscall. destruct (os_dead os).
  { intros [= <- <-]. right. eauto. }
  destruct (os_faults os) as [|[|n|n] fl]; simpl.
  1, 2: destruct (act (os_fs os)) as [r1 fs1] eqn:Ha; intros [= <- <-]; left; simpl; congruence.
  all: intros [= <- <-]; right; simpl; eauto.
Qed.

(** Without faults every call takes effect. *)
Lemma syscall_no_faults {A} partial (act : Fs → result A * Fs) os :
  os_dead os = false → os_faults os = [] →
  syscall partial act os = ((act (os_fs os)).1, mkOs (act (os_fs os)).2 [] false).
Proof.
  unfold syscall. intros -> ->. simpl. by destruct (act (os_fs os)).
Qed.

Lemma visible_crash fs p : fs_wf fs → ∃ c, crash_content fs p c.
Proof.
  intros Hwf. destruct (fs_dir fs !! p) as [i|] eqn:Hp.
  - destruct (wf_dir _ Hwf p i Hp) as [_ [nd Hnd]].
    exists (Some (i_synced nd)), (Some i). split; [by left|]. exists nd. split; [done|by left].
  - exists None, None. split; [by left|done].
Qed.

Lemma crash_data_synced nd d : i_synced nd = i_data nd → crash_data nd d → d = i_data nd.
Proof.
  intros Hs [->|[Hp Hk]]; [done|]. rewrite Hs in Hk.
  apply (anti_symm prefix); [done|]. by apply Hk.
Qed.

(** On a settled disk a crash can only show what is visible. *)
Lemma crash_content_settled fs p c :
  fs_wf fs → all_synced fs → crash_content fs p c → c = visible fs p.
Proof.
  intros Hwf [Hold Hsy] (b & Hb & Hc).
  unfold crash_binding, old_bindings in Hb. rewrite Hold, lookup_empty in Hb. simpl in Hb.
  destruct Hb as [->|Hb]; [|by apply not_elem_of_nil in Hb].
  unfold visible. destruct (fs_dir fs !! p) as [i|], c as [d|]; simpl in *; try done.
  destruct Hc as (nd & Hnd & Hd). rewrite Hnd. simpl.
  f_equal. eapply crash_data_synced; eauto.
Qed.

(** ** What each call leaves alone *)

(** The program reads the same at [p], and a crash reveals nothing it could not
    reveal before. *)
Definition same_at (p : string) (fs fs' : Fs) : Prop :=
  visible fs' p = visible fs p ∧ ∀ c, crash_content fs' p c → crash_content fs p c.

#[export] Instance same_at_preorder p : PreOrder (same_at p).
Proof.
  split; [by split|]. intros x y z [H1 H2] [H3 H4].
  split; [congruence|]. auto.
Qed.

(** No binding of [p], current or replaced, is the inode [i]. *)
Definition unbound (fs : Fs) (i : nat) (p : string) : Prop :=
  fs_dir fs !! p ≠ Some i ∧ Some i ∉ old_bindings fs p.

Lemma unbound_other fs t i p :
  fs_wf fs → fs_dir fs !! t = Some i → p ≠ t → unbound fs i p.
Proof.
  intros Hwf Ht Hne. split.
  - intros Hp. apply Hne. by eapply wf_inj.
  - by eapply wf_replaced.
Qed.

Lemma unbound_crash fs i p b : unbound fs i p → crash_binding fs p b → b ≠ Some i.
Proof. intros [H1 H2] [->|H]; congruence. Qed.

Lemma fs_update_wf i f fs : fs_wf fs → fs_wf (fs_update i f fs).
Proof.
  intros [Hd Ho Hi Hr]. split; simpl; try done.
  - intros p j Hp. destruct (Hd p j Hp). rewrite lookup_alter_is_Some. done.
  - intros p j Hp. destruct (Ho p j Hp). rewrite lookup_alter_is_Some. done.
Qed.

Lemma fs_update_same i f fs p : unbound fs i p → same_at p fs (fs_update i f fs).
Proof.
  intros Hu. split.
  - unfold visible. simpl. destruct (fs_dir fs !! p) as [j|] eqn:Hp; simpl; [|done].
    rewrite lookup_alter_ne; [done|]. intros ->. by destruct Hu.
  - intros c. refine (proj1 (_ : _ ↔ _)). unfold crash_content, crash_binding, old_bindings. simpl.
    apply exist_proper. intros b. apply and_iff_restrict. intros Hb.
    assert (b ≠ Some i) by (by eapply unbound_crash).
    destruct b as [j|]; [|done]. rewrite lookup_alter_ne by congruence. done.
Qed.

(** The inode a fresh file gets is bound nowhere. *)
Lemma unbound_fresh fs p : fs_wf fs → unbound fs (fs_next fs) p.
Proof.
  intros Hwf. split.
  - intros [? _]%(wf_dir _ Hwf). lia.
  - intros [? _]%(wf_old _ Hwf). lia.
Qed.

Lemma old_bindings_rebind p q i fs :
  old_bindings (fs_rebind p i fs) q
  = if decide (p = q) then (fs_dir fs !! p) :: old_bindings fs p else old_bindings fs q.
Proof.
  unfold old_bindings at 1. simpl. case_decide as Hd.
  - subst. by rewrite lookup_insert_eq.
  - by rewrite lookup_insert_ne.
Qed.

Lemma fs_create_wf p fs : fs_wf fs → fs_dir fs !! p = None → fs_wf (fs_create p fs).
Proof.
  intros Hwf Hp. split; intros q.
  - intros i. simpl. intros [[<- <-]|[Hne Hq]]%lookup_insert_Some.
    + rewrite lookup_insert_eq. split; [lia|eauto].
    + destruct (wf_dir _ Hwf q i Hq). rewrite lookup_insert_ne by lia. split; [lia|done].
  - intros i. unfold fs_create. rewrite old_bindings_rebind. cbn [fs_next fs_inodes fs_rebind fs_dir].
    change (old_bindings _ q) with (old_bindings fs q).
    change (old_bindings _ p) with (old_bindings fs p).
    intros Hi. assert (Some i ∈ old_bindings fs q) as Ho.
    { case_decide; [|done]. subst. rewrite Hp in Hi. set_solver. }
    destruct (wf_old _ Hwf q i Ho). rewrite lookup_insert_ne by lia. split; [lia|done].
  - intros q' i. simpl. intros [[<- <-]|[Hne Hq]]%lookup_insert_Some [[<- ?]|[Hne' Hq']]%lookup_insert_Some;
      try done.
    + by destruct (unbound_fresh fs q' Hwf).
    + subst. by destruct (unbound_fresh fs q Hwf).
    + by eapply wf_inj.
  - intros q' i. unfold fs_create. rewrite old_bindings_rebind. cbn [fs_next fs_inodes fs_rebind fs_dir].
    change (old_bindings _ q') with (old_bindings fs q').
    change (old_bindings _ p) with (old_bindings fs p).
    intros Hq. assert (Some i ∉ old_bindings fs q') as Ho.
    { apply lookup_insert_Some in Hq as [[_ <-]|[_ Hq]].
      - by apply unbound_fresh.
      - by eapply wf_replaced. }
    case_decide; [|done]. subst. rewrite Hp. set_solver.
Qed.

Lemma fs_create_same p q fs : fs_wf fs → q ≠ p → same_at q fs (fs_create p fs).
Proof.
  intros Hwf Hne. pose proof (unbound_fresh fs q Hwf) as Hu. split.
  - unfold visible. simpl. rewrite lookup_insert_ne by done.
    destruct (fs_dir fs !! q) as [j|] eqn:Hq; simpl; [|done].
    rewrite lookup_insert_ne; [done|]. intros <-. by destruct Hu.
  - intros c. refine (proj1 (_ : _ ↔ _)). unfold crash_content, crash_binding.
    unfold fs_create at 1 2. rewrite old_bindings_rebind, decide_False by done. simpl.
    rewrite lookup_insert_ne by done.
    apply exist_proper. intros b. apply and_iff_restrict. intros Hb.
    assert (b ≠ Some (fs_next fs)) by (by eapply unbound_crash).
    destruct b as [j|]; [|done]. rewrite lookup_insert_ne by congruence. done.
Qed.
