(* ===== verification/Json.v ===== *)
(** * encoding/json as the program uses it

    Everything the program stores or sends is JSON: log entries, commands, the
    metadata record, snapshots and every RPC.  This file models the encoder and
    decoder on the values those types need (objects, arrays, integers, strings,
    booleans, null), base64 for byte slices, Go's field matching, and proves that
    what is printed parses back.

    Two simplifications, stated once: numbers are integers (no type of the program
    has a float, so a fraction or exponent is an error here as it is for a Go int
    field), and bytes above 127 are copied, which is what Go does for valid UTF-8. *)

From Stdlib Require Import Strings.Byte Decimal DecimalN.
From S2P Require Import Prelude Os.

(** ** Values and text *)

Inductive json :=
  | JNull
  | JBool (b : bool)
  | JNum (z : Z)
  | JStr (s : bytes)
  | JArr (l : list json)
  | JObj (m : list (bytes * json)).

Definition str (s : string) : bytes := String.list_byte_of_string s.

#[export] Instance byte_eq_dec : EqDecision Byte.byte := Byte.byte_eq_dec.

Definition byte_val (b : Byte.byte) : Z := Z.of_N (Byte.to_N b).

Definition byte_at (z : Z) : Byte.byte := default x00 (Byte.of_N (Z.to_N z)).

(** ** Printing *)

Fixpoint uint_bytes (d : Decimal.uint) : bytes :=
  match d with
  | Nil => []
  | D0 d => "0"%byte :: uint_bytes d
  | D1 d => "1"%byte :: uint_bytes d
  | D2 d => "2"%byte :: uint_bytes d
  | D3 d => "3"%byte :: uint_bytes d
  | D4 d => "4"%byte :: uint_bytes d
  | D5 d => "5"%byte :: uint_bytes d
  | D6 d => "6"%byte :: uint_bytes d
  | D7 d => "7"%byte :: uint_bytes d
  | D8 d => "8"%byte :: uint_bytes d
  | D9 d => "9"%byte :: uint_bytes d
  end.

Definition render_num (z : Z) : bytes :=
  (if z <? 0 then ["-"%byte] else []) ++ uint_bytes (N.to_uint (Z.to_N (Z.abs z))).

Definition hex_digit (n : Z) : Byte.byte :=
  byte_at (if n <? 10 then n + 48 else n + 87).

(** The encoder's escapes, HTML-unsafe characters included. *)
Definition render_char (b : Byte.byte) : bytes :=
  if decide (b = x22) then [x5c; x22]
  else if decide (b = x5c) then [x5c; x5c]
  else if decide (b = x08) then str "\b"
  else if decide (b = x0c) then str "\f"
  else if decide (b = x0a) then str "\n"
  else if decide (b = x0d) then str "\r"
  else if decide (b = x09) then str "\t"
  else if decide (byte_val b < 32 ∨ b = "<"%byte ∨ b = ">"%byte ∨ b = "&"%byte) then
    str "\u00" ++ [hex_digit (byte_val b / 16); hex_digit (byte_val b mod 16)]
  else [b].

Definition render_string (s : bytes) : bytes := x22 :: concat (map render_char s) ++ [x22].

Fixpoint join (sep : Byte.byte) (l : list bytes) : bytes :=
  match l with
  | [] => []
  | [x] => x
  | x :: l => x ++ sep :: join sep l
  end.

Fixpoint render (j : json) : bytes :=
  match j with
  | JNull => str "null"
  | JBool true => str "true"
  | JBool false => str "false"
  | JNum z => render_num z
  | JStr s => render_string s
  | JArr l => "["%byte :: join ","%byte (map render l) ++ ["]"%byte]
  | JObj m =>
      "{"%byte :: join ","%byte (map (λ '(k, v), render_string k ++ ":"%byte :: render v) m)
        ++ ["}"%byte]
  end.

(** ** Parsing *)

Definition is_ws (b : Byte.byte) : bool :=
  bool_decide (b = x20 ∨ b = x09 ∨ b = x0a ∨ b = x0d).

Fixpoint skip_ws (bs : bytes) : bytes :=
  match bs with
  | b :: r => if is_ws b then skip_ws r else bs
  | [] => []
  end.

Definition digit_of (b : Byte.byte) : option (Decimal.uint → Decimal.uint) :=
  match b with
  | "0" => Some D0 | "1" => Some D1 | "2" => Some D2 | "3" => Some D3 | "4" => Some D4
  | "5" => Some D5 | "6" => Some D6 | "7" => Some D7 | "8" => Some D8 | "9" => Some D9
  | _ => None
  end%byte.

Fixpoint parse_digits (bs : bytes) : Decimal.uint * bytes :=
  match bs with
  | [] => (Nil, [])
  | b :: r =>
      match digit_of b with
      | Some d => let '(u, r') := parse_digits r in (d u, r')
      | None => (Nil, bs)
      end
  end.

Definition bad_number : string := "invalid number literal".

(** Digits with no leading zero, and neither fraction nor exponent. *)
Definition parse_num (neg : bool) (bs : bytes) : result (json * bytes) :=
  let '(u, r) := parse_digits bs in
  match u, r with
  | Nil, _ => Err bad_number
  | D0 (D0 _ | D1 _ | D2 _ | D3 _ | D4 _ | D5 _ | D6 _ | D7 _ | D8 _ | D9 _), _ => Err bad_number
  | _, ("." | "e" | "E")%byte :: _ => Err bad_number
  | _, _ => let n := Z.of_N (N.of_uint u) in Ok (JNum (if neg then - n else n), r)
  end.

Definition hex_val (b : Byte.byte) : option Z :=
  let n := byte_val b in
  if decide (48 ≤ n ≤ 57) then Some (n - 48)
  else if decide (97 ≤ n ≤ 102) then Some (n - 87)
  else if decide (65 ≤ n ≤ 70) then Some (n - 55)
  else None.

Definition hex4 (a b c d : Byte.byte) : option Z :=
  a ← hex_val a; b ← hex_val b; c ← hex_val c; d ← hex_val d;
  Some (a * 4096 + b * 256 + c * 16 + d).

Definition utf8 (r : Z) : bytes :=
  if r <? 128 then [byte_at r]
  else if r <? 2048 then [byte_at (192 + r / 64); byte_at (128 + r mod 64)]
  else if r <? 65536 then
    [byte_at (224 + r / 4096); byte_at (128 + (r / 64) mod 64); byte_at (128 + r mod 64)]
  else
    [byte_at (240 + r / 262144); byte_at (128 + (r / 4096) mod 64);
     byte_at (128 + (r / 64) mod 64); byte_at (128 + r mod 64)].

Definition prepend (p : bytes) (r : result (bytes * bytes)) : result (bytes * bytes) :=
  match r with Ok (s, rest) => Ok (p ++ s, rest) | Err e => Err e end.

Definition bad_string : string := "invalid string literal".

(** The value of a one-letter escape. *)
Definition short_escape (b : Byte.byte) : option Byte.byte :=
  if decide (b = x22) then Some x22 else if decide (b = x5c) then Some x5c
  else if decide (b = "/"%byte) then Some "/"%byte
  else if decide (b = "b"%byte) then Some x08 else if decide (b = "f"%byte) then Some x0c
  else if decide (b = "n"%byte) then Some x0a else if decide (b = "r"%byte) then Some x0d
  else if decide (b = "t"%byte) then Some x09 else None.

(** The body of a string literal, after its opening quote.  A lone surrogate
    decodes to U+FFFD, a pair to the character it encodes. *)
Fixpoint parse_string (bs : bytes) : result (bytes * bytes) :=
  match bs with
  | [] => Err bad_string
  | x22 :: r => Ok ([], r)
  | x5c :: e :: r =>
      match short_escape e with
      | Some c => prepend [c] (parse_string r)
      | None =>
          match e, r with
          | "u"%byte, a :: b :: c :: d :: r =>
              match hex4 a b c d with
              | None => Err bad_string
              | Some hi =>
                  if decide (55296 ≤ hi < 57344) then
                    match r with
                    | x5c :: "u"%byte :: a :: b :: c :: d :: r' =>
                        match hex4 a b c d with
                        | Some lo =>
                            if decide (hi < 56320 ∧ 56320 ≤ lo < 57344) then
                              prepend (utf8 (65536 + (hi - 55296) * 1024 + (lo - 56320))) (parse_string r')
                            else prepend (utf8 65533) (parse_string r)
                        | None => prepend (utf8 65533) (parse_string r)
                        end
                    | _ => prepend (utf8 65533) (parse_string r)
                    end
                  else prepend (utf8 hi) (parse_string r)
              end
          | _, _ => Err bad_string
          end
      end
  | b :: r => if byte_val b <? 32 then Err bad_string else prepend [b] (parse_string r)
  end.

Definition bad_syntax : string := "invalid character".

Fixpoint strip_prefix (p bs : bytes) : option bytes :=
  match p, bs with
  | [], _ => Some bs
  | x :: p, y :: bs => if decide (x = y) then strip_prefix p bs else None
  | _, [] => None
  end.

Definition literal (p : bytes) (j : json) (bs : bytes) : result (json * bytes) :=
  match strip_prefix p bs with Some r => Ok (j, r) | None => Err bad_syntax end.

(** Recursive descent; every call consumes a byte before recurring, so the length
    of the input is enough fuel. *)
Fixpoint parse_value (fuel : nat) (bs : bytes) : result (json * bytes) :=
  match fuel with
  | O => Err bad_syntax
  | S fuel =>
      match skip_ws bs with
      | "{"%byte :: r =>
          match skip_ws r with
          | "}"%byte :: r => Ok (JObj [], r)
          | r => match parse_members fuel r with
                 | Ok (m, r) => Ok (JObj m, r) | Err e => Err e end
          end
      | "["%byte :: r =>
          match skip_ws r with
          | "]"%byte :: r => Ok (JArr [], r)
          | r => match parse_elements fuel r with
                 | Ok (l, r) => Ok (JArr l, r) | Err e => Err e end
          end
      | x22 :: r => match parse_string r with Ok (s, r) => Ok (JStr s, r) | Err e => Err e end
      | "n"%byte :: r => literal (str "ull") JNull r
      | "t"%byte :: r => literal (str "rue") (JBool true) r
      | "f"%byte :: r => literal (str "alse") (JBool false) r
      | "-"%byte :: r => parse_num true r
      | r => parse_num false r
      end
  end
with parse_elements (fuel : nat) (bs : bytes) : result (list json * bytes) :=
  match fuel with
  | O => Err bad_syntax
  | S fuel =>
      match parse_value fuel bs with
      | Err e => Err e
      | Ok (v, r) =>
          match skip_ws r with
          | "]"%byte :: r => Ok ([v], r)
          | ","%byte :: r =>
              match parse_elements fuel r with Ok (l, r) => Ok (v :: l, r) | Err e => Err e end
          | _ => Err bad_syntax
          end
      end
  end
with parse_members (fuel : nat) (bs : bytes) : result (list (bytes * json) * bytes) :=
  match fuel with
  | O => Err bad_syntax
  | S fuel =>
      match skip_ws bs with
      | x22 :: r =>
          match parse_string r with
          | Err e => Err e
          | Ok (k, r) =>
              match skip_ws r with
              | ":"%byte :: r =>
                  match parse_value fuel r with
                  | Err e => Err e
                  | Ok (v, r) =>
                      match skip_ws r with
                      | "}"%byte :: r => Ok ([(k, v)], r)
                      | ","%byte :: r =>
                          match parse_members fuel r with
                          | Ok (m, r) => Ok ((k, v) :: m, r) | Err e => Err e end
                      | _ => Err bad_syntax
                      end
                  end
              | _ => Err bad_syntax
              end
          end
      | _ => Err bad_syntax
      end
  end.

(** A whole document. *)
Definition parse (bs : bytes) : result json :=
  match parse_value (S (length bs)) bs with
  | Err e => Err e
  | Ok (j, r) => match skip_ws r with [] => Ok j | _ => Err bad_syntax end
  end.

Example parse_example :
  parse (str "[1, -20, null,{}]") = Ok (JArr [JNum 1; JNum (-20); JNull; JObj []]) ∧
  is_Ok (parse (str "[01]")) = false ∧ is_Ok (parse (str "1.5")) = false.
Proof. by vm_compute. Qed.

(** ** What is printed parses back *)

(** What may follow a value: the end, a line break, or the punctuation after it. *)
Definition terminated (rest : bytes) : Prop :=
  match rest with
  | [] => True
  | b :: _ => b = ","%byte ∨ b = "]"%byte ∨ b = "}"%byte ∨ b = x0a
  end.

Lemma parse_digits_uint d rest : terminated rest → parse_digits (uint_bytes d ++ rest) = (d, rest).
Proof.
  intros Ht. induction d; simpl; rewrite ?IHd; try done.
  destruct rest as [|b r]; [done|]. by destruct Ht as [->|[->|[->| ->]]].
Qed.

Lemma to_uint_normal n :
  match N.to_uint n with Nil | D0 (D0 _ | D1 _ | D2 _ | D3 _ | D4 _ | D5 _ | D6 _ | D7 _ | D8 _ | D9 _) => False
  | _ => True end.
Proof.
  assert (N.to_uint n = unorm (N.to_uint n)) as ->.
  { rewrite <-DecimalN.Unsigned.to_of. by rewrite DecimalN.Unsigned.of_to. }
  unfold unorm. assert (∀ d, match nzhead d with D0 _ => False | _ => True end) as Hnz
    by (induction d; simpl; done).
  specialize (Hnz (N.to_uint n)). by destruct (nzhead (N.to_uint n)).
Qed.

Lemma parse_num_digits neg n rest :
  terminated rest →
  parse_num neg (uint_bytes (N.to_uint n) ++ rest)
  = Ok (JNum (if neg then - Z.of_N n else Z.of_N n), rest).
Proof.
  intros Ht. unfold parse_num. rewrite parse_digits_uint by done.
  pose proof (to_uint_normal n) as Hn. pose proof (DecimalN.Unsigned.of_to n) as Hof.
  destruct (N.to_uint n) as [|[]| | | | | | | | |]; try done;
    rewrite Hof; destruct rest as [|b r]; try done; by destruct Ht as [->|[->|[->| ->]]].
Qed.

Lemma parse_string_char b r : parse_string (render_char b ++ r) = prepend [b] (parse_string r).
Proof. destruct b; reflexivity. Qed.

Lemma parse_string_render s rest :
  parse_string (concat (map render_char s) ++ x22 :: rest) = Ok (s, rest).
Proof.
  induction s as [|b s IH]; simpl; [done|].
  by rewrite <-app_assoc, parse_string_char, IH.
Qed.

(** Fuel a value needs. *)
Fixpoint jsize (j : json) : nat :=
  match j with
  | JArr l => S (sum_list_with (λ x, S (jsize x)) l)
  | JObj m => S (sum_list_with (λ '(_, x), S (jsize x)) m)
  | _ => 1
  end.

Section json_ind.
Variable P : json → Prop.
Hypothesis Hatom : ∀ j, match j with JArr _ | JObj _ => True | _ => P j end.
Hypothesis Harr : ∀ l, Forall P l → P (JArr l).
Hypothesis Hobj : ∀ m, Forall (λ kv, P kv.2) m → P (JObj m).

Fixpoint json_nested_ind (j : json) : P j :=
  match j with
  | JArr l => Harr l ((fix go l := match l return Forall P l with
      | [] => Forall_nil_2 P
      | x :: l => Forall_cons_2 P x l (json_nested_ind x) (go l) end) l)
  | JObj m => Hobj m ((fix go m := match m return Forall (λ kv, P kv.2) m with
      | [] => Forall_nil_2 _
      | kv :: m => Forall_cons_2 _ kv m (json_nested_ind kv.2) (go m) end) m)
  | JNull => Hatom JNull
  | JBool b => Hatom (JBool b)
  | JNum z => Hatom (JNum z)
  | JStr s => Hatom (JStr s)
  end.
End json_ind.

(** The first byte of a printed value is not white space or a closing bracket. *)
Lemma render_head j rest :
  skip_ws (render j ++ rest) = render j ++ rest ∧
  ∃ b r, render j ++ rest = b :: r ∧ b ≠ "]"%byte ∧ b ≠ "}"%byte.
Proof.
  assert (∀ b r, is_ws b = false → b ≠ "]"%byte → b ≠ "}"%byte →
    skip_ws (b :: r) = b :: r ∧ ∃ b' r', b :: r = b' :: r' ∧ b' ≠ "]"%byte ∧ b' ≠ "}"%byte) as Hb.
  { intros b r Hw ??. simpl. rewrite Hw. split; [done|]. by exists b, r. }
  destruct j as [|[]|z|s|l|m]; cbn [render]; try by apply Hb.
  unfold render_num. destruct (z <? 0); [by apply Hb|]. cbn [app].
  pose proof (to_uint_normal (Z.to_N (Z.abs z))) as Hn.
  destruct (N.to_uint _); try done; by apply Hb.
Qed.

Lemma parse_render_num z rest fuel :
  terminated rest → parse_value (S fuel) (render_num z ++ rest) = Ok (JNum z, rest).
Proof.
  intros Ht. pose proof (parse_num_digits (z <? 0) (Z.to_N (Z.abs z)) rest Ht) as Hp.
  assert ((if z <? 0 then - Z.of_N (Z.to_N (Z.abs z)) else Z.of_N (Z.to_N (Z.abs z))) = z) as Hz
    by (destruct (Z.ltb_spec z 0); lia).
  rewrite Hz in Hp. unfold render_num. destruct (z <? 0); [exact Hp|].
  pose proof (to_uint_normal (Z.to_N (Z.abs z))) as Hn.
  rewrite <-Hp. destruct (N.to_uint _); try done.
Qed.

Lemma join_cons sep x y l : join sep (x :: y :: l) = x ++ sep :: join sep (y :: l).
Proof. done. Qed.

Definition parses (j : json) : Prop := ∀ fuel rest,
  (jsize j ≤ fuel)%nat → terminated rest → parse_value fuel (render j ++ rest) = Ok (j, rest).

Lemma parse_elements_render l fuel rest :
  Forall parses l → l ≠ [] → (sum_list_with (λ x, S (jsize x)) l ≤ fuel)%nat →
  parse_elements fuel (join ","%byte (map render l) ++ "]"%byte :: rest) = Ok (l, rest).
Proof.
  intros Hall. revert fuel. induction Hall as [|x l Hx Hall IH]; intros fuel Hne Hf; [done|].
  simpl in Hf. destruct fuel as [|fuel]; [lia|]. cbn [parse_elements map].
  destruct l as [|y l].
  - simpl. rewrite Hx; [done|lia|]. simpl. tauto.
  - cbn [map]. rewrite join_cons, <-app_assoc. cbn [app].
    rewrite Hx; [|lia|simpl; tauto]. cbn match.
    change (skip_ws (","%byte :: ?r)) with (","%byte :: r). cbn match.
    change (render y :: map render l) with (map render (y :: l)).
    rewrite IH; [done|done|lia].
Qed.

Definition render_member (kv : bytes * json) : bytes :=
  let '(k, v) := kv in render_string k ++ ":"%byte :: render v.

Lemma parse_members_render m fuel rest :
  Forall (λ kv, parses kv.2) m → m ≠ [] → (sum_list_with (λ '(_, x), S (jsize x)) m ≤ fuel)%nat →
  parse_members fuel (join ","%byte (map render_member m) ++ "}"%byte :: rest) = Ok (m, rest).
Proof.
  intros Hall. revert fuel. induction Hall as [|[k v] m Hx Hall IH]; intros fuel Hne Hf; [done|].
  simpl in Hf, Hx. destruct fuel as [|fuel]; [lia|].
  assert (∀ r, terminated r → (render_member (k, v) ++ r) = x22 :: concat (map render_char k) ++ x22 :: ":"%byte :: (render v ++ r)) as Hm.
  { intros r _. unfold render_member, render_string. simpl. by rewrite <-!app_assoc. }
  cbn [parse_members map].
  destruct m as [|kv m].
  - cbn [map join]. rewrite Hm by (simpl; tauto).
    change (skip_ws (x22 :: ?r)) with (x22 :: r). cbn match.
    rewrite parse_string_render. change (skip_ws (":"%byte :: ?r)) with (":"%byte :: r). cbn match.
    rewrite Hx; [done|lia|simpl; tauto].
  - cbn [map]. rewrite join_cons, <-app_assoc. rewrite Hm by (simpl; tauto).
    change (skip_ws (x22 :: ?r)) with (x22 :: r). cbn match.
    rewrite parse_string_render. change (skip_ws (":"%byte :: ?r)) with (":"%byte :: r). cbn match.
    cbn [app]. rewrite Hx; [|lia|simpl; tauto].
    change (skip_ws (","%byte :: ?r)) with (","%byte :: r). cbn match.
    change (render_member kv :: map render_member m) with (map render_member (kv :: m)).
    rewrite IH; [done|done|simpl in *; lia].
Qed.

Lemma elements_head l rest : l ≠ [] →
  ∃ b r, join ","%byte (map render l) ++ rest = b :: r ∧ is_ws b = false ∧
    b ≠ "]"%byte ∧ b ≠ "}"%byte.
Proof.
  intros Hne. destruct l as [|x l]; [done|]. cbn [map].
  assert (∃ r, join ","%byte (render x :: map render l) ++ rest = render x ++ r) as [r Hr].
  { destruct l as [|y l]; [by exists rest|]. cbn [map]. rewrite join_cons, <-app_assoc. eauto. }
  destruct (render_head x r) as (Hs & b & r' & Hb & ? & ?). exists b, r'.
  rewrite Hr, Hb. split_and!; try done. rewrite Hb in Hs. simpl in Hs.
  destruct (is_ws b); [|done]. exfalso.
  assert (∀ l, (length (skip_ws l) ≤ length l)%nat) as Hlen.
  { induction l0 as [|c l0 IH]; simpl; [lia|]. destruct (is_ws c); simpl; lia. }
  pose proof (Hlen r'). rewrite Hs in H1. simpl in H1. lia.
Qed.

Lemma members_head m rest : m ≠ [] →
  ∃ r, join ","%byte (map render_member m) ++ rest = x22 :: r.
Proof.
  intros Hne. destruct m as [|[k v] m]; [done|].
  destruct m as [|kv m]; simpl; eauto.
Qed.

Lemma parse_render j : parses j.
Proof.
  revert j. apply json_nested_ind; [intros j|intros l IH|intros m IH].
  - destruct j as [|[]|z|s| |]; [..|done|done]; intros fuel rest Hf Ht; (destruct fuel as [|fuel]; [simpl in Hf; lia|]).
    1-3: reflexivity.
    + by apply parse_render_num.
    + pose proof (parse_string_render s rest) as Hp.
      change (render (JStr s) ++ rest) with (x22 :: (concat (map render_char s) ++ [x22]) ++ rest).
      rewrite <-app_assoc. cbn [parse_value].
      change (skip_ws (x22 :: ?r)) with (x22 :: r). cbn match. cbn [app]. by rewrite Hp.
  - intros fuel rest Hf Ht. destruct fuel as [|fuel]; [simpl in Hf; lia|].
    destruct (decide (l = [])) as [->|Hne]; [reflexivity|].
    change (render (JArr l) ++ rest) with ("["%byte :: (join ","%byte (map render l) ++ ["]"%byte]) ++ rest).
    rewrite <-app_assoc. cbn [parse_value]. change (skip_ws ("["%byte :: ?r)) with ("["%byte :: r). cbn match.
    destruct (elements_head l (["]"%byte] ++ rest) Hne) as (b & r & Hb & Hw & Hb1 & _).
    assert (skip_ws (join ","%byte (map render l) ++ ["]"%byte] ++ rest) = join ","%byte (map render l) ++ ["]"%byte] ++ rest) as ->
      by (rewrite Hb; simpl; by rewrite Hw).
    pose proof (parse_elements_render l fuel rest IH Hne ltac:(simpl in Hf; lia)) as Hp.
    change (["]"%byte] ++ rest) with ("]"%byte :: rest) in *. rewrite Hb in *.
    destruct b; try done; by rewrite Hp.
  - intros fuel rest Hf Ht. destruct fuel as [|fuel]; [simpl in Hf; lia|].
    destruct (decide (m = [])) as [->|Hne]; [reflexivity|].
    change (render (JObj m) ++ rest) with ("{"%byte :: (join ","%byte (map render_member m) ++ ["}"%byte]) ++ rest).
    rewrite <-app_assoc. cbn [parse_value]. change (skip_ws ("{"%byte :: ?r)) with ("{"%byte :: r). cbn match.
    destruct (members_head m (["}"%byte] ++ rest) Hne) as (r & Hb).
    pose proof (parse_members_render m fuel rest IH Hne ltac:(simpl in Hf; lia)) as Hp.
    change (["}"%byte] ++ rest) with ("}"%byte :: rest) in *. rewrite Hb in *.
    change (skip_ws (x22 :: r)) with (x22 :: r). cbn match. by rewrite Hp.
Qed.

(** ** Enough fuel *)

Lemma length_join sep l :
  (length (join sep l) = sum_list_with length l + pred (length l))%nat.
Proof.
  induction l as [|x l IH]; [done|]. destruct l as [|y l]; [simpl; lia|].
  rewrite join_cons, length_app. simpl in *. lia.
Qed.

Lemma length_render j : (1 ≤ jsize j ≤ length (render j))%nat.
Proof.
  revert j. apply json_nested_ind; [intros j|intros l IH|intros m IH].
  - destruct j as [|[]|z|s| |]; [simpl; lia..| | |done|done].
    + split; [simpl; lia|]. cbn [render jsize]. unfold render_num. rewrite length_app.
      pose proof (to_uint_normal (Z.to_N (Z.abs z))) as Hn.
      destruct (N.to_uint _); simpl in *; lia || done.
    + cbn [render jsize]. unfold render_string. simpl. lia.
  - simpl. rewrite length_app, length_join, length_map. simpl.
    assert (∀ l, Forall (λ j, 1 ≤ jsize j ≤ length (render j))%nat l →
      sum_list_with (λ x, S (jsize x)) l ≤ sum_list_with length (map render l) + length l)%nat as Hs.
    { induction 1; simpl; lia. }
    specialize (Hs l IH). destruct l; simpl in *; lia.
  - simpl. rewrite length_app, length_join, length_map. simpl.
    assert (∀ m, Forall (λ kv, 1 ≤ jsize kv.2 ≤ length (render kv.2))%nat m →
      sum_list_with (λ '(_, x), S (jsize x)) m ≤ sum_list_with length (map render_member m) + length m)%nat as Hs.
    { induction 1 as [|[k v] m' Hv _ IH']; simpl in *; [lia|]. rewrite !length_app. simpl. lia. }
    specialize (Hs m IH). change (map _ m) with (map render_member m). destruct m; simpl in *; lia.
Qed.

Lemma parse_render_ok j : parse (render j) = Ok j.
Proof.
  unfold parse. pose proof (parse_render j (S (length (render j))) []) as Hp.
  rewrite app_nil_r in Hp. rewrite Hp; [done| |done]. pose proof (length_render j). lia.
Qed.

(** the JSON text of every value the program can encode parses back to that
    value: nested arrays and objects, every integer, and every byte of every
    string, escapes included. *)
Theorem parse_render_roundtrip (j : json) : parse (render j) = Ok j.
Proof. apply parse_render_ok. Qed.

(** ** Byte slices are base64 strings *)

Definition b64_alphabet : bytes :=
  str "ABCDEFGHIJKLMNOPQRSTUVWXYZabcdefghijklmnopqrstuvwxyz0123456789+/".

Definition b64_char (n : Z) : Byte.byte := default x00 (b64_alphabet !! Z.to_nat n).

Fixpoint b64_index (b : Byte.byte) (l : bytes) (i : Z) : option Z :=
  match l with
  | [] => None
  | c :: l => if decide (b = c) then Some i else b64_index b l (i + 1)
  end.

Definition b64_val (b : Byte.byte) : option Z := b64_index b b64_alphabet 0.

(** The four characters of a 24-bit group. *)
Definition b64_group (n : Z) : bytes :=
  map b64_char [n / 262144; (n / 4096) mod 64; (n / 64) mod 64; n mod 64].

Fixpoint b64_encode (bs : bytes) : bytes :=
  match bs with
  | [] => []
  | [a] => take 2 (b64_group (byte_val a * 65536)) ++ str "=="
  | [a; b] => take 3 (b64_group (byte_val a * 65536 + byte_val b * 256)) ++ str "="
  | a :: b :: c :: bs => b64_group (byte_val a * 65536 + byte_val b * 256 + byte_val c) ++ b64_encode bs
  end.

Definition b64_ungroup (a b c d : Z) : bytes :=
  let n := a * 262144 + b * 4096 + c * 64 + d in
  map byte_at [n / 65536; (n / 256) mod 256; n mod 256].

Definition bad_base64 : string := "illegal base64 data".

Fixpoint b64_groups (bs : bytes) : result bytes :=
  match bs with
  | [] => Ok []
  | a :: b :: c :: d :: bs =>
      match b64_val a, b64_val b, b64_val c, b64_val d with
      | Some va, Some vb, Some vc, Some vd =>
          match b64_groups bs with Ok r => Ok (b64_ungroup va vb vc vd ++ r) | Err e => Err e end
      | Some va, Some vb, Some vc, None =>
          if decide (d = "="%byte ∧ bs = []) then Ok (take 2 (b64_ungroup va vb vc 0)) else Err bad_base64
      | Some va, Some vb, None, _ =>
          if decide (c = "="%byte ∧ d = "="%byte ∧ bs = []) then Ok (take 1 (b64_ungroup va vb 0 0))
          else Err bad_base64
      | _, _, _, _ => Err bad_base64
      end
  | _ => Err bad_base64
  end.

(** The decoder skips line breaks. *)
Definition b64_decode (bs : bytes) : result bytes :=
  b64_groups (filter (λ b, b ≠ x0a ∧ b ≠ x0d) bs).

Lemma byte_val_range b : 0 ≤ byte_val b < 256.
Proof. destruct b; vm_compute; split; congruence. Qed.

Lemma byte_at_val b : byte_at (byte_val b) = b.
Proof. destruct b; reflexivity. Qed.

Lemma b64_val_char n : 0 ≤ n < 64 → b64_val (b64_char n) = Some n.
Proof.
  intros Hn.
  assert (∀ k, (k < 64)%nat → b64_val (b64_char (Z.of_nat k)) = Some (Z.of_nat k)) as Hk.
  { intros k Hk. do 64 (destruct k as [|k]; [reflexivity|]). lia. }
  specialize (Hk (Z.to_nat n)). rewrite Z2Nat.id in Hk by lia. apply Hk. lia.
Qed.

Lemma b64_char_solid n : 0 ≤ n < 64 → b64_char n ≠ x0a ∧ b64_char n ≠ x0d.
Proof.
  intros Hn. split; intros He; pose proof (b64_val_char n Hn) as Hv; rewrite He in Hv; discriminate.
Qed.

Lemma b64_group_vals n : 0 ≤ n < 16777216 →
  ∃ a b c d, b64_group n = map b64_char [a; b; c; d] ∧
    (0 ≤ a < 64 ∧ 0 ≤ b < 64 ∧ 0 ≤ c < 64 ∧ 0 ≤ d < 64) ∧
    n = a * 262144 + b * 4096 + c * 64 + d.
Proof.
  intros Hn. exists (n / 262144), ((n / 4096) mod 64), ((n / 64) mod 64), (n mod 64).
  split; [done|]. split; dlia.
Qed.

Lemma byte_at_ungroup n a b c :
  n = byte_val a * 65536 + byte_val b * 256 + byte_val c →
  map byte_at [n / 65536; (n / 256) mod 256; n mod 256] = [a; b; c].
Proof.
  intros ->. pose proof (byte_val_range a). pose proof (byte_val_range b). pose proof (byte_val_range c).
  cbn [map]. rewrite <-(byte_at_val a) at 4. rewrite <-(byte_at_val b) at 4. rewrite <-(byte_at_val c) at 4.
  repeat f_equal; dlia.
Qed.

Lemma b64_solid bs : filter (λ b, b ≠ x0a ∧ b ≠ x0d) (b64_encode bs) = b64_encode bs.
Proof.
  assert (∀ n, 0 ≤ n < 16777216 → Forall (λ b, b ≠ x0a ∧ b ≠ x0d) (b64_group n)) as Hg.
  { intros n Hn. destruct (b64_group_vals n Hn) as (a & b & c & d & -> & (? & ? & ? & ?) & _).
    repeat constructor; by apply b64_char_solid. }
  assert (Forall (λ b, b ≠ x0a ∧ b ≠ x0d) (b64_encode bs)) as Hall.
  { induction bs as [bs IH] using (induction_ltof1 _ length). unfold ltof in IH.
    destruct bs as [|a [|b [|c bs]]]; cbn [b64_encode]; [done|..].
    - pose proof (byte_val_range a). apply Forall_app. split; [apply Forall_take, Hg; lia|by repeat constructor].
    - pose proof (byte_val_range a). pose proof (byte_val_range b).
      apply Forall_app. split; [apply Forall_take, Hg; lia|by repeat constructor].
    - pose proof (byte_val_range a). pose proof (byte_val_range b). pose proof (byte_val_range c).
      apply Forall_app. split; [apply Hg; lia|apply IH; simpl; lia]. }
  induction Hall as [|x l Hx Hl IH]; [done|]. by rewrite filter_cons_True, IH.
Qed.

Lemma byte_val_0 : byte_val x00 = 0.
Proof. reflexivity. Qed.

(** The last group of one or two bytes leaves low sextets of zero. *)
Lemma b64_tail_1 a p q r s :
  0 ≤ r < 64 → 0 ≤ s < 64 → byte_val a * 65536 = p * 262144 + q * 4096 + r * 64 + s →
  take 1 (b64_ungroup p q 0 0) = [a].
Proof.
  intros ?? Hn. unfold b64_ungroup.
  rewrite (byte_at_ungroup _ a x00 x00); [done|]. rewrite byte_val_0. lia.
Qed.

Lemma b64_tail_2 a b p q r s :
  0 ≤ s < 64 → byte_val a * 65536 + byte_val b * 256 = p * 262144 + q * 4096 + r * 64 + s →
  take 2 (b64_ungroup p q r 0) = [a; b].
Proof.
  intros ? Hn. unfold b64_ungroup.
  rewrite (byte_at_ungroup _ a b x00); [done|]. rewrite byte_val_0. lia.
Qed.

Lemma b64_decode_encode bs : b64_decode (b64_encode bs) = Ok bs.
Proof.
  unfold b64_decode. rewrite b64_solid.
  induction bs as [bs IH] using (induction_ltof1 _ length). unfold ltof in IH.
  destruct bs as [|a [|b [|c bs]]]; cbn [b64_encode]; [done|..];
    pose proof (byte_val_range a); try pose proof (byte_val_range b); try pose proof (byte_val_range c).
  - destruct (b64_group_vals (byte_val a * 65536)) as (p & q & r & s & Hg & (? & ? & ? & ?) & Hn); [lia|].
    rewrite Hg. change (str "==") with ["="%byte; "="%byte]. cbn [map take app b64_groups].
    rewrite !b64_val_char by lia. cbn match.
    change (b64_val "="%byte) with (@None Z). cbn match. rewrite decide_True by done.
    by rewrite (b64_tail_1 a p q r s).
  - destruct (b64_group_vals (byte_val a * 65536 + byte_val b * 256)) as (p & q & r & s & Hg & (? & ? & ? & ?) & Hn); [lia|].
    rewrite Hg. change (str "=") with ["="%byte]. cbn [map take app b64_groups].
    rewrite !b64_val_char by lia. cbn match.
    change (b64_val "="%byte) with (@None Z). cbn match. rewrite decide_True by done.
    by rewrite (b64_tail_2 a b p q r s).
  - destruct (b64_group_vals (byte_val a * 65536 + byte_val b * 256 + byte_val c)) as (p & q & r & s & Hg & (? & ? & ? & ?) & Hn); [lia|].
    rewrite Hg. cbn [map app b64_groups]. rewrite !b64_val_char by lia. cbn match.
    rewrite IH by (simpl; lia). unfold b64_ungroup. by rewrite (byte_at_ungroup _ a b c).
Qed.

(** Every byte string survives base64. *)
Theorem b64_roundtrip (bs : bytes) : b64_decode (b64_encode bs) = Ok bs.
Proof. apply b64_decode_encode. Qed.
