(* ===== verification/FsUtil.v ===== *)
(** * Durable file replacement (internal/fsutil)

    [WriteFileAtomic] and [SyncDir], and the staging protocol they share with the
    WAL rewrite: write a temporary file, fsync it, rename it over the target,
    fsync the directory.  The specification is stated on every fault and crash
    script: at whichever call the run stops, a crash reveals the old contents or
    the new, and after a success only the new.  The Windows build, whose directory
    sync does nothing, has the first half. *)

From S2P Require Import Prelude Os.

(** ** The code *)

Definition tempSuffix : string := ".tmp".

(** [SyncDir]; the deferred [d.Close()] of the read-only handle has no effect. *)
Definition SyncDir : io unit :=
  m_wrap "open directory" os_OpenDir ;;;
  m_wrap "fsync directory" dir_Sync.

Definition WriteFileAtomic (path : string) (data : bytes) : io unit :=
  let tmpPath := path +:+ tempSuffix in
  f <-- m_wrap "create temp file" (os_OpenTrunc tmpPath) ;;
  m_wrap "write temp file" (m_on_error (file_Write f data) (file_Close f)) ;;;
  m_wrap "fsync temp file" (m_on_error (file_Sync f) (file_Close f)) ;;;
  m_wrap "close temp file" (file_Close f) ;;;
  m_wrap "rename" (os_Rename tmpPath path) ;;;
  m_wrap "fsync directory" SyncDir.

(** The Windows build, which has no directory sync. *)
Definition SyncDir_windows : io unit := m_ret tt.

Definition WriteFileAtomic_windows (path : string) (data : bytes) : io unit :=
  let tmpPath := path +:+ tempSuffix in
  f <-- m_wrap "create temp file" (os_OpenTrunc tmpPath) ;;
  m_wrap "write temp file" (m_on_error (file_Write f data) (file_Close f)) ;;;
  m_wrap "fsync temp file" (m_on_error (file_Sync f) (file_Close f)) ;;;
  m_wrap "close temp file" (file_Close f) ;;;
  m_wrap "rename" (os_Rename tmpPath path) ;;;
  m_wrap "fsync directory" SyncDir_windows.

(** ** The staging protocol, call by call

    [staged fs0 fs t i data]: since [fs0], only the file at [t] has been touched;
    it is inode [i] and holds [data]. *)
Record staged (fs0 fs : Fs) (t : string) (i : nat) (data : bytes) : Prop := {
  st_wf : fs_wf fs;
  st_dir : fs_dir fs !! t = Some i;
  st_data : i_data <$> fs_inodes fs !! i = Some data;
  st_same : ∀ q, q ≠ t → same_at q fs0 fs;
}.

(** Since [fs0], nothing but [t] was touched. *)
Definition only_at (t : string) (fs0 fs : Fs) : Prop :=
  fs_wf fs ∧ ∀ q, q ≠ t → same_at q fs0 fs.

Lemma staged_only_at fs0 fs t i data : staged fs0 fs t i data → only_at t fs0 fs.
Proof. by intros []. Qed.

Lemma staged_update fs0 fs t i data f :
  staged fs0 fs t i data →
  staged fs0 (fs_update i f fs) t i (default [] (i_data ∘ f <$> fs_inodes fs !! i)).
Proof.
  intros [Hwf Hd Hi Hs]. destruct (fs_inodes fs !! i) as [nd|] eqn:Hnd; [|done]. split.
  - by apply fs_update_wf.
  - done.
  - simpl. by rewrite lookup_alter_eq, Hnd.
  - intros q Hq. rewrite (Hs q Hq). apply fs_update_same. by eapply unbound_other.
Qed.

(** As above, when the update's effect on the data is known. *)
Lemma staged_update_data fs0 fs t i data f data' :
  staged fs0 fs t i data →
  (∀ nd, i_data nd = data → i_data (f nd) = data') →
  staged fs0 (fs_update i f fs) t i data'.
Proof.
  intros Hst Hf. pose proof (st_data _ _ _ _ _ Hst) as Hi.
  apply (staged_update _ _ _ _ _ f) in Hst.
  destruct (fs_inodes fs !! i) as [nd|]; [|done]. simpl in *.
  injection Hi as Hi. by rewrite (Hf nd Hi) in Hst.
Qed.

Lemma fs_create_visible p fs : i_data <$> fs_inodes (fs_create p fs) !! (fs_next fs) = Some [].
Proof. simpl. by rewrite lookup_insert_eq. Qed.

(** [partial n] is no effect in every call but a write. *)
Lemma no_effect_inv {A} (act : Fs → result A * Fs) os r os' :
  syscall no_effect act os = (r, os') →
  (r, os_fs os') = act (os_fs os) ∨ (∃ e, r = Err e) ∧ os_fs os' = os_fs os.
Proof. intros [?|[? [?|[n ?]]]]%syscall_inv; auto. Qed.

Lemma OpenTrunc_spec t os r os' :
  fs_wf (os_fs os) → os_OpenTrunc t os = (r, os') →
  only_at t (os_fs os) (os_fs os') ∧
  ∀ i, r = Ok i → staged (os_fs os) (os_fs os') t i [].
Proof.
  intros Hwf [H|[[e ->] Heq]]%no_effect_inv.
  2: { rewrite Heq. by split. }
  assert (∃ i, r = Ok i ∧ staged (os_fs os) (os_fs os') t i []) as (i & -> & Hst).
  { destruct (fs_dir (os_fs os) !! t) as [i|] eqn:Ht; injection H as -> ->; eexists; split; try done.
    - destruct (wf_dir _ Hwf t i Ht) as [_ [nd Hnd]].
      eapply (staged_update_data _ _ _ _ (i_data nd)); [|done].
      split; try done. by rewrite Hnd.
    - split.
      + by apply fs_create_wf.
      + simpl. by rewrite lookup_insert_eq.
      + apply fs_create_visible.
      + intros q Hq. by apply fs_create_same. }
  split; [by eapply staged_only_at|]. by intros ? [= <-].
Qed.

Lemma Write_spec fs0 t i data bs os r os' :
  staged fs0 (os_fs os) t i data → file_Write i bs os = (r, os') →
  (∃ data', staged fs0 (os_fs os') t i data') ∧
  (r = Ok tt → staged fs0 (os_fs os') t i (data ++ bs)).
Proof.
  intros Hst [H|[[e ->] [Heq|[n Heq]]]]%syscall_inv.
  - injection H as -> ->.
    assert (staged fs0 (fs_update i (append_data bs) (os_fs os)) t i (data ++ bs)).
    { eapply staged_update_data; [done|]. by intros nd <-. }
    eauto.
  - rewrite Heq. split; [eauto|done].
  - rewrite Heq. split; [|done]. eexists. by eapply staged_update.
Qed.

Lemma Sync_spec fs0 t i data os r os' :
  staged fs0 (os_fs os) t i data → file_Sync i os = (r, os') →
  staged fs0 (os_fs os') t i data ∧
  (r = Ok tt → fs_inodes (os_fs os') !! i = Some (mkInode data data)).
Proof.
  intros Hst [H|[[e ->] Heq]]%no_effect_inv.
  - injection H as -> ->. split.
    + eapply staged_update_data; [done|]. by intros nd <-.
    + intros _. pose proof (st_data _ _ _ _ _ Hst) as Hi. simpl. rewrite lookup_alter_eq.
      destruct (fs_inodes (os_fs os) !! i) as [nd|]; [|done].
      injection Hi as <-. done.
  - rewrite Heq. by split.
Qed.

Lemma Close_spec i os r os' : file_Close i os = (r, os') → os_fs os' = os_fs os.
Proof. intros [H|[_ Heq]]%no_effect_inv; [|done]. by injection H. Qed.

(** ** Publishing the staged file *)

Definition crash_only (fs : Fs) (p : string) (c : option bytes) : Prop :=
  visible fs p = c ∧ ∀ c', crash_content fs p c' → c' = c.

(** What a replacement of [path] may leave: nothing changed there, or the new
    contents are in place and a crash reveals the old or the new. *)
Record replacing (fs0 fs : Fs) (path tmp : string) (data : bytes) : Prop := {
  rp_wf : fs_wf fs;
  rp_visible : visible fs path = visible fs0 path ∨ visible fs path = Some data;
  rp_crash : ∀ c, crash_content fs path c → crash_content fs0 path c ∨ c = Some data;
  rp_same : ∀ q, q ≠ path → q ≠ tmp → same_at q fs0 fs;
}.

Lemma only_at_replacing fs0 fs path tmp data :
  path ≠ tmp → only_at tmp fs0 fs → replacing fs0 fs path tmp data.
Proof.
  intros Hne [Hwf Hs]. destruct (Hs path Hne) as [Hv Hc]. split; auto.
Qed.

Definition fs_rename (a b : string) (i : nat) (fs : Fs) : Fs :=
  let fs' := fs_rebind b i fs in
  mkFs (fs_inodes fs') (fs_next fs') (delete a (fs_dir fs')) (fs_old fs').

Lemma fs_rename_wf a b i fs :
  fs_wf fs → a ≠ b → fs_dir fs !! a = Some i → fs_wf (fs_rename a b i fs).
Proof.
  intros Hwf Hne Ha.
  assert (∀ p j, fs_dir (fs_rename a b i fs) !! p = Some j →
            (p = b ∧ j = i) ∨ (p ≠ b ∧ p ≠ a ∧ fs_dir fs !! p = Some j)) as Hdir.
  { intros p j. simpl. rewrite lookup_delete_Some, lookup_insert_Some. naive_solver. }
  assert (∀ p j, Some j ∈ old_bindings (fs_rename a b i fs) p →
            Some j ∈ old_bindings fs p ∨ (p = b ∧ fs_dir fs !! b = Some j)) as Hold.
  { intros p j. change (old_bindings (fs_rename a b i fs) p) with (old_bindings (fs_rebind b i fs) p).
    rewrite old_bindings_rebind. case_decide; [|by left]. subst. rewrite elem_of_cons. naive_solver. }
  split; intros p.
  - intros j [[-> ->]|(_ & _ & Hp)]%Hdir; simpl; by eapply wf_dir.
  - intros j [Ho|[-> Hb]]%Hold; simpl; [by eapply wf_old|by eapply wf_dir].
  - intros q j [[-> ->]|(Hpb & Hpa & Hp)]%Hdir [[-> ?]|(Hqb & Hqa & Hq)]%Hdir; subst; try done.
    + exfalso. apply Hqa. by eapply wf_inj.
    + exfalso. apply Hpa. by eapply wf_inj.
    + by eapply wf_inj.
  - intros q j Hp Ho. apply Hdir in Hp as [[-> ->]|(Hpb & Hpa & Hp)]; apply Hold in Ho as [Ho|[-> Hb]].
    + by apply (wf_replaced _ Hwf a q i).
    + apply Hne. by eapply wf_inj.
    + by apply (wf_replaced _ Hwf p q j).
    + apply Hpb. by eapply wf_inj.
Qed.

Lemma fs_rename_same a b i fs q :
  q ≠ a → q ≠ b → same_at q fs (fs_rename a b i fs).
Proof.
  intros Ha Hb. split.
  - unfold visible. simpl. by rewrite lookup_delete_ne, lookup_insert_ne.
  - intros c. unfold crash_content, crash_binding.
    change (old_bindings (fs_rename a b i fs) q) with (old_bindings (fs_rebind b i fs) q).
    rewrite old_bindings_rebind, decide_False by done. simpl.
    by rewrite lookup_delete_ne, lookup_insert_ne.
Qed.

Lemma fs_rename_crash a b i fs c :
  a ≠ b →
  crash_content (fs_rename a b i fs) b c →
  crash_content fs b c ∨
  ∃ nd d, fs_inodes fs !! i = Some nd ∧ c = Some d ∧ crash_data nd d.
Proof.
  intros Hne (x & Hx & Hc). unfold crash_binding in Hx.
  change (old_bindings (fs_rename a b i fs) b) with (old_bindings (fs_rebind b i fs) b) in Hx.
  rewrite old_bindings_rebind, decide_True in Hx by done. simpl in Hx.
  rewrite lookup_delete_ne, lookup_insert_eq, elem_of_cons in Hx by done.
  assert (x = Some i ∨ crash_binding fs b x) as [->|Hb] by (unfold crash_binding; tauto).
  - right. destruct c as [d|]; [|done]. destruct Hc as (nd & ? & ?). eauto.
  - left. exists x. done.
Qed.

(** The renamed file is in place with synced contents; only the directory entry
    may still be lost. *)
Definition published (fs0 fs : Fs) (path tmp : string) (data : bytes) : Prop :=
  replacing fs0 fs path tmp data ∧
  ∃ i, fs_dir fs !! path = Some i ∧ fs_inodes fs !! i = Some (mkInode data data).

Lemma published_visible fs0 fs path tmp data :
  published fs0 fs path tmp data → visible fs path = Some data.
Proof. intros [_ (i & Hd & Hi)]. unfold visible. by rewrite Hd; simpl; rewrite Hi. Qed.

Lemma Rename_spec fs0 path tmp i data os r os' :
  path ≠ tmp →
  staged fs0 (os_fs os) tmp i data →
  fs_inodes (os_fs os) !! i = Some (mkInode data data) →
  os_Rename tmp path os = (r, os') →
  replacing fs0 (os_fs os') path tmp data ∧
  (r = Ok tt → published fs0 (os_fs os') path tmp data).
Proof.
  intros Hne Hst Hi [H|[[e ->] Heq]]%no_effect_inv.
  2: { rewrite Heq. split; [|done]. by eapply only_at_replacing, staged_only_at. }
  rewrite (st_dir _ _ _ _ _ Hst) in H. injection H as -> ->.
  change (mkFs _ _ _ _) with (fs_rename tmp path i (os_fs os)).
  destruct (st_same _ _ _ _ _ Hst path Hne) as [Hv Hc].
  assert (fs_dir (fs_rename tmp path i (os_fs os)) !! path = Some i) as Hd.
  { simpl. by rewrite lookup_delete_ne, lookup_insert_eq. }
  assert (replacing fs0 (fs_rename tmp path i (os_fs os)) path tmp data) as Hrp.
  { split.
    - apply fs_rename_wf; [apply Hst|done|apply Hst].
    - right. unfold visible. by rewrite Hd; simpl; rewrite Hi.
    - intros c [H|(nd & d & Hnd & -> & Hcd)]%fs_rename_crash; [left; by apply Hc| |done].
      rewrite Hi in Hnd. injection Hnd as <-. right. f_equal. by eapply (crash_data_synced (mkInode _ _)).
    - intros q Hq1 Hq2. transitivity (os_fs os); [by eapply st_same|]. by apply fs_rename_same. }
  split; [done|]. intros _. split; [done|]. by exists i.
Qed.

Definition fs_sync_dir (fs : Fs) : Fs := mkFs (fs_inodes fs) (fs_next fs) (fs_dir fs) ∅.

Lemma fs_sync_dir_crash fs p c : crash_content (fs_sync_dir fs) p c → crash_content fs p c.
Proof.
  intros (b & Hb & Hc). exists b. split; [|done].
  destruct Hb as [Hb|Hb]; [by left|].
  unfold old_bindings in Hb. simpl in Hb. rewrite lookup_empty in Hb. by apply not_elem_of_nil in Hb.
Qed.

Lemma fs_sync_dir_wf fs : fs_wf fs → fs_wf (fs_sync_dir fs).
Proof.
  intros [Hd Ho Hi Hr]. split; simpl; try done.
  - intros p i. unfold old_bindings. simpl. rewrite lookup_empty. simpl. by intros ?%not_elem_of_nil.
  - intros p q i _. unfold old_bindings. simpl. rewrite lookup_empty. by apply not_elem_of_nil.
Qed.

(** Nothing is added by a directory sync, and on success the target is settled. *)
Lemma SyncDir_spec os r os' :
  SyncDir os = (r, os') →
  os_fs os' = os_fs os ∧ (∃ e, r = Err e) ∨
  os_fs os' = fs_sync_dir (os_fs os) ∧ r = Ok tt.
Proof.
  intros [([] & os1 & H1 & H2)|(e & H1 & ->)]%m_bind_inv.
  - apply m_wrap_inv in H1 as (r1 & H1 & Hr1). apply no_effect_inv in H1.
    assert (os_fs os1 = os_fs os) as Heq.
    { destruct H1 as [H1|[_ ?]]; [by injection H1|done]. }
    apply m_wrap_inv in H2 as (r2 & H2 & Hr2). apply no_effect_inv in H2 as [H2|[[e ->] H2]].
    + injection H2 as -> ->. right. by rewrite Heq.
    + left. split; [congruence|done].
  - apply m_wrap_inv in H1 as (r1 & H1 & Hr1). apply no_effect_inv in H1 as [H1|[_ H1]]; [|eauto].
    injection H1 as -> ?. naive_solver.
Qed.

Lemma tmp_ne path : path ≠ path +:+ tempSuffix.
Proof.
  induction path as [|ch path IH]; simpl; [done|]. by intros [= ?].
Qed.

Lemma SyncDir_published fs0 path tmp data os r os' :
  published fs0 (os_fs os) path tmp data → SyncDir os = (r, os') →
  published fs0 (os_fs os') path tmp data ∧
  (r = Ok tt → crash_only (os_fs os') path (Some data)).
Proof.
  intros Hp [[-> [e ->]]|[Heq ->]]%SyncDir_spec; [done|].
  pose proof (published_visible _ _ _ _ _ Hp) as Hvis.
  destruct Hp as [[Hwf Hv Hc Hs] (i & Hd & Hi)]. rewrite Heq. split.
  - split; [|by exists i]. split; auto.
    + by apply fs_sync_dir_wf.
    + intros c ?%fs_sync_dir_crash. auto.
    + intros q Hq1 Hq2. destruct (Hs q Hq1 Hq2) as [Hsv Hsc].
      split; [done|]. intros c ?%fs_sync_dir_crash. auto.
  - intros _. split; [done|]. intros c (b & Hb & Hcb).
    destruct Hb as [Hb|Hb].
    2: { unfold old_bindings in Hb. simpl in Hb. rewrite lookup_empty in Hb.
         by apply not_elem_of_nil in Hb. }
    simpl in Hb. rewrite Hd in Hb. subst b. destruct c as [d|]; [|done].
    destruct Hcb as (nd & Hnd & Hcd). simpl in Hnd. rewrite Hi in Hnd. injection Hnd as <-.
    f_equal. by eapply (crash_data_synced (mkInode _ _)).
Qed.

(** The last step, which leaves what is published and may settle it. *)
Definition settles (sync : io unit) (settled : Fs → Prop) (path tmp : string) (data : bytes) : Prop :=
  ∀ fs0 os r os', published fs0 (os_fs os) path tmp data → sync os = (r, os') →
    published fs0 (os_fs os') path tmp data ∧ (r = Ok tt → settled (os_fs os')).

Lemma SyncDir_settles path tmp data : settles SyncDir (λ fs, crash_only fs path (Some data)) path tmp data.
Proof. intros fs0 os r os'. apply SyncDir_published. Qed.

Lemma nothing_settles path tmp data : settles SyncDir_windows (λ fs, visible fs path = Some data) path tmp data.
Proof. intros fs0 os r os' Hp [= <- <-]. split; [done|]. intros _. by eapply published_visible. Qed.

(** The last two steps, from a synced staging file. *)
Lemma publish_spec sync settled fs0 path tmp i data os r os' :
  settles sync settled path tmp data → path ≠ tmp →
  staged fs0 (os_fs os) tmp i data →
  fs_inodes (os_fs os) !! i = Some (mkInode data data) →
  (m_wrap "rename" (os_Rename tmp path) ;;; m_wrap "fsync directory" sync) os = (r, os') →
  replacing fs0 (os_fs os') path tmp data ∧
  (r = Ok tt → published fs0 (os_fs os') path tmp data ∧ settled (os_fs os')).
Proof.
  intros Hsync Hne Hst Hi [([] & os1 & H1 & H2)|(e & H1 & ->)]%m_bind_inv.
  - apply m_wrap_inv in H1 as ([[]|] & H1 & Hr1); [|naive_solver].
    eapply Rename_spec in H1 as [_ H1]; try done. specialize (H1 eq_refl).
    apply m_wrap_inv in H2 as (r2 & H2 & Hr2).
    eapply Hsync in H2 as [Hp Hok]; [|done].
    split; [apply Hp|]. destruct r2 as [[]|]; naive_solver.
  - apply m_wrap_inv in H1 as (r1 & H1 & Hr1).
    eapply Rename_spec in H1 as [H1 _]; try done.
Qed.

(** A call that closes the staging file when it fails. *)
Lemma guarded_inv msg (m : io unit) f os r os' :
  m_wrap msg (m_on_error m (file_Close f)) os = (r, os') →
  (r = Ok tt ∧ m os = (Ok tt, os')) ∨
  (∃ e e' os1, r = Err e ∧ m os = (Err e', os1) ∧ os_fs os' = os_fs os1).
Proof.
  intros (r0 & H & Hr)%m_wrap_inv.
  apply m_on_error_inv in H as [([] & -> & H)|(e & os1 & r1 & -> & H & Hc)]; [by left|].
  right. destruct Hr as [e' ->]. apply Close_spec in Hc. eauto 10.
Qed.

(** The staging steps: write, fsync and close the temporary file. *)
Lemma stage_spec fs0 tmp f data (k : io unit) os (r : result unit) os' :
  staged fs0 (os_fs os) tmp f [] →
  (m_wrap "write temp file" (m_on_error (file_Write f data) (file_Close f)) ;;;
   m_wrap "fsync temp file" (m_on_error (file_Sync f) (file_Close f)) ;;;
   m_wrap "close temp file" (file_Close f) ;;; k) os = (r, os') →
  (only_at tmp fs0 (os_fs os') ∧ ∃ e, r = Err e) ∨
  ∃ os1, staged fs0 (os_fs os1) tmp f data ∧
    fs_inodes (os_fs os1) !! f = Some (mkInode data data) ∧ k os1 = (r, os').
Proof.
  intros Hst [([] & os1 & H1 & H2)|(e & H1 & ->)]%m_bind_inv;
    apply guarded_inv in H1 as [[[=] H1]|(e1 & e1' & os1' & [=] & H1 & Hc1)].
  2: { left. subst. eapply Write_spec in H1 as [[d Hd] _]; [|done]. rewrite Hc1.
       split; [by eapply staged_only_at|eauto]. }
  eapply Write_spec in H1 as [_ H1]; [|done]. specialize (H1 eq_refl). simpl in H1.
  apply m_bind_inv in H2 as [([] & os2 & H2 & H3)|(e & H2 & ->)];
    apply guarded_inv in H2 as [[[=] H2]|(e2 & e2' & os2' & [=] & H2 & Hc2)].
  2: { left. subst. eapply Sync_spec in H2 as [Hd _]; [|done]. rewrite Hc2.
       split; [by eapply staged_only_at|eauto]. }
  eapply Sync_spec in H2 as [H2 Hsy]; [|done]. specialize (Hsy eq_refl).
  apply m_bind_inv in H3 as [([] & os3 & H3 & H4)|(e & H3 & ->)];
    apply m_wrap_inv in H3 as (r3 & H3 & Hr3); apply Close_spec in H3.
  - right. exists os3. by rewrite H3.
  - left. rewrite H3. split; [by eapply staged_only_at|eauto].
Qed.

(** Either build, by its last step. *)
Lemma replace_spec sync settled (path : string) (data : bytes) (os os' : Os) (r : result unit) :
  settles sync settled path (path +:+ tempSuffix) data → fs_wf (os_fs os) →
  (f <-- m_wrap "create temp file" (os_OpenTrunc (path +:+ tempSuffix)) ;;
   m_wrap "write temp file" (m_on_error (file_Write f data) (file_Close f)) ;;;
   m_wrap "fsync temp file" (m_on_error (file_Sync f) (file_Close f)) ;;;
   m_wrap "close temp file" (file_Close f) ;;;
   m_wrap "rename" (os_Rename (path +:+ tempSuffix) path) ;;;
   m_wrap "fsync directory" sync) os = (r, os') →
  replacing (os_fs os) (os_fs os') path (path +:+ tempSuffix) data ∧
  (r = Ok tt → settled (os_fs os')).
Proof.
  intros Hsync Hwf. set (tmp := path +:+ tempSuffix) in *.
  assert (path ≠ tmp) as Hne by apply tmp_ne.
  assert (∀ fs, only_at tmp (os_fs os) fs → (∃ e, r = Err e) →
    replacing (os_fs os) fs path tmp data ∧ (r = Ok tt → settled fs)) as Hearly.
  { intros fs Ho [e ->]. split; [by apply only_at_replacing|done]. }
  intros [(f & os1 & H1 & H2)|(e & H1 & ->)]%m_bind_inv;
    apply m_wrap_inv in H1 as (r1 & H1 & Hr1); eapply OpenTrunc_spec in H1 as [Ho1 Hs1]; try done;
    [|by apply Hearly; eauto].
  destruct r1 as [f'|]; [injection Hr1 as <-|naive_solver]. specialize (Hs1 f eq_refl).
  destruct (stage_spec _ _ _ _ _ _ _ _ Hs1 H2) as [[Ho He]|(os2 & Hst & Hi & H2')]; [by apply Hearly|].
  destruct (publish_spec _ _ _ _ _ _ _ _ _ _ Hsync Hne Hst Hi H2') as [Hrp Hok].
  split; [done|]. intros Hr. by apply Hok.
Qed.

Lemma WriteFileAtomic_spec (path : string) (data : bytes) (os os' : Os) (r : result unit) :
  fs_wf (os_fs os) →
  WriteFileAtomic path data os = (r, os') →
  replacing (os_fs os) (os_fs os') path (path +:+ tempSuffix) data ∧
  (r = Ok tt → crash_only (os_fs os') path (Some data)).
Proof. intros Hwf Hw. exact (replace_spec SyncDir _ path data os os' r (SyncDir_settles _ _ _) Hwf Hw). Qed.

(** On Windows replacing a file is as atomic; after a success the program reads the new
    contents, and what a crash reveals is left to the file system's journal. *)
Theorem windows_replace_atomic (path : string) (data : bytes) (os os' : Os) (r : result unit) :
  fs_wf (os_fs os) →
  WriteFileAtomic_windows path data os = (r, os') →
  replacing (os_fs os) (os_fs os') path (path +:+ tempSuffix) data ∧
  (r = Ok tt → visible (os_fs os') path = Some data).
Proof. intros Hwf Hw. exact (replace_spec SyncDir_windows _ path data os os' r (nothing_settles _ _ _) Hwf Hw). Qed.

(** C34: replacing a file is atomic and durable.  Whatever call fails and wherever
    the machine stops, a later crash reveals the old contents or the new and the
    program reads the old or the new; after a success a crash reveals only the
    new; no other file is disturbed. *)
Theorem WriteFileAtomic_correct (path : string) (data : bytes) (os os' : Os) (r : result unit) :
  fs_wf (os_fs os) →
  WriteFileAtomic path data os = (r, os') →
  replacing (os_fs os) (os_fs os') path (path +:+ tempSuffix) data ∧
  (r = Ok tt → crash_only (os_fs os') path (Some data)).
Proof. apply WriteFileAtomic_spec. Qed.

(** Without faults the replacement succeeds. *)
Theorem WriteFileAtomic_succeeds (path : string) (data : bytes) (os : Os) :
  fs_wf (os_fs os) → os_dead os = false → os_faults os = [] →
  ∃ os', WriteFileAtomic path data os = (Ok tt, os') ∧ visible (os_fs os') path = Some data.
Proof.
  intros Hwf Hd Hf.
  destruct (WriteFileAtomic path data os) as [r os'] eqn:H.
  pose proof H as Hc. apply WriteFileAtomic_spec in Hc as [_ Hc]; [|done].
  assert (r = Ok tt) as ->; [|destruct (Hc eq_refl); by exists os'].
  revert H. unfold WriteFileAtomic, SyncDir, m_bind, m_wrap, m_on_error,
    os_OpenTrunc, file_Write, file_Sync, file_Close, os_Rename, os_OpenDir, dir_Sync.
  rewrite syscall_no_faults by done.
  destruct (fs_dir (os_fs os) !! (path +:+ tempSuffix)) as [i|] eqn:Ht; cbn [fst snd];
    repeat (rewrite syscall_no_faults by done; cbn [fst snd os_fs]); simpl.
  - rewrite Ht. simpl. repeat (rewrite syscall_no_faults by done; simpl). by intros [= <- _].
  - rewrite lookup_insert_eq. simpl. repeat (rewrite syscall_no_faults by done; simpl). by intros [= <- _].
Qed.

(** A failed replacement may still have published the new contents: the rename
    takes effect before the directory sync that can fail. *)
Theorem WriteFileAtomic_error_publishes :
  ∃ (os os' : Os) (e : string),
    fs_wf (os_fs os) ∧
    WriteFileAtomic "f" [x42]%byte os = (Err e, os') ∧
    visible (os_fs os) "f" = Some [x41]%byte ∧
    visible (os_fs os') "f" = Some [x42]%byte.
Proof.
  set (fs := mkFs {[0%nat := mkInode [x41]%byte [x41]%byte]} 1 {["f"%string := 0%nat]} ∅).
  set (os := mkOs fs [FOk; FOk; FOk; FOk; FOk; FOk; FFail 0] false).
  exists os, (WriteFileAtomic "f" [x42]%byte os).2,
    "fsync directory: fsync directory: input/output error"%string.
  split; [|vm_compute; done].
  assert (∀ p, old_bindings fs p = []) as Hold by (intros p; unfold old_bindings; by simpl; rewrite lookup_empty).
  split; simpl.
  - intros p i [<- <-]%lookup_singleton_Some. split; [lia|]. rewrite lookup_singleton_eq. eauto.
  - intros p i. rewrite Hold. by intros ?%not_elem_of_nil.
  - by intros p q i [<- <-]%lookup_singleton_Some [<- _]%lookup_singleton_Some.
  - intros p q i _. rewrite Hold. apply not_elem_of_nil.
Qed.
