(* ===== verification/Types.v ===== *)
(** * Wire and log types (internal/raft/types.go)

    The records that nodes exchange and store.  A Go [int] field is a [Z] in the
    int64 range; [Command] payloads are byte lists, opaque to consensus. *)

From S2P Require Import Prelude Os.

(** ** Roles and log entries *)

Inductive NodeRole := Leader | Follower | Candidate.

#[export] Instance NodeRole_eq_dec : EqDecision NodeRole.
Proof. solve_decision. Defined.

Record LogEntry := mkLogEntry {
  le_Index : Z;
  le_Term : Z;
  le_Command : bytes;
}.

#[export] Instance LogEntry_eq_dec : EqDecision LogEntry.
Proof. pose proof (Byte.byte_eq_dec : EqDecision Byte.byte). solve_decision. Defined.

(** ** Commands *)

Abbreviation CommandOp := string.

Definition OpSet : CommandOp := "set".
Definition OpDelete : CommandOp := "delete".
Definition OpNoop : CommandOp := "noop".

Record Command := mkCommand {
  cmd_Op : CommandOp;
  cmd_Key : string;
  cmd_Value : string;
  cmd_ClientID : string;
  cmd_Seq : Z;        (** uint64 *)
  cmd_Timestamp : Z;  (** int64, unix nanoseconds, stamped by the leader *)
}.

(** ** RPC payloads *)

Record RequestVoteRequest := mkRequestVoteRequest {
  rv_Term : Z; rv_CandidateID : Z; rv_LastLogIndex : Z; rv_LastLogTerm : Z;
}.

Record RequestVoteResponse := mkRequestVoteResponse {
  rvr_Term : Z; rvr_VoteGranted : bool;
}.

Record PreVoteRequest := mkPreVoteRequest {
  pv_Term : Z; pv_CandidateID : Z; pv_LastLogIndex : Z; pv_LastLogTerm : Z;
}.

Record PreVoteResponse := mkPreVoteResponse {
  pvr_Term : Z; pvr_VoteGranted : bool;
}.

Record InstallSnapshotRequest := mkInstallSnapshotRequest {
  is_Term : Z; is_LeaderID : Z; is_LastIncludedIndex : Z; is_LastIncludedTerm : Z;
  is_Data : bytes;
}.

Record InstallSnapshotResponse := mkInstallSnapshotResponse {
  isr_Term : Z; isr_Success : bool;
}.

Record ReadIndexRequest := mkReadIndexRequest { ri_FromNodeID : Z }.

Record ReadIndexResponse := mkReadIndexResponse {
  rir_Term : Z; rir_ReadIndex : Z; rir_Success : bool;
}.

Record AppendEntriesRequest := mkAppendEntriesRequest {
  ae_Term : Z; ae_LeaderID : Z; ae_PrevLogIndex : Z; ae_PrevLogTerm : Z;
  ae_Entries : list LogEntry; ae_LeaderCommit : Z;
}.

Record AppendEntriesResponse := mkAppendEntriesResponse {
  aer_Term : Z; aer_Success : bool; aer_MatchIndex : Z;
  aer_ConflictTerm : Z; aer_ConflictIndex : Z;
}.

(** The record Figure 2 requires on stable storage; -1 means no vote this term. *)
Record PersistentState := mkPersistentState { CurrentTerm : Z; VotedFor : Z }.

#[export] Instance PersistentState_eq_dec : EqDecision PersistentState.
Proof. solve_decision. Defined.

(** ** Serialization

    The encoding a component relies on: bytes out, bytes in, and the values that
    survive the trip. *)
Class Codec (A : Type) := {
  Marshal : A → bytes;
  Unmarshal : bytes → result A;
  encodable : A → Prop;
  Unmarshal_Marshal : ∀ a, encodable a → Unmarshal (Marshal a) = Ok a;
}.
#[global] Hint Mode Codec ! : typeclass_instances.

Definition EncodeCommand `{Codec Command} (cmd : Command) : result bytes := Ok (Marshal cmd).

Definition DecodeCommand `{Codec Command} (data : bytes) : result Command := Unmarshal data.
