(* ===== verification/Rpc.v ===== *)
(** * The RPC interfaces (transport.go, http.go)

    What the two sides of an RPC promise each other.  [rpcHandler] is the receiving
    half, which the engine implements and both the HTTP server and the test network
    deliver to; [Transport] is the sending half, which the replicator calls and both
    of them implement. *)

From S2P Require Import Prelude Types.

(** [T] is the state the handlers act on, [Env] what a call meets besides it: the
    clock, and for a read index what the control loop answered. *)
Class rpcHandler (T Env : Type) := {
  rpc_AppendEntries : Env → AppendEntriesRequest → T → AppendEntriesResponse * T;
  rpc_PreVote : Env → PreVoteRequest → T → PreVoteResponse * T;
  rpc_ReadIndex : Env → ReadIndexRequest → T → ReadIndexResponse * T;
  rpc_RequestVote : Env → RequestVoteRequest → T → RequestVoteResponse * T;
  rpc_InstallSnapshot : Env → InstallSnapshotRequest → T → InstallSnapshotResponse * T;
}.
#[global] Hint Mode rpcHandler ! - : typeclass_instances.

(** The address comes first; an error says nothing about the peer. *)
Record Transport := mkTransport {
  tr_AppendEntries : string → AppendEntriesRequest → result AppendEntriesResponse;
  tr_PreVote : string → PreVoteRequest → result PreVoteResponse;
  tr_RequestVote : string → RequestVoteRequest → result RequestVoteResponse;
  tr_InstallSnapshot : string → InstallSnapshotRequest → result InstallSnapshotResponse;
  tr_ReadIndex : string → ReadIndexRequest → result ReadIndexResponse;
}.

(** How the replicator reads a call: a reply, or no information. *)
Definition answer_of {A} (r : result A) : option A := match r with Ok a => Some a | Err _ => None end.
