(* ===== verification/Encoding.v ===== *)
(** * The JSON form of every stored and transmitted type (internal/raft/types.go)

    The struct tags of types.go as encoders and decoders over [json], with Go's
    rules: a field is found by its name, or by its name in another case when no
    field of the struct has exactly that name; the last occurrence wins; an absent
    or null field is the zero value; unknown fields are ignored; an integer must
    fit the field's type.  [JsonRep] packages a type's two directions; every
    instance is a [Codec] whose bytes are the printed JSON. *)

From Stdlib Require Import Strings.Byte.
From S2P Require Import Prelude Os Json Types.

(** ** Fields *)

Definition lower (b : Byte.byte) : Byte.byte :=
  let n := byte_val b in if decide (65 ≤ n ≤ 90) then byte_at (n + 32) else b.

Definition field_matches (names : list bytes) (name key : bytes) : bool :=
  bool_decide (key = name) ||
  (negb (bool_decide (key ∈ names)) && bool_decide (map lower key = map lower name)).

Fixpoint jget (names : list bytes) (name : bytes) (m : list (bytes * json)) (found : option json)
    : option json :=
  match m with
  | [] => found
  | (k, v) :: m => jget names name m (if field_matches names name k then Some v else found)
  end.

Definition type_error : string := "json: cannot unmarshal value into Go struct field".

Definition dec_int (lo hi : Z) (v : option json) : result Z :=
  match v with
  | None | Some JNull => Ok 0
  | Some (JNum z) => if decide (lo ≤ z ≤ hi) then Ok z else Err type_error
  | Some _ => Err type_error
  end.

Definition dec_int64 : option json → result Z := dec_int MinInt64 MaxInt64.

Definition dec_uint64 : option json → result Z := dec_int 0 18446744073709551615.

Definition dec_bool (v : option json) : result bool :=
  match v with
  | None | Some JNull => Ok false
  | Some (JBool b) => Ok b
  | Some _ => Err type_error
  end.

Definition dec_string (v : option json) : result string :=
  match v with
  | None | Some JNull => Ok ""%string
  | Some (JStr s) => Ok (String.string_of_list_byte s)
  | Some _ => Err type_error
  end.

Definition dec_bytes (v : option json) : result bytes :=
  match v with
  | None | Some JNull => Ok []
  | Some (JStr s) => b64_decode s
  | Some _ => Err type_error
  end.

Definition rbind {A B} (r : result A) (k : A → result B) : result B :=
  match r with Ok a => k a | Err e => Err e end.

Notation "x <-? r ;; k" := (rbind r (λ x, k)) (at level 100, r at next level, right associativity).

Definition enc_string (s : string) : json := JStr (str s).

Definition enc_bytes (bs : bytes) : json := JStr (b64_encode bs).

(** The members of an object; [null] decodes to the zero struct. *)
Definition members (j : json) : result (list (bytes * json)) :=
  match j with
  | JObj m => Ok m
  | JNull => Ok []
  | _ => Err type_error
  end.

(** ** Decoders invert encoders *)

Lemma dec_int64_num z : int64 z → dec_int64 (Some (JNum z)) = Ok z.
Proof. unfold int64, dec_int64, dec_int. intros. by rewrite decide_True by lia. Qed.

Lemma dec_uint64_num z : 0 ≤ z ≤ 18446744073709551615 → dec_uint64 (Some (JNum z)) = Ok z.
Proof. unfold dec_uint64, dec_int. intros. by rewrite decide_True by lia. Qed.

Lemma dec_string_str s : dec_string (Some (enc_string s)) = Ok s.
Proof. unfold dec_string, enc_string, str. by rewrite String.string_of_list_byte_of_string. Qed.

Lemma dec_bytes_b64 bs : dec_bytes (Some (enc_bytes bs)) = Ok bs.
Proof. apply b64_decode_encode. Qed.

(** Bytes below 128: the strings Go's encoder copies unchanged. *)
Definition ascii_string (s : string) : Prop := Forall (λ b, byte_val b < 128) (str s).

(** ** Types with a JSON form *)

Class JsonRep (A : Type) := {
  to_json : A → json;
  of_json : json → result A;
  json_ok : A → Prop;
  of_to_json : ∀ a, json_ok a → of_json (to_json a) = Ok a;
}.
#[global] Hint Mode JsonRep ! : typeclass_instances.

#[export] Instance json_codec `{JsonRep A} : Codec A.
Proof.
  refine {| Marshal a := render (to_json a);
            Unmarshal bs := rbind (parse bs) of_json;
            encodable := json_ok |}.
  intros a Ha. rewrite parse_render_ok. by apply of_to_json.
Defined.

(** Field lookups have closed names: evaluate them, then decode each value. *)
Ltac json_fields :=
  cbn [members rbind jget map];
  repeat match goal with
  | |- context [field_matches ?n ?m ?k] =>
      let b := eval vm_compute in (field_matches n m k) in
      change (field_matches n m k) with b; cbn [jget]
  end;
  rewrite ?dec_int64_num, ?dec_uint64_num, ?dec_string_str, ?dec_bytes_b64 by first [assumption | lia];
  cbn [rbind dec_bool].

(** ** The types *)

(** *** [PersistentState] *)

Definition PersistentState_names : list bytes := map str ["current_term"; "voted_for"]%string.

Definition PersistentState_to_json (a : PersistentState) : json :=
  JObj [(str "current_term", JNum (CurrentTerm a));
        (str "voted_for", JNum (VotedFor a))].

Definition PersistentState_of_json (j : json) : result PersistentState :=
  m <-? members j ;;
  x <-? dec_int64 (jget PersistentState_names (str "current_term") m None) ;;
  y <-? dec_int64 (jget PersistentState_names (str "voted_for") m None) ;;
  Ok (mkPersistentState x y).

#[export] Instance PersistentState_json : JsonRep PersistentState.
Proof.
  refine {| to_json := PersistentState_to_json; of_json := PersistentState_of_json; json_ok a := int64 (CurrentTerm a) ∧ int64 (VotedFor a) |}.
  intros a Ha. decompose [and] Ha. unfold PersistentState_to_json, PersistentState_of_json, PersistentState_names.
  json_fields. by destruct a.
Defined.

(** *** [LogEntry] *)

Definition LogEntry_names : list bytes := map str ["index"; "term"; "command"]%string.

Definition LogEntry_to_json (a : LogEntry) : json :=
  JObj [(str "index", JNum (le_Index a));
        (str "term", JNum (le_Term a));
        (str "command", enc_bytes (le_Command a))].

Definition LogEntry_of_json (j : json) : result LogEntry :=
  m <-? members j ;;
  x <-? dec_int64 (jget LogEntry_names (str "index") m None) ;;
  y <-? dec_int64 (jget LogEntry_names (str "term") m None) ;;
  z <-? dec_bytes (jget LogEntry_names (str "command") m None) ;;
  Ok (mkLogEntry x y z).

#[export] Instance LogEntry_json : JsonRep LogEntry.
Proof.
  refine {| to_json := LogEntry_to_json; of_json := LogEntry_of_json; json_ok a := int64 (le_Index a) ∧ int64 (le_Term a) |}.
  intros a Ha. decompose [and] Ha. unfold LogEntry_to_json, LogEntry_of_json, LogEntry_names.
  json_fields. by destruct a.
Defined.

(** *** [RequestVoteRequest] *)

Definition RequestVoteRequest_names : list bytes := map str ["term"; "candidate_id"; "last_log_index"; "last_log_term"]%string.

Definition RequestVoteRequest_to_json (a : RequestVoteRequest) : json :=
  JObj [(str "term", JNum (rv_Term a));
        (str "candidate_id", JNum (rv_CandidateID a));
        (str "last_log_index", JNum (rv_LastLogIndex a));
        (str "last_log_term", JNum (rv_LastLogTerm a))].

Definition RequestVoteRequest_of_json (j : json) : result RequestVoteRequest :=
  m <-? members j ;;
  x <-? dec_int64 (jget RequestVoteRequest_names (str "term") m None) ;;
  y <-? dec_int64 (jget RequestVoteRequest_names (str "candidate_id") m None) ;;
  z <-? dec_int64 (jget RequestVoteRequest_names (str "last_log_index") m None) ;;
  u <-? dec_int64 (jget RequestVoteRequest_names (str "last_log_term") m None) ;;
  Ok (mkRequestVoteRequest x y z u).

#[export] Instance RequestVoteRequest_json : JsonRep RequestVoteRequest.
Proof.
  refine {| to_json := RequestVoteRequest_to_json; of_json := RequestVoteRequest_of_json; json_ok a := int64 (rv_Term a) ∧ int64 (rv_CandidateID a) ∧ int64 (rv_LastLogIndex a) ∧ int64 (rv_LastLogTerm a) |}.
  intros a Ha. decompose [and] Ha. unfold RequestVoteRequest_to_json, RequestVoteRequest_of_json, RequestVoteRequest_names.
  json_fields. by destruct a.
Defined.

(** *** [RequestVoteResponse] *)

Definition RequestVoteResponse_names : list bytes := map str ["term"; "vote_granted"]%string.

Definition RequestVoteResponse_to_json (a : RequestVoteResponse) : json :=
  JObj [(str "term", JNum (rvr_Term a));
        (str "vote_granted", JBool (rvr_VoteGranted a))].

Definition RequestVoteResponse_of_json (j : json) : result RequestVoteResponse :=
  m <-? members j ;;
  x <-? dec_int64 (jget RequestVoteResponse_names (str "term") m None) ;;
  y <-? dec_bool (jget RequestVoteResponse_names (str "vote_granted") m None) ;;
  Ok (mkRequestVoteResponse x y).

#[export] Instance RequestVoteResponse_json : JsonRep RequestVoteResponse.
Proof.
  refine {| to_json := RequestVoteResponse_to_json; of_json := RequestVoteResponse_of_json; json_ok a := int64 (rvr_Term a) |}.
  intros a Ha. decompose [and] Ha. unfold RequestVoteResponse_to_json, RequestVoteResponse_of_json, RequestVoteResponse_names.
  json_fields. by destruct a.
Defined.

(** *** [PreVoteRequest] *)

Definition PreVoteRequest_names : list bytes := map str ["term"; "candidate_id"; "last_log_index"; "last_log_term"]%string.

Definition PreVoteRequest_to_json (a : PreVoteRequest) : json :=
  JObj [(str "term", JNum (pv_Term a));
        (str "candidate_id", JNum (pv_CandidateID a));
        (str "last_log_index", JNum (pv_LastLogIndex a));
        (str "last_log_term", JNum (pv_LastLogTerm a))].

Definition PreVoteRequest_of_json (j : json) : result PreVoteRequest :=
  m <-? members j ;;
  x <-? dec_int64 (jget PreVoteRequest_names (str "term") m None) ;;
  y <-? dec_int64 (jget PreVoteRequest_names (str "candidate_id") m None) ;;
  z <-? dec_int64 (jget PreVoteRequest_names (str "last_log_index") m None) ;;
  u <-? dec_int64 (jget PreVoteRequest_names (str "last_log_term") m None) ;;
  Ok (mkPreVoteRequest x y z u).

#[export] Instance PreVoteRequest_json : JsonRep PreVoteRequest.
Proof.
  refine {| to_json := PreVoteRequest_to_json; of_json := PreVoteRequest_of_json; json_ok a := int64 (pv_Term a) ∧ int64 (pv_CandidateID a) ∧ int64 (pv_LastLogIndex a) ∧ int64 (pv_LastLogTerm a) |}.
  intros a Ha. decompose [and] Ha. unfold PreVoteRequest_to_json, PreVoteRequest_of_json, PreVoteRequest_names.
  json_fields. by destruct a.
Defined.

(** *** [PreVoteResponse] *)

Definition PreVoteResponse_names : list bytes := map str ["term"; "vote_granted"]%string.

Definition PreVoteResponse_to_json (a : PreVoteResponse) : json :=
  JObj [(str "term", JNum (pvr_Term a));
        (str "vote_granted", JBool (pvr_VoteGranted a))].

Definition PreVoteResponse_of_json (j : json) : result PreVoteResponse :=
  m <-? members j ;;
  x <-? dec_int64 (jget PreVoteResponse_names (str "term") m None) ;;
  y <-? dec_bool (jget PreVoteResponse_names (str "vote_granted") m None) ;;
  Ok (mkPreVoteResponse x y).

#[export] Instance PreVoteResponse_json : JsonRep PreVoteResponse.
Proof.
  refine {| to_json := PreVoteResponse_to_json; of_json := PreVoteResponse_of_json; json_ok a := int64 (pvr_Term a) |}.
  intros a Ha. decompose [and] Ha. unfold PreVoteResponse_to_json, PreVoteResponse_of_json, PreVoteResponse_names.
  json_fields. by destruct a.
Defined.

(** *** [InstallSnapshotRequest] *)

Definition InstallSnapshotRequest_names : list bytes := map str ["term"; "leader_id"; "last_included_index"; "last_included_term"; "data"]%string.

Definition InstallSnapshotRequest_to_json (a : InstallSnapshotRequest) : json :=
  JObj [(str "term", JNum (is_Term a));
        (str "leader_id", JNum (is_LeaderID a));
        (str "last_included_index", JNum (is_LastIncludedIndex a));
        (str "last_included_term", JNum (is_LastIncludedTerm a));
        (str "data", enc_bytes (is_Data a))].

Definition InstallSnapshotRequest_of_json (j : json) : result InstallSnapshotRequest :=
  m <-? members j ;;
  x <-? dec_int64 (jget InstallSnapshotRequest_names (str "term") m None) ;;
  y <-? dec_int64 (jget InstallSnapshotRequest_names (str "leader_id") m None) ;;
  z <-? dec_int64 (jget InstallSnapshotRequest_names (str "last_included_index") m None) ;;
  u <-? dec_int64 (jget InstallSnapshotRequest_names (str "last_included_term") m None) ;;
  v <-? dec_bytes (jget InstallSnapshotRequest_names (str "data") m None) ;;
  Ok (mkInstallSnapshotRequest x y z u v).

#[export] Instance InstallSnapshotRequest_json : JsonRep InstallSnapshotRequest.
Proof.
  refine {| to_json := InstallSnapshotRequest_to_json; of_json := InstallSnapshotRequest_of_json; json_ok a := int64 (is_Term a) ∧ int64 (is_LeaderID a) ∧ int64 (is_LastIncludedIndex a) ∧ int64 (is_LastIncludedTerm a) |}.
  intros a Ha. decompose [and] Ha. unfold InstallSnapshotRequest_to_json, InstallSnapshotRequest_of_json, InstallSnapshotRequest_names.
  json_fields. by destruct a.
Defined.

(** *** [InstallSnapshotResponse] *)

Definition InstallSnapshotResponse_names : list bytes := map str ["term"; "success"]%string.

Definition InstallSnapshotResponse_to_json (a : InstallSnapshotResponse) : json :=
  JObj [(str "term", JNum (isr_Term a));
        (str "success", JBool (isr_Success a))].

Definition InstallSnapshotResponse_of_json (j : json) : result InstallSnapshotResponse :=
  m <-? members j ;;
  x <-? dec_int64 (jget InstallSnapshotResponse_names (str "term") m None) ;;
  y <-? dec_bool (jget InstallSnapshotResponse_names (str "success") m None) ;;
  Ok (mkInstallSnapshotResponse x y).

#[export] Instance InstallSnapshotResponse_json : JsonRep InstallSnapshotResponse.
Proof.
  refine {| to_json := InstallSnapshotResponse_to_json; of_json := InstallSnapshotResponse_of_json; json_ok a := int64 (isr_Term a) |}.
  intros a Ha. decompose [and] Ha. unfold InstallSnapshotResponse_to_json, InstallSnapshotResponse_of_json, InstallSnapshotResponse_names.
  json_fields. by destruct a.
Defined.

(** *** [ReadIndexRequest] *)

Definition ReadIndexRequest_names : list bytes := map str ["from_node_id"]%string.

Definition ReadIndexRequest_to_json (a : ReadIndexRequest) : json :=
  JObj [(str "from_node_id", JNum (ri_FromNodeID a))].

Definition ReadIndexRequest_of_json (j : json) : result ReadIndexRequest :=
  m <-? members j ;;
  x <-? dec_int64 (jget ReadIndexRequest_names (str "from_node_id") m None) ;;
  Ok (mkReadIndexRequest x).

#[export] Instance ReadIndexRequest_json : JsonRep ReadIndexRequest.
Proof.
  refine {| to_json := ReadIndexRequest_to_json; of_json := ReadIndexRequest_of_json; json_ok a := int64 (ri_FromNodeID a) |}.
  intros a Ha. decompose [and] Ha. unfold ReadIndexRequest_to_json, ReadIndexRequest_of_json, ReadIndexRequest_names.
  json_fields. by destruct a.
Defined.

(** *** [ReadIndexResponse] *)

Definition ReadIndexResponse_names : list bytes := map str ["term"; "read_index"; "success"]%string.

Definition ReadIndexResponse_to_json (a : ReadIndexResponse) : json :=
  JObj [(str "term", JNum (rir_Term a));
        (str "read_index", JNum (rir_ReadIndex a));
        (str "success", JBool (rir_Success a))].

Definition ReadIndexResponse_of_json (j : json) : result ReadIndexResponse :=
  m <-? members j ;;
  x <-? dec_int64 (jget ReadIndexResponse_names (str "term") m None) ;;
  y <-? dec_int64 (jget ReadIndexResponse_names (str "read_index") m None) ;;
  z <-? dec_bool (jget ReadIndexResponse_names (str "success") m None) ;;
  Ok (mkReadIndexResponse x y z).

#[export] Instance ReadIndexResponse_json : JsonRep ReadIndexResponse.
Proof.
  refine {| to_json := ReadIndexResponse_to_json; of_json := ReadIndexResponse_of_json; json_ok a := int64 (rir_Term a) ∧ int64 (rir_ReadIndex a) |}.
  intros a Ha. decompose [and] Ha. unfold ReadIndexResponse_to_json, ReadIndexResponse_of_json, ReadIndexResponse_names.
  json_fields. by destruct a.
Defined.

(** *** [AppendEntriesResponse] *)

Definition AppendEntriesResponse_names : list bytes := map str ["term"; "success"; "match_index"; "conflict_term"; "conflict_index"]%string.

Definition AppendEntriesResponse_to_json (a : AppendEntriesResponse) : json :=
  JObj [(str "term", JNum (aer_Term a));
        (str "success", JBool (aer_Success a));
        (str "match_index", JNum (aer_MatchIndex a));
        (str "conflict_term", JNum (aer_ConflictTerm a));
        (str "conflict_index", JNum (aer_ConflictIndex a))].

Definition AppendEntriesResponse_of_json (j : json) : result AppendEntriesResponse :=
  m <-? members j ;;
  x <-? dec_int64 (jget AppendEntriesResponse_names (str "term") m None) ;;
  y <-? dec_bool (jget AppendEntriesResponse_names (str "success") m None) ;;
  z <-? dec_int64 (jget AppendEntriesResponse_names (str "match_index") m None) ;;
  u <-? dec_int64 (jget AppendEntriesResponse_names (str "conflict_term") m None) ;;
  v <-? dec_int64 (jget AppendEntriesResponse_names (str "conflict_index") m None) ;;
  Ok (mkAppendEntriesResponse x y z u v).

#[export] Instance AppendEntriesResponse_json : JsonRep AppendEntriesResponse.
Proof.
  refine {| to_json := AppendEntriesResponse_to_json; of_json := AppendEntriesResponse_of_json; json_ok a := int64 (aer_Term a) ∧ int64 (aer_MatchIndex a) ∧ int64 (aer_ConflictTerm a) ∧ int64 (aer_ConflictIndex a) |}.
  intros a Ha. decompose [and] Ha. unfold AppendEntriesResponse_to_json, AppendEntriesResponse_of_json, AppendEntriesResponse_names.
  json_fields. by destruct a.
Defined.

(** *** [AppendEntriesRequest]

    A nil batch is encoded as [null]. *)

Definition AppendEntriesRequest_names : list bytes :=
  map str ["term"; "leader_id"; "prev_log_index"; "prev_log_term"; "entries"; "leader_commit"]%string.

Definition enc_entries (es : list LogEntry) : json :=
  match es with [] => JNull | _ => JArr (map LogEntry_to_json es) end.

Fixpoint map_result {A B} (f : A → result B) (l : list A) : result (list B) :=
  match l with
  | [] => Ok []
  | x :: l => y <-? f x ;; ys <-? map_result f l ;; Ok (y :: ys)
  end.

Definition dec_entries (v : option json) : result (list LogEntry) :=
  match v with
  | None | Some JNull => Ok []
  | Some (JArr l) => map_result LogEntry_of_json l
  | Some _ => Err type_error
  end.

Definition AppendEntriesRequest_to_json (a : AppendEntriesRequest) : json :=
  JObj [(str "term", JNum (ae_Term a));
        (str "leader_id", JNum (ae_LeaderID a));
        (str "prev_log_index", JNum (ae_PrevLogIndex a));
        (str "prev_log_term", JNum (ae_PrevLogTerm a));
        (str "entries", enc_entries (ae_Entries a));
        (str "leader_commit", JNum (ae_LeaderCommit a))].

Definition AppendEntriesRequest_of_json (j : json) : result AppendEntriesRequest :=
  m <-? members j ;;
  x <-? dec_int64 (jget AppendEntriesRequest_names (str "term") m None) ;;
  y <-? dec_int64 (jget AppendEntriesRequest_names (str "leader_id") m None) ;;
  z <-? dec_int64 (jget AppendEntriesRequest_names (str "prev_log_index") m None) ;;
  u <-? dec_int64 (jget AppendEntriesRequest_names (str "prev_log_term") m None) ;;
  v <-? dec_entries (jget AppendEntriesRequest_names (str "entries") m None) ;;
  w <-? dec_int64 (jget AppendEntriesRequest_names (str "leader_commit") m None) ;;
  Ok (mkAppendEntriesRequest x y z u v w).

Lemma map_result_of_to {A} (f : A → json) (g : json → result A) (P : A → Prop) l :
  (∀ a, P a → g (f a) = Ok a) → Forall P l → map_result g (map f l) = Ok l.
Proof.
  intros Hfg. induction 1 as [|a l Ha _ IH]; simpl; [done|]. by rewrite Hfg, IH.
Qed.

Lemma dec_entries_enc es : Forall json_ok es → dec_entries (Some (enc_entries es)) = Ok es.
Proof.
  intros Hes. assert (map_result LogEntry_of_json (map LogEntry_to_json es) = Ok es) as Hm
    by (apply (map_result_of_to _ _ (json_ok (A := LogEntry))); [exact of_to_json|done]).
  by destruct es.
Qed.

#[export] Instance AppendEntriesRequest_json : JsonRep AppendEntriesRequest.
Proof.
  refine {| to_json := AppendEntriesRequest_to_json; of_json := AppendEntriesRequest_of_json;
    json_ok a := int64 (ae_Term a) ∧ int64 (ae_LeaderID a) ∧ int64 (ae_PrevLogIndex a) ∧
      int64 (ae_PrevLogTerm a) ∧ int64 (ae_LeaderCommit a) ∧ Forall json_ok (ae_Entries a) |}.
  intros a Ha. decompose [and] Ha.
  unfold AppendEntriesRequest_to_json, AppendEntriesRequest_of_json, AppendEntriesRequest_names.
  json_fields. rewrite dec_entries_enc by done. cbn [rbind]. by destruct a.
Defined.

(** *** [Command]: zero fields tagged [omitempty] are left out *)

Definition Command_names : list bytes :=
  map str ["op"; "key"; "value"; "client_id"; "seq"; "ts"]%string.

Definition omit_string (name : string) (s : string) : list (bytes * json) :=
  if String.eqb s "" then [] else [(str name, enc_string s)].

Definition omit_int (name : string) (z : Z) : list (bytes * json) :=
  if z =? 0 then [] else [(str name, JNum z)].

Definition Command_to_json (a : Command) : json :=
  JObj ([(str "op", enc_string (cmd_Op a)); (str "key", enc_string (cmd_Key a))] ++
        omit_string "value" (cmd_Value a) ++
        omit_string "client_id" (cmd_ClientID a) ++
        omit_int "seq" (cmd_Seq a) ++
        omit_int "ts" (cmd_Timestamp a)).

Definition Command_of_json (j : json) : result Command :=
  m <-? members j ;;
  x <-? dec_string (jget Command_names (str "op") m None) ;;
  y <-? dec_string (jget Command_names (str "key") m None) ;;
  z <-? dec_string (jget Command_names (str "value") m None) ;;
  u <-? dec_string (jget Command_names (str "client_id") m None) ;;
  v <-? dec_uint64 (jget Command_names (str "seq") m None) ;;
  w <-? dec_int64 (jget Command_names (str "ts") m None) ;;
  Ok (mkCommand x y z u v w).

#[export] Instance Command_json : JsonRep Command.
Proof.
  refine {| to_json := Command_to_json; of_json := Command_of_json;
    json_ok a := Forall ascii_string [cmd_Op a; cmd_Key a; cmd_Value a; cmd_ClientID a] ∧
      0 ≤ cmd_Seq a ≤ 18446744073709551615 ∧ int64 (cmd_Timestamp a) |}.
  intros a (_ & Hseq & Hts). unfold Command_to_json, Command_of_json, Command_names, omit_string, omit_int.
  destruct a as [op key value client seq ts]. cbn [cmd_Op cmd_Key cmd_Value cmd_ClientID cmd_Seq cmd_Timestamp] in *.
  destruct (String.eqb_spec value ""), (String.eqb_spec client ""), (Z.eqb_spec seq 0), (Z.eqb_spec ts 0);
    subst; cbn [app]; json_fields; reflexivity.
Defined.

(** A command survives its log encoding: what the leader proposes is what every
    replica decodes, omitted zero fields and escaped characters included. *)
Theorem Command_roundtrip (cmd : Command) :
  json_ok cmd → ∃ data, EncodeCommand cmd = Ok data ∧ DecodeCommand data = Ok cmd.
Proof.
  intros Hok. eexists. split; [done|]. apply Unmarshal_Marshal. exact Hok.
Qed.

(** A log entry, with any opaque command bytes, survives the WAL and the wire. *)
Theorem AppendEntries_roundtrip (req : AppendEntriesRequest) :
  json_ok req → Unmarshal (Marshal req) = Ok req.
Proof. intros Hok. exact (Unmarshal_Marshal req Hok). Qed.
