(* ===== verification/StateMachine.v ===== *)
(** * The replicated state machine (internal/store/statemachine.go)

    The key-value map, the client sessions that make retransmissions harmless, and
    the replicated clock that expires them.  [Apply] is a pure function of the
    state and the command, which is the determinism the replicas rely on: no clock,
    no random source, no iteration order.  The theorems are about what a client
    gets: exactly-once execution inside the session lifetime, and a snapshot that
    carries everything later commands can depend on. *)

From Stdlib Require Import Strings.Byte.
From stdpp Require Import pretty.
From S2P Require Import Prelude Os Json Types Encoding.

(** ** State *)

Definition Second : Z := 1000000000.

Definition DefaultSessionTTL : Z := 3600 * Second.

Definition sweepInterval : Z := 1000.

Record session := mkSession {
  LastSeq : Z;
  s_Err : string;   (** empty: the command succeeded *)
  LastUsed : Z;
}.

#[export] Instance session_eq_dec : EqDecision session.
Proof. solve_decision. Defined.

Record MemoryStateMachine := mkMachine {
  sm_data : gmap string string;
  sm_sessions : gmap string session;
  sm_now : Z;
  sm_appliesSinceSweep : Z;
  sm_sessionTTL : Z;
}.

Definition NewMemoryStateMachine : MemoryStateMachine := mkMachine ∅ ∅ 0 0 DefaultSessionTTL.

Definition SetSessionTTL (d : Z) (m : MemoryStateMachine) : MemoryStateMachine :=
  if d <=? 0 then m
  else mkMachine (sm_data m) (sm_sessions m) (sm_now m) (sm_appliesSinceSweep m) d.

(** ** Commands *)

(** [%q] on the bytes the program formats. *)
Definition quote_char (b : Byte.byte) : bytes :=
  if decide (b = x22) then [x5c; x22]
  else if decide (b = x5c) then [x5c; x5c]
  else if decide (b = x07) then str "\a" else if decide (b = x08) then str "\b"
  else if decide (b = x0c) then str "\f" else if decide (b = x0a) then str "\n"
  else if decide (b = x0d) then str "\r" else if decide (b = x09) then str "\t"
  else if decide (b = x0b) then str "\v"
  else if decide (byte_val b < 32 ∨ b = x7f) then
    str "\x" ++ [hex_digit (byte_val b / 16); hex_digit (byte_val b mod 16)]
  else [b].

Definition quote (s : string) : string :=
  String.string_of_list_byte (x22 :: concat (map quote_char (str s)) ++ [x22]).

(** [execute]: the command's own effect; [None] is success. *)
Definition execute (index : Z) (cmd : Command) (m : MemoryStateMachine)
    : option go_error * MemoryStateMachine :=
  let with_data d := mkMachine d (sm_sessions m) (sm_now m) (sm_appliesSinceSweep m) (sm_sessionTTL m) in
  if String.eqb (cmd_Op cmd) OpSet then
    if String.eqb (cmd_Key cmd) "" then
      (Some ("set: empty key at index " +:+ pretty index)%string, m)
    else (None, with_data (<[cmd_Key cmd := cmd_Value cmd]> (sm_data m)))
  else if String.eqb (cmd_Op cmd) OpDelete then
    if String.eqb (cmd_Key cmd) "" then
      (Some ("delete: empty key at index " +:+ pretty index)%string, m)
    else (None, with_data (delete (cmd_Key cmd) (sm_data m)))
  else if String.eqb (cmd_Op cmd) OpNoop then (None, m)
  else (Some ("unknown op " +:+ quote (cmd_Op cmd) +:+ " at index " +:+ pretty index)%string, m).

Definition expireSessions (m : MemoryStateMachine) : MemoryStateMachine :=
  let n := sm_appliesSinceSweep m +! 1 in
  if n <? sweepInterval then mkMachine (sm_data m) (sm_sessions m) (sm_now m) n (sm_sessionTTL m)
  else
    let cutoff := sm_now m -! sm_sessionTTL m in
    mkMachine (sm_data m) (filter (λ '(_, s), ¬ LastUsed s < cutoff) (sm_sessions m))
      (sm_now m) 0 (sm_sessionTTL m).

(** The clock step of [Apply], then the sweep. *)
Definition advance (cmd : Command) (m : MemoryStateMachine) : MemoryStateMachine :=
  expireSessions
    (mkMachine (sm_data m) (sm_sessions m)
       (if sm_now m <? cmd_Timestamp cmd then cmd_Timestamp cmd else sm_now m)
       (sm_appliesSinceSweep m) (sm_sessionTTL m)).

(** The session a retransmission is recognised by, if it is one. *)
Definition duplicate_of (cmd : Command) (m : MemoryStateMachine) : option session :=
  if String.eqb (cmd_ClientID cmd) "" then None
  else
    match sm_sessions m !! cmd_ClientID cmd with
    | Some prev => if cmd_Seq cmd <=? LastSeq prev then Some prev else None
    | None => None
    end.

Definition record_outcome (cmd : Command) (err : option go_error) (m : MemoryStateMachine)
    : MemoryStateMachine :=
  if String.eqb (cmd_ClientID cmd) "" then m
  else
    mkMachine (sm_data m)
      (<[cmd_ClientID cmd := mkSession (cmd_Seq cmd) (default ""%string err) (sm_now m)]> (sm_sessions m))
      (sm_now m) (sm_appliesSinceSweep m) (sm_sessionTTL m).

Definition Apply (index : Z) (cmd : Command) (m : MemoryStateMachine)
    : option go_error * MemoryStateMachine :=
  let m := advance cmd m in
  match duplicate_of cmd m with
  | Some prev => (if String.eqb (s_Err prev) "" then None else Some (s_Err prev), m)
  | None =>
      let '(err, m) := execute index cmd m in
      (err, record_outcome cmd err m)
  end.

Definition Get (key : string) (m : MemoryStateMachine) : option string := sm_data m !! key.

Definition SessionCount (m : MemoryStateMachine) : Z := Z.of_nat (size (sm_sessions m)).

(** The machine after a list of commands, whatever each returns: not code, but what
    the theorems call everything that ran in between.  (The engine's loop, which
    halts on an error, is [applyCommitted].) *)
Fixpoint apply_all (index : Z) (cmds : list Command) (m : MemoryStateMachine) : MemoryStateMachine :=
  match cmds with
  | [] => m
  | cmd :: cmds => apply_all (index + 1) cmds (Apply index cmd m).2
  end.

(** ** Snapshots *)

(** [encoding/json] prints map keys in sorted order. *)
Definition key_le {V} (a b : string * V) : Prop := String.leb a.1 b.1 = true.

#[export] Instance key_le_dec {V} : RelDecision (@key_le V).
Proof. intros a b. unfold key_le. apply _. Defined.

Definition sorted_pairs {V} (m : gmap string V) : list (string * V) := merge_sort key_le (map_to_list m).

Definition enc_map {V} (enc : V → json) (m : gmap string V) : json :=
  JObj (map (λ '(k, v), (str k, enc v)) (sorted_pairs m)).

Definition dec_map {V} (dec : json → result V) (v : option json) : result (gmap string V) :=
  match v with
  | None | Some JNull => Ok ∅
  | Some (JObj m) =>
      kvs <-? map_result (λ '(k, v), x <-? dec v ;; Ok (String.string_of_list_byte k, x)) m ;;
      Ok (foldl (λ out '(k, x), <[k := x]> out) ∅ kvs)
  | Some _ => Err type_error
  end.

Definition session_names : list bytes := map str ["last_seq"; "err"; "last_used"]%string.

Definition session_to_json (s : session) : json :=
  JObj ([(str "last_seq", JNum (LastSeq s))] ++ omit_string "err" (s_Err s) ++
        [(str "last_used", JNum (LastUsed s))]).

Definition session_of_json (j : json) : result session :=
  m <-? members j ;;
  x <-? dec_uint64 (jget session_names (str "last_seq") m None) ;;
  y <-? dec_string (jget session_names (str "err") m None) ;;
  z <-? dec_int64 (jget session_names (str "last_used") m None) ;;
  Ok (mkSession x y z).

Definition machineState_names : list bytes :=
  map str ["data"; "sessions"; "now"; "applies_since_sweep"]%string.

Definition machineState_to_json (m : MemoryStateMachine) : json :=
  JObj [(str "data", enc_map enc_string (sm_data m));
        (str "sessions", enc_map session_to_json (sm_sessions m));
        (str "now", JNum (sm_now m));
        (str "applies_since_sweep", JNum (sm_appliesSinceSweep m))].

Definition Snapshot (m : MemoryStateMachine) : result bytes := Ok (render (machineState_to_json m)).

(** [Restore] keeps the receiver's own configured lifetime. *)
Definition Restore (data : bytes) (m : MemoryStateMachine) : result unit * MemoryStateMachine :=
  let decoded :=
    j <-? parse data ;;
    st <-? members j ;;
    d <-? dec_map (λ j, dec_string (Some j)) (jget machineState_names (str "data") st None) ;;
    ss <-? dec_map session_of_json (jget machineState_names (str "sessions") st None) ;;
    now <-? dec_int64 (jget machineState_names (str "now") st None) ;;
    n <-? dec_int64 (jget machineState_names (str "applies_since_sweep") st None) ;;
    Ok (mkMachine d ss now n (sm_sessionTTL m)) in
  match decoded with
  | Err e => (Err ("decode snapshot state: " +:+ e)%string, m)
  | Ok m' => (Ok tt, m')
  end.

(** ** Invariant *)

Record machine_wf (m : MemoryStateMachine) : Prop := {
  mw_now : 0 ≤ sm_now m ≤ MaxInt64;
  mw_sweep : 0 ≤ sm_appliesSinceSweep m < sweepInterval;
  mw_ttl : 0 < sm_sessionTTL m ≤ MaxInt64;
}.

Definition new_clock (cmd : Command) (m : MemoryStateMachine) : Z := Z.max (sm_now m) (cmd_Timestamp cmd).

(** This command triggers a sweep. *)
Definition sweeps (m : MemoryStateMachine) : bool := sm_appliesSinceSweep m =? sweepInterval - 1.

(** A session a sweep at clock [now] discards. *)
Definition expired (now ttl : Z) (s : session) : bool := LastUsed s <? now - ttl.

Lemma advance_spec cmd m :
  machine_wf m → int64 (cmd_Timestamp cmd) →
  machine_wf (advance cmd m) ∧
  sm_data (advance cmd m) = sm_data m ∧
  sm_now (advance cmd m) = new_clock cmd m ∧
  sm_sessionTTL (advance cmd m) = sm_sessionTTL m ∧
  sm_appliesSinceSweep (advance cmd m) = (sm_appliesSinceSweep m + 1) mod sweepInterval ∧
  ∀ c, sm_sessions (advance cmd m) !! c =
    match sm_sessions m !! c with
    | Some s => if sweeps m && expired (new_clock cmd m) (sm_sessionTTL m) s then None else Some s
    | None => None
    end.
Proof.
  intros [Hn Hs Ht] Hts. unfold sweepInterval in *.
  assert ((if sm_now m <? cmd_Timestamp cmd then cmd_Timestamp cmd else sm_now m) = new_clock cmd m) as Hc.
  { unfold new_clock. destruct (Z.ltb_spec (sm_now m) (cmd_Timestamp cmd)); lia. }
  assert (0 ≤ new_clock cmd m ≤ MaxInt64) as Hnow by (unfold new_clock, int64 in *; lia).
  unfold advance, expireSessions, sweeps, expired. rewrite Hc. simpl. unfold sweepInterval. wrapless.
  destruct (Z.ltb_spec (sm_appliesSinceSweep m + 1) 1000), (Z.eqb_spec (sm_appliesSinceSweep m) (1000 - 1));
    try (exfalso; lia); simpl.
  - split; [by split; simpl; unfold sweepInterval; lia|]. rewrite Z.mod_small by lia. split_and!; try done.
    intros c. by destruct (sm_sessions m !! c).
  - split; [by split; simpl; unfold sweepInterval; lia|].
    replace (sm_appliesSinceSweep m + 1) with 1000 by lia. split_and!; try done.
    intros c. rewrite map_lookup_filter. destruct (sm_sessions m !! c) as [s|]; simpl; [|done].
    destruct (Z.ltb_spec (LastUsed s) (new_clock cmd m - sm_sessionTTL m)); case_guard; done || lia.
Qed.

Lemma execute_sessions i cmd m :
  sm_sessions (execute i cmd m).2 = sm_sessions m ∧ sm_now (execute i cmd m).2 = sm_now m ∧
  sm_appliesSinceSweep (execute i cmd m).2 = sm_appliesSinceSweep m ∧
  sm_sessionTTL (execute i cmd m).2 = sm_sessionTTL m.
Proof. unfold execute. by repeat (case_match; simpl). Qed.

Lemma execute_error i cmd m e : (execute i cmd m).1 = Some e → String.eqb e "" = false.
Proof. unfold execute. repeat (case_match; simpl); by intros [= <-]. Qed.

Lemma record_outcome_fields cmd err m :
  sm_data (record_outcome cmd err m) = sm_data m ∧ sm_now (record_outcome cmd err m) = sm_now m ∧
  sm_appliesSinceSweep (record_outcome cmd err m) = sm_appliesSinceSweep m ∧
  sm_sessionTTL (record_outcome cmd err m) = sm_sessionTTL m.
Proof. unfold record_outcome. by destruct (String.eqb _ _). Qed.

(** What a command leaves, whether new or a retransmission. *)
Lemma Apply_fields i cmd m :
  machine_wf m → int64 (cmd_Timestamp cmd) →
  let m' := (Apply i cmd m).2 in
  machine_wf m' ∧ sm_now m' = new_clock cmd m ∧ sm_sessionTTL m' = sm_sessionTTL m ∧
  sm_appliesSinceSweep m' = (sm_appliesSinceSweep m + 1) mod sweepInterval.
Proof.
  intros Hwf Hts. destruct (advance_spec cmd m Hwf Hts) as ([Hn Hs Ht] & Hd & Hnow & Httl & Hsw & _).
  unfold Apply. destruct (duplicate_of cmd (advance cmd m)); [by split|].
  destruct (execute i cmd (advance cmd m)) as [err m'] eqn:He.
  pose proof (execute_sessions i cmd (advance cmd m)) as (_ & E1 & E2 & E3). rewrite He in *. simpl in *.
  destruct (record_outcome_fields cmd err m') as (_ & R1 & R2 & R3).
  split; [split; rewrite ?R1, ?R2, ?R3, ?E1, ?E2, ?E3; done|]. split_and!; congruence.
Qed.

(** ** Retransmissions *)

Definition tracked (m : MemoryStateMachine) (c : string) (s : session) : Prop :=
  sm_sessions m !! c = Some s.

(** A session survives any command of another client, and any retransmission of
    its own, as long as the clock has not outrun the lifetime. *)
Lemma Apply_tracked i cmd m c s :
  machine_wf m → int64 (cmd_Timestamp cmd) → c ≠ ""%string →
  tracked m c s → (cmd_ClientID cmd = c → cmd_Seq cmd ≤ LastSeq s) →
  new_clock cmd m - LastUsed s ≤ sm_sessionTTL m →
  tracked (Apply i cmd m).2 c s.
Proof.
  intros Hwf Hts Hc Htr Hseq Hage.
  destruct (advance_spec cmd m Hwf Hts) as (_ & _ & _ & _ & _ & Hl).
  assert (tracked (advance cmd m) c s) as Ha.
  { unfold tracked in *. rewrite Hl, Htr. unfold expired.
    destruct (Z.ltb_spec (LastUsed s) (new_clock cmd m - sm_sessionTTL m)); [lia|].
    by rewrite andb_false_r. }
  unfold Apply, duplicate_of. destruct (String.eqb_spec (cmd_ClientID cmd) c) as [Heq|Hne].
  - rewrite Heq. apply String.eqb_neq in Hc as Hc'. rewrite Hc'. unfold tracked in Ha. rewrite Ha.
    specialize (Hseq Heq). destruct (Z.leb_spec (cmd_Seq cmd) (LastSeq s)); [|lia]. exact Ha.
  - match goal with |- context [match ?d with Some _ => _ | None => _ end] => destruct d end; [exact Ha|].
    destruct (execute i cmd (advance cmd m)) as [err m'] eqn:He.
    pose proof (execute_sessions i cmd (advance cmd m)) as (E0 & _). rewrite He in E0. simpl in E0.
    unfold tracked, record_outcome in *. simpl. destruct (String.eqb _ _); simpl; [by rewrite E0|].
    by rewrite lookup_insert_ne, E0.
Qed.

(** A new command of an identified client leaves its outcome in its session. *)
Lemma Apply_new i cmd m err m' :
  machine_wf m → int64 (cmd_Timestamp cmd) → cmd_ClientID cmd ≠ ""%string →
  duplicate_of cmd (advance cmd m) = None → Apply i cmd m = (err, m') →
  tracked m' (cmd_ClientID cmd) (mkSession (cmd_Seq cmd) (default ""%string err) (sm_now m')) ∧
  ∀ e, err = Some e → String.eqb e "" = false.
Proof.
  intros Hwf Hts Hc Hd. unfold Apply. rewrite Hd.
  destruct (execute i cmd (advance cmd m)) as [err0 m0] eqn:He. intros [= <- <-].
  apply String.eqb_neq in Hc. unfold tracked, record_outcome. rewrite Hc. simpl.
  rewrite lookup_insert_eq. split; [done|]. intros e ->.
  pose proof (execute_error i cmd (advance cmd m) e) as Hne. rewrite He in Hne. by apply Hne.
Qed.

(** The client's session is at [seq] or beyond, used no earlier than [used]. *)
Definition reached (m : MemoryStateMachine) (c : string) (seq used : Z) : Prop :=
  used ≤ sm_now m ∧ ∃ s, tracked m c s ∧ seq ≤ LastSeq s ∧ used ≤ LastUsed s.

(** No command takes a session back, as long as the clock has not outrun the
    lifetime. *)
Lemma Apply_reached i cmd m c seq used :
  machine_wf m → int64 (cmd_Timestamp cmd) → c ≠ ""%string →
  reached m c seq used → new_clock cmd m - used ≤ sm_sessionTTL m → reached (Apply i cmd m).2 c seq used.
Proof.
  intros Hwf Hts Hc (Hnow & s & Htr & Hseq & Hused) Hage.
  destruct (Apply_fields i cmd m Hwf Hts) as (_ & Hn & _). split; [rewrite Hn; unfold new_clock; lia|].
  destruct (decide (cmd_ClientID cmd = c ∧ LastSeq s < cmd_Seq cmd)) as [[Heq Hnew]|Hold].
  2:{ exists s. split; [|done]. apply Apply_tracked; [done..| |lia]. intros Heq. destruct (decide (LastSeq s < cmd_Seq cmd)); [by destruct Hold|lia]. }
  destruct (advance_spec cmd m Hwf Hts) as (_ & _ & _ & _ & _ & Hl).
  assert (duplicate_of cmd (advance cmd m) = None) as Hd.
  { unfold duplicate_of. rewrite Heq. apply String.eqb_neq in Hc as ->. rewrite Hl. unfold tracked in Htr. rewrite Htr.
    case_match eqn:Hx; [|done]. destruct (_ && _); [done|]. injection Hx as <-. destruct (Z.leb_spec (cmd_Seq cmd) (LastSeq s)); [lia|done]. }
  destruct (Apply i cmd m) as [err m'] eqn:Ha. rewrite <-Heq in Hc.
  destruct (Apply_new i cmd m err m' Hwf Hts Hc Hd Ha) as [Htr' _]. rewrite Heq in Htr'. simpl in *.
  eexists. split; [exact Htr'|]. simpl. rewrite Hn. unfold new_clock. lia.
Qed.

Lemma apply_all_now cmds i m :
  machine_wf m → Forall (λ c, int64 (cmd_Timestamp c)) cmds →
  machine_wf (apply_all i cmds m) ∧ sm_now m ≤ sm_now (apply_all i cmds m) ∧
  sm_sessionTTL (apply_all i cmds m) = sm_sessionTTL m ∧
  sm_appliesSinceSweep (apply_all i cmds m)
    = (sm_appliesSinceSweep m + Z.of_nat (length cmds)) mod sweepInterval.
Proof.
  intros Hwf Hall. revert i m Hwf. induction Hall as [|cmd cmds Hts _ IH]; intros i m Hwf; simpl.
  - split_and!; try done. rewrite Z.add_0_r. symmetry. apply Z.mod_small, Hwf.
  - destruct (Apply_fields i cmd m Hwf Hts) as (Hwf' & Hn & Ht & Hs).
    destruct (IH (i + 1) _ Hwf') as (? & Hn' & -> & ->). rewrite Ht, Hs, Hn in *.
    split_and!; try done; [unfold new_clock in *; lia|].
    unfold sweepInterval. rewrite Zplus_mod_idemp_l. f_equal. lia.
Qed.

Lemma apply_all_tracked cmds i m c s :
  machine_wf m → c ≠ ""%string →
  Forall (λ k, int64 (cmd_Timestamp k) ∧ (cmd_ClientID k = c → cmd_Seq k ≤ LastSeq s)) cmds →
  tracked m c s → sm_now (apply_all i cmds m) - LastUsed s ≤ sm_sessionTTL m →
  tracked (apply_all i cmds m) c s.
Proof.
  intros Hwf Hc Hall. revert i m Hwf. induction Hall as [|cmd cmds [Hts Hseq] Hall IH]; intros i m Hwf Htr Hage; simpl in *; [done|].
  destruct (Apply_fields i cmd m Hwf Hts) as (Hwf' & Hn & Ht & Hs).
  assert (Forall (λ c, int64 (cmd_Timestamp c)) cmds) as Hts' by (eapply Forall_impl; [exact Hall|]; naive_solver).
  destruct (apply_all_now cmds (i + 1) _ Hwf' Hts') as (_ & Hmono & _).
  apply IH; [done| |by rewrite Ht]. apply Apply_tracked; try done. lia.
Qed.

Lemma apply_all_reached cmds i m c seq used :
  machine_wf m → c ≠ ""%string → Forall (λ k, int64 (cmd_Timestamp k)) cmds →
  reached m c seq used → sm_now (apply_all i cmds m) - used ≤ sm_sessionTTL m → reached (apply_all i cmds m) c seq used.
Proof.
  intros Hwf Hc Hall. revert i m Hwf. induction Hall as [|cmd cmds Hts Hall IH]; intros i m Hwf Hr Hage; simpl in *; [done|].
  destruct (Apply_fields i cmd m Hwf Hts) as (Hwf' & Hn & Ht & Hs).
  destruct (apply_all_now cmds (i + 1) _ Hwf' Hall) as (_ & Hmono & _).
  apply IH; [done| |by rewrite Ht]. apply Apply_reached; try done. lia.
Qed.

(** A retransmission replays the recorded outcome and touches no data. *)
Lemma Apply_replay i cmd m s :
  machine_wf m → int64 (cmd_Timestamp cmd) → cmd_ClientID cmd ≠ ""%string →
  tracked m (cmd_ClientID cmd) s → cmd_Seq cmd ≤ LastSeq s →
  new_clock cmd m - LastUsed s ≤ sm_sessionTTL m →
  (Apply i cmd m).1 = (if String.eqb (s_Err s) "" then None else Some (s_Err s)) ∧
  sm_data (Apply i cmd m).2 = sm_data m.
Proof.
  intros Hwf Hts Hc Htr Hseq Hage.
  destruct (advance_spec cmd m Hwf Hts) as (_ & Hd & _ & _ & _ & Hl).
  assert (sm_sessions (advance cmd m) !! cmd_ClientID cmd = Some s) as Ha.
  { unfold tracked in Htr. rewrite Hl, Htr. unfold expired.
    destruct (Z.ltb_spec (LastUsed s) (new_clock cmd m - sm_sessionTTL m)); [lia|].
    by rewrite andb_false_r. }
  apply String.eqb_neq in Hc. unfold Apply, duplicate_of. rewrite Hc, Ha.
  by destruct (Z.leb_spec (cmd_Seq cmd) (LastSeq s)); [|lia].
Qed.

(** C29: exactly-once.  A command of an identified client executes once however often
    it is retransmitted: at any later log position, whatever commands ran in between,
    those of the same client included, while less than a session lifetime has passed
    on the replicated clock since the original, a retry (of it or of an older command
    of the client) leaves the data as it finds it; and if the client has issued
    nothing newer in between, it returns the outcome of the original (after something
    newer the data is safe all the same, and nothing is said of the outcome). *)
Theorem exactly_once (m m1 : MemoryStateMachine) (i j : Z) (cmd retry : Command)
    (err : option string) (later : list Command) :
  machine_wf m → int64 (cmd_Timestamp cmd) → int64 (cmd_Timestamp retry) →
  cmd_ClientID cmd ≠ ""%string →
  duplicate_of cmd (advance cmd m) = None →
  Apply i cmd m = (err, m1) →
  Forall (λ k, int64 (cmd_Timestamp k)) later →
  cmd_ClientID retry = cmd_ClientID cmd → cmd_Seq retry ≤ cmd_Seq cmd →
  let m2 := apply_all (i + 1) later m1 in
  new_clock retry m2 - sm_now m1 ≤ sm_sessionTTL m →
  sm_data (Apply j retry m2).2 = sm_data m2 ∧
  (Forall (λ k, cmd_ClientID k = cmd_ClientID cmd → cmd_Seq k ≤ cmd_Seq cmd) later → (Apply j retry m2).1 = err).
Proof.
  intros Hwf Hts Htr Hc Hd Ha Hlater Hrc Hrs m2 Hage.
  destruct (Apply_new i cmd m err m1 Hwf Hts Hc Hd Ha) as [Htrk Herr].
  pose proof (Apply_fields i cmd m Hwf Hts) as (Hwf1 & _ & Httl & _). rewrite Ha in Hwf1, Httl. simpl in Hwf1, Httl.
  destruct (apply_all_now later (i + 1) m1 Hwf1 Hlater) as (Hwf2 & _ & Httl2 & _). fold m2 in Hwf2, Httl2.
  assert (sm_now m2 - sm_now m1 ≤ sm_sessionTTL m1) as Hage2 by (rewrite Httl; unfold new_clock in Hage; lia).
  rewrite <-Httl, <-Httl2 in Hage. split.
  - destruct (apply_all_reached later (i + 1) m1 (cmd_ClientID cmd) (cmd_Seq cmd) (sm_now m1)) as (_ & s & Hs & Hseq & Hused);
      [done..|split; [done|by eexists]|done|]. fold m2 in Hs. rewrite <-Hrc in Hs.
    apply (Apply_replay j retry m2 s Hwf2 Htr ltac:(by rewrite Hrc) Hs); lia.
  - intros Holder.
    assert (tracked m2 (cmd_ClientID cmd) (mkSession (cmd_Seq cmd) (default ""%string err) (sm_now m1))) as Htrk2.
    { apply apply_all_tracked; try done. apply Forall_and. by split. }
    rewrite <-Hrc in Htrk2. destruct (Apply_replay j retry m2 _ Hwf2 Htr ltac:(by rewrite Hrc) Htrk2 Hrs) as [-> _]; [simpl; lia|].
    destruct err as [e|]; [|done]. simpl. by rewrite (Herr e eq_refl).
Qed.

(** expiry is a function of the log.  Over any stretch of commands the clock is
    the largest timestamp seen, sweeps fall on every thousandth command counted
    across snapshots, and a command removes another client's session exactly when
    it falls on a sweep and the session is older than the lifetime on that clock;
    so replicas with one lifetime expire the same sessions at the same index. *)
Theorem expiry_deterministic (m : MemoryStateMachine) (i : Z) (cmd : Command) (cmds : list Command) :
  machine_wf m → Forall (λ c, int64 (cmd_Timestamp c)) (cmd :: cmds) →
  sm_now (apply_all i (cmd :: cmds) m) = foldl Z.max (sm_now m) (map cmd_Timestamp (cmd :: cmds)) ∧
  sm_appliesSinceSweep (apply_all i (cmd :: cmds) m)
    = (sm_appliesSinceSweep m + Z.of_nat (length (cmd :: cmds))) mod sweepInterval ∧
  ∀ c, c ≠ cmd_ClientID cmd →
    sm_sessions (Apply i cmd m).2 !! c =
    match sm_sessions m !! c with
    | Some s => if sweeps m && expired (new_clock cmd m) (sm_sessionTTL m) s then None else Some s
    | None => None
    end.
Proof.
  intros Hwf Hall. split; [|split].
  - generalize (cmd :: cmds) Hall. clear Hall cmds. intros cs Hall. revert i m Hwf.
    induction Hall as [|k cs Hts Hall IH]; intros i m Hwf; [done|].
    destruct (Apply_fields i k m Hwf Hts) as (Hwf' & Hn & _). cbn [apply_all].
    rewrite (IH (i + 1) _ Hwf'), Hn. done.
  - by apply apply_all_now.
  - intros c Hc. apply Forall_cons in Hall as [Hts _].
    destruct (advance_spec cmd m Hwf Hts) as (_ & _ & _ & _ & _ & Hl). rewrite <-Hl.
    unfold Apply. destruct (duplicate_of cmd (advance cmd m)); [done|].
    destruct (execute i cmd (advance cmd m)) as [err m'] eqn:He.
    pose proof (execute_sessions i cmd (advance cmd m)) as (E0 & _). rewrite He in E0. simpl in *.
    unfold record_outcome. destruct (String.eqb _ _); simpl; [by rewrite E0|].
    by rewrite lookup_insert_ne, E0.
Qed.

(** ** Snapshots carry the whole state *)

Lemma foldl_insert_lookup {V} (kvs : list (string * V)) (out : gmap string V) k :
  NoDup kvs.*1 →
  foldl (λ out '(k, x), <[k := x]> out) out kvs !! k
  = match list_to_map (M := gmap string V) kvs !! k with Some v => Some v | None => out !! k end.
Proof.
  revert out. induction kvs as [|[k' x] kvs IH]; intros out Hnd; simpl; [by rewrite lookup_empty|].
  inv Hnd. rewrite IH by done. destruct (decide (k' = k)) as [->|Hne].
  - rewrite lookup_insert_eq, not_elem_of_list_to_map_1 by done. by rewrite lookup_insert_eq.
  - by rewrite !lookup_insert_ne.
Qed.

Lemma sorted_pairs_map {V} (m : gmap string V) :
  foldl (λ out '(k, x), <[k := x]> out) ∅ (sorted_pairs m) = m.
Proof.
  assert (sorted_pairs m ≡ₚ map_to_list m) as Hp by apply merge_sort_Permutation.
  assert (NoDup (sorted_pairs m).*1) as Hnd by (rewrite Hp; apply NoDup_fst_map_to_list).
  apply map_eq. intros k. rewrite foldl_insert_lookup by done.
  rewrite (list_to_map_proper _ _ Hnd Hp), list_to_map_to_list, lookup_empty.
  by destruct (m !! k).
Qed.

Lemma dec_map_enc {V} (enc : V → json) (dec : json → result V) (ok : V → Prop) (m : gmap string V) :
  (∀ v, ok v → dec (enc v) = Ok v) → map_Forall (λ _, ok) m →
  dec_map dec (Some (enc_map enc m)) = Ok m.
Proof.
  intros Hdec Hok. unfold dec_map, enc_map.
  assert (Forall (λ kv, ok kv.2) (sorted_pairs m)) as Hall.
  { apply Forall_forall. intros [k v] Hin. unfold sorted_pairs in Hin.
    rewrite merge_sort_Permutation in Hin. apply elem_of_map_to_list in Hin. by apply (Hok k). }
  assert (map_result (λ '(k, v), x <-? dec v ;; Ok (String.string_of_list_byte k, x))
    (map (λ '(k, v), (str k, enc v)) (sorted_pairs m)) = Ok (sorted_pairs m)) as ->.
  { induction Hall as [|[k v] l Hv _ IH]; simpl; [done|]. simpl in Hv. rewrite Hdec by done. simpl.
    rewrite IH. simpl. unfold str. by rewrite String.string_of_list_byte_of_string. }
  simpl. by rewrite sorted_pairs_map.
Qed.

Definition session_ok (s : session) : Prop :=
  0 ≤ LastSeq s ≤ 18446744073709551615 ∧ int64 (LastUsed s).

Lemma session_of_to s : session_ok s → session_of_json (session_to_json s) = Ok s.
Proof.
  intros (Hseq & Hlu). unfold session_to_json, session_of_json, session_names, omit_string.
  destruct s as [q e u]. cbn [LastSeq s_Err LastUsed] in *.
  destruct (String.eqb_spec e ""); subst; cbn [app]; json_fields; reflexivity.
Qed.

(** The machine fits its serialization: integers in range, and strings Go's
    encoder does not rewrite. *)
Definition machine_ok (m : MemoryStateMachine) : Prop :=
  int64 (sm_now m) ∧ int64 (sm_appliesSinceSweep m) ∧
  map_Forall (λ _, session_ok) (sm_sessions m) ∧
  map_Forall (λ k v, ascii_string k ∧ ascii_string v) (sm_data m) ∧
  map_Forall (λ k s, ascii_string k ∧ ascii_string (s_Err s)) (sm_sessions m).

Lemma Restore_Snapshot m m0 data :
  machine_ok m → Snapshot m = Ok data →
  Restore data m0 = (Ok tt, mkMachine (sm_data m) (sm_sessions m) (sm_now m)
                              (sm_appliesSinceSweep m) (sm_sessionTTL m0)).
Proof.
  intros (Hn & Ha & Hs & _) Hd.
  assert (data = render (machineState_to_json m)) as -> by (unfold Snapshot in Hd; congruence).
  unfold Restore. rewrite parse_render_ok. unfold machineState_to_json, machineState_names. json_fields.
  rewrite (dec_map_enc enc_string _ (λ _, True)) by (intros; apply dec_string_str || done).
  cbn [rbind]. rewrite (dec_map_enc session_to_json _ session_ok) by (apply session_of_to || done).
  cbn [rbind]. json_fields. reflexivity.
Qed.

(** C30: a snapshot is the state.  A machine restored from another's snapshot, under
    the same session lifetime, is that machine, dedup table, clock and sweep
    counter included; so every later command has the same outcome and effect on
    both, and a restart or an installed snapshot cannot make replicas diverge. *)
Theorem snapshot_is_state (m m0 : MemoryStateMachine) (data : bytes) :
  machine_ok m → Snapshot m = Ok data → sm_sessionTTL m0 = sm_sessionTTL m →
  Restore data m0 = (Ok tt, m) ∧
  ∀ i cmds, apply_all i cmds (Restore data m0).2 = apply_all i cmds m.
Proof.
  intros Hok Hd Httl. rewrite (Restore_Snapshot m m0 data Hok Hd), Httl.
  destruct m. split; [done|]. done.
Qed.
