(* ===== verification/RaftLog.v ===== *)
(** * The Raft log and its write-ahead log (internal/raft/log.go)

    [RaftLog] is the in-memory cache of entries together with the WAL file that
    mirrors it.  Every method runs under [rl.mu], so each is one atomic step of
    type [M RaftLog]; the disk it writes to is part of the state, so failures and
    crashes at any system call are part of each step's meaning.  This file holds
    the operations; RaftLogFacts and RaftLogDisk hold their properties. *)

From S2P Require Import Prelude Os FsUtil Types.

Definition defaultCompactionThreshold : Z := 1000.

(** ** State *)

Record RaftLog := mkRaftLog {
  rl_walFile : nat;         (** the open append handle *)
  rl_walOpen : bool;        (** false once the handle has been closed *)
  rl_walPath : string;
  rl_cache : list LogEntry; (** [cache[0]] holds index [firstIndex] *)
  rl_nextIndex : Z;
  rl_firstIndex : Z;
  rl_lastIncludedIndex : Z;
  rl_lastIncludedTerm : Z;
  rl_compactionThreshold : Z;
  rl_disk : Os;
}.

Definition set_walFile (f : nat) (open : bool) (rl : RaftLog) : RaftLog :=
  mkRaftLog f open (rl_walPath rl) (rl_cache rl) (rl_nextIndex rl) (rl_firstIndex rl)
    (rl_lastIncludedIndex rl) (rl_lastIncludedTerm rl) (rl_compactionThreshold rl) (rl_disk rl).

Definition set_cache (c : list LogEntry) (rl : RaftLog) : RaftLog :=
  mkRaftLog (rl_walFile rl) (rl_walOpen rl) (rl_walPath rl) c (rl_nextIndex rl) (rl_firstIndex rl)
    (rl_lastIncludedIndex rl) (rl_lastIncludedTerm rl) (rl_compactionThreshold rl) (rl_disk rl).

Definition set_nextIndex (n : Z) (rl : RaftLog) : RaftLog :=
  mkRaftLog (rl_walFile rl) (rl_walOpen rl) (rl_walPath rl) (rl_cache rl) n (rl_firstIndex rl)
    (rl_lastIncludedIndex rl) (rl_lastIncludedTerm rl) (rl_compactionThreshold rl) (rl_disk rl).

Definition set_firstIndex (n : Z) (rl : RaftLog) : RaftLog :=
  mkRaftLog (rl_walFile rl) (rl_walOpen rl) (rl_walPath rl) (rl_cache rl) (rl_nextIndex rl) n
    (rl_lastIncludedIndex rl) (rl_lastIncludedTerm rl) (rl_compactionThreshold rl) (rl_disk rl).

(** The three boundary assignments that always go together:
    [lastIncludedIndex = i; lastIncludedTerm = t; firstIndex = i + 1]. *)
Definition set_boundary (i t : Z) (rl : RaftLog) : RaftLog :=
  mkRaftLog (rl_walFile rl) (rl_walOpen rl) (rl_walPath rl) (rl_cache rl) (rl_nextIndex rl) (i +! 1)
    i t (rl_compactionThreshold rl) (rl_disk rl).

Definition set_compactionThreshold (n : Z) (rl : RaftLog) : RaftLog :=
  mkRaftLog (rl_walFile rl) (rl_walOpen rl) (rl_walPath rl) (rl_cache rl) (rl_nextIndex rl)
    (rl_firstIndex rl) (rl_lastIncludedIndex rl) (rl_lastIncludedTerm rl) n (rl_disk rl).

Definition set_disk (os : Os) (rl : RaftLog) : RaftLog :=
  mkRaftLog (rl_walFile rl) (rl_walOpen rl) (rl_walPath rl) (rl_cache rl) (rl_nextIndex rl)
    (rl_firstIndex rl) (rl_lastIncludedIndex rl) (rl_lastIncludedTerm rl)
    (rl_compactionThreshold rl) os.

(** Run a file-system computation on the log's disk. *)
Definition on_disk {A} (m : io A) : M RaftLog A := λ rl,
  let '(r, os) := m (rl_disk rl) in (r, set_disk os rl).

Definition cache_len (rl : RaftLog) : Z := Z.of_nat (length (rl_cache rl)).

(** ** Reading *)

Definition getEntryLocked (rl : RaftLog) (index : Z) : option LogEntry :=
  let cacheIdx := index -! rl_firstIndex rl in
  if (cacheIdx <? 0) || (cache_len rl <=? cacheIdx) then None
  else rl_cache rl !! Z.to_nat cacheIdx.

Definition GetEntry (rl : RaftLog) (index : Z) : option LogEntry := getEntryLocked rl index.

(** [e, _ := rl.getEntryLocked(index)]: the zero entry when absent. *)
Definition getEntryTerm (rl : RaftLog) (index : Z) : Z :=
  match getEntryLocked rl index with Some e => le_Term e | None => 0 end.

Definition lastIndexLocked (rl : RaftLog) : Z :=
  match last (rl_cache rl) with
  | None => rl_lastIncludedIndex rl
  | Some e => le_Index e
  end.

Definition LatestIndex (rl : RaftLog) : Z := lastIndexLocked rl.

Definition LatestTerm (rl : RaftLog) : Z :=
  match last (rl_cache rl) with
  | None => rl_lastIncludedTerm rl
  | Some e => le_Term e
  end.

Definition LastLogState (rl : RaftLog) : Z * Z :=
  match last (rl_cache rl) with
  | None => (rl_lastIncludedIndex rl, rl_lastIncludedTerm rl)
  | Some e => (le_Index e, le_Term e)
  end.

Definition FirstIndex (rl : RaftLog) : Z := rl_firstIndex rl.

Definition GetEntriesFrom (rl : RaftLog) (startIndex : Z) : list LogEntry :=
  let cacheIdx := startIndex -! rl_firstIndex rl in
  if cacheIdx <? 0 then []
  else if cache_len rl <=? cacheIdx then []
  else drop (Z.to_nat cacheIdx) (rl_cache rl).

Definition TermAt (rl : RaftLog) (index : Z) : Z :=
  if index =? rl_lastIncludedIndex rl then rl_lastIncludedTerm rl
  else
    match getEntryLocked rl index with
    | None => 0
    | Some e => le_Term e
    end.

Definition SetCompactionThreshold (n : Z) (rl : RaftLog) : RaftLog :=
  if n <=? 0 then rl else set_compactionThreshold n rl.

Definition NeedsCompaction (rl : RaftLog) (appliedIndex : Z) : bool :=
  (rl_compactionThreshold rl <=? cache_len rl) && (0 <? appliedIndex).

(** ** Frames *)

Definition byte_of_Z (z : Z) : Byte.byte :=
  default x00 (Byte.of_N (Z.to_N (z `mod` 256))).

Definition Z_of_byte (b : Byte.byte) : Z := Z.of_N (Byte.to_N b).

(** Big-endian uint32. *)
Definition be32 (n : Z) : bytes :=
  [byte_of_Z (Z.shiftr n 24); byte_of_Z (Z.shiftr n 16); byte_of_Z (Z.shiftr n 8); byte_of_Z n].

Definition of_be32 (bs : bytes) : Z :=
  foldl (λ n b, Z.shiftl n 8 + Z_of_byte b) 0 bs.

Section WithCodec.
Context `{Codec LogEntry}.

(** [[4 bytes big-endian uint32 length][JSON entry]]; the length is truncated to
    32 bits as [uint32(len(data))] truncates it. *)
Definition frame (entry : LogEntry) : bytes :=
  be32 (Z.of_nat (length (Marshal entry)) `mod` 4294967296) ++ Marshal entry.

Definition writeEntryTo (w : nat) (entry : LogEntry) : io unit :=
  let data := Marshal entry in
  let length := Z.of_nat (length data) `mod` 4294967296 in
  m_wrap "write WAL frame length" (file_Write w (be32 length)) ;;;
  m_wrap "write WAL payload" (file_Write w data).

(** ** Writing *)

(** A call on [rl.walFile], which fails without reaching the disk once the handle
    is closed. *)
Definition on_wal (m : nat → io unit) : M RaftLog unit := λ rl,
  if rl_walOpen rl then on_disk (m (rl_walFile rl)) rl
  else (Err "file already closed"%string, rl).

(** [rl.walFile.Close()]: the handle is unusable afterwards whatever the result. *)
Definition close_wal : M RaftLog unit := λ rl,
  let '(r, rl') := on_wal file_Close rl in
  (r, set_walFile (rl_walFile rl') false rl').

Definition writeEntryToDisk (entry : LogEntry) : M RaftLog unit :=
  on_wal (λ w, writeEntryTo w entry) ;;;
  m_wrap "fsync WAL" (on_wal file_Sync).

Definition AppendLeader (cmd : bytes) (term : Z) : M RaftLog LogEntry :=
  rl <-- m_get ;;
  let entry := mkLogEntry (rl_nextIndex rl) term cmd in
  writeEntryToDisk entry ;;;
  m_modify (λ rl, set_nextIndex (rl_nextIndex rl +! 1) (set_cache (rl_cache rl ++ [entry]) rl)) ;;;
  m_ret entry.

(** Write every entry of the cache to the temporary file, closing it on the first
    failure. *)
Fixpoint write_entries (tmp : nat) (es : list LogEntry) : io unit :=
  match es with
  | [] => m_ret tt
  | e :: es => m_on_error (writeEntryTo tmp e) (file_Close tmp) ;;; write_entries tmp es
  end.

Definition stage_rewrite (tmpPath : string) (es : list LogEntry) : io unit :=
  tmp <-- m_wrap "open WAL rewrite temp" (os_OpenTrunc tmpPath) ;;
  write_entries tmp es ;;;
  m_wrap "fsync WAL rewrite temp" (m_on_error (file_Sync tmp) (file_Close tmp)) ;;;
  m_wrap "close WAL rewrite temp" (file_Close tmp).

Definition rewriteWALLocked : M RaftLog unit :=
  rl <-- m_get ;;
  let tmpPath := rl_walPath rl +:+ ".rewrite" in
  on_disk (stage_rewrite tmpPath (rl_cache rl)) ;;;
  m_wrap "close WAL before rewrite swap" close_wal ;;;
  on_disk (m_wrap "rename WAL rewrite into place" (os_Rename tmpPath (rl_walPath rl))) ;;;
  on_disk (m_wrap "fsync WAL directory after rewrite" SyncDir) ;;;
  f <-- on_disk (m_wrap "reopen WAL after rewrite" (os_OpenFile (rl_walPath rl))) ;;
  m_modify (set_walFile f true).

(** ** The follower's AppendEntries, log half *)

(** The loop [for ci > rl.firstIndex { ... ci-- }]; [fuel] counts the iterations
    left, [ci - firstIndex] of which exist. *)
Fixpoint conflict_walk (fuel : nat) (rl : RaftLog) (ct ci : Z) : Z :=
  match fuel with
  | O => ci
  | S fuel =>
      if rl_firstIndex rl <? ci then
        if negb (getEntryTerm rl (ci -! 1) =? ct) then ci
        else conflict_walk fuel rl ct (ci -! 1)
      else ci
  end.

(** One iteration's default case: append [entry] if it continues the sequence. *)
Definition splice_append (entry : LogEntry) : M RaftLog unit :=
  rl <-- m_get ;;
  let want := rl_firstIndex rl +! cache_len rl in
  if negb (le_Index entry =? want) then m_fail "refusing non-contiguous append"%string
  else
    on_wal (λ w, writeEntryTo w entry) ;;;
    m_modify (λ rl, set_nextIndex (le_Index entry +! 1) (set_cache (rl_cache rl ++ [entry]) rl)).

(** Steps 3 and 4; returns how many entries were appended. *)
Fixpoint splice (entries : list LogEntry) (appended : Z) : M RaftLog Z :=
  match entries with
  | [] => m_ret appended
  | entry :: entries =>
      rl <-- m_get ;;
      match getEntryLocked rl (le_Index entry) with
      | Some existing =>
          if le_Term existing =? le_Term entry then splice entries appended
          else
            m_modify (set_cache (take (Z.to_nat (le_Index entry -! rl_firstIndex rl)) (rl_cache rl))) ;;;
            rewriteWALLocked ;;;
            splice_append entry ;;;
            splice entries (appended +! 1)
      | None =>
          splice_append entry ;;;
          splice entries (appended +! 1)
      end
  end.

(** [(matchIndex, conflictTerm, conflictIndex, ok)] *)
Definition AppendEntriesToLog (prevLogIndex prevLogTerm : Z) (entries : list LogEntry)
    (rl : RaftLog) : (Z * Z * Z * bool) * RaftLog :=
  let splice_and_sync :=
    match (appended <-- splice entries 0 ;;
           if 0 <? appended then on_wal file_Sync else m_ret tt) rl with
    | (Err _, rl') => ((0, 0, 0, false), rl')
    | (Ok _, rl') =>
        let matchIndex :=
          match last entries with None => prevLogIndex | Some e => le_Index e end in
        ((matchIndex, 0, 0, true), rl')
    end in
  let lastIndex := lastIndexLocked rl in
  if 0 <? prevLogIndex then
    if lastIndex <? prevLogIndex then ((0, 0, lastIndex +! 1, false), rl)
    else
      let prevTerm :=
        if prevLogIndex =? rl_lastIncludedIndex rl then rl_lastIncludedTerm rl
        else getEntryTerm rl prevLogIndex in
      if negb (prevTerm =? prevLogTerm) then
        let ci := conflict_walk (Z.to_nat (prevLogIndex - rl_firstIndex rl)) rl prevTerm prevLogIndex in
        ((0, prevTerm, ci, false), rl)
      else splice_and_sync
  else splice_and_sync.

(** ** Compaction and snapshots *)

Definition TruncateBeforeIndex (snapshotIndex snapshotTerm : Z) : M RaftLog unit :=
  rl <-- m_get ;;
  if snapshotIndex <? rl_firstIndex rl then m_ret tt
  else
    let newCache := filter (λ e, snapshotIndex < le_Index e) (rl_cache rl) in
    m_modify (λ rl, set_boundary snapshotIndex snapshotTerm (set_cache newCache rl)) ;;;
    rewriteWALLocked.

Definition ResetToSnapshot (lastIncludedIndex lastIncludedTerm : Z) : M RaftLog unit :=
  rl <-- m_get ;;
  if lastIncludedIndex <=? rl_lastIncludedIndex rl then m_ret tt
  else
    let newCache :=
      match getEntryLocked rl lastIncludedIndex with
      | Some existing =>
          if le_Term existing =? lastIncludedTerm
          then filter (λ e, lastIncludedIndex < le_Index e) (rl_cache rl)
          else []
      | None => []
      end in
    m_modify (λ rl, set_boundary lastIncludedIndex lastIncludedTerm (set_cache newCache rl)) ;;;
    m_modify (λ rl, if rl_nextIndex rl <? rl_firstIndex rl
                    then set_nextIndex (rl_firstIndex rl) rl else rl) ;;;
    m_modify (λ rl, match last (rl_cache rl) with
                    | None => rl
                    | Some e => set_nextIndex (le_Index e +! 1) rl
                    end) ;;;
    rewriteWALLocked.

(** The run of entries that continues contiguously from [expected], and the index
    after it. *)
Fixpoint keep_contiguous (expected : Z) (es : list LogEntry) : list LogEntry * Z :=
  match es with
  | [] => ([], expected)
  | e :: es =>
      if negb (le_Index e =? expected) then keep_contiguous expected es
      else let '(kept, next) := keep_contiguous (expected +! 1) es in (e :: kept, next)
  end.

Definition RestoreOffset (lastIncludedIndex lastIncludedTerm : Z) : M RaftLog unit :=
  m_modify (set_boundary lastIncludedIndex lastIncludedTerm) ;;;
  rl <-- m_get ;;
  if decide (rl_cache rl = []) then m_modify (set_nextIndex (lastIncludedIndex +! 1))
  else
    let '(kept, expected) := keep_contiguous (lastIncludedIndex +! 1) (rl_cache rl) in
    let dropped := Z.of_nat (length (rl_cache rl)) - Z.of_nat (length kept) in
    m_modify (λ rl, set_nextIndex expected (set_cache kept rl)) ;;;
    if dropped =? 0 then m_ret tt else rewriteWALLocked.

Definition Close : M RaftLog unit := close_wal.

(** ** Recovery *)

(** [io.ReadFull(f, buf)] at offset [pos]: up to [n] bytes; fewer means the end of
    the file was reached. *)
Definition file_ReadFull (i pos n : nat) : io bytes :=
  syscall no_effect (λ fs,
    match fs_inodes fs !! i with
    | Some nd => (Ok (take n (drop pos (i_data nd))), fs)
    | None => (Err "bad file descriptor"%string, fs)
    end).

(** [f.Seek(0, io.SeekCurrent)] *)
Definition file_Seek : io unit := syscall no_effect (λ fs, (Ok tt, fs)).

(** Outcome of one read of the frame loop: [io.EOF] at a frame boundary, a frame
    that cannot be read, or its bytes. *)
Inductive frame_read := AtEOF | Partial | FrameBytes (bs : bytes).

(** [binary.Read] of the length and [io.ReadFull] of the payload.  Any error but
    [io.EOF] on the length counts as a partial frame. *)
Definition read_frame (f pos : nat) : io frame_read := λ os,
  match file_ReadFull f pos 4 os with
  | (Err _, os1) => (Ok Partial, os1)
  | (Ok [], os1) => (Ok AtEOF, os1)
  | (Ok hdr, os1) =>
      if decide (length hdr < 4)%nat then (Ok Partial, os1)
      else
        let len := Z.to_nat (of_be32 hdr) in
        if decide (len = 0)%nat then (Ok (FrameBytes []), os1)
        else
          match file_ReadFull f (pos + 4) len os1 with
          | (Err _, os2) => (Ok Partial, os2)
          | (Ok buf, os2) =>
              if decide (length buf < len)%nat then (Ok Partial, os2)
              else (Ok (FrameBytes buf), os2)
          end
  end.

(** The recovery loop; every iteration consumes at least four bytes, so the file
    length bounds the iterations. *)
Fixpoint recover_loop (fuel : nat) (f pos lastGoodPos : nat) : M RaftLog unit :=
  match fuel with
  | O => m_ret tt
  | S fuel =>
      on_disk file_Seek ;;;
      fr <-- on_disk (read_frame f pos) ;;
      match fr with
      | AtEOF => m_ret tt
      | Partial => on_disk (m_wrap "truncate partial WAL frame" (file_Truncate f lastGoodPos))
      | FrameBytes buf =>
          match Unmarshal buf with
          | Err e => m_fail ("corrupt WAL entry: " +:+ e)%string
          | Ok entry =>
              m_modify (λ rl, if decide (rl_cache rl = []) then set_firstIndex (le_Index entry) rl else rl) ;;;
              m_modify (λ rl, set_nextIndex (le_Index entry +! 1) (set_cache (rl_cache rl ++ [entry]) rl)) ;;;
              recover_loop fuel f (pos + 4 + length buf) (pos + 4 + length buf)
          end
      end
  end.

Definition file_length (os : Os) (i : nat) : nat :=
  match fs_inodes (os_fs os) !! i with Some nd => length (i_data nd) | None => 0 end.

Definition recover : M RaftLog unit :=
  rl <-- m_get ;;
  f <-- on_disk (m_wrap "open WAL for recovery" (os_OpenFile (rl_walPath rl))) ;;
  rl <-- m_get ;;
  recover_loop (S (file_length (rl_disk rl) f)) f 0 0 ;;;
  on_disk (m_wrap "fsync WAL after recovery" (file_Sync f)).

Definition NewRaftLog (walPath : string) (disk : Os) : result unit * RaftLog :=
  let rl := mkRaftLog 0 false walPath [] 1 1 0 0 defaultCompactionThreshold disk in
  (m_wrap "recover WAL" recover ;;;
   f <-- on_disk (m_wrap "open WAL" (os_OpenFile walPath)) ;;
   m_modify (set_walFile f true)) rl.

End WithCodec.
