(* ===== verification/RaftLogFacts.v ===== *)
(** * Correctness of the log operations

    The positional invariant of the cache, what every operation does to the
    logical log, and the refinement of the follower's splice against the
    description of Figure 2: keep what matches, replace from the first conflict. *)

From S2P Require Import Prelude Os FsUtil Types RaftLog.

(** ** The invariant *)

(** Entries carry consecutive indices from [first]. *)
Definition contiguous (first : Z) (es : list LogEntry) : Prop :=
  ∀ (i : nat) e, es !! i = Some e → le_Index e = first + Z.of_nat i.

(** Position and index agree, and no index computation wraps. *)
Record log_pos (rl : RaftLog) : Prop := {
  lp_first : rl_firstIndex rl = rl_lastIncludedIndex rl + 1;
  lp_entries : contiguous (rl_firstIndex rl) (rl_cache rl);
  lp_low : 0 ≤ rl_lastIncludedIndex rl;
  lp_high : rl_firstIndex rl + cache_len rl ≤ MaxInt64;
}.

(** The full invariant: the next index to assign is the one after the last. *)
Definition log_wf (rl : RaftLog) : Prop :=
  log_pos rl ∧ rl_nextIndex rl = rl_firstIndex rl + cache_len rl.

(** The part of the state the disk does not touch. *)
Definition logical (rl : RaftLog) : list LogEntry * Z * Z * Z * Z * Z * string :=
  (rl_cache rl, rl_nextIndex rl, rl_firstIndex rl, rl_lastIncludedIndex rl,
   rl_lastIncludedTerm rl, rl_compactionThreshold rl, rl_walPath rl).

(** Two logs with the same entries after the same boundary. *)
Definition same_contents (rl rl' : RaftLog) : Prop :=
  rl_cache rl' = rl_cache rl ∧ rl_lastIncludedIndex rl' = rl_lastIncludedIndex rl ∧
  rl_lastIncludedTerm rl' = rl_lastIncludedTerm rl.

Lemma logical_pos rl rl' : logical rl' = logical rl → log_pos rl → log_pos rl'.
Proof.
  unfold logical. intros [= Hc Hn Hf Hl Ht Hk Hp] [? ? ? ?].
  split; unfold cache_len; rewrite ?Hc, ?Hf, ?Hl; done.
Qed.

Lemma logical_wf rl rl' : logical rl' = logical rl → log_wf rl → log_wf rl'.
Proof.
  intros Heq [Hp Hn]. split; [by eapply logical_pos|].
  unfold logical in Heq. injection Heq. unfold cache_len in *. congruence.
Qed.

(** ** Contiguous runs *)

Lemma contiguous_nil f : contiguous f [].
Proof. by intros i e. Qed.

Lemma contiguous_cons f e es :
  contiguous f (e :: es) ↔ le_Index e = f ∧ contiguous (f + 1) es.
Proof.
  split.
  - intros H. split; [rewrite (H 0%nat e) by done; lia|].
    intros i x Hx. rewrite (H (S i) x) by done. lia.
  - intros [He H] [|i] x Hx; simpl in Hx; [injection Hx as <-; lia|].
    rewrite (H i x Hx). lia.
Qed.

Lemma contiguous_app f es1 es2 :
  contiguous f (es1 ++ es2) ↔
  contiguous f es1 ∧ contiguous (f + Z.of_nat (length es1)) es2.
Proof.
  revert f. induction es1 as [|e es1 IH]; intros f; simpl.
  - rewrite Z.add_0_r. split; [by intros; split; [apply contiguous_nil|]|tauto].
  - rewrite !contiguous_cons, IH.
    replace (f + 1 + Z.of_nat (length es1)) with (f + Z.of_nat (S (length es1))) by lia. tauto.
Qed.

Lemma contiguous_take f n es : contiguous f es → contiguous f (take n es).
Proof. intros H. rewrite <-(take_drop n es) in H. by apply contiguous_app in H as [? _]. Qed.

Lemma contiguous_drop f n es :
  (n ≤ length es)%nat → contiguous f es → contiguous (f + Z.of_nat n) (drop n es).
Proof.
  intros Hn H. rewrite <-(take_drop n es) in H. apply contiguous_app in H as [_ H].
  by rewrite length_take_le in H.
Qed.

Lemma contiguous_last f es e :
  contiguous f es → last es = Some e → le_Index e = f + Z.of_nat (length es) - 1.
Proof.
  intros Hc. rewrite last_lookup. intros H. rewrite (Hc _ _ H).
  apply lookup_lt_Some in H. lia.
Qed.

(** Keeping the entries above [S] keeps a suffix. *)
Lemma filter_above f es S :
  contiguous f es →
  filter (λ e, S < le_Index e) es = drop (Z.to_nat (S + 1 - f)) es.
Proof.
  revert f. induction es as [|e es IH]; intros f Hc; simpl; [by rewrite drop_nil|].
  apply contiguous_cons in Hc as [He Hc]. rewrite filter_cons. case_decide as Hd.
  - replace (Z.to_nat (S + 1 - f)) with 0%nat by lia. simpl. f_equal.
    rewrite (IH _ Hc). by replace (Z.to_nat (S + 1 - (f + 1))) with 0%nat by lia.
  - rewrite (IH _ Hc).
    replace (Z.to_nat (S + 1 - f)) with (1 + Z.to_nat (S + 1 - (f + 1)))%nat by lia.
    done.
Qed.

(** ** Lookup *)

(** The entry at a log index, by position. *)
Definition entry_at (rl : RaftLog) (index : Z) : option LogEntry :=
  if decide (rl_firstIndex rl ≤ index) then rl_cache rl !! Z.to_nat (index - rl_firstIndex rl)
  else None.

Lemma getEntryLocked_spec (rl : RaftLog) (index : Z) :
  log_pos rl → int64 index → getEntryLocked rl index = entry_at rl index.
Proof.
  intros [Hf Hc Hlo Hhi] Hi. unfold getEntryLocked, entry_at.
  assert (0 ≤ cache_len rl) by (unfold cache_len; lia).
  destruct (Z_lt_le_dec (index - rl_firstIndex rl) MinInt64) as [Hlow|Hin].
  - rewrite (i64_below (index - rl_firstIndex rl)) by (unfold int64 in *; lia).
    rewrite decide_False by (unfold int64 in *; lia).
    destruct (Z.ltb_spec (index - rl_firstIndex rl + 18446744073709551616) 0); [done|].
    destruct (Z.leb_spec (cache_len rl) (index - rl_firstIndex rl + 18446744073709551616)); [done|].
    unfold int64 in *; lia.
  - wrapless. destruct (Z.ltb_spec (index - rl_firstIndex rl) 0).
    + by rewrite decide_False by lia.
    + rewrite decide_True by lia.
      destruct (Z.leb_spec (cache_len rl) (index - rl_firstIndex rl)) as [Hge|]; [|done].
      symmetry. apply lookup_ge_None. unfold cache_len in Hge. lia.
Qed.

(** Looking up any int64 index, however far out of range, finds exactly the
    entry stored at that log position: the wrap-around of the index translation
    never aliases another entry. *)
Theorem getEntryLocked_correct (rl : RaftLog) (index : Z) :
  log_pos rl → int64 index → getEntryLocked rl index = entry_at rl index.
Proof. apply getEntryLocked_spec. Qed.

Lemma entry_at_index rl index e : log_pos rl → entry_at rl index = Some e → le_Index e = index.
Proof.
  unfold entry_at. intros Hp. case_decide; [|done]. intros Hl.
  rewrite (lp_entries _ Hp _ _ Hl). lia.
Qed.

Lemma entry_at_Some rl index :
  is_Some (entry_at rl index) ↔ rl_firstIndex rl ≤ index < rl_firstIndex rl + cache_len rl.
Proof.
  unfold entry_at, cache_len. case_decide; [|split; [by intros []|lia]].
  rewrite lookup_lt_is_Some. lia.
Qed.

Lemma entry_at_int64 rl index : log_pos rl → is_Some (entry_at rl index) → int64 index.
Proof. intros [] Hs%entry_at_Some. unfold int64. lia. Qed.

Lemma getEntry_here rl index :
  log_pos rl → rl_firstIndex rl ≤ index < rl_firstIndex rl + cache_len rl →
  getEntryLocked rl index = rl_cache rl !! Z.to_nat (index - rl_firstIndex rl).
Proof.
  intros Hp Hi. rewrite getEntryLocked_spec; [|done|by apply entry_at_int64 with rl, entry_at_Some].
  unfold entry_at. by rewrite decide_True by lia.
Qed.

Lemma getEntry_out rl index :
  log_pos rl → int64 index →
  ¬ (rl_firstIndex rl ≤ index < rl_firstIndex rl + cache_len rl) →
  getEntryLocked rl index = None.
Proof.
  intros Hp Hi Hn. rewrite getEntryLocked_spec by done.
  apply eq_None_not_Some. by rewrite entry_at_Some.
Qed.

Lemma lastIndexLocked_spec rl :
  log_pos rl → lastIndexLocked rl = rl_firstIndex rl + cache_len rl - 1.
Proof.
  intros [Hf Hc _ _]. unfold lastIndexLocked, cache_len.
  destruct (last (rl_cache rl)) as [e|] eqn:Hl.
  - by eapply contiguous_last.
  - apply last_None in Hl. rewrite Hl. simpl. lia.
Qed.

(** ** Operations that only touch the disk *)

Section Ops.
Context `{Codec LogEntry}.

(** A computation that, whatever its result, leaves the logical log alone. *)
Definition disk_only {A} (m : M RaftLog A) : Prop :=
  ∀ rl r rl', m rl = (r, rl') → logical rl' = logical rl.

Lemma on_disk_only {A} (m : io A) : disk_only (on_disk m).
Proof.
  intros rl r rl'. unfold on_disk. destruct (m (rl_disk rl)) as [r0 os].
  by intros [= <- <-].
Qed.

Lemma on_wal_only m : disk_only (on_wal m).
Proof.
  intros rl r rl'. unfold on_wal. destruct (rl_walOpen rl).
  - apply on_disk_only.
  - by intros [= <- <-].
Qed.

Lemma close_wal_only : disk_only close_wal.
Proof.
  intros rl r rl'. unfold close_wal. destruct (on_wal file_Close rl) as [r0 rl0] eqn:Ho.
  apply on_wal_only in Ho. by intros [= <- <-].
Qed.

Lemma disk_only_bind {A B} (m : M RaftLog A) (k : A → M RaftLog B) :
  disk_only m → (∀ a, disk_only (k a)) → disk_only (m_bind m k).
Proof.
  intros Hm Hk rl r rl' [(a & rl1 & H1 & H2)|(e & H1 & _)]%m_bind_inv.
  - rewrite (Hk a _ _ _ H2). by eapply Hm.
  - by eapply Hm.
Qed.

Lemma disk_only_wrap {A} msg (m : M RaftLog A) : disk_only m → disk_only (m_wrap msg m).
Proof. intros Hm rl r rl' (r0 & H1 & _)%m_wrap_inv. by eapply Hm. Qed.

Lemma disk_only_get : disk_only m_get.
Proof. by intros rl r rl' [= _ <-]. Qed.

Lemma set_walFile_only f b : disk_only (m_modify (set_walFile f b)).
Proof. by intros rl r rl' [= _ <-]. Qed.

#[local] Hint Resolve on_disk_only on_wal_only close_wal_only disk_only_get set_walFile_only : crystal.
#[local] Hint Extern 2 (disk_only (m_wrap _ _)) => apply disk_only_wrap : crystal.
#[local] Hint Extern 2 (disk_only (m_bind _ _)) => apply disk_only_bind; intros : crystal.

Lemma rewriteWALLocked_only : disk_only rewriteWALLocked.
Proof. unfold rewriteWALLocked. auto 20 with crystal. Qed.

Lemma writeEntryToDisk_only e : disk_only (writeEntryToDisk e).
Proof. unfold writeEntryToDisk. auto with crystal. Qed.

(** ** AppendLeader *)

Lemma AppendLeader_spec (rl : RaftLog) (cmd : bytes) (term : Z) :
  log_wf rl → rl_nextIndex rl < MaxInt64 →
  match AppendLeader cmd term rl with
  | (Err _, rl') => logical rl' = logical rl
  | (Ok e, rl') =>
      e = mkLogEntry (rl_nextIndex rl) term cmd ∧
      rl_cache rl' = rl_cache rl ++ [e] ∧
      rl_firstIndex rl' = rl_firstIndex rl ∧
      rl_lastIncludedTerm rl' = rl_lastIncludedTerm rl ∧
      LastLogState rl' = (rl_nextIndex rl, term) ∧ log_wf rl'
  end.
Proof.
  intros [[Hf Hc Hlo Hhi] Hn] Hmax. unfold AppendLeader.
  set (e := mkLogEntry (rl_nextIndex rl) term cmd).
  unfold m_bind, m_get, m_modify, m_ret. cbv beta iota. fold e.
  destruct (writeEntryToDisk e rl) as [[[]|x] rl1] eqn:Hw.
  all: apply writeEntryToDisk_only in Hw; unfold logical in Hw.
  2: exact Hw.
  injection Hw as Hc1 Hn1 Hf1 Hl1 Ht1 Hk1 Hp1.
  assert (0 ≤ cache_len rl) by (unfold cache_len; lia).
  assert (contiguous (rl_firstIndex rl) (rl_cache rl ++ [e])) as Happ.
  { apply contiguous_app. split; [done|]. apply contiguous_cons.
    split; [simpl; unfold cache_len in *; lia|apply contiguous_nil]. }
  split; [done|]. unfold log_wf, LastLogState, cache_len in *. simpl.
  rewrite Hc1, Hn1, Hf1, Ht1. split; [done|]. split; [done|]. split; [done|].
  split; [by rewrite last_snoc|].
  wrapless. rewrite length_app. simpl. split; [|lia].
  split; simpl; rewrite ?Hc1, ?Hf1, ?Hl1; unfold cache_len; simpl;
    rewrite ?Hc1, ?length_app; simpl; done || lia.
Qed.

(** a leader's append either fails and leaves the logical log untouched, or
    returns the entry at the next index in the given term and extends the log by
    exactly that entry, preserving the invariant. *)
Theorem AppendLeader_correct (rl : RaftLog) (cmd : bytes) (term : Z) :
  log_wf rl → rl_nextIndex rl < MaxInt64 →
  match AppendLeader cmd term rl with
  | (Err _, rl') => logical rl' = logical rl
  | (Ok e, rl') =>
      e = mkLogEntry (rl_nextIndex rl) term cmd ∧
      rl_cache rl' = rl_cache rl ++ [e] ∧
      rl_firstIndex rl' = rl_firstIndex rl ∧
      rl_lastIncludedTerm rl' = rl_lastIncludedTerm rl ∧
      LastLogState rl' = (rl_nextIndex rl, term) ∧ log_wf rl'
  end.
Proof. apply AppendLeader_spec. Qed.

(** ** The follower's splice *)

(** Figure 2, steps 3 and 4, on the suffix of the log after the agreed prefix:
    matching entries are kept, the first conflict replaces everything after. *)
Fixpoint merge (log entries : list LogEntry) : list LogEntry :=
  match log, entries with
  | log, [] => log
  | [], entries => entries
  | x :: log, e :: entries =>
      if le_Term x =? le_Term e then x :: merge log entries else e :: entries
  end.

Lemma merge_nil_l es : merge [] es = es.
Proof. by destruct es. Qed.

Lemma merge_contiguous f log es :
  contiguous f log → contiguous f es → contiguous f (merge log es).
Proof.
  revert f es. induction log as [|x log IH]; intros f es Hl He; [by rewrite merge_nil_l|].
  destruct es as [|e es]; [done|]. simpl.
  destruct (le_Term x =? le_Term e); [|done].
  apply contiguous_cons in Hl as [? ?], He as [? ?]. apply contiguous_cons. auto.
Qed.

Lemma length_merge log es :
  (length es ≤ length (merge log es) ≤ length log + length es)%nat.
Proof.
  revert es. induction log as [|x log IH]; intros es; [rewrite merge_nil_l; simpl; lia|].
  destruct es as [|e es]; simpl; [lia|].
  destruct (le_Term x =? le_Term e); simpl; [specialize (IH es); lia|lia].
Qed.

(** What an operation of the follower's append keeps: the boundary and the path. *)
Definition same_base (rl rl' : RaftLog) : Prop :=
  rl_firstIndex rl' = rl_firstIndex rl ∧ rl_lastIncludedIndex rl' = rl_lastIncludedIndex rl ∧
  rl_lastIncludedTerm rl' = rl_lastIncludedTerm rl ∧
  rl_compactionThreshold rl' = rl_compactionThreshold rl ∧ rl_walPath rl' = rl_walPath rl.

#[export] Instance same_base_preorder : PreOrder same_base.
Proof. split; unfold same_base; [by intros ?|]. intros x y z. naive_solver congruence. Qed.

Lemma logical_same_base rl rl' : logical rl' = logical rl → same_base rl rl'.
Proof. unfold logical, same_base. intros [=]. done. Qed.

Lemma log_pos_set_cache rl rl' c :
  log_pos rl → same_base rl rl' → rl_cache rl' = c →
  contiguous (rl_firstIndex rl) c →
  rl_firstIndex rl + Z.of_nat (length c) ≤ MaxInt64 →
  log_pos rl'.
Proof.
  intros [] (Hf & Hl & _) <- ? ?. split; unfold cache_len; rewrite ?Hf, ?Hl; done.
Qed.

Lemma splice_append_spec rl e r rl' :
  log_pos rl → le_Index e < MaxInt64 →
  splice_append e rl = (r, rl') →
  same_base rl rl' ∧ log_pos rl' ∧
  match r with
  | Ok _ => rl_cache rl' = rl_cache rl ++ [e] ∧ log_wf rl'
  | Err _ => rl_cache rl' = rl_cache rl ∧ rl_nextIndex rl' = rl_nextIndex rl
  end.
Proof.
  intros Hp Hmax. unfold splice_append. unfold m_bind at 1, m_get. cbv beta iota.
  pose proof Hp as [Hf Hc Hlo Hhi].
  assert (0 ≤ cache_len rl) by (unfold cache_len; lia).
  wrapless.
  destruct (Z.eqb_spec (le_Index e) (rl_firstIndex rl + cache_len rl)) as [He|]; simpl.
  2: { intros [= <- <-]. done. }
  intros [([] & rl1 & H1 & H2)|(x & H1 & ->)]%m_bind_inv.
  all: apply on_wal_only in H1; pose proof (logical_same_base _ _ H1) as Hb.
  2: { split; [done|]. split; [by eapply logical_pos|]. unfold logical in H1. by injection H1. }
  injection H2 as <- <-. unfold logical in H1. injection H1 as Hc1 Hn1 Hf1 Hl1 Ht1 Hk1 Hp1.
  split; [by destruct Hb as (? & ? & ? & ? & ?)|].
  assert (log_pos (set_nextIndex (le_Index e +! 1) (set_cache (rl_cache rl1 ++ [e]) rl1))) as Hpos.
  { apply (log_pos_set_cache rl _ (rl_cache rl ++ [e])).
    - done.
    - by destruct Hb as (? & ? & ? & ? & ?).
    - simpl. by rewrite Hc1.
    - apply contiguous_app. split; [done|]. apply contiguous_cons.
      split; [done|apply contiguous_nil].
    - rewrite length_app. simpl. unfold cache_len in *. lia. }
  split; [done|]. split; [by simpl; rewrite Hc1|]. split; [done|].
  simpl. wrapless. unfold cache_len in *. simpl. rewrite Hc1, Hf1, length_app. simpl. lia.
Qed.

(** The conflict case: cut the cache, rewrite the WAL, append. *)
Lemma splice_conflict_spec rl e k r rl' :
  log_pos rl → le_Index e < MaxInt64 →
  (m_modify (set_cache (take k (rl_cache rl))) ;;; rewriteWALLocked ;;; splice_append e) rl = (r, rl') →
  same_base rl rl' ∧ log_pos rl' ∧
  match r with
  | Ok _ => rl_cache rl' = take k (rl_cache rl) ++ [e] ∧ log_wf rl'
  | Err _ => rl_cache rl' = take k (rl_cache rl)
  end.
Proof.
  intros Hp Hmax.
  set (rl0 := set_cache (take k (rl_cache rl)) rl).
  assert (same_base rl rl0) as Hb0 by done.
  assert (log_pos rl0) as Hp0.
  { apply (log_pos_set_cache rl _ (take k (rl_cache rl))); try done.
    - apply contiguous_take, Hp.
    - pose proof (lp_high _ Hp). rewrite length_take. unfold cache_len in *. lia. }
  unfold m_bind at 1. simpl. fold rl0.
  intros [([] & rl1 & H1 & H2)|(x & H1 & ->)]%m_bind_inv;
    apply rewriteWALLocked_only in H1; pose proof (logical_same_base _ _ H1) as Hb1;
    assert (log_pos rl1) as Hp1 || assert (log_pos rl') as Hp1; try by eapply logical_pos.
  - apply splice_append_spec in H2 as (Hb2 & Hp2 & H2); [|done|done].
    split; [by rewrite Hb0, Hb1|]. split; [done|].
    assert (rl_cache rl1 = take k (rl_cache rl)) as Hc1 by (by injection H1).
    rewrite Hc1 in H2. destruct r; [done|by destruct H2].
  - split; [by rewrite Hb0|]. split; [done|]. by injection H1.
Qed.

Lemma splice_inv k rl es n r rl' :
  log_pos rl → contiguous (rl_firstIndex rl + Z.of_nat k) es →
  (k ≤ length (rl_cache rl))%nat →
  rl_firstIndex rl + Z.of_nat k + Z.of_nat (length es) ≤ MaxInt64 →
  splice es n rl = (r, rl') →
  same_base rl rl' ∧ log_pos rl' ∧
  match r with
  | Ok _ => rl_cache rl' = take k (rl_cache rl) ++ merge (drop k (rl_cache rl)) es ∧
            (log_wf rl → log_wf rl')
  | Err _ => True
  end.
Proof.
  revert k rl n r rl'. induction es as [|e es IH]; intros k rl n r rl' Hp Hc Hk Hmax.
  { intros [= <- <-]. split; [done|]. split; [done|].
    replace (merge _ []) with (drop k (rl_cache rl)) by (by destruct (drop k (rl_cache rl))).
    by rewrite take_drop. }
  apply contiguous_cons in Hc as [He Hc]. simpl length in Hmax.
  simpl splice. unfold m_bind at 1, m_get. cbv beta iota.
  assert (le_Index e < MaxInt64) as Hem by lia.
  replace (rl_firstIndex rl + Z.of_nat k + 1) with (rl_firstIndex rl + Z.of_nat (S k)) in Hc by lia.
  destruct (decide (k = length (rl_cache rl))) as [->|Hne].
  - rewrite getEntry_out; [|done|pose proof (lp_low _ Hp); pose proof (lp_first _ Hp); unfold int64; lia
                            |unfold cache_len; lia].
    intros [([] & rl1 & H1 & H2)|(x & H1 & ->)]%m_bind_inv;
      apply splice_append_spec in H1 as (Hb1 & Hp1 & H1); try done.
    destruct H1 as [Hc1 Hw1]. pose proof Hb1 as (Hf1 & _).
    apply (IH (S (length (rl_cache rl)))) in H2 as (Hb2 & Hp2 & H2); try done.
    + split; [by rewrite Hb1|]. split; [done|]. destruct r; [|done]. destruct H2 as [H2 Hw].
      split; [|by auto]. rewrite H2, Hc1, firstn_all, drop_all, !merge_nil_l.
      rewrite take_ge, drop_ge, merge_nil_l by (rewrite length_app; simpl; lia).
      by rewrite <-app_assoc.
    + by rewrite Hf1.
    + rewrite Hc1, length_app. simpl. lia.
    + rewrite Hf1. lia.
  - destruct (lookup_lt_is_Some_2 (rl_cache rl) k) as [x Hx]; [lia|].
    assert (Z.to_nat (le_Index e - rl_firstIndex rl) = k) as Hidx by lia.
    rewrite getEntry_here, Hidx, Hx; [|done|unfold cache_len; lia].
    rewrite (drop_S _ _ _ Hx). simpl merge.
    destruct (le_Term x =? le_Term e).
    + intros Hs. apply (IH (S k)) in Hs as (Hb & Hp' & Hr); try done; try lia.
      split; [done|]. split; [done|]. destruct r; [|done]. destruct Hr as [Hr Hw].
      split; [|done]. rewrite Hr, (take_S_r _ _ _ Hx), <-app_assoc. done.
    + pose proof Hp as [Hf _ Hlo Hhi]. unfold cache_len in Hhi. wrapless. rewrite Hidx.
      intros [([] & rl1 & H1 & H2)|(y & H1 & ->)]%m_bind_assoc3_inv;
        apply splice_conflict_spec in H1 as (Hb1 & Hp1 & H1); try done; try lia.
      destruct H1 as [Hc1 Hw1]. pose proof Hb1 as (Hf1 & _).
      assert (length (rl_cache rl1) = S k) as Hl1.
      { rewrite Hc1, length_app, length_take_le by lia. simpl. lia. }
      apply (IH (S k)) in H2 as (Hb2 & Hp2 & H2); try (done || lia || by rewrite Hf1; (done || lia)).
      split; [by rewrite Hb1|]. split; [done|]. destruct r; [|done]. destruct H2 as [H2 Hw].
      split; [|by auto]. rewrite H2, take_ge, drop_ge, merge_nil_l, Hc1 by lia.
      by rewrite <-app_assoc.
Qed.

(** ** AppendEntriesToLog *)

Lemma TermAt_eq rl i :
  TermAt rl i = (if i =? rl_lastIncludedIndex rl then rl_lastIncludedTerm rl else getEntryTerm rl i).
Proof. reflexivity. Qed.

(** The log-matching test of step 2: the leader sends from the start of the log, or
    the entry before the batch is present in the stated term. *)
Definition prev_matches (rl : RaftLog) (prevLogIndex prevLogTerm : Z) : bool :=
  (prevLogIndex <=? 0) ||
  ((prevLogIndex <=? lastIndexLocked rl) && (TermAt rl prevLogIndex =? prevLogTerm)).

Definition splice_and_sync (entries : list LogEntry) : M RaftLog unit :=
  appended <-- splice entries 0 ;;
  if 0 <? appended then on_wal file_Sync else m_ret tt.

Lemma AppendEntriesToLog_matched rl p t es :
  prev_matches rl p t = true →
  AppendEntriesToLog p t es rl =
  match splice_and_sync es rl with
  | (Err _, rl') => ((0, 0, 0, false), rl')
  | (Ok _, rl') => ((match last es with None => p | Some e => le_Index e end, 0, 0, true), rl')
  end.
Proof.
  unfold prev_matches, AppendEntriesToLog. rewrite TermAt_eq.
  destruct (Z.ltb_spec 0 p), (Z.leb_spec p 0); try (exfalso; lia); simpl; [|done].
  destruct (Z.ltb_spec (lastIndexLocked rl) p), (Z.leb_spec p (lastIndexLocked rl)); try (exfalso; lia); simpl; [done|].
  by intros ->.
Qed.

(** A batch with nothing in it changes nothing. *)
Lemma AppendEntriesToLog_empty rl p t m ct ci rl' :
  AppendEntriesToLog p t [] rl = ((m, ct, ci, true), rl') → m = p ∧ rl' = rl.
Proof.
  unfold AppendEntriesToLog. simpl. destruct (0 <? p); [|by intros [= <- _ _ <-]].
  destruct (_ <? _); [done|]. destruct (negb _); [done|]. by intros [= <- _ _ <-].
Qed.

Lemma AppendEntriesToLog_unmatched rl p t es :
  prev_matches rl p t = false →
  ∃ ct ci, AppendEntriesToLog p t es rl = ((0, ct, ci, false), rl).
Proof.
  unfold prev_matches, AppendEntriesToLog. rewrite TermAt_eq.
  destruct (Z.ltb_spec 0 p), (Z.leb_spec p 0); try (exfalso; lia); simpl; [|done].
  destruct (Z.ltb_spec (lastIndexLocked rl) p), (Z.leb_spec p (lastIndexLocked rl)); try (exfalso; lia); simpl; [eauto|].
  intros ->. simpl. eauto.
Qed.

Lemma splice_and_sync_only rl es r rl' :
  splice_and_sync es rl = (r, rl') →
  ∃ r1 rl1, splice es 0 rl = (r1, rl1) ∧ logical rl' = logical rl1 ∧
    (r = Ok tt → ∃ n, r1 = Ok n).
Proof.
  unfold splice_and_sync. intros [(n & rl1 & H1 & H2)|(e & H1 & ->)]%m_bind_inv;
    [|by exists (Err e), rl'].
  exists (Ok n), rl1. split; [done|]. split; [|by eauto].
  destruct (0 <? n); [by apply on_wal_only in H2|by injection H2 as _ <-].
Qed.

Lemma AppendEntriesToLog_spec (rl : RaftLog) (prevLogIndex prevLogTerm : Z)
    (entries : list LogEntry) :
  log_wf rl →
  rl_lastIncludedIndex rl ≤ prevLogIndex →
  contiguous (prevLogIndex + 1) entries →
  prevLogIndex + 1 + Z.of_nat (length entries) ≤ MaxInt64 →
  let k := Z.to_nat (prevLogIndex - rl_lastIncludedIndex rl) in
  match AppendEntriesToLog prevLogIndex prevLogTerm entries rl with
  | ((m, _, _, true), rl') =>
      prev_matches rl prevLogIndex prevLogTerm = true ∧
      m = prevLogIndex + Z.of_nat (length entries) ∧
      rl_cache rl' = take k (rl_cache rl) ++ merge (drop k (rl_cache rl)) entries ∧
      log_wf rl' ∧ same_base rl rl'
  | ((_, _, _, false), rl') => log_pos rl' ∧ same_base rl rl'
  end.
Proof.
  intros Hwf Hlow Hc Hmax k. destruct (prev_matches rl prevLogIndex prevLogTerm) eqn:Hm.
  2: { destruct (AppendEntriesToLog_unmatched rl _ _ entries Hm) as (ct & ci & ->).
       split; [apply Hwf|done]. }
  rewrite AppendEntriesToLog_matched by done.
  pose proof Hwf as [Hp _]. pose proof (lp_first _ Hp) as Hf. pose proof (lp_low _ Hp) as Hlo.
  assert (k ≤ length (rl_cache rl))%nat as Hk.
  { unfold prev_matches in Hm. rewrite lastIndexLocked_spec in Hm by done.
    unfold cache_len in Hm. apply orb_true_iff in Hm as [?%Z.leb_le|[?%Z.leb_le _]%andb_true_iff]; lia. }
  destruct (splice_and_sync entries rl) as [r rl'] eqn:Hs.
  apply splice_and_sync_only in Hs as (r1 & rl1 & Hs & Hl & Hr).
  assert (rl_firstIndex rl + Z.of_nat k = prevLogIndex + 1) as Hpk by lia.
  apply (splice_inv k) in Hs as (Hb & Hp1 & Hs); try (done || by rewrite Hpk).
  pose proof (logical_same_base _ _ Hl) as Hb'.
  destruct r as [[]|].
  2: { split; [by eapply logical_pos|by rewrite Hb]. }
  destruct (Hr eq_refl) as [n ->]. destruct Hs as [Hs Hw].
  split; [done|]. split.
  { destruct (last entries) as [e|] eqn:Hlast.
    - rewrite (contiguous_last _ _ _ Hc Hlast). lia.
    - apply last_None in Hlast as ->. simpl. lia. }
  split; [|split; [eapply logical_wf; [done|by apply Hw]|by rewrite Hb]].
  rewrite <-Hs. by injection Hl.
Qed.

(** C25: the follower's append refines Figure 2.  For a batch that starts right after
    [prevLogIndex], at or above the compaction boundary, success means the log
    held the preceding entry in the leader's term, that the new log is the agreed
    prefix followed by [merge] of the old suffix with the batch, and that the
    reported match index is the last index of the batch; the invariant and the
    boundary are preserved. *)
Theorem AppendEntriesToLog_refines (rl : RaftLog) (prevLogIndex prevLogTerm : Z)
    (entries : list LogEntry) :
  log_wf rl →
  rl_lastIncludedIndex rl ≤ prevLogIndex →
  contiguous (prevLogIndex + 1) entries →
  prevLogIndex + 1 + Z.of_nat (length entries) ≤ MaxInt64 →
  let k := Z.to_nat (prevLogIndex - rl_lastIncludedIndex rl) in
  match AppendEntriesToLog prevLogIndex prevLogTerm entries rl with
  | ((m, _, _, true), rl') =>
      prev_matches rl prevLogIndex prevLogTerm = true ∧
      m = prevLogIndex + Z.of_nat (length entries) ∧
      rl_cache rl' = take k (rl_cache rl) ++ merge (drop k (rl_cache rl)) entries ∧
      log_wf rl' ∧ same_base rl rl'
  | ((_, _, _, false), rl') => log_pos rl' ∧ same_base rl rl'
  end.
Proof. apply AppendEntriesToLog_spec. Qed.

(** no request, however malformed, breaks the correspondence of position and
    index: for any batch of in-range entries the positional invariant and the
    boundary survive, on success and on every failure. *)
Theorem AppendEntriesToLog_positional (rl : RaftLog) (prevLogIndex prevLogTerm : Z)
    (entries : list LogEntry) :
  log_pos rl →
  Forall (λ e, MinInt64 ≤ le_Index e < MaxInt64) entries →
  log_pos (AppendEntriesToLog prevLogIndex prevLogTerm entries rl).2 ∧
  same_base rl (AppendEntriesToLog prevLogIndex prevLogTerm entries rl).2.
Proof.
  intros Hp Hes. destruct (prev_matches rl prevLogIndex prevLogTerm) eqn:Hm.
  2: { by destruct (AppendEntriesToLog_unmatched rl _ _ entries Hm) as (ct & ci & ->). }
  rewrite AppendEntriesToLog_matched by done.
  destruct (splice_and_sync entries rl) as [r rl'] eqn:Hs.
  apply splice_and_sync_only in Hs as (r1 & rl1 & Hs & Hl & _).
  assert (log_pos rl1 ∧ same_base rl rl1) as [Hp1 Hb1].
  { clear rl' r Hl Hm. revert rl r1 rl1 Hp Hs. generalize 0 at 1.
    induction Hes as [|e es [Hlow Hhigh] Hes IH]; intros n rl r1 rl1 Hp; simpl; [by intros [= <- <-]|].
    assert (∀ n1 rl0 r1 rl1, log_pos rl0 → same_base rl rl0 →
              (splice_append e ;;; splice es n1) rl0 = (r1, rl1) → log_pos rl1 ∧ same_base rl rl1) as Happ.
    { intros n1 rl0 r2 rl2 Hp0 Hb0 [([] & rl3 & H1 & H2)|(x & H1 & ->)]%m_bind_inv;
        apply splice_append_spec in H1 as (Hb & Hp' & _); try (done || lia).
      - apply IH in H2 as [? Hb2]; [|done]. split; [done|]. by rewrite Hb0, Hb.
      - split; [done|]. by rewrite Hb0. }
    unfold m_bind at 1, m_get. cbv beta iota.
    destruct (getEntryLocked rl (le_Index e)) as [x|] eqn:Hget; [|by apply Happ].
    destruct (le_Term x =? le_Term e); [by apply IH|].
    intros [([] & rl3 & H1 & H2)|(y & H1 & ->)]%m_bind_assoc3_inv;
      apply splice_conflict_spec in H1 as (Hb & Hp' & _); try (done || lia).
    apply IH in H2 as [? Hb2]; [|done]. split; [done|]. by rewrite Hb. }
  assert (log_pos rl' ∧ same_base rl rl') as Hgoal.
  { split; [by eapply logical_pos|]. rewrite Hb1. by apply logical_same_base. }
  by destruct r.
Qed.

(** ** The conflict hint *)

(** The walk stops at [firstIndex] or just above an entry of another term, and
    everything it passed has the conflicting term. *)
Lemma conflict_walk_spec rl ct fuel ci :
  log_pos rl →
  rl_firstIndex rl ≤ ci < rl_firstIndex rl + cache_len rl →
  Z.of_nat fuel = ci - rl_firstIndex rl →
  let r := conflict_walk fuel rl ct ci in
  rl_firstIndex rl ≤ r ≤ ci ∧
  (∀ i, r ≤ i < ci → getEntryTerm rl i = ct) ∧
  (rl_firstIndex rl < r → getEntryTerm rl (r - 1) ≠ ct).
Proof.
  intros Hp. pose proof (lp_low _ Hp). pose proof (lp_first _ Hp). pose proof (lp_high _ Hp).
  revert ci. induction fuel as [|fuel IH]; intros ci Hci Hfuel; simpl.
  { split; [lia|]. split; lia. }
  destruct (Z.ltb_spec (rl_firstIndex rl) ci); [|lia].
  rewrite (i64_id (ci - 1)) by (unfold int64; lia).
  destruct (Z.eqb_spec (getEntryTerm rl (ci - 1)) ct) as [Heq|Hne]; simpl.
  - destruct (IH (ci - 1)) as (Hr & Hall & Hstop); [lia|lia|].
    split; [lia|]. split; [|done]. intros i Hi.
    destruct (decide (i = ci - 1)) as [->|]; [done|]. apply Hall. lia.
  - split; [lia|]. split; [lia|done].
Qed.

(** C26: the consistency check and its hint, above the follower's compaction boundary.
    A request whose preceding entry the follower does not hold in that term changes
    nothing, and the hint makes progress: when the log is too short it is the index
    after its end; on a term conflict it names a run of entries, all of the reported
    term, that ends at [prevLogIndex] and cannot be extended downwards, so the leader
    skips the whole term in one step and never past the boundary.  A request that
    passes the check and is refused all the same, because its batch does not continue
    the log or the disk fails, may have changed the log, and gets no hint.  (Below
    the boundary the hint does not skip the run: [AppendEntriesToLog_below_boundary].) *)
Theorem AppendEntriesToLog_hint (rl : RaftLog) (prevLogIndex prevLogTerm : Z)
    (entries : list LogEntry) :
  log_wf rl →
  rl_lastIncludedIndex rl < prevLogIndex →
  let last := rl_firstIndex rl + cache_len rl - 1 in
  (prev_matches rl prevLogIndex prevLogTerm = false →
   ∃ ct ci, AppendEntriesToLog prevLogIndex prevLogTerm entries rl = ((0, ct, ci, false), rl) ∧
    (last < prevLogIndex → ct = 0 ∧ ci = last + 1) ∧
    (prevLogIndex ≤ last →
      ct = TermAt rl prevLogIndex ∧ ct ≠ prevLogTerm ∧
      rl_firstIndex rl ≤ ci ≤ prevLogIndex ∧
      (∀ i, ci ≤ i ≤ prevLogIndex → TermAt rl i = ct) ∧
      (rl_firstIndex rl < ci → TermAt rl (ci - 1) ≠ ct))) ∧
  (prev_matches rl prevLogIndex prevLogTerm = true →
   ∀ mi ct ci rl', AppendEntriesToLog prevLogIndex prevLogTerm entries rl = ((mi, ct, ci, false), rl') →
    mi = 0 ∧ ct = 0 ∧ ci = 0).
Proof.
  intros Hwf Hlow last. split.
  2:{ intros Hm mi ct ci rl'. rewrite AppendEntriesToLog_matched by done. by destruct (splice_and_sync _ _) as [[u|] rl1]; intros [=]. }
  intros Hm. pose proof Hwf as [Hp _].
  pose proof (lp_low _ Hp). pose proof (lp_first _ Hp). pose proof (lp_high _ Hp) as Hhi.
  assert (∀ i, rl_lastIncludedIndex rl < i → TermAt rl i = getEntryTerm rl i) as HT.
  { intros i Hi. rewrite TermAt_eq. destruct (Z.eqb_spec i (rl_lastIncludedIndex rl)); [lia|done]. }
  unfold prev_matches in Hm. unfold AppendEntriesToLog. rewrite lastIndexLocked_spec in * by done.
  fold last in Hm |- *.
  destruct (Z.ltb_spec 0 prevLogIndex), (Z.leb_spec prevLogIndex 0); try (exfalso; lia). simpl in Hm.
  rewrite TermAt_eq in Hm.
  destruct (Z.ltb_spec last prevLogIndex), (Z.leb_spec prevLogIndex last); try (exfalso; lia); simpl in Hm.
  - assert (int64 (last + 1)) by (unfold int64, cache_len in *; lia). wrapless.
    exists 0, (last + 1). split; [done|]. split; [by intros _|]. lia.
  - rewrite Hm. simpl. eexists _, _. split; [done|]. split; [lia|]. intros _.
    rewrite <-TermAt_eq. apply Z.eqb_neq in Hm. rewrite TermAt_eq in *.
    destruct (Z.eqb_spec prevLogIndex (rl_lastIncludedIndex rl)); [lia|].
    destruct (conflict_walk_spec rl (getEntryTerm rl prevLogIndex)
      (Z.to_nat (prevLogIndex - rl_firstIndex rl)) prevLogIndex Hp) as (Hr & Hall & Hstop); try lia.
    split; [done|]. split; [done|]. split; [lia|]. split.
    + intros i Hi. rewrite HT by lia.
      destruct (decide (i = prevLogIndex)) as [->|]; [done|]. apply Hall. lia.
    + intros Hlt. rewrite HT by lia. auto.
Qed.

(** ** Compaction *)

Lemma TruncateBeforeIndex_spec (rl rl' : RaftLog) (S T : Z) (r : result unit) :
  log_wf rl → rl_firstIndex rl ≤ S ≤ lastIndexLocked rl →
  TruncateBeforeIndex S T rl = (r, rl') →
  log_wf rl' ∧ rl_lastIncludedIndex rl' = S ∧ TermAt rl' S = T ∧
  lastIndexLocked rl' = lastIndexLocked rl ∧
  (∀ i, S < i → entry_at rl' i = entry_at rl i) ∧
  (∀ i, i ≤ S → entry_at rl' i = None).
Proof.
  intros [Hp Hn] HS. pose proof Hp as [Hf Hc Hlo Hhi].
  rewrite lastIndexLocked_spec in HS by done.
  unfold TruncateBeforeIndex. unfold m_bind at 1, m_get. cbv beta iota.
  destruct (Z.ltb_spec S (rl_firstIndex rl)); [lia|].
  unfold m_bind at 1, m_modify. cbv beta iota. intros Hr%rewriteWALLocked_only.
  rewrite (filter_above (rl_firstIndex rl)) in Hr by done.
  set (k := Z.to_nat (S + 1 - rl_firstIndex rl)) in Hr.
  unfold logical in Hr. simpl in Hr. rewrite (i64_id (S + 1)) in Hr by (unfold int64, cache_len in *; lia).
  injection Hr as Hc1 Hn1 Hf1 Hl1 Ht1 Hk1 Hp1.
  assert (cache_len rl' = cache_len rl - Z.of_nat k) as Hlen.
  { unfold cache_len in *. rewrite Hc1, length_drop. lia. }
  assert (log_pos rl') as Hpos.
  { split; rewrite ?Hf1, ?Hl1, ?Hc1, ?Hlen; try lia.
    replace (S + 1) with (rl_firstIndex rl + Z.of_nat k) by lia.
    apply contiguous_drop; [unfold cache_len in *; lia|done]. }
  split; [split; [done|lia]|]. split; [done|].
  split; [by rewrite TermAt_eq, Hl1, Z.eqb_refl|].
  split; [rewrite !lastIndexLocked_spec by done; lia|].
  split; intros i Hi; unfold entry_at; rewrite Hf1.
  - rewrite !decide_True by lia. rewrite Hc1, lookup_drop. f_equal. lia.
  - by rewrite decide_False by lia.
Qed.

(** compaction forgets exactly the entries up to the snapshot.  For a boundary
    inside the log, whatever the disk does, the entries above it keep their
    indices, the boundary's term is still answered, and the invariant holds. *)
Theorem TruncateBeforeIndex_correct (rl rl' : RaftLog) (S T : Z) (r : result unit) :
  log_wf rl → rl_firstIndex rl ≤ S ≤ lastIndexLocked rl →
  TruncateBeforeIndex S T rl = (r, rl') →
  log_wf rl' ∧ rl_lastIncludedIndex rl' = S ∧ TermAt rl' S = T ∧
  lastIndexLocked rl' = lastIndexLocked rl ∧
  (∀ i, S < i → entry_at rl' i = entry_at rl i) ∧
  (∀ i, i ≤ S → entry_at rl' i = None).
Proof. apply TruncateBeforeIndex_spec. Qed.

(** ** Installing and restoring snapshots *)

(** Does the log already hold the snapshot's last entry, in its term? *)
Definition holds_at (rl : RaftLog) (S T : Z) : Prop :=
  ∃ e, entry_at rl S = Some e ∧ le_Term e = T.

(** What [ResetToSnapshot] leaves in memory, whatever the disk does. *)
Definition reset_cache (rl : RaftLog) (S T : Z) : list LogEntry :=
  match entry_at rl S with
  | Some e => if le_Term e =? T then filter (λ e, S < le_Index e) (rl_cache rl) else []
  | None => []
  end.

Lemma ResetToSnapshot_logical rl S T r rl' :
  log_pos rl → rl_lastIncludedIndex rl < S < MaxInt64 →
  ResetToSnapshot S T rl = (r, rl') →
  rl_cache rl' = reset_cache rl S T ∧ rl_firstIndex rl' = S + 1 ∧
  rl_lastIncludedIndex rl' = S ∧ rl_lastIncludedTerm rl' = T ∧
  rl_nextIndex rl' = match last (reset_cache rl S T) with
                     | Some e => le_Index e +! 1
                     | None => Z.max (rl_nextIndex rl) (S + 1)
                     end.
Proof.
  intros Hp HS. pose proof (lp_low _ Hp).
  unfold ResetToSnapshot. unfold m_bind at 1, m_get. cbv beta iota.
  destruct (Z.leb_spec S (rl_lastIncludedIndex rl)); [lia|].
  rewrite getEntryLocked_spec by (done || unfold int64; lia). fold (reset_cache rl S T).
  unfold m_bind, m_modify. cbv beta iota. intros Hr%rewriteWALLocked_only.
  unfold logical in Hr. revert Hr. simpl. rewrite (i64_id (S + 1)) by (unfold int64; lia).
  destruct (Z.ltb_spec (rl_nextIndex rl) (S + 1)); simpl;
    destruct (last (reset_cache rl S T)); simpl; rewrite ?(i64_id (S + 1)) by (unfold int64; lia);
    intros [= -> -> -> -> -> _ _]; naive_solver lia.
Qed.

Lemma holds_at_reset rl S T :
  log_pos rl → holds_at rl S T →
  reset_cache rl S T = drop (Z.to_nat (S + 1 - rl_firstIndex rl)) (rl_cache rl) ∧
  rl_firstIndex rl ≤ S < rl_firstIndex rl + cache_len rl.
Proof.
  intros Hp (e & He & HT). assert (is_Some (entry_at rl S)) as Hin by eauto.
  apply entry_at_Some in Hin. split; [|done].
  unfold reset_cache. rewrite He, HT, Z.eqb_refl. by apply filter_above, Hp.
Qed.

Lemma ResetToSnapshot_spec (rl rl' : RaftLog) (S T : Z) (r : result unit) :
  log_wf rl → rl_lastIncludedIndex rl < S < MaxInt64 →
  ResetToSnapshot S T rl = (r, rl') →
  log_pos rl' ∧ rl_lastIncludedIndex rl' = S ∧ TermAt rl' S = T ∧
  (holds_at rl S T →
     log_wf rl' ∧ (∀ i, S < i → entry_at rl' i = entry_at rl i) ∧
     lastIndexLocked rl' = lastIndexLocked rl) ∧
  (¬ holds_at rl S T →
     rl_cache rl' = [] ∧ LastLogState rl' = (S, T) ∧
     rl_nextIndex rl' = Z.max (rl_nextIndex rl) (S + 1)).
Proof.
  intros [Hp Hn] HS Hr. pose proof Hp as [Hf Hc Hlo Hhi].
  apply ResetToSnapshot_logical in Hr as (Hc1 & Hf1 & Hl1 & Ht1 & Hn1); [|done|done].
  assert (TermAt rl' S = T) as HT by (by rewrite TermAt_eq, Hl1, Z.eqb_refl).
  assert (∀ P : Prop, log_pos rl' → P → log_pos rl' ∧ rl_lastIncludedIndex rl' = S ∧ TermAt rl' S = T ∧ P)
    as Hsplit by done.
  destruct (decide (reset_cache rl S T = [])) as [Hnil|Hne].
  - assert (log_pos rl') as Hpos.
    { split; rewrite ?Hf1, ?Hl1, ?Hc1; try lia; [rewrite Hnil; apply contiguous_nil|].
      unfold cache_len. rewrite Hc1, Hnil. simpl. lia. }
    rewrite Hnil in Hn1, Hc1. simpl in Hn1. apply Hsplit; [done|]. split.
    + intros Hh. destruct (holds_at_reset _ _ _ Hp Hh) as [Hd Hin].
      rewrite Hnil in Hd. symmetry in Hd.
      assert (cache_len rl = S + 1 - rl_firstIndex rl) as Hlen.
      { apply (f_equal length) in Hd. rewrite length_drop in Hd. simpl in Hd.
        unfold cache_len in *. lia. }
      assert (cache_len rl' = 0) as Hlen' by (unfold cache_len; by rewrite Hc1).
      split; [split; [done|lia]|]. split; [|rewrite !lastIndexLocked_spec by done; lia].
      intros i Hi. unfold entry_at. rewrite Hc1, Hf1, !decide_True by lia.
      rewrite lookup_nil. symmetry. apply lookup_ge_None. unfold cache_len in *. lia.
    + intros _. split; [done|]. split; [|done]. unfold LastLogState. by rewrite Hc1, Hl1, Ht1.
  - assert (holds_at rl S T) as Hh.
    { unfold reset_cache in Hne. destruct (entry_at rl S) as [e|] eqn:He; [|done].
      exists e. split; [done|]. destruct (Z.eqb_spec (le_Term e) T); done. }
    destruct (holds_at_reset _ _ _ Hp Hh) as [Hd Hin]. rewrite Hd in *.
    set (k := Z.to_nat (S + 1 - rl_firstIndex rl)) in *.
    assert (cache_len rl' = cache_len rl - Z.of_nat k) as Hlen.
    { unfold cache_len in *. rewrite Hc1, length_drop. lia. }
    assert (contiguous (S + 1) (drop k (rl_cache rl))) as Hcd.
    { replace (S + 1) with (rl_firstIndex rl + Z.of_nat k) by lia.
      apply contiguous_drop; [unfold cache_len in *; lia|done]. }
    assert (log_pos rl') as Hpos.
    { split; rewrite ?Hf1, ?Hl1, ?Hc1, ?Hlen; try lia. done. }
    apply Hsplit; [done|]. split; [|done]. intros _.
    assert (rl_nextIndex rl' = rl_firstIndex rl' + cache_len rl') as Hnext.
    { destruct (last (drop k (rl_cache rl))) as [e|] eqn:Hlast;
        [|by apply last_None in Hlast].
      rewrite Hn1, (contiguous_last _ _ _ Hcd Hlast), Hf1. unfold cache_len in *.
      rewrite Hc1, length_drop in *. wrapless. lia. }
    split; [done|]. split; [|rewrite !lastIndexLocked_spec by done; lia].
    intros i Hi. unfold entry_at. rewrite Hc1, Hf1, !decide_True, lookup_drop by lia. f_equal. lia.
Qed.

(** installing a snapshot ahead of the boundary moves the boundary to it.  If
    the log already holds the snapshot's last entry (Figure 13, step 6) the
    entries above survive and the full invariant is kept; otherwise (step 7) the
    log is emptied.  Positions and indices agree either way.  The next index to
    assign is only raised in the second case, never lowered. *)
Theorem ResetToSnapshot_correct (rl rl' : RaftLog) (S T : Z) (r : result unit) :
  log_wf rl → rl_lastIncludedIndex rl < S < MaxInt64 →
  ResetToSnapshot S T rl = (r, rl') →
  log_pos rl' ∧ rl_lastIncludedIndex rl' = S ∧ TermAt rl' S = T ∧
  (holds_at rl S T →
     log_wf rl' ∧ (∀ i, S < i → entry_at rl' i = entry_at rl i) ∧
     lastIndexLocked rl' = lastIndexLocked rl) ∧
  (¬ holds_at rl S T →
     rl_cache rl' = [] ∧ LastLogState rl' = (S, T) ∧
     rl_nextIndex rl' = Z.max (rl_nextIndex rl) (S + 1)).
Proof. apply ResetToSnapshot_spec. Qed.

(** A snapshot that replaces a longer, conflicting log leaves
    [nextIndex] beyond the emptied log.  If the node then appends as leader, the
    new entry is stored at a position that does not correspond to its index:
    the entry at the first index of the log carries the old next index. *)
Theorem ResetToSnapshot_stale_nextIndex (rl rl' rl'' : RaftLog) (S T term : Z)
    (cmd : bytes) (r : result unit) (e : LogEntry) :
  log_wf rl → rl_lastIncludedIndex rl < S < lastIndexLocked rl →
  ¬ holds_at rl S T →
  ResetToSnapshot S T rl = (r, rl') →
  AppendLeader cmd term rl' = (Ok e, rl'') →
  rl_firstIndex rl'' = S + 1 ∧ rl_cache rl'' = [e] ∧
  le_Index e = lastIndexLocked rl + 1 ∧ S + 1 < le_Index e ∧ ¬ log_pos rl''.
Proof.
  intros Hwf HS Hno Hr Ha. pose proof Hwf as [Hp Hn]. pose proof (lp_high _ Hp).
  rewrite lastIndexLocked_spec in * by done.
  destruct (ResetToSnapshot_spec rl rl' S T r Hwf ltac:(lia) Hr) as (_ & _ & _ & _ & Hreset).
  destruct (Hreset Hno) as (Hc1 & _ & Hn1).
  apply ResetToSnapshot_logical in Hr as (_ & Hf1 & _); [|done|lia].
  unfold AppendLeader, m_bind, m_get, m_modify, m_ret in Ha.
  destruct (writeEntryToDisk _ rl') as [[[]|] rl1] eqn:Hw; [|done].
  apply writeEntryToDisk_only in Hw. injection Hw as Hc2 _ Hf2 _ _ _ _.
  injection Ha as <- <-. simpl. rewrite Hc2, Hc1, Hf2, Hf1. simpl.
  split; [done|]. split; [done|]. split; [lia|]. split; [lia|].
  intros [_ Hcon _ _]. specialize (Hcon 0%nat _ eq_refl).
  simpl in Hcon. lia.
Qed.

(** ** Reconciliation at startup *)

Lemma keep_contiguous_none ex f es :
  contiguous f es → ex < f ∨ f + Z.of_nat (length es) ≤ ex →
  keep_contiguous ex es = ([], ex).
Proof.
  revert f. induction es as [|e es IH]; intros f Hc Hex; simpl; [done|].
  apply contiguous_cons in Hc as [He Hc]. simpl in Hex.
  destruct (Z.eqb_spec (le_Index e) ex); [lia|]. simpl. apply (IH _ Hc). lia.
Qed.

Lemma keep_contiguous_all ex es :
  contiguous ex es → MinInt64 ≤ ex → ex + Z.of_nat (length es) ≤ MaxInt64 →
  keep_contiguous ex es = (es, ex + Z.of_nat (length es)).
Proof.
  revert ex. induction es as [|e es IH]; intros ex Hc Hlo Hhi; simpl.
  { by rewrite Z.add_0_r. }
  apply contiguous_cons in Hc as [He Hc]. simpl in Hhi.
  rewrite He, Z.eqb_refl. simpl. wrapless. rewrite (IH _ Hc) by lia. f_equal. lia.
Qed.

Lemma keep_contiguous_suffix ex f es :
  contiguous f es → MinInt64 ≤ ex → f + Z.of_nat (length es) ≤ MaxInt64 →
  f ≤ ex ≤ f + Z.of_nat (length es) →
  keep_contiguous ex es = (drop (Z.to_nat (ex - f)) es, f + Z.of_nat (length es)).
Proof.
  intros Hc Hlo Hhi Hex.
  remember (Z.to_nat (ex - f)) as k eqn:Hk. revert f es Hc Hhi Hex Hk.
  induction k as [|k IH]; intros f es Hc Hhi Hex Hk.
  - replace ex with f in * by lia. by apply keep_contiguous_all.
  - destruct es as [|e es]; simpl in *; [lia|]. apply contiguous_cons in Hc as [He Hc].
    destruct (Z.eqb_spec (le_Index e) ex); [lia|]. simpl.
    rewrite (IH (f + 1)) by (done || lia). f_equal. lia.
Qed.

Lemma RestoreOffset_spec (rl rl' : RaftLog) (first S T : Z) (r : result unit) :
  contiguous first (rl_cache rl) → 0 < first →
  first + cache_len rl ≤ MaxInt64 → 0 ≤ S < MaxInt64 →
  RestoreOffset S T rl = (r, rl') →
  log_wf rl' ∧ rl_lastIncludedIndex rl' = S ∧ TermAt rl' S = T ∧
  rl_cache rl' = if decide (first ≤ S + 1) then drop (Z.to_nat (S + 1 - first)) (rl_cache rl) else [].
Proof.
  intros Hc Hf Hhi HS Hr.
  assert (rl_cache rl' = (if decide (first ≤ S + 1) then drop (Z.to_nat (S + 1 - first)) (rl_cache rl) else [])
    ∧ rl_firstIndex rl' = S + 1 ∧ rl_lastIncludedIndex rl' = S ∧ rl_lastIncludedTerm rl' = T
    ∧ rl_nextIndex rl' = S + 1 + cache_len rl') as (Hc1 & Hf1 & Hl1 & Ht1 & Hn1).
  { revert Hr. unfold RestoreOffset, cache_len in *.
    unfold m_bind at 1, m_modify at 1. cbv beta iota. unfold m_bind at 1, m_get. cbv beta iota.
    change (rl_cache (set_boundary S T rl)) with (rl_cache rl). wrapless.
    destruct (decide (rl_cache rl = [])) as [Hnil|Hne].
    - unfold m_modify. intros [= _ <-]. simpl. rewrite Hnil, drop_nil. wrapless.
      split; [by case_decide|]. simpl. repeat split; lia.
    - destruct (decide (first ≤ S + 1 ≤ first + Z.of_nat (length (rl_cache rl)))) as [Hin|Hout].
      + rewrite (keep_contiguous_suffix (S + 1) first) by (done || lia).
        rewrite decide_True by lia.
        unfold m_bind at 1, m_modify at 1. cbv beta iota. intros Hr.
        assert (disk_only (if Z.of_nat (length (rl_cache rl)) -
          Z.of_nat (length (drop (Z.to_nat (S + 1 - first)) (rl_cache rl))) =? 0
          then m_ret tt else rewriteWALLocked)) as Hdo.
        { case_match; [by intros ??? [= _ <-]|apply rewriteWALLocked_only]. }
        apply Hdo in Hr. unfold logical in Hr. simpl in Hr. wrapless.
        injection Hr as -> -> -> -> -> _ _. rewrite length_drop. repeat split; lia.
      + rewrite (keep_contiguous_none (S + 1) first) by (done || lia).
        unfold m_bind at 1, m_modify at 1. cbv beta iota. intros Hr.
        assert (disk_only (if Z.of_nat (length (rl_cache rl)) - Z.of_nat (@length LogEntry []) =? 0
          then m_ret tt else rewriteWALLocked)) as Hdo.
        { case_match; [by intros ??? [= _ <-]|apply rewriteWALLocked_only]. }
        apply Hdo in Hr. unfold logical in Hr. simpl in Hr. wrapless.
        injection Hr as -> -> -> -> -> _ _. simpl.
        split; [|repeat split; lia]. case_decide; [|done]. by rewrite drop_ge by lia. }
  split; [|split; [done|split; [by rewrite TermAt_eq, Hl1, Z.eqb_refl|done]]].
  split; [|by rewrite Hf1].
  split; rewrite ?Hf1, ?Hl1; try lia.
  - rewrite Hc1. case_decide; [|apply contiguous_nil].
    destruct (decide (Z.to_nat (S + 1 - first) ≤ length (rl_cache rl))%nat).
    + replace (S + 1) with (first + Z.of_nat (Z.to_nat (S + 1 - first))) at 1 by lia.
      by apply contiguous_drop.
    + rewrite drop_ge by lia. apply contiguous_nil.
  - unfold cache_len in *. rewrite Hc1. case_decide; [rewrite length_drop; lia|simpl; lia].
Qed.

(** reconciling a recovered WAL with a snapshot at [S].  Whatever run of
    indices the WAL holds, the result satisfies the full invariant with the
    boundary at [S]; it keeps exactly the WAL entries above [S] when they continue
    from the snapshot without a gap, and nothing otherwise. *)
Theorem RestoreOffset_correct (rl rl' : RaftLog) (first S T : Z) (r : result unit) :
  contiguous first (rl_cache rl) → 0 < first →
  first + cache_len rl ≤ MaxInt64 → 0 ≤ S < MaxInt64 →
  RestoreOffset S T rl = (r, rl') →
  log_wf rl' ∧ rl_lastIncludedIndex rl' = S ∧ TermAt rl' S = T ∧
  rl_cache rl' = if decide (first ≤ S + 1) then drop (Z.to_nat (S + 1 - first)) (rl_cache rl) else [].
Proof. apply RestoreOffset_spec. Qed.

(** A batch that starts below the follower's compaction boundary is
    always refused, although the follower holds everything up to the boundary:
    the log is unchanged and the hint only ever moves the leader further down, to
    the start of the log, where the refusal carries no hint at all. *)
Theorem AppendEntriesToLog_below_boundary (rl : RaftLog) (prevLogIndex prevLogTerm : Z)
    (entries : list LogEntry) :
  log_wf rl → 0 ≤ prevLogIndex < rl_lastIncludedIndex rl →
  (prevLogIndex ≠ 0 → prevLogTerm ≠ 0) →
  contiguous (prevLogIndex + 1) entries → entries ≠ [] →
  AppendEntriesToLog prevLogIndex prevLogTerm entries rl = ((0, 0, prevLogIndex, false), rl).
Proof.
  intros [Hp _] Hlow Ht Hc Hne. pose proof (lp_first _ Hp). pose proof (lp_high _ Hp).
  assert (0 ≤ cache_len rl) by (unfold cache_len; lia).
  assert (∀ i, 0 ≤ i < rl_firstIndex rl → getEntryLocked rl i = None) as Hnone.
  { intros i Hi. apply getEntry_out; [done|unfold int64; lia|lia]. }
  assert (lastIndexLocked rl = rl_firstIndex rl + cache_len rl - 1) as Hlast by by apply lastIndexLocked_spec.
  destruct (prev_matches rl prevLogIndex prevLogTerm) eqn:Hm.
  - assert (prevLogIndex = 0) as ->.
    { unfold prev_matches in Hm. apply orb_true_iff in Hm as [?%Z.leb_le|[_ Hm]%andb_true_iff]; [lia|].
      apply Z.eqb_eq in Hm. rewrite TermAt_eq in Hm. unfold getEntryTerm in Hm.
      destruct (Z.eqb_spec prevLogIndex (rl_lastIncludedIndex rl)); [lia|].
      rewrite Hnone in Hm by lia. destruct (decide (prevLogIndex = 0)); [done|]. by apply Ht in n0. }
    rewrite AppendEntriesToLog_matched by done.
    destruct entries as [|e es]; [done|]. apply contiguous_cons in Hc as [He _].
    unfold splice_and_sync. simpl. unfold m_bind, m_get. rewrite Hnone by lia.
    unfold splice_append, m_bind, m_get, m_fail. wrapless.
    by destruct (Z.eqb_spec (le_Index e) (rl_firstIndex rl + cache_len rl)); [lia|].
  - unfold prev_matches in Hm. apply orb_false_iff in Hm as [Hpos%Z.leb_gt Hm].
    unfold AppendEntriesToLog. rewrite <-TermAt_eq, Hlast in *.
    destruct (Z.ltb_spec 0 prevLogIndex); [|lia].
    destruct (Z.ltb_spec (rl_firstIndex rl + cache_len rl - 1) prevLogIndex); [lia|].
    destruct (Z.leb_spec prevLogIndex (rl_firstIndex rl + cache_len rl - 1)); [|lia].
    simpl in Hm. rewrite Hm. simpl.
    rewrite TermAt_eq. unfold getEntryTerm at 1 2. rewrite Hnone by lia.
    destruct (Z.eqb_spec prevLogIndex (rl_lastIncludedIndex rl)); [lia|].
    replace (Z.to_nat (prevLogIndex - rl_firstIndex rl)) with 0%nat by lia. done.
Qed.

End Ops.
