(* ===== verification/RaftLogDisk.v ===== *)
(** * The write-ahead log on disk (internal/raft/log.go)

    The framing of entries, recovery of a file of frames with a torn tail, and the
    durability of what the log acknowledges: an entry whose append returned is
    recovered by the next boot whatever the machine does in between, and a write
    cut short leaves nothing but the entries written so far.  The last part shows
    where that argument ends: after a write that failed without stopping the
    process, and on a read error during recovery. *)

From S2P Require Import Prelude Configuration Os FsUtil Types RaftLog RaftLogFacts.

(** ** The frame length *)

Lemma Z_of_byte_of_Z z : Z_of_byte (byte_of_Z z) = z `mod` 256.
Proof.
  unfold byte_of_Z, Z_of_byte. pose proof (Z.mod_pos_bound z 256 ltac:(lia)) as Hr.
  destruct (Byte.of_N (Z.to_N (z `mod` 256))) as [b|] eqn:Hb; simpl.
  - apply Byte.to_of_N in Hb. lia.
  - apply Byte.of_N_None_iff in Hb. lia.
Qed.

Lemma length_be32 n : length (be32 n) = 4%nat.
Proof. done. Qed.

Lemma of_be32_be32 n : 0 ≤ n < 4294967296 → of_be32 (be32 n) = n.
Proof.
  intros Hn. unfold of_be32, be32. cbn [foldl]. rewrite !Z_of_byte_of_Z, !Z.shiftr_div_pow2, !Z.shiftl_mul_pow2 by lia.
  change (2 ^ 24) with 16777216. change (2 ^ 16) with 65536. change (2 ^ 8) with 256.
  dlia.
Qed.

Section Disk.
Context `{Codec LogEntry}.

(** ** Files of frames *)

Definition frames (es : list LogEntry) : bytes := concat (map frame es).

(** An entry that fits a frame: encodable, and shorter than 4 GiB. *)
Definition storable (e : LogEntry) : Prop :=
  encodable e ∧ Z.of_nat (length (Marshal e)) < 4294967296.

Lemma frames_app es1 es2 : frames (es1 ++ es2) = frames es1 ++ frames es2.
Proof. unfold frames. by rewrite map_app, concat_app. Qed.

Lemma frames_cons e es : frames (e :: es) = frame e ++ frames es.
Proof. done. Qed.

Lemma frames_one e : frames [e] = frame e.
Proof. exact (app_nil_r (frame e)). Qed.

Lemma length_frame e : length (frame e) = (4 + length (Marshal e))%nat.
Proof. done. Qed.

(** What a torn write leaves after the last whole frame. *)
Definition torn (t : bytes) : Prop := t = [] ∨ ∃ e t', storable e ∧ frame e = t ++ t' ∧ t' ≠ [].

Lemma prefix_split {A} (d a b : list A) :
  d `prefix_of` a ++ b →
  (∃ k, a = d ++ k ∧ k ≠ []) ∨ ∃ d', d = a ++ d' ∧ d' `prefix_of` b.
Proof.
  intros [k Hk]. apply app_eq_inv in Hk as [(x & -> & ->)|(x & -> & ->)].
  - destruct x as [|y x]; [right|left; by eexists].
    exists []. rewrite !app_nil_r. split; [done|]. apply prefix_nil.
  - right. exists x. split; [done|]. by eexists.
Qed.

(** A prefix of a file of frames is some of its frames and a torn one. *)
Lemma prefix_frames d es :
  Forall storable es → d `prefix_of` frames es →
  ∃ l t, d = frames l ++ t ∧ l `prefix_of` es ∧ torn t.
Proof.
  intros Hes. revert d. induction Hes as [|e es He Hes IH]; intros d Hd.
  { exists [], d. apply prefix_nil_inv in Hd. subst. split_and!; [done|by exists []|by left]. }
  rewrite frames_cons in Hd. apply prefix_split in Hd as [(k & Hk & Hne)|(d' & -> & Hd)].
  - exists [], d. split_and!; [done|apply prefix_nil|right]. by exists e, k.
  - apply IH in Hd as (l & t & -> & Hl & Ht). exists (e :: l), t.
    rewrite frames_cons, <-app_assoc. split_and!; [done|by apply prefix_cons|done].
Qed.

(** ** Recovery

    Recovery is described on a disk that works: no call fails while it runs. *)

Definition calm (fs : Fs) : Os := mkOs fs [] false.

Lemma ReadFull_calm f pos n fs nd :
  fs_inodes fs !! f = Some nd →
  file_ReadFull f pos n (calm fs) = (Ok (take n (drop pos (i_data nd))), calm fs).
Proof. intros Hf. unfold file_ReadFull. rewrite syscall_no_faults by done. simpl. by rewrite Hf. Qed.

Lemma read_frame_whole f fs nd pre e post :
  fs_inodes fs !! f = Some nd → i_data nd = pre ++ frame e ++ post → storable e →
  read_frame f (length pre) (calm fs) = (Ok (FrameBytes (Marshal e)), calm fs).
Proof.
  intros Hf Hd [_ Hlen]. unfold read_frame. rewrite (ReadFull_calm _ _ _ _ _ Hf), Hd.
  rewrite drop_app_length. unfold frame. rewrite Z.mod_small by lia. rewrite <-app_assoc.
  set (hdr := be32 (Z.of_nat (length (Marshal e)))).
  assert (length hdr = 4%nat) as Hl by done.
  assert (of_be32 hdr = Z.of_nat (length (Marshal e))) as Ho by (apply of_be32_be32; lia).
  rewrite (take_app_length' hdr _ 4) by done.
  destruct hdr as [|b0 hdr0] eqn:Hhdr; [done|]. rewrite <-Hhdr in *.
  rewrite decide_False, Ho, Nat2Z.id by lia. case_decide as Hz.
  { by rewrite (nil_length_inv _ Hz). }
  rewrite (ReadFull_calm _ _ _ _ _ Hf), Hd.
  rewrite <-drop_drop, drop_app_length. unfold frame. rewrite Z.mod_small by lia.
  change (be32 _) with hdr. rewrite Hhdr in Hl. rewrite <-app_assoc, Hhdr.
  rewrite (drop_app_length' (b0 :: hdr0) _ 4), (take_app_length' (Marshal e)) by done.
  by rewrite decide_False by lia.
Qed.

(** The end of the file, or a frame cut short. *)
Lemma read_frame_torn f fs nd pre t :
  fs_inodes fs !! f = Some nd → i_data nd = pre ++ t → torn t →
  read_frame f (length pre) (calm fs) = (Ok (if decide (t = []) then AtEOF else Partial), calm fs).
Proof.
  intros Hf Hd Ht. unfold read_frame. rewrite (ReadFull_calm _ _ _ _ _ Hf), Hd, drop_app_length.
  destruct (decide (t = [])) as [->|Hnil]; [done|]. destruct Ht as [|(e & t' & [_ Hlen] & He & Hne)]; [done|].
  assert (length t < 4 + length (Marshal e))%nat as Hshort.
  { apply (f_equal length) in He. rewrite length_app, length_frame in He. destruct t'; [done|]. simpl in He. lia. }
  destruct (take 4 t) as [|b0 hdr0] eqn:Hhdr; [by destruct t|]. rewrite <-Hhdr.
  case_decide as H4; [done|]. rewrite length_take in H4.
  assert (take 4 t = be32 (Z.of_nat (length (Marshal e)))) as ->.
  { apply (f_equal (take 4)) in He. unfold frame in He. rewrite Z.mod_small in He by lia.
    rewrite (take_app_length' (be32 _) _ 4) in He by done. by rewrite take_app_le in He by lia. }
  rewrite of_be32_be32, Nat2Z.id by lia. case_decide as Hz; [lia|].
  rewrite (ReadFull_calm _ _ _ _ _ Hf), Hd, <-drop_drop, drop_app_length.
  rewrite decide_True; [done|]. rewrite length_take, length_drop. lia.
Qed.

(** What the loop does to the log, entry by entry. *)
Definition absorb (rl : RaftLog) (e : LogEntry) : RaftLog :=
  let rl := if decide (rl_cache rl = []) then set_firstIndex (le_Index e) rl else rl in
  set_nextIndex (le_Index e +! 1) (set_cache (rl_cache rl ++ [e]) rl).

(** What recovery does to the file at the end: a torn tail is cut. *)
Definition trim (f n : nat) (t : bytes) (fs : Fs) : Fs :=
  if decide (t = []) then fs
  else fs_update f (λ nd, mkInode (take n (i_data nd)) (i_synced nd)) fs.

Lemma on_disk_calm {A} (m : io A) rl fs r fs' :
  rl_disk rl = calm fs → m (calm fs) = (r, calm fs') →
  on_disk m rl = (r, set_disk (calm fs') rl).
Proof. intros Hd Hm. unfold on_disk. by rewrite Hd, Hm. Qed.

Lemma set_disk_here rl os : rl_disk rl = os → set_disk os rl = rl.
Proof. by destruct rl; intros [= ->]. Qed.

Lemma recover_loop_frames f fs nd t es : ∀ fuel pre rl,
  rl_disk rl = calm fs → fs_inodes fs !! f = Some nd →
  i_data nd = pre ++ frames es ++ t → Forall storable es → torn t → (length es < fuel)%nat →
  recover_loop fuel f (length pre) (length pre) rl
  = (Ok tt, set_disk (calm (trim f (length pre + length (frames es)) t fs)) (foldl absorb rl es)).
Proof.
  induction es as [|e es IH]; intros [|fuel] pre rl Hd Hf Hdata Hes Ht Hfuel; try (simpl in Hfuel; lia).
  - simpl. unfold m_bind, file_Seek. rewrite (on_disk_calm _ _ fs (Ok tt) fs) by done.
    rewrite set_disk_here by done.
    rewrite (on_disk_calm _ _ fs (Ok (if decide (t = []) then AtEOF else Partial)) fs);
      [|done|by apply (read_frame_torn f fs nd)].
    rewrite set_disk_here by done. unfold trim. rewrite Nat.add_0_r. case_decide as Hnil.
    + unfold m_ret. by rewrite set_disk_here.
    + by apply (on_disk_calm _ _ fs).
  - apply Forall_cons in Hes as [He Hes]. rewrite frames_cons, <-app_assoc in Hdata. cbn [recover_loop foldl].
    unfold m_bind, file_Seek. rewrite (on_disk_calm _ _ fs (Ok tt) fs) by done.
    rewrite set_disk_here by done.
    rewrite (on_disk_calm _ _ fs (Ok (FrameBytes (Marshal e))) fs);
      [|done|by apply (read_frame_whole f fs nd _ _ (frames es ++ t))].
    rewrite set_disk_here by done. rewrite Unmarshal_Marshal by apply He.
    unfold m_modify. rewrite <-Nat.add_assoc, <-length_frame, <-length_app.
    change (set_nextIndex _ _) with (absorb rl e).
    rewrite (IH fuel (pre ++ frame e)); try done.
    + rewrite length_app, frames_cons, length_app. by rewrite Nat.add_assoc.
    + unfold absorb. by case_decide.
    + by rewrite <-app_assoc.
    + simpl in Hfuel. lia.
Qed.

(** The fields of a recovered log. *)
Lemma absorb_all es rl :
  rl_cache rl = [] →
  let rl' := foldl absorb rl es in
  rl_cache rl' = es ∧
  rl_firstIndex rl' = from_option le_Index (rl_firstIndex rl) (head es) ∧
  rl_nextIndex rl' = from_option (λ e, le_Index e +! 1) (rl_nextIndex rl) (last es) ∧
  rl_lastIncludedIndex rl' = rl_lastIncludedIndex rl ∧
  rl_lastIncludedTerm rl' = rl_lastIncludedTerm rl ∧ rl_walPath rl' = rl_walPath rl ∧
  rl_compactionThreshold rl' = rl_compactionThreshold rl.
Proof.
  intros Hnil. cbv zeta. induction es as [|e es IH] using rev_ind; [done|].
  rewrite foldl_snoc. destruct IH as (Hc & Hf & Hn & ? & ? & ? & ?).
  revert Hc Hf Hn. generalize dependent (foldl absorb rl es). intros rl1 ? ? ? ? Hc Hf Hn.
  unfold absorb. rewrite last_snoc, Hc. case_decide as He.
  - rewrite He in *. simpl. rewrite Hc. by split_and!.
  - simpl. rewrite Hc. destruct es; [done|]. by split_and!.
Qed.

(** ** The state of the file behind an open log

    [wal_file fs p i nd]: the path [p] is bound to inode [i], which is [nd], and no
    other binding of it is pending. *)
Definition wal_file (fs : Fs) (p : string) (i : nat) (nd : inode) : Prop :=
  fs_wf fs ∧ fs_dir fs !! p = Some i ∧ old_bindings fs p = [] ∧ fs_inodes fs !! i = Some nd.

Lemma wal_file_crash fs p i nd c :
  wal_file fs p i nd → crash_content fs p c → ∃ d, c = Some d ∧ crash_data nd d.
Proof.
  intros (_ & Hd & Ho & Hi) (b & Hb & Hc). unfold crash_binding in Hb. rewrite Hd, Ho in Hb.
  destruct Hb as [->|Hb]; [|by apply not_elem_of_nil in Hb].
  destruct c as [d|]; [|done]. destruct Hc as (nd' & Hnd & Hcd). exists d. split; [done|congruence].
Qed.

Lemma wal_file_update fs p i nd f :
  wal_file fs p i nd → wal_file (fs_update i f fs) p i (f nd).
Proof.
  intros (Hwf & Hd & Ho & Hi). split_and!; [by apply fs_update_wf|done|done|].
  simpl. by rewrite lookup_alter_eq, Hi.
Qed.

(** The log and its file agree, and everything is on disk: the state between two
    operations that succeeded. *)
Definition settled_wal (rl : RaftLog) : Prop :=
  rl_walOpen rl = true ∧ Forall storable (rl_cache rl) ∧
  wal_file (os_fs (rl_disk rl)) (rl_walPath rl) (rl_walFile rl)
    (mkInode (frames (rl_cache rl)) (frames (rl_cache rl))).

(** A working disk on which the WAL holds [es] and a torn frame. *)
Lemma NewRaftLog_frames p fs i nd es t :
  wal_file fs p i nd → i_data nd = frames es ++ t → Forall storable es → torn t →
  let '(r, rl) := NewRaftLog p (calm fs) in
  rl_disk rl = calm (fs_update i sync_data (trim i (0 + length (frames es)) t fs)) ∧
  r = Ok tt ∧ settled_wal rl ∧ rl_cache rl = es ∧ rl_walPath rl = p ∧
  rl_firstIndex rl = from_option le_Index 1 (head es) ∧
  rl_nextIndex rl = from_option (λ e, le_Index e +! 1) 1 (last es) ∧
  rl_lastIncludedIndex rl = 0 ∧ rl_lastIncludedTerm rl = 0.
Proof.
  intros (Hwf & Hdir & Hold & Hi) Hdata Hes Ht.
  set (rl0 := mkRaftLog 0 false p [] 1 1 0 0 defaultCompactionThreshold (calm fs)).
  set (fs1 := trim i (0 + length (frames es)) t fs).
  set (fs2 := fs_update i sync_data fs1).
  assert (∀ fs', fs_dir fs' !! p = Some i →
    os_OpenFile p (calm fs') = (Ok i, calm fs')) as Hopen.
  { intros fs' Hp. unfold os_OpenFile. rewrite syscall_no_faults by done. simpl. by rewrite Hp. }
  assert (fs_dir fs1 !! p = Some i ∧ wal_file fs1 p i (mkInode (frames es) (i_synced nd)) ∨
          fs1 = fs ∧ t = []) as Hfs1.
  { unfold fs1, trim. case_decide as Hnil; [by right|left]. split; [done|].
    assert (take (0 + length (frames es)) (i_data nd) = frames es) as Htk
      by (rewrite Hdata; apply take_app_length).
    pose proof (wal_file_update fs p i nd (λ nd, mkInode (take (0 + length (frames es)) (i_data nd)) (i_synced nd))
      (conj Hwf (conj Hdir (conj Hold Hi)))) as Hu. cbv beta in Hu. by rewrite Htk in Hu. }
  assert (wal_file fs1 p i (mkInode (frames es) (i_synced nd))) as Hw1.
  { destruct Hfs1 as [[_ Hw]|[-> ->]]; [done|]. rewrite app_nil_r in Hdata. rewrite <-Hdata.
    split_and!; try done. by destruct nd. }
  assert (wal_file fs2 p i (mkInode (frames es) (frames es))) as Hw2 by exact (wal_file_update _ _ _ _ sync_data Hw1).
  pose proof (recover_loop_frames i fs nd t es (S (length (i_data nd))) [] rl0 eq_refl Hi Hdata Hes Ht) as Hloop.
  assert (length es < S (length (i_data nd)))%nat as Hfuel.
  { rewrite Hdata, length_app. clear. induction es as [|e es IH]; [simpl; lia|].
    rewrite frames_cons, length_app, length_frame. cbn [length]. lia. }
  specialize (Hloop Hfuel). simpl length in Hloop. fold fs1 in Hloop.
  assert (NewRaftLog p (calm fs)
    = (Ok tt, set_walFile i true (set_disk (calm fs2) (foldl absorb rl0 es)))) as ->.
  { unfold NewRaftLog. fold rl0. unfold m_bind, m_wrap, recover, m_bind, m_get, m_wrap.
    rewrite (on_disk_calm _ rl0 fs (Ok i) fs) by (done || by rewrite Hopen).
    rewrite set_disk_here by done. unfold file_length. simpl os_fs. rewrite Hi, Hloop.
    rewrite (on_disk_calm _ _ fs1 (Ok tt) fs2) by (done || (unfold file_Sync; by rewrite syscall_no_faults)).
    assert (fs_dir fs2 !! p = Some i) as Hp2 by apply Hw2.
    rewrite (on_disk_calm _ _ fs2 (Ok i) fs2) by (done || by rewrite Hopen). done. }
  destruct (absorb_all es rl0 eq_refl) as (Hc & Hf & Hn & Hli & Hlt & Hp & _).
  split; [done|]. split; [done|]. unfold settled_wal. simpl. rewrite Hc, Hp, Hf, Hn, Hli, Hlt. by split_and!.
Qed.

(** Opening the log on a working disk leaves a working disk and the other files. *)
Lemma NewRaftLog_calm p fs i nd es t rl :
  wal_file fs p i nd → i_data nd = frames es ++ t → Forall storable es → torn t →
  (NewRaftLog p (calm fs)).2 = rl →
  ∃ fs', rl_disk rl = calm fs' ∧ ∀ q, q ≠ p → same_at q fs fs'.
Proof.
  intros Hw Hd Hes Ht <-. pose proof (NewRaftLog_frames _ _ _ _ _ _ Hw Hd Hes Ht) as Hn.
  destruct (NewRaftLog p (calm fs)) as [r rl]. destruct Hn as [Hn _].
  eexists. split; [exact Hn|]. intros q Hq. destruct Hw as (Hwf & Hdir & _).
  transitivity (trim i (0 + length (frames es)) t fs).
  - unfold trim. case_decide; [done|]. by apply fs_update_same, (unbound_other _ p).
  - apply fs_update_same. unfold trim. case_decide; exact (unbound_other fs p i q Hwf Hdir Hq).
Qed.

(** ** What a later boot recovers

    [recoverable fs p P]: a boot after a crash in state [fs] finds at [p] a list of
    entries that satisfies [P], and at most a torn frame after it. *)
Definition recoverable (fs : Fs) (p : string) (P : list LogEntry → Prop) : Prop :=
  ∀ c, crash_content fs p c →
    ∃ l t, c = Some (frames l ++ t) ∧ Forall storable l ∧ torn t ∧ P l.

(** A log just opened on a disk that held [l]. *)
Definition recovered (l : list LogEntry) (p : string) (rl : RaftLog) : Prop :=
  settled_wal rl ∧ rl_cache rl = l ∧ rl_walPath rl = p ∧
  rl_firstIndex rl = from_option le_Index 1 (head l) ∧
  rl_nextIndex rl = from_option (λ e, le_Index e +! 1) 1 (last l) ∧
  rl_lastIncludedIndex rl = 0 ∧ rl_lastIncludedTerm rl = 0.

Lemma reboot_recovers os os' p P :
  recoverable (os_fs os) p P → reboot os os' → os_faults os' = [] →
  ∃ l rl, NewRaftLog p os' = (Ok tt, rl) ∧ recovered l p rl ∧ P l.
Proof.
  intros Hrec (Hwf & [Hold Hsy] & Hdead & Hc) Hfaults.
  destruct (Hrec _ (Hc p)) as (l & t & Hv & Hl & Ht & HP). exists l.
  unfold visible in Hv. destruct (fs_dir (os_fs os') !! p) as [i|] eqn:Hdir; [|done]. simpl in Hv.
  destruct (fs_inodes (os_fs os') !! i) as [nd|] eqn:Hi; [|done]. injection Hv as Hv.
  assert (wal_file (os_fs os') p i nd) as Hw.
  { split_and!; try done. unfold old_bindings. by rewrite Hold, lookup_empty. }
  assert (os' = calm (os_fs os')) as -> by (destruct os'; simpl in *; by subst).
  pose proof (NewRaftLog_frames _ _ _ _ _ _ Hw Hv Hl Ht) as Hn. simpl in *.
  destruct (NewRaftLog p _) as [r rl]. destruct Hn as (_ & -> & Hn). exists rl. done.
Qed.

Lemma recoverable_mono fs p (P Q : list LogEntry → Prop) :
  recoverable fs p P → (∀ l, P l → Q l) → recoverable fs p Q.
Proof. intros Hrec HPQ c Hc. destruct (Hrec c Hc) as (l & t & ? & ? & ? & ?). exists l, t. auto. Qed.

(** Synced entries followed by part of the frames written since. *)
Lemma recoverable_data fs p i nd l0 rest x (P : list LogEntry → Prop) :
  wal_file fs p i nd → i_synced nd = frames l0 → i_data nd = frames l0 ++ x → x `prefix_of` frames rest →
  Forall storable (l0 ++ rest) → (∀ l, l `prefix_of` rest → P (l0 ++ l)) →
  recoverable fs p P.
Proof.
  intros Hw Hs Hd Hx Hst HP c Hc. apply Forall_app in Hst as [Hst0 Hst].
  destruct (wal_file_crash _ _ _ _ _ Hw Hc) as (d & -> & Hcd).
  assert (∃ d', d = frames l0 ++ d' ∧ d' `prefix_of` x) as (d' & -> & Hd').
  { destruct Hcd as [->|[Hpre Hk]]; [exists []; rewrite app_nil_r; split; [done|apply prefix_nil]|].
    rewrite Hs, Hd in Hk. destruct Hk as [d' ->]; [by exists x|].
    exists d'. split; [done|]. rewrite Hd in Hpre. by apply prefix_app_inv in Hpre. }
  assert (d' `prefix_of` frames rest) as Hdr by (by transitivity x).
  apply prefix_frames in Hdr as (l & t & -> & Hl & Ht); [|done].
  exists (l0 ++ l), t. rewrite frames_app, <-app_assoc. split_and!; try done; [|by apply HP].
  apply Forall_app. split; [done|]. destruct Hl as [k ->]. by apply Forall_app in Hst as [? _].
Qed.

Lemma settled_recoverable rl :
  settled_wal rl → recoverable (os_fs (rl_disk rl)) (rl_walPath rl) (λ l, l = rl_cache rl).
Proof.
  intros (_ & Hst & Hw). eapply (recoverable_data _ _ _ _ (rl_cache rl) [] []); try done.
  - by rewrite app_nil_r.
  - by rewrite app_nil_r.
  - intros l ->%prefix_nil_inv. apply app_nil_r.
Qed.

(** ** Appending *)

Lemma Write_wal fs p i nd bs os r os' :
  os_fs os = fs → wal_file fs p i nd → file_Write i bs os = (r, os') →
  ∃ x, x `prefix_of` bs ∧ wal_file (os_fs os') p i (append_data x nd) ∧ (r = Ok tt → x = bs).
Proof.
  intros <- Hw [Ho|[[e ->] [->|[n ->]]]]%syscall_inv.
  - injection Ho as -> ->. exists bs. split_and!; [done| |done]. by apply wal_file_update.
  - exists []. split_and!; [apply prefix_nil| |done].
    unfold append_data. rewrite app_nil_r. by destruct nd.
  - exists (take n bs). split_and!; [apply prefix_take| |done]. by apply (wal_file_update _ _ _ _ (append_data _)).
Qed.

Lemma writeEntryTo_wal p i nd e os r os' :
  storable e → wal_file (os_fs os) p i nd → writeEntryTo i e os = (r, os') →
  ∃ x, x `prefix_of` frame e ∧ wal_file (os_fs os') p i (append_data x nd) ∧ (r = Ok tt → x = frame e).
Proof.
  intros [_ Hlen] Hw [([] & os1 & H1 & H2)|(er & H1 & ->)]%m_bind_inv;
    apply m_wrap_inv in H1 as (r1 & H1 & Hr1); eapply Write_wal in H1 as (x & Hx & Hw1 & Hok); try done.
  - destruct r1 as [[]|]; [|by destruct Hr1]. rewrite (Hok eq_refl) in *.
    apply m_wrap_inv in H2 as (r2 & H2 & Hr2).
    eapply Write_wal in H2 as (y & Hy & Hw2 & Hok2); [|done..].
    exists (be32 (Z.of_nat (length (Marshal e)) `mod` 4294967296) ++ y). split_and!.
    + by apply prefix_app.
    + unfold append_data in *. simpl in *. by rewrite <-app_assoc in Hw2.
    + intros ->. destruct r2 as [[]|]; [|by destruct Hr2]. by rewrite (Hok2 eq_refl).
  - exists x. split_and!; [|done|by destruct r1; [|done]].
    unfold frame. by apply prefix_app_r.
Qed.

Lemma Sync_wal p i nd os r os' :
  wal_file (os_fs os) p i nd → file_Sync i os = (r, os') →
  wal_file (os_fs os') p i nd ∧ r ≠ Ok tt ∨ wal_file (os_fs os') p i (sync_data nd) ∧ r = Ok tt.
Proof.
  intros Hw [Ho|[[e ->] ->]]%no_effect_inv; [right|by left].
  injection Ho as -> ->. split; [|done]. by apply wal_file_update.
Qed.

Lemma on_disk_inv {A} (m : io A) rl r rl' :
  on_disk m rl = (r, rl') → m (rl_disk rl) = (r, rl_disk rl') ∧ rl' = set_disk (rl_disk rl') rl.
Proof. unfold on_disk. destruct (m (rl_disk rl)) as [r0 os]. intros [= <- <-]. done. Qed.

Lemma on_wal_inv m rl r rl' :
  rl_walOpen rl = true → on_wal m rl = (r, rl') →
  m (rl_walFile rl) (rl_disk rl) = (r, rl_disk rl') ∧ rl' = set_disk (rl_disk rl') rl.
Proof. intros Ho. unfold on_wal. rewrite Ho. apply on_disk_inv. Qed.

(** The entries already on the file, and one more, in whatever state its write
    stopped. *)
Lemma writeEntryToDisk_wal rl e r rl' :
  settled_wal rl → storable e → writeEntryToDisk e rl = (r, rl') →
  rl' = set_disk (rl_disk rl') rl ∧
  recoverable (os_fs (rl_disk rl')) (rl_walPath rl) (λ l, l = rl_cache rl ∨ l = rl_cache rl ++ [e]) ∧
  (r = Ok tt → wal_file (os_fs (rl_disk rl')) (rl_walPath rl) (rl_walFile rl)
     (mkInode (frames (rl_cache rl ++ [e])) (frames (rl_cache rl ++ [e])))).
Proof.
  intros (Hopen & Hst & Hw) He.
  assert (∀ fs x, x `prefix_of` frame e →
    wal_file fs (rl_walPath rl) (rl_walFile rl)
      (append_data x (mkInode (frames (rl_cache rl)) (frames (rl_cache rl)))) →
    recoverable fs (rl_walPath rl) (λ l, l = rl_cache rl ∨ l = rl_cache rl ++ [e])) as Hrec.
  { intros fs x Hx Hwx. eapply (recoverable_data _ _ _ _ (rl_cache rl) [e] x); try done.
    - by rewrite frames_one.
    - apply Forall_app. split; [done|by constructor].
    - intros l [k Hk]. destruct l as [|e' l]; [left; apply app_nil_r|right].
      injection Hk as <- Hk. symmetry in Hk. by apply app_nil in Hk as [-> ->]. }
  intros [([] & rl1 & H1 & H2)|(er & H1 & ->)]%m_bind_inv;
    apply on_wal_inv in H1 as [H1 Hrl1]; [|done| |done];
    eapply writeEntryTo_wal in H1 as (x & Hx & Hw1 & Hok); try done.
  2:{ split_and!; [done|by eapply Hrec|done]. }
  specialize (Hok eq_refl). subst x. apply m_wrap_inv in H2 as (r2 & H2 & Hr2).
  apply on_wal_inv in H2 as [H2 Hrl2]; [|by rewrite Hrl1].
  rewrite Hrl1 in H2 at 1. simpl in H2. rewrite Hrl1 in Hrl2.
  eapply Sync_wal in H2 as [[Hw2 Hne]|[Hw2 ->]]; [| |exact Hw1];
    (split; [by rewrite Hrl2|]).
  - split; [by eapply Hrec|]. destruct r2 as [[]|]; [done|]. by destruct Hr2 as [? ->].
  - assert (wal_file (os_fs (rl_disk rl')) (rl_walPath rl) (rl_walFile rl)
      (mkInode (frames (rl_cache rl ++ [e])) (frames (rl_cache rl ++ [e])))) as Hfin.
    { rewrite frames_app, frames_one. exact Hw2. }
    split; [|done]. eapply (recoverable_data _ _ _ _ (rl_cache rl ++ [e]) [] []); [exact Hfin|done|..].
    + by rewrite app_nil_r.
    + done.
    + rewrite app_nil_r. apply Forall_app. split; [done|by constructor].
    + intros l ->%prefix_nil_inv. right. apply app_nil_r.
Qed.

Lemma AppendLeader_wal rl cmd term r rl' :
  settled_wal rl → storable (mkLogEntry (rl_nextIndex rl) term cmd) →
  AppendLeader cmd term rl = (r, rl') →
  rl_walPath rl' = rl_walPath rl ∧
  recoverable (os_fs (rl_disk rl')) (rl_walPath rl)
    (λ l, l = rl_cache rl ∨ l = rl_cache rl ++ [mkLogEntry (rl_nextIndex rl) term cmd]) ∧
  (is_Ok r = true → settled_wal rl' ∧
     rl_cache rl' = rl_cache rl ++ [mkLogEntry (rl_nextIndex rl) term cmd]).
Proof.
  intros Hset He. unfold AppendLeader, m_get, m_modify, m_ret.
  set (e := mkLogEntry (rl_nextIndex rl) term cmd) in *. unfold m_bind at 1.
  intros [([] & rl1 & H1 & H2)|(er & H1 & ->)]%m_bind_inv;
    eapply writeEntryToDisk_wal in H1 as (Hrl & Hrec & Hok); try done.
  - injection H2 as <- <-. rewrite Hrl. simpl. split_and!; [done|done|]. intros _.
    split; [|done]. destruct Hset as (Ho & Hst & _). split_and!; [done| |by apply Hok].
    apply Forall_app. split; [done|by constructor].
  - rewrite Hrl. by split_and!.
Qed.

(** ** Rewriting the file *)

Lemma rewrite_tmp_ne (p : string) : p ≠ p +:+ ".rewrite".
Proof. induction p as [|ch p IH]; simpl; [done|]. by intros [= ?]. Qed.

Lemma write_entries_spec fs0 t i es : ∀ data os r os',
  staged fs0 (os_fs os) t i data → write_entries i es os = (r, os') →
  only_at t fs0 (os_fs os') ∧ (r = Ok tt → staged fs0 (os_fs os') t i (data ++ frames es)).
Proof.
  induction es as [|e es IH]; intros data os r os' Hst.
  { intros [= <- <-]. rewrite app_nil_r. split; [by eapply staged_only_at|done]. }
  intros [([] & os1 & H1 & H2)|(er & H1 & ->)]%m_bind_inv;
    apply m_on_error_inv in H1 as [([] & ? & Hm)|(er1 & os1' & r1 & ? & Hm & Hc)]; simplify_eq.
  - apply m_bind_inv in Hm as [([] & os2 & Ha & H3)|(? & ? & ?)]; [|done].
    apply m_wrap_inv in Ha as ([[]|] & H1 & Hr1); [|by destruct Hr1].
    apply m_wrap_inv in H3 as ([[]|] & H3 & Hr3); [|by destruct Hr3].
    eapply Write_spec in H1 as [_ H1]; [|done]. specialize (H1 eq_refl).
    eapply Write_spec in H3 as [_ H3]; [|done]. specialize (H3 eq_refl).
    rewrite frames_cons, app_assoc. apply (IH _ _ _ _) with (2 := H2).
    unfold frame. by rewrite app_assoc.
  - apply Close_spec in Hc. rewrite Hc. split; [|done].
    apply m_bind_inv in Hm as [([] & os2 & Ha & H3)|(er' & Ha & _)].
    + apply m_wrap_inv in Ha as ([[]|] & H1 & Hr1); [|by destruct Hr1].
      apply m_wrap_inv in H3 as (r3 & H3 & _).
      eapply Write_spec in H1 as [_ H1]; [|done]. specialize (H1 eq_refl).
      eapply Write_spec in H3 as [[d Hd] _]; [|done]. by eapply staged_only_at.
    + apply m_wrap_inv in Ha as (r1' & H1 & _).
      eapply Write_spec in H1 as [[d Hd] _]; [|done]. by eapply staged_only_at.
Qed.

Lemma stage_rewrite_spec t es os r os' :
  fs_wf (os_fs os) → stage_rewrite t es os = (r, os') →
  only_at t (os_fs os) (os_fs os') ∧
  (r = Ok tt → ∃ i, staged (os_fs os) (os_fs os') t i (frames es) ∧
     fs_inodes (os_fs os') !! i = Some (mkInode (frames es) (frames es))).
Proof.
  intros Hwf [(f & os1 & H1 & H2)|(er & H1 & ->)]%m_bind_inv;
    apply m_wrap_inv in H1 as (r1 & H1 & Hr1); apply OpenTrunc_spec in H1 as [Ho1 Hs1]; try done.
  destruct r1 as [f'|]; [injection Hr1 as <-|by destruct Hr1]. specialize (Hs1 f eq_refl).
  apply m_bind_inv in H2 as [([] & os2 & H2 & H3)|(er & H2 & ->)];
    eapply write_entries_spec in H2 as [Ho2 Hs2]; try done.
  specialize (Hs2 eq_refl). simpl in Hs2.
  apply m_bind_inv in H3 as [([] & os3 & H3 & H4)|(er & H3 & ->)];
    apply guarded_inv in H3 as [[[=] H3]|(e3 & e3' & os3' & [=] & H3 & Hc3)].
  - eapply Sync_spec in H3 as [Hs3 Hi3]; [|done]. specialize (Hi3 eq_refl).
    apply m_wrap_inv in H4 as (r4 & H4 & _). apply Close_spec in H4. rewrite H4.
    split; [by eapply staged_only_at|]. intros _. by exists f.
  - eapply Sync_spec in H3 as [Hs3 _]; [|done]. rewrite Hc3. split; [by eapply staged_only_at|done].
Qed.

Lemma close_wal_inv rl r rl' :
  close_wal rl = (r, rl') →
  os_fs (rl_disk rl') = os_fs (rl_disk rl) ∧
  rl' = set_walFile (rl_walFile rl) false (set_disk (rl_disk rl') rl).
Proof.
  unfold close_wal, on_wal. destruct (rl_walOpen rl).
  - destruct (on_disk _ rl) as [r0 rl0] eqn:Hd. apply on_disk_inv in Hd as [Hd Hrl].
    intros [= <- <-]. apply Close_spec in Hd. simpl. split; [done|]. by rewrite Hrl.
  - intros [= <- <-]. split; [done|]. by destruct rl.
Qed.

(** Whatever happens to the rewrite, a crash shows the file as it was or the whole
    new one; when it succeeds the log is settled again. *)
Lemma rewriteWALLocked_wal (P : list LogEntry → Prop) rl r rl' :
  fs_wf (os_fs (rl_disk rl)) → Forall storable (rl_cache rl) →
  recoverable (os_fs (rl_disk rl)) (rl_walPath rl) P → P (rl_cache rl) →
  rewriteWALLocked rl = (r, rl') →
  logical rl' = logical rl ∧ recoverable (os_fs (rl_disk rl')) (rl_walPath rl) P ∧
  (r = Ok tt → settled_wal rl').
Proof.
  intros Hwf Hst Hrec HP Hr. pose proof (rewriteWALLocked_only _ _ _ Hr) as Hlog. split; [done|].
  set (path := rl_walPath rl) in *. set (tmp := (path +:+ ".rewrite")%string).
  assert (∀ fs, replacing (os_fs (rl_disk rl)) fs path tmp (frames (rl_cache rl)) → recoverable fs path P) as Hrep.
  { intros fs [_ _ Hc _] c [Hold| ->]%Hc; [by apply Hrec|].
    exists (rl_cache rl), []. rewrite app_nil_r. split_and!; [done|done|by left|done]. }
  assert (path ≠ tmp) as Hne by apply rewrite_tmp_ne.
  revert Hr. unfold rewriteWALLocked, m_get. unfold m_bind at 1. fold path. fold tmp.
  intros [([] & rl1 & H1 & H2)|(er & H1 & ->)]%m_bind_inv;
    apply on_disk_inv in H1 as [H1 Hrl1]; apply stage_rewrite_spec in H1 as [Ho1 Hs1]; try done.
  2:{ split; [|done]. by apply Hrep, only_at_replacing. }
  destruct (Hs1 eq_refl) as (i & Hstg & Hi).
  apply m_bind_inv in H2 as [([] & rl2 & H2 & H3)|(er & H2 & ->)];
    apply m_wrap_inv in H2 as (r2 & H2 & _); apply close_wal_inv in H2 as [Hf2 Hrl2].
  2:{ split; [|done]. rewrite Hf2. by apply Hrep, only_at_replacing. }
  rewrite <-Hf2 in *.
  apply m_bind_inv in H3 as [([] & rl3 & H3 & H4)|(er & H3 & ->)];
    apply on_disk_inv in H3 as [H3 Hrl3]; apply m_wrap_inv in H3 as (r3 & H3 & Hr3);
    eapply Rename_spec in H3 as [Hrp3 Hp3]; try done.
  2:{ split; [by apply Hrep|done]. }
  destruct r3 as [[]|]; [|by destruct Hr3]. specialize (Hp3 eq_refl).
  apply m_bind_inv in H4 as [([] & rl4 & H4 & H5)|(er & H4 & ->)];
    apply on_disk_inv in H4 as [H4 Hrl4]; apply m_wrap_inv in H4 as (r4 & H4 & Hr4);
    pose proof (SyncDir_published _ _ _ _ _ _ _ Hp3 H4) as [Hp4 _].
  2:{ split; [by apply Hrep, Hp4|done]. }
  destruct r4 as [[]|]; [|by destruct Hr4]. apply SyncDir_spec in H4 as [[_ [? [=]]]|[Hf4 _]].
  destruct Hp4 as [Hrp4 (j & Hdj & Hij)].
  assert (wal_file (os_fs (rl_disk rl4)) path j (mkInode (frames (rl_cache rl)) (frames (rl_cache rl)))) as Hw4.
  { split_and!; [apply Hrp4|done| |done]. by rewrite Hf4. }
  apply m_bind_inv in H5 as [(f & rl5 & H5 & H6)|(er & H5 & ->)];
    apply on_disk_inv in H5 as [H5 Hrl5]; apply m_wrap_inv in H5 as (r5 & H5 & Hr5);
    unfold os_OpenFile in H5; apply no_effect_inv in H5; rewrite Hdj in H5.
  - assert (f = j ∧ os_fs (rl_disk rl5) = os_fs (rl_disk rl4)) as [-> Hf5].
    { destruct r5 as [f'|]; [|by destruct Hr5]. injection Hr5 as <-.
      destruct H5 as [H5|[[? [=]] _]]. by injection H5. }
    injection H6 as <- <-. simpl. rewrite Hf5. split; [by apply Hrep|]. intros _.
    unfold logical in Hlog. simpl in Hlog. injection Hlog as Hc _ _ _ _ _ Hp.
    split_and!; simpl; [done|by rewrite Hc|]. by rewrite Hc, Hp, Hf5.
  - assert (os_fs (rl_disk rl') = os_fs (rl_disk rl4)) as ->.
    { destruct H5 as [H5|[_ H5]]; [|done]. by injection H5. }
    split; [by apply Hrep|done].
Qed.

(** ** The follower's batch

    What may be on the file while a batch is spliced in: a prefix of the old log
    followed by some of the batch, in order. *)
Definition spliced (old batch l : list LogEntry) : Prop :=
  ∃ j es, l = take j old ++ es ∧ es `sublist_of` batch.

Lemma spliced_old old batch : spliced old batch old.
Proof. exists (length old), []. rewrite firstn_all, app_nil_r. split; [done|apply sublist_nil_l]. Qed.

Lemma spliced_prefix old batch l l' : spliced old batch l → l' `prefix_of` l → spliced old batch l'.
Proof.
  intros (j & es & -> & Hes) Hl. apply prefix_split in Hl as [(k & Hk & _)|(es' & -> & Hpre)].
  - exists (length l' `min` j)%nat, []. split; [|apply sublist_nil_l].
    rewrite app_nil_r. rewrite <-(take_app_length l' k), <-Hk at 1. by rewrite take_take.
  - exists j, es'. split; [done|]. destruct Hpre as [k ->].
    etransitivity; [|exact Hes]. by apply sublist_inserts_r.
Qed.

Lemma spliced_take old batch l n : spliced old batch l → spliced old batch (take n l).
Proof. intros Hs. eapply spliced_prefix; [exact Hs|apply prefix_take]. Qed.

Lemma spliced_snoc old batch l e : spliced old batch l → spliced old (batch ++ [e]) (l ++ [e]).
Proof.
  intros (j & es & -> & Hes). exists j, (es ++ [e]). split; [by rewrite app_assoc|].
  by apply sublist_app.
Qed.

Lemma spliced_more old batch more l : spliced old batch l → spliced old (batch ++ more) l.
Proof.
  intros (j & es & -> & Hes). exists j, es. split; [done|]. by apply sublist_inserts_r.
Qed.

(** Between two iterations: the file is what the cache says, not yet synced past
    some prefix of it. *)
Record writing (old done : list LogEntry) (rl : RaftLog) : Prop := {
  wr_open : rl_walOpen rl = true;
  wr_storable : Forall storable (rl_cache rl);
  wr_spliced : spliced old done (rl_cache rl);
  wr_file : ∃ l0, l0 `prefix_of` rl_cache rl ∧
    wal_file (os_fs (rl_disk rl)) (rl_walPath rl) (rl_walFile rl)
      (mkInode (frames (rl_cache rl)) (frames l0));
}.

Lemma writing_recoverable old done rl x e :
  writing old done rl → storable e → x `prefix_of` frame e →
  ∀ fs i nd, wal_file fs (rl_walPath rl) i nd → i_data nd = frames (rl_cache rl) ++ x →
    (∃ l0, l0 `prefix_of` rl_cache rl ∧ i_synced nd = frames l0) →
    recoverable fs (rl_walPath rl) (spliced old (done ++ [e])).
Proof.
  intros [_ Hst Hs _] He Hx fs i nd Hw Hd (l0 & [k Hk] & Hsy).
  eapply (recoverable_data _ _ _ _ l0 (k ++ [e]) (frames k ++ x)); try done.
  - by rewrite Hd, Hk, frames_app, app_assoc.
  - rewrite frames_app, frames_one. by apply prefix_app.
  - rewrite app_assoc, <-Hk. apply Forall_app. split; [done|by constructor].
  - intros l Hl. apply (spliced_snoc _ _ _ e) in Hs. eapply spliced_prefix; [exact Hs|].
    rewrite Hk, <-app_assoc. by apply prefix_app.
Qed.

Lemma splice_append_wal old done e rl r rl' :
  writing old done rl → storable e → splice_append e rl = (r, rl') →
  rl_walPath rl' = rl_walPath rl ∧
  recoverable (os_fs (rl_disk rl')) (rl_walPath rl) (spliced old (done ++ [e])) ∧
  (r = Ok tt → writing old (done ++ [e]) rl').
Proof.
  intros Hwr He. pose proof Hwr as [Hopen Hst Hs (l0 & Hl0 & Hw)].
  unfold splice_append, m_get, m_fail, m_modify. unfold m_bind at 1.
  destruct (negb _).
  { intros [= <- <-]. split_and!; [done| |done].
    eapply (writing_recoverable old done rl [] e Hwr He (prefix_nil _)); [exact Hw|by rewrite app_nil_r|eauto]. }
  intros [([] & rl1 & H1 & H2)|(er & H1 & ->)]%m_bind_inv;
    apply on_wal_inv in H1 as [H1 Hrl1]; [|done| |done];
    eapply writeEntryTo_wal in H1 as (x & Hx & Hw1 & Hok); try done;
    pose proof (writing_recoverable old done rl x e Hwr He Hx _ _ _ Hw1 eq_refl
      (ex_intro _ l0 (conj Hl0 eq_refl))) as Hrec.
  2:{ split_and!; [by rewrite Hrl1|done|done]. }
  specialize (Hok eq_refl). subst x. injection H2 as <- <-. rewrite Hrl1. simpl.
  split_and!; [done|done|]. intros _. split; simpl.
  - done.
  - apply Forall_app. split; [done|by constructor].
  - by apply spliced_snoc.
  - exists l0. split; [by apply prefix_app_r|]. rewrite frames_app, frames_one. exact Hw1.
Qed.

Lemma writing_safe old done rl :
  writing old done rl → recoverable (os_fs (rl_disk rl)) (rl_walPath rl) (spliced old done).
Proof.
  intros [_ Hst Hs (l0 & [k Hk] & Hw)].
  eapply (recoverable_data _ _ _ _ l0 k (frames k)); [exact Hw|done|..]; simpl.
  - by rewrite Hk, frames_app.
  - done.
  - by rewrite <-Hk.
  - intros l Hl. eapply spliced_prefix; [exact Hs|]. rewrite Hk. by apply prefix_app.
Qed.

Lemma settled_writing old done rl : settled_wal rl → spliced old done (rl_cache rl) → writing old done rl.
Proof. intros (Ho & Hst & Hw) Hs. split; try done. by exists (rl_cache rl). Qed.

(** Dropping a conflicting suffix and rewriting the file. *)
Lemma conflict_wal old done n rl r rl' :
  writing old done rl → rewriteWALLocked (set_cache (take n (rl_cache rl)) rl) = (r, rl') →
  rl_walPath rl' = rl_walPath rl ∧
  recoverable (os_fs (rl_disk rl')) (rl_walPath rl) (spliced old done) ∧
  (r = Ok tt → writing old done rl').
Proof.
  intros Hwr Hr. pose proof Hwr as [Hopen Hst Hs (l0 & Hl0 & Hw)].
  apply (rewriteWALLocked_wal (spliced old done)) in Hr as (Hlog & Hrec & Hok); simpl in *.
  - unfold logical in Hlog. injection Hlog as Hc _ _ _ _ _ Hp. split; [done|]. split; [done|].
    intros ->. apply settled_writing; [by apply Hok|]. rewrite Hc. by apply spliced_take.
  - apply Hw.
  - by apply Forall_take.
  - by apply writing_safe.
  - by apply spliced_take.
Qed.

Lemma splice_wal old entries : ∀ done a rl r rl',
  writing old done rl → Forall storable entries → 0 ≤ a → a + Z.of_nat (length entries) < MaxInt64 →
  splice entries a rl = (r, rl') →
  rl_walPath rl' = rl_walPath rl ∧
  recoverable (os_fs (rl_disk rl')) (rl_walPath rl) (spliced old (done ++ entries)) ∧
  ∀ a', r = Ok a' → a ≤ a' ∧ (a' = a → rl' = rl) ∧ writing old (done ++ entries) rl'.
Proof.
  induction entries as [|e es IH]; intros done a rl r rl' Hwr Hst Ha Hmax.
  { intros [= <- <-]. rewrite app_nil_r. split_and!; [done|by apply writing_safe|].
    intros a' [= <-]. by split_and!. }
  apply Forall_cons in Hst as [He Hst]. cbn [length] in Hmax.
  assert (∀ rl0 rl1 r1 rl2, rl_walPath rl0 = rl_walPath rl → writing old done rl0 →
    (splice_append e ;;; splice es (a +! 1)) rl0 = (r1, rl2) →
    rl_walPath rl2 = rl_walPath rl ∧
    recoverable (os_fs (rl_disk rl2)) (rl_walPath rl) (spliced old (done ++ e :: es)) ∧
    ∀ a', r1 = Ok a' → a ≤ a' ∧ (a' = a → rl2 = rl1) ∧ writing old (done ++ e :: es) rl2) as Happ.
  { intros rl0 rl1 r1 rl2 Hp Hwr0 [([] & rl3 & H1 & H2)|(er & H1 & ->)]%m_bind_inv;
      eapply splice_append_wal in H1 as (Hp1 & Hrec1 & Hok1); try done; rewrite Hp in *.
    - rewrite cons_middle, app_assoc. revert H2. wrapless. intros H2.
      eapply IH in H2 as (Hp2 & Hrec2 & Hok2); [|by apply Hok1|done|lia|lia].
      rewrite Hp1, ?Hp in *. split_and!; [done|done|].
      intros a' Hr1. destruct (Hok2 a' Hr1) as (Hle & _ & Hw2). split_and!; [lia|lia|done].
    - split_and!; [done| |done]. rewrite cons_middle, app_assoc.
      eapply recoverable_mono; [exact Hrec1|]. intros l. apply spliced_more. }
  cbn [splice]. unfold m_get. unfold m_bind at 1.
  destruct (getEntryLocked rl (le_Index e)) as [x|]; [|by apply Happ].
  destruct (le_Term x =? le_Term e).
  { intros Hs. assert (writing old (done ++ [e]) rl) as Hwr1 by (destruct Hwr; split; try done; by apply spliced_more).
    eapply IH in Hs; [|exact Hwr1|done|lia|lia]. by rewrite <-app_assoc in Hs. }
  unfold m_modify. unfold m_bind at 1.
  intros [([] & rl1 & H1 & H2)|(er & H1 & ->)]%m_bind_inv;
    destruct (conflict_wal _ _ _ _ _ _ Hwr H1) as (Hp1 & Hrec1 & Hok1).
  - eapply Happ; [exact Hp1|by apply Hok1|exact H2].
  - split; [done|]. split; [|done]. eapply recoverable_mono; [exact Hrec1|]. intros l. apply spliced_more.
Qed.

Lemma AppendEntriesToLog_wal p t es rl res rl' :
  settled_wal rl → Forall storable es → Z.of_nat (length es) < MaxInt64 →
  AppendEntriesToLog p t es rl = (res, rl') →
  rl_walPath rl' = rl_walPath rl ∧
  recoverable (os_fs (rl_disk rl')) (rl_walPath rl) (spliced (rl_cache rl) es) ∧
  (res.2 = true → settled_wal rl' ∧ spliced (rl_cache rl) es (rl_cache rl')).
Proof.
  intros Hset Hst Hmax Happ.
  assert (recoverable (os_fs (rl_disk rl)) (rl_walPath rl) (spliced (rl_cache rl) es)) as Hsame.
  { eapply recoverable_mono; [by apply settled_recoverable|]. intros l ->. apply spliced_old. }
  destruct (prev_matches rl p t) eqn:Hm.
  2:{ destruct (AppendEntriesToLog_unmatched rl p t es Hm) as (ct & ci & Hu).
      rewrite Hu in Happ. by injection Happ as <- <-. }
  rewrite AppendEntriesToLog_matched in Happ by done.
  destruct (splice_and_sync es rl) as [r rl0] eqn:Hs.
  assert (rl0 = rl' ∧ res.2 = is_Ok r) as [-> Hres] by (destruct r; by injection Happ as <- <-).
  rewrite Hres. clear Happ Hres res.
  assert (writing (rl_cache rl) [] rl) as Hwr.
  { apply settled_writing; [done|]. eapply spliced_old. }
  apply m_bind_inv in Hs as [(n & rl1 & H1 & H2)|(er & H1 & ->)];
    destruct (splice_wal (rl_cache rl) es [] 0 rl _ _ Hwr Hst ltac:(lia) ltac:(lia) H1) as (Hp1 & Hrec1 & Hok1);
    [|done].
  destruct (Hok1 n eq_refl) as (Hn & Hnone & Hwr1). destruct (Z.ltb_spec 0 n) as [Hlt|Hge].
  2:{ rewrite Hnone in * by lia. injection H2 as <- <-. split_and!; try done. intros _. split; [done|apply Hwr1]. }
  pose proof Hwr1 as [Hopen1 Hst1 Hs1 (l0 & Hl0 & Hw1)].
  apply on_wal_inv in H2 as [H2 Hrl']; [|done].
  apply (Sync_wal _ _ _ _ _ _ Hw1) in H2 as [[Hw2 Hne]|[Hw2 ->]]; rewrite Hrl'; cbn [rl_walPath set_disk rl_disk].
  - split; [done|]. split; [|by destruct r as [[]|]]. rewrite <-Hp1.
    change (recoverable (os_fs (rl_disk (set_disk (rl_disk rl') rl1))) (rl_walPath rl1) (spliced (rl_cache rl) es)).
    apply (writing_safe _ _ (set_disk (rl_disk rl') rl1)). split; try done. by exists l0.
  - assert (settled_wal (set_disk (rl_disk rl') rl1)) as Hset' by done.
    split; [done|]. split; [|done]. rewrite <-Hp1.
    eapply recoverable_mono; [by apply (settled_recoverable (set_disk (rl_disk rl') rl1))|].
    intros l ->. exact Hs1.
Qed.

(** A working disk refuses nothing. *)
Lemma AppendLeader_calm rl fs cmd term :
  rl_walOpen rl = true → rl_disk rl = calm fs →
  is_Ok (AppendLeader cmd term rl).1 = true.
Proof.
  intros Ho Hd. unfold AppendLeader, writeEntryToDisk, m_get, m_bind, on_wal, on_disk, writeEntryTo,
    m_bind, m_wrap, file_Write. rewrite Ho, Hd.
  do 2 (rewrite syscall_no_faults by done; cbn [fst snd]).
  cbn [rl_walOpen set_disk rl_disk]. rewrite Ho. unfold file_Sync.
  rewrite syscall_no_faults by done. done.
Qed.

(** ** Properties *)

(** C31: recovery reads back what was written.  Whatever run of frames the file holds,
    and however the last write was torn, opening the log on a working disk returns
    exactly the whole entries, in order, cuts the torn frame, and leaves the log
    and its file settled, with the next index right after the last entry. *)
Theorem NewRaftLog_recovers (p : string) (fs : Fs) (i : nat) (nd : inode) (es : list LogEntry) (t : bytes) :
  wal_file fs p i nd → i_data nd = frames es ++ t → Forall storable es → torn t →
  ∃ rl, NewRaftLog p (calm fs) = (Ok tt, rl) ∧ recovered es p rl.
Proof.
  intros Hw Hd Hes Ht. pose proof (NewRaftLog_frames _ _ _ _ _ _ Hw Hd Hes Ht) as Hn.
  destruct (NewRaftLog p (calm fs)) as [r rl]. destruct Hn as (_ & -> & Hn). by exists rl.
Qed.

(** C19: an entry a leader appended to a settled WAL survives. Settled, as recovery
    and every successful operation leave it: open, the file exactly the frames of
    the cache and all of it synced. At whatever system call the append fails or the
    machine stops, the next boot recovers the log as it was or with the one new
    entry, whole; once the append has returned success it recovers the new entry,
    and the WAL is settled again; and on a working disk the append succeeds. After a
    failed append the WAL need not be settled, and later successes are then not
    durable ([torn_append_stops_recovery], [failed_fsync_revives_refused]). *)
Theorem AppendLeader_durable (rl rl' : RaftLog) (cmd : bytes) (term : Z) (r : result LogEntry) (os : Os) :
  let entry := mkLogEntry (rl_nextIndex rl) term cmd in
  settled_wal rl → storable entry → AppendLeader cmd term rl = (r, rl') →
  reboot (rl_disk rl') os → os_faults os = [] →
  (∃ l rl2, NewRaftLog (rl_walPath rl) os = (Ok tt, rl2) ∧ recovered l (rl_walPath rl) rl2 ∧
     (l = rl_cache rl ∨ l = rl_cache rl ++ [entry]) ∧ (is_Ok r = true → l = rl_cache rl')) ∧
  (is_Ok r = true → settled_wal rl') ∧
  (os_faults (rl_disk rl) = [] → os_dead (rl_disk rl) = false → is_Ok r = true).
Proof.
  intros entry Hset Hst Ha Hrb Hf.
  destruct (AppendLeader_wal _ _ _ _ _ Hset Hst Ha) as (Hp & Hrec & Hok). split; [|split].
  - destruct (is_Ok r) eqn:Hr.
    + destruct (Hok eq_refl) as [Hset' Hc]. apply settled_recoverable in Hset'. rewrite Hp in Hset'.
      destruct (reboot_recovers _ _ _ _ Hset' Hrb Hf) as (l & rl2 & Hn & Hre & ->).
      exists (rl_cache rl'), rl2. rewrite Hc in *. auto.
    + destruct (reboot_recovers _ _ _ _ Hrec Hrb Hf) as (l & rl2 & Hn & Hre & Hl). by exists l, rl2.
  - intros Hr. by apply Hok.
  - intros Hnf Hnd. pose proof (AppendLeader_calm rl (os_fs (rl_disk rl)) cmd term) as Hc.
    rewrite Ha in Hc. apply Hc; [apply Hset|]. destruct (rl_disk rl). simpl in *. by subst.
Qed.

(** C20: what a follower with a settled WAL acknowledged survives. Settled, as
    recovery and every successful operation leave it: open, the file exactly the
    frames of the cache and all of it synced. However an AppendEntries is cut short,
    conflict rewrite included, the next boot recovers a prefix of the old log
    followed by entries of the batch in order; once the batch is acknowledged it
    recovers exactly the log the acknowledgement is about, and the WAL is settled
    again. After a batch refused for a disk error the WAL need not be settled, and a
    retry can be acknowledged and lost ([retried_batch_not_durable]). *)
Theorem AppendEntriesToLog_durable (rl rl' : RaftLog) (p t : Z) (es : list LogEntry)
    (m ct ci : Z) (ok : bool) (os : Os) :
  settled_wal rl → Forall storable es → Z.of_nat (length es) < MaxInt64 →
  AppendEntriesToLog p t es rl = ((m, ct, ci, ok), rl') →
  reboot (rl_disk rl') os → os_faults os = [] →
  (∃ l rl2, NewRaftLog (rl_walPath rl) os = (Ok tt, rl2) ∧ recovered l (rl_walPath rl) rl2 ∧
     spliced (rl_cache rl) es l ∧ (ok = true → l = rl_cache rl')) ∧
  (ok = true → settled_wal rl').
Proof.
  intros Hset Hst Hmax Ha Hrb Hf.
  destruct (AppendEntriesToLog_wal _ _ _ _ _ _ Hset Hst Hmax Ha) as (Hp & Hrec & Hok).
  split; [|intros Ht; by apply Hok]. destruct ok.
  - destruct (Hok eq_refl) as [Hset' Hsp]. apply settled_recoverable in Hset'. rewrite Hp in Hset'.
    destruct (reboot_recovers _ _ _ _ Hset' Hrb Hf) as (l & rl2 & Hn & Hre & ->).
    by exists (rl_cache rl'), rl2.
  - destruct (reboot_recovers _ _ _ _ Hrec Hrb Hf) as (l & rl2 & Hn & Hre & Hl). by exists l, rl2.
Qed.

(** C32: compaction never loses the log.  However a compaction is cut short, the next
    boot recovers the whole old log or exactly the entries above the boundary;
    after success only those. *)
Theorem TruncateBeforeIndex_durable (rl rl' : RaftLog) (S T : Z) (r : result unit) (os : Os) :
  settled_wal rl → rl_firstIndex rl ≤ S →
  TruncateBeforeIndex S T rl = (r, rl') →
  reboot (rl_disk rl') os → os_faults os = [] →
  (∃ l rl2, NewRaftLog (rl_walPath rl) os = (Ok tt, rl2) ∧ recovered l (rl_walPath rl) rl2 ∧
     (l = rl_cache rl ∨ l = rl_cache rl') ∧ (r = Ok tt → l = rl_cache rl')) ∧
  rl_cache rl' = filter (λ e, S < le_Index e) (rl_cache rl) ∧
  (r = Ok tt → settled_wal rl').
Proof.
  intros Hset HS Ht Hrb Hf. pose proof Hset as (_ & Hst & Hw & _).
  unfold TruncateBeforeIndex, m_get, m_modify in Ht. unfold m_bind at 1 in Ht.
  destruct (Z.ltb_spec S (rl_firstIndex rl)); [lia|]. unfold m_bind in Ht.
  set (cut := filter (λ e, S < le_Index e) (rl_cache rl)) in *.
  pose proof (settled_recoverable _ Hset) as Hold.
  apply (rewriteWALLocked_wal (λ l, l = rl_cache rl ∨ l = cut)) in Ht as (Hlog & Hrec & Hok); simpl in *.
  - unfold logical in Hlog. injection Hlog as Hc _ _ _ _ _ Hp. rewrite Hc. split_and!; [|done|done].
    destruct r as [[]|er].
    + pose proof (settled_recoverable _ (Hok eq_refl)) as Hr. rewrite Hp, Hc in Hr.
      destruct (reboot_recovers _ _ _ _ Hr Hrb Hf) as (l & rl2 & Hn & Hre & ->).
      exists cut, rl2. auto.
    + destruct (reboot_recovers _ _ _ _ Hrec Hrb Hf) as (l & rl2 & Hn & Hre & Hl). by exists l, rl2.
  - done.
  - by apply Forall_filter.
  - eapply recoverable_mono; [exact Hold|]. intros l ->. by left.
  - by right.
Qed.

End Disk.
