(* ===== verification/WorkingDisk.v ===== *)
(** * What a working disk does

    A disk that refuses no call: a small total-correctness calculus for programs
    over the file system, and the programs that then always succeed.  With the
    crash theorems, which say what an operation leaves when it is cut short, this
    says that nothing but the disk makes it fail. *)

From S2P Require Import Prelude Os FsUtil Types RaftLog RaftLogFacts RaftLogDisk.

Definition working (os : Os) : Prop := os_faults os = [] ∧ os_dead os = false.

Lemma working_calm os : working os → os = calm (os_fs os).
Proof. destruct os. intros [Hf Hd]. simpl in *. by subst. Qed.

Lemma calm_working fs : working (calm fs).
Proof. done. Qed.

(** [completes P m Q]: started on a working disk with [P], [m] returns a value and
    a working disk with [Q]. *)
Definition completes {A} (P : Fs → Prop) (m : io A) (Q : A → Fs → Prop) : Prop :=
  ∀ os, working os → P (os_fs os) → ∃ a os', m os = (Ok a, os') ∧ working os' ∧ Q a (os_fs os').

Lemma completes_bind {A B} P Q R (m : io A) (k : A → io B) :
  completes P m Q → (∀ a, completes (Q a) (k a) R) → completes P (m_bind m k) R.
Proof.
  intros Hm Hk os Hw HP. destruct (Hm os Hw HP) as (a & os1 & H1 & Hw1 & HQ).
  destruct (Hk a os1 Hw1 HQ) as (b & os2 & H2 & ? & ?). exists b, os2.
  unfold m_bind. by rewrite H1, H2.
Qed.

Lemma completes_wrap {A} P Q msg (m : io A) : completes P m Q → completes P (m_wrap msg m) Q.
Proof.
  intros Hm os Hw HP. destruct (Hm os Hw HP) as (a & os1 & H1 & ? & ?). exists a, os1.
  unfold m_wrap. by rewrite H1.
Qed.

Lemma completes_on_error {A} P Q (m : io A) c : completes P m Q → completes P (m_on_error m c) Q.
Proof.
  intros Hm os Hw HP. destruct (Hm os Hw HP) as (a & os1 & H1 & ? & ?). exists a, os1.
  unfold m_on_error. by rewrite H1.
Qed.

Lemma completes_post {A} P Q Q' (m : io A) : completes P m Q → (∀ a fs, Q a fs → Q' a fs) → completes P m Q'.
Proof. intros Hm HQ os Hw HP. destruct (Hm os Hw HP) as (a & os' & ? & ? & ?). exists a, os'. eauto. Qed.

Lemma completes_ret {A} (P : Fs → Prop) (Q : A → Fs → Prop) a : (∀ fs, P fs → Q a fs) → completes P (m_ret a) Q.
Proof. intros Hq os Hw HP. exists a, os. split_and!; auto. Qed.

Lemma completes_syscall {A} (P : Fs → Prop) (Q : A → Fs → Prop) partial (act : Fs → result A * Fs) :
  (∀ fs, P fs → ∃ a fs', act fs = (Ok a, fs') ∧ Q a fs') → completes P (syscall partial act) Q.
Proof.
  intros Ha os [Hf Hd] HP. destruct (Ha _ HP) as (a & fs' & He & HQ).
  exists a, (mkOs fs' [] false). rewrite syscall_no_faults by done. by rewrite He.
Qed.

(** ** Calls that keep a name bound *)

(** [t] names inode [i]. *)
Definition bound (t : string) (i : nat) (fs : Fs) : Prop := fs_dir fs !! t = Some i.

Lemma OpenTrunc_completes t : completes (λ _, True) (os_OpenTrunc t) (bound t).
Proof.
  apply completes_syscall. intros fs _. destruct (fs_dir fs !! t) as [i|] eqn:Ht; eexists _, _; split; try done.
  unfold bound, fs_create, fs_rebind. simpl. by rewrite lookup_insert_eq.
Qed.

Lemma OpenFile_completes p : completes (λ _, True) (os_OpenFile p) (bound p).
Proof.
  apply completes_syscall. intros fs _. destruct (fs_dir fs !! p) as [i|] eqn:Hp; eexists _, _; split; try done.
  unfold bound, fs_create, fs_rebind. simpl. by rewrite lookup_insert_eq.
Qed.

Lemma Write_completes t i f bs : completes (bound t i) (file_Write f bs) (λ _, bound t i).
Proof. apply completes_syscall. intros fs Hb. by eexists _, _. Qed.

Lemma Sync_completes t i f : completes (bound t i) (file_Sync f) (λ _, bound t i).
Proof. apply completes_syscall. intros fs Hb. by eexists _, _. Qed.

Lemma Close_completes P f : completes P (file_Close f) (λ _, P).
Proof. apply completes_syscall. intros fs Hb. by eexists _, _. Qed.

Lemma Rename_completes a b i : completes (bound a i) (os_Rename a b) (λ _ _, True).
Proof. apply completes_syscall. intros fs Hb. unfold bound in Hb. rewrite Hb. by eexists _, _. Qed.

Create HintDb completes discriminated.
#[export] Hint Resolve completes_bind completes_wrap completes_on_error OpenTrunc_completes OpenFile_completes
  Write_completes Sync_completes Close_completes Rename_completes : completes.

Lemma SyncDir_completes : completes (λ _, True) SyncDir (λ _ _, True).
Proof.
  eapply completes_bind with (Q := λ _ _, True); [|intros _]; apply completes_wrap;
    apply completes_syscall; intros; by eexists _, _.
Qed.
#[export] Hint Resolve SyncDir_completes : completes.

Lemma WriteFileAtomic_completes path data :
  completes (λ _, True) (WriteFileAtomic path data) (λ _ _, True).
Proof.
  unfold WriteFileAtomic. eapply completes_bind; [eauto with completes|]. intros f.
  do 4 (eapply completes_bind; [eauto with completes|]; intros ?). eauto with completes.
Qed.

(** ** The WAL *)

Section Wal.
Context `{Codec LogEntry}.

Lemma write_entries_completes t i f es : completes (bound t i) (write_entries f es) (λ _, bound t i).
Proof.
  induction es as [|e es IH]; [by apply completes_ret|].
  eapply completes_bind; [|intros; exact IH]. apply completes_on_error.
  eapply completes_bind; [eauto with completes|]. intros ?. eauto with completes.
Qed.

Lemma stage_rewrite_completes t es : completes (λ _, True) (stage_rewrite t es) (λ _ fs, ∃ i, bound t i fs).
Proof.
  eapply completes_bind; [eauto with completes|]. intros i.
  eapply completes_bind; [apply write_entries_completes|]. intros ?.
  eapply completes_bind; [eauto with completes|]. intros ?.
  eapply completes_post; [eauto with completes|]. intros ? fs Hb. by exists i.
Qed.

(** On a log whose disk works. *)
Lemma on_disk_completes {A} P Q (m : io A) rl :
  completes P m Q → working (rl_disk rl) → P (os_fs (rl_disk rl)) →
  ∃ a os, on_disk m rl = (Ok a, set_disk os rl) ∧ working os ∧ Q a (os_fs os).
Proof.
  intros Hm Hw HP. destruct (Hm _ Hw HP) as (a & os & He & ? & ?). exists a, os.
  unfold on_disk. by rewrite He.
Qed.

Lemma rewriteWALLocked_completes rl :
  rl_walOpen rl = true → working (rl_disk rl) →
  ∃ rl', rewriteWALLocked rl = (Ok tt, rl') ∧ working (rl_disk rl').
Proof.
  intros Hopen Hw. unfold rewriteWALLocked, m_get. unfold m_bind at 1.
  destruct (on_disk_completes _ _ _ _ (stage_rewrite_completes (rl_walPath rl +:+ ".rewrite") (rl_cache rl)) Hw I)
    as ([] & os1 & H1 & Hw1 & i & Hb1).
  unfold m_bind at 1. rewrite H1. unfold m_bind at 1, m_wrap at 1, close_wal, on_wal.
  cbn [rl_walOpen set_disk]. rewrite Hopen.
  destruct (on_disk_completes _ _ _ (set_disk os1 rl) (Close_completes _ (rl_walFile rl)) Hw1 Hb1)
    as ([] & os2 & H2 & Hw2 & Hb2).
  change (rl_walFile (set_disk os1 rl)) with (rl_walFile rl). rewrite H2.
  set (rl2 := set_walFile _ _ _).
  destruct (on_disk_completes _ _ _ rl2 (completes_wrap _ _ "rename WAL rewrite into place" _ (Rename_completes _ (rl_walPath rl) i)) Hw2 Hb2)
    as ([] & os3 & H3 & Hw3 & _).
  unfold m_bind at 1. rewrite H3.
  destruct (on_disk_completes _ _ _ (set_disk os3 rl2) (completes_wrap _ _ "fsync WAL directory after rewrite" _ SyncDir_completes) Hw3 I)
    as ([] & os4 & H4 & Hw4 & _).
  unfold m_bind at 1. rewrite H4.
  destruct (on_disk_completes _ _ _ (set_disk os4 (set_disk os3 rl2))
    (completes_wrap _ _ "reopen WAL after rewrite" _ (OpenFile_completes (rl_walPath rl))) Hw4 I)
    as (f & os5 & H5 & Hw5 & _).
  unfold m_bind. rewrite H5. eexists. split; [done|]. exact Hw5.
Qed.

Lemma RestoreOffset_completes i t rl :
  rl_walOpen rl = true → working (rl_disk rl) → ∃ rl', RestoreOffset i t rl = (Ok tt, rl').
Proof.
  intros Hopen Hw. unfold RestoreOffset, m_get, m_modify. unfold m_bind at 1 2. cbn [rl_cache set_boundary].
  case_decide; [by eexists|]. destruct (keep_contiguous _ _) as [kept next]. unfold m_bind.
  case_match; [by eexists|].
  edestruct rewriteWALLocked_completes as (rl' & Hr & _); [| |exists rl'; exact Hr]; done.
Qed.

End Wal.
