(* ===== verification/RaftNode.v ===== *)
(** * The consensus state of one node (internal/raft/node.go)

    [RaftNode] and its methods.  Every method runs under [rn.mu], so each is one
    atomic step; methods that may fail carry the node they reached.  The durable
    half of the state goes through the [StateStore] interface, as in the source,
    and the node acts on a term or vote only after [Save] succeeds.  Wall-clock
    readings are arguments: one instant [now] per critical section. *)

From S2P Require Import Prelude Configuration Os FsUtil Types RaftLog.

(** ** The durability seam ([stateStore]) *)

Class StateStore (S : Type) := {
  Load : S → result (option PersistentState) * S;
  Save : PersistentState → S → result unit * S;
}.
#[global] Hint Mode StateStore ! : typeclass_instances.

(** What a node may rely on.  [may_load s p]: after a crash in state [s], a reload
    may return [p] ([None]: nothing was ever stored).  A failed [Save] leaves the
    old record or the new one; a successful one leaves only the new one.  A store
    is settled when nothing is pending, as on the disk a machine boots from: what
    [Load] returns there is what any later load returns. *)
Class StateStoreLaws (S : Type) `{StateStore S} := {
  ss_inv : S → Prop;
  may_load : S → option PersistentState → Prop;
  ss_reboot : S → S → Prop;
  ss_settled : S → Prop;
  Save_inv : ∀ ps s r s', ss_inv s → Save ps s = (r, s') → ss_inv s';
  Save_may : ∀ ps s r s' p, ss_inv s → Save ps s = (r, s') →
    may_load s' p → may_load s p ∨ p = Some ps;
  Save_durable : ∀ ps s s' p, ss_inv s → Save ps s = (Ok tt, s') →
    may_load s' p → p = Some ps;
  reboot_inv : ∀ s s', ss_inv s → ss_reboot s s' → ss_inv s';
  reboot_may : ∀ s s' p, ss_inv s → ss_reboot s s' → may_load s' p → may_load s p;
  Load_inv : ∀ s r s', ss_inv s → Load s = (r, s') → ss_inv s';
  Load_may : ∀ s r s' p, ss_inv s → Load s = (r, s') → may_load s' p → may_load s p;
  reboot_settled : ∀ s s', ss_inv s → ss_reboot s s' → ss_settled s';
  Load_sound : ∀ s p s', ss_inv s → ss_settled s → Load s = (Ok p, s') →
    may_load s p ∧ ∀ p', may_load s' p' → p' = p;
}.

(** ** Time *)

(** [time.Since(t)] at instant [now]: a duration, saturated to 64 bits. *)
Definition time_Since (now t : Z) : Z := Z.max MinInt64 (Z.min MaxInt64 (now - t)).

Definition Millisecond : Z := 1000000.

Definition DefaultMinElectionTimeout : Z := 300 * Millisecond.

(** ** State *)

Section Node.
Context {S : Type}.

Record RaftNode := mkRaftNode {
  rn_nodeID : Z;
  rn_config : Configuration;
  rn_Role : NodeRole;
  rn_LeaderID : Z;
  rn_CommitIndex : Z;
  rn_LastApplied : Z;
  rn_lastContact : Z;
  rn_votesFrom : gomap bool;
  rn_minElectionTimeout : Z;
  rn_NextIndex : gmap Z Z;
  rn_MatchIndex : gmap Z Z;
  rn_persistent : PersistentState;
  rn_store : S;
}.

Definition set_role (r : NodeRole) (l : Z) (rn : RaftNode) : RaftNode :=
  mkRaftNode (rn_nodeID rn) (rn_config rn) r l (rn_CommitIndex rn) (rn_LastApplied rn)
    (rn_lastContact rn) (rn_votesFrom rn) (rn_minElectionTimeout rn) (rn_NextIndex rn)
    (rn_MatchIndex rn) (rn_persistent rn) (rn_store rn).

Definition set_commit (c a : Z) (rn : RaftNode) : RaftNode :=
  mkRaftNode (rn_nodeID rn) (rn_config rn) (rn_Role rn) (rn_LeaderID rn) c a
    (rn_lastContact rn) (rn_votesFrom rn) (rn_minElectionTimeout rn) (rn_NextIndex rn)
    (rn_MatchIndex rn) (rn_persistent rn) (rn_store rn).

Definition set_contact (t : Z) (rn : RaftNode) : RaftNode :=
  mkRaftNode (rn_nodeID rn) (rn_config rn) (rn_Role rn) (rn_LeaderID rn) (rn_CommitIndex rn)
    (rn_LastApplied rn) t (rn_votesFrom rn) (rn_minElectionTimeout rn) (rn_NextIndex rn)
    (rn_MatchIndex rn) (rn_persistent rn) (rn_store rn).

Definition set_votes (v : gomap bool) (rn : RaftNode) : RaftNode :=
  mkRaftNode (rn_nodeID rn) (rn_config rn) (rn_Role rn) (rn_LeaderID rn) (rn_CommitIndex rn)
    (rn_LastApplied rn) (rn_lastContact rn) v (rn_minElectionTimeout rn) (rn_NextIndex rn)
    (rn_MatchIndex rn) (rn_persistent rn) (rn_store rn).

Definition set_minElectionTimeout (d : Z) (rn : RaftNode) : RaftNode :=
  mkRaftNode (rn_nodeID rn) (rn_config rn) (rn_Role rn) (rn_LeaderID rn) (rn_CommitIndex rn)
    (rn_LastApplied rn) (rn_lastContact rn) (rn_votesFrom rn) d (rn_NextIndex rn)
    (rn_MatchIndex rn) (rn_persistent rn) (rn_store rn).

Definition set_progress (next match_ : gmap Z Z) (rn : RaftNode) : RaftNode :=
  mkRaftNode (rn_nodeID rn) (rn_config rn) (rn_Role rn) (rn_LeaderID rn) (rn_CommitIndex rn)
    (rn_LastApplied rn) (rn_lastContact rn) (rn_votesFrom rn) (rn_minElectionTimeout rn) next match_
    (rn_persistent rn) (rn_store rn).

Definition set_persistent (p : PersistentState) (s : S) (rn : RaftNode) : RaftNode :=
  mkRaftNode (rn_nodeID rn) (rn_config rn) (rn_Role rn) (rn_LeaderID rn) (rn_CommitIndex rn)
    (rn_LastApplied rn) (rn_lastContact rn) (rn_votesFrom rn) (rn_minElectionTimeout rn)
    (rn_NextIndex rn) (rn_MatchIndex rn) p s.

Definition rn_term (rn : RaftNode) : Z := CurrentTerm (rn_persistent rn).

(** ** Accessors *)

Definition IsLeader (rn : RaftNode) : bool := bool_decide (rn_Role rn = Leader).

Definition rn_CurrentTerm (rn : RaftNode) : Z := rn_term rn.

Definition State (rn : RaftNode) : NodeRole * Z := (rn_Role rn, rn_term rn).

Definition NodeID (rn : RaftNode) : Z := rn_nodeID rn.

Definition SetMinElectionTimeout (d : Z) (rn : RaftNode) : RaftNode :=
  if d <=? 0 then rn else set_minElectionTimeout d rn.

Definition CurrentLeader (rn : RaftNode) : Z := rn_LeaderID rn.

Definition TimeSinceContact (now : Z) (rn : RaftNode) : Z := time_Since now (rn_lastContact rn).

Definition noteContact (now : Z) (rn : RaftNode) : RaftNode := set_contact now rn.

Definition Config (rn : RaftNode) : Configuration := Clone (rn_config rn).

Definition ClusterSize (rn : RaftNode) : Z := gm_len (Voters (rn_config rn)).

Definition NodeHasQuorum (have : gomap bool) (rn : RaftNode) : bool := HasQuorum (rn_config rn) have.

Definition NodePeers (rn : RaftNode) : gmap Z string := Peers (rn_config rn) (rn_nodeID rn).

Definition CommitAndApplyBoundary (rn : RaftNode) : Z * Z := (rn_CommitIndex rn, rn_LastApplied rn).

(** ** Replication progress *)

Definition UpdatePeerProgress (peerID matchIndex : Z) (rn : RaftNode) : RaftNode :=
  match rn_MatchIndex rn !! peerID with
  | None => rn
  | Some known =>
      let match_ := if known <? matchIndex then <[peerID := matchIndex]> (rn_MatchIndex rn)
                    else rn_MatchIndex rn in
      let next := if gm_int (rn_NextIndex rn) peerID <? matchIndex +! 1
                  then <[peerID := matchIndex +! 1]> (rn_NextIndex rn)
                  else rn_NextIndex rn in
      set_progress next match_ rn
  end.

Definition NextIndexFor (peerID : Z) (rn : RaftNode) : Z :=
  let ni := gm_int (rn_NextIndex rn) peerID in
  if ni <? 1 then 1 else ni.

Definition BacktrackNextIndex (peerID conflictIndex : Z) (rn : RaftNode) : RaftNode :=
  let current := gm_int (rn_NextIndex rn) peerID in
  let next :=
    if (0 <? conflictIndex) && (conflictIndex <? current) then conflictIndex
    else current -! 1 in
  let next := if next <? 1 then 1 else next in
  set_progress (<[peerID := next]> (rn_NextIndex rn)) (rn_MatchIndex rn) rn.

Definition AdvanceCommitIndex (localLatestIndex : Z) (termAt : Z → Z) (currentTerm : Z)
    (rn : RaftNode) : (Z * bool) * RaftNode :=
  if bool_decide (rn_Role rn ≠ Leader) then ((rn_CommitIndex rn, false), rn)
  else
    let match_ := <[rn_nodeID rn := localLatestIndex]> (rn_MatchIndex rn) in
    let quorumIndex := QuorumIndex (rn_config rn) match_ in
    if (rn_CommitIndex rn <? quorumIndex) && (termAt quorumIndex =? currentTerm) then
      ((quorumIndex, true), set_commit quorumIndex (rn_LastApplied rn) rn)
    else ((rn_CommitIndex rn, false), rn).

(** ** Commit and apply boundaries *)

Definition setFollowerCommitIndexLocked (leaderCommit latestLogIndex : Z) (rn : RaftNode) : RaftNode :=
  let newCommit := if latestLogIndex <? leaderCommit then latestLogIndex else leaderCommit in
  if rn_CommitIndex rn <? newCommit then set_commit newCommit (rn_LastApplied rn) rn else rn.

Definition SetFollowerCommitIndex (leaderCommit latestLogIndex : Z) (rn : RaftNode) : RaftNode :=
  setFollowerCommitIndexLocked leaderCommit latestLogIndex rn.

Definition AdvanceLastApplied (rn : RaftNode) : Z * RaftNode :=
  let a := rn_LastApplied rn +! 1 in (a, set_commit (rn_CommitIndex rn) a rn).

Definition seedFromSnapshotLocked (lastIncludedIndex : Z) (rn : RaftNode) : RaftNode :=
  set_commit (if rn_CommitIndex rn <? lastIncludedIndex then lastIncludedIndex else rn_CommitIndex rn)
             (if rn_LastApplied rn <? lastIncludedIndex then lastIncludedIndex else rn_LastApplied rn) rn.

Definition SeedFromSnapshot (lastIncludedIndex : Z) (rn : RaftNode) : RaftNode :=
  seedFromSnapshotLocked lastIncludedIndex rn.

(** ** Persistence and role changes *)

Context `{StateStore S}.

Definition commitPersistentLocked (next : PersistentState) (rn : RaftNode) : result unit * RaftNode :=
  if bool_decide (next = rn_persistent rn) then (Ok tt, rn)
  else
    match Save next (rn_store rn) with
    | (Err e, s) => (Err e, set_persistent (rn_persistent rn) s rn)
    | (Ok _, s) => (Ok tt, set_persistent next s rn)
    end.

Definition becomeFollowerLocked (term leaderID : Z) (rn : RaftNode) : result unit * RaftNode :=
  let next := if CurrentTerm (rn_persistent rn) <? term then mkPersistentState term (-1)
              else rn_persistent rn in
  match commitPersistentLocked next rn with
  | (Err e, rn') => (Err ("persist follower state: " +:+ e)%string, rn')
  | (Ok _, rn') => (Ok tt, set_role Follower leaderID rn')
  end.

Definition BecomeFollower (term leaderID : Z) (rn : RaftNode) : result unit * RaftNode :=
  becomeFollowerLocked term leaderID rn.

Definition BecomeCandidate (now : Z) (rn : RaftNode) : result Z * RaftNode :=
  let next := mkPersistentState (CurrentTerm (rn_persistent rn) +! 1) (rn_nodeID rn) in
  match commitPersistentLocked next rn with
  | (Err e, rn') => (Err ("persist candidate state: " +:+ e)%string, rn')
  | (Ok _, rn1) =>
      let rn2 := set_contact now
                   (set_votes (Some {[rn_nodeID rn1 := true]}) (set_role Candidate 0 rn1)) in
      (Ok (CurrentTerm (rn_persistent rn2)), rn2)
  end.

Definition RecordVoteAndCheckMajority (voterID voteTerm : Z) (rn : RaftNode) : bool * RaftNode :=
  if bool_decide (rn_Role rn ≠ Candidate) || negb (voteTerm =? CurrentTerm (rn_persistent rn))
  then (false, rn)
  else
    let votes := match rn_votesFrom rn with
                 | None => {[rn_nodeID rn := true]}
                 | Some v => v
                 end in
    let rn' := set_votes (Some (<[voterID := true]> votes)) rn in
    (HasQuorum (rn_config rn') (rn_votesFrom rn'), rn').

Definition BecomeLeader (electionTerm lastLogIndex : Z) (rn : RaftNode) : bool * RaftNode :=
  if bool_decide (rn_Role rn ≠ Candidate) || negb (CurrentTerm (rn_persistent rn) =? electionTerm)
  then (false, rn)
  else
    let peers := Peers (rn_config rn) (rn_nodeID rn) in
    (true, set_progress ((λ _, lastLogIndex +! 1) <$> peers) ((λ _, 0) <$> peers)
             (set_role Leader (rn_nodeID rn) rn)).

(** ** Vote receivers *)

Definition candidateUpToDate (candTerm candIndex voterTerm voterIndex : Z) : bool :=
  if negb (candTerm =? voterTerm) then voterTerm <? candTerm else voterIndex <=? candIndex.

(** The section 6 stickiness test shared by both vote receivers. *)
Definition leader_is_live (now : Z) (rn : RaftNode) : bool :=
  negb (rn_LeaderID rn =? 0) && (time_Since now (rn_lastContact rn) <? rn_minElectionTimeout rn).

Definition HandleRequestVote (req : RequestVoteRequest) (lastLogState : Z * Z) (now : Z)
    (rn : RaftNode) : RequestVoteResponse * RaftNode :=
  let '(myLastIndex, myLastTerm) := lastLogState in
  if rv_Term req <? CurrentTerm (rn_persistent rn) then
    (mkRequestVoteResponse (CurrentTerm (rn_persistent rn)) false, rn)
  else if leader_is_live now rn then
    (mkRequestVoteResponse (CurrentTerm (rn_persistent rn)) false, rn)
  else
    let steppedUp := CurrentTerm (rn_persistent rn) <? rv_Term req in
    let next := if steppedUp then mkPersistentState (rv_Term req) (-1) else rn_persistent rn in
    let alreadyVoted := negb (VotedFor next =? -1) && negb (VotedFor next =? rv_CandidateID req) in
    let upToDate := candidateUpToDate (rv_LastLogTerm req) (rv_LastLogIndex req) myLastTerm myLastIndex in
    let grant := negb alreadyVoted && upToDate in
    let next := if grant then mkPersistentState (CurrentTerm next) (rv_CandidateID req) else next in
    match commitPersistentLocked next rn with
    | (Err _, rn') => (mkRequestVoteResponse (CurrentTerm (rn_persistent rn')) false, rn')
    | (Ok _, rn1) =>
        let rn2 := if steppedUp then set_role Follower 0 rn1 else rn1 in
        if negb grant then (mkRequestVoteResponse (CurrentTerm (rn_persistent rn2)) false, rn2)
        else
          let rn3 := set_contact now rn2 in
          (mkRequestVoteResponse (CurrentTerm (rn_persistent rn3)) true, rn3)
    end.

Definition HandlePreVote (req : PreVoteRequest) (lastLogState : Z * Z) (now : Z)
    (rn : RaftNode) : PreVoteResponse :=
  let term := CurrentTerm (rn_persistent rn) in
  if leader_is_live now rn then mkPreVoteResponse term false
  else if pv_Term req <=? term then mkPreVoteResponse term false
  else
    let '(myLastIndex, myLastTerm) := lastLogState in
    mkPreVoteResponse term
      (candidateUpToDate (pv_LastLogTerm req) (pv_LastLogIndex req) myLastTerm myLastIndex).

(** ** Log receivers *)

Context `{Codec LogEntry}.

(** The step-down prologue shared by the two receivers: accept the sender's
    authority, persisting a newer term first. *)
Definition accept_leader (term leaderID : Z) (rn : RaftNode) : result unit * RaftNode :=
  if (CurrentTerm (rn_persistent rn) <? term) || bool_decide (rn_Role rn ≠ Follower)
  then becomeFollowerLocked term leaderID rn
  else (Ok tt, set_role (rn_Role rn) leaderID rn).

Definition HandleAppendEntries (rl : RaftLog) (req : AppendEntriesRequest) (now : Z)
    (rn : RaftNode) : AppendEntriesResponse * RaftNode * RaftLog :=
  let currentTerm := CurrentTerm (rn_persistent rn) in
  if ae_Term req <? currentTerm then (mkAppendEntriesResponse currentTerm false 0 0 0, rn, rl)
  else
    match accept_leader (ae_Term req) (ae_LeaderID req) rn with
    | (Err _, rn1) => (mkAppendEntriesResponse currentTerm false 0 0 0, rn1, rl)
    | (Ok _, rn1) =>
        let currentTerm := CurrentTerm (rn_persistent rn1) in
        let rn2 := set_contact now rn1 in
        match AppendEntriesToLog (ae_PrevLogIndex req) (ae_PrevLogTerm req) (ae_Entries req) rl with
        | ((_, conflictTerm, conflictIndex, false), rl') =>
            (mkAppendEntriesResponse currentTerm false 0 conflictTerm conflictIndex, rn2, rl')
        | ((matchIndex, _, _, true), rl') =>
            (mkAppendEntriesResponse currentTerm true matchIndex 0 0,
             setFollowerCommitIndexLocked (ae_LeaderCommit req) matchIndex rn2, rl')
        end
    end.

(** The [restore] and [persist] callbacks act on the caller's state [X] and on the
    disk they share with the log. *)
Definition HandleInstallSnapshot {X} (rl : RaftLog) (req : InstallSnapshotRequest)
    (restore : bytes → M (X * Os) unit) (persist : M (X * Os) unit) (now : Z) (rn : RaftNode) (x : X)
    : InstallSnapshotResponse * RaftNode * RaftLog * X :=
  let currentTerm := CurrentTerm (rn_persistent rn) in
  if is_Term req <? currentTerm then (mkInstallSnapshotResponse currentTerm false, rn, rl, x)
  else
    match accept_leader (is_Term req) (is_LeaderID req) rn with
    | (Err _, rn1) => (mkInstallSnapshotResponse currentTerm false, rn1, rl, x)
    | (Ok _, rn1) =>
        let currentTerm := CurrentTerm (rn_persistent rn1) in
        let rn2 := set_contact now rn1 in
        if is_LastIncludedIndex req <=? FirstIndex rl -! 1 then
          (mkInstallSnapshotResponse currentTerm true, rn2, rl, x)
        else
          match restore (is_Data req) (x, rl_disk rl) with
          | (Err _, (x1, os1)) => (mkInstallSnapshotResponse currentTerm false, rn2, set_disk os1 rl, x1)
          | (Ok _, (x1, os1)) =>
              match persist (x1, os1) with
              | (Err _, (x2, os2)) => (mkInstallSnapshotResponse currentTerm false, rn2, set_disk os2 rl, x2)
              | (Ok _, (x2, os2)) =>
                  let rn3 := seedFromSnapshotLocked (is_LastIncludedIndex req) rn2 in
                  match ResetToSnapshot (is_LastIncludedIndex req) (is_LastIncludedTerm req) (set_disk os2 rl) with
                  | (Err _, rl') => (mkInstallSnapshotResponse currentTerm false, rn3, rl', x2)
                  | (Ok _, rl') => (mkInstallSnapshotResponse currentTerm true, rn3, rl', x2)
                  end
              end
          end
    end.

(** [snapshotFloor]: the follower's compaction boundary. *)
Definition snapshotFloor (rl : RaftLog) : Z := FirstIndex rl -! 1.

(** ** Construction *)

Definition loadPersistentState (rn : RaftNode) : result unit * RaftNode :=
  match Load (rn_store rn) with
  | (Err e, s) => (Err e, set_persistent (rn_persistent rn) s rn)
  | (Ok None, s) =>
      let '(r, s') := Save (rn_persistent rn) s in
      (r, set_persistent (rn_persistent rn) s' rn)
  | (Ok (Some ps), s) => (Ok tt, set_persistent ps s rn)
  end.

Definition NewRaftNode (nodeID : Z) (config : Configuration) (store : S) (initialRole : NodeRole)
    (now : Z) : result RaftNode * S :=
  match Validate config with
  | Some e => (Err ("initial configuration: " +:+ e)%string, store)
  | None =>
      let peers := Peers config nodeID in
      let rn := mkRaftNode nodeID (Clone config) initialRole 0 0 0 now None DefaultMinElectionTimeout
                  ((λ _, 1) <$> peers) ((λ _, 0) <$> peers) (mkPersistentState 0 (-1)) store in
      match loadPersistentState rn with
      | (Err e, rn') => (Err e, rn_store rn')
      | (Ok _, rn') => (Ok rn', rn_store rn')
      end
  end.

End Node.
Arguments RaftNode S : clear implicits.
