(* ===== verification/Snapshot.v ===== *)
(** * Snapshot files and startup recovery (internal/store/snapshot.go, main.go)

    The snapshot file wraps the state machine's own bytes with the index and term
    they cover; it is replaced with WriteFileAtomic, so a crash leaves the old
    snapshot or the new one.  [restoreFromSnapshot] is the startup sequence that
    brings the state machine, the log boundary and the node's boundaries back in
    step with it. *)

From stdpp Require Import pretty.
From S2P Require Import Prelude Configuration Os Json FsUtil Types Encoding RaftLog RaftLogFacts RaftNode StateMachine.

Record SnapshotMeta := mkSnapshotMeta { LastIncludedIndex : Z; LastIncludedTerm : Z }.

(** [State] is the raw JSON text of the member. *)
Record SnapshotFile := mkSnapshotFile { sf_Meta : SnapshotMeta; sf_State : bytes }.

Definition SnapshotMeta_names : list bytes :=
  map str ["last_included_index"; "last_included_term"]%string.

Definition SnapshotMeta_to_json (m : SnapshotMeta) : json :=
  JObj [(str "last_included_index", JNum (LastIncludedIndex m));
        (str "last_included_term", JNum (LastIncludedTerm m))].

Definition SnapshotMeta_of_json (v : option json) : result SnapshotMeta :=
  m <-? members (default JNull v) ;;
  x <-? dec_int64 (jget SnapshotMeta_names (str "last_included_index") m None) ;;
  y <-? dec_int64 (jget SnapshotMeta_names (str "last_included_term") m None) ;;
  Ok (mkSnapshotMeta x y).

Definition SnapshotFile_names : list bytes := map str ["meta"; "state"]%string.

(** [json.Marshal(SnapshotFile{...})]: a raw message is validated and compacted. *)
Definition MarshalSnapshotFile (sf : SnapshotFile) : result bytes :=
  j <-? parse (sf_State sf) ;;
  Ok (render (JObj [(str "meta", SnapshotMeta_to_json (sf_Meta sf)); (str "state", j)])).

Definition UnmarshalSnapshotFile (data : bytes) : result SnapshotFile :=
  j <-? parse data ;;
  m <-? members j ;;
  meta <-? SnapshotMeta_of_json (jget SnapshotFile_names (str "meta") m None) ;;
  Ok (mkSnapshotFile meta
        (match jget SnapshotFile_names (str "state") m None with Some v => render v | None => [] end)).

(** ** SnapshotManager *)

Definition Write (path : string) (meta : SnapshotMeta) (stateMachine : MemoryStateMachine) : io unit :=
  match Snapshot stateMachine with
  | Err e => m_fail ("snapshot state machine: " +:+ e)%string
  | Ok raw =>
      match MarshalSnapshotFile (mkSnapshotFile meta raw) with
      | Err e => m_fail ("marshal snapshot: " +:+ e)%string
      | Ok data => m_wrap "persist snapshot" (WriteFileAtomic path data)
      end
  end.

(** [None]: no snapshot yet. *)
Definition Read (path : string) : io (option SnapshotFile) :=
  data <-- m_wrap "read snapshot" (os_ReadFile path) ;;
  match data with
  | None => m_ret None
  | Some data =>
      match UnmarshalSnapshotFile data with
      | Err e => m_fail ("parse snapshot: " +:+ e)%string
      | Ok sf => m_ret (Some sf)
      end
  end.

Definition EncodeState (sf : SnapshotFile) : result bytes :=
  if decide (sf_State sf = []) then Err ("snapshot at index " +:+ pretty (LastIncludedIndex (sf_Meta sf)) +:+ " has no state")%string else Ok (sf_State sf).

(** ** What a snapshot file means *)

(** The file contents [Write] produces. *)
Definition snapshot_text (meta : SnapshotMeta) (m : MemoryStateMachine) : bytes :=
  render (JObj [(str "meta", SnapshotMeta_to_json meta); (str "state", machineState_to_json m)]).

Lemma Write_text path meta m :
  Write path meta m = m_wrap "persist snapshot" (WriteFileAtomic path (snapshot_text meta m)).
Proof.
  unfold Write, Snapshot, MarshalSnapshotFile, snapshot_text. cbn [sf_State sf_Meta].
  by rewrite parse_render_ok.
Qed.

Lemma Unmarshal_snapshot_text meta m :
  int64 (LastIncludedIndex meta) → int64 (LastIncludedTerm meta) →
  UnmarshalSnapshotFile (snapshot_text meta m)
  = Ok (mkSnapshotFile meta (render (machineState_to_json m))).
Proof.
  intros Hi Ht. unfold UnmarshalSnapshotFile, snapshot_text. rewrite parse_render_ok.
  unfold SnapshotFile_names. cbn [rbind members].
  generalize (machineState_to_json m). intros j.
  json_fields. unfold SnapshotMeta_of_json, SnapshotMeta_to_json, SnapshotMeta_names. unfold default.
  unfold id. json_fields. by destruct meta.
Qed.

(** A snapshot of [m] at [meta] is the only thing a crash can leave at [path]. *)
Definition snapshot_on_disk (fs : Fs) (path : string) (meta : SnapshotMeta) (m : MemoryStateMachine) : Prop :=
  crash_only fs path (Some (snapshot_text meta m)).

(** C35: a snapshot write is atomic and durable.  However the write is interrupted,
    a later boot finds what it could have found before or the complete new
    snapshot; after success only the new one, and it decodes to the metadata and
    to bytes from which any machine with the same session lifetime restores to
    exactly the machine that was captured. *)
Theorem snapshot_durable (path : string) (meta : SnapshotMeta) (m m0 : MemoryStateMachine)
    (os os' : Os) (r : result unit) :
  fs_wf (os_fs os) → machine_ok m → sm_sessionTTL m0 = sm_sessionTTL m →
  int64 (LastIncludedIndex meta) → int64 (LastIncludedTerm meta) →
  Write path meta m os = (r, os') →
  (∀ c, crash_content (os_fs os') path c →
     crash_content (os_fs os) path c ∨ c = Some (snapshot_text meta m)) ∧
  (r = Ok tt →
     snapshot_on_disk (os_fs os') path meta m ∧
     ∃ sf, UnmarshalSnapshotFile (snapshot_text meta m) = Ok sf ∧ sf_Meta sf = meta ∧
       ∃ raw, EncodeState sf = Ok raw ∧ Restore raw m0 = (Ok tt, m)).
Proof.
  intros Hwf Hok Httl Hi Ht Hw. rewrite Write_text in Hw.
  apply m_wrap_inv in Hw as (r1 & Hw & Hr).
  apply WriteFileAtomic_spec in Hw as [[_ _ Hc _] Hd]; [|done]. split; [exact Hc|].
  intros ->. destruct r1 as [[]|]; [|by destruct Hr]. split; [by apply Hd|].
  eexists. split; [by apply Unmarshal_snapshot_text|]. split; [done|].
  exists (render (machineState_to_json m)). split.
  - unfold EncodeState. cbn [sf_State]. case_decide as Hnil; [|done].
    pose proof (length_render (machineState_to_json m)) as Hl. rewrite Hnil in Hl. simpl in Hl. lia.
  - rewrite (Restore_Snapshot m m0 _ Hok eq_refl), Httl. by destruct m.
Qed.

(** ** Startup *)

Section Startup.
Context {S : Type} `{StateStore S} `{Codec LogEntry}.

(** [restoreFromSnapshot] of main.go: the state machine, the log boundary and the
    node's boundaries follow the latest snapshot, if there is one. *)
Definition restoreFromSnapshot (path : string) (sm : MemoryStateMachine) (rl : RaftLog)
    (rn : RaftNode S) : result unit * (MemoryStateMachine * RaftLog * RaftNode S) :=
  match on_disk (Read path) rl with
  | (Err e, rl) => (Err e, (sm, rl, rn))
  | (Ok None, rl) => (Ok tt, (sm, rl, rn))
  | (Ok (Some snap), rl) =>
      match EncodeState snap with
      | Err e => (Err e, (sm, rl, rn))
      | Ok raw =>
          match Restore raw sm with
          | (Err e, sm) => (Err e, (sm, rl, rn))
          | (Ok _, sm) =>
              let meta := sf_Meta snap in
              match RestoreOffset (LastIncludedIndex meta) (LastIncludedTerm meta) rl with
              | (Err e, rl) => (Err e, (sm, rl, rn))
              | (Ok _, rl) => (Ok tt, (sm, rl, SeedFromSnapshot (LastIncludedIndex meta) rn))
              end
          end
      end
  end.

Lemma Read_visible path os r os' :
  Read path os = (Ok r, os') →
  os_fs os' = os_fs os ∧
  match visible (os_fs os) path with
  | None => r = None
  | Some d => ∃ sf, UnmarshalSnapshotFile d = Ok sf ∧ r = Some sf
  end.
Proof.
  unfold Read. intros [(c & os1 & H1 & H2)|(e & _ & [=])]%m_bind_inv.
  apply m_wrap_inv in H1 as (r1 & H1 & Hr). destruct r1 as [c'|]; [|by destruct Hr].
  injection Hr as ->. apply syscall_inv in H1 as [H1|[[? [=]] _]]. injection H1 as -> Hfs.
  unfold m_ret, m_fail in H2. destruct (visible (os_fs os) path) as [d|]; [|by injection H2 as <- <-].
  destruct (UnmarshalSnapshotFile d) as [sf|e] eqn:Hu; [|done].
  injection H2 as <- <-. eauto.
Qed.

Lemma restoreFromSnapshot_spec (path : string) (sm m : MemoryStateMachine) (rl rl' : RaftLog)
    (rn rn' : RaftNode S) (sm' : MemoryStateMachine) (first : Z) (meta : SnapshotMeta) :
  restoreFromSnapshot path sm rl rn = (Ok tt, (sm', rl', rn')) →
  visible (os_fs (rl_disk rl)) path = Some (snapshot_text meta m) →
  machine_ok m → sm_sessionTTL sm = sm_sessionTTL m →
  0 ≤ LastIncludedIndex meta < MaxInt64 → int64 (LastIncludedTerm meta) →
  contiguous first (rl_cache rl) → 0 < first → first + cache_len rl ≤ MaxInt64 →
  rn_LastApplied rn = 0 → rn_CommitIndex rn = 0 →
  sm' = m ∧ log_wf rl' ∧ rl_lastIncludedIndex rl' = LastIncludedIndex meta ∧
  rn_LastApplied rn' = rl_lastIncludedIndex rl' ∧ rn_CommitIndex rn' = rl_lastIncludedIndex rl' ∧
  rl_cache rl' = if decide (first ≤ LastIncludedIndex meta + 1)
                 then drop (Z.to_nat (LastIncludedIndex meta + 1 - first)) (rl_cache rl) else [].
Proof.
  intros Hres Hvis Hok Httl Hi Ht Hc Hf Hmax Hla Hci. unfold restoreFromSnapshot, on_disk in Hres.
  destruct (Read path (rl_disk rl)) as [[r|e] os'] eqn:Hr; [|done].
  apply Read_visible in Hr as [_ Hr]. rewrite Hvis in Hr. destruct Hr as (sf & Hu & ->).
  rewrite Unmarshal_snapshot_text in Hu by (unfold int64 in *; lia). injection Hu as <-.
  cbn [sf_Meta] in Hres. destruct (EncodeState _) as [raw|] eqn:He; [|done].
  assert (raw = render (machineState_to_json m)) as ->.
  { unfold EncodeState in He. cbn [sf_State] in He. case_decide; [discriminate|]. by injection He. }
  rewrite (Restore_Snapshot m sm _ Hok eq_refl), Httl in Hres.
  destruct (RestoreOffset _ _ _) as [[[]|] rl2] eqn:Ho; [|done].
  injection Hres as <- <- <-.
  apply (RestoreOffset_spec _ _ first) in Ho as (Hwf & Hl & _ & Hcache); try done.
  split_and!; try done; [by destruct m|..]; rewrite Hl; simpl;
    rewrite ?Hla, ?Hci; destruct (Z.ltb_spec 0 (LastIncludedIndex meta)); lia.
Qed.

(** startup re-establishes one boundary everywhere.  Recovering with a snapshot
    of machine [m] at index [S] on disk, whatever run of indices the WAL holds,
    leaves the state machine equal to [m], the log in its full invariant with the
    boundary at [S] and only the WAL entries that continue from it, and the node's
    applied index at [S]: the next entry applied is the one after the snapshot. *)
Theorem restoreFromSnapshot_correct (path : string) (sm m : MemoryStateMachine) (rl rl' : RaftLog)
    (rn rn' : RaftNode S) (sm' : MemoryStateMachine) (first : Z) (meta : SnapshotMeta) :
  restoreFromSnapshot path sm rl rn = (Ok tt, (sm', rl', rn')) →
  visible (os_fs (rl_disk rl)) path = Some (snapshot_text meta m) →
  machine_ok m → sm_sessionTTL sm = sm_sessionTTL m →
  0 ≤ LastIncludedIndex meta < MaxInt64 → int64 (LastIncludedTerm meta) →
  contiguous first (rl_cache rl) → 0 < first → first + cache_len rl ≤ MaxInt64 →
  rn_LastApplied rn = 0 → rn_CommitIndex rn = 0 →
  sm' = m ∧ log_wf rl' ∧ rl_lastIncludedIndex rl' = LastIncludedIndex meta ∧
  rn_LastApplied rn' = rl_lastIncludedIndex rl' ∧ rn_CommitIndex rn' = rl_lastIncludedIndex rl' ∧
  rl_cache rl' = if decide (first ≤ LastIncludedIndex meta + 1)
                 then drop (Z.to_nat (LastIncludedIndex meta + 1 - first)) (rl_cache rl) else [].
Proof. apply restoreFromSnapshot_spec. Qed.

End Startup.
