(* ===== verification/RaftNodeFacts.v ===== *)
(** * Correctness of the consensus methods of one node

    What each critical section of node.go may do to a node: durable state moves
    only forward and reaches memory only after the disk, votes never change inside
    a term, the commit index never regresses and advances only over a quorum of
    the current term, probing a follower's log terminates, and the two log
    receivers act on a request only after every guard and disk write before it
    succeeded. *)

From S2P Require Import Prelude Configuration Os FsUtil Types RaftLog RaftLogFacts RaftNode.

(** ** The order on durable states

    [ps_le p q]: a node that stood at [p] may stand at [q] later.  The term only
    grows, and inside a term a vote, once given, stays. *)

Definition ps_le (p q : PersistentState) : Prop :=
  CurrentTerm p < CurrentTerm q ∨
  CurrentTerm p = CurrentTerm q ∧ (VotedFor p = -1 ∨ VotedFor q = VotedFor p).

#[export] Instance ps_le_preorder : PreOrder ps_le.
Proof.
  split; unfold ps_le.
  - intros p. right. auto.
  - intros p q r [?|[? ?]] [?|[? ?]]; [left; lia..|]. right. split; [lia|].
    destruct H0 as [?|Hpq]; [by left|]. destruct H2 as [Hq|Hqr]; [left; congruence|].
    right. congruence.
Qed.

Lemma ps_le_term p q : ps_le p q → CurrentTerm p ≤ CurrentTerm q.
Proof. unfold ps_le. lia. Qed.

(** Two votes of one server in one term are for the same candidate. *)
Lemma ps_le_vote t c p : c ≠ -1 → ps_le (mkPersistentState t c) p → CurrentTerm p = t → VotedFor p = c.
Proof. unfold ps_le. simpl. lia. Qed.

Definition initial_state : PersistentState := mkPersistentState 0 (-1).

(** What a node starts from when the store returns [p]. *)
Definition loaded (p : option PersistentState) : PersistentState := default initial_state p.

Section Facts.
Context {S : Type} `{StateStoreLaws S}.
Implicit Types rn : @RaftNode S.

(** The volatile part of the state, in two pieces. *)
Definition same_identity rn rn' : Prop :=
  rn_nodeID rn' = rn_nodeID rn ∧ rn_config rn' = rn_config rn.

Definition same_volatile rn rn' : Prop :=
  same_identity rn rn' ∧ rn_Role rn' = rn_Role rn ∧ rn_LeaderID rn' = rn_LeaderID rn ∧
  rn_CommitIndex rn' = rn_CommitIndex rn ∧ rn_LastApplied rn' = rn_LastApplied rn ∧
  rn_lastContact rn' = rn_lastContact rn ∧ rn_votesFrom rn' = rn_votesFrom rn ∧
  rn_minElectionTimeout rn' = rn_minElectionTimeout rn ∧
  rn_NextIndex rn' = rn_NextIndex rn ∧ rn_MatchIndex rn' = rn_MatchIndex rn.

#[local] Hint Unfold same_identity same_volatile : crystal.

(** The memory of a node never runs ahead of its disk: whatever a crash may leave
    to be reloaded is at or after what the node has acted on. *)
Definition node_durable rn : Prop :=
  ss_inv (rn_store rn) ∧ ∀ p, may_load (rn_store rn) p → ps_le (rn_persistent rn) (loaded p).

Lemma commitPersistentLocked_inv next rn r rn' :
  commitPersistentLocked next rn = (r, rn') →
  same_volatile rn rn' ∧
  match r with
  | Ok _ => rn_persistent rn' = next
  | Err _ => rn_persistent rn' = rn_persistent rn ∧ next ≠ rn_persistent rn
  end.
Proof.
  unfold commitPersistentLocked. case_bool_decide as Heq.
  - intros [= <- <-]. repeat split; done.
  - destruct (Save next (rn_store rn)) as [[[]|e] s]; intros [= <- <-]; repeat split; done.
Qed.

Lemma commitPersistentLocked_durable next rn r rn' :
  commitPersistentLocked next rn = (r, rn') →
  node_durable rn → ps_le (rn_persistent rn) next → node_durable rn'.
Proof.
  unfold commitPersistentLocked, node_durable. intros Hc [Hinv Hle] Hnext.
  revert Hc. case_bool_decide as Heq; [by intros [= <- <-]|].
  destruct (Save next (rn_store rn)) as [[[]|e] s] eqn:Hs; intros [= <- <-]; simpl.
  - split; [by eapply Save_inv|]. intros p Hp.
    by rewrite (Save_durable _ _ _ p Hinv Hs Hp).
  - split; [by eapply Save_inv|]. intros p Hp.
    destruct (Save_may _ _ _ _ p Hinv Hs Hp) as [?| ->]; [by apply Hle|done].
Qed.

(** [evolves rn rn']: one or more critical sections lead from [rn] to [rn']. *)
Definition evolves rn rn' : Prop :=
  same_identity rn rn' ∧ ps_le (rn_persistent rn) (rn_persistent rn') ∧
  (node_durable rn → node_durable rn').

#[global] Instance evolves_preorder : PreOrder evolves.
Proof.
  split; unfold evolves, same_identity.
  - intros rn. split; [done|]. split; [reflexivity|done].
  - intros a b c ((Hi & Hc) & Hab & Dab) ((Hi' & Hc') & Hbc & Dbc).
    split; [split; congruence|]. split; [by etransitivity|auto].
Qed.

Lemma commitPersistentLocked_evolves next rn r rn' :
  commitPersistentLocked next rn = (r, rn') →
  ps_le (rn_persistent rn) next → evolves rn rn'.
Proof.
  intros Hc Hle. destruct (commitPersistentLocked_inv _ _ _ _ Hc) as [(Hid & _) Hp].
  split; [done|]. split.
  - destruct r; [by rewrite Hp|]. destruct Hp as [-> _]. reflexivity.
  - intros Hd. by eapply commitPersistentLocked_durable.
Qed.

(** A method that leaves identity, record and store alone evolves trivially. *)
Lemma evolves_volatile rn rn' :
  rn_nodeID rn' = rn_nodeID rn → rn_config rn' = rn_config rn →
  rn_persistent rn' = rn_persistent rn → rn_store rn' = rn_store rn → evolves rn rn'.
Proof.
  intros Hi Hc Hp Hs. split; [by split|]. unfold node_durable. rewrite Hp, Hs.
  split; [reflexivity|tauto].
Qed.

Lemma evolves_volatile_r rn rn1 rn2 :
  evolves rn rn1 →
  rn_nodeID rn2 = rn_nodeID rn1 → rn_config rn2 = rn_config rn1 →
  rn_persistent rn2 = rn_persistent rn1 → rn_store rn2 = rn_store rn1 → evolves rn rn2.
Proof. intros H1 ????. etransitivity; [exact H1|]. by apply evolves_volatile. Qed.

(** ** Construction *)

Lemma NewRaftNode_inv id c s role now rn s' :
  NewRaftNode id c s role now = (Ok rn, s') → ss_inv s → ss_settled s →
  Validate c = None ∧ rn_nodeID rn = id ∧ rn_config rn = c ∧ rn_Role rn = role ∧
  rn_votesFrom rn = None ∧ rn_CommitIndex rn = 0 ∧ rn_LastApplied rn = 0 ∧
  s' = rn_store rn ∧ node_durable rn ∧
  ∃ p, may_load s p ∧ rn_persistent rn = loaded p.
Proof.
  unfold NewRaftNode, loadPersistentState, node_durable. intros Hn Hinv Hset.
  destruct (Validate c); [done|]. simpl in Hn.
  destruct (Load s) as [[[ps|]|e] s1] eqn:Hl; [| |done].
  - injection Hn as <- <-. simpl. rewrite Clone_id.
    destruct (Load_sound _ _ _ Hinv Hset Hl) as [Hm Hu].
    split_and!; try done; [by eapply Load_inv|by intros p ->%Hu|by exists (Some ps)].
  - destruct (Save _ s1) as [[[]|e] s2] eqn:Hs; [|done]. injection Hn as <- <-. simpl. rewrite Clone_id.
    pose proof (Load_inv _ _ _ Hinv Hl) as Hinv1.
    destruct (Load_sound _ _ _ Hinv Hset Hl) as [Hm _].
    split_and!; try done; [by eapply Save_inv|by intros p ->%(Save_durable _ _ _ _ Hinv1 Hs)|by exists None].
Qed.

(** A failed construction adds nothing to what a later boot may find. *)
Lemma NewRaftNode_err id c s role now e s' :
  NewRaftNode id c s role now = (Err e, s') → ss_inv s → ss_settled s →
  ss_inv s' ∧ ∀ p, may_load s' p → ∃ p', may_load s p' ∧ loaded p = loaded p'.
Proof.
  unfold NewRaftNode, loadPersistentState. intros Hn Hinv Hset.
  destruct (Validate c); [injection Hn as <- <-; eauto|]. simpl in Hn.
  destruct (Load s) as [[[ps|]|e1] s1] eqn:Hl; [done| |].
  2:{ injection Hn as <- <-. simpl. split; [by eapply Load_inv|]. intros p ?%(Load_may _ _ _ _ Hinv Hl). eauto. }
  pose proof (Load_inv _ _ _ Hinv Hl) as Hinv1.
  destruct (Load_sound _ _ _ Hinv Hset Hl) as [Hm _].
  destruct (Save _ s1) as [[[]|e1] s2] eqn:Hs; [done|]. injection Hn as <- <-. simpl.
  split; [by eapply Save_inv|].
  intros p [?%(Load_may _ _ _ _ Hinv Hl)| ->]%(Save_may _ _ _ _ _ Hinv1 Hs); eauto.
Qed.

(** ** Role changes *)

Lemma bumped_term_le (p : PersistentState) term :
  ps_le p (if CurrentTerm p <? term then mkPersistentState term (-1) else p).
Proof. destruct (Z.ltb_spec (CurrentTerm p) term); [left; simpl; lia|reflexivity]. Qed.

Lemma becomeFollowerLocked_inv term leaderID rn r rn' :
  becomeFollowerLocked term leaderID rn = (r, rn') →
  evolves rn rn' ∧
  match r with
  | Ok _ =>
      rn_Role rn' = Follower ∧ rn_LeaderID rn' = leaderID ∧
      rn_term rn' = Z.max (rn_term rn) term ∧
      rn_CommitIndex rn' = rn_CommitIndex rn ∧ rn_LastApplied rn' = rn_LastApplied rn
  | Err _ => same_volatile rn rn' ∧ rn_persistent rn' = rn_persistent rn
  end.
Proof.
  unfold becomeFollowerLocked, rn_term.
  pose proof (bumped_term_le (rn_persistent rn) term) as Hle.
  set (next := if CurrentTerm (rn_persistent rn) <? term then _ else _) in *.
  assert (CurrentTerm next = Z.max (CurrentTerm (rn_persistent rn)) term) as Hterm.
  { unfold next. destruct (Z.ltb_spec (CurrentTerm (rn_persistent rn)) term); simpl; lia. }
  destruct (commitPersistentLocked next rn) as [[u|e] rn1] eqn:Hc; intros [= <- <-];
    pose proof (commitPersistentLocked_evolves _ _ _ _ Hc Hle) as Hev;
    apply commitPersistentLocked_inv in Hc as [(Hid & Hv) Hp].
  - split; [by eapply evolves_volatile_r|]. simpl. rewrite Hp. naive_solver.
  - split; [done|]. split; [by split|]. by destruct Hp.
Qed.

Lemma accept_leader_inv term leaderID rn r rn' :
  accept_leader term leaderID rn = (r, rn') →
  CurrentTerm (rn_persistent rn) ≤ term →
  evolves rn rn' ∧
  match r with
  | Ok _ =>
      rn_Role rn' = Follower ∧ rn_LeaderID rn' = leaderID ∧ rn_term rn' = term ∧
      rn_CommitIndex rn' = rn_CommitIndex rn ∧ rn_LastApplied rn' = rn_LastApplied rn
  | Err _ => same_volatile rn rn' ∧ rn_persistent rn' = rn_persistent rn
  end.
Proof.
  unfold accept_leader. intros Ha Hle.
  destruct (CurrentTerm (rn_persistent rn) <? term) eqn:Hlt; b2p;
    [|case_bool_decide as Hrole]; simpl in Ha.
  1, 2: apply becomeFollowerLocked_inv in Ha as [Hev Hr]; split; [done|];
    destruct r; [|done]; destruct Hr as (? & ? & Ht & ? & ?);
    repeat split; try done; rewrite Ht; unfold rn_term; lia.
  injection Ha as <- <-. unfold rn_term. simpl.
  split; [by apply evolves_volatile|]. repeat split; try done. lia.
Qed.

Lemma BecomeCandidate_inv now rn r rn' :
  BecomeCandidate now rn = (r, rn') →
  int64 (rn_term rn) → rn_term rn < MaxInt64 →
  evolves rn rn' ∧
  match r with
  | Ok t =>
      t = rn_term rn + 1 ∧ rn_persistent rn' = mkPersistentState t (rn_nodeID rn) ∧
      rn_Role rn' = Candidate ∧ rn_votesFrom rn' = Some {[rn_nodeID rn := true]}
  | Err _ => same_volatile rn rn' ∧ rn_persistent rn' = rn_persistent rn
  end.
Proof.
  unfold BecomeCandidate, rn_term. intros Hb Hi Hmax.
  rewrite i64_id in Hb by (unfold int64 in *; lia).
  set (next := mkPersistentState _ _) in Hb.
  assert (ps_le (rn_persistent rn) next) as Hle by (left; simpl; lia).
  destruct (commitPersistentLocked next rn) as [[u|e] rn1] eqn:Hc; injection Hb as <- <-;
    pose proof (commitPersistentLocked_evolves _ _ _ _ Hc Hle) as Hev;
    apply commitPersistentLocked_inv in Hc as [((Hid & Hcf) & Hv) Hp].
  - split; [by eapply evolves_volatile_r|]. simpl. rewrite Hp, Hid. done.
  - split; [done|]. split; [by split|]. by destruct Hp.
Qed.

(** ** Vote receivers *)

Definition vote_free (p : PersistentState) (req : RequestVoteRequest) : Prop :=
  CurrentTerm p < rv_Term req ∨
  CurrentTerm p = rv_Term req ∧ (VotedFor p = -1 ∨ VotedFor p = rv_CandidateID req).

Definition log_up_to_date (candTerm candIndex : Z) (last : Z * Z) : Prop :=
  last.2 < candTerm ∨ candTerm = last.2 ∧ last.1 ≤ candIndex.

Lemma candidateUpToDate_spec ct ci vi vt :
  candidateUpToDate ct ci vt vi = true ↔ log_up_to_date ct ci (vi, vt).
Proof.
  unfold candidateUpToDate, log_up_to_date. simpl.
  destruct (Z.eqb_spec ct vt); simpl; [rewrite Z.leb_le|rewrite Z.ltb_lt]; lia.
Qed.

(** Everything a vote depends on except the disk. *)
Definition vote_guards rn (req : RequestVoteRequest) (last : Z * Z) (now : Z) : Prop :=
  vote_free (rn_persistent rn) req ∧ leader_is_live now rn = false ∧
  log_up_to_date (rv_LastLogTerm req) (rv_LastLogIndex req) last.

Definition ballot (req : RequestVoteRequest) : PersistentState :=
  mkPersistentState (rv_Term req) (rv_CandidateID req).

(** The five ways through [HandleRequestVote]. *)
Lemma HandleRequestVote_cases req last now rn resp rn' :
  HandleRequestVote req last now rn = (resp, rn') →
  (resp = mkRequestVoteResponse (rn_term rn) false ∧ rn' = rn ∧ ¬ vote_guards rn req last now) ∨
  (∃ e, commitPersistentLocked (ballot req) rn = (Err e, rn') ∧ vote_guards rn req last now ∧
     resp = mkRequestVoteResponse (rn_term rn) false) ∨
  (∃ rn1, commitPersistentLocked (ballot req) rn = (Ok tt, rn1) ∧
     vote_guards rn req last now ∧ resp = mkRequestVoteResponse (rv_Term req) true ∧
     rn' = set_contact now (if rn_term rn <? rv_Term req then set_role Follower 0 rn1 else rn1)) ∨
  (∃ r rn1, let next := if rn_term rn <? rv_Term req then mkPersistentState (rv_Term req) (-1)
                        else rn_persistent rn in
     commitPersistentLocked next rn = (r, rn1) ∧ ¬ vote_guards rn req last now ∧
     rvr_VoteGranted resp = false ∧
     rn' = match r with Ok _ => if rn_term rn <? rv_Term req then set_role Follower 0 rn1 else rn1
                      | Err _ => rn1 end).
Proof.
  unfold HandleRequestVote, vote_guards, vote_free, rn_term. destruct last as [vi vt].
  destruct (Z.ltb_spec (rv_Term req) (CurrentTerm (rn_persistent rn))).
  { intros [= <- <-]. left. repeat split; try done. lia. }
  destruct (leader_is_live now rn).
  { intros [= <- <-]. left. naive_solver. }
  pose proof (candidateUpToDate_spec (rv_LastLogTerm req) (rv_LastLogIndex req) vi vt) as Hu.
  destruct (candidateUpToDate _ _ _ _); rewrite ?andb_true_r, ?andb_false_r.
  2:{ destruct (commitPersistentLocked _ _) as [[u|e] rn1] eqn:Hc; simpl;
        intros [= <- <-]; right; right; right;
        [exists (Ok u), rn1|exists (Err e), rn1]; (split_and!; [done| |done..]);
        intros (_ & _ & ?%Hu); done. }
  set (next := if CurrentTerm (rn_persistent rn) <? rv_Term req then _ else _).
  set (voted := negb (VotedFor next =? -1) && negb (VotedFor next =? rv_CandidateID req)).
  assert (CurrentTerm next = rv_Term req) as Ht.
  { unfold next. destruct (Z.ltb_spec (CurrentTerm (rn_persistent rn)) (rv_Term req)); simpl; lia. }
  assert (voted = true → ¬ (CurrentTerm (rn_persistent rn) < rv_Term req ∨
    CurrentTerm (rn_persistent rn) = rv_Term req ∧
    (VotedFor (rn_persistent rn) = -1 ∨ VotedFor (rn_persistent rn) = rv_CandidateID req))) as Hv1.
  { unfold voted, next. destruct (Z.ltb_spec (CurrentTerm (rn_persistent rn)) (rv_Term req));
      simpl; [done|]. intros Hb. b2p. lia. }
  assert (voted = false → CurrentTerm (rn_persistent rn) < rv_Term req ∨
    CurrentTerm (rn_persistent rn) = rv_Term req ∧
    (VotedFor (rn_persistent rn) = -1 ∨ VotedFor (rn_persistent rn) = rv_CandidateID req)) as Hv2.
  { unfold voted, next. destruct (Z.ltb_spec (CurrentTerm (rn_persistent rn)) (rv_Term req));
      simpl; [by left|]. rewrite andb_false_iff, !negb_false_iff, !Z.eqb_eq. right. lia. }
  destruct voted; simpl.
  - destruct (commitPersistentLocked next rn) as [[[]|e] rn1] eqn:Hc; simpl; intros [= <- <-];
      right; right; right; [exists (Ok ()), rn1|exists (Err e), rn1];
      (split_and!; [done|by intros (?%Hv1 & _)|done..]).
  - rewrite Ht. destruct (commitPersistentLocked _ rn) as [[[]|e] rn1] eqn:Hc; simpl; intros [= <- <-].
    + right. right. left. exists rn1. split; [done|]. split; [naive_solver|]. split; [|done].
      destruct (CurrentTerm (rn_persistent rn) <? rv_Term req); simpl;
        apply commitPersistentLocked_inv in Hc as [_ ->]; done.
    + right. left. exists e. split; [done|]. split; [naive_solver|].
      apply commitPersistentLocked_inv in Hc as [_ [-> _]]. done.
Qed.

Lemma ballot_le rn req : vote_free (rn_persistent rn) req → ps_le (rn_persistent rn) (ballot req).
Proof. unfold vote_free, ps_le. simpl. lia. Qed.

Lemma HandleRequestVote_evolves req last now rn resp rn' :
  HandleRequestVote req last now rn = (resp, rn') → evolves rn rn'.
Proof.
  intros Hh. apply HandleRequestVote_cases in Hh
    as [(_ & -> & _)|[(e & Hc & (Hf & _) & _)|[(rn1 & Hc & (Hf & _) & _ & ->)|(r & rn1 & Hc & _ & _ & ->)]]].
  - reflexivity.
  - apply commitPersistentLocked_evolves in Hc; [done|by apply ballot_le].
  - apply commitPersistentLocked_evolves in Hc; [|by apply ballot_le].
    destruct (rn_term rn <? rv_Term req); by eapply evolves_volatile_r.
  - apply commitPersistentLocked_evolves in Hc; [|apply (bumped_term_le (rn_persistent rn))].
    destruct r, (rn_term rn <? rv_Term req); by eapply evolves_volatile_r.
Qed.

(** The step relation's view of a vote: what a grant leaves behind. *)
Lemma HandleRequestVote_granted req last now rn resp rn' :
  HandleRequestVote req last now rn = (resp, rn') → rvr_VoteGranted resp = true →
  rvr_Term resp = rv_Term req ∧ rn_persistent rn' = ballot req.
Proof.
  intros Hh Hg. apply HandleRequestVote_cases in Hh
    as [(-> & _)|[(e & _ & _ & ->)|[(rn1 & Hc & _ & -> & ->)|(r & rn1 & _ & _ & Hf & _)]]];
    [done|done| |congruence].
  split; [done|]. apply commitPersistentLocked_inv in Hc as [_ Hp].
  by destruct (rn_term rn <? rv_Term req).
Qed.

(** C16: the vote decision, complete.  A vote is granted exactly when the term is
    current, no vote of this term went elsewhere, no live leader is known, the
    candidate's log is at least as up to date, and the ballot reached the disk;
    and a granted vote survives any later crash, in memory and on disk. *)
Theorem HandleRequestVote_correct (rn rn' : RaftNode S) (req : RequestVoteRequest)
    (last : Z * Z) (now : Z) (resp : RequestVoteResponse) :
  HandleRequestVote req last now rn = (resp, rn') →
  node_durable rn →
  (rvr_VoteGranted resp = true ↔
     vote_guards rn req last now ∧ is_Ok (commitPersistentLocked (ballot req) rn).1 = true) ∧
  (rvr_VoteGranted resp = true →
     rn_persistent rn' = ballot req ∧
     ∀ p, may_load (rn_store rn') p → ps_le (ballot req) (loaded p)) ∧
  ps_le (rn_persistent rn) (rn_persistent rn').
Proof.
  intros Hh Hd. pose proof (HandleRequestVote_evolves _ _ _ _ _ _ Hh) as (_ & Hle & Hdur).
  pose proof (HandleRequestVote_granted _ _ _ _ _ _ Hh) as Hgr.
  split_and!; [|by intros Hg; destruct (Hgr Hg) as [_ <-]; split; [|apply Hdur]|done].
  apply HandleRequestVote_cases in Hh
    as [(-> & _ & Hn)|[(e & Hc & _ & ->)|[(rn1 & Hc & Hg & -> & _)|(r & rn1 & _ & Hn & -> & _)]]];
    simpl; try rewrite Hc; naive_solver.
Qed.

(** a pre-vote predicts the vote.  For any term above the receiver's own, the
    pre-vote answer is the answer the same node would give at the same instant to
    a real vote request whose ballot it can persist; at or below its own term the
    poll is refused. *)
Theorem HandlePreVote_predicts (rn : RaftNode S) (req : PreVoteRequest) (last : Z * Z) (now : Z) :
  let real := mkRequestVoteRequest (pv_Term req) (pv_CandidateID req)
                (pv_LastLogIndex req) (pv_LastLogTerm req) in
  pvr_Term (HandlePreVote req last now rn) = rn_term rn ∧
  (pv_Term req ≤ rn_term rn → pvr_VoteGranted (HandlePreVote req last now rn) = false) ∧
  (rn_term rn < pv_Term req → is_Ok (commitPersistentLocked (ballot real) rn).1 = true →
     pvr_VoteGranted (HandlePreVote req last now rn)
     = rvr_VoteGranted (HandleRequestVote real last now rn).1).
Proof.
  intros real. destruct last as [vi vt].
  assert (pvr_VoteGranted (HandlePreVote req (vi, vt) now rn) =
    negb (leader_is_live now rn) && (rn_term rn <? pv_Term req) &&
    candidateUpToDate (pv_LastLogTerm req) (pv_LastLogIndex req) vt vi) as Hpre.
  { unfold HandlePreVote, rn_term. destruct (leader_is_live now rn); simpl; [done|].
    rewrite Z.leb_antisym. by destruct (_ <? pv_Term req). }
  split_and!.
  - unfold HandlePreVote. destruct (leader_is_live now rn); [done|].
    by destruct (pv_Term req <=? CurrentTerm (rn_persistent rn)).
  - intros Hle. rewrite Hpre. apply Z.ltb_ge in Hle as ->. by rewrite andb_false_r.
  - intros Hlt Hok. rewrite Hpre. apply Z.ltb_lt in Hlt as Hlt'. rewrite Hlt', andb_true_r.
    destruct (HandleRequestVote real (vi, vt) now rn) as [resp rn'] eqn:Hh. simpl.
    pose proof (candidateUpToDate_spec (pv_LastLogTerm req) (pv_LastLogIndex req) vi vt) as Hu.
    apply HandleRequestVote_cases in Hh. unfold vote_guards, vote_free in Hh. simpl in Hh.
    destruct Hh as [(-> & _ & Hn)|[(e & Hc & _)|[(rn1 & _ & (_ & -> & Hup) & -> & _)|(r & rn1 & _ & Hn & -> & _)]]].
    2: by rewrite Hc in Hok.
    2: simpl; by apply Hu.
    all: apply not_true_iff_false; rewrite andb_true_iff, negb_true_iff, Hu; intros [??];
      apply Hn; (split; [by left|done]).
Qed.

(** ** Commitment *)

(** The match indices the leader commits from: its followers' and its own log. *)
Definition commit_evidence rn (localLatestIndex : Z) : gmap Z Z :=
  <[rn_nodeID rn := localLatestIndex]> (rn_MatchIndex rn).

(** the leader's commit rule (Figure 2 and Figure 8).  The commit index moves
    only on a leader, only forward, only to an index a quorum of the
    configuration is known to store, and only if the entry there is from the
    current term; it is the highest such index, and nothing else changes. *)
Theorem AdvanceCommitIndex_correct (rn rn' : RaftNode S) (latest currentTerm : Z) (termAt : Z → Z)
    (idx : Z) (advanced : bool) :
  AdvanceCommitIndex latest termAt currentTerm rn = ((idx, advanced), rn') →
  gm (Voters (rn_config rn)) ≠ ∅ →
  idx = rn_CommitIndex rn' ∧
  rn' = set_commit idx (rn_LastApplied rn) rn ∧
  (advanced = true ↔ rn_CommitIndex rn < idx) ∧
  (advanced = true →
     rn_Role rn = Leader ∧ termAt idx = currentTerm ∧
     HasQuorum (rn_config rn) (reached_by (rn_config rn) (commit_evidence rn latest) idx) = true ∧
     ∀ N, idx < N →
       HasQuorum (rn_config rn) (reached_by (rn_config rn) (commit_evidence rn latest) N) = false) ∧
  (advanced = false → idx = rn_CommitIndex rn).
Proof.
  unfold AdvanceCommitIndex. intros Ha Hv.
  pose proof (QuorumIndex_HasQuorum (rn_config rn) (commit_evidence rn latest)) as HQ.
  unfold commit_evidence in *.
  set (q := QuorumIndex _ _) in *.
  assert (rn = set_commit (rn_CommitIndex rn) (rn_LastApplied rn) rn) as Hid by by destruct rn.
  revert Ha. case_bool_decide as Hr; [intros [= <- <- <-]; naive_solver lia|].
  destruct (rn_CommitIndex rn <? q) eqn:Hlt, (termAt q =? currentTerm) eqn:Ht; simpl; b2p;
    intros [= <- <- <-]; [|naive_solver lia..].
  split_and!; try done. intros _. split_and!; try done.
  - apply HQ; [done|lia].
  - intros N HN. apply not_true_iff_false. rewrite <-HQ by done. lia.
Qed.

(** The commit index of a node never regresses. *)
Lemma setFollowerCommit_mono c l rn :
  rn_CommitIndex rn ≤ rn_CommitIndex (setFollowerCommitIndexLocked c l rn).
Proof.
  unfold setFollowerCommitIndexLocked.
  destruct (Z.ltb_spec (rn_CommitIndex rn) (if l <? c then l else c)); simpl; lia.
Qed.

(** ** Probing a follower's log *)

(** C37: probing terminates.  Whatever conflict hints a follower returns, every
    rejection moves the next index down until it is 1, where it stays; so after as
    many rejections as the next index is high, the leader sends from the start of
    the log, and no other peer's progress is disturbed. *)
Theorem backtracking_terminates (rn : RaftNode S) (peer : Z) (hints : list Z) :
  int64 (gm_int (rn_NextIndex rn) peer) → MinInt64 < gm_int (rn_NextIndex rn) peer →
  let rn' := foldl (λ rn h, BacktrackNextIndex peer h rn) rn hints in
  NextIndexFor peer rn' ≤ Z.max 1 (NextIndexFor peer rn - Z.of_nat (length hints)) ∧
  (NextIndexFor peer rn ≤ Z.of_nat (length hints) → NextIndexFor peer rn' = 1) ∧
  rn_MatchIndex rn' = rn_MatchIndex rn ∧
  ∀ q, q ≠ peer → NextIndexFor q rn' = NextIndexFor q rn.
Proof.
  assert (∀ rn, 1 ≤ NextIndexFor peer rn) as Hge.
  { intros rn0. unfold NextIndexFor. destruct (Z.ltb_spec (gm_int (rn_NextIndex rn0) peer) 1); lia. }
  cut (∀ hints rn, int64 (gm_int (rn_NextIndex rn) peer) → MinInt64 < gm_int (rn_NextIndex rn) peer →
    let rn' := foldl (λ rn h, BacktrackNextIndex peer h rn) rn hints in
    NextIndexFor peer rn' ≤ Z.max 1 (NextIndexFor peer rn - Z.of_nat (length hints)) ∧
    rn_MatchIndex rn' = rn_MatchIndex rn ∧ ∀ q, q ≠ peer → NextIndexFor q rn' = NextIndexFor q rn).
  { intros Hcut Hi Hm. destruct (Hcut hints rn Hi Hm) as (H1 & H2 & H3).
    split_and!; try done. intros Hle.
    pose proof (Hge (foldl (λ rn h, BacktrackNextIndex peer h rn) rn hints)). lia. }
  clear rn hints. induction hints as [|h hints IH]; intros rn Hi Hm; simpl; [split_and!; try done; lia|].
  set (rn1 := BacktrackNextIndex peer h rn).
  assert (1 ≤ gm_int (rn_NextIndex rn1) peer ≤ Z.max 1 (gm_int (rn_NextIndex rn) peer - 1)) as Hstep.
  { unfold rn1, BacktrackNextIndex, gm_int. simpl. rewrite lookup_insert_eq. simpl.
    fold (gm_int (rn_NextIndex rn) peer). wrapless.
    destruct ((0 <? h) && (h <? gm_int (rn_NextIndex rn) peer)) eqn:Hh; b2p.
    - destruct (Z.ltb_spec h 1); lia.
    - destruct (Z.ltb_spec (gm_int (rn_NextIndex rn) peer - 1) 1); lia. }
  destruct (IH rn1) as (H1 & H2 & H3); [unfold int64 in *; lia..|].
  split_and!; [|done|].
  - etransitivity; [exact H1|]. revert Hstep. unfold NextIndexFor.
    destruct (Z.ltb_spec (gm_int (rn_NextIndex rn1) peer) 1),
      (Z.ltb_spec (gm_int (rn_NextIndex rn) peer) 1); lia.
  - intros q Hq. rewrite (H3 q Hq). unfold NextIndexFor, rn1, BacktrackNextIndex, gm_int. simpl.
    by rewrite lookup_insert_ne.
Qed.

Lemma UpdatePeerProgress_match (rn : RaftNode S) peer m :
  is_Some (rn_MatchIndex rn !! peer) → 0 ≤ m < MaxInt64 →
  gm_int (rn_MatchIndex (UpdatePeerProgress peer m rn)) peer = Z.max (gm_int (rn_MatchIndex rn) peer) m.
Proof.
  intros [known Hk] Hm. unfold UpdatePeerProgress, gm_int. rewrite Hk. simpl.
  destruct (Z.ltb_spec known m); [rewrite lookup_insert_eq|rewrite Hk]; simpl; lia.
Qed.

(** progress is only ever credited upward, only to a known peer, and only as
    far as that peer reported; a delayed or duplicated success reply changes
    nothing it has not already changed. *)
Theorem UpdatePeerProgress_correct (rn : RaftNode S) (peer m : Z) :
  int64 m → m < MaxInt64 →
  let rn' := UpdatePeerProgress peer m rn in
  (∀ q, gm_int (rn_MatchIndex rn') q =
        if bool_decide (q = peer) && bool_decide (is_Some (rn_MatchIndex rn !! peer))
        then Z.max (gm_int (rn_MatchIndex rn) peer) m else gm_int (rn_MatchIndex rn) q) ∧
  (∀ q, gm_int (rn_NextIndex rn') q =
        if bool_decide (q = peer) && bool_decide (is_Some (rn_MatchIndex rn !! peer))
        then Z.max (gm_int (rn_NextIndex rn) peer) (m + 1) else gm_int (rn_NextIndex rn) q) ∧
  dom (rn_MatchIndex rn') = dom (rn_MatchIndex rn) ∧
  UpdatePeerProgress peer m rn' = rn'.
Proof.
  intros Hi Hm rn'. unfold rn', UpdatePeerProgress. wrapless.
  destruct (rn_MatchIndex rn !! peer) as [known|] eqn:Hk.
  2:{ rewrite Hk. rewrite (bool_decide_eq_false_2 (is_Some None)) by (by intros []).
      setoid_rewrite andb_false_r. done. }
  rewrite (bool_decide_eq_true_2 (is_Some (Some known))) by eauto.
  assert (gm_int (rn_MatchIndex rn) peer = known) as Hgk by (unfold gm_int; by rewrite Hk).
  cbn [rn_MatchIndex rn_NextIndex set_progress].
  assert (∀ (mp : gmap Z Z) v q, gm_int (<[peer := v]> mp) q = if bool_decide (q = peer) then v else gm_int mp q)
    as Hins.
  { intros mp v q. unfold gm_int. case_bool_decide; subst; [by rewrite lookup_insert_eq|by rewrite lookup_insert_ne]. }
  split_and!.
  - intros q. rewrite andb_true_r, Hgk. destruct (Z.ltb_spec known m); rewrite ?Hins;
      case_bool_decide; subst; lia.
  - intros q. rewrite andb_true_r. destruct (Z.ltb_spec (gm_int (rn_NextIndex rn) peer) (m + 1)); rewrite ?Hins;
      case_bool_decide; subst; lia.
  - destruct (known <? m); [|done]. rewrite dom_insert_L. apply elem_of_dom_2 in Hk. set_solver.
  - destruct (Z.ltb_spec known m) as [Hlt|Hge], (Z.ltb_spec (gm_int (rn_NextIndex rn) peer) (m + 1));
      rewrite ?lookup_insert_eq, ?Hk, ?Hins, ?(bool_decide_eq_true_2 (peer = peer)) by done;
      rewrite ?Z.ltb_irrefl; repeat match goal with
      | |- context [?a <? ?b] => destruct (Z.ltb_spec a b); [lia|] end; done.
Qed.

(** ** Log receivers *)

Context `{Codec LogEntry}.

Lemma setFollowerCommit_evolves c l rn : evolves rn (setFollowerCommitIndexLocked c l rn).
Proof.
  unfold setFollowerCommitIndexLocked. destruct (_ <? _); [by apply evolves_volatile|reflexivity].
Qed.

Lemma setFollowerCommit_fields c l rn :
  let rn' := setFollowerCommitIndexLocked c l rn in
  rn_Role rn' = rn_Role rn ∧ rn_LeaderID rn' = rn_LeaderID rn ∧
  rn_persistent rn' = rn_persistent rn ∧
  rn_CommitIndex rn' = Z.max (rn_CommitIndex rn) (Z.min c l).
Proof.
  unfold setFollowerCommitIndexLocked.
  destruct (Z.ltb_spec l c); destruct (Z.ltb_spec (rn_CommitIndex rn) (Z.min c l)) as [|];
    rewrite ?Z.min_l, ?Z.min_r in * by lia;
    repeat match goal with |- context [?a <? ?b] => destruct (Z.ltb_spec a b) end; simpl; repeat split; lia.
Qed.

(** The ways through [HandleAppendEntries]: refused for its term, refused because
    the newer term did not reach the disk, or handed to the log. *)
Lemma HandleAppendEntries_cases rl req now rn resp rn' rl' :
  HandleAppendEntries rl req now rn = (resp, rn', rl') →
  (ae_Term req < rn_term rn ∧ resp = mkAppendEntriesResponse (rn_term rn) false 0 0 0 ∧
     rn' = rn ∧ rl' = rl) ∨
  rn_term rn ≤ ae_Term req ∧ ∃ r1 rn1,
    accept_leader (ae_Term req) (ae_LeaderID req) rn = (r1, rn1) ∧
    match r1 with
    | Err _ => resp = mkAppendEntriesResponse (rn_term rn) false 0 0 0 ∧ rn' = rn1 ∧ rl' = rl
    | Ok _ => ∃ m ct ci ok,
        AppendEntriesToLog (ae_PrevLogIndex req) (ae_PrevLogTerm req) (ae_Entries req) rl
          = ((m, ct, ci, ok), rl') ∧
        if (ok : bool)
        then resp = mkAppendEntriesResponse (rn_term rn1) true m 0 0 ∧
             rn' = setFollowerCommitIndexLocked (ae_LeaderCommit req) m (set_contact now rn1)
        else resp = mkAppendEntriesResponse (rn_term rn1) false 0 ct ci ∧ rn' = set_contact now rn1
    end.
Proof.
  unfold HandleAppendEntries, rn_term.
  destruct (Z.ltb_spec (ae_Term req) (CurrentTerm (rn_persistent rn))) as [Hlt|Hge].
  { intros [= <- <- <-]. by left. }
  intros Hh. right. split; [done|].
  destruct (accept_leader _ _ _) as [[[]|e] rn1]; [|injection Hh as <- <- <-; by eexists _, _].
  destruct (AppendEntriesToLog _ _ _ _) as [[[[m ct] ci] [|]] rl1] eqn:Ha;
    injection Hh as <- <- <-; eexists (Ok ()), _; (split; [done|]);
    eexists _, _, _, _; (split; [done|]); done.
Qed.

(** C27: AppendEntries, node half.  A request from an older term changes nothing.
    The log is touched only after the sender's term is adopted, and on success
    the receiver is a follower of the sender in exactly the sender's term, with
    that term on disk; the follower's commit index never regresses and moves only
    to the smaller of the leader's commit index and the last entry this request
    verified. *)
Theorem HandleAppendEntries_correct (rl rl' : RaftLog) (req : AppendEntriesRequest) (now : Z)
    (rn rn' : RaftNode S) (resp : AppendEntriesResponse) :
  HandleAppendEntries rl req now rn = (resp, rn', rl') →
  node_durable rn →
  node_durable rn' ∧ ps_le (rn_persistent rn) (rn_persistent rn') ∧
  (ae_Term req < rn_term rn → rn' = rn ∧ rl' = rl ∧ aer_Success resp = false) ∧
  (rl' ≠ rl → rn_Role rn' = Follower ∧ rn_term rn' = ae_Term req) ∧
  (aer_Success resp = true →
     rn_Role rn' = Follower ∧ rn_LeaderID rn' = ae_LeaderID req ∧
     rn_term rn' = ae_Term req ∧ aer_Term resp = ae_Term req ∧
     (∀ p, may_load (rn_store rn') p → ae_Term req ≤ CurrentTerm (loaded p)) ∧
     rn_CommitIndex rn' =
       Z.max (rn_CommitIndex rn) (Z.min (ae_LeaderCommit req) (aer_MatchIndex resp))) ∧
  (aer_Success resp = false → rn_CommitIndex rn' = rn_CommitIndex rn).
Proof.
  intros Hh Hd. apply HandleAppendEntries_cases in Hh
    as [(Hlt & -> & -> & ->)|(Hge & r1 & rn1 & Ha & Hrest)].
  { by split_and!. }
  apply accept_leader_inv in Ha as [Hev Hr]; [|done].
  destruct r1 as [[]|e].
  2:{ destruct Hrest as (-> & -> & ->), Hr as ((_ & _ & _ & Hc & _) & _), Hev as (_ & Hle & Hdur).
      split_and!; try done; [by apply Hdur|lia]. }
  destruct Hr as (Hrole & Hl & Ht & Hc & _), Hrest as (m & ct & ci & ok & Hlog & Hrest).
  assert (evolves rn (set_contact now rn1)) as Hev' by by eapply evolves_volatile_r.
  destruct ok; destruct Hrest as [-> ->].
  - pose proof (setFollowerCommit_evolves (ae_LeaderCommit req) m (set_contact now rn1)) as Hf.
    destruct (setFollowerCommit_fields (ae_LeaderCommit req) m (set_contact now rn1)) as (F1 & F2 & F3 & F4).
    set (rn' := setFollowerCommitIndexLocked _ _ _) in *.
    assert (evolves rn rn') as (_ & Hle & Hdur) by by etransitivity.
    assert (rn_term rn' = ae_Term req) as Ht' by (unfold rn_term; by rewrite F3).
    split_and!; try done; try lia; [by apply Hdur|by rewrite F1|].
    intros _. split_and!; try done; [by rewrite F1|by rewrite F2| |by rewrite F4; simpl; rewrite Hc].
    intros p Hp. apply (proj2 (Hdur Hd)), ps_le_term in Hp. rewrite <-Ht'. done.
  - destruct Hev' as (_ & Hle & Hdur). split_and!; try done; try lia; by apply Hdur.
Qed.

(** The ways through [HandleInstallSnapshot]. *)
Lemma HandleInstallSnapshot_cases {X} rl req restore persist now rn (x : X) resp rn' rl' x' :
  HandleInstallSnapshot rl req restore persist now rn x = (resp, rn', rl', x') →
  (is_Term req < rn_term rn ∧ isr_Success resp = false ∧ rn' = rn ∧ rl' = rl ∧ x' = x) ∨
  rn_term rn ≤ is_Term req ∧ ∃ r1 rn1,
    accept_leader (is_Term req) (is_LeaderID req) rn = (r1, rn1) ∧
    match r1 with
    | Err _ => isr_Success resp = false ∧ rn' = rn1 ∧ rl' = rl ∧ x' = x
    | Ok _ =>
        (is_LastIncludedIndex req ≤ FirstIndex rl -! 1 ∧ isr_Success resp = true ∧
           rn' = set_contact now rn1 ∧ rl' = rl ∧ x' = x) ∨
        FirstIndex rl -! 1 < is_LastIncludedIndex req ∧
        ((isr_Success resp = false ∧ rn' = set_contact now rn1 ∧ logical rl' = logical rl) ∨
         ∃ x1 os1 os2 r2, restore (is_Data req) (x, rl_disk rl) = (Ok tt, (x1, os1)) ∧
           persist (x1, os1) = (Ok tt, (x', os2)) ∧
           rn' = seedFromSnapshotLocked (is_LastIncludedIndex req) (set_contact now rn1) ∧
           ResetToSnapshot (is_LastIncludedIndex req) (is_LastIncludedTerm req) (set_disk os2 rl) = (r2, rl') ∧
           isr_Success resp = is_Ok r2)
    end.
Proof.
  unfold HandleInstallSnapshot, rn_term.
  destruct (Z.ltb_spec (is_Term req) (CurrentTerm (rn_persistent rn))) as [Hlt|Hge].
  { intros [= <- <- <- <-]. by left. }
  intros Hh. right. split; [done|].
  destruct (accept_leader _ _ _) as [[[]|e] rn1]; [|injection Hh as <- <- <- <-; by eexists _, _].
  exists (Ok tt), rn1. split; [done|].
  destruct (Z.leb_spec (is_LastIncludedIndex req) (FirstIndex rl -! 1)).
  { injection Hh as <- <- <- <-. left. done. }
  right. split; [done|].
  destruct (restore _ _) as [[[]|e] [x1 os1]] eqn:Hr; [|injection Hh as <- <- <- <-; by left].
  destruct (persist _) as [[[]|e] [x2 os2]] eqn:Hp; [|injection Hh as <- <- <- <-; by left].
  right. destruct (ResetToSnapshot _ _ _) as [[[]|e] rl2] eqn:Hz; injection Hh as <- <- <- <-;
    [exists x1, os1, os2, (Ok tt)|exists x1, os1, os2, (Err e)]; done.
Qed.

(** C28: InstallSnapshot acknowledges only what is stored. Success means the
    snapshot was already covered by the log's boundary, or was restored into the
    state machine, then written to disk, and only then was the log cut; any failure
    before that leaves the log untouched, and the commit and apply boundaries move
    (never back) only once the snapshot file is on disk. This is the order of the
    code; the comment on the handler and docs/RAFT.md put the writing after the cut.
    *)
Theorem HandleInstallSnapshot_correct {X : Type} (rl rl' : RaftLog) (req : InstallSnapshotRequest)
    (restore : bytes → M (X * Os) unit) (persist : M (X * Os) unit) (now : Z) (rn rn' : RaftNode S) (x x' : X)
    (resp : InstallSnapshotResponse) :
  HandleInstallSnapshot rl req restore persist now rn x = (resp, rn', rl', x') →
  node_durable rn →
  let installed os := ∃ x1 os1, restore (is_Data req) (x, rl_disk rl) = (Ok tt, (x1, os1)) ∧
                                persist (x1, os1) = (Ok tt, (x', os)) in
  node_durable rn' ∧ ps_le (rn_persistent rn) (rn_persistent rn') ∧
  (isr_Success resp = true →
     rn_Role rn' = Follower ∧ rn_term rn' = is_Term req ∧
     (is_LastIncludedIndex req ≤ FirstIndex rl -! 1 ∧ rl' = rl ∧ x' = x ∨
      ∃ os, installed os ∧
        ResetToSnapshot (is_LastIncludedIndex req) (is_LastIncludedTerm req) (set_disk os rl) = (Ok tt, rl'))) ∧
  (logical rl' ≠ logical rl → ∃ os, installed os) ∧
  (rn_CommitIndex rn' ≠ rn_CommitIndex rn ∨ rn_LastApplied rn' ≠ rn_LastApplied rn →
     (∃ os, installed os) ∧ rn_CommitIndex rn' = Z.max (rn_CommitIndex rn) (is_LastIncludedIndex req) ∧
     rn_LastApplied rn' = Z.max (rn_LastApplied rn) (is_LastIncludedIndex req)).
Proof.
  intros Hh Hd installed. apply HandleInstallSnapshot_cases in Hh
    as [(Hlt & Hs & -> & -> & ->)|(Hge & r1 & rn1 & Ha & Hrest)].
  { split_and!; try done; [congruence|naive_solver]. }
  apply accept_leader_inv in Ha as [Hev Hr]; [|done].
  destruct r1 as [[]|e].
  2:{ destruct Hrest as (Hs & -> & -> & ->), Hr as ((_ & _ & _ & Hc & Hla & _) & _), Hev as (_ & Hle & Hdur).
      split_and!; try done; [by apply Hdur|congruence|naive_solver]. }
  destruct Hr as (Hrole & Hl & Ht & Hc & Hla).
  assert (evolves rn (set_contact now rn1)) as Hev' by by eapply evolves_volatile_r.
  destruct Hrest as [(Hle & Hs & -> & -> & ->)|(Hlt & [(Hs & -> & Hlog)|(x1 & os1 & os2 & r2 & Hr1 & Hp1 & -> & Hz & Hs)])].
  - destruct Hev' as (_ & Hle' & Hdur). split_and!; try done; [by apply Hdur| |simpl; naive_solver].
    intros _. split_and!; try done. by left.
  - destruct Hev' as (_ & Hle' & Hdur). split_and!; try done; [by apply Hdur|congruence|simpl; naive_solver].
  - assert (installed os2) as Hi by (by exists x1, os1).
    assert (evolves rn (seedFromSnapshotLocked (is_LastIncludedIndex req) (set_contact now rn1)))
      as (_ & Hle' & Hdur) by by eapply evolves_volatile_r.
    split_and!; try done; [by apply Hdur| |by exists os2|].
    + rewrite Hs. intros Hok. split_and!; try done. right. exists os2. split; [done|].
      destruct r2 as [[]|]; [done|discriminate].
    + intros _. split; [by exists os2|]. unfold seedFromSnapshotLocked. simpl. rewrite <-Hc, <-Hla.
      destruct (Z.ltb_spec (rn_CommitIndex rn1) (is_LastIncludedIndex req)),
        (Z.ltb_spec (rn_LastApplied rn1) (is_LastIncludedIndex req)); lia.
Qed.

End Facts.
