(* ===== verification/RaftNodeRoles.v ===== *)
(** * Roles and terms of one node

    What each method of the node may do to its role, its term and its tally of
    votes: every receiver either leaves a follower behind or keeps all three, and
    only a campaign and a promotion make anything else. *)

From S2P Require Import Prelude Configuration Os FsUtil Types RaftLog RaftLogFacts RaftNode RaftNodeFacts.

Section Roles.
Context {S : Type} `{StateStoreLaws S} `{Codec LogEntry}.

(** The node became a follower, or kept role, term and tally. *)
Definition quiet (n n' : RaftNode S) : Prop :=
  rn_Role n' = Follower ∨
  rn_Role n' = rn_Role n ∧ rn_term n' = rn_term n ∧ rn_votesFrom n' = rn_votesFrom n.

Lemma same_volatile_quiet (n n' : RaftNode S) :
  same_volatile n n' → rn_persistent n' = rn_persistent n → quiet n n'.
Proof. intros (_ & Hr & _ & _ & _ & _ & Hv & _) Hp. right. unfold rn_term. by rewrite Hp. Qed.

Lemma becomeFollower_quiet t l n r n' : becomeFollowerLocked t l n = (r, n') → quiet n n'.
Proof.
  intros [_ Hr]%becomeFollowerLocked_inv. destruct r as [[]|].
  - left. by destruct Hr.
  - destruct Hr. by apply same_volatile_quiet.
Qed.

Lemma accept_leader_quiet t l n r n' : accept_leader t l n = (r, n') → quiet n n'.
Proof.
  unfold accept_leader. destruct (_ || _); [by apply becomeFollower_quiet|].
  intros [= <- <-]. by right.
Qed.

Lemma HandleRequestVote_quiet req last now n resp n' :
  HandleRequestVote req last now n = (resp, n') → quiet n n'.
Proof.
  intros Hh. apply HandleRequestVote_cases in Hh
    as [(_ & -> & _)|[(e & Hc & _)|[(rn1 & Hc & (Hf & _) & _ & ->)|(r & rn1 & Hc & _ & _ & ->)]]].
  - by right.
  - apply commitPersistentLocked_inv in Hc as [Hv [Hp _]]. by apply same_volatile_quiet.
  - apply commitPersistentLocked_inv in Hc as [(_ & Hr & _ & _ & _ & _ & Hv & _) Hp].
    destruct (Z.ltb_spec (rn_term n) (rv_Term req)) as [|Hge]; [by left|].
    right. unfold rn_term, vote_free in *. simpl. rewrite Hp. split_and!; try done. simpl. lia.
  - apply commitPersistentLocked_inv in Hc as [Hsv Hp]. destruct r.
    + destruct (rn_term n <? rv_Term req); [by left|]. by apply same_volatile_quiet.
    + destruct Hp. by apply same_volatile_quiet.
Qed.

Lemma seed_fields k (n : RaftNode S) :
  evolves n (seedFromSnapshotLocked k n) ∧ quiet n (seedFromSnapshotLocked k n).
Proof. split; [by apply evolves_volatile|by right]. Qed.

Lemma setFollowerCommit_quiet lc k n : quiet n (setFollowerCommitIndexLocked lc k n).
Proof. unfold setFollowerCommitIndexLocked. destruct (_ <? _); by right. Qed.

Lemma HandleAppendEntries_ok rl req now n resp n' rl' :
  HandleAppendEntries rl req now n = (resp, n', rl') → evolves n n' ∧ quiet n n'.
Proof.
  intros Hh. apply HandleAppendEntries_cases in Hh as [(_ & _ & -> & _)|(Hge & r1 & rn1 & Ha & Hrest)];
    [split; [reflexivity|by right]|].
  pose proof (accept_leader_quiet _ _ _ _ _ Ha) as Hq.
  apply accept_leader_inv in Ha as [Hev Hr]; [|done].
  destruct r1 as [[]|e]; [|by destruct Hrest as (_ & -> & _)].
  assert (evolves n (set_contact now rn1)) as Hev1 by by eapply evolves_volatile_r.
  destruct Hr as (Hrole & _), Hrest as (m & ct & ci & ok & _ & Hrest).
  destruct ok; destruct Hrest as [_ ->]; [|split; [done|by left]].
  split; [|left; by destruct (setFollowerCommit_fields (ae_LeaderCommit req) m (set_contact now rn1)) as [-> _]].
  etransitivity; [exact Hev1|]. apply setFollowerCommit_evolves.
Qed.

Lemma HandleInstallSnapshot_ok {X} rl req restore persist now n (x : X) resp n' rl' x' :
  HandleInstallSnapshot rl req restore persist now n x = (resp, n', rl', x') →
  evolves n n' ∧ quiet n n'.
Proof.
  intros Hh. apply HandleInstallSnapshot_cases in Hh as [(_ & _ & -> & _)|(Hge & r1 & rn1 & Ha & Hrest)];
    [split; [reflexivity|by right]|].
  pose proof (accept_leader_quiet _ _ _ _ _ Ha) as Hq.
  apply accept_leader_inv in Ha as [Hev Hr]; [|done].
  destruct r1 as [[]|e]; [|by destruct Hrest as (_ & -> & _)].
  assert (evolves n (set_contact now rn1)) as Hev1 by by eapply evolves_volatile_r.
  destruct Hr as (Hrole & _).
  destruct Hrest as [(_ & _ & -> & _)|(_ & [(_ & -> & _)|(? & ? & ? & ? & _ & _ & -> & _)])];
    (split; [|by left]); [done..|].
  etransitivity; [exact Hev1|]. apply seed_fields.
Qed.

(** ** Who stays leader *)

(** Whoever leads afterwards led before, in the same term. *)
Definition keeps_leader (n n' : RaftNode S) : Prop :=
  rn_Role n' = Leader → rn_Role n = Leader ∧ rn_term n' = rn_term n.

#[export] Instance keeps_leader_preorder : PreOrder keeps_leader.
Proof.
  unfold keeps_leader. split; [done|]. intros a b c Hab Hbc Hl.
  destruct (Hbc Hl) as [Hl' ->]. destruct (Hab Hl') as [? ->]. done.
Qed.

Lemma quiet_keeps n n' : quiet n n' → keeps_leader n n'.
Proof. intros [Hf|(Hr & Ht & _)] Hl; [congruence|]. split; congruence. Qed.

Lemma BecomeCandidate_keeps now n r n' : BecomeCandidate now n = (r, n') → keeps_leader n n'.
Proof.
  unfold BecomeCandidate. destruct (commitPersistentLocked _ n) as [[u|er] n1] eqn:Hc; intros [= _ <-]; [done|].
  apply commitPersistentLocked_inv in Hc as [Hv [Hp _]]. by apply quiet_keeps, same_volatile_quiet.
Qed.

Lemma RecordVote_keeps v t n won n' : RecordVoteAndCheckMajority v t n = (won, n') → keeps_leader n n'.
Proof. unfold RecordVoteAndCheckMajority. case_match; intros [= _ <-] Hl; done. Qed.

Lemma AdvanceCommitIndex_keeps k f t n r n' : AdvanceCommitIndex k f t n = (r, n') → keeps_leader n n'.
Proof. unfold AdvanceCommitIndex. repeat case_match; intros [= _ <-] Hl; done. Qed.

Lemma UpdatePeerProgress_keeps p m n : keeps_leader n (UpdatePeerProgress p m n).
Proof. unfold UpdatePeerProgress. case_match; by intros Hl. Qed.

End Roles.
