(* ===== verification/StateFile.v ===== *)
(** * The file behind the metadata record (fileStateStore in node.go)

    [Load] and [Save] over one JSON file replaced with WriteFileAtomic, and the
    proof that they keep the promises [StateStoreLaws] states, on every fault and
    crash script: this is where the durability of terms and votes meets the disk. *)

From S2P Require Import Prelude Configuration Os Json FsUtil Types Encoding RaftLog RaftNode RaftNodeFacts.

Record fileStateStore := mkFileStateStore { fss_path : string; fss_os : Os }.

Definition with_os {A} (f : fileStateStore) (r : result A * Os) : result A * fileStateStore :=
  (r.1, mkFileStateStore (fss_path f) r.2).

Definition fileLoad (f : fileStateStore) : result (option PersistentState) * fileStateStore :=
  match os_ReadFile (fss_path f) (fss_os f) with
  | (Ok None, os) => with_os f (Ok None, os)
  | (Err e, os) => with_os f (Err ("read raft metadata: " +:+ e)%string, os)
  | (Ok (Some data), os) =>
      match Unmarshal data with
      | Err e => with_os f (Err ("parse raft metadata: " +:+ e)%string, os)
      | Ok ps => with_os f (Ok (Some ps), os)
      end
  end.

Definition fileSave (state : PersistentState) (f : fileStateStore) : result unit * fileStateStore :=
  with_os f (m_wrap "persist raft metadata" (WriteFileAtomic (fss_path f) (Marshal state)) (fss_os f)).

#[export] Instance file_store : StateStore fileStateStore := {| Load := fileLoad; Save := fileSave |}.

(** ** What the file can say *)

(** The record a file's contents stand for; a file that does not parse stands for
    none, and makes [Load] fail. *)
Definition file_says (c : option bytes) (p : option PersistentState) : Prop :=
  match c, p with
  | None, None => True
  | Some d, Some ps => Unmarshal d = Ok ps
  | _, _ => False
  end.

Definition file_may_load (f : fileStateStore) (p : option PersistentState) : Prop :=
  ∃ c, crash_content (os_fs (fss_os f)) (fss_path f) c ∧ file_says c p.

(** What was written can only be read back as itself. *)
Lemma PersistentState_faithful (a b : PersistentState) : Unmarshal (Marshal a) = Ok b → b = a.
Proof.
  cbn [Unmarshal Marshal json_codec]. rewrite parse_render_ok. cbn [rbind of_json to_json PersistentState_json].
  destruct a as [t v]. unfold PersistentState_of_json, PersistentState_to_json, PersistentState_names.
  json_fields. unfold dec_int64, dec_int. cbn [CurrentTerm VotedFor].
  do 2 (case_decide; [|done]; cbn [rbind]). congruence.
Qed.

Lemma fileLoad_os f r f' : fileLoad f = (r, f') →
  fss_path f' = fss_path f ∧ os_fs (fss_os f') = os_fs (fss_os f) ∧
  ∀ p, r = Ok p → file_says (visible (os_fs (fss_os f)) (fss_path f)) p.
Proof.
  unfold fileLoad, os_ReadFile. destruct (syscall _ _ _) as [r0 os] eqn:Hs.
  apply syscall_inv in Hs.
  assert (os_fs os = os_fs (fss_os f)) as Hos.
  { destruct Hs as [Hs|[_ [Hs|[n Hs]]]]; [by injection Hs|done|done]. }
  destruct r0 as [[data|]|e].
  - destruct Hs as [Hs|[[? [=]] _]]. injection Hs as Hv _.
    destruct (Unmarshal data) as [ps|e] eqn:Hu; intros [= <- <-]; (split_and!; [done|done|]); [|done].
    intros p [= <-]. by rewrite <-Hv.
  - destruct Hs as [Hs|[[? [=]] _]]. injection Hs as Hv _.
    intros [= <- <-]. split_and!; [done|done|]. intros p [= <-]. by rewrite <-Hv.
  - intros [= <- <-]. done.
Qed.

Lemma fileSave_os state f r f' : fs_wf (os_fs (fss_os f)) → fileSave state f = (r, f') →
  fss_path f' = fss_path f ∧
  replacing (os_fs (fss_os f)) (os_fs (fss_os f')) (fss_path f) (fss_path f +:+ tempSuffix) (Marshal state) ∧
  (r = Ok tt → crash_only (os_fs (fss_os f')) (fss_path f) (Some (Marshal state))).
Proof.
  intros Hwf. unfold fileSave. destruct (m_wrap _ _ _) as [r0 os] eqn:Hw.
  apply m_wrap_inv in Hw as (r1 & Hw & Hr). apply WriteFileAtomic_spec in Hw as [Hrep Hok]; [|done].
  intros [= <- <-]. split_and!; [done|done|]. intros ->. apply Hok.
  destruct r1 as [[]|]; [done|]. by destruct Hr.
Qed.

Lemma settled_visible fs p : fs_wf fs → all_synced fs → crash_content fs p (visible fs p).
Proof.
  intros Hwf Hset. destruct (visible_crash fs p Hwf) as [c Hc].
  by rewrite <-(crash_content_settled _ _ _ Hwf Hset Hc).
Qed.

#[export] Instance file_store_laws : StateStoreLaws fileStateStore.
Proof.
  refine {| ss_inv f := fs_wf (os_fs (fss_os f));
            may_load := file_may_load;
            ss_reboot f f' := fss_path f' = fss_path f ∧ reboot (fss_os f) (fss_os f');
            ss_settled f := all_synced (os_fs (fss_os f)) |}.
  - intros ps f r f' Hwf (_ & [] & _)%fileSave_os; done.
  - intros ps f r f' p Hwf (Hp & [_ _ Hc _] & _)%fileSave_os (c & Hcc & Hs); [|done].
    rewrite Hp in Hcc. destruct (Hc _ Hcc) as [Hold| ->]; [left; by exists c|right].
    destruct p as [p|]; [|done]. f_equal. by apply PersistentState_faithful.
  - intros ps f f' p Hwf (Hp & _ & Hok)%fileSave_os (c & Hcc & Hs); [|done].
    rewrite Hp in Hcc. destruct (Hok eq_refl) as [_ Hu]. rewrite (Hu _ Hcc) in Hs.
    destruct p as [p|]; [|done]. f_equal. by apply PersistentState_faithful.
  - by intros f f' _ [_ [? _]].
  - intros f f' p Hwf [Hp (Hwf' & Hset & _ & Hc)] (c & Hcc & Hs).
    apply crash_content_settled in Hcc; [|done..]. subst c. rewrite Hp in Hs.
    eexists. split; [apply Hc|done].
  - intros f r f' Hwf (_ & -> & _)%fileLoad_os. done.
  - intros f r f' p Hwf (Hp & Ho & _)%fileLoad_os (c & Hcc & Hs).
    exists c. by rewrite Hp, Ho in Hcc.
  - by intros f f' _ [_ (_ & ? & _)].
  - intros f p f' Hwf Hset (Hp & Ho & Hr)%fileLoad_os. split.
    + eexists. split; [by apply settled_visible|by apply Hr].
    + intros p' (c & Hcc & Hs). rewrite Hp, Ho in Hcc.
      apply crash_content_settled in Hcc; [|done..]. subst c.
      specialize (Hr p eq_refl). unfold file_says in *.
      destruct (visible _ _), p, p'; try done; congruence.
Defined.

(** C33: a saved record is on disk.  At whatever system call [Save] fails or the
    machine stops, a later boot finds the record it could have found before or the
    new one; after a successful [Save] only the new one; and with no fault it
    succeeds. *)
Theorem fileSave_durable (ps : PersistentState) (f f' : fileStateStore) (r : result unit) :
  fs_wf (os_fs (fss_os f)) → Save ps f = (r, f') →
  (∀ p, may_load f' p → may_load f p ∨ p = Some ps) ∧
  (r = Ok tt → ∀ p, may_load f' p → p = Some ps) ∧
  (r = Ok tt → encodable ps → (Load f').1 = Ok (Some ps) ∨ ∃ e, (Load f').1 = Err e).
Proof.
  intros Hwf Hs. split; [intros p; exact (Save_may ps f r f' p Hwf Hs)|].
  split; [intros -> p; exact (Save_durable ps f f' p Hwf Hs)|].
  intros -> Henc. apply fileSave_os in Hs as (Hp & _ & Hok); [|done].
  destruct (Hok eq_refl) as [Hv _]. unfold Load, file_store.
  destruct (fileLoad f') as [[p|e] f''] eqn:Hl; [left|right; by eexists].
  apply fileLoad_os in Hl as (_ & _ & Hsays). specialize (Hsays p eq_refl).
  rewrite Hp, Hv in Hsays. destruct p as [p|]; [|done]. simpl.
  by rewrite (PersistentState_faithful _ _ Hsays).
Qed.

(** ** A blank disk *)

Definition blank : Os := mkOs (mkFs ∅ 0 ∅ ∅) [] false.

Lemma blank_wf : fs_wf (os_fs blank).
Proof.
  assert (∀ p, old_bindings (os_fs blank) p = []) as Hold
    by (intros p; unfold old_bindings; simpl; by rewrite lookup_empty).
  split; simpl.
  - by intros p i ?%lookup_empty_Some.
  - intros p i. rewrite Hold. by intros ?%elem_of_nil.
  - by intros p q i ?%lookup_empty_Some.
  - by intros p q i ?%lookup_empty_Some.
Qed.

Lemma blank_settled : all_synced (os_fs blank).
Proof. split; [done|]. simpl. by intros i nd ?%lookup_empty_Some. Qed.

Definition with_faults (fl : list fault) (os : Os) : Os := mkOs (os_fs os) fl (os_dead os).

Definition torn_disk : fileStateStore :=
  mkFileStateStore "raft.meta" (with_faults [FOk; FFail 3] blank).

Lemma fileSave_durable_witness :
  (Save (mkPersistentState 3 1) torn_disk).1 ≠ Ok tt ∧
  ∀ p, may_load (Save (mkPersistentState 3 1) torn_disk).2 p →
       may_load torn_disk p ∨ p = Some (mkPersistentState 3 1).
Proof.
  split; [vm_compute; congruence|].
  exact (proj1 (fileSave_durable (mkPersistentState 3 1) torn_disk
    (Save (mkPersistentState 3 1) torn_disk).2 (Save (mkPersistentState 3 1) torn_disk).1
    blank_wf (surjective_pairing _))).
Defined.

(** A reload is not a promise.  If [Save] fails after its rename and only the
    process restarts, [Load] returns the new record and the node acts on it, but
    nothing syncs the directory again: a machine crash can still bring back the
    state before, so the node's memory is ahead of its disk. *)
Theorem Load_not_durable :
  ∃ (f0 f1 f2 : fileStateStore) (ps : PersistentState) (e : string) (rn : RaftNode fileStateStore),
    ss_inv f0 ∧ ss_settled f0 ∧
    Save ps f0 = (Err e, f1) ∧
    NewRaftNode 1 (NewConfiguration voters3) f1 Follower 0 = (Ok rn, f2) ∧
    rn_persistent rn = ps ∧ may_load (rn_store rn) None ∧ ¬ node_durable rn.
Proof.
  set (f0 := mkFileStateStore "m" (with_faults [FOk; FOk; FOk; FOk; FOk; FFail 0] blank)).
  set (ps := mkPersistentState 5 2).
  assert (∃ e f1, Save ps f0 = (Err e, f1)) as (e & f1 & Hs)
    by (eexists _, _; vm_compute; reflexivity).
  assert (∃ rn f2, NewRaftNode 1 (NewConfiguration voters3) f1 Follower 0 = (Ok rn, f2) ∧
    rn_persistent rn = ps ∧ may_load (rn_store rn) None) as (rn & f2 & Hn & Hp & Hm).
  { pose proof (f_equal snd Hs) as Hf1. simpl in Hf1. subst f1. eexists _, _.
    split; [vm_compute; reflexivity|]. split; [done|].
    exists None. split; [|done]. exists None. split; [|done].
    right. vm_compute. left. }
  exists f0, f1, f2, ps, e, rn. split; [apply blank_wf|]. split; [apply blank_settled|].
  split_and!; try done. intros [_ Hd]. specialize (Hd _ Hm). rewrite Hp in Hd. destruct Hd as [Hd|[Hd _]]; simpl in Hd; lia.
Qed.
