(* ===== verification/Config.v ===== *)
(** * Command-line configuration (internal/config/config.go, main.go)

    Parsing the peer list, validating the node's own configuration, the paths of
    the data files, and the bootstrap membership main builds from it.  The flag
    package is outside the model; what the program computes from the flags' values
    is not. *)

From Stdlib Require Import Strings.Byte Decimal.
From stdpp Require Import pretty.
From S2P Require Import Prelude Configuration Os Json FsUtil Types StateMachine.

Record Config := mkConfig {
  NodeID : Z;
  Port : string;
  DataDir : string;
  cfg_Peers : gmap Z string;
  CompactionThreshold : Z;
  cfg_SessionTTL : Z;
}.

Definition SelfAddr (c : Config) : string := "localhost" +:+ Port c.

(** ** Text *)

Definition comma : Byte.byte := ","%byte.
Definition colon : Byte.byte := ":"%byte.

(** [strings.Split(s, sep)] for a one-byte separator. *)
Fixpoint split_on (sep : Byte.byte) (s : bytes) : list bytes :=
  match s with
  | [] => [[]]
  | b :: s =>
      if decide (b = sep) then [] :: split_on sep s
      else
        match split_on sep s with
        | [] => [[b]]
        | p :: ps => (b :: p) :: ps
        end
  end.

(** [strings.SplitN(s, sep, 2)]: the text before and after the first separator. *)
Fixpoint split_first (sep : Byte.byte) (s : bytes) : option (bytes * bytes) :=
  match s with
  | [] => None
  | b :: s =>
      if decide (b = sep) then Some ([], s)
      else match split_first sep s with Some (p, q) => Some (b :: p, q) | None => None end
  end.

Fixpoint skip_spaces (s : bytes) : bytes :=
  match s with
  | b :: r => if decide (b = x20 ∨ b = x09) then skip_spaces r else s
  | [] => []
  end.

(** [fmt.Sscanf(s, _, &n)] with the verb d: leading spaces, a sign, digits; what
    follows the digits is ignored. *)
Definition scan_int (s : bytes) : result Z :=
  let digits neg r :=
    match (parse_digits r).1 with
    | Nil => Err "expected integer"%string
    | u =>
        let n := Z.of_N (N.of_uint u) in
        let z := if (neg : bool) then - n else n in
        if decide (int64 z) then Ok z else Err "integer overflow"%string
    end in
  match skip_spaces s with
  | "-"%byte :: r => digits true r
  | "+"%byte :: r => digits false r
  | r => digits false r
  end.

(** ** Paths *)

Definition slash : Byte.byte := "/"%byte.
Definition dot : bytes := ["."%byte].
Definition dotdot : bytes := ["."%byte; "."%byte].

(** [filepath.Clean], element by element: [out] is what is kept so far, the last
    element first. *)
Fixpoint clean_elems (rooted : bool) (es out : list bytes) : list bytes :=
  match es with
  | [] => reverse out
  | e :: es =>
      if decide (e = [] ∨ e = dot) then clean_elems rooted es out
      else if decide (e = dotdot) then
        match out with
        | [] => clean_elems rooted es (if rooted then [] else [dotdot])
        | o :: up => clean_elems rooted es (if decide (o = dotdot) then (dotdot :: out) else up)
        end
      else clean_elems rooted es (e :: out)
  end.

Definition filepath_Clean (p : bytes) : bytes :=
  let rooted := bool_decide (head p = Some slash) in
  let es := clean_elems rooted (split_on slash p) [] in
  if rooted then slash :: join slash es else if decide (es = []) then dot else join slash es.

(** [filepath.Join]: empty elements are ignored. *)
Definition filepath_Join (elems : list string) : string :=
  match filter (λ e, e ≠ []) (map str elems) with
  | [] => ""
  | es => String.string_of_list_byte (filepath_Clean (join slash es))
  end.

Definition WALPath (c : Config) : string := filepath_Join [DataDir c; "raft.wal"%string].
Definition MetadataPath (c : Config) : string := filepath_Join [DataDir c; "raft.meta"%string].
Definition SnapshotPath (c : Config) : string := filepath_Join [DataDir c; "snapshot.json"%string].

(** ** Peers *)

Definition parse_entry (entry : bytes) : result (Z * string) :=
  match split_first colon entry with
  | None => Err ("invalid peer entry " +:+ quote (String.string_of_list_byte entry) +:+ ": expected id:host:port")%string
  | Some (id, addr) =>
      match scan_int id with
      | Err e => Err ("invalid peer ID in " +:+ quote (String.string_of_list_byte entry) +:+ ": " +:+ e)%string
      | Ok peerID => Ok (peerID, String.string_of_list_byte addr)
      end
  end.

Fixpoint parse_entries (entries : list bytes) (peers : gmap Z string) : result (gmap Z string) :=
  match entries with
  | [] => Ok peers
  | entry :: entries =>
      match parse_entry entry with
      | Err e => Err e
      | Ok (peerID, addr) => parse_entries entries (<[peerID := addr]> peers)
      end
  end.

Definition parsePeers (raw : string) (peers : gmap Z string) : result (gmap Z string) :=
  if String.eqb raw "" then Ok peers else parse_entries (split_on comma (str raw)) peers.

(** ** Validation *)

Definition validate (c : Config) : option go_error :=
  if NodeID c <=? 0 then Some ("node ID must be a positive integer, got " +:+ pretty (NodeID c))%string
  else if String.eqb (DataDir c) "" then Some "data-dir must not be empty"%string
  else
    match cfg_Peers c !! NodeID c with
    | Some addr =>
        Some ("node " +:+ pretty (NodeID c) +:+ " is listed in its own -peers as " +:+ quote addr +:+
              ": peers must name only the OTHER cluster members")%string
    | None => None
    end.

(** The values of the flags, as [ParseFlags] combines them. *)
Definition ParseFlags (id : Z) (port dataDir peers : string) (compaction sessionTTL : Z) : result Config :=
  match parsePeers peers ∅ with
  | Err e => Err e
  | Ok ps =>
      let cfg := mkConfig id (":" +:+ port) dataDir ps compaction sessionTTL in
      match validate cfg with Some e => Err e | None => Ok cfg end
  end.

(** main: the bootstrap voters are the peers and this node. *)
Definition bootstrap (c : Config) : Configuration :=
  NewConfiguration (Some (<[NodeID c := SelfAddr c]> (cfg_Peers c))).

(** ** Printing a peer list *)

Definition render_peer (p : Z * string) : bytes := render_num p.1 ++ colon :: str p.2.

Definition render_peers (ps : list (Z * string)) : bytes := join comma (map render_peer ps).

Lemma split_on_nosep sep s : sep ∉ s → split_on sep s = [s].
Proof.
  induction s as [|b s IH]; intros Hn; simpl; [done|].
  rewrite decide_False by set_solver. rewrite IH by set_solver. done.
Qed.

Lemma split_on_app sep s t : sep ∉ s → split_on sep (s ++ sep :: t) = s :: split_on sep t.
Proof.
  induction s as [|b s IH]; intros Hn; simpl; [by rewrite decide_True|].
  rewrite decide_False by set_solver. rewrite IH by set_solver. done.
Qed.

Lemma split_on_join sep l : l ≠ [] → Forall (λ s, sep ∉ s) l → split_on sep (join sep l) = l.
Proof.
  intros Hne Hall. induction Hall as [|s l Hs Hall IH]; [done|].
  destruct l as [|t l]; [by apply split_on_nosep|].
  rewrite join_cons, split_on_app by done. by rewrite IH.
Qed.

Lemma split_first_app sep s t : sep ∉ s → split_first sep (s ++ sep :: t) = Some (s, t).
Proof.
  induction s as [|b s IH]; intros Hn; simpl; [by rewrite decide_True|].
  rewrite decide_False by set_solver. rewrite IH by set_solver. done.
Qed.

Lemma uint_bytes_plain d b : b = comma ∨ b = colon → b ∉ uint_bytes d.
Proof. intros Hb. induction d; simpl; [set_solver|..]; apply not_elem_of_cons; naive_solver. Qed.

Lemma render_num_plain z b : b = comma ∨ b = colon → b ∉ render_num z.
Proof.
  intros Hb. unfold render_num. rewrite not_elem_of_app. split; [|by apply uint_bytes_plain].
  destruct (z <? 0); [|by apply not_elem_of_nil]. destruct Hb as [-> | ->]; set_solver.
Qed.

Lemma parse_digits_all d : parse_digits (uint_bytes d) = (d, []).
Proof. rewrite <-(app_nil_r (uint_bytes d)). by apply parse_digits_uint. Qed.

Lemma scan_int_render z : int64 z → scan_int (render_num z) = Ok z.
Proof.
  intros Hz. unfold scan_int, render_num.
  pose proof (to_uint_normal (Z.to_N (Z.abs z))) as Hn.
  pose proof (DecimalN.Unsigned.of_to (Z.to_N (Z.abs z))) as Hof.
  pose proof (parse_digits_all (N.to_uint (Z.to_N (Z.abs z)))) as Hp.
  destruct (Z.ltb_spec z 0) as [Hneg|Hpos].
  - cbn [app skip_spaces]. rewrite decide_False by naive_solver. rewrite Hp. cbn [fst].
    destruct (N.to_uint _); try done; cbn match; rewrite Hof;
      replace (- Z.of_N (Z.to_N (Z.abs z))) with z by lia; by rewrite decide_True.
  - cbn [app]. destruct (N.to_uint _); try done; cbn [uint_bytes skip_spaces] in *;
      rewrite decide_False by naive_solver; cbn match; rewrite Hp; cbn [fst]; cbn match;
      rewrite Hof; replace (Z.of_N (Z.to_N (Z.abs z))) with z by lia; by rewrite decide_True.
Qed.

(** The characters an address may hold: no comma, which ends the entry. *)
Definition plain_peer (p : Z * string) : Prop := int64 p.1 ∧ comma ∉ str p.2.

Lemma parse_entry_render p : plain_peer p → parse_entry (render_peer p) = Ok p.
Proof.
  intros [Hz _]. destruct p as [id addr]. unfold parse_entry, render_peer. cbn [fst snd] in *.
  rewrite split_first_app by (apply render_num_plain; by right).
  rewrite scan_int_render by done. unfold str. by rewrite String.string_of_list_byte_of_string.
Qed.

Lemma parse_entries_render ps peers :
  Forall plain_peer ps →
  parse_entries (map render_peer ps) peers = Ok (foldl (λ m '(i, a), <[i := a]> m) peers ps).
Proof.
  intros Hps. revert peers. induction Hps as [|[i a] ps Hp _ IH]; intros peers; simpl; [done|].
  by rewrite parse_entry_render, IH.
Qed.

(** the peer list parses as written.  A list of peers, printed as id, colon,
    address and joined by commas, parses to exactly those peers, the last entry of
    a repeated id winning, for every 64-bit id and every address without a comma,
    colons included. *)
Theorem parsePeers_correct (ps : list (Z * string)) :
  ps ≠ [] → Forall plain_peer ps →
  parsePeers (String.string_of_list_byte (render_peers ps)) ∅
  = Ok (foldl (λ m '(i, a), <[i := a]> m) ∅ ps).
Proof.
  intros Hne Hps. unfold parsePeers.
  assert (render_peers ps ≠ []) as Hr.
  { destruct ps as [|p ps]; [done|]. unfold render_peers. cbn [map].
    assert (render_peer p ≠ []) as Hp by (unfold render_peer; by destruct (render_num p.1)).
    destruct (map render_peer ps); [done|]. cbn [join]. by destruct (render_peer p). }
  destruct (String.eqb_spec (String.string_of_list_byte (render_peers ps)) "") as [He|_].
  { exfalso. apply Hr. rewrite <-(String.list_byte_of_string_of_list_byte (render_peers ps)), He. done. }
  unfold str. rewrite String.list_byte_of_string_of_list_byte. unfold render_peers.
  rewrite split_on_join; [by apply parse_entries_render|by destruct ps|].
  apply Forall_map. eapply Forall_impl; [exact Hps|]. intros [i a] [_ Ha]. cbn [snd] in Ha.
  unfold render_peer. cbn [fst snd]. rewrite not_elem_of_app, not_elem_of_cons.
  split_and!; [apply render_num_plain; by left|done|done].
Qed.

(** A configuration that starts is usable.  When the flags are accepted, this
    node has a positive id, is not among its own peers, and counts itself exactly
    once: the bootstrap voters are the peers and itself; and if every peer has a
    positive id and an address the node constructor accepts them. *)
Theorem ParseFlags_bootstrap (id : Z) (port dataDir peers : string) (compaction ttl : Z) (c : Config) :
  ParseFlags id port dataDir peers compaction ttl = Ok c →
  0 < NodeID c ∧ cfg_Peers c !! NodeID c = None ∧
  gm_len (Voters (bootstrap c)) = Z.of_nat (size (cfg_Peers c)) + 1 ∧
  Peers (bootstrap c) (NodeID c) = cfg_Peers c ∧
  (map_Forall (λ i a, 0 < i ∧ a ≠ ""%string) (cfg_Peers c) → Validate (bootstrap c) = None).
Proof.
  unfold ParseFlags. destruct (parsePeers peers ∅) as [ps|]; [|done].
  destruct (validate _) eqn:Hv; [done|]. intros [= <-]. revert Hv. unfold validate. cbn [NodeID DataDir cfg_Peers].
  destruct (Z.leb_spec id 0); [done|]. destruct (String.eqb dataDir ""); [done|].
  destruct (ps !! id) eqn:Hid; [done|]. intros _.
  unfold bootstrap, NewConfiguration. rewrite copyMembers_id. cbn [NodeID cfg_Peers Voters].
  split_and!; try done.
  - unfold gm_len. simpl. rewrite map_size_insert_None by done. lia.
  - unfold Peers. apply map_eq. intros k. destruct (decide (id = k)) as [<-|Hk].
    + by rewrite lookup_delete_eq.
    + rewrite lookup_delete_ne, Members_lookup by done. simpl. rewrite lookup_insert_ne by done.
      by rewrite !lookup_empty; destruct (ps !! k).
  - intros Hps. apply Validate_spec. split_and!; simpl.
    + apply insert_non_empty.
    + intros k a [[<- <-]|[_ Hk]]%lookup_insert_Some; [split; [lia|done]|]. by apply (Hps k a).
    + intros k [x Hx]. by rewrite lookup_empty in Hx.
Qed.

(** ** The data files *)

Lemma split_on_ne sep s : split_on sep s ≠ [].
Proof. destruct s as [|b s]; simpl; [done|]. case_decide; [done|]. by destruct (split_on sep s). Qed.

Lemma split_on_snoc sep s t : sep ∉ t → split_on sep (s ++ sep :: t) = split_on sep s ++ [t].
Proof.
  intros Ht. induction s as [|b s IH]; simpl; [rewrite decide_True, split_on_nosep by done; done|].
  case_decide; [by rewrite IH|]. rewrite IH.
  pose proof (split_on_ne sep s). by destruct (split_on sep s).
Qed.

(** An element that cleaning keeps as it is. *)
Definition plain_elem (e : bytes) : Prop := (slash ∉ e) ∧ e ≠ [] ∧ e ≠ dot ∧ e ≠ dotdot.

#[local] Instance plain_elem_dec e : Decision (plain_elem e).
Proof. unfold plain_elem. apply _. Defined.

Lemma clean_elems_snoc rooted es e : plain_elem e → ∀ out,
  clean_elems rooted (es ++ [e]) out = clean_elems rooted es out ++ [e].
Proof.
  intros (_ & Hn & Hd & Hdd). induction es as [|x es IH]; intros out; simpl.
  - rewrite !decide_False by naive_solver. by rewrite reverse_cons.
  - case_decide; [apply IH|]. case_decide; [|apply IH]. destruct out; apply IH.
Qed.

Lemma join_snoc sep l e : l ≠ [] → join sep (l ++ [e]) = join sep l ++ sep :: e.
Proof.
  intros Hl. induction l as [|x l IH]; [done|]. destruct l as [|y l]; [done|].
  cbn [app]. rewrite !join_cons. cbn [app] in IH. rewrite IH by done. by rewrite <-app_assoc.
Qed.

Lemma string_of_bytes_app (a b : bytes) :
  String.string_of_list_byte (a ++ b) = (String.string_of_list_byte a +:+ String.string_of_list_byte b)%string.
Proof.
  unfold String.string_of_list_byte. rewrite map_app.
  induction (map Ascii.ascii_of_byte a) as [|x l IH]; [done|]. simpl. by rewrite IH.
Qed.

(** A plain name joined to a directory: what precedes it is the directory's. *)
Lemma filepath_Join_name (dir : string) : dir ≠ ""%string →
  ∃ pre, ∀ name, plain_elem (str name) → filepath_Join [dir; name] = (pre +:+ name)%string.
Proof.
  intros Hdir. set (d := str dir).
  assert (d ≠ []) as Hd.
  { unfold d, str. intros Hn. apply Hdir. rewrite <-(String.string_of_list_byte_of_string dir). by rewrite Hn. }
  set (rooted := bool_decide (head d = Some slash)). set (es := clean_elems rooted (split_on slash d) []).
  set (pre := (if rooted then [slash] else []) ++ (if decide (es = []) then [] else join slash es ++ [slash])).
  exists (String.string_of_list_byte pre). intros name Hp. pose proof Hp as (Hs & Hn & _ & _).
  unfold filepath_Join. cbn [map]. fold d. rewrite !filter_cons, filter_nil.
  rewrite !decide_True by done. cbn [join].
  assert (filepath_Clean (d ++ slash :: str name) = pre ++ str name) as ->.
  { unfold filepath_Clean. rewrite split_on_snoc, clean_elems_snoc by done.
    replace (bool_decide (head (d ++ slash :: str name) = Some slash)) with rooted by (unfold rooted; by destruct d).
    fold es. unfold pre. destruct (decide (es = [])) as [He|He].
    - rewrite He. by destruct rooted.
    - rewrite (join_snoc _ _ _ He). rewrite decide_False by (by destruct es).
      destruct rooted; simpl; by rewrite <-?app_assoc. }
  rewrite string_of_bytes_app. unfold str. by rewrite String.string_of_list_byte_of_string.
Qed.

Lemma string_app_inj (p a b : string) : (p +:+ a = p +:+ b)%string → a = b.
Proof. induction p as [|ch p IH]; [done|]. intros [= Hp]. by apply IH. Qed.

Lemma string_app_assoc (a b c : string) : ((a +:+ b) +:+ c = a +:+ (b +:+ c))%string.
Proof. induction a as [|ch a IH]; [done|]. exact (f_equal (String.String ch) IH). Qed.

Lemma data_files_apart_spec (c : Config) :
  DataDir c ≠ ""%string →
  NoDup [WALPath c; WALPath c +:+ ".rewrite"; MetadataPath c; MetadataPath c +:+ tempSuffix;
         SnapshotPath c; SnapshotPath c +:+ tempSuffix]%string.
Proof.
  intros Hdir. destruct (filepath_Join_name _ Hdir) as [pre Hpre].
  unfold WALPath, MetadataPath, SnapshotPath. rewrite !Hpre by (apply (bool_decide_unpack _); vm_compute; exact I).
  rewrite !string_app_assoc.
  assert (∀ l, NoDup l → NoDup (map (String.append pre) l)) as Hmap.
  { intros l Hl. apply NoDup_fmap_2; [|done]. intros a b. apply string_app_inj. }
  apply (Hmap ["raft.wal"; "raft.wal.rewrite"; "raft.meta"; "raft.meta.tmp"; "snapshot.json"; "snapshot.json.tmp"]%string).
  apply (bool_decide_unpack _). vm_compute. exact I.
Qed.

(** The data files do not collide.  Whatever the data directory is called, the
    WAL, the metadata file, the snapshot and the temporary files their writers
    stage are six different paths: replacing one never touches another. *)
Theorem data_files_apart (c : Config) :
  DataDir c ≠ ""%string →
  NoDup [WALPath c; WALPath c +:+ ".rewrite"; MetadataPath c; MetadataPath c +:+ tempSuffix;
         SnapshotPath c; SnapshotPath c +:+ tempSuffix]%string.
Proof. apply data_files_apart_spec. Qed.
