(* ===== verification/Replicator.v ===== *)
(** * Outbound replication (internal/raft/replicator.go)

    The leader's half of AppendEntries.  [ReplicateTo] reads the node and the log
    in five separate critical sections before it sends, so its request is modelled
    from the states those sections see; undisturbed, all five are one state.  The
    network is a function from the request to the reply, if any. *)

From S2P Require Import Prelude Configuration Os Types Encoding RaftLog RaftLogFacts RaftNode RaftNodeFacts StateFile.

Section Replicator.
Context {S : Type} `{StateStoreLaws S} `{Codec LogEntry}.

(** ** Building the request *)

(** [n1], [n2], [n3]: the node when its term, its commit index and the peer's next
    index are read; [rl1], [rl2]: the log when the preceding term and the entries
    are read. *)
Definition append_request (n1 n2 n3 : RaftNode S) (rl1 rl2 : RaftLog) (peerID : Z)
    : AppendEntriesRequest :=
  let term := (State n1).2 in
  let commitIndex := rn_CommitIndex n2 in
  let nextIndex := NextIndexFor peerID n3 in
  let prevLogIndex := nextIndex -! 1 in
  let prevLogTerm := if 0 <? prevLogIndex then TermAt rl1 prevLogIndex else 0 in
  let entries := GetEntriesFrom rl2 nextIndex in
  mkAppendEntriesRequest term (NodeID n1) prevLogIndex prevLogTerm entries commitIndex.

(** ** Using the reply *)

(** [None]: the peer was unreachable.  [term] is the term the request was sent in;
    the node is whatever it has become by the time the reply is in. *)
Definition append_reply (term peerID : Z) (result : option AppendEntriesResponse) (n : RaftNode S)
    : Z * RaftNode S :=
  match result with
  | None => (0, n)
  | Some result =>
      if term <? aer_Term result then (aer_Term result, n)
      else if aer_Success result then
        (aer_Term result, UpdatePeerProgress peerID (aer_MatchIndex result) n)
      else (aer_Term result, BacktrackNextIndex peerID (aer_ConflictIndex result) n)
  end.

(** One undisturbed round. *)
Definition ReplicateTo (send : AppendEntriesRequest → option AppendEntriesResponse)
    (rl : RaftLog) (peerID : Z) (n : RaftNode S) : Z * RaftNode S :=
  append_reply (State n).2 peerID (send (append_request n n n rl rl peerID)) n.

(** [index]: the last index the shipped snapshot includes. *)
Definition snapshot_reply (term peerID index : Z) (result : option InstallSnapshotResponse)
    (n : RaftNode S) : Z * RaftNode S :=
  match result with
  | None => (0, n)
  | Some result =>
      if term <? isr_Term result then (isr_Term result, n)
      else if negb (isr_Success result) then (isr_Term result, n)
      else (isr_Term result, UpdatePeerProgress peerID index n)
  end.

Definition InstallSnapshotTo (send : InstallSnapshotRequest → option InstallSnapshotResponse)
    (peerID : Z) (req : InstallSnapshotRequest) (n : RaftNode S) : Z * RaftNode S :=
  snapshot_reply (State n).2 peerID (is_LastIncludedIndex req) (send req) n.

(** [PreVoteFrom], [RequestVoteFrom] and [ReadIndexFrom] pass a reply through. *)
Definition PreVoteFrom (send : PreVoteRequest → option PreVoteResponse) (req : PreVoteRequest)
    : PreVoteResponse * bool :=
  match send req with Some r => (r, true) | None => (mkPreVoteResponse 0 false, false) end.

Definition RequestVoteFrom (send : RequestVoteRequest → option RequestVoteResponse)
    (req : RequestVoteRequest) : RequestVoteResponse * bool :=
  match send req with Some r => (r, true) | None => (mkRequestVoteResponse 0 false, false) end.

Definition ReadIndexFrom (send : ReadIndexRequest → option ReadIndexResponse)
    (req : ReadIndexRequest) : ReadIndexResponse * bool :=
  match send req with Some r => (r, true) | None => (mkReadIndexResponse 0 0 false, false) end.

(** ** An undisturbed request is a window of the leader's log *)

Lemma GetEntriesFrom_window rl i :
  log_pos rl → int64 i → rl_firstIndex rl ≤ i →
  GetEntriesFrom rl i = drop (Z.to_nat (i - rl_firstIndex rl)) (rl_cache rl).
Proof.
  intros [Hf _ Hlo Hhi] Hi Hle. unfold GetEntriesFrom, cache_len in *. wrapless.
  destruct (Z.ltb_spec (i - rl_firstIndex rl) 0); [lia|].
  destruct (Z.leb_spec (Z.of_nat (length (rl_cache rl))) (i - rl_firstIndex rl)); [|done].
  by rewrite drop_ge by lia.
Qed.

Lemma append_request_window n rl peer :
  log_pos rl → int64 (NextIndexFor peer n) →
  rl_firstIndex rl ≤ NextIndexFor peer n ≤ rl_firstIndex rl + cache_len rl →
  let req := append_request n n n rl rl peer in
  ae_PrevLogIndex req = NextIndexFor peer n - 1 ∧
  ae_Entries req = drop (Z.to_nat (NextIndexFor peer n - rl_firstIndex rl)) (rl_cache rl) ∧
  contiguous (ae_PrevLogIndex req + 1) (ae_Entries req) ∧
  ae_PrevLogIndex req + Z.of_nat (length (ae_Entries req)) = lastIndexLocked rl.
Proof.
  intros Hp Hi Hn req. pose proof (lp_first _ Hp). pose proof (lp_low _ Hp).
  pose proof (lp_high _ Hp). unfold cache_len in *.
  unfold req, append_request. cbn [ae_PrevLogIndex ae_Entries]. wrapless.
  rewrite GetEntriesFrom_window by (done || lia).
  set (k := Z.to_nat (NextIndexFor peer n - rl_firstIndex rl)).
  assert (NextIndexFor peer n - 1 + 1 = rl_firstIndex rl + Z.of_nat k) as Hk by lia.
  split_and!; [done|done| |].
  - rewrite Hk. apply contiguous_drop; [lia|]. by apply lp_entries.
  - rewrite lastIndexLocked_spec by done. unfold cache_len. rewrite length_drop. lia.
Qed.

(** Two logs agree on the entry at an index. *)
Definition agree_at (rl1 rl2 : RaftLog) (i : Z) : Prop :=
  ∃ e1 e2, entry_at rl1 i = Some e1 ∧ entry_at rl2 i = Some e2 ∧ le_Term e1 = le_Term e2.

Lemma merge_terms f log es (i : nat) e :
  contiguous f log → contiguous f es → es !! i = Some e →
  ∃ e', merge log es !! i = Some e' ∧ le_Term e' = le_Term e.
Proof.
  revert f log i. induction es as [|x es IH]; intros f log i Hl He Hi; [done|].
  destruct log as [|y log]; [rewrite merge_nil_l; eauto|]. simpl.
  apply contiguous_cons in Hl as [_ Hl]. apply contiguous_cons in He as [_ He].
  destruct (Z.eqb_spec (le_Term y) (le_Term x)) as [Hxy|].
  - destruct i as [|i]; simpl in *; [injection Hi as <-; eauto|]. by eapply IH.
  - destruct i as [|i]; simpl in *; eauto.
Qed.

Lemma entry_at_split rl rl' k es i :
  same_base rl rl' → rl_firstIndex rl = rl_lastIncludedIndex rl + 1 →
  rl_cache rl' = take k (rl_cache rl) ++ es → (k ≤ length (rl_cache rl))%nat →
  rl_firstIndex rl + Z.of_nat k ≤ i →
  entry_at rl' i = es !! Z.to_nat (i - (rl_firstIndex rl + Z.of_nat k)).
Proof.
  intros Hb Hf Hc Hk Hi. unfold entry_at.
  assert (rl_firstIndex rl' = rl_firstIndex rl) as -> by apply Hb.
  rewrite decide_True by lia. rewrite Hc, lookup_app_r; rewrite length_take_le by lia; [f_equal|]; lia.
Qed.

(** one accepted round brings a follower level.  If an undisturbed AppendEntries
    round succeeds at a follower whose log satisfies its invariant, then the
    follower's log holds, at every index after the anchor, an entry of the same
    term as the leader's, the anchor itself was checked, the follower reports the
    leader's last index, and the leader credits the peer with exactly that. *)
Theorem round_brings_level (n n' : RaftNode S) (peer now : Z) (rlL rlF rlF' : RaftLog)
    (nF nF' : RaftNode S) (resp : AppendEntriesResponse) (t : Z) :
  log_pos rlL → log_wf rlF → int64 (NextIndexFor peer n) →
  rl_firstIndex rlL ≤ NextIndexFor peer n ≤ rl_firstIndex rlL + cache_len rlL →
  rl_lastIncludedIndex rlF ≤ NextIndexFor peer n - 1 →
  is_Some (rn_MatchIndex n !! peer) →
  HandleAppendEntries rlF (append_request n n n rlL rlL peer) now nF = (resp, nF', rlF') →
  aer_Success resp = true → aer_Term resp = rn_term n →
  append_reply (State n).2 peer (Some resp) n = (t, n') →
  log_wf rlF' ∧
  (∀ i, NextIndexFor peer n ≤ i ≤ lastIndexLocked rlL → agree_at rlL rlF' i) ∧
  (0 < NextIndexFor peer n - 1 →
     TermAt rlF (NextIndexFor peer n - 1) = TermAt rlL (NextIndexFor peer n - 1)) ∧
  aer_MatchIndex resp = lastIndexLocked rlL ∧
  gm_int (rn_MatchIndex n') peer = Z.max (gm_int (rn_MatchIndex n) peer) (lastIndexLocked rlL).
Proof.
  intros HL HF Hi HnL HnF Hknown Hh Hs Hterm Hrep.
  pose proof (append_request_window n rlL peer HL Hi HnL) as (Hprev & Hes & Hcon & Hlen).
  set (req := append_request n n n rlL rlL peer) in *.
  pose proof (lp_first _ HL). pose proof (lp_low _ HL). pose proof (lp_high _ HL) as HhiL.
  pose proof (lastIndexLocked_spec rlL HL) as HlastL.
  apply HandleAppendEntries_cases in Hh
    as [(_ & -> & _)|(_ & r1 & n1 & _ & Hh)]; [done|].
  destruct r1 as [[]|]; [|by destruct Hh as [-> _]].
  destruct Hh as (m & ct & ci & ok & Hlog & Hh). destruct ok; [|by destruct Hh as [-> _]].
  destruct Hh as [Hresp _].
  pose proof (AppendEntriesToLog_spec rlF (ae_PrevLogIndex req) (ae_PrevLogTerm req) (ae_Entries req)
    HF ltac:(lia) Hcon ltac:(lia)) as Hspec.
  rewrite Hlog in Hspec. cbv zeta in Hspec. destruct Hspec as (Hm & -> & Hcache & HwfF & Hbase).
  set (k := Z.to_nat (ae_PrevLogIndex req - rl_lastIncludedIndex rlF)) in *.
  pose proof HF as [HpF _]. pose proof (lp_first _ HpF) as HfF. pose proof (lp_low _ HpF).
  assert (rl_firstIndex rlF + Z.of_nat k = ae_PrevLogIndex req + 1) as HkF by lia.
  assert (k ≤ length (rl_cache rlF))%nat as Hk.
  { unfold prev_matches in Hm. rewrite (lastIndexLocked_spec rlF HpF) in Hm. unfold cache_len in Hm.
    apply orb_true_iff in Hm as [?%Z.leb_le|[?%Z.leb_le _]%andb_true_iff]; lia. }
  split_and!; [done| | | |].
  - intros i Hrange.
    assert (is_Some (ae_Entries req !! Z.to_nat (i - NextIndexFor peer n))) as [e He].
    { apply lookup_lt_is_Some. lia. }
    pose proof (merge_terms (ae_PrevLogIndex req + 1) (drop k (rl_cache rlF)) (ae_Entries req)
      (Z.to_nat (i - NextIndexFor peer n)) e) as Hmt.
    destruct Hmt as (e' & He' & Ht'); [|done|exact He|].
    { rewrite <-HkF. apply contiguous_drop; [done|]. by apply lp_entries. }
    exists e, e'. split_and!; [| |done].
    + unfold entry_at. rewrite decide_True by lia. rewrite Hes, lookup_drop in He. rewrite <-He. f_equal. lia.
    + rewrite (entry_at_split rlF _ k _ i Hbase HfF Hcache Hk) by lia. rewrite <-He'. f_equal. lia.
  - intros Hpos. rewrite <-Hprev in *. unfold prev_matches in Hm.
    apply orb_true_iff in Hm as [?%Z.leb_le|[_ Ht%Z.eqb_eq]%andb_true_iff]; [lia|].
    rewrite Ht. unfold req, append_request. cbn [ae_PrevLogTerm ae_PrevLogIndex].
    change (NextIndexFor peer n -! 1) with (ae_PrevLogIndex req).
    destruct (Z.ltb_spec 0 (ae_PrevLogIndex req)); [done|lia].
  - rewrite Hresp. cbn [aer_MatchIndex]. lia.
  - assert (aer_MatchIndex resp = lastIndexLocked rlL) as HM by (rewrite Hresp; cbn [aer_MatchIndex]; lia).
    revert Hrep. unfold append_reply. rewrite Hs, Hterm, HM. unfold State, rn_term. cbn [snd].
    rewrite Z.ltb_irrefl. intros [= _ <-]. apply UpdatePeerProgress_match; [done|].
    unfold cache_len in *. lia.
Qed.

End Replicator.

(** ** A disturbed round

    Five servers; server 1 leads term 1 and server 3 holds the same two entries. *)

Definition voters5 : gomap string :=
  Some {[1 := "a"; 2 := "b"; 3 := "c"; 4 := "d"; 5 := "e"]}%string.

Definition fresh_wal : RaftLog := (NewRaftLog "raft.wal" blank).2.

Definition log_with (terms : list Z) : RaftLog :=
  (AppendEntriesToLog 0 0 (imap (λ i t, mkLogEntry (Z.of_nat i + 1) t []) terms) fresh_wal).2.

Definition node_with (id : Z) (role : NodeRole) (leader term : Z) : RaftNode fileStateStore :=
  mkRaftNode id (NewConfiguration voters5) role leader 0 0 0 None DefaultMinElectionTimeout
    {[3 := 3]} {[3 := 2]} (mkPersistentState term id) (mkFileStateStore "raft.meta" blank).

(** The request of the leader of term 2, which overwrites entry 2 and adds entry 3. *)
Definition new_leader_request : AppendEntriesRequest :=
  mkAppendEntriesRequest 2 2 1 1 [mkLogEntry 2 2 []; mkLogEntry 3 2 []] 0.

(** The five sections of one round can be torn.  If the leader of a
    newer term rewrites this server's log between the two log reads, the request
    pairs the old anchor with the new leader's entries under the old term; a
    follower that still holds the old anchor accepts it, and its log then agrees
    with the new leader's at the last index while differing below it.  The later
    consistency checks of section 5.3 can no longer see the difference. *)
Theorem torn_round_breaks_log_matching :
  ∃ (n1 n1' n3 n3' : RaftNode fileStateStore) (rl1 rl2 rl3 rl3' : RaftLog)
    (r1 r3 : AppendEntriesResponse),
    rn_Role n1 = Leader ∧ rn_term n1 = 1 ∧ rn_term n3 = 1 ∧ log_wf rl1 ∧ log_wf rl3 ∧
    (∀ i, agree_at rl1 rl3 i ↔ 1 ≤ i ≤ 2) ∧
    HandleAppendEntries rl1 new_leader_request 0 n1 = (r1, n1', rl2) ∧ aer_Success r1 = true ∧
    HandleAppendEntries rl3 (append_request n1 n1 n1 rl1 rl2 3) 0 n3 = (r3, n3', rl3') ∧
    aer_Success r3 = true ∧
    agree_at rl2 rl3' 3 ∧ ¬ agree_at rl2 rl3' 2.
Proof.
  set (n1 := node_with 1 Leader 1 1). set (n3 := node_with 3 Follower 1 1).
  set (rl := log_with [1; 1]).
  assert (log_wf rl) as Hwf.
  { split; [|vm_compute; reflexivity]. split; try (vm_compute; congruence).
    intros i e. destruct i as [|[|i]]; vm_compute; [by intros [= <-]|by intros [= <-]|done]. }
  exists n1, (HandleAppendEntries rl new_leader_request 0 n1).1.2, n3.
  set (rl2 := (HandleAppendEntries rl new_leader_request 0 n1).2).
  exists (HandleAppendEntries rl (append_request n1 n1 n1 rl rl2 3) 0 n3).1.2, rl, rl2, rl,
    (HandleAppendEntries rl (append_request n1 n1 n1 rl rl2 3) 0 n3).2,
    (HandleAppendEntries rl new_leader_request 0 n1).1.1,
    (HandleAppendEntries rl (append_request n1 n1 n1 rl rl2 3) 0 n3).1.1.
  do 3 (split; [reflexivity|]). do 2 (split; [done|]). split.
  { intros i. unfold agree_at. pose proof (entry_at_Some rl i) as He.
    change (rl_firstIndex rl) with 1 in He. change (cache_len rl) with 2 in He. split.
    - intros (e1 & e2 & H1 & _). assert (1 ≤ i < 1 + 2) by (apply He; eauto). lia.
    - intros Hi. destruct (proj2 He) as [e Hie]; [lia|]. eauto. }
  split; [vm_compute; reflexivity|]. split; [vm_compute; reflexivity|].
  split; [vm_compute; reflexivity|]. split; [vm_compute; reflexivity|]. split.
  - eexists _, _. split; [vm_compute; reflexivity|]. split; vm_compute; reflexivity.
  - intros (e1 & e2 & H1 & H2 & Ht). vm_compute in H1, H2. injection H1 as <-. injection H2 as <-. discriminate.
Qed.
