(* ===== verification/Engine.v ===== *)
(** * The control loop (internal/engine)

    One record holds the node, the log, the state machine and the control loop's
    own state; each handler of the loop is one function from it to it.  Result
    channels are numbers, and every send is recorded in order in [e_sent].  A
    handler is modelled as running between two RPCs; EngineRaces examines what the
    RPC goroutines may do inside the apply loop.  Wall-clock readings and random
    draws are arguments. *)

From S2P Require Import Prelude Configuration Os Json Types Encoding RaftLog RaftLogFacts RaftNode RaftNodeFacts StateMachine Snapshot.

(** ** Constants and errors *)

Definition tickInterval : Z := 20 * Millisecond.
Definition proposalTimeout : Z := 2 * Second.
Definition electionTimeoutMin : Z := 300 * Millisecond.
Definition electionTimeoutMax : Z := 600 * Millisecond.
Definition heartbeatInterval : Z := 100 * Millisecond.
Definition readTimeout : Z := 2 * Second.
Definition quorumGrace : Z := electionTimeoutMax.

Inductive engine_error :=
  | ErrNotLeader
  | ErrCommitTimeout
  | ErrReadTimeout
  | ErrTooStale
  | ErrMaxStalenessRequired
  | ErrOther (e : string).

#[export] Instance engine_error_eq_dec : EqDecision engine_error.
Proof. solve_decision. Defined.

(** A Go [error]: [None] is nil. *)
Abbreviation err := (option engine_error).

(** What is sent on a result channel. *)
Inductive reply :=
  | RErr (e : err)                     (** a proposal's or apply waiter's channel *)
  | RRead (index : Z) (e : err).       (** a read's channel *)

#[export] Instance reply_eq_dec : EqDecision reply.
Proof. solve_decision. Defined.

(** ** State *)

Record waiter := mkWaiter { w_index : Z; w_term : Z; w_resultCh : nat; w_deadline : Z }.

Record peerAck := mkPeerAck { pa_startSeq : Z; pa_at : Z }.

Record readWaiter := mkReadWaiter {
  rw_readIndex : Z; rw_term : Z; rw_barrier : Z; rw_awaitApply : bool;
  rw_deadline : Z; rw_resultCh : nat;
}.

Record applyWaiter := mkApplyWaiter { aw_index : Z; aw_deadline : Z; aw_resultCh : nat }.

Section Engine.
Context {S : Type} `{StateStore S} `{Codec LogEntry} `{Codec Command}.

Record Engine := mkEngine {
  e_node : RaftNode S;
  e_raftLog : RaftLog;
  e_stateMachine : MemoryStateMachine;
  e_snapshotPath : string;
  e_electionTimeout : Z;
  e_waiters : list waiter;
  e_replicators : gset Z;          (** the peers with a running replicator *)
  e_replicatorsTerm : Z;
  e_preVoteTerm : Z;
  e_preVotes : gmap Z bool;
  e_roundSeq : Z;
  e_lastQuorumNanos : Z;
  e_lastAck : gmap Z peerAck;
  e_reads : list readWaiter;
  e_applyWaiters : list applyWaiter;
  e_noopIndex : Z;
  e_fatal : option string;         (** [fatalf] was called: the process has stopped *)
  e_sent : list (nat * reply);
}.

Definition with_node (n : RaftNode S) (e : Engine) : Engine :=
  mkEngine n (e_raftLog e) (e_stateMachine e) (e_snapshotPath e) (e_electionTimeout e) (e_waiters e)
    (e_replicators e) (e_replicatorsTerm e) (e_preVoteTerm e) (e_preVotes e) (e_roundSeq e)
    (e_lastQuorumNanos e) (e_lastAck e) (e_reads e) (e_applyWaiters e) (e_noopIndex e) (e_fatal e) (e_sent e).

Definition with_log (rl : RaftLog) (e : Engine) : Engine :=
  mkEngine (e_node e) rl (e_stateMachine e) (e_snapshotPath e) (e_electionTimeout e) (e_waiters e)
    (e_replicators e) (e_replicatorsTerm e) (e_preVoteTerm e) (e_preVotes e) (e_roundSeq e)
    (e_lastQuorumNanos e) (e_lastAck e) (e_reads e) (e_applyWaiters e) (e_noopIndex e) (e_fatal e) (e_sent e).

Definition with_machine (m : MemoryStateMachine) (e : Engine) : Engine :=
  mkEngine (e_node e) (e_raftLog e) m (e_snapshotPath e) (e_electionTimeout e) (e_waiters e)
    (e_replicators e) (e_replicatorsTerm e) (e_preVoteTerm e) (e_preVotes e) (e_roundSeq e)
    (e_lastQuorumNanos e) (e_lastAck e) (e_reads e) (e_applyWaiters e) (e_noopIndex e) (e_fatal e) (e_sent e).

Definition with_timeout (d : Z) (e : Engine) : Engine :=
  mkEngine (e_node e) (e_raftLog e) (e_stateMachine e) (e_snapshotPath e) d (e_waiters e)
    (e_replicators e) (e_replicatorsTerm e) (e_preVoteTerm e) (e_preVotes e) (e_roundSeq e)
    (e_lastQuorumNanos e) (e_lastAck e) (e_reads e) (e_applyWaiters e) (e_noopIndex e) (e_fatal e) (e_sent e).

(** Replace the pending proposals and record the sends. *)
Definition with_waiters (ws : list waiter) (out : list (nat * reply)) (e : Engine) : Engine :=
  mkEngine (e_node e) (e_raftLog e) (e_stateMachine e) (e_snapshotPath e) (e_electionTimeout e) ws
    (e_replicators e) (e_replicatorsTerm e) (e_preVoteTerm e) (e_preVotes e) (e_roundSeq e)
    (e_lastQuorumNanos e) (e_lastAck e) (e_reads e) (e_applyWaiters e) (e_noopIndex e) (e_fatal e)
    (e_sent e ++ out).

Definition with_reads (rs : list readWaiter) (out : list (nat * reply)) (e : Engine) : Engine :=
  mkEngine (e_node e) (e_raftLog e) (e_stateMachine e) (e_snapshotPath e) (e_electionTimeout e) (e_waiters e)
    (e_replicators e) (e_replicatorsTerm e) (e_preVoteTerm e) (e_preVotes e) (e_roundSeq e)
    (e_lastQuorumNanos e) (e_lastAck e) rs (e_applyWaiters e) (e_noopIndex e) (e_fatal e)
    (e_sent e ++ out).

Definition with_applyWaiters (ws : list applyWaiter) (out : list (nat * reply)) (e : Engine) : Engine :=
  mkEngine (e_node e) (e_raftLog e) (e_stateMachine e) (e_snapshotPath e) (e_electionTimeout e) (e_waiters e)
    (e_replicators e) (e_replicatorsTerm e) (e_preVoteTerm e) (e_preVotes e) (e_roundSeq e)
    (e_lastQuorumNanos e) (e_lastAck e) (e_reads e) ws (e_noopIndex e) (e_fatal e)
    (e_sent e ++ out).

Definition with_replicators (rs : gset Z) (t : Z) (e : Engine) : Engine :=
  mkEngine (e_node e) (e_raftLog e) (e_stateMachine e) (e_snapshotPath e) (e_electionTimeout e) (e_waiters e)
    rs t (e_preVoteTerm e) (e_preVotes e) (e_roundSeq e)
    (e_lastQuorumNanos e) (e_lastAck e) (e_reads e) (e_applyWaiters e) (e_noopIndex e) (e_fatal e) (e_sent e).

Definition with_preVote (t : Z) (vs : gmap Z bool) (e : Engine) : Engine :=
  mkEngine (e_node e) (e_raftLog e) (e_stateMachine e) (e_snapshotPath e) (e_electionTimeout e) (e_waiters e)
    (e_replicators e) (e_replicatorsTerm e) t vs (e_roundSeq e)
    (e_lastQuorumNanos e) (e_lastAck e) (e_reads e) (e_applyWaiters e) (e_noopIndex e) (e_fatal e) (e_sent e).

Definition with_rounds (seq quorumNanos : Z) (acks : gmap Z peerAck) (e : Engine) : Engine :=
  mkEngine (e_node e) (e_raftLog e) (e_stateMachine e) (e_snapshotPath e) (e_electionTimeout e) (e_waiters e)
    (e_replicators e) (e_replicatorsTerm e) (e_preVoteTerm e) (e_preVotes e) seq
    quorumNanos acks (e_reads e) (e_applyWaiters e) (e_noopIndex e) (e_fatal e) (e_sent e).

Definition with_noop (i : Z) (e : Engine) : Engine :=
  mkEngine (e_node e) (e_raftLog e) (e_stateMachine e) (e_snapshotPath e) (e_electionTimeout e) (e_waiters e)
    (e_replicators e) (e_replicatorsTerm e) (e_preVoteTerm e) (e_preVotes e) (e_roundSeq e)
    (e_lastQuorumNanos e) (e_lastAck e) (e_reads e) (e_applyWaiters e) i (e_fatal e) (e_sent e).

Definition fatalf (msg : string) (e : Engine) : Engine :=
  mkEngine (e_node e) (e_raftLog e) (e_stateMachine e) (e_snapshotPath e) (e_electionTimeout e) (e_waiters e)
    (e_replicators e) (e_replicatorsTerm e) (e_preVoteTerm e) (e_preVotes e) (e_roundSeq e)
    (e_lastQuorumNanos e) (e_lastAck e) (e_reads e) (e_applyWaiters e) (e_noopIndex e) (Some msg) (e_sent e).

Definition currentPeers (e : Engine) : gmap Z string := NodePeers (e_node e).

(** [draw] is [rng.Int63n(span)], in [[0, span)]. *)
Definition resetElectionTimeout (draw : Z) (e : Engine) : Engine :=
  with_timeout (electionTimeoutMin + draw) e.

(** ** Waiters

    [reply_to decide ws]: the waiters [decide] resolves, with what it sends them,
    and the rest, in order: the shape of every sweep of the loop. *)
Fixpoint reply_to {W} (decide : W → option (nat * reply)) (ws : list W)
    : list W * list (nat * reply) :=
  match ws with
  | [] => ([], [])
  | w :: ws =>
      let '(kept, out) := reply_to decide ws in
      match decide w with
      | Some r => (kept, r :: out)
      | None => (w :: kept, out)
      end
  end.

Definition committed_reply (commitIndex currentTerm : Z) (w : waiter) : option (nat * reply) :=
  if negb (w_term w =? currentTerm) then Some (w_resultCh w, RErr (Some ErrNotLeader))
  else if w_index w <=? commitIndex then Some (w_resultCh w, RErr None)
  else None.

Definition fireCommittedWaiters (commitIndex currentTerm : Z) (e : Engine) : Engine :=
  let '(kept, out) := reply_to (committed_reply commitIndex currentTerm) (e_waiters e) in
  with_waiters kept out e.

Definition expired_waiter (now : Z) (w : waiter) : option (nat * reply) :=
  if w_deadline w <? now then Some (w_resultCh w, RErr (Some ErrCommitTimeout)) else None.

Definition sweepExpiredWaiters (now : Z) (e : Engine) : Engine :=
  let '(kept, out) := reply_to (expired_waiter now) (e_waiters e) in with_waiters kept out e.

Definition failAllWaiters (er : engine_error) (e : Engine) : Engine :=
  with_waiters [] (map (λ w, (w_resultCh w, RErr (Some er))) (e_waiters e)) e.

(** ** Reads *)

(** The acknowledgements [readSatisfied] counts, itself included. *)
Definition confirmations (barrier : Z) (e : Engine) : Z :=
  1 + count_if (λ '(_, a), barrier <? pa_startSeq a) (map_to_list (e_lastAck e)).

Definition readSatisfied (w : readWaiter) (role : NodeRole) (term commitIndex lastApplied : Z)
    (e : Engine) : bool :=
  if bool_decide (role ≠ Leader) || negb (term =? rw_term w) then false
  else if commitIndex <? e_noopIndex e then false
  else if rw_awaitApply w && (lastApplied <? rw_readIndex w) then false
  else ClusterSize (e_node e) `quot` 2 <? confirmations (rw_barrier w) e.

Definition read_reply (e : Engine) (w : readWaiter) : option (nat * reply) :=
  let '(role, term) := State (e_node e) in
  let '(commitIndex, lastApplied) := CommitAndApplyBoundary (e_node e) in
  if bool_decide (role ≠ Leader) || negb (term =? rw_term w) then
    Some (rw_resultCh w, RRead 0 (Some ErrNotLeader))
  else if readSatisfied w role term commitIndex lastApplied e then
    Some (rw_resultCh w, RRead (rw_readIndex w) None)
  else None.

Definition fireReadWaiters (e : Engine) : Engine :=
  let '(kept, out) := reply_to (read_reply e) (e_reads e) in with_reads kept out e.

Definition expired_read (now : Z) (w : readWaiter) : option (nat * reply) :=
  if rw_deadline w <? now then Some (rw_resultCh w, RRead 0 (Some ErrReadTimeout)) else None.

Definition sweepExpiredReads (now : Z) (e : Engine) : Engine :=
  let '(kept, out) := reply_to (expired_read now) (e_reads e) in with_reads kept out e.

Definition failAllReads (er : engine_error) (e : Engine) : Engine :=
  with_reads [] (map (λ w, (rw_resultCh w, RRead 0 (Some er))) (e_reads e)) e.

Definition nextRoundSeq (e : Engine) : Z * Engine :=
  let seq := (e_roundSeq e + 1) `mod` 18446744073709551616 in
  (seq, with_rounds seq (e_lastQuorumNanos e) (e_lastAck e) e).

Definition handleAck (peerID startSeq now : Z) (e : Engine) : Engine :=
  let prev := default (mkPeerAck 0 0) (e_lastAck e !! peerID) in
  let seq := if pa_startSeq prev <? startSeq then startSeq else pa_startSeq prev in
  fireReadWaiters
    (with_rounds (e_roundSeq e) (e_lastQuorumNanos e) (<[peerID := mkPeerAck seq now]> (e_lastAck e)) e).

Definition resetLeadershipEvidence (now : Z) (e : Engine) : Engine :=
  with_rounds (e_roundSeq e) (e_lastQuorumNanos e) ((λ _, mkPeerAck 0 now) <$> currentPeers e) e.

Definition handleRead (resultCh : nat) (awaitApply : bool) (now : Z) (e : Engine) : Engine :=
  let '(role, term) := State (e_node e) in
  if bool_decide (role ≠ Leader) then
    with_reads (e_reads e) [(resultCh, RRead 0 (Some ErrNotLeader))] e
  else
    let '(commitIndex, _) := CommitAndApplyBoundary (e_node e) in
    let readIndex := if commitIndex <? e_noopIndex e then e_noopIndex e else commitIndex in
    let w := mkReadWaiter readIndex term (e_roundSeq e) awaitApply (now + readTimeout) resultCh in
    fireReadWaiters (with_reads (e_reads e ++ [w]) [] e).

(** ** Apply waiters *)

Definition handleApplyWait (w : applyWaiter) (e : Engine) : Engine :=
  let '(_, applied) := CommitAndApplyBoundary (e_node e) in
  if aw_index w <=? applied then with_applyWaiters (e_applyWaiters e) [(aw_resultCh w, RErr None)] e
  else with_applyWaiters (e_applyWaiters e ++ [w]) [] e.

Definition applied_reply (applied : Z) (w : applyWaiter) : option (nat * reply) :=
  if aw_index w <=? applied then Some (aw_resultCh w, RErr None) else None.

Definition fireApplyWaiters (e : Engine) : Engine :=
  let '(_, applied) := CommitAndApplyBoundary (e_node e) in
  let '(kept, out) := reply_to (applied_reply applied) (e_applyWaiters e) in
  with_applyWaiters kept out e.

Definition expired_apply (now : Z) (w : applyWaiter) : option (nat * reply) :=
  if aw_deadline w <? now then Some (aw_resultCh w, RErr (Some ErrReadTimeout)) else None.

Definition sweepExpiredApplyWaiters (now : Z) (e : Engine) : Engine :=
  let '(kept, out) := reply_to (expired_apply now) (e_applyWaiters e) in
  with_applyWaiters kept out e.

Definition failAllApplyWaiters (er : engine_error) (e : Engine) : Engine :=
  with_applyWaiters [] (map (λ w, (aw_resultCh w, RErr (Some er))) (e_applyWaiters e)) e.

(** ** Replicators *)

Definition stopReplicators (e : Engine) : Engine :=
  if decide (e_replicators e = ∅) then e else with_replicators ∅ 0 e.

Definition startReplicators (e : Engine) : Engine :=
  let term := rn_CurrentTerm (e_node e) in
  if negb (bool_decide (e_replicators e = ∅)) && (e_replicatorsTerm e =? term) then e
  else with_replicators (dom (currentPeers e)) term (stopReplicators e).

(** ** Proposals *)

(** The body of [handleProposal] once the role check has passed. *)
Definition proposal_append (cmd : Command) (resultCh : nat) (now : Z) (e : Engine) : Engine :=
  let cmd := mkCommand (cmd_Op cmd) (cmd_Key cmd) (cmd_Value cmd) (cmd_ClientID cmd) (cmd_Seq cmd) now in
  match EncodeCommand cmd with
  | Err er => with_waiters (e_waiters e) [(resultCh, RErr (Some (ErrOther er)))] e
  | Ok cmdBytes =>
      let term := rn_CurrentTerm (e_node e) in
      match AppendLeader cmdBytes term (e_raftLog e) with
      | (Err er, rl) => with_waiters (e_waiters e) [(resultCh, RErr (Some (ErrOther er)))] (with_log rl e)
      | (Ok entry, rl) =>
          with_waiters (e_waiters e ++ [mkWaiter (le_Index entry) term resultCh (now + proposalTimeout)]) []
            (with_log rl e)
      end
  end.

Definition handleProposal (cmd : Command) (resultCh : nat) (now : Z) (e : Engine) : Engine :=
  if negb (IsLeader (e_node e)) then
    with_waiters (e_waiters e) [(resultCh, RErr (Some ErrNotLeader))] e
  else proposal_append cmd resultCh now e.

(** ** Applying *)

(** Applying one fetched entry: everything between [GetEntry] and
    [AdvanceLastApplied].  [false]: the process stops. *)
Definition apply_entry (next : Z) (entry : LogEntry) (e : Engine) : bool * Engine :=
  match DecodeCommand (le_Command entry) with
  | Err er => (false, fatalf ("corrupt command: " +:+ er)%string e)
  | Ok cmd =>
      match Apply next cmd (e_stateMachine e) with
      | (Some er, m) => (false, fatalf ("failed to apply: " +:+ er)%string (with_machine m e))
      | (None, m) => (true, with_machine m e)
      end
  end.

Definition apply_advance (e : Engine) : Z * Engine :=
  let '(a, n) := AdvanceLastApplied (e_node e) in (a, with_node n e).

(** One iteration of the apply loop, [None] when there is nothing left to apply. *)
Definition apply_one (lastApplied commitIndex : Z) (e : Engine) : option (Z * Engine) :=
  if lastApplied <? commitIndex then
    let next := lastApplied +! 1 in
    match GetEntry (e_raftLog e) next with
    | None => Some (lastApplied, fatalf "log entry is missing" e)
    | Some entry =>
        match apply_entry next entry e with
        | (false, e) => Some (lastApplied, e)
        | (true, e) => Some (apply_advance e)
        end
    end
  else None.

(** The loop; [fuel] bounds the iterations. *)
Fixpoint apply_loop (fuel : nat) (lastApplied commitIndex : Z) (e : Engine) : Engine :=
  match fuel with
  | O => e
  | Datatypes.S fuel =>
      match apply_one lastApplied commitIndex e with
      | None => e
      | Some (a, e') =>
          match e_fatal e' with
          | Some _ => e'
          | None => apply_loop fuel a commitIndex e'
          end
      end
  end.

Definition applyCommitted (e : Engine) : Engine :=
  let '(commitIndex, lastApplied) := CommitAndApplyBoundary (e_node e) in
  apply_loop (Z.to_nat (commitIndex - lastApplied)) lastApplied commitIndex e.

(** ** Compaction *)

Definition compact (snapshotIndex : Z) (e : Engine) : Engine :=
  let term := TermAt (e_raftLog e) snapshotIndex in
  if term =? 0 then e
  else
    let meta := mkSnapshotMeta snapshotIndex term in
    match on_disk (Write (e_snapshotPath e) meta (e_stateMachine e)) (e_raftLog e) with
    | (Err _, rl) => with_log rl e
    | (Ok _, rl) => with_log (TruncateBeforeIndex snapshotIndex term rl).2 e
    end.

Definition maybeCompact (e : Engine) : Engine :=
  let '(_, lastApplied) := CommitAndApplyBoundary (e_node e) in
  if NeedsCompaction (e_raftLog e) lastApplied then compact lastApplied e else e.

End Engine.
Arguments Engine S : clear implicits.
