(* ===== verification/EngineLoop.v ===== *)
(** * Elections, leadership and the tick (internal/engine)

    The half of the control loop that changes roles: the pre-vote poll, the
    election, promotion, step-down and CheckQuorum, then [onTick], which strings the
    loop's work together, one replication round with the choice between entries and a
    snapshot, and the inbound RPCs.  Requests a handler broadcasts are part
    of its result; replies come back as arguments of later handlers. *)

From S2P Require Import Prelude Configuration Os Json Types Encoding RaftLog RaftLogFacts RaftNode RaftNodeFacts StateMachine Snapshot Replicator Engine.

Section Loop.
Context {S : Type} `{StateStoreLaws S} `{Codec LogEntry} `{Codec Command}.

(** The requests a handler sends to every current peer. *)
Inductive broadcast := Silent | PollPreVote (req : PreVoteRequest) | PollVote (req : RequestVoteRequest).

(** ** Promotion *)

Definition noop_command (now : Z) : Command := mkCommand OpNoop "" "" "" 0 now.

Definition becomeLeader (electionTerm lastLogIndex now : Z) (e : Engine S) : Engine S :=
  match BecomeLeader electionTerm lastLogIndex (e_node e) with
  | (false, n) => with_node n e
  | (true, n) =>
      let e := with_noop 0 (resetLeadershipEvidence now (with_node n e)) in
      let e :=
        match EncodeCommand (noop_command now) with
        | Err _ => e
        | Ok noop =>
            match AppendLeader noop electionTerm (e_raftLog e) with
            | (Err _, rl) => with_log rl e
            | (Ok entry, rl) => with_noop (le_Index entry) (with_log rl e)
            end
        end in
      startReplicators e
  end.

(** ** Elections *)

Definition runElection (now draw : Z) (e : Engine S) : broadcast * Engine S :=
  match BecomeCandidate now (e_node e) with
  | (Err _, n) => (Silent, resetElectionTimeout draw (with_node n e))
  | (Ok term, n) =>
      let e := resetElectionTimeout draw (with_node n e) in
      let '(lastLogIndex, lastLogTerm) := LastLogState (e_raftLog e) in
      if decide (currentPeers e = ∅) then (Silent, becomeLeader term lastLogIndex now e)
      else (PollVote (mkRequestVoteRequest term (NodeID (e_node e)) lastLogIndex lastLogTerm), e)
  end.

Definition startPreVote (now draw draw' : Z) (e : Engine S) : broadcast * Engine S :=
  let e := resetElectionTimeout draw e in
  let term := rn_CurrentTerm (e_node e) in
  let '(lastLogIndex, lastLogTerm) := LastLogState (e_raftLog e) in
  if decide (currentPeers e = ∅) then runElection now draw' e
  else
    let e := with_preVote (term +! 1) {[NodeID (e_node e) := true]} e in
    (PollPreVote (mkPreVoteRequest (e_preVoteTerm e) (NodeID (e_node e)) lastLogIndex lastLogTerm), e).

Definition handlePreVoteResult (pollTerm voterID : Z) (resp : PreVoteResponse) (now draw : Z)
    (e : Engine S) : broadcast * Engine S :=
  if negb (pollTerm =? e_preVoteTerm e) then (Silent, e)
  else
    let '(role, term) := State (e_node e) in
    if bool_decide (role = Leader) || (pollTerm <=? term) then (Silent, e)
    else if term <? pvr_Term resp then
      let '(_, n) := BecomeFollower (pvr_Term resp) 0 (e_node e) in
      (Silent, with_preVote 0 (e_preVotes e) (with_node n e))
    else if negb (pvr_VoteGranted resp) then (Silent, e)
    else
      let e := with_preVote (e_preVoteTerm e) (<[voterID := true]> (e_preVotes e)) e in
      if NodeHasQuorum (Some (e_preVotes e)) (e_node e) then
        runElection now draw (with_preVote 0 (e_preVotes e) e)
      else (Silent, e).

Definition handleVoteResult (electionTerm voterID : Z) (resp : RequestVoteResponse) (now : Z)
    (e : Engine S) : Engine S :=
  let '(role, term) := State (e_node e) in
  if negb (term =? electionTerm) || bool_decide (role ≠ Candidate) then e
  else if term <? rvr_Term resp then
    let '(_, n) := BecomeFollower (rvr_Term resp) 0 (e_node e) in with_node n e
  else if negb (rvr_VoteGranted resp) then e
  else
    let '(won, n) := RecordVoteAndCheckMajority voterID electionTerm (e_node e) in
    let e := with_node n e in
    if won then becomeLeader electionTerm (LatestIndex (e_raftLog e)) now e else e.

(** ** Losing leadership *)

(** [stopReplicators(); failAllWaiters(ErrNotLeader); failAllReads(ErrNotLeader)] *)
Definition abandon (e : Engine S) : Engine S :=
  failAllReads ErrNotLeader (failAllWaiters ErrNotLeader (stopReplicators e)).

Definition handleStepDown (higherTerm : Z) (e : Engine S) : Engine S :=
  if higherTerm <=? rn_CurrentTerm (e_node e) then e
  else
    let '(_, n) := BecomeFollower higherTerm 0 (e_node e) in
    abandon (with_node n e).

Definition reconcileLeadership (e : Engine S) : Engine S :=
  let '(role, term) := State (e_node e) in
  if bool_decide (role ≠ Leader) then
    let e := if decide (e_replicators e = ∅) then e
             else failAllWaiters ErrNotLeader (stopReplicators e) in
    failAllReads ErrNotLeader e
  else if bool_decide (e_replicators e = ∅) || negb (e_replicatorsTerm e =? term) then
    startReplicators e
  else e.

(** Peers heard from within the grace period, and this node. *)
Definition reachable (now : Z) (e : Engine S) : Z :=
  1 + count_if (λ '(_, a), (now - quorumGrace) <? pa_at a) (map_to_list (e_lastAck e)).

Definition noteQuorumConfirmed (now : Z) (e : Engine S) : Engine S :=
  with_rounds (e_roundSeq e) now (e_lastAck e) e.

Definition checkQuorum (now : Z) (e : Engine S) : Engine S :=
  if decide (currentPeers e = ∅) then e
  else if ClusterSize (e_node e) `quot` 2 <? reachable now e then noteQuorumConfirmed now e
  else
    match BecomeFollower (rn_CurrentTerm (e_node e)) 0 (e_node e) with
    | (Err _, n) => with_node n e
    | (Ok _, n) => abandon (with_node n e)
    end.

(** ** The tick *)

(** The half of the tick that depends on the role: advance the commit index, or
    start a poll. *)
Definition tick_role (now draw draw' : Z) (e : Engine S) : broadcast * Engine S :=
  let '(role, term) := State (e_node e) in
  if bool_decide (role = Leader) then
    let localLatest := LatestIndex (e_raftLog e) in
    let '(_, n) := AdvanceCommitIndex localLatest (TermAt (e_raftLog e)) term (e_node e) in
    let e := with_node n e in
    let '(commitIndex, _) := CommitAndApplyBoundary (e_node e) in
    (Silent, fireCommittedWaiters commitIndex term e)
  else if e_electionTimeout e <=? TimeSinceContact now (e_node e) then startPreVote now draw draw' e
  else (Silent, e).

(** The rest.  [fatalf] ends the process, so nothing runs after it. *)
Definition tick_rest (now : Z) (e : Engine S) : Engine S :=
  let e := applyCommitted e in
  match e_fatal e with
  | Some _ => e
  | None =>
      let e := fireApplyWaiters (fireReadWaiters (maybeCompact e)) in
      let e := if IsLeader (e_node e) then checkQuorum now e else e in
      sweepExpiredApplyWaiters now (sweepExpiredReads now (sweepExpiredWaiters now e))
  end.

Definition onTick (now draw draw' : Z) (e : Engine S) : broadcast * Engine S :=
  let '(out, e) := tick_role now draw draw' (reconcileLeadership e) in
  (out, tick_rest now e).

(** The [done] branch of [Run]. *)
Definition shutdown (e : Engine S) : Engine S :=
  stopReplicators (failAllApplyWaiters ErrReadTimeout (failAllReads ErrNotLeader
    (failAllWaiters ErrNotLeader e))).

(** ** Shipping snapshots *)

(** The cached encoding only saves work: it is used when its index and term are
    those of the snapshot on disk. *)
Record encodedSnapshot := mkEncodedSnapshot { es_index : Z; es_term : Z; es_data : bytes }.

Definition buildSnapshotRequest (cached : option encodedSnapshot) (e : Engine S)
    : option InstallSnapshotRequest * option encodedSnapshot * Engine S :=
  let ship i t data :=
    Some (mkInstallSnapshotRequest (rn_CurrentTerm (e_node e)) (NodeID (e_node e)) i t data) in
  match on_disk (Read (e_snapshotPath e)) (e_raftLog e) with
  | (Err _, rl) | (Ok None, rl) => (None, cached, with_log rl e)
  | (Ok (Some snap), rl) =>
      let meta := sf_Meta snap in
      let fresh :=
        match EncodeState snap with
        | Err _ => (None, cached, with_log rl e)
        | Ok data =>
            (ship (LastIncludedIndex meta) (LastIncludedTerm meta) data,
             Some (mkEncodedSnapshot (LastIncludedIndex meta) (LastIncludedTerm meta) data),
             with_log rl e)
        end in
      match cached with
      | Some c =>
          if (es_index c =? LastIncludedIndex meta) && (es_term c =? LastIncludedTerm meta) then
            (ship (es_index c) (es_term c) (es_data c), cached, with_log rl e)
          else fresh
      | None => fresh
      end
  end.

(** ** One replication round *)

(** What the round reports to the control loop. *)
Inductive round_report := Nothing | HigherTerm (t : Z) | Ack (peerID startSeq : Z).

(** The end of [replicateOnce]: what the peer's term says to the control loop. *)
Definition report_of (prTerm peerID startSeq followerTerm : Z) : round_report :=
  if prTerm <? followerTerm then HigherTerm followerTerm
  else if followerTerm =? prTerm then Ack peerID startSeq
  else Nothing.

Definition replicateOnce (sendAppend : AppendEntriesRequest → option AppendEntriesResponse)
    (sendSnapshot : InstallSnapshotRequest → option InstallSnapshotResponse)
    (cached : option encodedSnapshot) (peerID prTerm : Z) (e : Engine S)
    : round_report * option encodedSnapshot * Engine S :=
  if negb (IsLeader (e_node e)) then (Nothing, cached, e)
  else
    let '(startSeq, e) := nextRoundSeq e in
    let nextIndex := NextIndexFor peerID (e_node e) in
    let '(followerTerm, cached, e) :=
      if nextIndex <? FirstIndex (e_raftLog e) then
        match buildSnapshotRequest cached e with
        | (None, cached, e) =>
            let '(t, n) := ReplicateTo sendAppend (e_raftLog e) peerID (e_node e) in
            (t, cached, with_node n e)
        | (Some req, cached, e) =>
            let '(t, n) := InstallSnapshotTo sendSnapshot peerID req (e_node e) in
            (t, cached, with_node n e)
        end
      else
        let '(t, n) := ReplicateTo sendAppend (e_raftLog e) peerID (e_node e) in
        (t, cached, with_node n e) in
    (report_of prTerm peerID startSeq followerTerm, cached, e).

(** ** Inbound RPCs *)

Definition EngineHandleAppendEntries (req : AppendEntriesRequest) (now : Z) (e : Engine S)
    : AppendEntriesResponse * Engine S :=
  let '(resp, n, rl) := HandleAppendEntries (e_raftLog e) req now (e_node e) in
  (resp, with_log rl (with_node n e)).

Definition EngineHandlePreVote (req : PreVoteRequest) (now : Z) (e : Engine S) : PreVoteResponse :=
  HandlePreVote req (LastLogState (e_raftLog e)) now (e_node e).

Definition EngineHandleRequestVote (req : RequestVoteRequest) (now : Z) (e : Engine S)
    : RequestVoteResponse * Engine S :=
  let '(resp, n) := HandleRequestVote req (LastLogState (e_raftLog e)) now (e_node e) in
  (resp, with_node n e).

(** The callbacks act on the state machine and on the disk the log lives on. *)
Definition restore_callback (data : bytes) : M (MemoryStateMachine * Os) unit := λ '(m, os),
  let '(r, m) := Restore data m in (r, (m, os)).

Definition persist_callback (path : string) (meta : SnapshotMeta) : M (MemoryStateMachine * Os) unit :=
  λ '(m, os), let '(r, os) := Write path meta m os in (r, (m, os)).

Definition EngineHandleInstallSnapshot (req : InstallSnapshotRequest) (now : Z) (e : Engine S)
    : InstallSnapshotResponse * Engine S :=
  let meta := mkSnapshotMeta (is_LastIncludedIndex req) (is_LastIncludedTerm req) in
  let '(resp, n, rl, m) :=
    HandleInstallSnapshot (e_raftLog e) req restore_callback
      (persist_callback (e_snapshotPath e) meta) now (e_node e) (e_stateMachine e) in
  (resp, with_machine m (with_log rl (with_node n e))).

End Loop.
