(* ===== verification/EngineFacts.v ===== *)
(** * Correctness of the control loop

    Proposals and reads are answered exactly once and only on the evidence section
    8 asks for, and the apply loop applies exactly the committed entries in order. *)

From S2P Require Import Prelude Configuration Os Json FsUtil Types Encoding RaftLog RaftLogFacts RaftNode RaftNodeFacts StateMachine Snapshot StateFile Replicator Engine EngineLoop.

(** ** Sweeps *)

Lemma reply_to_spec {W} (decide : W → option (nat * reply)) ws :
  reply_to decide ws = (filter (λ w, decide w = None) ws, omap decide ws).
Proof.
  induction ws as [|w ws IH]; [done|]. simpl. rewrite IH, filter_cons.
  destruct (decide w); case_decide; done.
Qed.

Lemma length_reply_to {W} (decide : W → option (nat * reply)) ws :
  (length (filter (λ w, decide w = None) ws) + length (omap decide ws) = length ws)%nat.
Proof.
  induction ws as [|w ws IH]; [done|]. rewrite filter_cons.
  change (omap decide (w :: ws)) with
    (match decide w with Some y => y :: omap decide ws | None => omap decide ws end).
  destruct (decide w); case_decide; try done; cbn [length]; lia.
Qed.

Section Facts.
Context {S : Type} `{StateStoreLaws S} `{Codec LogEntry} `{Codec Command}.
Implicit Types e : Engine S.

(** every pending proposal is answered at most once, and with success only when
    it is committed.  When the commit index moves, the proposals of older terms
    are refused, those of the current term at or below it are acknowledged, each
    with one reply on its own channel in order, and exactly the others stay. *)
Theorem fireCommittedWaiters_correct (e : Engine S) (commitIndex term : Z) :
  let e' := fireCommittedWaiters commitIndex term e in
  (∃ out, e_sent e' = e_sent e ++ out ∧
     (length out + length (e_waiters e') = length (e_waiters e))%nat ∧
     ∀ ch r, (ch, r) ∈ out → ∃ w, w ∈ e_waiters e ∧ w_resultCh w = ch ∧
       (r = RErr None ∧ w_term w = term ∧ w_index w ≤ commitIndex ∨
        r = RErr (Some ErrNotLeader) ∧ w_term w ≠ term)) ∧
  (∀ w, w ∈ e_waiters e' ↔ w ∈ e_waiters e ∧ w_term w = term ∧ commitIndex < w_index w).
Proof.
  unfold fireCommittedWaiters. rewrite reply_to_spec. cbv zeta. simpl.
  assert (∀ w, committed_reply commitIndex term w = None ↔ w_term w = term ∧ commitIndex < w_index w) as Hn.
  { intros w. unfold committed_reply. destruct (Z.eqb_spec (w_term w) term); simpl; [|naive_solver].
    destruct (Z.leb_spec (w_index w) commitIndex); naive_solver lia. }
  split.
  - eexists. split; [done|]. split; [rewrite Nat.add_comm; apply length_reply_to|].
    intros ch r (w & Hw & Hr)%list_elem_of_omap. exists w. split; [done|].
    unfold committed_reply in Hr. destruct (Z.eqb_spec (w_term w) term); simpl in Hr.
    + destruct (Z.leb_spec (w_index w) commitIndex); [|done]. injection Hr as <- <-. auto.
    + injection Hr as <- <-. auto.
  - intros w. rewrite list_elem_of_filter, Hn. naive_solver.
Qed.

(** a proposal on a leader is in the log before it is awaited.  A node that is
    not leader refuses at once; on a leader either the append failed and the client
    is told, or one entry of the current term, carrying the command stamped with
    the leader's clock, is at the end of the log and the new waiter names its index
    and term; nothing else in the loop changes. *)
Theorem handleProposal_correct (e : Engine S) (cmd : Command) (ch : nat) (now : Z) :
  log_wf (e_raftLog e) → rl_nextIndex (e_raftLog e) < MaxInt64 →
  let e' := handleProposal cmd ch now e in
  e_node e' = e_node e ∧ e_reads e' = e_reads e ∧ e_stateMachine e' = e_stateMachine e ∧
  (rn_Role (e_node e) ≠ Leader →
     e_raftLog e' = e_raftLog e ∧ e_waiters e' = e_waiters e ∧
     e_sent e' = e_sent e ++ [(ch, RErr (Some ErrNotLeader))]) ∧
  (rn_Role (e_node e) = Leader →
     (∃ er, e_sent e' = e_sent e ++ [(ch, RErr (Some (ErrOther er)))] ∧ e_waiters e' = e_waiters e ∧
        rl_cache (e_raftLog e') = rl_cache (e_raftLog e)) ∨
     (∃ entry data, EncodeCommand (mkCommand (cmd_Op cmd) (cmd_Key cmd) (cmd_Value cmd)
          (cmd_ClientID cmd) (cmd_Seq cmd) now) = Ok data ∧
        rl_cache (e_raftLog e') = rl_cache (e_raftLog e) ++ [entry] ∧
        le_Index entry = lastIndexLocked (e_raftLog e) + 1 ∧ le_Term entry = rn_term (e_node e) ∧
        le_Command entry = data ∧ e_sent e' = e_sent e ∧
        e_waiters e' = e_waiters e ++
          [mkWaiter (le_Index entry) (le_Term entry) ch (now + proposalTimeout)])).
Proof.
  intros Hwf Hmax. unfold handleProposal, proposal_append, IsLeader, EncodeCommand.
  case_bool_decide as Hr; simpl.
  2:{ split_and!; try done. }
  set (data := Marshal _). destruct (AppendLeader data (rn_CurrentTerm (e_node e)) (e_raftLog e)) as [r rl] eqn:Ha.
  pose proof (AppendLeader_spec (e_raftLog e) data (rn_CurrentTerm (e_node e)) Hwf Hmax) as Hs.
  rewrite Ha in Hs.
  destruct r as [entry|er]; simpl; (split_and!; [done..|congruence|]); intros _.
  - right. destruct Hs as (-> & Hcache & _). exists (mkLogEntry (rl_nextIndex (e_raftLog e)) (rn_CurrentTerm (e_node e)) data), data.
    destruct Hwf as [Hp Hn]. rewrite (lastIndexLocked_spec _ Hp). simpl. rewrite app_nil_r.
    split_and!; try done. lia.
  - left. exists er. split_and!; try done. unfold logical in Hs. congruence.
Qed.

(** ** The apply loop *)

(** Entries executed in order from [index]; none if one is corrupt or fails. *)
Fixpoint replay (index : Z) (es : list LogEntry) (m : MemoryStateMachine) : option MemoryStateMachine :=
  match es with
  | [] => Some m
  | x :: es =>
      match DecodeCommand (le_Command x) with
      | Ok cmd => match Apply index cmd m with (None, m') => replay (index + 1) es m' | (Some _, _) => None end
      | Err _ => None
      end
  end.

Lemma replay_app i es es' m :
  replay i (es ++ es') m = m' ← replay i es m; replay (i + Z.of_nat (length es)) es' m'.
Proof.
  revert i m. induction es as [|x es IH]; intros i m; simpl; [by rewrite Z.add_0_r|].
  destruct (DecodeCommand _) as [cmd|]; [|done]. destruct (Apply i cmd m) as [[er|] m']; [done|].
  rewrite IH. by replace (i + 1 + Z.of_nat (length es)) with (i + Z.of_nat (Datatypes.S (length es))) by lia.
Qed.

(** The entries at consecutive indices from [first]. *)
Definition stretch (rl : RaftLog) (first : Z) (es : list LogEntry) : Prop :=
  ∀ (i : nat) x, es !! i = Some x → entry_at rl (first + Z.of_nat i) = Some x.

Lemma stretch_cons rl first x es :
  entry_at rl first = Some x → stretch rl (first + 1) es → stretch rl first (x :: es).
Proof.
  intros He Hs [|i] y Hi; simpl in Hi; [injection Hi as <-; by rewrite Z.add_0_r|].
  rewrite <-(Hs i y Hi). f_equal. lia.
Qed.

(** The entry at [index] stops a loop whose machine is [m], and leaves it [m']: there is
    none, or it holds no command, or the command fails. *)
Definition stops_at (rl : RaftLog) (index : Z) (m m' : MemoryStateMachine) : Prop :=
  match entry_at rl index with
  | None => m' = m
  | Some x =>
      match DecodeCommand (le_Command x) with
      | Err _ => m' = m
      | Ok cmd => ∃ er, Apply index cmd m = (Some er, m')
      end
  end.

(** One successful iteration. *)
Lemma apply_one_ok e a c a' e' :
  log_pos (e_raftLog e) → e_fatal e = None → rn_LastApplied (e_node e) = a →
  int64 a → a < c ≤ MaxInt64 →
  apply_one a c e = Some (a', e') → e_fatal e' = None →
  ∃ entry cmd, entry_at (e_raftLog e) (a + 1) = Some entry ∧
    DecodeCommand (le_Command entry) = Ok cmd ∧
    a' = a + 1 ∧ rn_LastApplied (e_node e') = a + 1 ∧
    rn_CommitIndex (e_node e') = rn_CommitIndex (e_node e) ∧
    e_raftLog e' = e_raftLog e ∧
    Apply (a + 1) cmd (e_stateMachine e) = (None, e_stateMachine e').
Proof.
  intros Hp Hf Ha Hi Hc. unfold apply_one. destruct (Z.ltb_spec a c); [|lia]. wrapless.
  unfold GetEntry. rewrite getEntryLocked_spec by (done || unfold int64 in *; lia).
  destruct (entry_at (e_raftLog e) (a + 1)) as [entry|] eqn:He; [|by intros [= <- <-]].
  unfold apply_entry. destruct (DecodeCommand (le_Command entry)) as [cmd|er] eqn:Hd; [|by intros [= <- <-]].
  destruct (Apply (a + 1) cmd (e_stateMachine e)) as [[er|] m] eqn:Happ; [by intros [= <- <-]|].
  unfold apply_advance, AdvanceLastApplied. simpl. rewrite Ha. wrapless.
  intros [= <- <-] _. exists entry, cmd. split_and!; done.
Qed.

(** One that halts the process. *)
Lemma apply_one_fatal e a c a' e' :
  log_pos (e_raftLog e) → int64 a → a < c ≤ MaxInt64 →
  apply_one a c e = Some (a', e') → e_fatal e = None → e_fatal e' ≠ None →
  e_node e' = e_node e ∧ stops_at (e_raftLog e) (a + 1) (e_stateMachine e) (e_stateMachine e').
Proof.
  intros Hp Hi Hc. unfold apply_one, stops_at. destruct (Z.ltb_spec a c); [|lia]. wrapless.
  unfold GetEntry. rewrite getEntryLocked_spec by (done || unfold int64 in *; lia).
  destruct (entry_at (e_raftLog e) (a + 1)) as [entry|] eqn:He; [|by intros [= <- <-]].
  unfold apply_entry. destruct (DecodeCommand (le_Command entry)) as [cmd|er] eqn:Hd; [|by intros [= <- <-]].
  destruct (Apply (a + 1) cmd (e_stateMachine e)) as [[er|] m] eqn:Happ; intros [= <- <-]; simpl; [|done].
  intros _ _. split; [done|]. by exists er.
Qed.

(** The apply loop replays the log from the applied index, up to the commit index
    unless it halts the process. *)
Lemma applyCommitted_replay e :
  log_pos (e_raftLog e) → e_fatal e = None →
  int64 (rn_LastApplied (e_node e)) → rn_CommitIndex (e_node e) ≤ MaxInt64 →
  rn_LastApplied (e_node e) ≤ rn_CommitIndex (e_node e) →
  let e' := applyCommitted e in
  ∃ es m, stretch (e_raftLog e) (rn_LastApplied (e_node e) + 1) es ∧
    replay (rn_LastApplied (e_node e) + 1) es (e_stateMachine e) = Some m ∧
    rn_LastApplied (e_node e') = rn_LastApplied (e_node e) + Z.of_nat (length es) ∧
    (e_fatal e' = None → rn_LastApplied (e_node e') = rn_CommitIndex (e_node e) ∧ e_stateMachine e' = m) ∧
    (e_fatal e' ≠ None → rn_LastApplied (e_node e') < rn_CommitIndex (e_node e) ∧
       stops_at (e_raftLog e) (rn_LastApplied (e_node e') + 1) m (e_stateMachine e')).
Proof.
  unfold applyCommitted, CommitAndApplyBoundary.
  remember (rn_CommitIndex (e_node e)) as c eqn:Hc.
  remember (Z.to_nat (c - rn_LastApplied (e_node e))) as fuel eqn:Hfuel.
  revert e Hc Hfuel. induction fuel as [|fuel IH]; intros e Hc Hfuel Hp Hf Hi Hmax Hle; cbv zeta.
  - simpl. exists [], (e_stateMachine e). assert (rn_LastApplied (e_node e) = c) by lia.
    split_and!; try done. simpl. lia.
  - simpl. destruct (apply_one _ c e) as [[a' e1]|] eqn:Ha.
    2:{ exfalso. unfold apply_one in Ha. destruct (Z.ltb_spec (rn_LastApplied (e_node e)) c); [|lia].
        repeat (case_match; try done). }
    destruct (e_fatal e1) as [msg|] eqn:Hf1.
    + apply (apply_one_fatal e _ c) in Ha as [Hn Hstop]; [|done|done|lia|done|congruence].
      exists [], (e_stateMachine e). rewrite Hn. simpl. split_and!; try done; [lia|congruence|intros _; split; [lia|done]].
    + destruct (apply_one_ok e (rn_LastApplied (e_node e)) c a' e1) as
        (entry & cmd & He & Hd & -> & Hla & Hci & Hrl & Happ); try done; [lia|].
      specialize (IH e1). rewrite Hla, Hci, Hrl in IH. cbv zeta in IH.
      destruct IH as (es & m & Hst & Hr & Hla' & Hok & Hbad); try done; [lia|unfold int64 in *; lia|lia|].
      exists (entry :: es), m. split; [by apply stretch_cons|]. cbn [length replay]. rewrite Hd, Happ.
      split_and!; [done|lia|done|done].
Qed.

(** C13: the apply loop.  It executes the log's entries after the applied index, in
    index order and once each ([replay]: each decodes, and is applied without an
    error to the machine the one before left), and advances the applied index by
    exactly as many.  If the process goes on, it has executed all that is committed,
    and its machine is what they made.  If it halts, it does so before the commit
    index, at the first entry that is missing, does not decode or fails to apply
    to that machine, and the applied index is right before it. *)
Theorem applyCommitted_correct (e : Engine S) :
  log_pos (e_raftLog e) → e_fatal e = None →
  int64 (rn_LastApplied (e_node e)) → rn_CommitIndex (e_node e) ≤ MaxInt64 →
  rn_LastApplied (e_node e) ≤ rn_CommitIndex (e_node e) →
  let e' := applyCommitted e in
  ∃ es m, stretch (e_raftLog e) (rn_LastApplied (e_node e) + 1) es ∧
    replay (rn_LastApplied (e_node e) + 1) es (e_stateMachine e) = Some m ∧
    rn_LastApplied (e_node e') = rn_LastApplied (e_node e) + Z.of_nat (length es) ∧
    (e_fatal e' = None → rn_LastApplied (e_node e') = rn_CommitIndex (e_node e) ∧ e_stateMachine e' = m) ∧
    (e_fatal e' ≠ None → rn_LastApplied (e_node e') < rn_CommitIndex (e_node e) ∧
       stops_at (e_raftLog e) (rn_LastApplied (e_node e') + 1) m (e_stateMachine e')).
Proof. apply applyCommitted_replay. Qed.

(** ** Linearizable reads *)

(** The servers whose acknowledgement counts for a read admitted at [barrier]. *)
Definition confirmed_by (barrier : Z) (e : Engine S) : gset Z :=
  {[rn_nodeID (e_node e)]} ∪ dom (filter (λ '(_, a), barrier < pa_startSeq a) (e_lastAck e)).

Lemma count_acks (acks : gmap Z peerAck) (p : peerAck → bool) (P : peerAck → Prop) `{∀ a, Decision (P a)} :
  (∀ a, p a = true ↔ P a) →
  count_if (λ '(_, a), p a) (map_to_list acks) = Z.of_nat (size (dom (filter (λ '(_, a), P a) acks))).
Proof.
  intros HP. rewrite count_if_filter, size_dom. f_equal.
  rewrite <-length_map_to_list. apply Permutation_length, NoDup_Permutation.
  - apply NoDup_filter, NoDup_map_to_list.
  - apply NoDup_map_to_list.
  - intros [k a]. rewrite list_elem_of_filter, !elem_of_map_to_list, map_lookup_filter_Some. naive_solver.
Qed.

Lemma confirmations_size barrier e :
  rn_nodeID (e_node e) ∉ dom (e_lastAck e) →
  confirmations barrier e = Z.of_nat (size (confirmed_by barrier e)).
Proof.
  intros Hself. unfold confirmations, confirmed_by.
  rewrite (count_acks _ _ (λ a, barrier < pa_startSeq a)) by (intros; apply Z.ltb_lt).
  rewrite size_union, size_singleton; [lia|].
  assert (dom (filter (λ '(_, a), barrier < pa_startSeq a) (e_lastAck e)) ⊆ dom (e_lastAck e))
    by apply dom_filter_subseteq.
  set_solver.
Qed.

Definition ballot_of (X : gset Z) : gomap bool := Some (gset_to_gmap true X).

Lemma gm_bool_ballot_of X id : gm_bool (ballot_of X) id = bool_decide (id ∈ X).
Proof.
  unfold gm_bool, ballot_of. simpl. rewrite lookup_gset_to_gmap.
  case_bool_decide; [by rewrite option_guard_True|by rewrite option_guard_False].
Qed.

(** Counting acknowledgements is asking for a quorum, in a simple configuration. *)
Lemma confirmations_quorum e barrier :
  let c := rn_config (e_node e) in
  gm (OldVoters c) = ∅ → is_Some (gm (Voters c) !! rn_nodeID (e_node e)) →
  dom (e_lastAck e) ⊆ dom (gm (Voters c)) ∖ {[rn_nodeID (e_node e)]} →
  ClusterSize (e_node e) `quot` 2 < confirmations barrier e →
  HasQuorum c (ballot_of (confirmed_by barrier e)) = true.
Proof.
  intros c Hold Hself Hdom Hq. apply HasQuorum_spec. split; [|apply hasMajority_spec; by left].
  apply hasMajority_spec. right. rewrite confirmations_size in Hq by set_solver.
  assert (backing (Voters c) (ballot_of (confirmed_by barrier e)) = confirmed_by barrier e) as ->.
  { apply set_eq. intros p. rewrite elem_of_backing, gm_bool_ballot_of, bool_decide_eq_true.
    split; [by intros [_ ?]|]. intros Hp. split; [|done]. unfold confirmed_by in Hp.
    apply elem_of_union in Hp as [->%elem_of_singleton|Hp]; [done|].
    apply dom_filter_subseteq in Hp. apply elem_of_dom. set_solver. }
  unfold ClusterSize in Hq. fold c in Hq. rewrite gm_len_dom in Hq.
  rewrite Z.quot_div_nonneg in Hq by lia. done.
Qed.

Lemma confirmed_by_spec e barrier p :
  p ∈ confirmed_by barrier e → p = rn_nodeID (e_node e) ∨
  ∃ a, e_lastAck e !! p = Some a ∧ barrier < pa_startSeq a.
Proof.
  unfold confirmed_by. intros [->%elem_of_singleton|Hp]%elem_of_union; [by left|]. right.
  apply elem_of_dom in Hp as [a Hp]. apply map_lookup_filter_Some in Hp as [Hp Hlt]. eauto.
Qed.

(** a linearizable read is released only on proof of leadership.  In a simple
    configuration whose voters are this node and its peers, a read that is answered
    has a leader that is still in the term that admitted it, a committed entry of
    that term, a state machine at or past the read index when this node is to
    serve it, and a quorum of the configuration that acknowledged a round started
    after the read was admitted; rounds already claimed at admission never count. *)
Theorem read_confirmed (e : Engine S) (w : readWaiter) (index : Z) :
  let c := rn_config (e_node e) in
  gm (OldVoters c) = ∅ → gm (Voters c) ≠ ∅ →
  is_Some (gm (Voters c) !! rn_nodeID (e_node e)) →
  dom (e_lastAck e) ⊆ dom (gm (Voters c)) ∖ {[rn_nodeID (e_node e)]} →
  read_reply e w = Some (rw_resultCh w, RRead index None) →
  index = rw_readIndex w ∧
  rn_Role (e_node e) = Leader ∧ rn_term (e_node e) = rw_term w ∧
  e_noopIndex e ≤ rn_CommitIndex (e_node e) ∧
  (rw_awaitApply w = true → rw_readIndex w ≤ rn_LastApplied (e_node e)) ∧
  HasQuorum c (ballot_of (confirmed_by (rw_barrier w) e)) = true ∧
  (∀ p a, p ∈ confirmed_by (rw_barrier w) e → p ≠ rn_nodeID (e_node e) →
     e_lastAck e !! p = Some a → rw_barrier w < pa_startSeq a).
Proof.
  intros c Hold Hne Hself Hdom. unfold read_reply, State, CommitAndApplyBoundary, readSatisfied.
  case_bool_decide as Hr; simpl; [done|].
  destruct (Z.eqb_spec (rn_term (e_node e)) (rw_term w)) as [Ht|]; simpl; [|done].
  destruct (Z.ltb_spec (rn_CommitIndex (e_node e)) (e_noopIndex e)); [done|].
  destruct (rw_awaitApply w && (rn_LastApplied (e_node e) <? rw_readIndex w)) eqn:Haw; [done|].
  destruct (ClusterSize (e_node e) `quot` 2 <? confirmations (rw_barrier w) e) eqn:Hq; [|done].
  intros [= <-]. split_and!; try done.
  - intros Hw. rewrite Hw in Haw. simpl in Haw. b2p. lia.
  - b2p. by apply confirmations_quorum.
  - intros p a [->|(a' & Ha' & Hlt)]%confirmed_by_spec Hnp Ha; [done|congruence].
Qed.

(** admission pins the read.  A read admitted by a leader waits for an index at
    or above everything committed and for this term's no-op, and no round number
    claimed before admission can confirm it, while every number claimed later can. *)
Theorem handleRead_admits (e : Engine S) (ch : nat) (awaitApply : bool) (now : Z) :
  rn_Role (e_node e) = Leader → 0 ≤ e_roundSeq e < 18446744073709551615 →
  ∃ w, e_waiters (handleRead ch awaitApply now e) = e_waiters e ∧
    e_reads (handleRead ch awaitApply now e)
      = filter (λ w', read_reply (with_reads (e_reads e ++ [w]) [] e) w' = None) (e_reads e ++ [w]) ∧
    rw_resultCh w = ch ∧ rw_term w = rn_term (e_node e) ∧
    rn_CommitIndex (e_node e) ≤ rw_readIndex w ∧ e_noopIndex e ≤ rw_readIndex w ∧
    rw_barrier w = e_roundSeq e ∧
    (nextRoundSeq (handleRead ch awaitApply now e)).1 = rw_barrier w + 1.
Proof.
  intros Hr Hs. unfold handleRead, State, CommitAndApplyBoundary. rewrite Hr. simpl.
  set (k := if rn_CommitIndex (e_node e) <? e_noopIndex e then e_noopIndex e else rn_CommitIndex (e_node e)).
  exists (mkReadWaiter k (CurrentTerm (rn_persistent (e_node e))) (e_roundSeq e) awaitApply (now + readTimeout) ch).
  unfold fireReadWaiters. rewrite reply_to_spec. simpl.
  split_and!; try done.
  - unfold k. destruct (Z.ltb_spec (rn_CommitIndex (e_node e)) (e_noopIndex e)); lia.
  - unfold k. destruct (Z.ltb_spec (rn_CommitIndex (e_node e)) (e_noopIndex e)); lia.
  - by rewrite Z.mod_small by lia.
Qed.

(** ** Elections *)

(** a node cannot disturb the cluster by timing out.  Starting a poll changes
    neither the node nor its log nor its disk; and a poll result moves the node
    only if a peer reported a higher term, or if it is a grant in the current poll
    that completes a quorum of the configuration for a term still ahead. *)
Theorem prevote_nondisruptive (e e' : Engine S) (out : broadcast) (pollTerm voter now draw draw' : Z)
    (resp : PreVoteResponse) :
  (currentPeers e ≠ ∅ → startPreVote now draw draw' e = (out, e') →
     e_node e' = e_node e ∧ e_raftLog e' = e_raftLog e ∧
     e_preVotes e' = {[rn_nodeID (e_node e) := true]} ∧ e_preVoteTerm e' = rn_term (e_node e) +! 1) ∧
  (handlePreVoteResult pollTerm voter resp now draw e = (out, e') →
     e_node e' = e_node e ∧ e_raftLog e' = e_raftLog e ∨
     rn_Role (e_node e) ≠ Leader ∧ rn_term (e_node e) < pvr_Term resp ∧ out = Silent ∨
     rn_Role (e_node e) ≠ Leader ∧ pvr_VoteGranted resp = true ∧ pollTerm = e_preVoteTerm e ∧
       rn_term (e_node e) < pollTerm ∧
       HasQuorum (rn_config (e_node e)) (Some (<[voter := true]> (e_preVotes e))) = true).
Proof.
  split.
  - unfold startPreVote. intros Hp. change (currentPeers (resetElectionTimeout draw e)) with (currentPeers e).
    destruct (LastLogState _) as [i t]. rewrite decide_False by done. by intros [= _ <-].
  - unfold handlePreVoteResult, State. destruct (Z.eqb_spec pollTerm (e_preVoteTerm e)) as [Hpoll|]; simpl;
      [|intros [= _ <-]; by left].
    case_bool_decide as Hr; simpl; [intros [= _ <-]; by left|].
    destruct (Z.leb_spec pollTerm (rn_term (e_node e))); [intros [= _ <-]; by left|].
    destruct (Z.ltb_spec (rn_term (e_node e)) (pvr_Term resp)).
    { destruct (BecomeFollower _ _ _) as [r n]. intros [= <- <-]. right. by left. }
    destruct (pvr_VoteGranted resp) eqn:Hg; simpl; [|intros [= _ <-]; by left].
    unfold NodeHasQuorum. simpl.
    destruct (HasQuorum (rn_config (e_node e)) (Some (<[voter:=true]> (e_preVotes e)))) eqn:Hq;
      [|intros [= _ <-]; by left].
    intros _. right. right. done.
Qed.

(** CheckQuorum.  A leader that has heard from a majority within the grace
    period keeps its node untouched and notes the instant; one that has not gives
    up leadership at the same term, and every pending proposal and read is answered
    with a refusal, each once and in order. *)
Theorem checkQuorum_correct (e : Engine S) (now : Z) :
  currentPeers e ≠ ∅ →
  let e' := checkQuorum now e in
  (ClusterSize (e_node e) `quot` 2 < reachable now e →
     e_node e' = e_node e ∧ e_waiters e' = e_waiters e ∧ e_reads e' = e_reads e ∧
     e_sent e' = e_sent e ∧ e_lastQuorumNanos e' = now) ∧
  (reachable now e ≤ ClusterSize (e_node e) `quot` 2 →
     rn_Role (e_node e') = Follower ∧ rn_LeaderID (e_node e') = 0 ∧
     rn_persistent (e_node e') = rn_persistent (e_node e) ∧ e_replicators e' = ∅ ∧
     e_waiters e' = [] ∧ e_reads e' = [] ∧
     e_sent e' = e_sent e ++ map (λ w, (w_resultCh w, RErr (Some ErrNotLeader))) (e_waiters e)
                          ++ map (λ w, (rw_resultCh w, RRead 0 (Some ErrNotLeader))) (e_reads e)).
Proof.
  intros Hp. cbv zeta. unfold checkQuorum. rewrite decide_False by done.
  destruct (Z.ltb_spec (ClusterSize (e_node e) `quot` 2) (reachable now e)) as [Hlt|Hge]; (split; intros ?; try lia; try done).
  unfold BecomeFollower, becomeFollowerLocked, rn_CurrentTerm, rn_term. rewrite Z.ltb_irrefl.
  unfold commitPersistentLocked. rewrite bool_decide_eq_true_2 by done. cbn [fst snd].
  unfold abandon, stopReplicators.
  case_decide as Hrep; simpl in *; rewrite ?app_assoc; split_and!; done.
Qed.

End Facts.
