(* ===== verification/EngineApi.v ===== *)
(** * The engine's callers (quorum.go, replicator_loop.go)

    The methods that run on other goroutines than the control loop: the blocking
    entry points of a read, which hand a request to the loop and wait, and the
    non-blocking reports the replicators send it.  What the channels did is an
    argument, a [handoff]; the states a method reads in separate critical sections
    are separate arguments, so nothing is assumed about what happens in between. *)

From S2P Require Import Prelude Configuration Os Json Types Rpc Encoding RaftLog RaftNode StateMachine Snapshot Replicator Engine EngineLoop.

(** What became of a request handed to the loop. *)
Inductive handoff (A : Type) :=
  | Answer (a : A)   (** taken, and answered in time *)
  | Late             (** taken, not answered in time *)
  | Busy             (** the channel stayed full for the whole timeout *)
  | Gone.            (** the loop has returned *)
Arguments Answer {A} a.
Arguments Late {A}.
Arguments Busy {A}.
Arguments Gone {A}.

Record readResult := mkReadResult { rr_index : Z; rr_err : err }.

(** The zero value is the safe one. *)
Inductive Consistency := Linearizable | BoundedStale.

Record ReadOptions := mkReadOptions { ro_Consistency : Consistency; ro_MaxStaleness : Z }.

Section Api.
Context {S : Type} `{StateStoreLaws S} `{Codec LogEntry} `{Codec Command}.
Implicit Types e : Engine S.

(** ** Staleness *)

Definition staleness (now : Z) e : Z :=
  if decide (currentPeers e = ∅) then 0
  else if negb (IsLeader (e_node e)) then TimeSinceContact now (e_node e)
  else if e_lastQuorumNanos e =? 0 then MaxInt64
  else time_Since now (e_lastQuorumNanos e).

Definition Staleness (now : Z) e : Z := staleness now e.

(** ** Reads *)

Definition leaderRead (h : handoff readResult) : err :=
  match h with
  | Answer r => rr_err r
  | Late | Busy => Some ErrReadTimeout
  | Gone => Some ErrNotLeader
  end.

Definition awaitApplied (index : Z) e (h : handoff err) : err :=
  let '(_, applied) := CommitAndApplyBoundary (e_node e) in
  if index <=? applied then None
  else
    match h with
    | Answer r => r
    | Late | Busy | Gone => Some ErrReadTimeout
    end.

(** [e] when the leader is looked up, [e1] when its address is, [e2] when the reply
    is in; [send] is the network. *)
Definition followerRead (e e1 e2 : Engine S) (send : string → ReadIndexRequest → option ReadIndexResponse)
    (h : handoff err) : err :=
  let leaderID := CurrentLeader (e_node e) in
  if leaderID =? 0 then Some ErrNotLeader
  else
    match currentPeers e1 !! leaderID with
    | None => Some ErrNotLeader
    | Some addr =>
        let '(resp, ok) := ReadIndexFrom (send addr) (mkReadIndexRequest (NodeID (e_node e1))) in
        if negb ok || negb (rir_Success resp) then Some ErrNotLeader
        else awaitApplied (rir_ReadIndex resp) e2 h
    end.

(** Everything a read meets outside its own goroutine. *)
Record read_world := mkReadWorld {
  wd_entry : Engine S;     (** the engine when the role, or the staleness, is checked *)
  wd_leader : Engine S;    (** when the leader, or the commit index, is looked up *)
  wd_addr : Engine S;      (** when its address is *)
  wd_reply : Engine S;     (** when the applied index is *)
  wd_send : string → ReadIndexRequest → option ReadIndexResponse;
  wd_read : handoff readResult;
  wd_apply : handoff err;
}.

Definition LinearizableRead (w : read_world) : err :=
  if IsLeader (e_node (wd_entry w)) then leaderRead (wd_read w)
  else followerRead (wd_leader w) (wd_addr w) (wd_reply w) (wd_send w) (wd_apply w).

Definition boundedRead (maxStaleness now : Z) (w : read_world) : err :=
  if maxStaleness <=? 0 then Some ErrMaxStalenessRequired
  else if maxStaleness <? staleness now (wd_entry w) then Some ErrTooStale
  else
    let '(commitIndex, _) := CommitAndApplyBoundary (e_node (wd_leader w)) in
    match awaitApplied commitIndex (wd_reply w) (wd_apply w) with
    | Some _ => Some ErrTooStale
    | None => None
    end.

Definition EngineRead (opts : ReadOptions) (now : Z) (w : read_world) : err :=
  match ro_Consistency opts with
  | BoundedStale => boundedRead (ro_MaxStaleness opts) now w
  | Linearizable => LinearizableRead w
  end.

(** The receiving half of the ReadIndex RPC; [e] when the response is built. *)
Definition HandleReadIndex (req : ReadIndexRequest) (h : handoff readResult) e : ReadIndexResponse :=
  let refused := mkReadIndexResponse (rn_CurrentTerm (e_node e)) 0 false in
  match h with
  | Answer r =>
      match rr_err r with
      | Some _ => refused
      | None => mkReadIndexResponse (rn_CurrentTerm (e_node e)) (rr_index r) true
      end
  | Late | Busy | Gone => refused
  end.

(** ** The receiving half of the RPCs *)

(** The clock of the call, and what the control loop answered if it was asked. *)
Record call := mkCall { call_now : Z; call_read : handoff readResult }.

#[export] Instance engine_rpcHandler : rpcHandler (Engine S) call := {
  rpc_AppendEntries c req e := EngineHandleAppendEntries req (call_now c) e;
  rpc_PreVote c req e := (EngineHandlePreVote req (call_now c) e, e);
  rpc_ReadIndex c req e := (HandleReadIndex req (call_read c) e, e);
  rpc_RequestVote c req e := EngineHandleRequestVote req (call_now c) e;
  rpc_InstallSnapshot c req e := EngineHandleInstallSnapshot req (call_now c) e;
}.

(** ** Reports to the loop *)

(** A send that gives up when the channel is full. *)
Definition offer {A} (capacity : nat) (a : A) (q : list A) : list A :=
  if decide (length q < capacity)%nat then q ++ [a] else q.

Definition reportAck (capacity : nat) (peerID startSeq : Z) (ackCh : list (Z * Z)) : list (Z * Z) :=
  offer capacity (peerID, startSeq) ackCh.

Definition reportHigherTerm (capacity : nat) (term : Z) (stepDownCh : list Z) : list Z :=
  offer capacity term stepDownCh.

(** Each replicator's [notify] holds one nudge. *)
Definition notifyReplicators (e : Engine S) (notify : gmap Z (list unit)) : gmap Z (list unit) :=
  map_imap (λ p q, Some (if decide (p ∈ e_replicators e) then offer 1 () q else q)) notify.

(** ** One replicator *)

Inductive wakeup := Stop | Notify | Heartbeat.

(** [run]: a round at once, then one per wake-up until it is stopped.  [once] is
    one round on the state the replicators share. *)
Fixpoint replicator_wait {T} (once : T → T) (wakeups : list wakeup) (t : T) : T :=
  match wakeups with
  | [] | Stop :: _ => t
  | Notify :: ws | Heartbeat :: ws => replicator_wait once ws (once t)
  end.

Definition replicator_run {T} (once : T → T) (wakeups : list wakeup) (t : T) : T :=
  replicator_wait once wakeups (once t).

End Api.
Arguments read_world S : clear implicits.
