(* ===== verification/EngineRaces.v ===== *)
(** * What the control loop does not survive

    The loop and the RPC goroutines share the node and the log, and each call takes
    and releases its lock separately.  These are executions of the real handlers in
    which an RPC lands between two calls of one loop handler, a configuration the
    read path does not consult, and two snapshot installations that leave the state
    machine and the applied index apart; each is a closed run, checked by evaluation. *)

From S2P Require Import Prelude Configuration Os Json FsUtil Types Encoding RaftLog RaftLogFacts RaftNode RaftNodeFacts StateMachine Snapshot StateFile Replicator Engine EngineLoop EngineFacts.

Definition node3 (id : Z) (role : NodeRole) (leader term commit : Z) : RaftNode fileStateStore :=
  mkRaftNode id (NewConfiguration voters3) role leader commit 0 0 None DefaultMinElectionTimeout
    ∅ ∅ (mkPersistentState term (-1)) (mkFileStateStore "raft.meta" blank).

Definition engine_of (n : RaftNode fileStateStore) (rl : RaftLog) : Engine fileStateStore :=
  mkEngine n rl NewMemoryStateMachine "snapshot.json" electionTimeoutMin [] ∅ 0 0 ∅ 0 0 ∅ [] [] 0 None [].

Definition command_bytes (cmd : Command) : bytes := Marshal cmd.

(** ** A proposal across a deposition *)

Definition set_cmd (v : string) : Command := mkCommand OpSet "k" v "" 0 0.

Definition deposed : AppendEntriesRequest := mkAppendEntriesRequest 2 2 0 0 [] 0.

Definition winner_entry : LogEntry := mkLogEntry 1 2 (command_bytes (set_cmd "theirs")).

Definition winner_append : AppendEntriesRequest := mkAppendEntriesRequest 2 2 0 0 [winner_entry] 1.

(** [handleProposal] checks the role and reads the term in separate
    critical sections.  If a newer leader's heartbeat lands in between, the node
    appends the client's command as a follower under the new leader's term; the
    leader's own entry at that index then counts as already present, is
    acknowledged and committed, and this node holds a different command there. *)
Theorem proposal_across_deposition :
  ∃ (e0 e1 e2 e3 : Engine fileStateStore) (r1 r3 : AppendEntriesResponse) (mine : LogEntry),
    log_wf (e_raftLog e0) ∧ IsLeader (e_node e0) = true ∧ rn_term (e_node e0) = 1 ∧
    EngineHandleAppendEntries deposed 0 e0 = (r1, e1) ∧ aer_Success r1 = true ∧
    e2 = proposal_append (set_cmd "mine") 7 5 e1 ∧
    rn_Role (e_node e2) = Follower ∧ rn_LeaderID (e_node e2) = 2 ∧
    entry_at (e_raftLog e2) 1 = Some mine ∧ le_Term mine = 2 ∧
    EngineHandleAppendEntries winner_append 0 e2 = (r3, e3) ∧
    aer_Success r3 = true ∧ aer_MatchIndex r3 = 1 ∧ rn_CommitIndex (e_node e3) = 1 ∧
    entry_at (e_raftLog e3) 1 = Some mine ∧ le_Command mine ≠ le_Command winner_entry.
Proof.
  set (e0 := engine_of (node3 1 Leader 1 1 0) fresh_wal).
  assert (log_wf (e_raftLog e0)) as Hwf.
  { split; [|vm_compute; reflexivity]. split; vm_compute; congruence. }
  exists e0, (EngineHandleAppendEntries deposed 0 e0).2.
  set (e1 := (EngineHandleAppendEntries deposed 0 e0).2).
  exists (proposal_append (set_cmd "mine") 7 5 e1).
  set (e2 := proposal_append (set_cmd "mine") 7 5 e1).
  exists (EngineHandleAppendEntries winner_append 0 e2).2,
    (EngineHandleAppendEntries deposed 0 e0).1, (EngineHandleAppendEntries winner_append 0 e2).1,
    (mkLogEntry 1 2 (command_bytes (mkCommand OpSet "k" "mine" "" 0 5))).
  split; [done|].
  repeat match goal with |- _ ∧ _ => split; [vm_compute; reflexivity|] end.
  vm_compute. discriminate.
Qed.

(** ** A snapshot across an apply *)

Definition delete_cmd : Command := mkCommand OpDelete "k" "" "" 0 0.

Definition snapshot_machine : MemoryStateMachine :=
  mkMachine {["k"%string := "v"%string]} ∅ 0 3 DefaultSessionTTL.

Definition install3 : InstallSnapshotRequest :=
  mkInstallSnapshotRequest 1 1 3 1 (render (machineState_to_json snapshot_machine)).

(** InstallSnapshot may land between fetching an entry and applying
    it.  The old entry is then applied on top of the newer snapshot, undoing it,
    and the applied index, already raised to the snapshot, moves one past the
    commit index, so the next entry the cluster commits is never applied here. *)
Theorem snapshot_across_apply :
  ∃ (e0 e1 e2 e3 : Engine fileStateStore) (r : InstallSnapshotResponse) (entry : LogEntry) (a : Z),
    log_wf (e_raftLog e0) ∧ e_fatal e0 = None ∧
    CommitAndApplyBoundary (e_node e0) = (1, 0) ∧
    GetEntry (e_raftLog e0) 1 = Some entry ∧
    EngineHandleInstallSnapshot install3 0 e0 = (r, e1) ∧ isr_Success r = true ∧
    e_stateMachine e1 = snapshot_machine ∧
    apply_entry 1 entry e1 = (true, e2) ∧ apply_advance e2 = (a, e3) ∧
    CommitAndApplyBoundary (e_node e3) = (3, 4) ∧
    Get "k" snapshot_machine = Some "v"%string ∧ Get "k" (e_stateMachine e3) = None.
Proof.
  set (e0 := engine_of (node3 2 Follower 1 1 1)
    (AppendEntriesToLog 0 0 [mkLogEntry 1 1 (command_bytes delete_cmd)] fresh_wal).2).
  assert (log_wf (e_raftLog e0)) as Hwf.
  { split; [|vm_compute; reflexivity]. split; try (vm_compute; congruence).
    intros i e. destruct i as [|i]; vm_compute; [by intros [= <-]|done]. }
  set (entry := mkLogEntry 1 1 (command_bytes delete_cmd)).
  exists e0, (EngineHandleInstallSnapshot install3 0 e0).2.
  set (e1 := (EngineHandleInstallSnapshot install3 0 e0).2).
  exists (apply_entry 1 entry e1).2. set (e2 := (apply_entry 1 entry e1).2).
  exists (apply_advance e2).2, (EngineHandleInstallSnapshot install3 0 e0).1, entry, (apply_advance e2).1.
  split; [done|].
  repeat match goal with |- _ ∧ _ => split; [vm_compute; reflexivity|] end.
  vm_compute. reflexivity.
Qed.

(** ** A read in a joint configuration *)

Definition joint_config : Configuration :=
  EnterJoint (NewConfiguration voters3) (Some {[1 := "a"; 4 := "d"; 5 := "e"]}%string) None.

Definition joint_leader : Engine fileStateStore :=
  mkEngine (mkRaftNode 1 joint_config Leader 1 0 0 0 None DefaultMinElectionTimeout ∅ ∅
      (mkPersistentState 1 1) (mkFileStateStore "raft.meta" blank))
    fresh_wal NewMemoryStateMachine "snapshot.json" electionTimeoutMin [] ∅ 0 0 ∅ 2 0
    {[4 := mkPeerAck 2 0]} [] [] 0 None [].

(** The read path counts acknowledgements against the number of
    voters instead of asking the configuration, as the quorum rule of the node
    package requires.  During a joint change a leader answers a linearizable read
    on two acknowledgements of the new voters although no quorum of the joint
    configuration has confirmed it. *)
Theorem read_ignores_joint_configuration :
  ∃ w : readWaiter,
    rw_barrier w = 1 ∧
    readSatisfied w Leader 1 0 0 joint_leader = true ∧
    HasQuorum (rn_config (e_node joint_leader)) (ballot_of (confirmed_by (rw_barrier w) joint_leader)) = false.
Proof.
  exists (mkReadWaiter 0 1 1 false 0 0). vm_compute. done.
Qed.

(** ** A snapshot older than the state *)

Definition put (k v : string) : Command := mkCommand OpSet k v "" 0 0.

Definition entry_of (i t : Z) (cmd : Command) : LogEntry := mkLogEntry i t (command_bytes cmd).

(** Three commands are committed; the follower's fourth entry is a leftover of the
    leader of term 2, in whose place the leaders since have put another. *)
Definition common : list LogEntry := [entry_of 1 1 (put "k" "a"); entry_of 2 2 (put "k" "b"); entry_of 3 2 (put "x" "1")].

Definition log_holding (es : list LogEntry) : RaftLog := (AppendEntriesToLog 0 0 es fresh_wal).2.

Definition applied_upto (cmds : list Command) : MemoryStateMachine := apply_all 1 cmds NewMemoryStateMachine.

(** The new leader of term 4 has compacted to index 2. *)
Definition compacted_leader : Engine fileStateStore :=
  let rl := log_holding (common ++ [entry_of 4 3 (put "k" "c"); entry_of 5 4 (mkCommand OpNoop "" "" "" 0 0)]) in
  let rl := (on_disk (Write "snapshot.json" (mkSnapshotMeta 2 2) (applied_upto [put "k" "a"; put "k" "b"])) rl).2 in
  let rl := (TruncateBeforeIndex 2 2 rl).2 in
  with_machine (applied_upto [put "k" "a"; put "k" "b"; put "x" "1"])
    (engine_of (mkRaftNode 1 (NewConfiguration voters3) Leader 1 3 3 0 None DefaultMinElectionTimeout
      {[2 := 5; 3 := 5]} {[2 := 0; 3 := 0]} (mkPersistentState 4 1) (mkFileStateStore "raft.meta" blank)) rl).

Definition caught_up_follower : Engine fileStateStore :=
  with_machine (applied_upto [put "k" "a"; put "k" "b"; put "x" "1"])
    (with_node (set_commit 3 3 (node3 2 Follower 1 4 3))
      (engine_of (node3 2 Follower 1 4 3) (log_holding (common ++ [entry_of 4 2 (put "k" "z")])))).

(** A network that delivers to one follower and brings its answers back. *)
Definition ask (f : Engine fileStateStore) (req : AppendEntriesRequest) : option AppendEntriesResponse :=
  Some (EngineHandleAppendEntries req 0 f).1.

Definition ship (f : Engine fileStateStore) (req : InstallSnapshotRequest) : option InstallSnapshotResponse :=
  Some (EngineHandleInstallSnapshot req 0 f).1.

Lemma log_holding_wf (es : list LogEntry) :
  bool_decide (le_Index <$> es = Z.of_nat <$> seq 1 (length es)) = true →
  rl_cache (log_holding es) = es → rl_firstIndex (log_holding es) = 1 →
  rl_lastIncludedIndex (log_holding es) = 0 → 1 + Z.of_nat (length es) ≤ MaxInt64 →
  rl_nextIndex (log_holding es) = 1 + Z.of_nat (length es) → log_wf (log_holding es).
Proof.
  intros Hi%bool_decide_eq_true Hc Hf Hl Hm Hn. split; [|unfold cache_len; by rewrite Hf, Hc].
  split; unfold cache_len; rewrite ?Hf, ?Hl, ?Hc; try lia. intros i e He.
  apply (f_equal (.!! i)) in Hi. rewrite !list_lookup_fmap, He in Hi. simpl in Hi.
  destruct (seq 1 (length es) !! i) as [k|] eqn:Hk; [|done]. apply lookup_seq in Hk as [-> _].
  injection Hi as Hi. lia.
Qed.

(** A follower that already covers the snapshot in its state, but not
    in its compaction boundary, installs it all the same.  The rejection hint of a
    conflicting entry skips the whole run of its term, back below the follower's
    own commit index and below the leader's boundary; the leader answers with its
    snapshot, and the follower's state machine goes back to it while its applied
    index stays: the committed write to [x] is gone from this replica for good. *)
Theorem snapshot_regresses_machine :
  ∃ (req1 : AppendEntriesRequest) (r1 : AppendEntriesResponse) (req2 : InstallSnapshotRequest)
    (r2 : InstallSnapshotResponse) (cached : option encodedSnapshot) (L0 L1 L2 f0 f1 f2 : Engine fileStateStore),
    L0 = compacted_leader ∧ f0 = caught_up_follower ∧
    log_wf (e_raftLog f0) ∧ CommitAndApplyBoundary (e_node f0) = (3, 3) ∧
    entry_at (e_raftLog f0) 3 = entry_at (e_raftLog L0) 3 ∧
    req1 = append_request (e_node L0) (e_node L0) (e_node L0) (e_raftLog L0) (e_raftLog L0) 2 ∧
    EngineHandleAppendEntries req1 0 f0 = (r1, f1) ∧ aer_Success r1 = false ∧
    replicateOnce (ask f0) (λ _, None) None 2 4 L0 = (Ack 2 1, None, L1) ∧
    NextIndexFor 2 (e_node L1) = 2 ∧ FirstIndex (e_raftLog L1) = 3 ∧
    (buildSnapshotRequest None L1).1.1 = Some req2 ∧
    replicateOnce (λ _, None) (ship f1) None 2 4 L1 = (Ack 2 2, cached, L2) ∧
    EngineHandleInstallSnapshot req2 0 f1 = (r2, f2) ∧ isr_Success r2 = true ∧
    CommitAndApplyBoundary (e_node f2) = (3, 3) ∧ applyCommitted f2 = f2 ∧
    Get "x" (e_stateMachine f0) = Some "1"%string ∧ Get "x" (e_stateMachine f2) = None.
Proof.
  set (L0 := compacted_leader). set (f0 := caught_up_follower).
  set (req1 := append_request (e_node L0) (e_node L0) (e_node L0) (e_raftLog L0) (e_raftLog L0) 2).
  set (f1 := (EngineHandleAppendEntries req1 0 f0).2).
  set (L1 := (replicateOnce (ask f0) (λ _, None) None 2 4 L0).2).
  set (req2 := default install3 (buildSnapshotRequest None L1).1.1).
  exists req1, (EngineHandleAppendEntries req1 0 f0).1, req2, (EngineHandleInstallSnapshot req2 0 f1).1,
    (replicateOnce (λ _, None) (ship f1) None 2 4 L1).1.2, L0, L1,
    (replicateOnce (λ _, None) (ship f1) None 2 4 L1).2, f0, f1, (EngineHandleInstallSnapshot req2 0 f1).2.
  split; [done|]. split; [done|]. split.
  { apply log_holding_wf; vm_compute; congruence. }
  repeat match goal with |- _ ∧ _ => split; [vm_compute; reflexivity|] end.
  vm_compute. reflexivity.
Qed.

(** ** A snapshot restored but not persisted *)

Definition tagged : Command := mkCommand OpSet "k" "new" "a" 1 0.

Definition shipped_machine : MemoryStateMachine := applied_upto [put "k" "old"; tagged].

Definition install2 : InstallSnapshotRequest :=
  mkInstallSnapshotRequest 1 1 2 1 (render (machineState_to_json shipped_machine)).

(** The two commands are committed here and not yet applied; the disk is full. *)
Definition full_disk_follower : Engine fileStateStore :=
  let rl := log_holding [entry_of 1 1 (put "k" "old"); entry_of 2 1 tagged] in
  engine_of (node3 2 Follower 1 1 2) (set_disk (with_faults [FFail 0] (rl_disk rl)) rl).

(** The state machine is restored before the snapshot is written.  When
    the write fails the request is refused and the applied index stays, but the
    state machine has already moved; the apply loop then runs the same commands
    again on top of it, a tagged one is taken for a duplicate and skipped, and the
    replica ends with a different value than every other. *)
Theorem failed_install_diverges :
  ∃ (f0 f1 f2 : Engine fileStateStore) (r : InstallSnapshotResponse),
    f0 = full_disk_follower ∧ log_wf (e_raftLog f0) ∧ CommitAndApplyBoundary (e_node f0) = (2, 0) ∧
    Get "k" (e_stateMachine (applyCommitted f0)) = Some "new"%string ∧
    EngineHandleInstallSnapshot install2 0 f0 = (r, f1) ∧ isr_Success r = false ∧
    CommitAndApplyBoundary (e_node f1) = (2, 0) ∧
    applyCommitted f1 = f2 ∧ e_fatal f2 = None ∧ CommitAndApplyBoundary (e_node f2) = (2, 2) ∧
    Get "k" (e_stateMachine f2) = Some "old"%string.
Proof.
  set (f0 := full_disk_follower). set (f1 := (EngineHandleInstallSnapshot install2 0 f0).2).
  exists f0, f1, (applyCommitted f1), (EngineHandleInstallSnapshot install2 0 f0).1.
  split; [done|]. split.
  { assert (log_wf (log_holding [entry_of 1 1 (put "k" "old"); entry_of 2 1 tagged])) as Hwf
      by (apply log_holding_wf; vm_compute; congruence).
    refine (logical_wf _ _ _ Hwf). vm_compute. reflexivity. }
  repeat match goal with |- _ ∧ _ => split; [vm_compute; reflexivity|] end.
  vm_compute. reflexivity.
Qed.
