(* ===== verification/EngineRun.v ===== *)
(** * The control loop as a whole (Engine.New, Engine.Run)

    [Run] waits on nine channels and runs one handler per message.  Here a message
    is an [event], [select_arm] is the body of the select statement, and a run is
    a list of actions: messages in any order, interleaved with the inbound RPCs
    and with the replication rounds of the peer goroutines.  The loop's state also
    records what no variable of the program holds but every claim about channels
    is about: the channels requests came in on, the rounds in flight and the
    rounds acknowledged. *)

From S2P Require Import Prelude Configuration Os Json Types Encoding RaftLog RaftLogFacts RaftNode RaftNodeFacts StateMachine Snapshot Replicator Engine EngineLoop.

Section Run.
Context {S : Type} `{StateStoreLaws S} `{Codec LogEntry} `{Codec Command}.
Implicit Types e : Engine S.

(** ** Construction *)

(** [draw] is the random number of the first election timeout. *)
Definition NewWithTransport (node : RaftNode S) (rl : RaftLog) (sm : MemoryStateMachine)
    (snapshotPath : string) (draw : Z) : Engine S :=
  resetElectionTimeout draw
    (mkEngine (SetMinElectionTimeout electionTimeoutMin node) rl sm snapshotPath 0 [] ∅ 0 0 ∅ 0 0 ∅
       [] [] 0 None []).

(** ** The select statement *)

(** What the loop can receive; the last is the ticker. *)
Inductive event :=
  | Done
  | Propose (cmd : Command) (resultCh : nat)
  | StepDown (higherTerm : Z)
  | PreVoteResult (pollTerm voterID : Z) (resp : PreVoteResponse)
  | VoteResult (electionTerm voterID : Z) (resp : RequestVoteResponse)
  | AckReport (peerID startSeq : Z)
  | ReadRequest (resultCh : nat) (awaitApply : bool)
  | ApplyWait (w : applyWaiter)
  | Tick.

Definition select_arm (ev : event) (now draw draw' : Z) (e : Engine S) : broadcast * Engine S :=
  match ev with
  | Done => (Silent, shutdown e)
  | Propose cmd ch => (Silent, handleProposal cmd ch now e)
  | StepDown t => (Silent, handleStepDown t e)
  | PreVoteResult t v resp => handlePreVoteResult t v resp now draw e
  | VoteResult t v resp => (Silent, handleVoteResult t v resp now e)
  | AckReport p seq => (Silent, handleAck p seq now e)
  | ReadRequest ch aw => (Silent, handleRead ch aw now e)
  | ApplyWait w => (Silent, handleApplyWait w e)
  | Tick => onTick now draw draw' e
  end.

(** ** The loop among the other goroutines *)

(** A replication round between its claim of a round number and its report. *)
Record round := mkRound { rd_peer : Z; rd_seq : Z; rd_term : Z }.

Record Loop := mkLoop {
  lp_engine : Engine S;
  lp_stopped : bool;           (** [Run] has returned *)
  lp_asked : list nat;         (** the result channels of the requests received *)
  lp_flight : list round;      (** rounds sent and not yet reported *)
  lp_acked : list round;       (** rounds reported on [ackCh] *)
}.

(** The reply to a round: [sentTerm] is the term its request carried. *)
Inductive round_reply :=
  | AppendReply (sentTerm : Z) (resp : option AppendEntriesResponse)
  | SnapshotReply (sentTerm index : Z) (resp : option InstallSnapshotResponse).

Definition reply_progress (peerID : Z) (r : round_reply) (n : RaftNode S) : Z * RaftNode S :=
  match r with
  | AppendReply t resp => append_reply t peerID resp n
  | SnapshotReply t i resp => snapshot_reply t peerID i resp n
  end.

Inductive action :=
  | Select (ev : event) (now draw draw' : Z)
  | RpcAppendEntries (req : AppendEntriesRequest) (now : Z)
  | RpcRequestVote (req : RequestVoteRequest) (now : Z)
  | RpcInstallSnapshot (req : InstallSnapshotRequest) (now : Z)
  | RoundBegin (peerID : Z)
  | RoundEnd (rd : round) (r : round_reply).

(** The channel a message asks to be answered on, and when it gives up. *)
Definition request_of (ev : event) (now : Z) : option (nat * Z) :=
  match ev with
  | Propose _ ch => Some (ch, now + proposalTimeout)
  | ReadRequest ch _ => Some (ch, now + readTimeout)
  | ApplyWait w => Some (aw_resultCh w, aw_deadline w)
  | _ => None
  end.

Definition request_channel (a : action) : option nat :=
  match a with Select ev now _ _ => fst <$> request_of ev now | _ => None end.

(** Acknowledgements come from rounds. *)
Definition possible (ev : event) (l : Loop) : Prop :=
  match ev with
  | AckReport p seq => ∃ rd, rd ∈ lp_acked l ∧ rd_peer rd = p ∧ rd_seq rd = seq
  | _ => True
  end.

#[export] Instance round_eq_dec : EqDecision round.
Proof. solve_decision. Defined.

#[export] Instance possible_dec ev l : Decision (possible ev l).
Proof.
  destruct ev; simpl; try apply _.
  destruct (decide (Exists (λ rd, rd_peer rd = peerID ∧ rd_seq rd = startSeq) (lp_acked l))) as [Hx|Hx];
    [left|right]; by rewrite <-Exists_exists in *.
Defined.

Definition is_done (ev : event) : bool := match ev with Done => true | _ => false end.

(** One action, from beginning to end: an arm of the select statement, an inbound RPC,
    the beginning or the end of a round.  The program runs the RPCs and the rounds on
    other goroutines, and an arm that takes the node's and the log's locks several
    times can have one of them run in between; runs of actions are those in which
    that does not happen.  EngineRaces.v has runs in which it does
    ([proposal_across_deposition], [snapshot_across_apply]) and
    Replicator.v a round ([torn_round_breaks_log_matching]).  A stopped process does
    nothing; a stopped loop receives nothing; a round begins only at a running
    replicator and ends only once. *)
Definition act (a : action) (l : Loop) : Loop :=
  let e := lp_engine l in
  let become e' := mkLoop e' (lp_stopped l) (lp_asked l) (lp_flight l) (lp_acked l) in
  match e_fatal e with
  | Some _ => l
  | None =>
      match a with
      | Select ev now draw draw' =>
          if lp_stopped l || bool_decide (¬ possible ev l) then l
          else mkLoop (select_arm ev now draw draw' e).2 (is_done ev)
                 (option_list (fst <$> request_of ev now) ++ lp_asked l) (lp_flight l) (lp_acked l)
      | RpcAppendEntries req now => become (EngineHandleAppendEntries req now e).2
      | RpcRequestVote req now => become (EngineHandleRequestVote req now e).2
      | RpcInstallSnapshot req now => become (EngineHandleInstallSnapshot req now e).2
      | RoundBegin p =>
          if IsLeader (e_node e) && bool_decide (p ∈ e_replicators e) then
            let '(seq, e') := nextRoundSeq e in
            mkLoop e' (lp_stopped l) (lp_asked l)
              (mkRound p seq (e_replicatorsTerm e) :: lp_flight l) (lp_acked l)
          else l
      | RoundEnd rd r =>
          if decide (rd ∈ lp_flight l) then
            let '(followerTerm, n) := reply_progress (rd_peer rd) r (e_node e) in
            let acked :=
              match report_of (rd_term rd) (rd_peer rd) (rd_seq rd) followerTerm with
              | Ack _ _ => rd :: lp_acked l
              | _ => lp_acked l
              end in
            mkLoop (with_node n e) (lp_stopped l) (lp_asked l) (filter (λ x, x ≠ rd) (lp_flight l)) acked
          else l
      end
  end.

Definition run (acts : list action) (l : Loop) : Loop := foldl (λ l a, act a l) l acts.

Definition start (e : Engine S) : Loop := mkLoop e false [] [] [].

End Run.
Arguments Loop S : clear implicits.
