(* ===== verification/EngineFrame.v ===== *)
(** * What the handlers do to the pending requests, once for all

    Most handlers of the loop touch requests only to refuse them.  [Closed R] says
    that a relation on engine states holds across every refusal and across every
    change elsewhere in the record; each handler that grants nothing then stays in
    [R].  The three sweeps that grant (committed proposals, confirmed reads,
    reached indices) are left to the lemmas that need them.  Claims about result
    channels, writes and reads are instances. *)

From S2P Require Import Prelude Configuration Os Json Types Encoding RaftLog RaftLogFacts RaftNode RaftNodeFacts StateMachine Snapshot Replicator Engine EngineLoop EngineFacts EngineRun.

Section Frame.
Context {S : Type} `{StateStoreLaws S} `{Codec LogEntry} `{Codec Command}.
Implicit Types e : Engine S.

(** The requests and the replies are untouched. *)
Definition same_requests e e' : Prop :=
  e_waiters e' = e_waiters e ∧ e_reads e' = e_reads e ∧ e_applyWaiters e' = e_applyWaiters e ∧
  e_sent e' = e_sent e.

Class Closed (R : relation (Engine S)) := {
  closed_preorder :: PreOrder R;
  closed_same : ∀ e e', same_requests e e' → R e e';
  closed_expired : ∀ now e,
    R e (sweepExpiredApplyWaiters now (sweepExpiredReads now (sweepExpiredWaiters now e)));
  closed_failWaiters : ∀ er e, R e (failAllWaiters er e);
  closed_failReads : ∀ er e, R e (failAllReads er e);
  closed_failApply : ∀ er e, R e (failAllApplyWaiters er e);
}.

Context (R : relation (Engine S)) `{!Closed R}.

Lemma elsewhere e e' :
  e_waiters e' = e_waiters e → e_reads e' = e_reads e → e_applyWaiters e' = e_applyWaiters e →
  e_sent e' = e_sent e → R e e'.
Proof. intros. by apply closed_same. Qed.

Lemma stopReplicators_closed e : R e (stopReplicators e).
Proof. unfold stopReplicators. case_decide; [done|by apply elsewhere]. Qed.

Lemma startReplicators_closed e : R e (startReplicators e).
Proof.
  unfold startReplicators. case_match; [done|].
  etransitivity; [apply stopReplicators_closed|by apply elsewhere].
Qed.

Lemma becomeLeader_closed t i now e : R e (becomeLeader t i now e).
Proof.
  unfold becomeLeader. destruct (BecomeLeader t i (e_node e)) as [[|] n]; [|by apply elsewhere].
  etransitivity; [|apply startReplicators_closed]. unfold EncodeCommand.
  destruct (AppendLeader _ t _) as [[entry|er] rl]; by apply elsewhere.
Qed.

Lemma runElection_closed now draw e : R e (runElection now draw e).2.
Proof.
  unfold runElection. destruct (BecomeCandidate now (e_node e)) as [[t|er] n]; [|by apply elsewhere].
  destruct (LastLogState _) as [i lt]. case_decide; simpl; [|by apply elsewhere].
  etransitivity; [|apply becomeLeader_closed]. by apply elsewhere.
Qed.

Lemma startPreVote_closed now d d' e : R e (startPreVote now d d' e).2.
Proof.
  unfold startPreVote. destruct (LastLogState _) as [i lt]. case_decide; simpl; [|by apply elsewhere].
  etransitivity; [|apply runElection_closed]. by apply elsewhere.
Qed.

Lemma handlePreVoteResult_closed t v resp now d e : R e (handlePreVoteResult t v resp now d e).2.
Proof.
  unfold handlePreVoteResult, State. repeat (case_match; try done); simpl; try (by apply elsewhere).
  etransitivity; [|apply runElection_closed]. by apply elsewhere.
Qed.

Lemma handleVoteResult_closed t v resp now e : R e (handleVoteResult t v resp now e).
Proof.
  unfold handleVoteResult, State. repeat (case_match; try done); simpl; try (by apply elsewhere).
  etransitivity; [|apply becomeLeader_closed]. by apply elsewhere.
Qed.

Lemma abandon_closed e : R e (abandon e).
Proof.
  unfold abandon. etransitivity; [apply stopReplicators_closed|].
  etransitivity; [apply closed_failWaiters|apply closed_failReads].
Qed.

Lemma handleStepDown_closed t e : R e (handleStepDown t e).
Proof.
  unfold handleStepDown. case_match; [done|]. destruct (BecomeFollower t 0 (e_node e)) as [r n].
  etransitivity; [|apply abandon_closed]. by apply elsewhere.
Qed.

Lemma reconcileLeadership_closed e : R e (reconcileLeadership e).
Proof.
  unfold reconcileLeadership, State. case_bool_decide.
  - case_decide; [apply closed_failReads|].
    etransitivity; [apply stopReplicators_closed|].
    etransitivity; [apply closed_failWaiters|apply closed_failReads].
  - match goal with |- context [if ?b then _ else _] => destruct b end; [apply startReplicators_closed|done].
Qed.

Lemma checkQuorum_closed now e : R e (checkQuorum now e).
Proof.
  unfold checkQuorum. case_decide; [done|]. case_match; [by apply elsewhere|].
  destruct (BecomeFollower _ 0 (e_node e)) as [[u|er] n]; [|by apply elsewhere].
  etransitivity; [|apply abandon_closed]. by apply elsewhere.
Qed.

Lemma apply_one_closed a c e a' e' : apply_one a c e = Some (a', e') → R e e'.
Proof.
  unfold apply_one, apply_entry, apply_advance. intros Ha.
  repeat (case_match; simplify_eq/=); by apply elsewhere.
Qed.

Lemma applyCommitted_closed e : R e (applyCommitted e).
Proof.
  unfold applyCommitted, CommitAndApplyBoundary.
  generalize (rn_CommitIndex (e_node e)), (Z.to_nat (rn_CommitIndex (e_node e) - rn_LastApplied (e_node e))).
  intros c fuel. generalize (rn_LastApplied (e_node e)). revert e.
  induction fuel as [|fuel IH]; intros e a; simpl; [done|].
  destruct (apply_one a c e) as [[a' e']|] eqn:Ha; [|done]. apply apply_one_closed in Ha.
  destruct (e_fatal e'); [done|]. etransitivity; [exact Ha|apply IH].
Qed.

Lemma maybeCompact_closed e : R e (maybeCompact e).
Proof.
  unfold maybeCompact, compact, CommitAndApplyBoundary. repeat (case_match; try done); by apply elsewhere.
Qed.

(** The role's part of the tick, up to the proposals it acknowledges. *)
Lemma tick_role_cases now d d' e :
  R e (tick_role now d d' e).2 ∨
  ∃ r n, rn_Role (e_node e) = Leader ∧
    AdvanceCommitIndex (LatestIndex (e_raftLog e)) (TermAt (e_raftLog e)) (rn_term (e_node e)) (e_node e) = (r, n) ∧
    (tick_role now d d' e).2 = fireCommittedWaiters (rn_CommitIndex n) (rn_term (e_node e)) (with_node n e).
Proof.
  unfold tick_role, State. case_bool_decide as Hl.
  - destruct (AdvanceCommitIndex _ _ _ _) as [r n] eqn:Ha. right. by exists r, n.
  - left. case_match; [apply startPreVote_closed|done].
Qed.

Lemma tick_role_closed now d d' e :
  (∀ c t e, R e (fireCommittedWaiters c t e)) → R e (tick_role now d d' e).2.
Proof.
  intros Hc. destruct (tick_role_cases now d d' e) as [?|(r & n & _ & _ & ->)]; [done|].
  etransitivity; [|apply Hc]. by apply elsewhere.
Qed.

Lemma shutdown_closed e : R e (shutdown e).
Proof.
  unfold shutdown. etransitivity; [apply closed_failWaiters|]. etransitivity; [apply closed_failReads|].
  etransitivity; [apply closed_failApply|apply stopReplicators_closed].
Qed.

Lemma rpcs_closed e now :
  (∀ req, R e (EngineHandleAppendEntries req now e).2) ∧
  (∀ req, R e (EngineHandleRequestVote req now e).2) ∧
  (∀ req, R e (EngineHandleInstallSnapshot req now e).2).
Proof.
  unfold EngineHandleAppendEntries, EngineHandleRequestVote, EngineHandleInstallSnapshot.
  split_and!; intros req; repeat case_match; by apply elsewhere.
Qed.

(** The tick around the reads it releases and the indices it announces. *)
Definition tick_end (now : Z) e : Engine S :=
  sweepExpiredApplyWaiters now (sweepExpiredReads now (sweepExpiredWaiters now
    (if IsLeader (e_node e) then checkQuorum now e else e))).

Lemma tick_end_closed now e : R e (tick_end now e).
Proof.
  unfold tick_end. etransitivity; [|apply closed_expired]. case_match; [apply checkQuorum_closed|done].
Qed.

Lemma tick_rest_closed now e :
  R e (applyCommitted e) ∧ R (applyCommitted e) (maybeCompact (applyCommitted e)) ∧
  tick_rest now e = match e_fatal (applyCommitted e) with
    | Some _ => applyCommitted e
    | None => tick_end now (fireApplyWaiters (fireReadWaiters (maybeCompact (applyCommitted e))))
    end.
Proof. split_and!; [apply applyCommitted_closed|apply maybeCompact_closed|done]. Qed.

End Frame.
