(* ===== verification/EngineChannels.v ===== *)
(** * Every request is answered, once

    The result channels of the control loop as a conserved quantity: no handler
    loses a channel it has accepted, none sends on one twice, and a tick leaves
    none pending past its deadline.  A second send on a result channel, which has
    room for one value, would block the loop for good. *)

From S2P Require Import Prelude Configuration Os Json Types Encoding RaftLog RaftLogFacts RaftNode RaftNodeFacts StateMachine Snapshot Replicator Engine EngineLoop EngineFacts EngineRun EngineFrame.

Section Channels.
Context {S : Type} `{StateStoreLaws S} `{Codec LogEntry} `{Codec Command}.
Implicit Types (e : Engine S) (l : Loop S).

(** The requests waiting for an answer: their channels and deadlines. *)
Definition pending e : list (nat * Z) :=
  map (λ w, (w_resultCh w, w_deadline w)) (e_waiters e) ++
  map (λ w, (rw_resultCh w, rw_deadline w)) (e_reads e) ++
  map (λ w, (aw_resultCh w, aw_deadline w)) (e_applyWaiters e).

(** Every channel the loop has been given and not forgotten. *)
Definition channels e : list nat := (pending e).*1 ++ (e_sent e).*1.

(** [exchange new e e']: from [e] to [e'] the loop took in the requests [new], and
    each of them, like each that was pending, is pending or answered once. *)
Definition exchange (new : list (nat * Z)) e e' : Prop :=
  channels e' ≡ₚ new.*1 ++ channels e ∧ pending e' ⊆ new ++ pending e ∧
  e_sent e `prefix_of` e_sent e'.

Lemma exchange_trans new new' e1 e2 e3 :
  exchange new e1 e2 → exchange new' e2 e3 → exchange (new' ++ new) e1 e3.
Proof.
  intros (Hc1 & Hp1 & Hs1) (Hc2 & Hp2 & Hs2). split; [|split; [|by etransitivity]].
  - by rewrite Hc2, Hc1, fmap_app, app_assoc.
  - revert Hp1 Hp2. generalize (pending e1) (pending e2) (pending e3). clear. set_solver.
Qed.

(** A handler that takes in nothing. *)
Abbreviation calm := (exchange []).

#[export] Instance calm_preorder : PreOrder calm.
Proof.
  split.
  - intros e. split_and!; [done|set_solver|done].
  - intros e1 e2 e3 He1 He2. exact (exchange_trans [] [] _ _ _ He1 He2).
Qed.

Lemma exchange_calm new e1 e2 e3 : exchange new e1 e2 → calm e2 e3 → exchange new e1 e3.
Proof. intros He1 He2. exact (exchange_trans new [] _ _ _ He1 He2). Qed.

Lemma calm_exchange new e1 e2 e3 : calm e1 e2 → exchange new e2 e3 → exchange new e1 e3.
Proof. intros He1 He2. rewrite <-(app_nil_r new). exact (exchange_trans [] new _ _ _ He1 He2). Qed.

(** ** The pieces *)

(** A change elsewhere in the record. *)
Lemma calm_elsewhere e e' :
  e_waiters e' = e_waiters e → e_reads e' = e_reads e → e_applyWaiters e' = e_applyWaiters e →
  e_sent e' = e_sent e → calm e e'.
Proof.
  intros Hw Hr Ha Hs. unfold exchange, channels, pending. rewrite Hw, Hr, Ha, Hs.
  split_and!; [done|set_solver|done].
Qed.

Definition answers {W} (ch : W → nat) (decide : W → option (nat * reply)) : Prop :=
  ∀ w r, decide w = Some r → r.1 = ch w.

(** A sweep moves the channels it answers from the waiting to the sent. *)
Lemma reply_to_moves {W} (ch : W → nat) (decide : W → option (nat * reply)) ws kept out :
  answers ch decide → reply_to decide ws = (kept, out) →
  map ch ws ≡ₚ map ch kept ++ out.*1 ∧ kept ⊆ ws.
Proof.
  intros Hch. revert kept out. induction ws as [|w ws IH]; intros kept out; simpl.
  - intros [= <- <-]. done.
  - destruct (reply_to decide ws) as [kept' out'] eqn:Hr.
    destruct (IH _ _ eq_refl) as [Hp Hsub].
    destruct (decide w) as [r|] eqn:Hd; intros [= <- <-].
    + split; [|set_solver]. rewrite fmap_cons, (Hch _ _ Hd), <-Permutation_middle. by constructor.
    + split; [|set_solver]. simpl. by constructor.
Qed.

Lemma incl_map {A B} (f : A → B) (l l' : list A) : l ⊆ l' → map f l ⊆ map f l'.
Proof. intros Hsub x (y & -> & Hy)%list_elem_of_fmap. apply list_elem_of_fmap. eauto. Qed.

Lemma channel_of_pairs {A} (f : A → nat) (g : A → Z) ws : (map (λ w, (f w, g w)) ws).*1 = map f ws.
Proof. rewrite <-list_fmap_compose. done. Qed.

Lemma channels_eq e :
  channels e = (map w_resultCh (e_waiters e) ++ map rw_resultCh (e_reads e) ++
                map aw_resultCh (e_applyWaiters e)) ++ (e_sent e).*1.
Proof. unfold channels, pending. by rewrite !fmap_app, !channel_of_pairs. Qed.

Lemma calm_waiters e kept out :
  map w_resultCh (e_waiters e) ≡ₚ map w_resultCh kept ++ out.*1 → kept ⊆ e_waiters e →
  calm e (with_waiters kept out e).
Proof.
  intros Hp Hsub. split; [|split; [|by exists out]].
  - rewrite !channels_eq. simpl. rewrite fmap_app, Hp. solve_Permutation.
  - unfold pending. simpl. apply (incl_map (λ w, (w_resultCh w, w_deadline w))) in Hsub. clear -Hsub. set_solver.
Qed.

Lemma calm_reads e kept out :
  map rw_resultCh (e_reads e) ≡ₚ map rw_resultCh kept ++ out.*1 → kept ⊆ e_reads e →
  calm e (with_reads kept out e).
Proof.
  intros Hp Hsub. split; [|split; [|by exists out]].
  - rewrite !channels_eq. simpl. rewrite fmap_app, Hp. solve_Permutation.
  - unfold pending. simpl. apply (incl_map (λ w, (rw_resultCh w, rw_deadline w))) in Hsub. clear -Hsub. set_solver.
Qed.

Lemma calm_applyWaiters e kept out :
  map aw_resultCh (e_applyWaiters e) ≡ₚ map aw_resultCh kept ++ out.*1 → kept ⊆ e_applyWaiters e →
  calm e (with_applyWaiters kept out e).
Proof.
  intros Hp Hsub. split; [|split; [|by exists out]].
  - rewrite !channels_eq. simpl. rewrite fmap_app, Hp. solve_Permutation.
  - unfold pending. simpl. apply (incl_map (λ w, (aw_resultCh w, aw_deadline w))) in Hsub. clear -Hsub. set_solver.
Qed.

(** ** Sweeps *)

Lemma committed_answers c t : answers w_resultCh (committed_reply c t).
Proof. intros w r. unfold committed_reply. by repeat case_match; intros [= <-]. Qed.

Lemma expired_waiter_answers now : answers w_resultCh (expired_waiter now).
Proof. intros w r. unfold expired_waiter. by case_match; intros [= <-]. Qed.

Lemma read_reply_answers e : answers rw_resultCh (read_reply e).
Proof. intros w r. unfold read_reply. by repeat case_match; intros [= <-]. Qed.

Lemma expired_read_answers now : answers rw_resultCh (expired_read now).
Proof. intros w r. unfold expired_read. by case_match; intros [= <-]. Qed.

Lemma applied_answers a : answers aw_resultCh (applied_reply a).
Proof. intros w r. unfold applied_reply. by case_match; intros [= <-]. Qed.

Lemma expired_apply_answers now : answers aw_resultCh (expired_apply now).
Proof. intros w r. unfold expired_apply. by case_match; intros [= <-]. Qed.

Ltac sweep lem ans :=
  match goal with |- context [reply_to ?d ?ws] =>
    let Hr := fresh "Hr" in
    destruct (reply_to d ws) as [kept out] eqn:Hr;
    apply (reply_to_moves _ _ _ _ _ ans) in Hr as [? ?]; by apply lem
  end.

Lemma fireCommittedWaiters_calm c t e : calm e (fireCommittedWaiters c t e).
Proof. unfold fireCommittedWaiters. sweep calm_waiters (committed_answers c t). Qed.

Lemma sweepExpiredWaiters_calm now e : calm e (sweepExpiredWaiters now e).
Proof. unfold sweepExpiredWaiters. sweep calm_waiters (expired_waiter_answers now). Qed.

Lemma fireReadWaiters_calm e : calm e (fireReadWaiters e).
Proof. unfold fireReadWaiters. sweep calm_reads (read_reply_answers e). Qed.

Lemma sweepExpiredReads_calm now e : calm e (sweepExpiredReads now e).
Proof. unfold sweepExpiredReads. sweep calm_reads (expired_read_answers now). Qed.

Lemma fireApplyWaiters_calm e : calm e (fireApplyWaiters e).
Proof. unfold fireApplyWaiters, CommitAndApplyBoundary. sweep calm_applyWaiters (applied_answers (rn_LastApplied (e_node e))). Qed.

Lemma sweepExpiredApplyWaiters_calm now e : calm e (sweepExpiredApplyWaiters now e).
Proof. unfold sweepExpiredApplyWaiters. sweep calm_applyWaiters (expired_apply_answers now). Qed.

Lemma failAllWaiters_calm er e : calm e (failAllWaiters er e).
Proof. apply calm_waiters; [|set_solver]. simpl. by rewrite <-list_fmap_compose. Qed.

Lemma failAllReads_calm er e : calm e (failAllReads er e).
Proof. apply calm_reads; [|set_solver]. simpl. by rewrite <-list_fmap_compose. Qed.

Lemma failAllApplyWaiters_calm er e : calm e (failAllApplyWaiters er e).
Proof. apply calm_applyWaiters; [|set_solver]. simpl. by rewrite <-list_fmap_compose. Qed.

#[export] Instance calm_closed : Closed calm.
Proof.
  split; [apply _|..].
  - intros e e' (? & ? & ? & ?). by apply calm_elsewhere.
  - intros. etransitivity; [apply sweepExpiredWaiters_calm|].
    etransitivity; [apply sweepExpiredReads_calm|apply sweepExpiredApplyWaiters_calm].
  - intros. apply failAllWaiters_calm.
  - intros. apply failAllReads_calm.
  - intros. apply failAllApplyWaiters_calm.
Qed.

(** ** Handlers that take in nothing *)

Lemma onTick_calm now d d' e : calm e (onTick now d d' e).2.
Proof.
  unfold onTick.
  pose proof (tick_role_closed calm now d d' (reconcileLeadership e) fireCommittedWaiters_calm) as Hr.
  destruct (tick_role _ _ _ _) as [out e2]. simpl in *.
  etransitivity; [apply (reconcileLeadership_closed calm)|]. etransitivity; [exact Hr|].
  destruct (tick_rest_closed calm now e2) as (Ha & Hc & ->).
  etransitivity; [exact Ha|]. destruct (e_fatal (applyCommitted e2)); [done|].
  etransitivity; [exact Hc|]. etransitivity; [apply fireReadWaiters_calm|].
  etransitivity; [apply fireApplyWaiters_calm|apply (tick_end_closed calm)].
Qed.

Lemma handleAck_calm p seq now e : calm e (handleAck p seq now e).
Proof. unfold handleAck. etransitivity; [|apply fireReadWaiters_calm]. by apply calm_elsewhere. Qed.

(** ** Handlers that take in a request *)

Lemma exchange_refused ch d r e : exchange [(ch, d)] e (with_waiters (e_waiters e) [(ch, r)] e).
Proof.
  split; [|split; [|by eexists]].
  - rewrite !channels_eq. simpl. rewrite fmap_app. solve_Permutation.
  - unfold pending. simpl. set_solver.
Qed.

Lemma handleProposal_exchange cmd ch now e :
  exchange [(ch, now + proposalTimeout)] e (handleProposal cmd ch now e).
Proof.
  unfold handleProposal, proposal_append, EncodeCommand. case_match; [apply exchange_refused|].
  destruct (AppendLeader _ _ (e_raftLog e)) as [[entry|er] rl].
  - split; [|split; [|by eexists]].
    + rewrite !channels_eq. simpl. rewrite map_app, app_nil_r. simpl. solve_Permutation.
    + unfold pending. simpl. rewrite map_app. set_solver.
  - apply (calm_exchange _ e (with_log rl e)); [by apply calm_elsewhere|].
    apply (exchange_refused _ _ _ (with_log rl e)).
Qed.

Lemma handleRead_exchange ch aw now e :
  exchange [(ch, now + readTimeout)] e (handleRead ch aw now e).
Proof.
  unfold handleRead, State, CommitAndApplyBoundary. case_bool_decide.
  - split; [|split; [|by eexists]].
    + rewrite !channels_eq. simpl. rewrite fmap_app. solve_Permutation.
    + unfold pending. simpl. set_solver.
  - eapply exchange_calm; [|apply fireReadWaiters_calm]. split; [|split; [|by eexists]].
    + rewrite !channels_eq. simpl. rewrite map_app, app_nil_r. simpl. solve_Permutation.
    + unfold pending. simpl. rewrite map_app. set_solver.
Qed.

Lemma handleApplyWait_exchange w e :
  exchange [(aw_resultCh w, aw_deadline w)] e (handleApplyWait w e).
Proof.
  unfold handleApplyWait, CommitAndApplyBoundary. case_match; (split; [|split; [|by eexists]]).
  - rewrite !channels_eq. simpl. rewrite fmap_app. solve_Permutation.
  - unfold pending. simpl. set_solver.
  - rewrite !channels_eq. simpl. rewrite map_app, app_nil_r. simpl. solve_Permutation.
  - unfold pending. simpl. rewrite map_app. set_solver.
Qed.

(** ** The loop *)

Lemma select_arm_exchange ev now d d' e :
  exchange (option_list (request_of ev now)) e (select_arm ev now d d' e).2.
Proof.
  destruct ev; simpl.
  - apply (shutdown_closed calm).
  - apply handleProposal_exchange.
  - apply (handleStepDown_closed calm).
  - apply (handlePreVoteResult_closed calm).
  - apply (handleVoteResult_closed calm).
  - apply handleAck_calm.
  - apply handleRead_exchange.
  - apply handleApplyWait_exchange.
  - apply onTick_calm.
Qed.

(** The requests an action brings in when it runs in [l]. *)
Definition taken (a : action) (l : Loop S) : list (nat * Z) :=
  match e_fatal (lp_engine l), a with
  | None, Select ev now _ _ =>
      if lp_stopped l || bool_decide (¬ possible ev l) then [] else option_list (request_of ev now)
  | _, _ => []
  end.

Lemma act_exchange a l :
  exchange (taken a l) (lp_engine l) (lp_engine (act a l)) ∧
  lp_asked (act a l) = (taken a l).*1 ++ lp_asked l.
Proof.
  unfold act, taken. destruct (e_fatal (lp_engine l)) eqn:Hf; [done|].
  pose proof (rpcs_closed calm (lp_engine l)) as Hrpc.
  destruct a as [ev now d d'|req now|req now|req now|p|rd r]; cbn [lp_engine lp_asked].
  - case_match; [done|]. split; [apply select_arm_exchange|].
    cbn. by destruct (request_of ev now).
  - split; [apply Hrpc|done].
  - split; [apply Hrpc|done].
  - split; [apply Hrpc|done].
  - case_match; [|done]. destruct (nextRoundSeq (lp_engine l)) as [seq e'] eqn:Hs.
    split; [|done]. injection Hs as _ <-. by apply calm_elsewhere.
  - case_decide; [|done]. destruct (reply_progress _ r _) as [t n]. split; [by apply calm_elsewhere|done].
Qed.

Definition accounted (l : Loop S) : Prop :=
  lp_asked l ≡ₚ channels (lp_engine l) ∧ (lp_stopped l = true → pending (lp_engine l) = []).

Lemma shutdown_pending e : pending (shutdown e) = [].
Proof. unfold shutdown, stopReplicators. case_decide; done. Qed.

Lemma act_stops a l :
  lp_stopped (act a l) = true → lp_stopped l = true ∨ pending (lp_engine (act a l)) = [].
Proof.
  unfold act. destruct (e_fatal (lp_engine l)); [by left|].
  destruct a as [ev now d d'|req now|req now|req now|p|rd r]; cbn [lp_stopped]; auto.
  - case_match; [by left|]. cbn [lp_stopped lp_engine].
    destruct ev; try done. intros _. right. apply shutdown_pending.
  - case_match; [|by left]. destruct (nextRoundSeq _). by left.
  - case_decide; [|by left]. destruct (reply_progress _ _ _). by left.
Qed.

Lemma act_accounted a l : accounted l → accounted (act a l).
Proof.
  intros [Hasked Hstop]. destruct (act_exchange a l) as [(Hc & Hp & _) Ha]. split.
  - rewrite Ha, Hc. by rewrite Hasked.
  - intros [Hl|?]%act_stops; [|done]. apply elem_of_nil_inv. intros x Hx%Hp.
    rewrite (Hstop Hl), app_nil_r in Hx. unfold taken in Hx. rewrite Hl in Hx. simpl in Hx.
    repeat case_match; by apply elem_of_nil in Hx.
Qed.

Lemma run_app acts acts' l : run (acts ++ acts') l = run acts' (run acts l).
Proof. apply foldl_app. Qed.

Lemma run_accounted acts l : accounted l → accounted (run acts l).
Proof. revert l. induction acts as [|a acts IH]; intros l Hl; [done|]. by apply IH, act_accounted. Qed.

Lemma start_accounted node rl sm path draw : accounted (start (NewWithTransport node rl sm path draw)).
Proof. split; done. Qed.

Lemma run_asked acts l : ∃ new, lp_asked (run acts l) = new ++ lp_asked l.
Proof.
  revert l. induction acts as [|a acts IH]; intros l; [by exists []|].
  destruct (IH (act a l)) as [new Hn]. exists (new ++ (taken a l).*1).
  change (run (a :: acts) l) with (run acts (act a l)). rewrite Hn.
  destruct (act_exchange a l) as [_ ->]. by rewrite app_assoc.
Qed.

(** C17: no request is lost and none is answered twice.  From the start of the loop,
    through any sequence of messages, inbound RPCs and replication rounds, the
    channels of the requests received are exactly, counted with multiplicity,
    those still pending and those answered; so when every request brings its own
    channel, each is answered at most once and never while it is still pending,
    and when the loop has stopped each has been answered. *)
Theorem answered_once (node : RaftNode S) (rl : RaftLog) (sm : MemoryStateMachine) (path : string)
    (draw : Z) (acts : list action) :
  let l := run acts (start (NewWithTransport node rl sm path draw)) in
  let e := lp_engine l in
  lp_asked l ≡ₚ (pending e).*1 ++ (e_sent e).*1 ∧
  (NoDup (lp_asked l) → NoDup (e_sent e).*1 ∧ ∀ ch r, (ch, r) ∈ e_sent e → ch ∉ (pending e).*1) ∧
  (lp_stopped l = true → lp_asked l ≡ₚ (e_sent e).*1).
Proof.
  cbv zeta. destruct (run_accounted acts _ (start_accounted node rl sm path draw)) as [Hasked Hstop].
  split; [exact Hasked|]. split.
  - rewrite Hasked. unfold channels. intros (_ & Hd & Hn)%NoDup_app. split; [done|].
    intros ch r Hin Hp. apply (Hd ch Hp). apply list_elem_of_fmap. by exists (ch, r).
  - intros Hs. rewrite Hasked. unfold channels. by rewrite (Hstop Hs).
Qed.

(** ** Deadlines *)

Lemma sweeps_expire now e ch d :
  (ch, d) ∈ pending (sweepExpiredApplyWaiters now (sweepExpiredReads now (sweepExpiredWaiters now e))) →
  now ≤ d.
Proof.
  unfold sweepExpiredApplyWaiters, sweepExpiredReads, sweepExpiredWaiters. rewrite !reply_to_spec. simpl.
  unfold pending. simpl. rewrite !elem_of_app, !list_elem_of_fmap.
  intros [(w & [= -> ->] & Hw)|[(w & [= -> ->] & Hw)|(w & [= -> ->] & Hw)]];
    apply list_elem_of_filter in Hw as [Hw _]; revert Hw;
    unfold expired_waiter, expired_read, expired_apply; case_match; b2p; done.
Qed.

Lemma onTick_expires now d d' e ch dl :
  e_fatal (onTick now d d' e).2 = None → (ch, dl) ∈ pending (onTick now d d' e).2 → now ≤ dl.
Proof.
  unfold onTick. destruct (tick_role _ _ _ _) as [out e1]. simpl. unfold tick_rest.
  destruct (e_fatal (applyCommitted e1)) eqn:Hf; [congruence|]. intros _. apply sweeps_expire.
Qed.

(** Once a request is in, its channel is pending with its own deadline only. *)
Definition due (ch : nat) (dl : Z) (l : Loop S) : Prop :=
  ch ∈ lp_asked l ∧ ∀ d, (ch, d) ∈ pending (lp_engine l) → d = dl.

Lemma act_due ch dl a l : NoDup (lp_asked (act a l)) → due ch dl l → due ch dl (act a l).
Proof.
  intros Hnd [Hin Hd]. destruct (act_exchange a l) as [(_ & Hp & _) Ha].
  rewrite Ha in Hnd. apply NoDup_app in Hnd as (_ & Hdis & _). split.
  - rewrite Ha. apply elem_of_app. by right.
  - intros d Hx. apply Hp in Hx. apply elem_of_app in Hx as [Hx|Hx]; [|by apply Hd].
    exfalso. apply (Hdis ch); [|done]. apply list_elem_of_fmap. by exists (ch, d).
Qed.

Lemma run_due ch dl acts l : NoDup (lp_asked (run acts l)) → due ch dl l → due ch dl (run acts l).
Proof.
  revert l. induction acts as [|a acts IH]; intros l Hnd Hd; [done|].
  apply IH; [done|]. apply act_due; [|done].
  destruct (run_asked acts (act a l)) as [new Hn]. change (run (a :: acts) l) with (run acts (act a l)) in Hnd.
  rewrite Hn in Hnd. by apply NoDup_app in Hnd as (_ & _ & ?).
Qed.

(** A dead process stays dead. *)
Lemma run_alive acts l : e_fatal (lp_engine (run acts l)) = None → e_fatal (lp_engine l) = None.
Proof.
  revert l. induction acts as [|a acts IH]; intros l Hx; [done|]. apply IH in Hx.
  destruct (e_fatal (lp_engine l)) eqn:Hl; [|done]. unfold act in Hx. rewrite Hl in Hx. congruence.
Qed.

Lemma run_NoDup acts l : NoDup (lp_asked (run acts l)) → NoDup (lp_asked l).
Proof. destruct (run_asked acts l) as [new ->]. by intros (_ & _ & ?)%NoDup_app. Qed.

(** A new request comes in on a channel nothing else uses. *)
Lemma request_fresh ev now d d' ch dl l :
  accounted l → lp_stopped l = false → e_fatal (lp_engine l) = None →
  request_of ev now = Some (ch, dl) → NoDup (lp_asked (act (Select ev now d d') l)) →
  taken (Select ev now d d') l = [(ch, dl)] ∧ ch ∈ lp_asked (act (Select ev now d d') l) ∧
  ch ∉ channels (lp_engine l).
Proof.
  intros [Hasked _] Hrun Hf Hreq Hnd.
  assert (taken (Select ev now d d') l = [(ch, dl)]) as Htaken.
  { unfold taken. rewrite Hf, Hrun, Hreq. by destruct ev. }
  destruct (act_exchange (Select ev now d d') l) as [_ Ha]. rewrite Htaken in Ha. rewrite Ha in *.
  split_and!; [done|left|]. apply NoDup_cons in Hnd as [Hn _]. by rewrite Hasked in Hn.
Qed.

Lemma fresh_requests ch e :
  ch ∉ channels e →
  (∀ w, w ∈ e_waiters e → w_resultCh w ≠ ch) ∧ (∀ w, w ∈ e_reads e → rw_resultCh w ≠ ch) ∧
  (∀ w, w ∈ e_applyWaiters e → aw_resultCh w ≠ ch) ∧ ∀ r, (ch, r) ∉ e_sent e.
Proof.
  rewrite channels_eq, !elem_of_app. intros Hn. split_and!; intros x Hx; [intros Hc..|]; apply Hn.
  - left. left. apply list_elem_of_fmap. by exists x.
  - left. right. left. apply list_elem_of_fmap. by exists x.
  - left. right. right. apply list_elem_of_fmap. by exists x.
  - right. apply list_elem_of_fmap. by exists (ch, x).
Qed.

Lemma request_due ev now d d' ch dl l :
  accounted l → lp_stopped l = false → e_fatal (lp_engine l) = None →
  request_of ev now = Some (ch, dl) → NoDup (lp_asked (act (Select ev now d d') l)) →
  due ch dl (act (Select ev now d d') l).
Proof.
  intros Hacc Hrun Hf Hreq Hnd.
  destruct (request_fresh ev now d d' ch dl l Hacc Hrun Hf Hreq Hnd) as (Htaken & Hin & Hnew).
  destruct (act_exchange (Select ev now d d') l) as [(_ & Hp & _) _].
  rewrite Htaken in Hp. split; [done|].
  intros x Hx%Hp. apply elem_of_cons in Hx as [[= ->]|Hx]; [done|].
  exfalso. apply Hnew, elem_of_app. left. apply list_elem_of_fmap. by exists (ch, x).
Qed.

(** After a tick, what is pending is not overdue. *)
Lemma act_tick now d d' ch dl l :
  accounted l → e_fatal (lp_engine (act (Select Tick now d d') l)) = None →
  (ch, dl) ∈ pending (lp_engine (act (Select Tick now d d') l)) → now ≤ dl.
Proof.
  intros [_ Hstop]. unfold act. destruct (e_fatal (lp_engine l)) eqn:Hf; [congruence|].
  rewrite bool_decide_false, orb_false_r by (intros Hn; by apply Hn).
  destruct (lp_stopped l) eqn:Hs.
  - rewrite Hstop by done. by intros _ ?%elem_of_nil.
  - apply onTick_expires.
Qed.

(** C18: no request waits forever.  A request received at [now] with a deadline is
    answered by the first tick that runs after the deadline, whatever messages,
    RPCs and rounds come in between and whatever becomes of this node's role,
    unless the process has stopped. *)
Theorem answered_in_time (node : RaftNode S) (rl : RaftLog) (sm : MemoryStateMachine) (path : string)
    (draw : Z) (before after : list action) (ev : event) (now d d' tick dt dt' : Z) (ch : nat) (dl : Z) :
  let l0 := run before (start (NewWithTransport node rl sm path draw)) in
  let l := run (after ++ [Select Tick tick dt dt']) (act (Select ev now d d') l0) in
  lp_stopped l0 = false → request_of ev now = Some (ch, dl) → dl < tick →
  NoDup (lp_asked l) → e_fatal (lp_engine l) = None →
  ∃ r, (ch, r) ∈ e_sent (lp_engine l).
Proof.
  intros l0 l Hrun Hreq Hdl Hnd Hf.
  pose proof (run_accounted before _ (start_accounted node rl sm path draw)) as Hacc0. fold l0 in Hacc0.
  set (l1 := act (Select ev now d d') l0) in *.
  assert (accounted (run after l1)) as Hacc2 by (by apply run_accounted, act_accounted).
  assert (accounted l) as [Hasked _] by (by apply run_accounted, act_accounted).
  assert (due ch dl l) as [Hin Hpend].
  { apply run_due; [done|]. pose proof (run_alive _ _ Hf) as Hf1.
    apply request_due; try done; [by apply (run_alive [Select ev now d d'])|by eapply run_NoDup]. }
  rewrite Hasked in Hin. unfold channels in Hin. apply elem_of_app in Hin as [Hin|Hin];
    apply list_elem_of_fmap in Hin as ([c x] & -> & Hin); [|by exists x].
  pose proof (Hpend _ Hin) as ->. exfalso. unfold l in Hf, Hin. rewrite run_app in Hf, Hin.
  pose proof (act_tick _ _ _ _ _ _ Hacc2 Hf Hin). lia.
Qed.

(** ** Watching one channel

    What a reply on a channel promises, from what one action promises: if every
    action that replies on [ch] makes the reply true, then some prefix of the run
    made it true. *)

Definition along (W : action → Loop S → Prop) (acts : list action) (l : Loop S) : Prop :=
  ∀ acts1 a acts2, acts = acts1 ++ a :: acts2 → W a (run acts1 l).

Lemma along_snoc W acts a l : along W (acts ++ [a]) l → along W acts l ∧ W a (run acts l).
Proof.
  intros Hw. split; [|by apply (Hw acts a [])].
  intros acts1 b acts2 ->. apply (Hw acts1 b (acts2 ++ [a])). by rewrite <-app_assoc.
Qed.

Section Watch.
Context (W : action → Loop S → Prop) (ch : nat) (Pend : Loop S → Prop) (Sat : reply → Engine S → Engine S → Prop).
Context (Hstep : ∀ a l, W a l → ch ∈ lp_asked l → NoDup (lp_asked (act a l)) → Pend l →
  Pend (act a l) ∧ ∀ r, (ch, r) ∈ e_sent (lp_engine (act a l)) →
    (ch, r) ∈ e_sent (lp_engine l) ∨ Sat r (lp_engine l) (lp_engine (act a l))).

(** The action that replied, with the states before and after it. *)
Lemma run_watch acts l :
  along W acts l → ch ∈ lp_asked l → NoDup (lp_asked (run acts l)) → Pend l →
  Pend (run acts l) ∧ ∀ r, (ch, r) ∈ e_sent (lp_engine (run acts l)) →
    (ch, r) ∈ e_sent (lp_engine l) ∨
    ∃ acts1 a acts2, acts = acts1 ++ a :: acts2 ∧
      Sat r (lp_engine (run acts1 l)) (lp_engine (act a (run acts1 l))).
Proof.
  intros Hw Hin Hnd Hp. induction acts as [|a acts IH] using rev_ind.
  { split; [done|]. intros r Hr. by left. }
  rewrite run_app in Hnd |- *. cbn [run foldl] in Hnd |- *. apply along_snoc in Hw as [Hw Ha].
  assert (ch ∈ lp_asked (run acts l)) as Hin'.
  { destruct (run_asked acts l) as [new ->]. apply elem_of_app. by right. }
  destruct IH as [Hp' Hs]; [done|by apply (run_NoDup [a])|].
  destruct (Hstep a _ Ha Hin' Hnd Hp') as [Hp1 Hs1]. split; [done|].
  intros r [Hr|Hr]%Hs1; [|right; by exists acts, a, []].
  destruct (Hs r Hr) as [?|(acts1 & b & acts2 & -> & Hsat)]; [by left|right].
  exists acts1, b, (acts2 ++ [a]). split; [by rewrite <-app_assoc|done].
Qed.

End Watch.

End Channels.
