(* ===== verification/EngineMoves.v ===== *)
(** * What the loop does to the node and the log

    Everything the engine does to the consensus state goes through the methods of
    RaftNode and RaftLog.  [move] lists those calls with the arguments the engine
    gives them; every action of a run is a sequence of moves, so a property of the
    methods becomes a property of the program by one induction. *)

From S2P Require Import Prelude Configuration Os Json Types Encoding RaftLog RaftLogFacts RaftNode RaftNodeFacts StateMachine Snapshot Replicator Engine EngineLoop EngineFacts EngineRun EngineChannels.

(** ** Limits

    What is assumed of the inputs of a run: a theorem about all runs takes the
    weakest limits it needs. *)

Section Limits.
Context {S : Type}.

Record limits := mkLimits {
  lim_log : RaftLog → Prop;                              (** the log a leader may append to *)
  lim_entries : RaftNode S → RaftLog → AppendEntriesRequest → Prop;
  lim_snapshot : RaftNode S → RaftLog → MemoryStateMachine → string → InstallSnapshotRequest → Prop;
  lim_match : Z → Prop;                                  (** the match indices followers report *)
  lim_term : Z → Prop;                                   (** the terms a node may campaign from *)
}.

End Limits.
Arguments limits S : clear implicits.

(** What the wire can carry: integers that fit 64 bits. *)

Definition typed_entries (req : AppendEntriesRequest) : Prop :=
  Forall (λ e, int64 (le_Index e)) (ae_Entries req) ∧ int64 (ae_PrevLogIndex req) ∧
  int64 (ae_LeaderCommit req).

Definition wire_limits {S} : limits S :=
  mkLimits (λ _, True) (λ _ _ req, typed_entries req) (λ _ _ _ _ req, int64 (is_LastIncludedIndex req)) int64
    (λ _, True).

Section Moves.
Context {S : Type} `{StateStoreLaws S} `{Codec LogEntry} `{Codec Command}.
Implicit Types (e : Engine S) (l : Loop S) (n : RaftNode S) (rl : RaftLog).
Context (L : limits S).

Definition reply_within (r : round_reply) : Prop :=
  match r with
  | AppendReply _ (Some resp) => lim_match L (aer_MatchIndex resp)
  | AppendReply _ None => True
  | SnapshotReply _ i _ => lim_match L i
  end.

(** An action whose input is within the limits. *)
Definition within (a : action) l : Prop :=
  let e := lp_engine l in
  match a with
  | Select _ _ _ _ => lim_log L (e_raftLog e) ∧ lim_term L (rn_term (e_node e))
  | RpcAppendEntries req _ => lim_entries L (e_node e) (e_raftLog e) req
  | RpcInstallSnapshot req _ =>
      lim_snapshot L (e_node e) (e_raftLog e) (e_stateMachine e) (e_snapshotPath e) req
  | RoundEnd _ r => reply_within r
  | _ => True
  end.

Fixpoint run_within (acts : list action) l : Prop :=
  match acts with
  | [] => True
  | a :: acts => within a l ∧ run_within acts (act a l)
  end.

Lemma run_within_app acts acts' l :
  run_within (acts ++ acts') l ↔ run_within acts l ∧ run_within acts' (run acts l).
Proof. revert l. induction acts as [|a acts IH]; intros l; simpl; [naive_solver|]. rewrite IH. tauto. Qed.

Lemma run_within_along acts l : run_within acts l → along within acts l.
Proof. intros Hw acts1 a acts2 ->. apply run_within_app in Hw as [_ [Ha _]]. done. Qed.

(** ** Moves *)

(** The node, the log and the state machine; no state machine once the process
    has halted. *)
Definition view : Type := RaftNode S * RaftLog * option MemoryStateMachine.

Definition core e : view :=
  (e_node e, e_raftLog e, match e_fatal e with None => Some (e_stateMachine e) | Some _ => None end).

Inductive move : view → view → Prop :=
  | mv_follow n rl m t leader r n' :
      BecomeFollower t leader n = (r, n') → move (n, rl, m) (n', rl, m)
  | mv_campaign n rl m now r n' :
      lim_term L (rn_term n) → BecomeCandidate now n = (r, n') → move (n, rl, m) (n', rl, m)
  | mv_tally n rl m voter t won n' :
      RecordVoteAndCheckMajority voter t n = (won, n') → move (n, rl, m) (n', rl, m)
  | mv_promote n rl m t i b n' :
      BecomeLeader t i n = (b, n') → move (n, rl, m) (n', rl, m)
  | mv_commit n rl m r n' :
      AdvanceCommitIndex (LatestIndex rl) (TermAt rl) (rn_term n) n = (r, n') → move (n, rl, m) (n', rl, m)
  | mv_apply n rl m entry cmd m' :
      rn_LastApplied n < rn_CommitIndex n →
      GetEntry rl (rn_LastApplied n +! 1) = Some entry → DecodeCommand (le_Command entry) = Ok cmd →
      Apply (rn_LastApplied n +! 1) cmd m = (None, m') →
      move (n, rl, Some m) ((AdvanceLastApplied n).2, rl, Some m')
  | mv_halt n rl m : move (n, rl, m) (n, rl, None)
  | mv_progress n rl m p i :
      lim_match L i → move (n, rl, m) (UpdatePeerProgress p i n, rl, m)
  | mv_backtrack n rl m p c :
      move (n, rl, m) (BacktrackNextIndex p c n, rl, m)
  | mv_vote n rl m req now resp n' :
      HandleRequestVote req (LastLogState rl) now n = (resp, n') → move (n, rl, m) (n', rl, m)
  | mv_entries n rl m req now resp n' rl' :
      lim_entries L n rl req → HandleAppendEntries rl req now n = (resp, n', rl') → move (n, rl, m) (n', rl', m)
  | mv_snapshot n rl m req path now resp n' rl' m' :
      lim_snapshot L n rl m path req →
      HandleInstallSnapshot rl req restore_callback
        (persist_callback path (mkSnapshotMeta (is_LastIncludedIndex req) (is_LastIncludedTerm req)))
        now n m = (resp, n', rl', m') →
      move (n, rl, Some m) (n', rl', Some m')
  | mv_append n rl m cmd t r rl' :
      lim_log L rl → AppendLeader cmd t rl = (r, rl') → move (n, rl, m) (n, rl', m)
  | mv_truncate n rl m r rl' :
      TermAt rl (rn_LastApplied n) ≠ 0 →
      TruncateBeforeIndex (rn_LastApplied n) (TermAt rl (rn_LastApplied n)) rl = (r, rl') → move (n, rl, m) (n, rl', m)
  | mv_disk n rl m os :
      move (n, rl, m) (n, set_disk os rl, m).

Definition moves e e' : Prop := rtc move (core e) (core e').

#[export] Instance moves_preorder : PreOrder moves.
Proof. unfold moves. split; [intros e; reflexivity|intros e1 e2 e3 ??; by etransitivity]. Qed.

Lemma moves_same e e' : core e' = core e → moves e e'.
Proof. unfold moves. by intros ->. Qed.

(** One call, then changes the node and the log do not see. *)
Lemma moves_one e e' : move (core e) (core e') → moves e e'.
Proof. apply rtc_once. Qed.

(** ** The pieces *)

Lemma stopReplicators_moves e : moves e (stopReplicators e).
Proof. unfold stopReplicators. case_decide; by apply moves_same. Qed.

Lemma startReplicators_moves e : moves e (startReplicators e).
Proof.
  unfold startReplicators. case_match; [done|].
  etransitivity; [apply stopReplicators_moves|by apply moves_same].
Qed.

(** Sweeps touch neither. *)
Lemma fireCommittedWaiters_moves c t e : moves e (fireCommittedWaiters c t e).
Proof. unfold fireCommittedWaiters. case_match. by apply moves_same. Qed.

Lemma fireReadWaiters_moves e : moves e (fireReadWaiters e).
Proof. unfold fireReadWaiters. case_match. by apply moves_same. Qed.

Lemma fireApplyWaiters_moves e : moves e (fireApplyWaiters e).
Proof. unfold fireApplyWaiters, CommitAndApplyBoundary. case_match. by apply moves_same. Qed.

Lemma sweepExpired_moves now e :
  moves e (sweepExpiredApplyWaiters now (sweepExpiredReads now (sweepExpiredWaiters now e))).
Proof.
  unfold sweepExpiredWaiters, sweepExpiredReads, sweepExpiredApplyWaiters.
  rewrite !reply_to_spec. by apply moves_same.
Qed.

Lemma abandon_moves e : moves e (abandon e).
Proof. unfold abandon. etransitivity; [apply stopReplicators_moves|by apply moves_same]. Qed.

Lemma append_moves e cmd t r rl :
  AppendLeader cmd t (e_raftLog e) = (r, rl) → lim_log L (e_raftLog e) → moves e (with_log rl e).
Proof. intros Ha Hl. apply moves_one. by eapply mv_append. Qed.

Lemma becomeLeader_moves t i now e : lim_log L (e_raftLog e) → moves e (becomeLeader t i now e).
Proof.
  intros Hroom. unfold becomeLeader. destruct (BecomeLeader t i (e_node e)) as [b n] eqn:Hb.
  assert (moves e (with_node n e)) as Hm by (apply moves_one; by eapply mv_promote).
  destruct b; [|done]. etransitivity; [exact Hm|]. etransitivity; [|apply startReplicators_moves].
  unfold EncodeCommand.
  set (e1 := with_noop 0 _). assert (moves (with_node n e) e1) as H' by by apply moves_same.
  etransitivity; [exact H'|].
  destruct (AppendLeader _ t (e_raftLog e1)) as [[entry|er] rl] eqn:Ha; by apply append_moves in Ha.
Qed.

Lemma runElection_moves now draw e : lim_log L (e_raftLog e) → lim_term L (rn_term (e_node e)) →
  moves e (runElection now draw e).2.
Proof.
  intros Hroom Hterm. unfold runElection. destruct (BecomeCandidate now (e_node e)) as [r n] eqn:Hb.
  assert (moves e (resetElectionTimeout draw (with_node n e))) as Hm
    by (apply moves_one; by eapply mv_campaign).
  destruct r as [t|er]; [|done]. destruct (LastLogState _). case_decide; [|done].
  etransitivity; [exact Hm|]. by apply becomeLeader_moves.
Qed.

Lemma startPreVote_moves now d d' e : lim_log L (e_raftLog e) → lim_term L (rn_term (e_node e)) →
  moves e (startPreVote now d d' e).2.
Proof.
  intros Hroom Hterm. unfold startPreVote. destruct (LastLogState _). case_decide; simpl; [|by apply moves_same].
  etransitivity; [|by apply runElection_moves]. by apply moves_same.
Qed.

Lemma follow_moves t leader r n e : BecomeFollower t leader (e_node e) = (r, n) → moves e (with_node n e).
Proof. intros Hb. apply moves_one. by eapply mv_follow. Qed.

Lemma handlePreVoteResult_moves t v resp now d e : lim_log L (e_raftLog e) → lim_term L (rn_term (e_node e)) →
  moves e (handlePreVoteResult t v resp now d e).2.
Proof.
  intros Hroom Hterm. unfold handlePreVoteResult, State. case_match; [done|]. case_match; [done|].
  destruct (rn_term (e_node e) <? pvr_Term resp).
  { destruct (BecomeFollower _ 0 (e_node e)) as [r n] eqn:Hb. apply follow_moves in Hb.
    etransitivity; [exact Hb|by apply moves_same]. }
  case_match; [done|]. case_match; [|by apply moves_same].
  etransitivity; [|by apply runElection_moves]. by apply moves_same.
Qed.

Lemma handleVoteResult_moves t v resp now e : lim_log L (e_raftLog e) → moves e (handleVoteResult t v resp now e).
Proof.
  intros Hroom. unfold handleVoteResult, State. case_match; [done|].
  destruct (rn_term (e_node e) <? rvr_Term resp).
  { destruct (BecomeFollower _ 0 (e_node e)) as [r n] eqn:Hb. by apply follow_moves in Hb. }
  case_match; [done|].
  destruct (RecordVoteAndCheckMajority v t (e_node e)) as [won n] eqn:Hr.
  assert (moves e (with_node n e)) as Hm by (apply moves_one; by eapply mv_tally).
  destruct won; [|done]. etransitivity; [exact Hm|by apply becomeLeader_moves].
Qed.

Lemma handleStepDown_moves t e : moves e (handleStepDown t e).
Proof.
  unfold handleStepDown. case_match; [done|].
  destruct (BecomeFollower t 0 (e_node e)) as [r n] eqn:Hb. apply follow_moves in Hb.
  etransitivity; [exact Hb|apply abandon_moves].
Qed.

Lemma reconcileLeadership_moves e : moves e (reconcileLeadership e).
Proof.
  unfold reconcileLeadership, State. case_bool_decide.
  2:{ match goal with |- context [if ?b then _ else _] => destruct b end; [apply startReplicators_moves|done]. }
  case_decide; [by apply moves_same|].
  etransitivity; [apply stopReplicators_moves|by apply moves_same].
Qed.

Lemma checkQuorum_moves now e : moves e (checkQuorum now e).
Proof.
  unfold checkQuorum. case_decide; [done|]. case_match; [by apply moves_same|].
  destruct (BecomeFollower _ 0 (e_node e)) as [r n] eqn:Hb. apply follow_moves in Hb.
  destruct r as [u|er]; [|done]. etransitivity; [exact Hb|apply abandon_moves].
Qed.

Lemma fatalf_moves msg e : moves e (fatalf msg e).
Proof. apply moves_one. apply mv_halt. Qed.

Lemma apply_one_moves a c e a' e' :
  a = rn_LastApplied (e_node e) → c = rn_CommitIndex (e_node e) → e_fatal e = None →
  apply_one a c e = Some (a', e') →
  moves e e' ∧ (e_fatal e' = None → a' = rn_LastApplied (e_node e') ∧ c = rn_CommitIndex (e_node e')).
Proof.
  intros -> -> Hf Ho. unfold apply_one in Ho.
  destruct (Z.ltb_spec (rn_LastApplied (e_node e)) (rn_CommitIndex (e_node e))) as [Hlt|]; [|done].
  destruct (GetEntry _ _) as [entry|] eqn:Hg; [|injection Ho as <- <-; split; [apply fatalf_moves|done]].
  unfold apply_entry in Ho. destruct (DecodeCommand _) as [cmd|er] eqn:Hd;
    [|injection Ho as <- <-; split; [apply fatalf_moves|done]].
  destruct (Apply _ cmd _) as [[er|] m] eqn:Ha; injection Ho as <- <-; (split; [|done]); apply moves_one;
    unfold core; simpl; rewrite Hf; [apply mv_halt|by eapply mv_apply].
Qed.

Lemma reconcileLeadership_core e :
  e_raftLog (reconcileLeadership e) = e_raftLog e ∧ e_node (reconcileLeadership e) = e_node e.
Proof.
  assert (∀ e, e_raftLog (stopReplicators e) = e_raftLog e ∧ e_node (stopReplicators e) = e_node e) as Hstop
    by (intros e'; unfold stopReplicators; by case_decide).
  unfold reconcileLeadership, startReplicators, State. case_bool_decide.
  - case_decide; [done|]. simpl. apply Hstop.
  - repeat match goal with |- context [if ?b then _ else _] => destruct b end; try done. simpl. apply Hstop.
Qed.

Lemma reconcileLeadership_log e : e_raftLog (reconcileLeadership e) = e_raftLog e.
Proof. apply reconcileLeadership_core. Qed.

Lemma reconcileLeadership_node e : e_node (reconcileLeadership e) = e_node e.
Proof. apply reconcileLeadership_core. Qed.

(** The apply loop: [a] is the applied index the loop last saw. *)
Lemma apply_loop_moves fuel a c e :
  a = rn_LastApplied (e_node e) → c = rn_CommitIndex (e_node e) → e_fatal e = None →
  moves e (apply_loop fuel a c e).
Proof.
  revert a e. induction fuel as [|fuel IH]; intros a e Ha Hc Hf; simpl; [done|].
  destruct (apply_one a c e) as [[a' e']|] eqn:Ho; [|done].
  apply apply_one_moves in Ho as [Hm Hn]; [|done..].
  destruct (e_fatal e') eqn:Hf'; [done|]. etransitivity; [exact Hm|]. by apply IH; try apply Hn.
Qed.

Lemma applyCommitted_moves e : e_fatal e = None → moves e (applyCommitted e).
Proof. intros Hf. unfold applyCommitted, CommitAndApplyBoundary. by apply apply_loop_moves. Qed.

Lemma maybeCompact_moves e : moves e (maybeCompact e).
Proof.
  unfold maybeCompact, compact, CommitAndApplyBoundary. case_match; [|done].
  destruct (Z.eqb_spec (TermAt (e_raftLog e) (rn_LastApplied (e_node e))) 0); [done|]. unfold on_disk. destruct (Write _ _ _ _) as [r os].
  assert (moves e (with_log (set_disk os (e_raftLog e)) e)) as Hm
    by (apply moves_one; apply (mv_disk (e_node e) (e_raftLog e))).
  destruct r as [u|er]; [|done]. etransitivity; [exact Hm|].
  destruct (TruncateBeforeIndex (rn_LastApplied (e_node e)) (TermAt (e_raftLog e) (rn_LastApplied (e_node e)))
    (set_disk os (e_raftLog e))) as [r rl] eqn:Ht.
  apply moves_one. by eapply (mv_truncate (e_node e) (set_disk os (e_raftLog e))).
Qed.

Lemma tick_role_moves now d d' e : lim_log L (e_raftLog e) → lim_term L (rn_term (e_node e)) →
  moves e (tick_role now d d' e).2.
Proof.
  intros Hroom Hterm. unfold tick_role, State. case_bool_decide.
  - destruct (AdvanceCommitIndex _ _ _ _) as [r n] eqn:Ha. etransitivity; [|apply fireCommittedWaiters_moves].
    apply moves_one. by eapply mv_commit.
  - case_match; [by apply startPreVote_moves|done].
Qed.

(** Only the apply loop can halt the process. *)
Lemma stopReplicators_fatal e : e_fatal (stopReplicators e) = e_fatal e.
Proof. unfold stopReplicators. by case_decide. Qed.

Lemma startReplicators_fatal e : e_fatal (startReplicators e) = e_fatal e.
Proof. unfold startReplicators. case_match; [done|]. apply stopReplicators_fatal. Qed.

Lemma becomeLeader_fatal t i now e : e_fatal (becomeLeader t i now e) = e_fatal e.
Proof.
  unfold becomeLeader, EncodeCommand. destruct (BecomeLeader t i _) as [[|] n]; [|done].
  destruct (AppendLeader _ t _) as [[entry|er] rl]; by rewrite startReplicators_fatal.
Qed.

Lemma runElection_fatal now draw e : e_fatal (runElection now draw e).2 = e_fatal e.
Proof.
  unfold runElection. destruct (BecomeCandidate now _) as [[t|er] n]; [|done].
  destruct (LastLogState _). case_decide; simpl; [by rewrite becomeLeader_fatal|done].
Qed.

Lemma reconcileLeadership_fatal e : e_fatal (reconcileLeadership e) = e_fatal e.
Proof.
  unfold reconcileLeadership, State. case_bool_decide.
  - case_decide; simpl; [done|apply stopReplicators_fatal].
  - match goal with |- context [if ?b then _ else _] => destruct b end; [apply startReplicators_fatal|done].
Qed.

Lemma tick_role_fatal now d d' e : e_fatal (tick_role now d d' e).2 = e_fatal e.
Proof.
  unfold tick_role, State, fireCommittedWaiters. case_bool_decide.
  - destruct (AdvanceCommitIndex _ _ _ _). simpl. by destruct (reply_to _ _).
  - case_match; [|done]. unfold startPreVote. destruct (LastLogState _).
    case_decide; [by rewrite runElection_fatal|done].
Qed.

Lemma tick_rest_moves now e : e_fatal e = None → moves e (tick_rest now e).
Proof.
  intros Hf. unfold tick_rest. etransitivity; [by apply applyCommitted_moves|]. case_match; [done|].
  set (e1 := applyCommitted e).
  assert (moves e1 (fireApplyWaiters (fireReadWaiters (maybeCompact e1)))) as Hm.
  { etransitivity; [apply maybeCompact_moves|].
    etransitivity; [apply fireReadWaiters_moves|apply fireApplyWaiters_moves]. }
  etransitivity; [exact Hm|]. set (e2 := fireApplyWaiters _).
  etransitivity; [|apply sweepExpired_moves].
  case_match; [apply checkQuorum_moves|done].
Qed.

Lemma onTick_moves now d d' e : e_fatal e = None → lim_log L (e_raftLog e) →
  lim_term L (rn_term (e_node e)) → moves e (onTick now d d' e).2.
Proof.
  intros Hf Hroom Hterm. unfold onTick. pose proof (tick_role_moves now d d' (reconcileLeadership e)) as Hr.
  rewrite reconcileLeadership_log, reconcileLeadership_node in Hr. specialize (Hr Hroom Hterm).
  pose proof (tick_role_fatal now d d' (reconcileLeadership e)) as Hf'.
  rewrite reconcileLeadership_fatal, Hf in Hf'.
  destruct (tick_role _ _ _ _) as [out e2]. etransitivity; [|by apply tick_rest_moves].
  etransitivity; [apply reconcileLeadership_moves|exact Hr].
Qed.

Lemma handleProposal_moves cmd ch now e : lim_log L (e_raftLog e) → moves e (handleProposal cmd ch now e).
Proof.
  intros Hroom. unfold handleProposal, proposal_append, EncodeCommand. case_match; [by apply moves_same|].
  destruct (AppendLeader _ _ (e_raftLog e)) as [[entry|er] rl] eqn:Ha; by apply append_moves in Ha.
Qed.

Lemma handleRead_moves ch aw now e : moves e (handleRead ch aw now e).
Proof.
  unfold handleRead, State, CommitAndApplyBoundary. case_bool_decide; [by apply moves_same|].
  etransitivity; [|apply fireReadWaiters_moves]. by apply moves_same.
Qed.

Lemma select_arm_moves ev now d d' e : e_fatal e = None → lim_log L (e_raftLog e) →
  lim_term L (rn_term (e_node e)) → moves e (select_arm ev now d d' e).2.
Proof.
  intros Hf Hroom Hterm. destruct ev; simpl.
  - unfold shutdown. etransitivity; [|apply stopReplicators_moves]. by apply moves_same.
  - by apply handleProposal_moves.
  - apply handleStepDown_moves.
  - by apply handlePreVoteResult_moves.
  - by apply handleVoteResult_moves.
  - unfold handleAck. etransitivity; [|apply fireReadWaiters_moves]. by apply moves_same.
  - apply handleRead_moves.
  - unfold handleApplyWait, CommitAndApplyBoundary. case_match; by apply moves_same.
  - by apply onTick_moves.
Qed.

Lemma reply_progress_moves rd r e t n :
  reply_within r → reply_progress (rd_peer rd) r (e_node e) = (t, n) → moves e (with_node n e).
Proof.
  intros Ht Hr. destruct r as [st [resp|]|st i [resp|]]; simpl in *.
  1,3: unfold append_reply, snapshot_reply in Hr; repeat (case_match; simplify_eq/=);
    try (by apply moves_same); apply moves_one; by constructor.
  all: injection Hr as <- <-; by apply moves_same.
Qed.

(** Every action is a sequence of moves. *)
Lemma act_moves a l : within a l → moves (lp_engine l) (lp_engine (act a l)).
Proof.
  intros Ht. unfold act. destruct (e_fatal (lp_engine l)) eqn:Hf; [done|].
  destruct a as [ev now d d'|req now|req now|req now|p|rd r]; cbn [lp_engine].
  - case_match; [done|]. apply select_arm_moves; [done|apply Ht..].
  - unfold EngineHandleAppendEntries. destruct (HandleAppendEntries _ req now _) as [[resp n] rl] eqn:Hh.
    apply moves_one. by eapply mv_entries.
  - unfold EngineHandleRequestVote. destruct (HandleRequestVote req _ now _) as [resp n] eqn:Hh.
    apply moves_one. by eapply mv_vote.
  - unfold EngineHandleInstallSnapshot. destruct (HandleInstallSnapshot _ req _ _ now _ _) as [[[resp n] rl] m] eqn:Hh.
    apply moves_one. unfold core. simpl. rewrite Hf. by eapply mv_snapshot.
  - case_match; [|done]. destruct (nextRoundSeq (lp_engine l)) as [seq e'] eqn:Hs.
    injection Hs as _ <-. by apply moves_same.
  - case_decide; [|done]. destruct (reply_progress _ r _) as [t n] eqn:Hr. by eapply reply_progress_moves.
Qed.

Lemma run_moves acts l : run_within acts l → moves (lp_engine l) (lp_engine (run acts l)).
Proof.
  revert l. induction acts as [|a acts IH]; intros l; [done|]. intros [Ha Hacts].
  etransitivity; [by apply act_moves|by apply IH].
Qed.

(** A property of the moves is a property of every run. *)
Lemma run_invariant (P : view → Prop) acts l :
  (∀ c c', P c → move c c' → P c') → run_within acts l →
  P (core (lp_engine l)) → P (core (lp_engine (run acts l))).
Proof.
  intros Hstep Hin%run_moves. unfold moves in Hin.
  induction Hin as [|c1 c2 c3 Hm1 Hm2 IH]; intros Hc; [done|]. apply IH. by eapply Hstep.
Qed.

End Moves.

(** Stronger limits allow fewer moves. *)
Definition limits_le {S} (L L' : limits S) : Prop :=
  (∀ rl, lim_log L rl → lim_log L' rl) ∧ (∀ n rl req, lim_entries L n rl req → lim_entries L' n rl req) ∧
  (∀ n rl m path req, lim_snapshot L n rl m path req → lim_snapshot L' n rl m path req) ∧
  (∀ i, lim_match L i → lim_match L' i) ∧ (∀ t, lim_term L t → lim_term L' t).

Lemma move_mono {S} `{StateStore S, Codec LogEntry, Codec Command} (L L' : limits S) (c c' : view) :
  limits_le L L' → move L c c' → move L' c c'.
Proof.
  intros (? & ? & ? & ? & ?) Hm. destruct Hm;
    [eapply mv_follow|eapply mv_campaign|eapply mv_tally|eapply mv_promote|eapply mv_commit|eapply mv_apply
    |apply mv_halt|apply mv_progress|apply mv_backtrack|eapply mv_vote|eapply mv_entries|eapply mv_snapshot
    |eapply mv_append|eapply mv_truncate|apply mv_disk]; eauto.
Qed.
