(* ===== verification/EngineBounds.v ===== *)
(** * The boundaries of a node stay in order

    Whatever the loop, the RPCs and the rounds do, and whatever they are sent, the
    applied index never passes the commit index, neither goes back, both fit their
    64 bits, and neither does the durable term or vote regress. *)

From S2P Require Import Prelude Configuration Os Json Types Encoding RaftLog RaftLogFacts RaftNode RaftNodeFacts RaftNodeRoles StateMachine Snapshot Replicator Engine EngineLoop EngineFacts EngineRun EngineChannels EngineMoves.

Section LogBounds.
Context `{Codec LogEntry}.
Implicit Types (rl : RaftLog).

(** The indices of a log fit their machine words. *)
Definition log_typed rl : Prop :=
  Forall (λ e, le_Index e ≤ MaxInt64) (rl_cache rl) ∧
  rl_lastIncludedIndex rl ≤ MaxInt64 ∧ rl_nextIndex rl ≤ MaxInt64.

Lemma logical_typed rl rl' : logical rl' = logical rl → log_typed rl → log_typed rl'.
Proof. unfold logical, log_typed. intros [= -> -> _ -> _ _ _]. done. Qed.

Lemma log_typed_last rl : log_typed rl → LatestIndex rl ≤ MaxInt64.
Proof.
  unfold LatestIndex, lastIndexLocked. intros (Hc & Hl & _).
  destruct (last (rl_cache rl)) as [e|] eqn:He; [|done].
  apply (Forall_lookup_1 _ _ (pred (length (rl_cache rl))) e Hc). by rewrite <-last_lookup.
Qed.

Lemma AppendLeader_typed cmd t rl r rl' : AppendLeader cmd t rl = (r, rl') → log_typed rl → log_typed rl'.
Proof.
  unfold AppendLeader. unfold m_bind at 1, m_get. cbv beta iota.
  intros Ha (Hc & Hl & Hn). apply m_bind_inv in Ha as [([] & rl1 & Hw & Hr)|(er & Hw & ->)];
    apply writeEntryToDisk_only in Hw; [|by eapply logical_typed].
  injection Hr as _ <-. unfold logical in Hw. injection Hw as Ec En Ef El Et Ek Ep.
  split; [|split; simpl]; [|by rewrite El|apply i64_range].
  simpl. rewrite Ec. apply Forall_app. split; [done|]. by repeat constructor.
Qed.

Lemma splice_append_typed e rl r rl' :
  splice_append e rl = (r, rl') → le_Index e ≤ MaxInt64 → log_typed rl → log_typed rl'.
Proof.
  unfold splice_append. unfold m_bind at 1, m_get. cbv beta iota. intros Ha He (Hc & Hl & Hn).
  case_match; [by injection Ha as _ <-|].
  apply m_bind_inv in Ha as [([] & rl1 & Hw & Hr)|(er & Hw & ->)]; apply on_wal_only in Hw;
    [|by eapply logical_typed].
  injection Hr as _ <-. unfold logical in Hw. injection Hw as Ec En Ef El Et Ek Ep.
  split; [|split; simpl]; [|by rewrite El|apply i64_range].
  simpl. rewrite Ec. apply Forall_app. split; [done|]. by repeat constructor.
Qed.

Lemma take_typed k rl : log_typed rl → log_typed (set_cache (take k (rl_cache rl)) rl).
Proof. intros (Hc & Hl & Hn). split; [by apply Forall_take|done]. Qed.

Lemma splice_typed es k rl r rl' :
  splice es k rl = (r, rl') → Forall (λ e, le_Index e ≤ MaxInt64) es → log_typed rl → log_typed rl'.
Proof.
  intros Hs Hes. revert k rl Hs. induction Hes as [|e es He Hes IH]; intros k rl Hs Ht; [by injection Hs as _ <-|].
  simpl in Hs. unfold m_bind at 1, m_get in Hs. cbv beta iota in Hs.
  assert (∀ rl0, log_typed rl0 → (splice_append e ;;; splice es (k +! 1)) rl0 = (r, rl') → log_typed rl') as Happ.
  { intros rl0 Ht0 [([] & rl1 & Hw & Hr)|(er & Hw & ->)]%m_bind_inv;
      apply splice_append_typed in Hw; eauto. }
  destruct (getEntryLocked rl (le_Index e)) as [x|]; [|by apply Happ in Hs].
  destruct (le_Term x =? le_Term e); [by eapply IH|].
  apply m_bind_inv in Hs as [([] & rl1 & Hw & Hr)|(er & Hw & _)]; [|done].
  injection Hw as <-. apply m_bind_inv in Hr as [([] & rl2 & Hw & Hr)|(er & Hw & ->)];
    apply rewriteWALLocked_only in Hw.
  - apply Happ in Hr; [done|]. eapply logical_typed; [exact Hw|by apply take_typed].
  - eapply logical_typed; [exact Hw|by apply take_typed].
Qed.

Lemma AppendEntriesToLog_typed p t es rl m ct ci ok rl' :
  AppendEntriesToLog p t es rl = ((m, ct, ci, ok), rl') →
  Forall (λ e, int64 (le_Index e)) es → int64 p → log_typed rl →
  log_typed rl' ∧ (ok = true → m ≤ MaxInt64).
Proof.
  intros Ha Hes Hp Ht.
  assert (Forall (λ e, le_Index e ≤ MaxInt64) es) as Hes'
    by (eapply Forall_impl; [exact Hes|]; unfold int64; simpl; lia).
  destruct (prev_matches rl p t) eqn:Hm.
  2: { destruct (AppendEntriesToLog_unmatched rl p t es Hm) as (ct' & ci' & Hu).
       rewrite Hu in Ha. by injection Ha as <- _ _ <- <-. }
  rewrite AppendEntriesToLog_matched in Ha by done.
  destruct (splice_and_sync es rl) as [r rl1] eqn:Hs.
  apply splice_and_sync_only in Hs as (r1 & rl2 & Hs & Hl & _).
  assert (log_typed rl1) as Ht1 by (eapply logical_typed; [exact Hl|by eapply splice_typed]).
  destruct r as [u|er]; injection Ha as <- _ _ <- <-; (split; [done|]); [|done]. intros _.
  destruct (last es) as [e|] eqn:He; [|unfold int64 in Hp; lia].
  rewrite last_lookup in He. apply (Forall_lookup_1 _ _ _ _ Hes' He).
Qed.

Lemma TruncateBeforeIndex_typed S T rl r rl' :
  TruncateBeforeIndex S T rl = (r, rl') → S ≤ MaxInt64 → log_typed rl → log_typed rl'.
Proof.
  unfold TruncateBeforeIndex. unfold m_bind at 1, m_get. cbv beta iota. intros Ht HS (Hc & Hl & Hn).
  case_match; [by injection Ht as _ <-|].
  unfold m_bind, m_modify in Ht. apply rewriteWALLocked_only in Ht.
  eapply logical_typed; [exact Ht|]. split; [by apply Forall_filter|done].
Qed.

Lemma ResetToSnapshot_typed S T rl r rl' :
  ResetToSnapshot S T rl = (r, rl') → S ≤ MaxInt64 → log_typed rl → log_typed rl'.
Proof.
  unfold ResetToSnapshot. unfold m_bind at 1, m_get. cbv beta iota. intros Ht HS (Hc & Hl & Hn).
  destruct (S <=? _); [by injection Ht as _ <-|].
  unfold m_bind, m_modify in Ht. apply rewriteWALLocked_only in Ht.
  eapply logical_typed; [exact Ht|]. clear Ht.
  match goal with |- context [set_cache ?c rl] => set (c' := c) end.
  assert (Forall (λ e, le_Index e ≤ MaxInt64) c') as Hc'.
  { unfold c'. repeat case_match; [by apply Forall_filter|constructor..]. }
  pose proof (i64_range (S + 1)) as HS1.
  destruct (_ <? _); simpl; destruct (last c') as [e|]; (split; [done|split; [done|]]);
    simpl; [apply i64_range|apply HS1|apply i64_range|done].
Qed.

End LogBounds.

Section NodeBounds.
Context {S : Type} `{StateStoreLaws S} `{Codec LogEntry} `{Codec Command}.
Implicit Types (n : RaftNode S) (rl : RaftLog).

(** The boundaries of a node, and the words they are computed from. *)
Record node_bounds n : Prop := {
  nb_applied : 0 ≤ rn_LastApplied n ≤ rn_CommitIndex n;
  nb_commit : rn_CommitIndex n ≤ MaxInt64;
  nb_match : map_Forall (λ _ m, m ≤ MaxInt64) (rn_MatchIndex n);
  nb_voters : gm (Voters (rn_config n)) ≠ ∅;
}.

Definition forward n n' : Prop :=
  rn_CommitIndex n ≤ rn_CommitIndex n' ∧ rn_LastApplied n ≤ rn_LastApplied n'.

(** Nothing the bounds depend on has changed. *)
Definition same_bounds n n' : Prop :=
  rn_CommitIndex n' = rn_CommitIndex n ∧ rn_LastApplied n' = rn_LastApplied n ∧
  rn_MatchIndex n' = rn_MatchIndex n ∧ rn_config n' = rn_config n.

Lemma same_bounds_ok n n' : same_bounds n n' → node_bounds n → node_bounds n' ∧ forward n n'.
Proof.
  intros (Hc & Ha & Hm & Hg) [? ? ? ?]. unfold forward. rewrite Hc, Ha.
  split; [split; rewrite ?Hc, ?Ha, ?Hm, ?Hg; done|lia].
Qed.

Lemma same_volatile_bounds n n' : same_volatile n n' → same_bounds n n'.
Proof. intros ([_ Hg] & _ & _ & Hc & Ha & _ & _ & _ & _ & Hm). done. Qed.

Lemma becomeFollower_bounds t leader n r n' : becomeFollowerLocked t leader n = (r, n') → same_bounds n n'.
Proof.
  unfold becomeFollowerLocked. destruct (commitPersistentLocked _ n) as [[u|er] n1] eqn:Hc;
    apply commitPersistentLocked_inv in Hc as [Hv%same_volatile_bounds _]; by intros [= _ <-].
Qed.

Lemma accept_leader_bounds t leader n r n' : accept_leader t leader n = (r, n') → same_bounds n n'.
Proof.
  unfold accept_leader. case_match; [apply becomeFollower_bounds|by intros [= _ <-]].
Qed.

Lemma BecomeCandidate_bounds now n r n' : BecomeCandidate now n = (r, n') → same_bounds n n'.
Proof.
  unfold BecomeCandidate. destruct (commitPersistentLocked _ n) as [[u|er] n1] eqn:Hc;
    apply commitPersistentLocked_inv in Hc as [Hv%same_volatile_bounds _]; by intros [= _ <-].
Qed.

Lemma HandleRequestVote_bounds req last now n resp n' :
  HandleRequestVote req last now n = (resp, n') → same_bounds n n'.
Proof.
  unfold HandleRequestVote. destruct last as [i t]. case_match; [by intros [= _ <-]|].
  case_match; [by intros [= _ <-]|].
  destruct (commitPersistentLocked _ n) as [[u|er] n1] eqn:Hc;
    apply commitPersistentLocked_inv in Hc as [Hv%same_volatile_bounds _];
    repeat (case_match; simplify_eq/=); by intros [= _ <-].
Qed.

(** The commit rule never names an index past the words it is computed from. *)
Lemma AdvanceCommitIndex_bounds latest termAt t n r n' :
  AdvanceCommitIndex latest termAt t n = (r, n') → latest ≤ MaxInt64 →
  node_bounds n → node_bounds n' ∧ forward n n'.
Proof.
  unfold AdvanceCommitIndex. intros Ha Hl Hb. pose proof Hb as [Hap Hc Hm Hv].
  case_bool_decide; [by injection Ha as _ <-|].
  assert (QuorumIndex (rn_config n) (<[rn_nodeID n:=latest]> (rn_MatchIndex n)) ≤ MaxInt64) as Hq.
  { apply QuorumIndex_le; [done|lia|]. by apply map_Forall_insert_2. }
  destruct (_ && _) eqn:Hlt; injection Ha as _ <-; [|done]. b2p.
  split; [split; simpl; (done || lia)|split; simpl; lia].
Qed.

Lemma UpdatePeerProgress_bounds p m n :
  m ≤ MaxInt64 → node_bounds n → node_bounds (UpdatePeerProgress p m n) ∧ forward n (UpdatePeerProgress p m n).
Proof.
  intros Hm [Hap Hc Hmatch Hv]. unfold UpdatePeerProgress. case_match; [|done].
  split; [|done]. split; simpl; try done. case_match; [by apply map_Forall_insert_2|done].
Qed.

Lemma setFollowerCommit_bounds lc k n :
  lc ≤ MaxInt64 → node_bounds n →
  node_bounds (setFollowerCommitIndexLocked lc k n) ∧ forward n (setFollowerCommitIndexLocked lc k n).
Proof.
  intros Hlc [Hap Hc Hm Hv]. unfold setFollowerCommitIndexLocked.
  destruct (Z.ltb_spec k lc), (Z.ltb_spec (rn_CommitIndex n) (if k <? lc then k else lc)) as [Hx|Hx]; simpl;
    destruct (Z.ltb_spec k lc); try lia;
    repeat match goal with |- context [?a <? ?b] => destruct (Z.ltb_spec a b) end;
    (split; [split; simpl; (done || lia)|split; simpl; lia]).
Qed.

Lemma seed_bounds k n :
  k ≤ MaxInt64 → node_bounds n → node_bounds (seedFromSnapshotLocked k n) ∧ forward n (seedFromSnapshotLocked k n).
Proof.
  intros Hk [Hap Hc Hm Hv]. unfold seedFromSnapshotLocked, forward. simpl.
  destruct (Z.ltb_spec (rn_CommitIndex n) k), (Z.ltb_spec (rn_LastApplied n) k);
    (split; [split; simpl; (done || lia)|simpl; lia]).
Qed.

#[export] Instance forward_preorder : PreOrder forward.
Proof. unfold forward. split; [intros n; lia|intros n1 n2 n3 ??; lia]. Qed.

Definition bounded (c : view) : Prop := node_bounds c.1.1 ∧ log_typed c.1.2.

Lemma HandleAppendEntries_bounds rl req now n resp n' rl' :
  HandleAppendEntries rl req now n = (resp, n', rl') → typed_entries req →
  node_bounds n → log_typed rl → node_bounds n' ∧ log_typed rl' ∧ forward n n'.
Proof.
  intros Hh (Hes & Hp & Hlc) Hn Hl. apply HandleAppendEntries_cases in Hh
    as [(_ & _ & -> & ->)|(_ & r1 & n1 & Ha & Hrest)]; [done|].
  apply accept_leader_bounds, same_bounds_ok in Ha as [Hn1 Hf]; [|done].
  destruct r1 as [u|er]; [|by destruct Hrest as (_ & -> & ->)].
  destruct Hrest as (m & ct & ci & ok & Hlog & Hrest).
  apply AppendEntriesToLog_typed in Hlog as [Hl' Hm]; try done.
  assert (node_bounds (set_contact now n1)) as Hn2 by (destruct Hn1; by constructor).
  destruct ok; destruct Hrest as [_ ->]; [|done].
  destruct (setFollowerCommit_bounds (ae_LeaderCommit req) m (set_contact now n1)) as [Hn3 Hf3];
    [unfold int64 in Hlc; lia|done|]. split_and!; try done. by transitivity n1.
Qed.

Lemma HandleInstallSnapshot_bounds {X} rl req restore persist now n (x : X) resp n' rl' x' :
  HandleInstallSnapshot rl req restore persist now n x = (resp, n', rl', x') → int64 (is_LastIncludedIndex req) →
  node_bounds n → log_typed rl → node_bounds n' ∧ log_typed rl' ∧ forward n n'.
Proof.
  intros Hh Hi Hn Hl. apply HandleInstallSnapshot_cases in Hh
    as [(_ & _ & -> & -> & _)|(_ & r1 & n1 & Ha & Hrest)]; [done|].
  apply accept_leader_bounds, same_bounds_ok in Ha as [Hn1 Hf]; [|done].
  destruct r1 as [u|er]; [|by destruct Hrest as (_ & -> & -> & _)].
  assert (node_bounds (set_contact now n1)) as Hn2 by (destruct Hn1; by constructor).
  destruct Hrest as [(_ & _ & -> & -> & _)|(_ & [(_ & -> & Hlog)|(x1 & os1 & os2 & r2 & _ & _ & -> & Hz & _)])].
  - done.
  - split_and!; try done. by eapply logical_typed.
  - unfold int64 in Hi. destruct (seed_bounds (is_LastIncludedIndex req) (set_contact now n1)) as [Hn3 Hf3]; [lia|done|].
    apply ResetToSnapshot_typed in Hz; [|lia|done]. split_and!; try done. by transitivity n1.
Qed.

Lemma move_bounds c c' : bounded c → move wire_limits c c' → bounded c' ∧ forward c.1.1 c'.1.1.
Proof.
  intros [Hn Hl] Hm. unfold bounded.
  destruct Hm as [n rl m t leader r n' Hcall|n rl m now r n' Ht Hcall|n rl m voter t won n' Hcall
    |n rl m t i b n' Hcall|n rl m r n' Hcall|n rl m entry cmd m' Hlt|n rl m|n rl m p i Hi|n rl m p k
    |n rl m req now resp n' Hcall|n rl m req now resp n' rl' Ht Hcall
    |n rl m req path now resp n' rl' m' Ht Hcall|n rl m cmd t r rl' Ht Hcall|n rl m r rl' Ht Hcall|n rl m os]; simpl in *.
  - by apply becomeFollower_bounds, same_bounds_ok in Hcall as [??].
  - by apply BecomeCandidate_bounds, same_bounds_ok in Hcall as [??].
  - destruct (same_bounds_ok n n') as [??]; [|done..].
    unfold RecordVoteAndCheckMajority in Hcall. by case_match; injection Hcall as _ <-.
  - unfold BecomeLeader in Hcall. case_match; injection Hcall as _ <-; [done|].
    destruct Hn as [Ha Hc Hm' Hv]. split; [|done]. split; [|done]. split; simpl; try done.
    intros k x (? & <- & _)%lookup_fmap_Some. lia.
  - apply AdvanceCommitIndex_bounds in Hcall as [??]; [done| |done]. by apply log_typed_last.
  - destruct Hn as [Ha Hc Hm' Hv]. rewrite i64_id by (unfold int64; lia).
    split; [split; [split; simpl; (done || lia)|done]|split; simpl; lia].
  - done.
  - destruct (UpdatePeerProgress_bounds p i n) as [??]; [unfold int64 in *; lia|done..].
  - destruct (same_bounds_ok n (BacktrackNextIndex p k n)); done.
  - by apply HandleRequestVote_bounds, same_bounds_ok in Hcall as [??].
  - apply HandleAppendEntries_bounds in Hcall as (? & ? & ?); done.
  - apply HandleInstallSnapshot_bounds in Hcall as (? & ? & ?); done.
  - split; [split; [done|by eapply AppendLeader_typed]|done].
  - split; [split; [done|eapply TruncateBeforeIndex_typed; [done| |done]]|done]. destruct Hn. lia.
  - done.
Qed.

(** C22: the boundaries of a node stay in order and never go back. Through any run
    of the loop, its handlers and the inbound RPCs one at a time, in which requests
    and replies carry 64-bit integers, however malformed, the applied index stays
    between 0 and the commit index, the commit index stays in 64 bits, and neither
    is ever lowered: what was committed stays committed, and what was applied is not
    applied again. (An install inside the apply loop, which the locks allow, can
    take the applied index past the commit index: [snapshot_across_apply].) *)
Theorem boundaries_advance (l : Loop S) (acts acts' : list action) :
  let l' := run acts l in
  bounded (core (lp_engine l)) → run_within wire_limits acts l → run_within wire_limits acts' l' →
  let n := e_node (lp_engine l') in
  let n' := e_node (lp_engine (run acts' l')) in
  (0 ≤ rn_LastApplied n ≤ rn_CommitIndex n ∧ rn_CommitIndex n ≤ MaxInt64) ∧
  rn_CommitIndex n ≤ rn_CommitIndex n' ∧ rn_LastApplied n ≤ rn_LastApplied n'.
Proof.
  intros l' Hb Ht Ht' n n'.
  assert (bounded (core (lp_engine l'))) as Hb1.
  { apply (run_invariant wire_limits); [|done..]. intros c c' Hc Hm. by apply (move_bounds c c'). }
  split; [destruct Hb1 as [[? ? _ _] _]; done|].
  apply (run_invariant wire_limits (λ c, bounded c ∧ forward n c.1.1) acts' l'); [|done|split; [done|reflexivity]].
  intros c c' [Hc Hf] Hm. apply (move_bounds c c') in Hm as [Hc' Hf']; [|done].
  split; [done|by transitivity c.1.1].
Qed.

(** ** Durable state *)

(** No campaign from the last term there is. *)
Definition campaign_limits (L : limits S) : Prop := ∀ t, lim_term L t → int64 t ∧ t < MaxInt64.

Lemma move_evolves (L : limits S) c c' : campaign_limits L → move L c c' → evolves c.1.1 c'.1.1.
Proof.
  intros HL Hm.
  destruct Hm as [n rl m t leader r n' Hcall|n rl m now r n' Ht Hcall|n rl m voter t won n' Hcall
    |n rl m t i b n' Hcall|n rl m r n' Hcall|n rl m entry cmd m' Hlt|n rl m|n rl m p i Hi|n rl m p k
    |n rl m req now resp n' Hcall|n rl m req now resp n' rl' Ht Hcall
    |n rl m req path now resp n' rl' m' Ht Hcall|n rl m cmd t r rl' Ht Hcall|n rl m r rl' Ht Hcall|n rl m os]; simpl.
  - by apply becomeFollowerLocked_inv in Hcall as [? _].
  - apply HL in Ht as [??]. by apply BecomeCandidate_inv in Hcall as [? _].
  - unfold RecordVoteAndCheckMajority in Hcall. case_match; injection Hcall as _ <-; by apply evolves_volatile.
  - unfold BecomeLeader in Hcall. case_match; injection Hcall as _ <-; by apply evolves_volatile.
  - unfold AdvanceCommitIndex in Hcall. repeat case_match; injection Hcall as _ <-; by apply evolves_volatile.
  - by apply evolves_volatile.
  - reflexivity.
  - unfold UpdatePeerProgress. case_match; by apply evolves_volatile.
  - by apply evolves_volatile.
  - by eapply HandleRequestVote_evolves.
  - by apply HandleAppendEntries_ok in Hcall as [? _].
  - by apply HandleInstallSnapshot_ok in Hcall as [? _].
  - reflexivity.
  - reflexivity.
  - reflexivity.
Qed.

Lemma moves_evolve (L : limits S) e e' : campaign_limits L → moves L e e' → evolves (e_node e) (e_node e').
Proof.
  intros HL Hm. unfold moves in Hm. change (evolves (core e).1.1 (core e').1.1).
  induction Hm as [c|c1 c2 c3 Hm1 Hm2 IH]; [reflexivity|]. etransitivity; [by eapply move_evolves|exact IH].
Qed.

(** a process never forgets.  Through any run in which the node does not campaign
    from the last 64-bit term, its identity and its configuration stay, its term
    never goes back, a vote given in a term is never changed within it, and its
    memory stays behind its disk: whatever a crash at this moment would leave to be
    loaded is at or after everything the node has acted on. *)
Theorem run_remembers (L : limits S) (l : Loop S) (acts : list action) :
  let n := e_node (lp_engine l) in
  let n' := e_node (lp_engine (run acts l)) in
  campaign_limits L → run_within L acts l →
  same_identity n n' ∧ ps_le (rn_persistent n) (rn_persistent n') ∧
  (node_durable n → node_durable n').
Proof. intros n n' HL Hin%run_moves. by eapply moves_evolve. Qed.

End NodeBounds.
