(* ===== verification/EngineReplica.v ===== *)
(** * The engine implements a replicated state machine

    The abstract machine has two components, an applied index and a key-value
    state, and two steps: execute the committed command at the next index, and
    jump to a snapshot.  Every move of the engine is one such step or none, as long
    as requests respect what a correct leader sends and what EngineRaces shows to
    be necessary: a snapshot is not older than the state, can be written once it is
    restored, and does not strand the next index. *)

From S2P Require Import Prelude Configuration Os Json Types Encoding RaftLog RaftLogFacts RaftNode RaftNodeFacts StateMachine Snapshot Replicator Engine EngineLoop EngineFacts EngineRun EngineChannels EngineMoves EngineBounds.

Section Replica.
Context {S : Type} `{StateStoreLaws S} `{Codec LogEntry} `{Codec Command}.
Implicit Types (l : Loop S) (n : RaftNode S) (rl : RaftLog).

(** ** The abstract machine *)

(** [None]: halted. *)
Definition replica : Type := option (Z * MemoryStateMachine).

Definition replica_of (c : view (S := S)) : replica :=
  let '(n, _, m) := c in pair (rn_LastApplied n) <$> m.

(** The steps, in the situation [c] of the engine. *)
Inductive replica_step (c : view (S := S)) : replica → replica → Prop :=
  | execute a m entry cmd m' :
      a + 1 ≤ rn_CommitIndex c.1.1 → entry_at c.1.2 (a + 1) = Some entry →
      DecodeCommand (le_Command entry) = Ok cmd → Apply (a + 1) cmd m = (None, m') →
      replica_step c (Some (a, m)) (Some (a + 1, m'))
  | install a m index data m' :
      a ≤ index → Restore data m = (Ok tt, m') →
      replica_step c (Some (a, m)) (Some (index, m'))
  | halt r : replica_step c r None.

(** ** The limits *)

Definition sound_entries n rl (req : AppendEntriesRequest) : Prop :=
  ae_Term req < rn_term n ∨
  prev_matches rl (ae_PrevLogIndex req) (ae_PrevLogTerm req) = false ∨
  rl_lastIncludedIndex rl ≤ ae_PrevLogIndex req ∧
  contiguous (ae_PrevLogIndex req + 1) (ae_Entries req) ∧
  ae_PrevLogIndex req + 1 + Z.of_nat (length (ae_Entries req)) ≤ MaxInt64 ∧
  (AppendEntriesToLog (ae_PrevLogIndex req) (ae_PrevLogTerm req) (ae_Entries req) rl).1.2 = true.

Definition sound_snapshot n rl (m : MemoryStateMachine) (path : string) (req : InstallSnapshotRequest) : Prop :=
  let meta := mkSnapshotMeta (is_LastIncludedIndex req) (is_LastIncludedTerm req) in
  is_Term req < rn_term n ∨
  is_LastIncludedIndex req ≤ rl_lastIncludedIndex rl ∨
  rn_LastApplied n ≤ is_LastIncludedIndex req < MaxInt64 ∧
  (rl_nextIndex rl ≤ is_LastIncludedIndex req + 1 ∨ holds_at rl (is_LastIncludedIndex req) (is_LastIncludedTerm req)) ∧
  ∀ m1 os1, restore_callback (is_Data req) (m, rl_disk rl) = (Ok tt, (m1, os1)) →
    ∃ x, persist_callback path meta (m1, os1) = (Ok tt, x).

(** The limits of the theorems about the log and the machine.  The program enforces
    none of them: a batch that passes the consistency check starts at or above the
    boundary, is contiguous, as leaders send them, and meets no disk error; and a
    snapshot is stale, or covered, or it is not older than what is applied
    ([snapshot_regresses_machine]), it extends the log or is held by it
    ([ResetToSnapshot_stale_nextIndex]), and it can be written once it is restored
    ([failed_install_diverges]). *)
Definition sound_limits : limits S :=
  mkLimits (λ rl, rl_nextIndex rl < MaxInt64)
    (λ n rl req, typed_entries req ∧ sound_entries n rl req)
    (λ n rl m path req, int64 (is_LastIncludedIndex req) ∧ sound_snapshot n rl m path req) int64
    (λ _, True).

Lemma sound_wire : limits_le sound_limits wire_limits.
Proof. split_and!; simpl; tauto. Qed.

(** ** The invariant *)

Definition replica_inv (c : view (S := S)) : Prop := node_bounds c.1.1 ∧ log_wf c.1.2.

Lemma log_wf_typed rl : log_wf rl → log_typed rl.
Proof.
  intros [[Hf Hc Hlo Hhi] Hn]. unfold log_typed, cache_len in *. split; [|lia].
  apply Forall_lookup. intros i e He. rewrite (Hc _ _ He). apply lookup_lt_Some in He. lia.
Qed.

Lemma set_disk_wf os rl : log_wf rl → log_wf (set_disk os rl).
Proof. by apply logical_wf. Qed.

Lemma AppendEntries_keeps rl p t es rl' res :
  AppendEntriesToLog p t es rl = (res, rl') → log_wf rl →
  prev_matches rl p t = false ∨
  rl_lastIncludedIndex rl ≤ p ∧ contiguous (p + 1) es ∧ p + 1 + Z.of_nat (length es) ≤ MaxInt64 ∧ res.2 = true →
  log_wf rl'.
Proof.
  intros Ha Hwf [Hm|(Hlo & Hc & Hmax & Hok)].
  - destruct (AppendEntriesToLog_unmatched rl p t es Hm) as (ct & ci & Hu). rewrite Hu in Ha. by injection Ha as _ <-.
  - pose proof (AppendEntriesToLog_spec rl p t es Hwf Hlo Hc Hmax) as Hs. rewrite Ha in Hs.
    destruct res as [[[m ct] ci] ok]. simpl in Hok. subst ok. by destruct Hs as (_ & _ & _ & Hw & _).
Qed.

Lemma HandleAppendEntries_keeps rl req now n resp n' rl' :
  HandleAppendEntries rl req now n = (resp, n', rl') → log_wf rl → sound_entries n rl req → log_wf rl'.
Proof.
  intros Hh Hwf Hs. apply HandleAppendEntries_cases in Hh
    as [(_ & _ & _ & ->)|(Hge & r1 & n1 & _ & Hrest)]; [done|].
  destruct Hs as [?|Hs]; [lia|].
  destruct r1 as [u|er]; [|by destruct Hrest as (_ & _ & ->)].
  destruct Hrest as (m & ct & ci & ok & Hlog & _).
  eapply AppendEntries_keeps; [exact Hlog|done|]. rewrite Hlog in Hs. exact Hs.
Qed.

Lemma ResetToSnapshot_keeps i t rl r rl' :
  ResetToSnapshot i t rl = (r, rl') → log_wf rl → rl_lastIncludedIndex rl < i < MaxInt64 →
  rl_nextIndex rl ≤ i + 1 ∨ holds_at rl i t → log_wf rl'.
Proof.
  intros Hr Hwf Hi Hor. apply ResetToSnapshot_spec in Hr as (Hp & Hl & _ & Hholds & Hnot); [|done|done].
  assert (Decision (holds_at rl i t)) as Hdec.
  { unfold holds_at. destruct (entry_at rl i) as [e|]; [|right; by intros (e & ? & _)].
    destruct (decide (le_Term e = t)); [left; eauto|right; intros (e' & [= ->] & ?); done]. }
  destruct (decide (holds_at rl i t)) as [Hh|Hh]; [by apply Hholds|].
  destruct Hor as [Hn|]; [|done]. destruct (Hnot Hh) as (Hc & _ & Hn'). split; [done|].
  unfold cache_len. rewrite Hc, Hn', (lp_first _ Hp), Hl. simpl. lia.
Qed.

(** Where the term of an index is known, compaction to it is a no-op or in range. *)
Lemma compact_range i rl r rl' :
  TruncateBeforeIndex i (TermAt rl i) rl = (r, rl') → TermAt rl i ≠ 0 → int64 i → log_pos rl →
  rl' = rl ∨ rl_firstIndex rl ≤ i ≤ lastIndexLocked rl.
Proof.
  intros Ht Hterm Hi Hp. destruct (Z.ltb_spec i (rl_firstIndex rl)) as [Hlt|Hge]; [left|right].
  - unfold TruncateBeforeIndex in Ht. unfold m_bind at 1, m_get in Ht. cbv beta iota in Ht.
    destruct (Z.ltb_spec i (rl_firstIndex rl)); [|lia]. by injection Ht as _ <-.
  - rewrite TermAt_eq in Hterm. pose proof (lp_first _ Hp).
    destruct (Z.eqb_spec i (rl_lastIncludedIndex rl)); [lia|]. unfold getEntryTerm in Hterm.
    rewrite getEntryLocked_spec in Hterm by done.
    assert (is_Some (entry_at rl i)) as Hin%entry_at_Some by (destruct (entry_at rl i); [eauto|done]).
    rewrite lastIndexLocked_spec by done. lia.
Qed.

Lemma TruncateBeforeIndex_keeps i rl r rl' :
  TruncateBeforeIndex i (TermAt rl i) rl = (r, rl') → TermAt rl i ≠ 0 → int64 i → log_wf rl → log_wf rl'.
Proof.
  intros Ht Hterm Hi Hwf. destruct (compact_range _ _ _ _ Ht Hterm Hi (proj1 Hwf)) as [->|Hrange]; [done|].
  by apply TruncateBeforeIndex_spec in Ht as (? & _).
Qed.

(** ** The simulation *)

Definition simulated (c c' : view (S := S)) : Prop :=
  replica_of c' = replica_of c ∨ replica_step c (replica_of c) (replica_of c').

(** A method that leaves the applied index and the log alone. *)
Lemma idle_move n rl m n' :
  log_wf rl → rn_LastApplied n' = rn_LastApplied n →
  log_wf rl ∧ simulated (n, rl, m) (n', rl, m).
Proof. intros Hwf Ha. split; [done|]. left. simpl. by rewrite Ha. Qed.

Lemma becomeFollower_applied t leader n r n' :
  becomeFollowerLocked t leader n = (r, n') → rn_LastApplied n' = rn_LastApplied n.
Proof. intros Hb. by apply becomeFollower_bounds in Hb as (_ & ? & _). Qed.

Lemma HandleAppendEntries_applied rl req now n resp n' rl' :
  HandleAppendEntries rl req now n = (resp, n', rl') → rn_LastApplied n' = rn_LastApplied n.
Proof.
  intros Hh. apply HandleAppendEntries_cases in Hh as [(_ & _ & -> & _)|(_ & r1 & n1 & Ha & Hrest)]; [done|].
  apply accept_leader_bounds in Ha as (_ & Ha & _). rewrite <-Ha.
  destruct r1 as [u|er]; [|by destruct Hrest as (_ & -> & _)].
  destruct Hrest as (m & ct & ci & [|] & _ & _ & ->); [|done].
  unfold setFollowerCommitIndexLocked. by case_match.
Qed.

Lemma simulate_apply n rl m entry cmd m' :
  node_bounds n → log_wf rl →
  rn_LastApplied n < rn_CommitIndex n →
  GetEntry rl (rn_LastApplied n +! 1) = Some entry → DecodeCommand (le_Command entry) = Ok cmd →
  Apply (rn_LastApplied n +! 1) cmd m = (None, m') →
  simulated (n, rl, Some m) ((AdvanceLastApplied n).2, rl, Some m').
Proof.
  intros [Ha Hc _ _] [Hp _] Hlt Hg Hd Happ. unfold GetEntry in Hg.
  assert (int64 (rn_LastApplied n + 1)) as Hi by (unfold int64; lia).
  rewrite (i64_id (rn_LastApplied n + 1)) in Hg, Happ by done.
  rewrite getEntryLocked_spec in Hg by done.
  right. simpl. rewrite i64_id by done. eapply execute; simpl; [lia|done..].
Qed.

(** A restore that fails leaves the state machine alone. *)
Lemma restore_callback_err data m os er m' os' :
  restore_callback data (m, os) = (Err er, (m', os')) → m' = m ∧ os' = os.
Proof.
  unfold restore_callback, Restore.
  match goal with |- context [match ?d with Ok _ => _ | Err _ => _ end] => destruct d end; [done|].
  by intros [= _ <- <-].
Qed.

(** InstallSnapshot over any callbacks: nothing is applied and the caller's state
    stays, or the state is the restored one and the applied index the snapshot's. *)
Lemma HandleInstallSnapshot_keeps {X} rl req (restore : bytes → M (X * Os) unit) (persist : M (X * Os) unit)
    now n (x : X) resp n' rl' x' :
  HandleInstallSnapshot rl req restore persist now n x = (resp, n', rl', x') →
  (∀ er x1 os1, restore (is_Data req) (x, rl_disk rl) = (Err er, (x1, os1)) → x1 = x) →
  (∀ x1 os1 x2 os2, persist (x1, os1) = (Ok tt, (x2, os2)) → x2 = x1) →
  is_Term req < rn_term n ∨ is_LastIncludedIndex req ≤ rl_lastIncludedIndex rl ∨
    rn_LastApplied n ≤ is_LastIncludedIndex req < MaxInt64 ∧
    (rl_nextIndex rl ≤ is_LastIncludedIndex req + 1 ∨ holds_at rl (is_LastIncludedIndex req) (is_LastIncludedTerm req)) ∧
    (∀ x1 os1, restore (is_Data req) (x, rl_disk rl) = (Ok tt, (x1, os1)) → ∃ y, persist (x1, os1) = (Ok tt, y)) →
  log_wf rl →
  log_wf rl' ∧
  (rn_LastApplied n' = rn_LastApplied n ∧ x' = x ∨
   rn_LastApplied n ≤ is_LastIncludedIndex req ∧ rn_LastApplied n' = is_LastIncludedIndex req ∧
   ∃ os, restore (is_Data req) (x, rl_disk rl) = (Ok tt, (x', os))).
Proof.
  intros Hh Herr Hsame Hs Hwf. pose proof (proj1 Hwf) as Hp.
  pose proof (lp_first _ Hp) as Hf. pose proof (lp_low _ Hp). pose proof (lp_high _ Hp).
  unfold HandleInstallSnapshot in Hh.
  destruct (Z.ltb_spec (is_Term req) (CurrentTerm (rn_persistent n))) as [Hlt|Hge].
  { injection Hh as _ <- <- <-. auto. }
  destruct Hs as [Hs|Hs]; [unfold rn_term in Hs; lia|].
  destruct (accept_leader _ _ n) as [r1 n1] eqn:Ha. apply accept_leader_bounds in Ha as (_ & Ha & _).
  destruct r1 as [u|er]; [|injection Hh as _ <- <- <-; auto].
  unfold FirstIndex in Hh. rewrite i64_id in Hh by (unfold int64, cache_len in *; lia).
  destruct (Z.leb_spec (is_LastIncludedIndex req) (rl_firstIndex rl - 1)) as [Hcov|Hcov].
  { injection Hh as _ <- <- <-. auto. }
  destruct Hs as [Hs|(Hi & Hnext & Hpersist)]; [lia|].
  destruct (restore _ _) as [[[]|er] [x1 os1]] eqn:Hr.
  2:{ injection Hh as _ <- <- <-. rewrite (Herr _ _ _ eq_refl). split; [by apply set_disk_wf|by left]. }
  destruct (Hpersist _ _ eq_refl) as [[x2 os2] Hw]. rewrite Hw in Hh. apply Hsame in Hw as ->.
  destruct (ResetToSnapshot _ _ _) as [rr rl2] eqn:Hz.
  assert (log_wf rl2) as Hwf2.
  { eapply ResetToSnapshot_keeps; [exact Hz|by apply set_disk_wf|simpl; lia|done]. }
  assert (rn_LastApplied (seedFromSnapshotLocked (is_LastIncludedIndex req) (set_contact now n1))
    = is_LastIncludedIndex req) as Hseed.
  { simpl. rewrite Ha. destruct (Z.ltb_spec (rn_LastApplied n) (is_LastIncludedIndex req)); lia. }
  destruct rr as [v|er]; injection Hh as _ <- <- <-; (split; [done|]); right; (split; [lia|]); eauto.
Qed.

Lemma persist_callback_same path meta m os m' os' :
  persist_callback path meta (m, os) = (Ok tt, (m', os')) → m' = m.
Proof. unfold persist_callback. destruct (Write _ _ _ _). by intros [= _ <- _]. Qed.

Lemma simulate_snapshot n rl m req path now resp n' rl' m' :
  log_wf rl → sound_snapshot n rl m path req →
  HandleInstallSnapshot rl req restore_callback
    (persist_callback path (mkSnapshotMeta (is_LastIncludedIndex req) (is_LastIncludedTerm req)))
    now n m = (resp, n', rl', m') →
  log_wf rl' ∧ simulated (n, rl, Some m) (n', rl', Some m').
Proof.
  intros Hwf Hs Hh. apply HandleInstallSnapshot_keeps in Hh as [Hwf' Hcase]; [| | |exact Hs|done].
  - split; [done|]. unfold simulated, replica_of. cbn [fmap option_fmap option_map].
    destruct Hcase as [[-> ->]|(Hle & -> & os & Hr)]; [by left|]. right.
    unfold restore_callback in Hr. destruct (Restore _ m) as [r1 m1] eqn:Hrest. injection Hr as -> -> _.
    by eapply install.
  - intros er x1 os1 Hr. by apply restore_callback_err in Hr as [-> _].
  - apply persist_callback_same.
Qed.

(** Every move is a step of the abstract machine or none. *)
Lemma simulate_move c c' :
  replica_inv c → move sound_limits c c' → replica_inv c' ∧ simulated c c'.
Proof.
  intros [Hn Hwf] Hm.
  assert (bounded c) as Hb by (split; [done|by apply log_wf_typed]).
  pose proof (move_bounds c c' Hb (move_mono _ _ _ _ sound_wire Hm)) as [[Hn' _] _].
  assert (log_wf c'.1.2 ∧ simulated c c') as [??]; [|by split].
  destruct Hm as [n rl m t leader r n' Hcall|n rl m now r n' Ht Hcall|n rl m voter t won n' Hcall
    |n rl m t i b n' Hcall|n rl m r n' Hcall|n rl m entry cmd m' Hlt Hg Hd Happ|n rl m|n rl m p i Hi|n rl m p k
    |n rl m req now resp n' Hcall|n rl m req now resp n' rl' Ht Hcall
    |n rl m req path now resp n' rl' m' Ht Hcall|n rl m cmd t r rl' Ht Hcall|n rl m r rl' Ht Hcall|n rl m os]; simpl in *.
  - apply idle_move; [done|]. by eapply becomeFollower_applied.
  - apply idle_move; [done|]. by apply BecomeCandidate_bounds in Hcall as (_ & ? & _).
  - apply idle_move; [done|]. unfold RecordVoteAndCheckMajority in Hcall. by case_match; injection Hcall as _ <-.
  - apply idle_move; [done|]. unfold BecomeLeader in Hcall. by case_match; injection Hcall as _ <-.
  - apply idle_move; [done|]. unfold AdvanceCommitIndex in Hcall. by repeat case_match; injection Hcall as _ <-.
  - split; [done|]. by eapply simulate_apply.
  - split; [done|]. right. apply halt.
  - apply idle_move; [done|]. unfold UpdatePeerProgress. by case_match.
  - by apply idle_move.
  - apply idle_move; [done|]. by apply HandleRequestVote_bounds in Hcall as (_ & ? & _).
  - destruct Ht as [_ Ht]. split; [by eapply HandleAppendEntries_keeps|].
    left. simpl. by erewrite HandleAppendEntries_applied.
  - destruct Ht as [_ Ht]. by eapply simulate_snapshot.
  - split; [|by left]. pose proof (AppendLeader_spec rl cmd t Hwf Ht) as Ha. rewrite Hcall in Ha.
    destruct r; [by destruct Ha as (_ & _ & _ & _ & _ & ?)|by eapply logical_wf].
  - split; [|by left]. destruct Hn as [Hap Hc _ _].
    eapply TruncateBeforeIndex_keeps; [exact Hcall|done|unfold int64; lia|done].
  - split; [by apply set_disk_wf|by left].
Qed.

Lemma simulate_moves c c' :
  rtc (move sound_limits) c c' → replica_inv c →
  rtc (λ c c', move sound_limits c c' ∧ simulated c c') c c' ∧ replica_inv c'.
Proof.
  induction 1 as [c|c1 c2 c3 Hm1 Hm2 IH]; intros Hinv; [done|].
  destruct (simulate_move _ _ Hinv Hm1) as [Hinv2 Hsim]. destruct (IH Hinv2) as [Hr ?].
  split; [|done]. by eapply rtc_l.
Qed.

(** C14: the engine refines the replicated state machine. Any run within
    [sound_limits] is a sequence of calls of the node's and the log's methods, each
    of which is one step of the abstract machine or none: the applied index and the
    key-value state change together, by executing the command stored at the next
    index once that index is committed, or by jumping forward to a snapshot; and the
    log stays well formed throughout. [sound_limits]: the log has room; a batch that
    passes the consistency check starts at or above the boundary, is contiguous and
    meets no disk error; a snapshot is not older than what is applied
    ([snapshot_regresses_machine]), extends the log or is held by it
    ([ResetToSnapshot_stale_nextIndex]), and can be written once restored
    ([failed_install_diverges]). Handlers, RPCs and rounds run one at a time
    ([snapshot_across_apply] is an install inside the apply loop). *)
Theorem engine_refines_replica (l : Loop S) (acts : list action) :
  let e := lp_engine l in
  let e' := lp_engine (run acts l) in
  node_bounds (e_node e) → log_wf (e_raftLog e) → run_within sound_limits acts l →
  rtc (λ c c', move sound_limits c c' ∧ simulated c c') (core e) (core e') ∧
  log_wf (e_raftLog e') ∧ node_bounds (e_node e').
Proof.
  intros e e' Hn Hwf Hin%run_moves.
  destruct (simulate_moves _ _ Hin) as [Hr [Hn' Hwf']]; [by split|done].
Qed.

End Replica.
