(* ===== verification/EngineReads.v ===== *)
(** * Linearizable reads, end to end

    From the admission of a read to its release, over a whole run of the loop: what
    the replies that release it were replies to.  The round numbers tie an
    acknowledgement to a round begun after the read came in, and the life cycle of
    the replicators ties that round to the term the read was admitted in. *)

From S2P Require Import Prelude Configuration Os Json Types Encoding RaftLog RaftLogFacts RaftNode RaftNodeFacts RaftNodeRoles StateMachine Snapshot Replicator Engine EngineLoop EngineFacts EngineRun EngineFrame EngineChannels EngineMoves EngineBounds.

Section Reads.
Context {S : Type} `{StateStoreLaws S} `{Codec LogEntry} `{Codec Command}.
Implicit Types (e : Engine S) (l : Loop S) (n : RaftNode S) (w : readWaiter).

(** ** Leadership and its evidence across the handlers *)

(** The running replicators belong to the term this node leads. *)
Definition own_replicators e : Prop :=
  rn_Role (e_node e) = Leader → e_replicators e = ∅ ∨ e_replicatorsTerm e = rn_term (e_node e).

(** From [e] to [e'] no round was claimed, evidence was kept or reset for the
    members, and only members got replicators. *)
Definition same_evidence e e' : Prop :=
  same_identity (e_node e) (e_node e') ∧ e_roundSeq e' = e_roundSeq e ∧
  (∀ p a, e_lastAck e' !! p = Some a →
     e_lastAck e !! p = Some a ∨ p ∈ dom (currentPeers e) ∧ pa_startSeq a = 0) ∧
  (∀ p, p ∈ e_replicators e' → p ∈ e_replicators e ∨ p ∈ dom (currentPeers e)).

Definition leads e e' : Prop := same_evidence e e' ∧ (own_replicators e → own_replicators e').

Lemma same_identity_peers e e' : same_identity (e_node e) (e_node e') → currentPeers e' = currentPeers e.
Proof. intros [Hi Hc]. unfold currentPeers, NodePeers. by rewrite Hi, Hc. Qed.

#[export] Instance same_evidence_preorder : PreOrder same_evidence.
Proof.
  split.
  - intros e. split_and!; eauto. by split.
  - intros e1 e2 e3 (Hid1 & Hs1 & Ha1 & Hr1) (Hid2 & Hs2 & Ha2 & Hr2).
    pose proof (same_identity_peers _ _ Hid1) as Hp. rewrite Hp in Ha2, Hr2.
    split_and!; [destruct Hid1, Hid2; split; congruence|congruence|..].
    + intros p a Hx. destruct (Ha2 p a Hx) as [?|?]; eauto.
    + intros p Hx. destruct (Hr2 p Hx) as [?|?]; eauto.
Qed.

#[export] Instance leads_preorder : PreOrder leads.
Proof.
  split; [intros e; split; [reflexivity|done]|].
  intros e1 e2 e3 [He1 Ho1] [He2 Ho2]. split; [by transitivity e2|auto].
Qed.

Lemma leads_same e e' :
  e_node e' = e_node e → e_roundSeq e' = e_roundSeq e → e_lastAck e' = e_lastAck e →
  e_replicators e' = e_replicators e → e_replicatorsTerm e' = e_replicatorsTerm e → leads e e'.
Proof.
  intros Hn Hs Ha Hr Ht. unfold leads, same_evidence, own_replicators, same_identity.
  rewrite Hn, Hs, Ha, Hr, Ht. split_and!; auto.
Qed.

Lemma leads_node n e : same_identity (e_node e) n → keeps_leader (e_node e) n → leads e (with_node n e).
Proof.
  intros Hid Hk. split; [split_and!; auto|]. unfold own_replicators. simpl.
  intros Ho Hl. destruct (Hk Hl) as [Hl' ->]. by apply Ho.
Qed.

Lemma stopReplicators_leads e : leads e (stopReplicators e).
Proof.
  unfold stopReplicators. case_decide; [done|]. split; [split_and!; auto; [by split|set_solver]|by left].
Qed.

(** Starting the replicators makes them the current term's, whatever they were. *)
Lemma startReplicators_evidence e :
  same_evidence e (startReplicators e) ∧ own_replicators (startReplicators e).
Proof.
  unfold startReplicators. destruct (_ && _) eqn:Hb.
  - split; [done|]. intros _. right. b2p. done.
  - destruct (stopReplicators_leads e) as [(Hid & Hs & Ha & Hr) _].
    assert (e_node (stopReplicators e) = e_node e) as Hn by (unfold stopReplicators; by case_decide).
    split; [|intros _; right; simpl; by rewrite Hn].
    split_and!; simpl; auto.
Qed.

Lemma startReplicators_leads e : leads e (startReplicators e).
Proof. destruct (startReplicators_evidence e). by split. Qed.

Lemma commitPersistent_identity next n r n' :
  commitPersistentLocked next n = (r, n') → same_identity n n'.
Proof. by intros [(? & _) _]%commitPersistentLocked_inv. Qed.

Lemma follow_leads t leader r n e :
  BecomeFollower t leader (e_node e) = (r, n) → leads e (with_node n e).
Proof.
  intros Hb. apply leads_node.
  - by apply becomeFollowerLocked_inv in Hb as [(? & _) _].
  - by eapply quiet_keeps, becomeFollower_quiet.
Qed.

Lemma becomeLeader_leads t i now e : leads e (becomeLeader t i now e).
Proof.
  unfold becomeLeader, EncodeCommand. destruct (BecomeLeader t i (e_node e)) as [b n] eqn:Hb.
  assert (same_identity (e_node e) n ∧ (b = false → n = e_node e)) as [Hid Hf].
  { unfold BecomeLeader in Hb. case_match; injection Hb as <- <-; done. }
  destruct b; [|rewrite Hf by done; by apply leads_same].
  match goal with |- leads e (startReplicators ?x) => set (e1 := x) end.
  assert (same_evidence e e1) as Hev.
  { assert (same_evidence e (with_noop 0 (resetLeadershipEvidence now (with_node n e)))) as Hev0.
    { split_and!; simpl; auto. intros p a Hx. right. rewrite lookup_fmap in Hx.
      rewrite (same_identity_peers e (with_node n e)) in Hx by done.
      destruct (currentPeers e !! p) eqn:Hp; [|done]. injection Hx as <-. split; [|done].
      apply elem_of_dom. eauto. }
    etransitivity; [exact Hev0|]. unfold e1.
    destruct (AppendLeader _ t _) as [[entry|er] rl]; by apply leads_same. }
  destruct (startReplicators_evidence e1) as [Hev1 Ho]. split; [by transitivity e1|done].
Qed.

Lemma runElection_leads now draw e : leads e (runElection now draw e).2.
Proof.
  unfold runElection. destruct (BecomeCandidate now (e_node e)) as [r n] eqn:Hb.
  assert (same_identity (e_node e) n) as Hid.
  { unfold BecomeCandidate in Hb. destruct (commitPersistentLocked _ _) as [[u|er] n1] eqn:Hc;
      apply commitPersistent_identity in Hc as [Hi Hg]; by injection Hb as _ <-. }
  assert (leads e (resetElectionTimeout draw (with_node n e))) as Hl.
  { etransitivity; [apply leads_node; [exact Hid|by eapply BecomeCandidate_keeps]|by apply leads_same]. }
  destruct r as [t|er]; [|done]. destruct (LastLogState _). case_decide; [|done].
  etransitivity; [exact Hl|apply becomeLeader_leads].
Qed.

Lemma startPreVote_leads now d d' e : leads e (startPreVote now d d' e).2.
Proof.
  unfold startPreVote. destruct (LastLogState _). case_decide; simpl; [|by apply leads_same].
  etransitivity; [|apply runElection_leads]. by apply leads_same.
Qed.

Lemma handlePreVoteResult_leads t v resp now d e : leads e (handlePreVoteResult t v resp now d e).2.
Proof.
  unfold handlePreVoteResult, State. case_match; [done|]. case_match; [done|].
  destruct (rn_term (e_node e) <? pvr_Term resp).
  { destruct (BecomeFollower _ 0 (e_node e)) as [r n] eqn:Hb. apply follow_leads in Hb.
    etransitivity; [exact Hb|by apply leads_same]. }
  case_match; [done|]. case_match; [|by apply leads_same].
  etransitivity; [|apply runElection_leads]. by apply leads_same.
Qed.

Lemma handleVoteResult_leads t v resp now e : leads e (handleVoteResult t v resp now e).
Proof.
  unfold handleVoteResult, State. case_match; [done|].
  destruct (rn_term (e_node e) <? rvr_Term resp).
  { destruct (BecomeFollower _ 0 (e_node e)) as [r n] eqn:Hb. by apply follow_leads in Hb. }
  case_match; [done|].
  destruct (RecordVoteAndCheckMajority v t (e_node e)) as [won n] eqn:Hr.
  assert (leads e (with_node n e)) as Hl.
  { apply leads_node; [|by eapply RecordVote_keeps].
    unfold RecordVoteAndCheckMajority in Hr. by case_match; injection Hr as _ <-. }
  destruct won; [|done]. etransitivity; [exact Hl|apply becomeLeader_leads].
Qed.

Lemma abandon_leads e : leads e (abandon e).
Proof. unfold abandon. etransitivity; [apply stopReplicators_leads|by apply leads_same]. Qed.

Lemma handleStepDown_leads t e : leads e (handleStepDown t e).
Proof.
  unfold handleStepDown. case_match; [done|].
  destruct (BecomeFollower t 0 (e_node e)) as [r n] eqn:Hb. apply follow_leads in Hb.
  etransitivity; [exact Hb|apply abandon_leads].
Qed.

Lemma reconcileLeadership_leads e : leads e (reconcileLeadership e).
Proof.
  unfold reconcileLeadership, State. case_bool_decide.
  - case_decide; [by apply leads_same|].
    etransitivity; [apply stopReplicators_leads|by apply leads_same].
  - match goal with |- context [if ?b then _ else _] => destruct b end; [apply startReplicators_leads|done].
Qed.

Lemma checkQuorum_leads now e : leads e (checkQuorum now e).
Proof.
  unfold checkQuorum. case_decide; [done|]. case_match; [by apply leads_same|].
  destruct (BecomeFollower _ 0 (e_node e)) as [r n] eqn:Hb. apply follow_leads in Hb.
  destruct r as [u|er]; [|done]. etransitivity; [exact Hb|apply abandon_leads].
Qed.

Lemma apply_one_leads a c e a' e' : apply_one a c e = Some (a', e') → leads e e'.
Proof.
  unfold apply_one, apply_entry, apply_advance. intros Ha.
  repeat (case_match; simplify_eq/=); try by apply leads_same.
  match goal with |- leads e (with_node ?n (with_machine ?m e)) =>
    transitivity (with_machine m e); [by apply leads_same|by apply (leads_node n (with_machine m e))] end.
Qed.

Lemma applyCommitted_leads e : leads e (applyCommitted e).
Proof.
  unfold applyCommitted, CommitAndApplyBoundary.
  generalize (rn_CommitIndex (e_node e)), (Z.to_nat (rn_CommitIndex (e_node e) - rn_LastApplied (e_node e))).
  intros c fuel. generalize (rn_LastApplied (e_node e)). revert e.
  induction fuel as [|fuel IH]; intros e a; simpl; [done|].
  destruct (apply_one a c e) as [[a' e']|] eqn:Ha; [|done]. apply apply_one_leads in Ha.
  destruct (e_fatal e'); [done|]. etransitivity; [exact Ha|apply IH].
Qed.

Lemma maybeCompact_leads e : leads e (maybeCompact e).
Proof.
  unfold maybeCompact, compact, CommitAndApplyBoundary. case_match; [|done]. destruct (_ =? 0); [done|].
  destruct (on_disk _ _) as [[u|er] rl]; by apply leads_same.
Qed.

Lemma fireCommittedWaiters_leads c t e : leads e (fireCommittedWaiters c t e).
Proof. unfold fireCommittedWaiters. case_match. by apply leads_same. Qed.

Lemma fireReadWaiters_leads e : leads e (fireReadWaiters e).
Proof. unfold fireReadWaiters. case_match. by apply leads_same. Qed.

Lemma fireApplyWaiters_leads e : leads e (fireApplyWaiters e).
Proof. unfold fireApplyWaiters, CommitAndApplyBoundary. case_match. by apply leads_same. Qed.

Lemma sweepExpired_leads now e :
  leads e (sweepExpiredApplyWaiters now (sweepExpiredReads now (sweepExpiredWaiters now e))).
Proof.
  unfold sweepExpiredWaiters, sweepExpiredReads, sweepExpiredApplyWaiters.
  rewrite !reply_to_spec. by apply leads_same.
Qed.

Lemma tick_role_leads now d d' e : leads e (tick_role now d d' e).2.
Proof.
  unfold tick_role, State. case_bool_decide.
  - destruct (AdvanceCommitIndex _ _ _ _) as [r n] eqn:Ha.
    etransitivity; [apply (leads_node n)|apply fireCommittedWaiters_leads]; [|by eapply AdvanceCommitIndex_keeps].
    unfold AdvanceCommitIndex in Ha. by repeat case_match; injection Ha as _ <-.
  - case_match; [apply startPreVote_leads|done].
Qed.

Lemma tick_rest_leads now e : leads e (tick_rest now e).
Proof.
  unfold tick_rest. etransitivity; [apply applyCommitted_leads|]. case_match; [done|].
  set (e1 := applyCommitted e).
  transitivity (fireApplyWaiters (fireReadWaiters (maybeCompact e1))).
  { etransitivity; [apply maybeCompact_leads|]. etransitivity; [apply fireReadWaiters_leads|apply fireApplyWaiters_leads]. }
  set (e2 := fireApplyWaiters _). etransitivity; [|apply sweepExpired_leads].
  case_match; [apply checkQuorum_leads|done].
Qed.

Lemma onTick_leads now d d' e : leads e (onTick now d d' e).2.
Proof.
  unfold onTick. pose proof (tick_role_leads now d d' (reconcileLeadership e)) as Hr.
  destruct (tick_role _ _ _ _) as [out e2]. etransitivity; [|apply tick_rest_leads].
  etransitivity; [apply reconcileLeadership_leads|exact Hr].
Qed.

(** What a message other than an acknowledgement does to the evidence. *)
Lemma select_arm_leads ev now d d' e :
  (∀ p seq, ev ≠ AckReport p seq) → leads e (select_arm ev now d d' e).2.
Proof.
  intros Hev. destruct ev as [|cmd ch|t|t v resp|t v resp|p seq|ch aw|w|]; simpl.
  - unfold shutdown. etransitivity; [|apply stopReplicators_leads]. by apply leads_same.
  - unfold handleProposal, proposal_append, EncodeCommand. case_match; [by apply leads_same|].
    destruct (AppendLeader _ _ (e_raftLog e)) as [[entry|er] rl]; by apply leads_same.
  - apply handleStepDown_leads.
  - apply handlePreVoteResult_leads.
  - apply handleVoteResult_leads.
  - by destruct (Hev p seq).
  - unfold handleRead, State, CommitAndApplyBoundary. case_bool_decide; [by apply leads_same|].
    etransitivity; [|apply fireReadWaiters_leads]. by apply leads_same.
  - unfold handleApplyWait, CommitAndApplyBoundary. case_match; by apply leads_same.
  - apply onTick_leads.
Qed.

(** ** Releases *)

(** The conditions of [readSatisfied], as they stand in [e]. *)
Definition satisfied w e : Prop :=
  rn_term (e_node e) = rw_term w ∧ e_noopIndex e ≤ rn_CommitIndex (e_node e) ∧
  (rw_awaitApply w = true → rw_readIndex w ≤ rn_LastApplied (e_node e)) ∧
  ClusterSize (e_node e) `quot` 2 < confirmations (rw_barrier w) e.

Lemma read_reply_satisfied e w c i :
  read_reply e w = Some (c, RRead i None) → c = rw_resultCh w ∧ i = rw_readIndex w ∧ satisfied w e.
Proof.
  unfold read_reply, State, CommitAndApplyBoundary, readSatisfied, satisfied.
  case_bool_decide; simpl; [done|].
  destruct (Z.eqb_spec (rn_term (e_node e)) (rw_term w)); simpl; [|done].
  destruct (Z.ltb_spec (rn_CommitIndex (e_node e)) (e_noopIndex e)); [done|].
  destruct (rw_awaitApply w && (rn_LastApplied (e_node e) <? rw_readIndex w)) eqn:Haw; [done|].
  destruct (ClusterSize (e_node e) `quot` 2 <? confirmations (rw_barrier w) e) eqn:Hq; [|done].
  b2p. intros [= <- <-]. split_and!; try done. intros Hw. rewrite Hw in Haw. simpl in Haw. b2p. lia.
Qed.

(** From [e] to [e'] only reads that satisfy the conditions in [e'] were released. *)
Definition releases (new : list readWaiter) e e' : Prop :=
  e_reads e' ⊆ new ++ e_reads e ∧
  ∀ c i, (c, RRead i None) ∈ e_sent e' → (c, RRead i None) ∈ e_sent e ∨
    ∃ w, w ∈ new ++ e_reads e ∧ c = rw_resultCh w ∧ i = rw_readIndex w ∧ satisfied w e'.

(** None at all. *)
Definition holds_reads e e' : Prop :=
  e_reads e' ⊆ e_reads e ∧ ∀ c i, (c, RRead i None) ∈ e_sent e' → (c, RRead i None) ∈ e_sent e.

Lemma holds_releases e e' : holds_reads e e' → releases [] e e'.
Proof. intros [Hr Hs]. split; [done|]. intros c i Hin. left. by apply Hs. Qed.

Lemma fireCommittedWaiters_holds c t e : holds_reads e (fireCommittedWaiters c t e).
Proof.
  unfold fireCommittedWaiters. rewrite reply_to_spec. split; [done|]. simpl.
  intros ch i [?|(w & _ & Hw)%list_elem_of_omap]%elem_of_app; [done|].
  unfold committed_reply in Hw. by repeat case_match.
Qed.

Lemma fireApplyWaiters_holds e : holds_reads e (fireApplyWaiters e).
Proof.
  unfold fireApplyWaiters, CommitAndApplyBoundary. rewrite reply_to_spec. split; [done|]. simpl.
  intros ch i [?|(w & _ & Hw)%list_elem_of_omap]%elem_of_app; [done|].
  unfold applied_reply in Hw. by case_match.
Qed.

#[export] Instance holds_reads_closed : Closed holds_reads.
Proof.
  split.
  - split; [intros e; by split|]. intros e1 e2 e3 [Hr1 Hs1] [Hr2 Hs2]. split; [by transitivity (e_reads e2)|eauto].
  - intros e e' (_ & Hr & _ & Hs). split; rewrite ?Hr, ?Hs; done.
  - intros now e. unfold sweepExpiredWaiters, sweepExpiredReads, sweepExpiredApplyWaiters.
    rewrite !reply_to_spec. split; simpl.
    + intros w [_ Hw]%list_elem_of_filter. done.
    + intros ch i. rewrite !elem_of_app, !list_elem_of_omap.
      intros [[[?|(w & _ & Hw)]|(w & _ & Hw)]|(w & _ & Hw)]; [done|..]; exfalso; revert Hw;
        unfold expired_waiter, expired_read, expired_apply; by case_match.
  - intros er e. split; [done|]. simpl. intros ch i [?|Hin]%elem_of_app; [done|].
    by apply list_elem_of_fmap in Hin as (w & [=] & _).
  - intros er e. split; [simpl; set_solver|]. simpl. intros ch i [?|Hin]%elem_of_app; [done|].
    by apply list_elem_of_fmap in Hin as (w & [=] & _).
  - intros er e. split; [done|]. simpl. intros ch i [?|Hin]%elem_of_app; [done|].
    by apply list_elem_of_fmap in Hin as (w & [=] & _).
Qed.

Lemma fireReadWaiters_releases e :
  e_reads (fireReadWaiters e) ⊆ e_reads e ∧
  ∀ c i, (c, RRead i None) ∈ e_sent (fireReadWaiters e) → (c, RRead i None) ∈ e_sent e ∨
    ∃ w, w ∈ e_reads e ∧ c = rw_resultCh w ∧ i = rw_readIndex w ∧ satisfied w e.
Proof.
  unfold fireReadWaiters. rewrite reply_to_spec. simpl. split; [intros w [_ ?]%list_elem_of_filter; done|].
  intros c i [?|(w & Hw & Hr)%list_elem_of_omap]%elem_of_app; [by left|]. right. exists w.
  apply read_reply_satisfied in Hr as (-> & -> & ?). done.
Qed.

(** The evidence a release rests on. *)
Definition evidence e : Z * Z * Z * Z * Configuration * Z * gmap Z peerAck :=
  (rn_term (e_node e), rn_CommitIndex (e_node e), rn_LastApplied (e_node e), rn_nodeID (e_node e),
   rn_config (e_node e), e_noopIndex e, e_lastAck e).

Lemma satisfied_evidence w e e' : evidence e' = evidence e → satisfied w e → satisfied w e'.
Proof.
  unfold evidence, satisfied, confirmations, ClusterSize. intros [= -> -> -> _ -> -> ->]. done.
Qed.

(** A release, with the same evidence around it. *)
Lemma releases_between new e e1 e2 e' :
  e_reads e1 ⊆ new ++ e_reads e → (∀ c i, (c, RRead i None) ∈ e_sent e1 → (c, RRead i None) ∈ e_sent e) →
  e2 = fireReadWaiters e1 → holds_reads e2 e' → evidence e' = evidence e1 → releases new e e'.
Proof.
  intros Hr1 Hs1 -> [Hr' Hs'] Hev. destruct (fireReadWaiters_releases e1) as [Hr Hs]. split.
  - intros w Hw%Hr'%Hr%Hr1. done.
  - intros c i Hin%Hs'. apply Hs in Hin as [Hin|(w & Hw & -> & -> & Hsat)]; [left; by apply Hs1|].
    right. exists w. split_and!; [by apply Hr1|done..|]. by eapply satisfied_evidence.
Qed.

Lemma fireReadWaiters_evidence e : evidence (fireReadWaiters e) = evidence e.
Proof. unfold fireReadWaiters. by destruct (reply_to _ _). Qed.

Lemma checkQuorum_evidence now e : evidence (checkQuorum now e) = evidence e.
Proof.
  unfold checkQuorum. case_decide; [done|]. case_match; [done|].
  destruct (BecomeFollower _ 0 (e_node e)) as [r n] eqn:Hb.
  apply becomeFollowerLocked_inv in Hb as [((Hi & Hg) & _) Hr].
  assert (rn_term n = rn_term (e_node e) ∧ rn_CommitIndex n = rn_CommitIndex (e_node e) ∧
          rn_LastApplied n = rn_LastApplied (e_node e)) as (Ht & Hc & Ha).
  { destruct r as [u|er].
    - destruct Hr as (_ & _ & -> & -> & ->). unfold rn_CurrentTerm. split_and!; [apply Z.max_id|done..].
    - destruct Hr as [(_ & _ & _ & -> & -> & _) Hp]. unfold rn_term. by rewrite Hp. }
  assert (evidence (with_node n e) = evidence e) as Hn by (unfold evidence; simpl; congruence).
  destruct r as [u|er]; [|done]. rewrite <-Hn. unfold abandon, stopReplicators. by case_decide.
Qed.

Lemma tick_end_evidence now e : evidence (tick_end now e) = evidence e.
Proof.
  unfold tick_end, sweepExpiredWaiters, sweepExpiredReads, sweepExpiredApplyWaiters. rewrite !reply_to_spec.
  destruct (IsLeader (e_node e)); [|done]. rewrite <-(checkQuorum_evidence now e). done.
Qed.

Lemma fireApplyWaiters_evidence e : evidence (fireApplyWaiters e) = evidence e.
Proof. unfold fireApplyWaiters, CommitAndApplyBoundary. by destruct (reply_to _ _). Qed.

Lemma onTick_releases now d d' e : releases [] e (onTick now d d' e).2.
Proof.
  unfold onTick.
  pose proof (tick_role_closed holds_reads now d d' (reconcileLeadership e) fireCommittedWaiters_holds) as Hr.
  destruct (tick_role _ _ _ _) as [out e1]. simpl in *.
  assert (holds_reads e e1) as He1 by (etransitivity; [apply (reconcileLeadership_closed holds_reads)|exact Hr]).
  destruct (tick_rest_closed holds_reads now e1) as (Ha & Hc & ->).
  destruct (e_fatal (applyCommitted e1)).
  { apply holds_releases. by transitivity e1. }
  set (em := maybeCompact (applyCommitted e1)) in *.
  assert (holds_reads e em) as [Hrm Hsm].
  { etransitivity; [exact He1|]. by etransitivity; [exact Ha|]. }
  eapply (releases_between [] e em); [done|done|done| |].
  - etransitivity; [apply fireApplyWaiters_holds|apply (tick_end_closed holds_reads)].
  - by rewrite tick_end_evidence, fireApplyWaiters_evidence, fireReadWaiters_evidence.
Qed.

(** The read a message brings in. *)
Definition admitted (ev : event) (now : Z) e : list readWaiter :=
  match ev with
  | ReadRequest ch aw =>
      if IsLeader (e_node e) then
        [mkReadWaiter (Z.max (rn_CommitIndex (e_node e)) (e_noopIndex e)) (rn_term (e_node e)) (e_roundSeq e) aw
           (now + readTimeout) ch]
      else []
  | _ => []
  end.

Lemma handleRead_releases ch aw now e :
  releases (admitted (ReadRequest ch aw) now e) e (handleRead ch aw now e).
Proof.
  unfold handleRead, State, CommitAndApplyBoundary, admitted, IsLeader.
  destruct (decide (rn_Role (e_node e) = Leader)) as [Hr|Hr].
  2:{ rewrite bool_decide_eq_false_2, bool_decide_eq_true_2 by done. split; [simpl; set_solver|]. simpl. intros c i [?|Hin]%elem_of_app; [by left|].
      by apply list_elem_of_singleton in Hin. }
  - assert ((if rn_CommitIndex (e_node e) <? e_noopIndex e then e_noopIndex e else rn_CommitIndex (e_node e))
      = Z.max (rn_CommitIndex (e_node e)) (e_noopIndex e)) as ->.
    { destruct (Z.ltb_spec (rn_CommitIndex (e_node e)) (e_noopIndex e)); lia. }
    rewrite bool_decide_eq_true_2, bool_decide_eq_false_2 by naive_solver.
    eapply (releases_between _ e); [| |done|reflexivity|apply fireReadWaiters_evidence]; simpl.
    + set_solver.
    + intros c i. by rewrite app_nil_r.
Qed.

Lemma select_arm_releases ev now d d' e : releases (admitted ev now e) e (select_arm ev now d d' e).2.
Proof.
  destruct ev as [|cmd ch|t|t v resp|t v resp|p seq|ch aw|w|]; simpl.
  - apply holds_releases, (shutdown_closed holds_reads).
  - apply holds_releases. unfold handleProposal, proposal_append, EncodeCommand. case_match.
    + split; [done|]. simpl. intros c i [?|Hin]%elem_of_app; [done|]. by apply list_elem_of_singleton in Hin.
    + destruct (AppendLeader _ _ (e_raftLog e)) as [[entry|er] rl]; (split; [done|]); simpl; intros c i.
      * by rewrite app_nil_r.
      * intros [?|Hin]%elem_of_app; [done|]. by apply list_elem_of_singleton in Hin.
  - apply holds_releases, (handleStepDown_closed holds_reads).
  - apply holds_releases, (handlePreVoteResult_closed holds_reads).
  - apply holds_releases, (handleVoteResult_closed holds_reads).
  - unfold handleAck. eapply (releases_between [] e); [| |done|reflexivity|apply fireReadWaiters_evidence]; done.
  - apply handleRead_releases.
  - apply holds_releases. unfold handleApplyWait, CommitAndApplyBoundary. case_match; (split; [done|]); simpl; intros c i.
    + intros [?|Hin]%elem_of_app; [done|]. by apply list_elem_of_singleton in Hin.
    + by rewrite app_nil_r.
  - apply onTick_releases.
Qed.

(** ** Actions *)

Definition admits (a : action) l : list readWaiter :=
  match e_fatal (lp_engine l), a with
  | None, Select ev now _ _ =>
      if lp_stopped l || bool_decide (¬ possible ev l) then [] else admitted ev now (lp_engine l)
  | _, _ => []
  end.

Lemma act_releases a l : releases (admits a l) (lp_engine l) (lp_engine (act a l)).
Proof.
  unfold act, admits. destruct (e_fatal (lp_engine l)); [apply holds_releases; reflexivity|].
  pose proof (rpcs_closed holds_reads (lp_engine l)) as Hrpc.
  destruct a as [ev now d d'|req now|req now|req now|p|rd r]; cbn [lp_engine].
  - case_match; [apply holds_releases; reflexivity|apply select_arm_releases].
  - apply holds_releases, Hrpc.
  - apply holds_releases, Hrpc.
  - apply holds_releases, Hrpc.
  - apply holds_releases. case_match; [|done]. destruct (nextRoundSeq (lp_engine l)) as [seq e'] eqn:Hs.
    injection Hs as _ <-. by split.
  - apply holds_releases. case_decide; [|done]. by destruct (reply_progress _ r _) as [t n].
Qed.

(** ** Rounds and acknowledgements *)

Record rounds_inv l : Prop := {
  ri_replicators : ∀ p, p ∈ e_replicators (lp_engine l) → p ∈ dom (currentPeers (lp_engine l));
  ri_own : own_replicators (lp_engine l);
  ri_rounds : ∀ rd, rd ∈ lp_flight l ∨ rd ∈ lp_acked l →
    rd_peer rd ∈ dom (currentPeers (lp_engine l)) ∧ rd_seq rd ≤ e_roundSeq (lp_engine l) ∧
    rd_term rd ≤ rn_term (e_node (lp_engine l));
  ri_acks : ∀ p a, e_lastAck (lp_engine l) !! p = Some a →
    p ∈ dom (currentPeers (lp_engine l)) ∧
    (0 < pa_startSeq a → ∃ rd, rd ∈ lp_acked l ∧ rd_peer rd = p ∧ rd_seq rd = pa_startSeq a);
}.

(** Rounds numbered above [b] were begun in term [t] or later. *)
Definition since (b t : Z) l : Prop :=
  b ≤ e_roundSeq (lp_engine l) ∧ t ≤ rn_term (e_node (lp_engine l)) ∧
  ∀ rd, rd ∈ lp_flight l ∨ rd ∈ lp_acked l → b < rd_seq rd → t ≤ rd_term rd.

(** The handlers that leave the evidence to the rounds. *)
Lemma leads_rounds e e' flight acked stopped stopped' asked asked' :
  leads e e' → rn_term (e_node e) ≤ rn_term (e_node e') →
  rounds_inv (mkLoop e stopped asked flight acked) → rounds_inv (mkLoop e' stopped' asked' flight acked).
Proof.
  intros [(Hid & Hs & Ha & Hr) Ho] Ht [Rr Ro Rd Ra]. pose proof (same_identity_peers _ _ Hid) as Hp.
  split; simpl in *; rewrite ?Hp, ?Hs; [|by apply Ho| |].
  - intros p Hx. destruct (Hr p Hx); auto.
  - intros rd Hx. destruct (Rd rd Hx) as (? & ? & ?). split_and!; [done..|lia].
  - intros p a Hx. destruct (Ha p a Hx) as [Hx'|[Hx' Hz]]; [by apply Ra|]. split; [done|lia].
Qed.

Lemma fireReadWaiters_node e : e_node (fireReadWaiters e) = e_node e.
Proof. unfold fireReadWaiters. by case_match. Qed.

Lemma handleAck_roundSeq p seq now e : e_roundSeq (handleAck p seq now e) = e_roundSeq e.
Proof. unfold handleAck, fireReadWaiters. by case_match. Qed.

Lemma handleAck_rounds p seq now stopped' asked' l :
  (∃ rd, rd ∈ lp_acked l ∧ rd_peer rd = p ∧ rd_seq rd = seq) → rounds_inv l →
  rounds_inv (mkLoop (handleAck p seq now (lp_engine l)) stopped' asked' (lp_flight l) (lp_acked l)).
Proof.
  intros (rd & Hrd & Hpeer & Hseq) Hinv. destruct (ri_rounds _ Hinv rd) as (Hdom & _ & _); [by right|].
  unfold handleAck. eapply (leads_rounds _ _ _ _ true _ [] _); [apply fireReadWaiters_leads|by rewrite fireReadWaiters_node|].
  destruct Hinv as [Rr Ro Rd Ra]. split; simpl; [done..|].
  intros q a. destruct (decide (q = p)) as [->|Hne].
  2:{ rewrite lookup_insert_ne by done. apply Ra. }
  rewrite lookup_insert_eq. intros [= <-]. split; [by rewrite <-Hpeer|]. simpl.
  destruct (Z.ltb_spec (pa_startSeq (default (mkPeerAck 0 0) (e_lastAck (lp_engine l) !! p))) seq);
    [intros _; by exists rd|].
  destruct (e_lastAck (lp_engine l) !! p) as [a|] eqn:Ha; simpl; [|lia]. intros Hpos. by apply (Ra p a Ha).
Qed.

Lemma start_rounds node rl sm path draw : rounds_inv (start (NewWithTransport node rl sm path draw)).
Proof. split; simpl; [set_solver|by left|set_solver|done]. Qed.

(** ** One action *)

Section Step.
Context (L : limits S) (HL : campaign_limits L).

Lemma act_evolves a l :
  within L a l → same_identity (e_node (lp_engine l)) (e_node (lp_engine (act a l))) ∧
  rn_term (e_node (lp_engine l)) ≤ rn_term (e_node (lp_engine (act a l))).
Proof.
  intros Hw. destruct (moves_evolve L _ _ HL (act_moves L a l Hw)) as (Hid & Hp & _).
  split; [done|]. by apply ps_le_term.
Qed.

(** The round counter counts the rounds, until it wraps. *)
Lemma act_roundSeq a l :
  0 ≤ e_roundSeq (lp_engine l) < 18446744073709551615 →
  e_roundSeq (lp_engine l) ≤ e_roundSeq (lp_engine (act a l)) ≤ e_roundSeq (lp_engine l) + 1.
Proof.
  intros Hs. unfold act. destruct (e_fatal (lp_engine l)); [lia|].
  destruct a as [ev now d d'|req now|req now|req now|p|rd r]; cbn [lp_engine].
  - case_match; [lia|]. cbn [lp_engine]. destruct ev as [|cmd ch|t|t v resp|t v resp|p seq|ch aw|w|];
      try (pose proof (select_arm_leads) as Hl;
        match goal with |- context [select_arm ?ev ?x ?y ?z ?e] =>
          destruct (Hl ev x y z e) as [(_ & -> & _) _]; [done|lia] end).
    simpl. rewrite handleAck_roundSeq. lia.
  - unfold EngineHandleAppendEntries. destruct (HandleAppendEntries _ _ _ _) as [[? ?] ?]. simpl. lia.
  - unfold EngineHandleRequestVote. destruct (HandleRequestVote _ _ _ _) as [? ?]. simpl. lia.
  - unfold EngineHandleInstallSnapshot. destruct (HandleInstallSnapshot _ _ _ _ _ _ _) as [[[? ?] ?] ?]. simpl. lia.
  - case_match; [|lia]. destruct (nextRoundSeq (lp_engine l)) as [seq e'] eqn:Hn.
    injection Hn as <- <-. simpl. rewrite Z.mod_small by lia. lia.
  - case_decide; [|lia]. destruct (reply_progress _ _ _). simpl. lia.
Qed.

Lemma RoundBegin_rounds p l :
  rounds_inv l → 0 ≤ e_roundSeq (lp_engine l) < 18446744073709551615 → e_fatal (lp_engine l) = None →
  rounds_inv (act (RoundBegin p) l) ∧
  ∀ rd, rd ∈ lp_flight (act (RoundBegin p) l) → rd ∈ lp_flight l ∨
    rd_term rd = rn_term (e_node (lp_engine l)) ∧ rd_seq rd = e_roundSeq (lp_engine l) + 1.
Proof.
  intros [Rr Ro Rd Ra] Hs Hf. unfold act. rewrite Hf.
  destruct (IsLeader _ && _) eqn:Hb; [|split; [by split|by left]].
  apply andb_true_iff in Hb as [Hl%bool_decide_eq_true Hp%bool_decide_eq_true].
  destruct (nextRoundSeq (lp_engine l)) as [seq e'] eqn:Hn. injection Hn as <- <-.
  rewrite Z.mod_small by lia.
  assert (e_replicatorsTerm (lp_engine l) = rn_term (e_node (lp_engine l))) as Ht.
  { destruct (Ro Hl) as [He|]; [|done]. rewrite He in Hp. set_solver. }
  split; [split; simpl; [done..| |done]|].
  - intros rd Hrd. assert (rd = mkRound p (e_roundSeq (lp_engine l) + 1) (e_replicatorsTerm (lp_engine l)) ∨
      (rd ∈ lp_flight l ∨ rd ∈ lp_acked l)) as [->|Hx] by set_solver; simpl.
    + split_and!; [by apply Rr|lia|lia].
    + destruct (Rd rd Hx) as (? & ? & ?). split_and!; [done|lia|lia].
  - simpl. intros rd [->|?]%elem_of_cons; [right|by left]. simpl. lia.
Qed.

(** Everything but the beginning of a round leaves the flight no larger. *)
Lemma act_flight a l :
  (∀ p, a ≠ RoundBegin p) → lp_flight (act a l) ⊆ lp_flight l ∧
  ∀ rd, rd ∈ lp_acked (act a l) → rd ∈ lp_flight l ∨ rd ∈ lp_acked l.
Proof.
  intros Ha. unfold act. destruct (e_fatal (lp_engine l)); [by split; [|auto]|].
  destruct a as [ev now d d'|req now|req now|req now|p|rd r]; try by (split; simpl; auto).
  - case_match; by (split; simpl; auto).
  - by destruct (Ha p).
  - case_decide as Hin; [|by split; auto]. destruct (reply_progress _ _ _) as [t n]. simpl. split.
    + intros x [_ ?]%list_elem_of_filter. done.
    + intros x. case_match; try by right. intros [->|?]%elem_of_cons; [by left|by right].
Qed.

Lemma act_rounds_inv a l :
  within L a l → rounds_inv l → 0 ≤ e_roundSeq (lp_engine l) < 18446744073709551615 →
  rounds_inv (act a l).
Proof.
  intros Hw Hinv Hs. destruct (act_evolves a l Hw) as [Hid Ht].
  destruct (e_fatal (lp_engine l)) eqn:Hf; [unfold act; by rewrite Hf|].
  assert (∀ e' st asked, leads (lp_engine l) e' → rn_term (e_node (lp_engine l)) ≤ rn_term (e_node e') →
    rounds_inv (mkLoop e' st asked (lp_flight l) (lp_acked l))) as Hleads.
  { intros e' st asked Hl Hle. apply (leads_rounds _ _ _ _ (lp_stopped l) _ (lp_asked l) _ Hl Hle).
    by destruct l. }
  destruct a as [ev now d d'|req now|req now|req now|p|rd r]; unfold act in *; rewrite Hf in *.
  - destruct (lp_stopped l || _) eqn:Hb; [done|]. apply orb_false_iff in Hb as [_ Hb%bool_decide_eq_false].
    apply dec_stable in Hb. destruct ev; try (apply Hleads; [by apply select_arm_leads|done]).
    by apply handleAck_rounds.
  - apply Hleads; [|done]. unfold EngineHandleAppendEntries in *. simpl in Hid.
    destruct (HandleAppendEntries _ req now _) as [[resp n] rl] eqn:Hh. simpl in *.
    transitivity (with_node n (lp_engine l)); [|by apply leads_same].
    apply leads_node; [done|]. apply HandleAppendEntries_ok in Hh as [_ ?]. by apply quiet_keeps.
  - apply Hleads; [|done]. unfold EngineHandleRequestVote in *. simpl in Hid.
    destruct (HandleRequestVote req _ now _) as [resp n] eqn:Hh. simpl in *.
    apply leads_node; [done|]. apply HandleRequestVote_quiet in Hh. by apply quiet_keeps.
  - apply Hleads; [|done]. unfold EngineHandleInstallSnapshot in *. simpl in Hid.
    destruct (HandleInstallSnapshot _ req _ _ now _ _) as [[[resp n] rl] m] eqn:Hh. simpl in *.
    transitivity (with_node n (lp_engine l)); [|by apply leads_same].
    apply leads_node; [done|]. apply HandleInstallSnapshot_ok in Hh as [_ ?]. by apply quiet_keeps.
  - pose proof (proj1 (RoundBegin_rounds p l Hinv Hs Hf)) as Hb. unfold act in Hb. by rewrite Hf in Hb.
  - case_decide as Hin; [|done]. destruct (reply_progress _ r _) as [t n] eqn:Hr. simpl in *.
    assert (leads (lp_engine l) (with_node n (lp_engine l))) as Hl.
    { apply leads_node; [done|]. unfold reply_progress, append_reply, snapshot_reply in Hr.
      repeat (case_match; simplify_eq/=); try done; try apply UpdatePeerProgress_keeps; by intros Hlead. }
    destruct (Hleads _ true [] Hl Ht) as [Rr Ro Rd Ra]. split; simpl in *; [done..| |].
    + intros x Hx. apply Rd. destruct Hx as [[_ Hx]%list_elem_of_filter|Hx]; [by left|].
      case_match; try (by right). apply elem_of_cons in Hx as [->|?]; [by left|by right].
    + intros p a Hx. destruct (Ra p a Hx) as [? Hex]. split; [done|]. intros Hpos.
      destruct (Hex Hpos) as (rd' & ? & ? & ?). exists rd'. case_match; split_and!; try done. by right.
Qed.

Lemma act_since a l b t :
  within L a l → rounds_inv l → 0 ≤ e_roundSeq (lp_engine l) < 18446744073709551615 →
  since b t l → since b t (act a l).
Proof.
  intros Hw Hinv Hs (Hb & Ht & Hrd). destruct (act_evolves a l Hw) as [_ Hle].
  pose proof (act_roundSeq a l Hs) as [Hseq _].
  split; [lia|]. split; [lia|].
  assert ((∀ p, a ≠ RoundBegin p) ∨ ∃ p, a = RoundBegin p) as [Ha|[p ->]] by (destruct a; naive_solver).
  - destruct (act_flight a l Ha) as [Hfl Hac]. intros rd [Hin|Hin]; [apply Hrd; left; by apply Hfl|].
    apply Hrd. by apply Hac.
  - destruct (e_fatal (lp_engine l)) eqn:Hf; [unfold act; by rewrite Hf|].
    destruct (RoundBegin_rounds p l Hinv Hs Hf) as [_ Hnew].
    intros rd [Hin|Hin].
    + destruct (Hnew rd Hin) as [?|[-> _]]; [apply Hrd; by left|done].
    + apply Hrd. right. unfold act in Hin. rewrite Hf in Hin. case_match; [|done].
      by destruct (nextRoundSeq _).
Qed.

(** ** The read on one channel *)

(** [w] is the one read pending on [ch]. *)
Definition sole_read (ch : nat) (w : readWaiter) l : Prop :=
  ∀ w', w' ∈ e_reads (lp_engine l) → rw_resultCh w' = ch → w' = w.

(** What an index sent for it promises. *)
Definition honest_read (w : readWaiter) (r : reply) e : Prop :=
  ∀ i, r = RRead i None → i = rw_readIndex w ∧ satisfied w e.

Lemma admits_taken a l w' : w' ∈ admits a l → rw_resultCh w' ∈ (taken a l).*1.
Proof.
  unfold admits, taken. destruct (e_fatal (lp_engine l)); [by intros ?%elem_of_nil|].
  destruct a as [ev now d d'|req now|req now|req now|p|rd r]; try by intros ?%elem_of_nil.
  case_match; [by intros ?%elem_of_nil|]. destruct ev; simpl; try by intros ?%elem_of_nil.
  case_match; [|by intros ?%elem_of_nil]. intros ->%list_elem_of_singleton. simpl. left.
Qed.

(** An action that replies to the read satisfies it: a new request has a new channel. *)
Lemma act_sole_read ch w a l :
  ch ∈ lp_asked l → NoDup (lp_asked (act a l)) → sole_read ch w l →
  sole_read ch w (act a l) ∧ ∀ r, (ch, r) ∈ e_sent (lp_engine (act a l)) →
    (ch, r) ∈ e_sent (lp_engine l) ∨ honest_read w r (lp_engine (act a l)).
Proof.
  intros Hin Hnd Hw. destruct (act_exchange a l) as [_ Ha]. rewrite Ha in Hnd.
  apply NoDup_app in Hnd as (_ & Hdis & _).
  destruct (act_releases a l) as [Hr Hrel].
  assert (∀ w', w' ∈ admits a l ++ e_reads (lp_engine l) → rw_resultCh w' = ch → w' = w) as Hone.
  { intros w' [Hx%admits_taken|Hx]%elem_of_app Hc; [|by apply Hw].
    rewrite Hc in Hx. by destruct (Hdis ch Hx). }
  split; [intros w' Hx%Hr; by apply Hone|].
  intros r Hx. destruct (decide ((ch, r) ∈ e_sent (lp_engine l))) as [|Hn]; [by left|right].
  intros i ->. apply Hrel in Hx as [Hx|(w' & Hx & Hc & -> & Hsat)]; [done|].
  symmetry in Hc. by rewrite (Hone w' Hx Hc) in *.
Qed.

(** The read as it is admitted: its channel is new, so it is alone on it; a request
    that is refused leaves nothing to be alone. *)
Lemma admission_sole ch aw now d d' l0 w :
  accounted l0 → lp_stopped l0 = false → e_fatal (lp_engine l0) = None →
  let a := Select (ReadRequest ch aw) now d d' in
  NoDup (lp_asked (act a l0)) → admitted (ReadRequest ch aw) now (lp_engine l0) ⊆ [w] →
  ch ∈ lp_asked (act a l0) ∧ sole_read ch w (act a l0) ∧
  ∀ r, (ch, r) ∈ e_sent (lp_engine (act a l0)) → honest_read w r (lp_engine (act a l0)).
Proof.
  intros Hacc Hrun Hf a Hnd Hw.
  destruct (request_fresh (ReadRequest ch aw) now d d' ch _ l0 Hacc Hrun Hf eq_refl Hnd) as (_ & Hin & Hnew).
  apply fresh_requests in Hnew as (_ & Hold & _ & Hsent).
  assert (admits a l0 = admitted (ReadRequest ch aw) now (lp_engine l0)) as Had.
  { unfold admits, a. rewrite Hf, Hrun. cbv iota. by rewrite bool_decide_false by (intros Hn; by apply Hn). }
  destruct (act_releases a l0) as [Hr Hrel]. rewrite Had in Hr, Hrel.
  assert (∀ w', w' ∈ admitted (ReadRequest ch aw) now (lp_engine l0) ++ e_reads (lp_engine l0) →
    rw_resultCh w' = ch → w' = w) as Hone.
  { intros w' [Hx%Hw|Hx]%elem_of_app Hc; [by apply list_elem_of_singleton in Hx|]. by destruct (Hold w' Hx). }
  split_and!; [done|intros w' Hx%Hr; by apply Hone|].
  intros r Hx i ->. apply Hrel in Hx as [Hx|(w' & Hx & Hc & -> & Hsat)]; [by destruct (Hsent _ Hx)|].
  symmetry in Hc. by rewrite (Hone w' Hx Hc) in *.
Qed.

(** ** Whole runs *)

(** The counter does not wrap in a run of fewer than 2^64 actions. *)
Definition room (acts : list action) l : Prop :=
  0 ≤ e_roundSeq (lp_engine l) ∧ e_roundSeq (lp_engine l) + Z.of_nat (length acts) < 18446744073709551616.

Lemma run_rounds acts l :
  run_within L acts l → room acts l → rounds_inv l →
  rounds_inv (run acts l) ∧
  e_roundSeq (lp_engine l) ≤ e_roundSeq (lp_engine (run acts l))
    ≤ e_roundSeq (lp_engine l) + Z.of_nat (length acts) ∧
  ∀ b t, since b t l → since b t (run acts l).
Proof.
  revert l. induction acts as [|a acts IH]; intros l; [intros; split_and!; auto; simpl; lia|].
  intros [Ha Hacts] [Hnn Hroom] Hinv. change (run (a :: acts) l) with (run acts (act a l)).
  cbn [length] in *.
  assert (0 ≤ e_roundSeq (lp_engine l) < 18446744073709551615) as Hs by lia.
  pose proof (act_roundSeq a l Hs) as Hseq.
  destruct (IH (act a l)) as (Hinv' & Hseq' & Hsince); [done|split; lia|by apply act_rounds_inv|].
  split_and!; [done|lia|lia|]. intros b t Hst. by apply Hsince, act_since.
Qed.

Lemma run_evolves acts l : run_within L acts l →
  same_identity (e_node (lp_engine l)) (e_node (lp_engine (run acts l))) ∧
  rn_term (e_node (lp_engine l)) ≤ rn_term (e_node (lp_engine (run acts l))).
Proof.
  intros Hin%run_moves. destruct (moves_evolve L _ _ HL Hin) as (Hid & Hp & _).
  split; [done|by apply ps_le_term].
Qed.

(** The reads of a simple cluster: its voters are this node and its peers. *)
Definition simple (n : RaftNode S) : Prop :=
  gm (OldVoters (rn_config n)) = ∅ ∧ gm (Learners (rn_config n)) = ∅ ∧
  is_Some (gm (Voters (rn_config n)) !! rn_nodeID n).

Lemma simple_peers n : simple n → dom (NodePeers n) = dom (gm (Voters (rn_config n))) ∖ {[rn_nodeID n]}.
Proof.
  intros (Hold & Hl & _). unfold NodePeers, Peers. rewrite dom_delete_L. f_equal.
  apply set_eq. intros p. rewrite !elem_of_dom, Members_lookup, Hold, Hl, !lookup_empty.
  by destruct (gm (Voters (rn_config n)) !! p).
Qed.

(** The members of a quorum that answered a round begun after number [b] in term [t]. *)
Definition confirmed_since (b t : Z) l : Prop :=
  ∃ Q : gset Z, HasQuorum (rn_config (e_node (lp_engine l))) (ballot_of Q) = true ∧
    ∀ p, p ∈ Q → p = rn_nodeID (e_node (lp_engine l)) ∨
      ∃ rd, rd ∈ lp_acked l ∧ rd_peer rd = p ∧ rd_term rd = t ∧ b < rd_seq rd.

Lemma satisfied_since w l :
  simple (e_node (lp_engine l)) → rounds_inv l → 0 ≤ rw_barrier w → since (rw_barrier w) (rw_term w) l →
  satisfied w (lp_engine l) → confirmed_since (rw_barrier w) (rw_term w) l.
Proof.
  intros Hsimple Hinv Hb (_ & _ & Hsince) (Ht & _ & _ & Hq).
  exists (confirmed_by (rw_barrier w) (lp_engine l)). split.
  - pose proof (simple_peers _ Hsimple) as Hp. destruct Hsimple as (Hold & _ & Hself).
    apply confirmations_quorum; try done. rewrite <-Hp. intros p [a Ha]%elem_of_dom.
    by apply (ri_acks _ Hinv p a).
  - intros p [->|(a & Ha & Hlt)]%confirmed_by_spec; [by left|]. right.
    destruct (ri_acks _ Hinv p a Ha) as [_ (rd & Hrd & Hpeer & Hseq)]; [lia|]. exists rd.
    destruct (ri_rounds _ Hinv rd) as (_ & _ & Hle); [by right|].
    assert (rw_term w ≤ rd_term rd) by (apply Hsince; [by right|lia]).
    split_and!; [done..|lia|lia].
Qed.

Lemma since_now l : rounds_inv l → since (e_roundSeq (lp_engine l)) (rn_term (e_node (lp_engine l))) l.
Proof.
  intros Hinv. split_and!; [done..|]. intros rd Hrd Hlt. destruct (ri_rounds _ Hinv rd Hrd) as (_ & ? & _). lia.
Qed.

Lemma simple_same n n' : same_identity n n' → simple n → simple n'.
Proof. intros [Hi Hc]. unfold simple. by rewrite Hi, Hc. Qed.

(** From a state whose rounds are in order to a later one in the same run. *)
Lemma run_simple acts l :
  run_within L acts l → room acts l → rounds_inv l → simple (e_node (lp_engine l)) →
  simple (e_node (lp_engine (run acts l))) ∧ rounds_inv (run acts l) ∧
  since (e_roundSeq (lp_engine l)) (rn_term (e_node (lp_engine l))) (run acts l).
Proof.
  intros Hw Hroom Hinv Hs. destruct (run_rounds acts l Hw Hroom Hinv) as (Hinv' & _ & Hsince).
  destruct (run_evolves acts l Hw) as [Hid _].
  split_and!; [by eapply simple_same|done|by apply Hsince, since_now].
Qed.

(** The read index [i], asked for in [l0] and answered after [acts] from [l1], is
    safe to serve: when it was asked for, this node was leader, had committed nothing
    beyond it and had put its no-op no later; at some later point, no later than the answer, it was in the
    same term with an entry of that term committed, the index was applied if this
    node is to serve the read itself, and a quorum had acknowledged rounds begun
    after the question, in its term. *)
Definition safe_index (i : Z) (awaitApply : bool) (l0 : Loop S) (acts : list action) (l1 : Loop S) : Prop :=
  let e0 := lp_engine l0 in
  rn_Role (e_node e0) = Leader ∧ rn_CommitIndex (e_node e0) `max` e_noopIndex e0 ≤ i ∧
  ∃ answered rest, acts = answered ++ rest ∧
    let m := run answered l1 in
    let e := lp_engine m in
    rn_term (e_node e) = rn_term (e_node e0) ∧ e_noopIndex e ≤ rn_CommitIndex (e_node e) ∧
    (awaitApply = true → i ≤ rn_LastApplied (e_node e)) ∧
    confirmed_since (e_roundSeq e0) (rn_term (e_node e0)) m.

Lemma read_index_safe (node : RaftNode S) (rl : RaftLog) (sm : MemoryStateMachine) (path : string)
    (draw : Z) (before after : list action) (ch : nat) (awaitApply : bool) (now d d' i : Z) :
  let l0 := run before (start (NewWithTransport node rl sm path draw)) in
  let ask := Select (ReadRequest ch awaitApply) now d d' in
  let l := run after (act ask l0) in
  simple node → run_within L (before ++ ask :: after) (start (NewWithTransport node rl sm path draw)) →
  Z.of_nat (length (before ++ ask :: after)) < 18446744073709551616 →
  lp_stopped l0 = false → e_fatal (lp_engine l0) = None → NoDup (lp_asked l) →
  (ch, RRead i None) ∈ e_sent (lp_engine l) → safe_index i awaitApply l0 after (act ask l0).
Proof.
  intros l0 ask l Hsimple Hw Hlen Hrun Hf Hnd Hsent. set (e0 := lp_engine l0).
  apply (run_within_app L) in Hw as [Hw0 Hw]. rewrite length_app in Hlen.
  set (s := start (NewWithTransport node rl sm path draw)) in *.
  destruct (run_simple before s Hw0) as (Hs0 & Hinv0 & _);
    [split; simpl; lia|apply start_rounds|by apply (simple_same node)|].
  assert (room (ask :: after) l0) as Hroom0.
  { destruct (run_rounds before s Hw0) as (_ & Hseq & _); [split; simpl; lia|apply start_rounds|].
    change (e_roundSeq (lp_engine s)) with 0 in Hseq. unfold l0, room. lia. }
  assert (accounted l0) as Hacc by apply run_accounted, start_accounted.
  assert (NoDup (lp_asked (act ask l0))) as Hnd1 by exact (run_NoDup after _ Hnd).
  assert (∀ w, admitted (ReadRequest ch awaitApply) now e0 ⊆ [w] → ∃ answered rest,
    after = answered ++ rest ∧ honest_read w (RRead i None) (lp_engine (run answered (act ask l0)))) as Hwatch.
  { intros w Hadm. destruct (admission_sole ch awaitApply now d d' l0 w Hacc Hrun Hf Hnd1 Hadm) as (Hch & Hp & Hbase).
    destruct (run_watch (λ _ _, True) ch (sole_read ch w) (λ r _ e, honest_read w r e)
      (λ a l _, act_sole_read ch w a l) after (act ask l0)) as [_ Hs]; [done..|].
    destruct (Hs _ Hsent) as [Hr|(acts1 & a & acts2 & -> & Hr)].
    - exists [], after. split; [done|]. by apply Hbase.
    - exists (acts1 ++ [a]), acts2. rewrite <-app_assoc. split; [done|]. by rewrite run_app. }
  assert (rn_Role (e_node e0) = Leader) as Hlead.
  { destruct (decide (rn_Role (e_node e0) = Leader)) as [|Hn]; [done|exfalso].
    assert (∀ w, admitted (ReadRequest ch awaitApply) now e0 ⊆ [w]) as Hadm.
    { intros w. unfold admitted, IsLeader. rewrite bool_decide_false by done. set_solver. }
    destruct (Hwatch _ (Hadm (mkReadWaiter (i + 1) 0 0 false 0 0))) as (? & ? & _ & Hh).
    destruct (Hh i eq_refl) as [Hi _]. simpl in Hi. lia. }
  set (w := mkReadWaiter (Z.max (rn_CommitIndex (e_node e0)) (e_noopIndex e0)) (rn_term (e_node e0))
    (e_roundSeq e0) awaitApply (now + readTimeout) ch).
  destruct (Hwatch w) as (answered & rest & -> & Hh).
  { unfold admitted, IsLeader. by rewrite bool_decide_true by done. }
  destruct (Hh i eq_refl) as [-> Hsat]. split; [done|]. split; [simpl; fold e0; lia|].
  exists answered, rest. split; [done|].
  assert (run_within L (ask :: answered) l0) as Hw1.
  { destruct Hw as [Ha [Hw _]%(run_within_app L)]. by split. }
  destruct (run_simple (ask :: answered) l0 Hw1) as (Hsm & Hinvm & Hsince); [|done..|].
  { destruct Hroom0 as [? Hr]. split; [done|]. cbn [length] in *. rewrite length_app in Hr. lia. }
  change (run (ask :: answered) l0) with (run answered (act ask l0)) in *.
  pose proof (satisfied_since w _ Hsm Hinvm) as Hconf. destruct Hsat as (Ht & Hc & Ha & Hq).
  split_and!; [done..|]. apply Hconf; [apply Hroom0|done|by split_and!].
Qed.

(** C6: linearizable reads, from the request to the reply.  Take any run of the loop
    from its start: messages, RPCs and replication rounds in any order, result
    channels used once.  If a read that came in at some point of it is answered
    with an index, then at that point this node was leader and the index covers
    everything it had committed and the no-op of its term; and later, at a point of the run no later than
    the answer, it was still in the same term, had committed an entry of it, had
    applied the index if it is to serve the read itself, and a quorum of the
    configuration had acknowledged rounds begun after the read came in, in the
    term it came in. *)
Theorem linearizable_read (node : RaftNode S) (rl : RaftLog) (sm : MemoryStateMachine) (path : string)
    (draw : Z) (before after : list action) (ch : nat) (awaitApply : bool) (now d d' i : Z) :
  let l0 := run before (start (NewWithTransport node rl sm path draw)) in
  let ask := Select (ReadRequest ch awaitApply) now d d' in
  let l := run after (act ask l0) in
  simple node → run_within L (before ++ ask :: after) (start (NewWithTransport node rl sm path draw)) →
  Z.of_nat (length (before ++ ask :: after)) < 18446744073709551616 →
  lp_stopped l0 = false → e_fatal (lp_engine l0) = None → NoDup (lp_asked l) →
  (ch, RRead i None) ∈ e_sent (lp_engine l) →
  let e0 := lp_engine l0 in
  rn_Role (e_node e0) = Leader ∧ rn_CommitIndex (e_node e0) `max` e_noopIndex e0 ≤ i ∧
  ∃ answered rest, after = answered ++ rest ∧
    let m := run answered (act ask l0) in
    let e := lp_engine m in
    rn_term (e_node e) = rn_term (e_node e0) ∧ e_noopIndex e ≤ rn_CommitIndex (e_node e) ∧
    (awaitApply = true → i ≤ rn_LastApplied (e_node e)) ∧
    confirmed_since (e_roundSeq e0) (rn_term (e_node e0)) m.
Proof. apply read_index_safe. Qed.

End Step.

End Reads.
