(* ===== verification/EngineWrites.v ===== *)
(** * Acknowledged writes, end to end

    From the proposal of a command to its acknowledgement, over a whole run of the
    loop: the entry that was appended for it is still where it was appended when
    the commit index passes it, and nothing else can make the loop answer nil on
    its channel.  The same for the waits on an applied index. *)

From S2P Require Import Prelude Configuration Os Json Types Encoding RaftLog RaftLogFacts RaftNode RaftNodeFacts RaftNodeRoles StateMachine Snapshot Replicator Engine EngineLoop EngineFacts EngineRun EngineFrame EngineChannels EngineMoves EngineBounds EngineReplica EngineReads.

Section Writes.
Context {S : Type} `{StateStoreLaws S} `{Codec LogEntry} `{Codec Command}.
Implicit Types (e : Engine S) (l : Loop S) (n : RaftNode S) (rl : RaftLog).

(** ** An entry of the term this node leads

    A leader only appends to its log and compacts it, and a leader that is deposed
    does not lead the same term again: so while it leads term [t], index [i] holds
    the entry it put there. *)

Definition stored_at rl (i : Z) (entry : LogEntry) : Prop :=
  entry_at rl i = Some entry ∨ i ≤ rl_lastIncludedIndex rl.

Definition held (t i : Z) (entry : LogEntry) n rl : Prop :=
  t ≤ rn_term n ∧
  (rn_term n = t → rn_Role n ≠ Candidate ∧ (rn_Role n = Leader → stored_at rl i entry)).

(** No promotion from [n] to [n'] within a term. *)
Definition steady n n' : Prop :=
  rn_Role n' = Follower ∨ rn_Role n' = rn_Role n ∧ rn_term n' = rn_term n ∨ rn_term n < rn_term n'.

Lemma quiet_steady n n' : quiet n n' → steady n n'.
Proof. intros [?|(? & ? & _)]; [by left|]. right. by left. Qed.

Lemma BecomeCandidate_steady now n r n' :
  BecomeCandidate now n = (r, n') → int64 (rn_term n) → rn_term n < MaxInt64 → steady n n'.
Proof.
  intros Hc Hi Hmax. apply BecomeCandidate_inv in Hc as [_ Hr]; [|done..]. destruct r as [t|er].
  - right. right. destruct Hr as (-> & Hp & _). unfold rn_term at 2. rewrite Hp. simpl. lia.
  - destruct Hr. by apply quiet_steady, same_volatile_quiet.
Qed.

(** A change of the node alone. *)
Lemma held_node t i entry n n' rl :
  rn_term n ≤ rn_term n' → steady n n' → held t i entry n rl → held t i entry n' rl.
Proof.
  intros Hle Hq [Ht Hh]. simpl in *. split; simpl; [lia|]. intros Heq.
  destruct Hq as [Hf|[(Hr & Hterm)|]]; [rewrite Hf; by split| |lia].
  rewrite Hr. apply Hh. lia.
Qed.

(** A promotion: the node was a candidate, so the term is a later one. *)
Lemma held_promote t i entry n rl t' k b n' :
  BecomeLeader t' k n = (b, n') → held t i entry n rl → held t i entry n' rl.
Proof.
  unfold BecomeLeader. destruct (_ || _) eqn:Hc; intros [= _ <-] [Ht Hh]; [done|].
  apply orb_false_iff in Hc as [Hc%bool_decide_eq_false _]. apply dec_stable in Hc.
  split; simpl in *; [done|]. intros Heq. by destruct (Hh Heq).
Qed.

(** A change of the log on a node that does not lead. *)
Lemma held_follower t i entry n n' rl rl' :
  rn_term n ≤ rn_term n' → rn_Role n' = Follower →
  held t i entry n rl → held t i entry n' rl'.
Proof. intros Hle Hf [Ht _]. split; simpl in *; [lia|]. rewrite Hf. by split. Qed.

(** A change of the log that keeps its entries or compacts them. *)
Lemma held_log t i entry n rl rl' :
  (∀ x, stored_at rl i x → stored_at rl' i x) →
  held t i entry n rl → held t i entry n rl'.
Proof. intros Hs [Ht Hh]. split; simpl in *; [done|]. intros Heq. destruct (Hh Heq). auto. Qed.

Lemma AppendLeader_stored cmd t rl r rl' i x :
  log_wf rl → rl_nextIndex rl < MaxInt64 → AppendLeader cmd t rl = (r, rl') →
  stored_at rl i x → stored_at rl' i x.
Proof.
  intros Hwf Hmax Ha. pose proof (AppendLeader_spec rl cmd t Hwf Hmax) as Hs. rewrite Ha in Hs.
  destruct r as [en|er].
  - destruct Hs as (_ & Hc & Hf & _ & _ & Hwf'). unfold stored_at, entry_at. rewrite Hc, Hf.
    destruct Hwf as [[Hf0 _ _ _] _], Hwf' as [[Hf1 _ _ _] _].
    intros [He|Hi]; [left|right; lia]. case_decide; [|done]. by apply lookup_app_l_Some.
  - injection Hs as Hc Hn Hf Hl _ _ _. unfold stored_at, entry_at. by rewrite Hc, Hf, Hl.
Qed.

Lemma Truncate_stored rl r rl' k i x :
  log_wf rl → TermAt rl k ≠ 0 → int64 k → TruncateBeforeIndex k (TermAt rl k) rl = (r, rl') →
  stored_at rl i x → stored_at rl' i x.
Proof.
  intros Hwf Hterm Hk Ht Hs.
  destruct (compact_range _ _ _ _ Ht Hterm Hk (proj1 Hwf)) as [->|Hrange]; [done|].
  apply TruncateBeforeIndex_spec in Ht as (_ & Hl & _ & _ & Hkeep & _); [|done..].
  destruct (Z.ltb_spec k i) as [Hlt|Hge]; [|right; lia]. destruct Hs as [He|Hi].
  - left. by rewrite Hkeep.
  - destruct Hwf as [[Hf _ _ _] _]. lia.
Qed.

(** The two receivers that touch the log leave a follower behind if they do. *)
Lemma HandleAppendEntries_log rl req now n resp n' rl' :
  HandleAppendEntries rl req now n = (resp, n', rl') → rn_Role n' = Follower ∨ rl' = rl.
Proof.
  intros Hh. apply HandleAppendEntries_cases in Hh as [(_ & _ & _ & ->)|(Hge & r1 & n1 & Ha & Hrest)]; [by right|].
  apply accept_leader_inv in Ha as [_ Hr]; [|done].
  destruct r1 as [u|er]; [|right; by destruct Hrest as (_ & _ & ->)]. left.
  destruct Hr as (Hf & _), Hrest as (m & ct & ci & [|] & _ & _ & ->); [|done].
  by destruct (setFollowerCommit_fields (ae_LeaderCommit req) m (set_contact now n1)) as (-> & _).
Qed.

Lemma HandleInstallSnapshot_log {X} rl req restore persist now n (x : X) resp n' rl' x' :
  HandleInstallSnapshot rl req restore persist now n x = (resp, n', rl', x') →
  rn_Role n' = Follower ∨ rl' = rl.
Proof.
  intros Hh. apply HandleInstallSnapshot_cases in Hh as [(_ & _ & _ & -> & _)|(Hge & r1 & n1 & Ha & Hrest)]; [by right|].
  apply accept_leader_inv in Ha as [_ Hr]; [|done].
  destruct r1 as [u|er]; [|right; by destruct Hrest as (_ & _ & -> & _)]. left.
  destruct Hr as (Hf & _).
  by destruct Hrest as [(_ & _ & -> & _)|(_ & [(_ & -> & _)|(? & ? & ? & ? & _ & _ & -> & _)])].
Qed.

(** ** Grants

    The two ways the loop answers nil: the commit index has reached a proposal of
    the current term, or the applied index has reached what was waited for. *)

Definition committed_in (c : nat) e e' : Prop :=
  rn_Role (e_node e) = Leader ∧ rn_term (e_node e') = rn_term (e_node e) ∧
  ∃ w, w ∈ e_waiters e ∧ w_resultCh w = c ∧ w_term w = rn_term (e_node e) ∧
    w_index w ≤ rn_CommitIndex (e_node e').

Definition applied_in (newA : list applyWaiter) (c : nat) e e' : Prop :=
  ∃ w, w ∈ newA ++ e_applyWaiters e ∧ aw_resultCh w = c ∧ aw_index w ≤ rn_LastApplied (e_node e').

(** From [e] to [e'] the loop took in [new] and [newA] and answered nil only so. *)
Definition grants (new : list waiter) (newA : list applyWaiter) e e' : Prop :=
  e_waiters e' ⊆ new ++ e_waiters e ∧ e_applyWaiters e' ⊆ newA ++ e_applyWaiters e ∧
  ∀ c, (c, RErr None) ∈ e_sent e' →
    (c, RErr None) ∈ e_sent e ∨ committed_in c e e' ∨ applied_in newA c e e'.

(** Nothing was granted. *)
Definition holds_acks e e' : Prop :=
  e_waiters e' ⊆ e_waiters e ∧ e_applyWaiters e' ⊆ e_applyWaiters e ∧
  ∀ c, (c, RErr None) ∈ e_sent e' → (c, RErr None) ∈ e_sent e.

Lemma holds_grants e e' : holds_acks e e' → grants [] [] e e'.
Proof. intros (Hw & Ha & Hs). split_and!; [done..|]. intros c Hc. left. by apply Hs. Qed.

#[export] Instance holds_acks_closed : Closed holds_acks.
Proof.
  split.
  - split; [intros e; by split_and!|]. intros e1 e2 e3 (Hw1 & Ha1 & Hs1) (Hw2 & Ha2 & Hs2).
    split_and!; [by transitivity (e_waiters e2)|by transitivity (e_applyWaiters e2)|auto].
  - intros e e' (Hw & _ & Ha & Hs). unfold holds_acks. by rewrite Hw, Ha, Hs.
  - intros now e. unfold sweepExpiredWaiters, sweepExpiredReads, sweepExpiredApplyWaiters.
    rewrite !reply_to_spec. split_and!; simpl; [by intros w [_ ?]%list_elem_of_filter..|].
    intros c. rewrite !elem_of_app, !list_elem_of_omap.
    intros [[[?|(w & _ & Hw)]|(w & _ & Hw)]|(w & _ & Hw)]; [done|..]; exfalso; revert Hw;
      unfold expired_waiter, expired_read, expired_apply; by case_match.
  - intros er e. split_and!; [simpl; set_solver|done|]. simpl. intros c [?|Hin]%elem_of_app; [done|].
    by apply list_elem_of_fmap in Hin as (w & [=] & _).
  - intros er e. split_and!; [done|done|]. simpl. intros c [?|Hin]%elem_of_app; [done|].
    by apply list_elem_of_fmap in Hin as (w & [=] & _).
  - intros er e. split_and!; [done|simpl; set_solver|]. simpl. intros c [?|Hin]%elem_of_app; [done|].
    by apply list_elem_of_fmap in Hin as (w & [=] & _).
Qed.

Lemma fireReadWaiters_acks e : holds_acks e (fireReadWaiters e).
Proof.
  unfold fireReadWaiters. rewrite reply_to_spec. split_and!; [done..|]. simpl.
  intros c [?|(w & _ & Hw)%list_elem_of_omap]%elem_of_app; [done|].
  unfold read_reply in Hw. by repeat case_match.
Qed.

Lemma fireCommittedWaiters_acks c t e :
  let e' := fireCommittedWaiters c t e in
  e_waiters e' ⊆ e_waiters e ∧ e_applyWaiters e' = e_applyWaiters e ∧
  ∀ ch, (ch, RErr None) ∈ e_sent e' → (ch, RErr None) ∈ e_sent e ∨
    ∃ w, w ∈ e_waiters e ∧ w_resultCh w = ch ∧ w_term w = t ∧ w_index w ≤ c.
Proof.
  unfold fireCommittedWaiters. rewrite reply_to_spec. cbv zeta. simpl.
  split_and!; [by intros w [_ ?]%list_elem_of_filter|done|].
  intros ch [?|(w & Hin & Hw)%list_elem_of_omap]%elem_of_app; [by left|right]. exists w.
  unfold committed_reply in Hw. destruct (Z.eqb_spec (w_term w) t); simpl in Hw; [|done].
  destruct (Z.leb_spec (w_index w) c); [|done]. by injection Hw as <-.
Qed.

Lemma fireApplyWaiters_acks e :
  let e' := fireApplyWaiters e in
  e_waiters e' = e_waiters e ∧ e_applyWaiters e' ⊆ e_applyWaiters e ∧
  ∀ ch, (ch, RErr None) ∈ e_sent e' → (ch, RErr None) ∈ e_sent e ∨
    ∃ w, w ∈ e_applyWaiters e ∧ aw_resultCh w = ch ∧ aw_index w ≤ rn_LastApplied (e_node e).
Proof.
  unfold fireApplyWaiters, CommitAndApplyBoundary. rewrite reply_to_spec. cbv zeta. simpl.
  split_and!; [done|by intros w [_ ?]%list_elem_of_filter|].
  intros ch [?|(w & Hin & Hw)%list_elem_of_omap]%elem_of_app; [by left|right]. exists w.
  unfold applied_reply in Hw. destruct (Z.leb_spec (aw_index w) (rn_LastApplied (e_node e))); [|done].
  by injection Hw as <-.
Qed.

(** *** The tick *)

(** The boundary the tick's grants are judged by. *)
Definition boundary e : Z * Z := (rn_term (e_node e), rn_CommitIndex (e_node e)).

Lemma applyCommitted_boundary e : boundary (applyCommitted e) = boundary e.
Proof.
  unfold applyCommitted, CommitAndApplyBoundary.
  generalize (rn_CommitIndex (e_node e)), (Z.to_nat (rn_CommitIndex (e_node e) - rn_LastApplied (e_node e))).
  intros c fuel. generalize (rn_LastApplied (e_node e)). revert e.
  induction fuel as [|fuel IH]; intros e a; simpl; [done|].
  destruct (apply_one a c e) as [[a' e']|] eqn:Ha; [|done].
  assert (boundary e' = boundary e) as Hb.
  { unfold apply_one, apply_entry, apply_advance in Ha. repeat (case_match; simplify_eq/=); done. }
  destruct (e_fatal e'); [done|]. by rewrite IH.
Qed.

Lemma maybeCompact_node e : e_node (maybeCompact e) = e_node e.
Proof.
  unfold maybeCompact, compact, CommitAndApplyBoundary. case_match; [|done]. destruct (_ =? 0); [done|].
  by destruct (on_disk _ _) as [[u|er] rl].
Qed.

Lemma AdvanceCommitIndex_term k f t n r n' : AdvanceCommitIndex k f t n = (r, n') → rn_term n' = rn_term n.
Proof. unfold AdvanceCommitIndex. by repeat case_match; intros [= _ <-]. Qed.

Lemma evidence_boundary e e' :
  evidence e' = evidence e → boundary e' = boundary e ∧ rn_LastApplied (e_node e') = rn_LastApplied (e_node e).
Proof. unfold evidence, boundary. intros [= -> -> -> _ _ _ _]. done. Qed.

(** What the rest of the tick announces, with the boundary unchanged. *)
Lemma tick_rest_acks now e :
  let e' := tick_rest now e in
  boundary e' = boundary e ∧ e_waiters e' ⊆ e_waiters e ∧ e_applyWaiters e' ⊆ e_applyWaiters e ∧
  ∀ c, (c, RErr None) ∈ e_sent e' → (c, RErr None) ∈ e_sent e ∨ applied_in [] c e e'.
Proof.
  destruct (tick_rest_closed holds_acks now e) as (Ha & Hc & ->). cbv zeta.
  pose proof (applyCommitted_boundary e) as Hb. destruct (e_fatal (applyCommitted e)) as [msg|].
  { destruct Ha as (? & ? & Hs). split_and!; [done..|]. intros c Hx%Hs. by left. }
  set (em := maybeCompact (applyCommitted e)) in *.
  assert (holds_acks e em) as (Hwm & Ham & Hsm) by by transitivity (applyCommitted e).
  assert (boundary em = boundary e) as Hbm by (unfold boundary, em; by rewrite maybeCompact_node).
  set (ef := fireReadWaiters em). destruct (fireReadWaiters_acks em) as (Hwf & Haf & Hsf). fold ef in Hwf, Haf, Hsf.
  destruct (fireApplyWaiters_acks ef) as (Hwp & Hap & Hsp).
  destruct (tick_end_closed holds_acks now (fireApplyWaiters ef)) as (Hwt & Hat & Hst).
  assert (evidence (tick_end now (fireApplyWaiters ef)) = evidence em) as Hev
    by (by rewrite tick_end_evidence, fireApplyWaiters_evidence; unfold ef; rewrite fireReadWaiters_evidence).
  assert (rn_LastApplied (e_node ef) = rn_LastApplied (e_node em)) as Hef by (unfold ef; by rewrite fireReadWaiters_node).
  apply evidence_boundary in Hev as [Hbt Hla]. split_and!.
  - by rewrite Hbt.
  - rewrite Hwp in Hwt. by etransitivity; [exact Hwt|]; etransitivity; [exact Hwf|].
  - etransitivity; [exact Hat|]. etransitivity; [exact Hap|]. by etransitivity; [exact Haf|].
  - intros c [Hx|(w & Hw & Hc' & Hle)]%Hst%Hsp; [left; by apply Hsm, Hsf|right].
    exists w. split_and!; [by apply Ham, Haf|done|]. rewrite Hla, <-Hef. done.
Qed.

Lemma onTick_grants now d d' e : grants [] [] e (onTick now d d' e).2.
Proof.
  unfold onTick. pose proof (reconcileLeadership_node e) as Hnode.
  destruct (reconcileLeadership_closed holds_acks e) as (Hwr & Har & Hsr).
  set (er := reconcileLeadership e) in *.
  pose proof (tick_role_cases holds_acks now d d' er) as Hcases.
  destruct (tick_role now d d' er) as [out e2]. simpl in Hcases |- *.
  destruct (tick_rest_acks now e2) as (Hb & Hw & Ha & Hs). set (e3 := tick_rest now e2) in *.
  destruct Hcases as [(Hw2 & Ha2 & Hs2)|(r & n & Hlead & Hadv & ->)].
  - split_and!; [by rewrite Hw, Hw2, Hwr|by rewrite Ha, Ha2, Har|].
    intros c [Hx|(w & Hin & ? & ?)]%Hs; [left; by apply Hsr, Hs2|]. right. right.
    exists w. split_and!; [by apply Har, Ha2|done..].
  - destruct (fireCommittedWaiters_acks (rn_CommitIndex n) (rn_term (e_node er)) (with_node n er)) as (Hw2 & Ha2 & Hs2).
    simpl in Hw2, Ha2, Hs2. rewrite Ha2 in Ha.
    split_and!; [by rewrite Hw, Hw2|by rewrite Ha|].
    assert (boundary e3 = (rn_term n, rn_CommitIndex n)) as Hb3.
    { rewrite Hb. unfold fireCommittedWaiters. by destruct (reply_to _ _). }
    unfold boundary in Hb3. injection Hb3 as Ht Hci. apply AdvanceCommitIndex_term in Hadv. rewrite Hnode in *.
    intros c [[Hx|(w & Hin & Hc & Hwt & Hi)]%Hs2|(w & Hin & ? & ?)]%Hs; [left; by apply Hsr| |].
    + right. left. split_and!; [done|congruence|]. exists w. split_and!; [by apply Hwr|done..|lia].
    + right. right. exists w. rewrite Ha2 in Hin. split_and!; [by apply Har|done..].
Qed.

(** *** Every action *)

(** The requests a message brings in. *)
Definition newcomers (ev : event) (now : Z) (new : list waiter) (newA : list applyWaiter) : Prop :=
  (∀ w, w ∈ new → Some (w_resultCh w) = fst <$> request_of ev now) ∧
  (∀ w, w ∈ newA → ev = ApplyWait w).

Lemma select_arm_grants ev now d d' e :
  ∃ new newA, grants new newA e (select_arm ev now d d' e).2 ∧ newcomers ev now new newA.
Proof.
  assert (newcomers ev now [] []) as Hnil by (split; by intros w ?%elem_of_nil).
  assert (∀ e', holds_acks e e' → ∃ new newA, grants new newA e e' ∧ newcomers ev now new newA) as Hholds
    by (intros e' Hh; exists [], []; split; [by apply holds_grants|done]).
  destruct ev as [|cmd ch|t|t v resp|t v resp|p seq|ch aw|w0|]; simpl.
  - apply Hholds, (shutdown_closed holds_acks).
  - unfold handleProposal, proposal_append, EncodeCommand. case_match.
    { apply Hholds. split_and!; [done..|]. simpl. intros c [?|Hin]%elem_of_app; [done|].
      by apply list_elem_of_singleton in Hin. }
    destruct (AppendLeader _ _ (e_raftLog e)) as [[entry|er] rl].
    + exists [mkWaiter (le_Index entry) (rn_CurrentTerm (e_node e)) ch (now + proposalTimeout)], []. split.
      * split_and!; simpl; [set_solver|done|]. intros c. rewrite app_nil_r. by left.
      * split; [intros w ->%list_elem_of_singleton; done|by intros w ?%elem_of_nil].
    + apply Hholds. split_and!; [done..|]. simpl. intros c [?|Hin]%elem_of_app; [done|].
      by apply list_elem_of_singleton in Hin.
  - apply Hholds, (handleStepDown_closed holds_acks).
  - apply Hholds, (handlePreVoteResult_closed holds_acks).
  - apply Hholds, (handleVoteResult_closed holds_acks).
  - apply Hholds. unfold handleAck. etransitivity; [|apply fireReadWaiters_acks]. by apply (elsewhere holds_acks).
  - apply Hholds. unfold handleRead, State, CommitAndApplyBoundary. case_bool_decide.
    + split_and!; [done..|]. simpl. intros c [?|Hin]%elem_of_app; [done|]. by apply list_elem_of_singleton in Hin.
    + etransitivity; [|apply fireReadWaiters_acks]. split_and!; [done..|]. simpl. intros c. by rewrite app_nil_r.
  - exists [], [w0]. split.
    2:{ split; [by intros w ?%elem_of_nil|]. by intros w ->%list_elem_of_singleton. }
    unfold handleApplyWait, CommitAndApplyBoundary.
    destruct (Z.leb_spec (aw_index w0) (rn_LastApplied (e_node e))); (split_and!; simpl; [done|set_solver|]); intros c.
    + intros [?|Hin]%elem_of_app; [by left|]. apply list_elem_of_singleton in Hin as [= ->].
      right. right. exists w0. split_and!; [left|done..].
    + rewrite app_nil_r. by left.
  - exists [], []. split; [apply onTick_grants|]. split; by intros w ?%elem_of_nil.
Qed.

Lemma act_grants a l :
  ∃ new newA, grants new newA (lp_engine l) (lp_engine (act a l)) ∧
    (∀ w, w ∈ new → w_resultCh w ∈ (taken a l).*1) ∧
    (∀ w, w ∈ newA → aw_resultCh w ∈ (taken a l).*1).
Proof.
  assert (∀ e', holds_acks (lp_engine l) e' → ∃ new newA, grants new newA (lp_engine l) e' ∧
    (∀ w, w ∈ new → w_resultCh w ∈ (taken a l).*1) ∧ (∀ w, w ∈ newA → aw_resultCh w ∈ (taken a l).*1)) as Hholds.
  { intros e' Hh. exists [], []. split_and!; [by apply holds_grants|by intros w ?%elem_of_nil..]. }
  unfold act, taken in *. destruct (e_fatal (lp_engine l)); [by apply Hholds|].
  pose proof (rpcs_closed holds_acks (lp_engine l)) as Hrpc.
  destruct a as [ev now d d'|req now|req now|req now|p|rd r]; cbn [lp_engine]; try (apply Hholds, Hrpc).
  - destruct (lp_stopped l || _); [by apply Hholds|]. cbn [lp_engine].
    destruct (select_arm_grants ev now d d' (lp_engine l)) as (new & newA & Hg & Hn & HnA).
    exists new, newA. split_and!; [done| |].
    + intros w Hw. apply Hn in Hw. destruct (request_of ev now); simpl in *; [|done]. injection Hw as ->. left.
    + intros w Hw. apply HnA in Hw as ->. left.
  - apply Hholds. case_match; [|done]. destruct (nextRoundSeq (lp_engine l)) as [seq e'] eqn:Hs.
    injection Hs as _ <-. by apply (elsewhere holds_acks).
  - apply Hholds. case_decide; [|done]. destruct (reply_progress _ r _) as [t n]. by apply (elsewhere holds_acks).
Qed.

(** ** The request on one channel *)

(** A wait for an applied index is the one request pending on [ch]. *)
Definition sole_wait (ch : nat) (index : Z) l : Prop :=
  (∀ w, w ∈ e_waiters (lp_engine l) → w_resultCh w ≠ ch) ∧
  (∀ w, w ∈ e_applyWaiters (lp_engine l) → aw_resultCh w = ch → aw_index w = index).

Lemma act_sole_wait ch index a l :
  ch ∈ lp_asked l → NoDup (lp_asked (act a l)) → sole_wait ch index l →
  sole_wait ch index (act a l) ∧ ∀ r, (ch, r) ∈ e_sent (lp_engine (act a l)) →
    (ch, r) ∈ e_sent (lp_engine l) ∨ (r = RErr None → index ≤ rn_LastApplied (e_node (lp_engine (act a l)))).
Proof.
  intros Hin Hnd [Hnone Hone]. destruct (act_exchange a l) as [_ Ha]. rewrite Ha in Hnd.
  apply NoDup_app in Hnd as (_ & Hdis & _).
  destruct (act_grants a l) as (new & newA & (Hwait & Happly & Hsent) & Hnew & HnewA).
  assert (∀ w, w ∈ newA ++ e_applyWaiters (lp_engine l) → aw_resultCh w = ch → aw_index w = index) as HoneA.
  { intros w [Hx%HnewA|Hx]%elem_of_app Hc; [|by apply Hone]. rewrite Hc in Hx. by destruct (Hdis ch). }
  split; [split|].
  - intros w [Hx%Hnew|Hx]%Hwait%elem_of_app Hc; [|by apply (Hnone w)]. rewrite Hc in Hx. by apply (Hdis ch).
  - intros w Hx%Happly. by apply HoneA.
  - intros r Hx. destruct (decide ((ch, r) ∈ e_sent (lp_engine l))) as [|Hn]; [by left|right].
    intros ->. apply Hsent in Hx as [?|[(_ & _ & w & Hx & Hc & _)|(w & Hx & Hc & Hi)]];
      [done|by destruct (Hnone w Hx)|by rewrite <-(HoneA w Hx Hc)].
Qed.

(** A wait for an applied index is answered nil only once the index is applied. *)
Lemma wait_answered w now d d' after l0 :
  let l1 := act (Select (ApplyWait w) now d d') l0 in
  accounted l0 → lp_stopped l0 = false → e_fatal (lp_engine l0) = None → NoDup (lp_asked (run after l1)) →
  (aw_resultCh w, RErr None) ∈ e_sent (lp_engine (run after l1)) →
  ∃ reached rest, after = reached ++ rest ∧ aw_index w ≤ rn_LastApplied (e_node (lp_engine (run reached l1))).
Proof.
  intros l1 Hacc Hrun Hf Hnd Hsent.
  assert (NoDup (lp_asked l1)) as Hnd1 by exact (run_NoDup after _ Hnd).
  destruct (request_fresh (ApplyWait w) now d d' _ _ l0 Hacc Hrun Hf eq_refl Hnd1) as (_ & Hin & Hnew).
  apply fresh_requests in Hnew as (Hnw & _ & Hna & Hns).
  assert (lp_engine l1 = handleApplyWait w (lp_engine l0)) as He1.
  { unfold l1, act. rewrite Hf, Hrun. cbv iota. by rewrite bool_decide_false by (intros Hn; by apply Hn). }
  assert (sole_wait (aw_resultCh w) (aw_index w) l1 ∧
    ∀ r, (aw_resultCh w, r) ∈ e_sent (lp_engine l1) → aw_index w ≤ rn_LastApplied (e_node (lp_engine l1))) as [Hsole Hbase].
  { rewrite He1. unfold sole_wait. rewrite He1. unfold handleApplyWait, CommitAndApplyBoundary.
    destruct (Z.leb_spec (aw_index w) (rn_LastApplied (e_node (lp_engine l0)))); simpl; (split; [split; [done|]|]).
    - intros w' Hx Hc. by destruct (Hna w' Hx).
    - done.
    - intros w' [Hx|Hx]%elem_of_app Hc; [by destruct (Hna w' Hx)|]. by apply list_elem_of_singleton in Hx as ->.
    - rewrite app_nil_r. intros r Hx. by destruct (Hns r). }
  destruct (run_watch (λ _ _, True) (aw_resultCh w) (sole_wait (aw_resultCh w) (aw_index w))
    (λ r _ e, r = RErr None → aw_index w ≤ rn_LastApplied (e_node e))
    (λ a l _, act_sole_wait _ _ a l) after l1) as [_ Hs]; [done..|].
  destruct (Hs _ Hsent) as [Hx|(acts1 & a & acts2 & -> & Hx)].
  - exists [], after. split; [done|]. by eapply Hbase.
  - exists (acts1 ++ [a]), acts2. rewrite <-app_assoc. split; [done|]. rewrite run_app. by apply Hx.
Qed.

(** ** Runs within the limits *)

Context (L : limits S) (HL : campaign_limits L) (Hsound : limits_le L sound_limits).

Lemma move_held t i entry c c' : replica_inv c → move L c c' → held t i entry c.1.1 c.1.2 → held t i entry c'.1.1 c'.1.2.
Proof.
  intros [Hn Hwf] Hm Hheld. pose proof (ps_le_term _ _ (proj1 (proj2 (move_evolves L c c' HL Hm)))) as Hle.
  destruct Hm as [n rl m t' leader r n' Hcall|n rl m now r n' Ht Hcall|n rl m voter t' won n' Hcall
    |n rl m t' k b n' Hcall|n rl m r n' Hcall|n rl m en cmd m' Hlt|n rl m|n rl m p k Hk|n rl m p k
    |n rl m req now resp n' Hcall|n rl m req now resp n' rl' Ht Hcall
    |n rl m req path now resp n' rl' m' Ht Hcall|n rl m cmd t' r rl' Ht Hcall|n rl m r rl' Ht Hcall|n rl m os];
    simpl in *.
  - eapply held_node; [done| |done]. by eapply quiet_steady, becomeFollower_quiet.
  - eapply held_node; [done| |done]. apply HL in Ht as [??]. by eapply BecomeCandidate_steady.
  - eapply held_node; [done| |done]. right. left. unfold RecordVoteAndCheckMajority in Hcall.
    by case_match; injection Hcall as _ <-.
  - by eapply held_promote.
  - eapply held_node; [done| |done]. right. left. unfold AdvanceCommitIndex in Hcall.
    by repeat case_match; injection Hcall as _ <-.
  - eapply held_node; [done| |done]. right. by left.
  - done.
  - eapply held_node; [done| |done]. right. left. unfold UpdatePeerProgress. by case_match.
  - eapply held_node; [done| |done]. right. by left.
  - eapply held_node; [done| |done]. by eapply quiet_steady, HandleRequestVote_quiet.
  - destruct (HandleAppendEntries_log _ _ _ _ _ _ _ Hcall) as [Hf| ->]; [by eapply held_follower|].
    eapply held_node; [done| |done]. apply HandleAppendEntries_ok in Hcall as [_ ?]. by apply quiet_steady.
  - destruct (HandleInstallSnapshot_log _ _ _ _ _ _ _ _ _ _ _ Hcall) as [Hf| ->]; [by eapply held_follower|].
    eapply held_node; [done| |done]. apply HandleInstallSnapshot_ok in Hcall as [_ ?]. by apply quiet_steady.
  - eapply held_log; [|done]. intros x. eapply AppendLeader_stored; [done| |done]. by apply Hsound in Ht.
  - eapply held_log; [|done]. intros x. destruct Hn. eapply Truncate_stored; try done. unfold int64. lia.
  - by eapply held_log.
Qed.

(** Everything [replica_inv] and [held] say is kept by every action. *)
Lemma moves_held t i entry c c' :
  rtc (move L) c c' → replica_inv c → held t i entry c.1.1 c.1.2 →
  replica_inv c' ∧ held t i entry c'.1.1 c'.1.2.
Proof.
  induction 1 as [c|c1 c2 c3 Hm1 Hm2 IH]; intros Hinv Hh; [done|].
  apply IH; [|by eapply move_held]. by eapply simulate_move, move_mono.
Qed.

(** The proposal appended at [i] in term [t] is the one request pending on [ch], and
    its entry is where it was put. *)
Definition sole_write (ch : nat) (t i : Z) (entry : LogEntry) l : Prop :=
  let e := lp_engine l in
  replica_inv (core e) ∧ held t i entry (e_node e) (e_raftLog e) ∧
  (∀ w, w ∈ e_waiters e → w_resultCh w = ch → w_index w = i ∧ w_term w = t) ∧
  (∀ w, w ∈ e_applyWaiters e → aw_resultCh w ≠ ch).

(** What an acknowledgement promises, in the states around the tick that sent it. *)
Definition honest_write (t i : Z) (entry : LogEntry) (r : reply) e e' : Prop :=
  r = RErr None → rn_Role (e_node e) = Leader ∧ rn_term (e_node e) = t ∧
    stored_at (e_raftLog e) i entry ∧ rn_term (e_node e') = t ∧ i ≤ rn_CommitIndex (e_node e').

Lemma act_sole_write ch t i entry a l :
  within L a l → ch ∈ lp_asked l → NoDup (lp_asked (act a l)) → sole_write ch t i entry l →
  sole_write ch t i entry (act a l) ∧ ∀ r, (ch, r) ∈ e_sent (lp_engine (act a l)) →
    (ch, r) ∈ e_sent (lp_engine l) ∨ honest_write t i entry r (lp_engine l) (lp_engine (act a l)).
Proof.
  intros Hw Hin Hnd (Hinv & Hheld & Hone & Hnone). destruct (act_exchange a l) as [_ Ha]. rewrite Ha in Hnd.
  apply NoDup_app in Hnd as (_ & Hdis & _).
  destruct (act_grants a l) as (new & newA & (Hwait & Happly & Hsent) & Hnew & HnewA).
  destruct (moves_held t i entry _ _ (act_moves L a l Hw) Hinv Hheld) as [Hinv' Hheld'].
  assert (∀ w, w ∈ newA ++ e_applyWaiters (lp_engine l) → aw_resultCh w ≠ ch) as HnoneA.
  { intros w [Hx%HnewA|Hx]%elem_of_app Hc; [|by apply (Hnone w)]. rewrite Hc in Hx. by apply (Hdis ch). }
  split; [split_and!; [done..| |]|].
  - intros w Hx%Hwait Hc. apply elem_of_app in Hx as [Hx%Hnew|Hx]; [|by apply Hone].
    rewrite Hc in Hx. by destruct (Hdis ch).
  - intros w Hx%Happly. by apply HnoneA.
  - intros r Hx. destruct (decide ((ch, r) ∈ e_sent (lp_engine l))) as [|Hn]; [by left|right].
    intros ->. apply Hsent in Hx as [?|[(Hl & Ht & w & Hx & Hc & Hwt & Hi)|(w & Hx & Hc & _)]];
      [done| |by destruct (HnoneA w Hx)].
    destruct (Hone w Hx Hc) as [<- <-]. destruct Hheld as [_ Hh]. destruct (Hh (eq_sym Hwt)) as [_ Hs].
    split_and!; [done|done|by apply Hs|congruence|done].
Qed.

Lemma run_replica acts l :
  run_within L acts l → replica_inv (core (lp_engine l)) → replica_inv (core (lp_engine (run acts l))).
Proof.
  intros Hin%run_moves Hinv. eapply simulate_moves; [|exact Hinv].
  eapply rtc_subrel; [|exact Hin]. intros c c'. by apply move_mono.
Qed.

(** What a leader does with a proposal it appends. *)
Lemma proposal_appended cmd ch now e :
  log_wf (e_raftLog e) → rl_nextIndex (e_raftLog e) < MaxInt64 →
  let stamped := mkCommand (cmd_Op cmd) (cmd_Key cmd) (cmd_Value cmd) (cmd_ClientID cmd) (cmd_Seq cmd) now in
  let entry := mkLogEntry (rl_nextIndex (e_raftLog e)) (rn_term (e_node e)) (Marshal stamped) in
  let e' := handleProposal cmd ch now e in
  e_applyWaiters e' = e_applyWaiters e ∧ e_node e' = e_node e ∧
  (∀ c, (c, RErr None) ∈ e_sent e' → (c, RErr None) ∈ e_sent e) ∧
  (e_waiters e' = e_waiters e ∨
   rn_Role (e_node e) = Leader ∧ entry_at (e_raftLog e') (le_Index entry) = Some entry ∧
   e_waiters e' = e_waiters e ++ [mkWaiter (le_Index entry) (le_Term entry) ch (now + proposalTimeout)]).
Proof.
  intros Hwf Hmax. cbv zeta. unfold handleProposal, proposal_append, EncodeCommand, IsLeader.
  destruct (decide (rn_Role (e_node e) = Leader)) as [Hl|Hl].
  2:{ rewrite bool_decide_false by done. simpl. split_and!; [done..| |by left].
      intros c [?|Hin]%elem_of_app; [done|]. by apply list_elem_of_singleton in Hin. }
  rewrite bool_decide_true by done. cbn [negb].
  match goal with |- context [AppendLeader ?d ?t ?rl] => pose proof (AppendLeader_spec rl d t Hwf Hmax) as Hs;
    destruct (AppendLeader d t rl) as [[en|er] rl'] end; simpl.
  - destruct Hs as (-> & Hc & Hf & _ & _ & _). split_and!; [done..|by intros c; rewrite app_nil_r|].
    right. split_and!; [done| |done]. destruct Hwf as [[Hf0 _ _ _] Hn]. unfold entry_at, cache_len in *.
    rewrite Hc, Hf, decide_True by lia. rewrite Hn, lookup_app_r by lia.
    by replace (Z.to_nat _ - _)%nat with 0%nat by lia.
  - split_and!; [done..| |by left]. intros c [?|Hin]%elem_of_app; [done|]. by apply list_elem_of_singleton in Hin.
Qed.

(** A nil on the proposal's channel, traced to the tick that sent it. *)
Lemma write_watched ch t i entry after l1 :
  run_within L after l1 → ch ∈ lp_asked l1 → NoDup (lp_asked (run after l1)) →
  sole_write ch t i entry l1 → (ch, RErr None) ∉ e_sent (lp_engine l1) →
  (ch, RErr None) ∈ e_sent (lp_engine (run after l1)) →
  ∃ acts1 a acts2, after = acts1 ++ a :: acts2 ∧
    honest_write t i entry (RErr None) (lp_engine (run acts1 l1)) (lp_engine (act a (run acts1 l1))).
Proof.
  intros Hw Hin Hnd Hsole Hns Hsent.
  destruct (run_watch (within L) ch (sole_write ch t i entry) (honest_write t i entry)
    (act_sole_write ch t i entry) after l1) as [_ Hs]; [by apply run_within_along|done..|].
  by destruct (Hs _ Hsent).
Qed.

(** Without a proposal of its own on the channel, there is none. *)
Lemma no_write_watched ch after l1 :
  run_within L after l1 → ch ∈ lp_asked l1 → NoDup (lp_asked (run after l1)) →
  replica_inv (core (lp_engine l1)) → (ch, RErr None) ∉ e_sent (lp_engine l1) →
  (∀ w, w ∈ e_waiters (lp_engine l1) → w_resultCh w ≠ ch) →
  (∀ w, w ∈ e_applyWaiters (lp_engine l1) → aw_resultCh w ≠ ch) →
  (ch, RErr None) ∉ e_sent (lp_engine (run after l1)).
Proof.
  intros Hw Hin Hnd Hinv Hns Hnw Hna Hsent.
  set (t := rn_term (e_node (lp_engine l1)) - 1).
  destruct (write_watched ch t 0 (mkLogEntry 0 0 []) after l1) as (acts1 & a & acts2 & -> & Hh); [done..| |done|done|].
  { split_and!; [done|split; lia| |done]. intros w Hx Hc. by destruct (Hnw w Hx). }
  destruct (Hh eq_refl) as (_ & Ht & _). apply run_within_app in Hw as [Hw1 _].
  pose proof (moves_evolve L _ _ HL (run_moves L acts1 l1 Hw1)) as (_ & Hp & _).
  apply ps_le_term in Hp. unfold t, rn_term in *. lia.
Qed.

(** C7: an acknowledged write is committed. Take any run of the loop within
    [sound_limits], in any order, result channels used once. If a proposal that came
    in at some point of it is answered nil, then this node was leader, appended the
    command, stamped with its clock, at the next index of its log in its term; and
    later, when the answer was sent, it was leader of the same term, its log still
    held exactly that entry at that index unless it had compacted it, and the commit
    index had reached it. [sound_limits]: the log has room; a batch that passes the
    consistency check starts at or above the boundary, is contiguous and meets no
    disk error; a snapshot is not older than what is applied
    ([snapshot_regresses_machine]), extends the log or is held by it
    ([ResetToSnapshot_stale_nextIndex]), and can be written once restored
    ([failed_install_diverges]). Handlers, RPCs and rounds run one at a time
    ([proposal_across_deposition] is a heartbeat between the two locks of
    handleProposal). *)
Theorem acknowledged_write (node : RaftNode S) (rl : RaftLog) (sm : MemoryStateMachine) (path : string)
    (draw : Z) (before after : list action) (cmd : Command) (ch : nat) (now d d' : Z) :
  let l0 := run before (start (NewWithTransport node rl sm path draw)) in
  let ask := Select (Propose cmd ch) now d d' in
  let l1 := act ask l0 in
  let l := run after l1 in
  node_bounds node → log_wf rl →
  run_within L (before ++ ask :: after) (start (NewWithTransport node rl sm path draw)) →
  lp_stopped l0 = false → e_fatal (lp_engine l0) = None → NoDup (lp_asked l) →
  (ch, RErr None) ∈ e_sent (lp_engine l) →
  let e0 := lp_engine l0 in
  ∃ data, EncodeCommand (mkCommand (cmd_Op cmd) (cmd_Key cmd) (cmd_Value cmd) (cmd_ClientID cmd) (cmd_Seq cmd) now)
      = Ok data ∧
    let entry := mkLogEntry (rl_nextIndex (e_raftLog e0)) (rn_term (e_node e0)) data in
    rn_Role (e_node e0) = Leader ∧ entry_at (e_raftLog (lp_engine l1)) (le_Index entry) = Some entry ∧
    ∃ acts1 a acts2, after = acts1 ++ a :: acts2 ∧
      let e := lp_engine (run acts1 l1) in
      rn_Role (e_node e) = Leader ∧ rn_term (e_node e) = le_Term entry ∧
      stored_at (e_raftLog e) (le_Index entry) entry ∧
      le_Index entry ≤ rn_CommitIndex (e_node (lp_engine (act a (run acts1 l1)))).
Proof.
  intros l0 ask l1 l Hb Hwf Hw Hrun Hf Hnd Hsent e0.
  apply run_within_app in Hw as [Hw0 [Hask Hw]].
  set (s := start (NewWithTransport node rl sm path draw)) in *.
  assert (replica_inv (core e0)) as Hinv0 by (apply (run_replica before s Hw0); split; [by destruct Hb|done]).
  assert (replica_inv (core (lp_engine l1))) as Hinv1 by exact (run_replica [ask] l0 (conj Hask I) Hinv0).
  assert (accounted l0) as Hacc by apply run_accounted, start_accounted.
  assert (NoDup (lp_asked l1)) as Hnd1 by exact (run_NoDup after _ Hnd).
  destruct (request_fresh (Propose cmd ch) now d d' ch _ l0 Hacc Hrun Hf eq_refl Hnd1) as (_ & Hin & Hnew).
  apply fresh_requests in Hnew as (Hnw & _ & Hna & Hns). fold e0 in Hnw, Hna, Hns.
  assert (lp_engine l1 = handleProposal cmd ch now e0) as He1.
  { unfold l1, act, ask. rewrite Hf, Hrun. cbv iota.
    by rewrite bool_decide_false by (intros Hn; by apply Hn). }
  destruct (proposal_appended cmd ch now e0) as (Ha & Hn & Hs1 & Hcase); [apply Hinv0|by apply Hsound, Hask|].
  rewrite <-He1 in Ha, Hn, Hs1, Hcase. rewrite <-Ha in Hna.
  assert ((ch, RErr None) ∉ e_sent (lp_engine l1)) as Hns1 by (intros Hx%Hs1; by apply (Hns (RErr None))).
  destruct Hcase as [Hsame|(Hlead & Hentry & Hwaiters)].
  { rewrite <-Hsame in Hnw. by destruct (no_write_watched ch after l1). }
  eexists. split; [reflexivity|]. cbn [le_Index le_Term] in *. split; [done|]. split; [exact Hentry|].
  set (entry := mkLogEntry _ _ _) in *.
  destruct (write_watched ch (rn_term (e_node e0)) (rl_nextIndex (e_raftLog e0)) entry after l1)
    as (acts1 & a & acts2 & -> & Hh); [done..| |done|done|].
  - split_and!; [done| | |done].
    + rewrite Hn. split; [done|]. intros _. rewrite Hlead. split; [done|]. intros _. by left.
    + rewrite Hwaiters. intros w [Hx|Hx]%elem_of_app Hc; [by destruct (Hnw w Hx)|].
      by apply list_elem_of_singleton in Hx as ->.
  - destruct (Hh eq_refl) as (? & ? & ? & ? & ?). by exists acts1, a, acts2.
Qed.

End Writes.
