(* ===== verification/EngineFloor.v ===== *)
(** * The floor of a leader's reads

    [noopIndex] is set by a promotion and by nothing else: while a server leads, it is
    the index of the no-op it appended when it was promoted, or 0 if that append
    failed.  One lemma per handler, then one for every action of a run. *)

From S2P Require Import Prelude Configuration Os Json Types Encoding RaftLog RaftLogFacts RaftNode RaftNodeFacts RaftNodeRoles StateMachine Snapshot Replicator Engine EngineLoop EngineFacts EngineRun EngineFrame EngineChannels EngineMoves EngineBounds EngineReplica EngineReads EngineWrites.

Section Floor.
Context {S : Type} `{StateStoreLaws S} `{Codec LogEntry} `{Codec Command}.
Implicit Types (e : Engine S) (l : Loop S) (n : RaftNode S).

(** ** Handlers that promote nobody *)

(** Whoever leads afterwards led before, in the same term and with the same floor. *)
Definition abides e e' : Prop :=
  keeps_leader (e_node e) (e_node e') ∧ e_noopIndex e' = e_noopIndex e.

#[export] Instance abides_preorder : PreOrder abides.
Proof.
  split; [by split|]. intros e1 e2 e3 [H12 N12] [H23 N23]. split; [by transitivity (e_node e2)|congruence].
Qed.

Lemma abides_same e e' : e_node e' = e_node e → e_noopIndex e' = e_noopIndex e → abides e e'.
Proof. intros Hn Hi. split; [by rewrite Hn|done]. Qed.

Lemma abides_node n e : keeps_leader (e_node e) n → abides e (with_node n e).
Proof. by split. Qed.

Lemma follow_abides t leader r n e : BecomeFollower t leader (e_node e) = (r, n) → abides e (with_node n e).
Proof. intros Hb. by eapply abides_node, quiet_keeps, becomeFollower_quiet. Qed.

Lemma stopReplicators_abides e : abides e (stopReplicators e).
Proof. unfold stopReplicators. case_decide; by apply abides_same. Qed.

Lemma startReplicators_abides e : abides e (startReplicators e).
Proof. unfold startReplicators. case_match; [done|]. etransitivity; [apply stopReplicators_abides|by apply abides_same]. Qed.

Lemma fireCommittedWaiters_abides c t e : abides e (fireCommittedWaiters c t e).
Proof. unfold fireCommittedWaiters. case_match. by apply abides_same. Qed.

Lemma fireReadWaiters_abides e : abides e (fireReadWaiters e).
Proof. unfold fireReadWaiters. case_match. by apply abides_same. Qed.

Lemma abandon_abides e : abides e (abandon e).
Proof. unfold abandon. etransitivity; [apply stopReplicators_abides|by apply abides_same]. Qed.

Lemma handleStepDown_abides t e : abides e (handleStepDown t e).
Proof.
  unfold handleStepDown. case_match; [done|]. destruct (BecomeFollower t 0 (e_node e)) as [r n] eqn:Hb.
  etransitivity; [by eapply follow_abides|apply abandon_abides].
Qed.

Lemma reconcileLeadership_abides e : abides e (reconcileLeadership e).
Proof.
  unfold reconcileLeadership, State. case_bool_decide.
  - case_decide; [by apply abides_same|]. etransitivity; [apply stopReplicators_abides|by apply abides_same].
  - match goal with |- context [if ?b then _ else _] => destruct b end; [apply startReplicators_abides|done].
Qed.

Lemma checkQuorum_abides now e : abides e (checkQuorum now e).
Proof.
  unfold checkQuorum. case_decide; [done|]. case_match; [by apply abides_same|].
  destruct (BecomeFollower _ 0 (e_node e)) as [[u|er] n] eqn:Hb; [|by eapply follow_abides].
  etransitivity; [by eapply follow_abides|apply abandon_abides].
Qed.

Lemma applyCommitted_abides e : abides e (applyCommitted e).
Proof.
  unfold applyCommitted, CommitAndApplyBoundary.
  generalize (rn_CommitIndex (e_node e)), (Z.to_nat (rn_CommitIndex (e_node e) - rn_LastApplied (e_node e))).
  intros c fuel. generalize (rn_LastApplied (e_node e)). revert e.
  induction fuel as [|fuel IH]; intros e a; simpl; [done|].
  destruct (apply_one a c e) as [[a' e']|] eqn:Ha; [|done].
  assert (abides e e') as Hab.
  { unfold apply_one, apply_entry, apply_advance in Ha. repeat (case_match; simplify_eq/=); by split. }
  destruct (e_fatal e'); [done|]. etransitivity; [exact Hab|apply IH].
Qed.

Lemma maybeCompact_abides e : abides e (maybeCompact e).
Proof.
  unfold maybeCompact, compact, CommitAndApplyBoundary. case_match; [|done]. destruct (_ =? 0); [done|].
  destruct (on_disk _ _) as [[u|er] rl]; by apply abides_same.
Qed.

Lemma tick_end_abides now e : abides e (tick_end now e).
Proof.
  unfold tick_end. etransitivity; [|apply abides_same].
  - instantiate (1 := if IsLeader (e_node e) then checkQuorum now e else e). case_match; [apply checkQuorum_abides|done].
  - unfold sweepExpiredWaiters, sweepExpiredReads, sweepExpiredApplyWaiters. by rewrite !reply_to_spec.
  - unfold sweepExpiredWaiters, sweepExpiredReads, sweepExpiredApplyWaiters. by rewrite !reply_to_spec.
Qed.

Lemma tick_rest_abides now e : abides e (tick_rest now e).
Proof.
  destruct (tick_rest_closed holds_reads now e) as (_ & _ & ->).
  destruct (e_fatal (applyCommitted e)); [apply applyCommitted_abides|].
  etransitivity; [apply applyCommitted_abides|]. etransitivity; [apply maybeCompact_abides|].
  etransitivity; [apply fireReadWaiters_abides|]. etransitivity; [|apply tick_end_abides].
  unfold fireApplyWaiters, CommitAndApplyBoundary. case_match. by apply abides_same.
Qed.

(** ** Promotions *)

(** The no-op is next in the log, in the new term, or the append failed. *)
Definition founded e e' : Prop :=
  e_noopIndex e' = 0 ∨
  ∃ x, le_Term x = rn_term (e_node e') ∧ e_noopIndex e' = rl_nextIndex (e_raftLog e) ∧
    stored_at (e_raftLog e') (e_noopIndex e') x ∧ rn_CommitIndex (e_node e') = rn_CommitIndex (e_node e).

Definition rests e e' : Prop := abides e e' ∨ founded e e'.

(** Nothing a promotion depends on has changed. *)
Definition level e e' : Prop :=
  abides e e' ∧ e_raftLog e' = e_raftLog e ∧ rn_CommitIndex (e_node e') = rn_CommitIndex (e_node e).

Lemma level_rests e e1 e' : level e e1 → rests e1 e' → rests e e'.
Proof.
  intros (Ha & Hl & Hc) [Hr|[Hr|(x & Ht & Hn & Hs & Hci)]]; [left; by transitivity e1|right; by left|].
  right. right. exists x. rewrite <-Hl, <-Hc. done.
Qed.

Lemma becomeLeader_rests t i now e :
  log_wf (e_raftLog e) → rl_nextIndex (e_raftLog e) < MaxInt64 → rests e (becomeLeader t i now e).
Proof.
  intros Hwf Hroom. unfold becomeLeader.
  destruct (BecomeLeader t i (e_node e)) as [b n] eqn:Hb.
  assert (if b then rn_term n = t ∧ rn_CommitIndex n = rn_CommitIndex (e_node e) else n = e_node e) as Hn.
  { revert Hb. unfold BecomeLeader. case_bool_decide; simpl; [by intros [= <- <-]|].
    destruct (Z.eqb_spec (CurrentTerm (rn_persistent (e_node e))) t) as [<-|]; simpl; by intros [= <- <-]. }
  destruct b; [|left; apply abides_same; [done|done]]. destruct Hn as [Ht Hc].
  assert (∀ e0, startReplicators e0 = e0 ∨ e_node (startReplicators e0) = e_node e0 ∧
    e_raftLog (startReplicators e0) = e_raftLog e0 ∧ e_noopIndex (startReplicators e0) = e_noopIndex e0) as Hsr.
  { intros e0. unfold startReplicators, stopReplicators. case_match; [by left|right]. by case_decide. }
  unfold EncodeCommand. set (e1 := with_noop 0 _). change (e_raftLog e1) with (e_raftLog e).
  assert (founded e e1) as Hf1 by by left.
  pose proof (AppendLeader_spec (e_raftLog e) (Marshal (noop_command now)) t Hwf Hroom) as Hs.
  destruct (AppendLeader _ t (e_raftLog e)) as [[entry|er] rl]; right.
  - destruct Hs as (-> & Hcache & Hfirst & _ & _ & Hwf'). simpl.
    set (e2 := with_noop _ _). assert (founded e e2) as Hf2.
    { right. exists (mkLogEntry (rl_nextIndex (e_raftLog e)) t (Marshal (noop_command now))). split_and!; try done.
      left. simpl. unfold entry_at. rewrite Hcache, Hfirst. destruct Hwf as [[Hf _ Hlow _] Hnext].
      rewrite Hnext. unfold cache_len. rewrite decide_True by lia.
      replace (Z.to_nat _) with (length (rl_cache (e_raftLog e))) by lia. by rewrite list_lookup_middle. }
    destruct (Hsr e2) as [->|(Hn2 & Hl2 & Hi2)]; [done|]. unfold founded in *. by rewrite Hn2, Hl2, Hi2.
  - left. destruct (Hsr (with_log rl e1)) as [->|(_ & _ & ->)]; done.
Qed.

Lemma runElection_rests now draw e :
  log_wf (e_raftLog e) → rl_nextIndex (e_raftLog e) < MaxInt64 → rests e (runElection now draw e).2.
Proof.
  intros Hwf Hroom. unfold runElection. destruct (BecomeCandidate now (e_node e)) as [r n] eqn:Hb.
  assert (rn_CommitIndex n = rn_CommitIndex (e_node e)) as Hc.
  { revert Hb. unfold BecomeCandidate. destruct (commitPersistentLocked _ _) as [[u|er] n1] eqn:Hc;
      apply commitPersistentLocked_inv in Hc as [(_ & _ & _ & Hx & _) _]; by intros [= _ <-]. }
  assert (level e (resetElectionTimeout draw (with_node n e))) as Hl.
  { split_and!; [|done|done]. by eapply abides_node, BecomeCandidate_keeps. }
  destruct r as [t|er]; [|left; apply Hl]. destruct (LastLogState _) as [li lt]. case_decide; [|left; apply Hl].
  eapply level_rests; [exact Hl|by apply becomeLeader_rests].
Qed.

Lemma startPreVote_rests now d d' e :
  log_wf (e_raftLog e) → rl_nextIndex (e_raftLog e) < MaxInt64 → rests e (startPreVote now d d' e).2.
Proof.
  intros Hwf Hroom. unfold startPreVote. destruct (LastLogState _). case_decide; [|left; by apply abides_same].
  eapply level_rests; [|by apply runElection_rests]. split_and!; [by apply abides_same|done|done].
Qed.

Lemma handlePreVoteResult_rests t v resp now d e :
  log_wf (e_raftLog e) → rl_nextIndex (e_raftLog e) < MaxInt64 → rests e (handlePreVoteResult t v resp now d e).2.
Proof.
  intros Hwf Hroom. unfold handlePreVoteResult, State. case_match; [by left|]. case_match; [by left|].
  destruct (rn_term (e_node e) <? pvr_Term resp).
  { destruct (BecomeFollower _ 0 (e_node e)) as [r n] eqn:Hb. left. etransitivity; [by eapply follow_abides|by apply abides_same]. }
  case_match; [by left|]. case_match; [|left; by apply abides_same].
  eapply level_rests; [|by apply runElection_rests]. split_and!; [by apply abides_same|done|done].
Qed.

Lemma handleVoteResult_rests t v resp now e :
  log_wf (e_raftLog e) → rl_nextIndex (e_raftLog e) < MaxInt64 → rests e (handleVoteResult t v resp now e).
Proof.
  intros Hwf Hroom. unfold handleVoteResult, State. case_match; [by left|].
  destruct (rn_term (e_node e) <? rvr_Term resp).
  { destruct (BecomeFollower _ 0 (e_node e)) as [r n] eqn:Hb. left. by eapply follow_abides. }
  case_match; [by left|]. destruct (RecordVoteAndCheckMajority v t (e_node e)) as [won n] eqn:Hr.
  assert (level e (with_node n e)) as Hl.
  { split_and!; [by eapply abides_node, RecordVote_keeps|done|].
    unfold RecordVoteAndCheckMajority in Hr. by case_match; injection Hr as _ <-. }
  destruct won; [|left; apply Hl]. eapply level_rests; [exact Hl|by apply becomeLeader_rests].
Qed.

(** The rest of a tick only compacts the log. *)
Lemma applyCommitted_log e : e_raftLog (applyCommitted e) = e_raftLog e.
Proof.
  unfold applyCommitted, CommitAndApplyBoundary.
  generalize (rn_CommitIndex (e_node e)), (Z.to_nat (rn_CommitIndex (e_node e) - rn_LastApplied (e_node e))).
  intros c fuel. generalize (rn_LastApplied (e_node e)). revert e.
  induction fuel as [|fuel IH]; intros e a; simpl; [done|].
  destruct (apply_one a c e) as [[a' e']|] eqn:Ha; [|done].
  assert (e_raftLog e' = e_raftLog e) as Hl
    by (unfold apply_one, apply_entry, apply_advance in Ha; repeat (case_match; simplify_eq/=); done).
  destruct (e_fatal e'); [done|]. by rewrite IH.
Qed.

Lemma applyCommitted_int64 e :
  int64 (rn_LastApplied (e_node e)) → int64 (rn_LastApplied (e_node (applyCommitted e))).
Proof.
  unfold applyCommitted, CommitAndApplyBoundary.
  generalize (rn_CommitIndex (e_node e)), (Z.to_nat (rn_CommitIndex (e_node e) - rn_LastApplied (e_node e))).
  intros c fuel. generalize (rn_LastApplied (e_node e)) at 2. revert e.
  induction fuel as [|fuel IH]; intros e a Hi; simpl; [done|].
  destruct (apply_one a c e) as [[a' e']|] eqn:Ha; [|done].
  assert (int64 (rn_LastApplied (e_node e'))) as Hi'.
  { unfold apply_one, apply_entry, apply_advance in Ha. repeat (case_match; simplify_eq/=); try done. apply i64_range. }
  destruct (e_fatal e'); [done|]. by apply IH.
Qed.

Lemma maybeCompact_stored e i x :
  log_wf (e_raftLog e) → int64 (rn_LastApplied (e_node e)) →
  stored_at (e_raftLog e) i x → stored_at (e_raftLog (maybeCompact e)) i x.
Proof.
  intros Hwf Hk Hs. unfold maybeCompact, compact, CommitAndApplyBoundary. case_match; [|done].
  set (k := rn_LastApplied (e_node e)) in *. destruct (Z.eqb_spec (TermAt (e_raftLog e) k) 0) as [|Hterm]; [done|].
  unfold on_disk. destruct (Write _ _ _ _) as [[u|er] os]; [|done]. simpl.
  destruct (TruncateBeforeIndex k (TermAt (e_raftLog e) k) (set_disk os (e_raftLog e))) as [r rl] eqn:Ht. simpl.
  assert (log_wf (set_disk os (e_raftLog e))) as Hwf' by by apply (logical_wf (e_raftLog e)).
  by apply (Truncate_stored (set_disk os (e_raftLog e)) r rl k i x Hwf' Hterm Hk Ht).
Qed.

Lemma tick_end_log now e : e_raftLog (tick_end now e) = e_raftLog e.
Proof.
  unfold tick_end, sweepExpiredWaiters, sweepExpiredReads, sweepExpiredApplyWaiters. rewrite !reply_to_spec. simpl.
  case_match; [|done]. unfold checkQuorum. case_decide; [done|]. case_match; [done|].
  destruct (BecomeFollower _ 0 (e_node e)) as [[u|er] n]; [|done].
  unfold abandon, failAllReads, failAllWaiters, stopReplicators. by case_decide.
Qed.

(** What the rest of a tick leaves: the boundary, and every entry not yet compacted. *)
Lemma tick_rest_stored now e i x :
  log_wf (e_raftLog e) → int64 (rn_LastApplied (e_node e)) →
  stored_at (e_raftLog e) i x → stored_at (e_raftLog (tick_rest now e)) i x.
Proof.
  intros Hwf Hk%applyCommitted_int64 Hs. destruct (tick_rest_closed holds_reads now e) as (_ & _ & ->).
  pose proof (applyCommitted_log e) as Hl. destruct (e_fatal (applyCommitted e)); [by rewrite Hl|].
  rewrite tick_end_log. unfold fireApplyWaiters, CommitAndApplyBoundary, fireReadWaiters. rewrite !reply_to_spec. simpl.
  apply maybeCompact_stored; rewrite ?Hl; done.
Qed.

Lemma tick_rest_rests now e e1 :
  log_wf (e_raftLog e1) → int64 (rn_LastApplied (e_node e1)) →
  rests e e1 → rests e (tick_rest now e1) ∨ rn_Role (e_node (tick_rest now e1)) ≠ Leader.
Proof.
  intros Hwf Hk Hr. pose proof (tick_rest_abides now e1) as [Hkeep Hnoop].
  destruct (decide (rn_Role (e_node (tick_rest now e1)) = Leader)) as [Hl|]; [left|by right].
  destruct (Hkeep Hl) as [_ Ht]. destruct (tick_rest_acks now e1) as (Hb & _). unfold boundary in Hb. injection Hb as _ Hc.
  destruct Hr as [Hr|[Hz|(x & Hx & Hn & Hs & Hci)]]; [left; by transitivity e1|right; left; congruence|].
  right. right. exists x. rewrite Hnoop, Hc, Ht. split_and!; [done|done| |done]. by apply tick_rest_stored.
Qed.

(** The part of a tick before that leaves the log well formed and applies nothing. *)
Definition fits e e' : Prop :=
  log_wf (e_raftLog e') ∧ rn_LastApplied (e_node e') = rn_LastApplied (e_node e).

Lemma becomeLeader_fits t i now e :
  log_wf (e_raftLog e) → rl_nextIndex (e_raftLog e) < MaxInt64 → fits e (becomeLeader t i now e).
Proof.
  intros Hwf Hroom. unfold becomeLeader, fits.
  destruct (BecomeLeader t i (e_node e)) as [b n] eqn:Hb.
  assert (rn_LastApplied n = rn_LastApplied (e_node e)) as Hn.
  { revert Hb. unfold BecomeLeader. by case_match; intros [= <- <-]. }
  destruct b; [|done]. unfold EncodeCommand. set (e1 := with_noop 0 _). change (e_raftLog e1) with (e_raftLog e).
  assert (∀ e0, e_node (startReplicators e0) = e_node e0 ∧ e_raftLog (startReplicators e0) = e_raftLog e0) as Hsr.
  { intros e0. unfold startReplicators, stopReplicators. case_match; [done|]. by case_decide. }
  pose proof (AppendLeader_spec (e_raftLog e) (Marshal (noop_command now)) t Hwf Hroom) as Hs.
  destruct (AppendLeader _ t (e_raftLog e)) as [[entry|er] rl].
  - destruct (Hsr (with_noop (le_Index entry) (with_log rl e1))) as [-> ->]. destruct Hs as (_ & _ & _ & _ & _ & Hwf'). done.
  - destruct (Hsr (with_log rl e1)) as [-> ->]. split; [by eapply logical_wf|done].
Qed.

Lemma startPreVote_fits now d d' e :
  log_wf (e_raftLog e) → rl_nextIndex (e_raftLog e) < MaxInt64 → fits e (startPreVote now d d' e).2.
Proof.
  intros Hwf Hroom. unfold startPreVote, runElection. destruct (LastLogState _) as [li lt]. case_decide; [|done].
  destruct (BecomeCandidate now _) as [r n] eqn:Hb.
  assert (rn_LastApplied n = rn_LastApplied (e_node e)) as Hn.
  { revert Hb. unfold BecomeCandidate. destruct (commitPersistentLocked _ _) as [[u|er] n1] eqn:Hc;
      apply commitPersistentLocked_inv in Hc as [(_ & _ & _ & _ & Hx & _) _]; by intros [= _ <-]. }
  destruct r as [t|er]; [|done]. destruct (LastLogState _) as [li' lt']. case_decide; [|done].
  destruct (becomeLeader_fits t li' now (resetElectionTimeout d' (with_node n (resetElectionTimeout d e))) Hwf Hroom) as [? Hap].
  split; [done|]. simpl in *. congruence.
Qed.

(** ** Every action *)

Lemma onTick_rests now d d' e :
  log_wf (e_raftLog e) → rl_nextIndex (e_raftLog e) < MaxInt64 → int64 (rn_LastApplied (e_node e)) →
  rests e (onTick now d d' e).2 ∨ rn_Role (e_node (onTick now d d' e).2) ≠ Leader.
Proof.
  intros Hwf Hroom Hk. unfold onTick. set (er := reconcileLeadership e).
  assert (level e er) as Hl.
  { split_and!; [apply reconcileLeadership_abides|apply reconcileLeadership_log|unfold er; by rewrite reconcileLeadership_node]. }
  pose proof (reconcileLeadership_log e) as Hlog. pose proof (reconcileLeadership_node e) as Hnode. fold er in Hlog, Hnode.
  rewrite <-Hlog in Hwf, Hroom. rewrite <-Hnode in Hk.
  unfold tick_role, State. case_bool_decide.
  - destruct (AdvanceCommitIndex _ _ _ _) as [r n] eqn:Ha. left. left. simpl.
    etransitivity; [apply Hl|]. etransitivity; [by eapply abides_node, AdvanceCommitIndex_keeps|].
    etransitivity; [apply fireCommittedWaiters_abides|apply tick_rest_abides].
  - destruct (_ <=? _).
    + pose proof (startPreVote_rests now d d' er Hwf Hroom) as Hr. pose proof (startPreVote_fits now d d' er Hwf Hroom) as [Hwf' Ha].
      destruct (startPreVote now d d' er) as [out e1]. simpl in *.
      apply tick_rest_rests; [done|by rewrite Ha|by eapply level_rests].
    + left. left. simpl. etransitivity; [apply Hl|apply tick_rest_abides].
Qed.

Lemma select_arm_rests ev now d d' e :
  log_wf (e_raftLog e) → rl_nextIndex (e_raftLog e) < MaxInt64 → int64 (rn_LastApplied (e_node e)) →
  rests e (select_arm ev now d d' e).2 ∨ rn_Role (e_node (select_arm ev now d d' e).2) ≠ Leader.
Proof.
  intros Hwf Hroom Hk. destruct ev as [|cmd ch|t|t v resp|t v resp|p seq|ch aw|w|]; simpl.
  - left. left. unfold shutdown. etransitivity; [|apply stopReplicators_abides]. by apply abides_same.
  - left. left. unfold handleProposal, proposal_append, EncodeCommand. case_match; [by apply abides_same|].
    destruct (AppendLeader _ _ (e_raftLog e)) as [[entry|er] rl]; by apply abides_same.
  - left. left. apply handleStepDown_abides.
  - left. by apply handlePreVoteResult_rests.
  - left. by apply handleVoteResult_rests.
  - left. left. unfold handleAck. etransitivity; [|apply fireReadWaiters_abides]. by apply abides_same.
  - left. left. unfold handleRead, State, CommitAndApplyBoundary. case_bool_decide; [by apply abides_same|].
    etransitivity; [|apply fireReadWaiters_abides]. by apply abides_same.
  - left. left. unfold handleApplyWait, CommitAndApplyBoundary. case_match; by apply abides_same.
  - by apply onTick_rests.
Qed.

Lemma reply_progress_keeps p r n : keeps_leader n (reply_progress p r n).2.
Proof.
  unfold reply_progress, append_reply, snapshot_reply.
  repeat (case_match; simplify_eq/=); try done; try apply UpdatePeerProgress_keeps; by intros Hl.
Qed.

(** A server that leads after an action led before it, in the same term and with the
    same floor, or was promoted by it. *)
Lemma act_rests a l :
  let e := lp_engine l in
  log_wf (e_raftLog e) → rl_nextIndex (e_raftLog e) < MaxInt64 → int64 (rn_LastApplied (e_node e)) →
  rests e (lp_engine (act a l)) ∨ rn_Role (e_node (lp_engine (act a l))) ≠ Leader.
Proof.
  intros e Hwf Hroom Hk. assert (rests e e) as Hrefl by by left. unfold act. fold e.
  destruct (e_fatal e); [by left|].
  destruct a as [ev now d d'|req now|req now|req now|p|rd r]; cbn [lp_engine].
  - case_match; [by left|]. by apply select_arm_rests.
  - left. left. unfold EngineHandleAppendEntries.
    destruct (HandleAppendEntries _ req now _) as [[resp n] rl] eqn:Hh. simpl.
    transitivity (with_node n e); [|by apply abides_same]. apply HandleAppendEntries_ok in Hh as [_ ?]. by apply abides_node, quiet_keeps.
  - left. left. unfold EngineHandleRequestVote. destruct (HandleRequestVote req _ now _) as [resp n] eqn:Hh. simpl.
    apply HandleRequestVote_quiet in Hh. by apply abides_node, quiet_keeps.
  - left. left. unfold EngineHandleInstallSnapshot.
    destruct (HandleInstallSnapshot _ req _ _ now _ _) as [[[resp n] rl] m] eqn:Hh. simpl.
    transitivity (with_node n e); [|by apply abides_same]. apply HandleInstallSnapshot_ok in Hh as [_ ?]. by apply abides_node, quiet_keeps.
  - case_match; [|by left]. left. left. by apply abides_same.
  - case_decide; [|by left]. pose proof (reply_progress_keeps (rd_peer rd) r (e_node e)) as Hkeep.
    destruct (reply_progress _ r _) as [t n]. left. left. by apply abides_node.
Qed.

End Floor.
