(* ===== verification/EngineMachine.v ===== *)
(** * What an action does to the state machine

    Two things change the state machine and the applied index: a tick, which executes
    the committed entries after the index, and a snapshot that is installed.  One
    lemma per handler for what does not, then one for every action of a run. *)

From S2P Require Import Prelude Configuration Os Json Types Encoding RaftLog RaftLogFacts RaftNode RaftNodeFacts StateMachine Snapshot Replicator Engine EngineLoop EngineFacts EngineRun EngineFrame EngineChannels EngineMoves EngineBounds EngineReplica EngineReads EngineWrites EngineFloor.

Section Machine.
Context {S : Type} `{StateStoreLaws S} `{Codec LogEntry} `{Codec Command}.
Implicit Types (e : Engine S) (l : Loop S) (n : RaftNode S).

(** ** Handlers that execute nothing *)

Definition unmoved e e' : Prop :=
  e_stateMachine e' = e_stateMachine e ∧ rn_LastApplied (e_node e') = rn_LastApplied (e_node e).

#[export] Instance unmoved_preorder : PreOrder unmoved.
Proof. split; [by split|]. intros e1 e2 e3 [H12 N12] [H23 N23]. split; congruence. Qed.

Lemma unmoved_same e e' : e_stateMachine e' = e_stateMachine e → e_node e' = e_node e → unmoved e e'.
Proof. intros Hm Hn. split; [done|by rewrite Hn]. Qed.

Lemma follow_unmoved t leader r n e : BecomeFollower t leader (e_node e) = (r, n) → unmoved e (with_node n e).
Proof. intros Hb. split; [done|]. by apply becomeFollower_applied in Hb. Qed.

Lemma stopReplicators_unmoved e : unmoved e (stopReplicators e).
Proof. unfold stopReplicators. case_decide; by apply unmoved_same. Qed.

Lemma startReplicators_unmoved e : unmoved e (startReplicators e).
Proof. unfold startReplicators. case_match; [done|]. etransitivity; [apply stopReplicators_unmoved|by apply unmoved_same]. Qed.

Lemma fireCommittedWaiters_unmoved c t e : unmoved e (fireCommittedWaiters c t e).
Proof. unfold fireCommittedWaiters. case_match. by apply unmoved_same. Qed.

Lemma fireReadWaiters_unmoved e : unmoved e (fireReadWaiters e).
Proof. unfold fireReadWaiters. case_match. by apply unmoved_same. Qed.

Lemma fireApplyWaiters_unmoved e : unmoved e (fireApplyWaiters e).
Proof. unfold fireApplyWaiters, CommitAndApplyBoundary. case_match. by apply unmoved_same. Qed.

Lemma abandon_unmoved e : unmoved e (abandon e).
Proof. unfold abandon. etransitivity; [apply stopReplicators_unmoved|by apply unmoved_same]. Qed.

Lemma handleStepDown_unmoved t e : unmoved e (handleStepDown t e).
Proof.
  unfold handleStepDown. case_match; [done|]. destruct (BecomeFollower t 0 (e_node e)) as [r n] eqn:Hb.
  etransitivity; [by eapply follow_unmoved|apply abandon_unmoved].
Qed.

Lemma reconcileLeadership_unmoved e : unmoved e (reconcileLeadership e).
Proof.
  unfold reconcileLeadership, State. case_bool_decide.
  - case_decide; [by apply unmoved_same|]. etransitivity; [apply stopReplicators_unmoved|by apply unmoved_same].
  - match goal with |- context [if ?b then _ else _] => destruct b end; [apply startReplicators_unmoved|done].
Qed.

Lemma checkQuorum_unmoved now e : unmoved e (checkQuorum now e).
Proof.
  unfold checkQuorum. case_decide; [done|]. case_match; [by apply unmoved_same|].
  destruct (BecomeFollower _ 0 (e_node e)) as [[u|er] n] eqn:Hb; [|by eapply follow_unmoved].
  etransitivity; [by eapply follow_unmoved|apply abandon_unmoved].
Qed.

Lemma becomeLeader_unmoved t i now e : unmoved e (becomeLeader t i now e).
Proof.
  unfold becomeLeader. destruct (BecomeLeader t i (e_node e)) as [b n] eqn:Hb.
  assert (rn_LastApplied n = rn_LastApplied (e_node e)) as Hn
    by (unfold BecomeLeader in Hb; by case_match; injection Hb as _ <-).
  destruct b; [|done]. unfold EncodeCommand.
  destruct (AppendLeader _ t _) as [[entry|er] rl];
    (etransitivity; [|apply startReplicators_unmoved]); by split.
Qed.

Lemma runElection_unmoved now draw e : unmoved e (runElection now draw e).2.
Proof.
  unfold runElection. destruct (BecomeCandidate now (e_node e)) as [r n] eqn:Hb.
  apply BecomeCandidate_bounds in Hb as (_ & Ha & _).
  assert (unmoved e (resetElectionTimeout draw (with_node n e))) as Hu by by split.
  destruct r as [t|er]; [|done]. destruct (LastLogState _). case_decide; [|done].
  etransitivity; [exact Hu|apply becomeLeader_unmoved].
Qed.

Lemma startPreVote_unmoved now d d' e : unmoved e (startPreVote now d d' e).2.
Proof.
  unfold startPreVote. destruct (LastLogState _). case_decide; simpl; [|by apply unmoved_same].
  etransitivity; [|apply runElection_unmoved]. by apply unmoved_same.
Qed.

Lemma handlePreVoteResult_unmoved t v resp now d e : unmoved e (handlePreVoteResult t v resp now d e).2.
Proof.
  unfold handlePreVoteResult, State. case_match; [done|]. case_match; [done|].
  destruct (rn_term (e_node e) <? pvr_Term resp).
  { destruct (BecomeFollower _ 0 (e_node e)) as [r n] eqn:Hb. etransitivity; [by eapply follow_unmoved|by apply unmoved_same]. }
  case_match; [done|]. case_match; [|by apply unmoved_same].
  etransitivity; [|apply runElection_unmoved]. by apply unmoved_same.
Qed.

Lemma handleVoteResult_unmoved t v resp now e : unmoved e (handleVoteResult t v resp now e).
Proof.
  unfold handleVoteResult, State. case_match; [done|].
  destruct (rn_term (e_node e) <? rvr_Term resp).
  { destruct (BecomeFollower _ 0 (e_node e)) as [r n] eqn:Hb. by eapply follow_unmoved. }
  case_match; [done|]. destruct (RecordVoteAndCheckMajority v t (e_node e)) as [won n] eqn:Hr.
  assert (unmoved e (with_node n e)) as Hu
    by (split; [done|]; unfold RecordVoteAndCheckMajority in Hr; by case_match; injection Hr as _ <-).
  destruct won; [|done]. etransitivity; [exact Hu|apply becomeLeader_unmoved].
Qed.

Lemma maybeCompact_unmoved e : unmoved e (maybeCompact e).
Proof.
  unfold maybeCompact, compact, CommitAndApplyBoundary. case_match; [|done]. destruct (_ =? 0); [done|].
  destruct (on_disk _ _) as [[u|er] rl]; by apply unmoved_same.
Qed.

Lemma tick_end_unmoved now e : unmoved e (tick_end now e).
Proof.
  unfold tick_end, sweepExpiredWaiters, sweepExpiredReads, sweepExpiredApplyWaiters. rewrite !reply_to_spec.
  etransitivity; [|by apply unmoved_same]. case_match; [apply checkQuorum_unmoved|done].
Qed.

Lemma tick_role_unmoved now d d' e : unmoved e (tick_role now d d' e).2.
Proof.
  unfold tick_role, State. case_bool_decide.
  - destruct (AdvanceCommitIndex _ _ _ _) as [r n] eqn:Ha. etransitivity; [|apply fireCommittedWaiters_unmoved].
    split; [done|]. unfold AdvanceCommitIndex in Ha. by repeat case_match; injection Ha as _ <-.
  - case_match; [apply startPreVote_unmoved|done].
Qed.

(** The loop's handlers, ticks apart. *)
Lemma select_arm_unmoved ev now d d' e : ev ≠ Tick → unmoved e (select_arm ev now d d' e).2.
Proof.
  intros Hev. destruct ev as [|cmd ch|t|t v resp|t v resp|p seq|ch aw|w|]; simpl; [| | | | | | | |done].
  - unfold shutdown. etransitivity; [|apply stopReplicators_unmoved]. by apply unmoved_same.
  - unfold handleProposal, proposal_append, EncodeCommand. case_match; [by apply unmoved_same|].
    destruct (AppendLeader _ _ (e_raftLog e)) as [[entry|er] rl]; by apply unmoved_same.
  - apply handleStepDown_unmoved.
  - apply handlePreVoteResult_unmoved.
  - apply handleVoteResult_unmoved.
  - unfold handleAck. etransitivity; [|apply fireReadWaiters_unmoved]. by apply unmoved_same.
  - unfold handleRead, State, CommitAndApplyBoundary. case_bool_decide; [by apply unmoved_same|].
    etransitivity; [|apply fireReadWaiters_unmoved]. by apply unmoved_same.
  - unfold handleApplyWait, CommitAndApplyBoundary. case_match; by apply unmoved_same.
Qed.

(** ** Ticks *)

(** What the apply loop will read is as it was: what is committed, and every entry
    there was. *)
Definition keeps_below e e' : Prop :=
  rn_CommitIndex (e_node e') = rn_CommitIndex (e_node e) ∧
  ∀ i, i < rl_nextIndex (e_raftLog e) → entry_at (e_raftLog e') i = entry_at (e_raftLog e) i.

Lemma keeps_below_same e e' :
  rn_CommitIndex (e_node e') = rn_CommitIndex (e_node e) → e_raftLog e' = e_raftLog e → keeps_below e e'.
Proof. intros Hc Hl. split; [done|]. by rewrite Hl. Qed.

Lemma becomeLeader_below t k now e :
  log_wf (e_raftLog e) → rl_nextIndex (e_raftLog e) < MaxInt64 → keeps_below e (becomeLeader t k now e).
Proof.
  intros Hwf Hroom. unfold becomeLeader. destruct (BecomeLeader t k (e_node e)) as [b n] eqn:Hb.
  assert (rn_CommitIndex n = rn_CommitIndex (e_node e)) as Hn
    by (unfold BecomeLeader in Hb; by case_match; injection Hb as _ <-).
  destruct b; [|by apply keeps_below_same].
  assert (∀ e0, e_node (startReplicators e0) = e_node e0 ∧ e_raftLog (startReplicators e0) = e_raftLog e0) as Hsr.
  { intros e0. unfold startReplicators, stopReplicators. case_match; [done|]. by case_decide. }
  unfold EncodeCommand. set (e1 := with_noop 0 _). change (e_raftLog e1) with (e_raftLog e).
  pose proof (AppendLeader_spec (e_raftLog e) (Marshal (noop_command now)) t Hwf Hroom) as Hs.
  destruct (AppendLeader _ t (e_raftLog e)) as [[entry|er] rl].
  - destruct (Hsr (with_noop (le_Index entry) (with_log rl e1))) as [Hnode Hlog]. split; [by rewrite Hnode|].
    destruct Hs as (_ & Hcache & Hfirst & _). intros i Hi. rewrite Hlog. simpl. unfold entry_at. rewrite Hcache, Hfirst.
    destruct Hwf as [[Hf _ _ _] Hnext]. unfold cache_len in Hnext. case_decide; [|done]. apply lookup_app_l. lia.
  - destruct (Hsr (with_log rl e1)) as [Hnode Hlog]. split; [by rewrite Hnode|]. injection Hs as Hc _ Hf _ _ _ _.
    intros i _. rewrite Hlog. simpl. unfold entry_at. by rewrite Hc, Hf.
Qed.

Lemma startPreVote_below now d d' e :
  log_wf (e_raftLog e) → rl_nextIndex (e_raftLog e) < MaxInt64 → keeps_below e (startPreVote now d d' e).2.
Proof.
  intros Hwf Hroom. unfold startPreVote, runElection. destruct (LastLogState _) as [li lt].
  case_decide; [|by apply keeps_below_same]. destruct (BecomeCandidate now _) as [r n] eqn:Hb.
  assert (rn_CommitIndex n = rn_CommitIndex (e_node e)) as Hn.
  { revert Hb. unfold BecomeCandidate. destruct (commitPersistentLocked _ _) as [[u|er] n1] eqn:Hc;
      apply commitPersistentLocked_inv in Hc as [(_ & _ & _ & Hx & _) _]; by intros [= _ <-]. }
  destruct r as [t|er]; [|by apply keeps_below_same]. destruct (LastLogState _) as [li' lt'].
  case_decide; [|by apply keeps_below_same].
  destruct (becomeLeader_below t li' now (resetElectionTimeout d' (with_node n (resetElectionTimeout d e))) Hwf Hroom)
    as [Hc Hi]. split; [by etransitivity|exact Hi].
Qed.

(** The entries after the applied index, replayed up to the commit index. *)
Definition executed e e' : Prop :=
  rn_LastApplied (e_node e') = rn_CommitIndex (e_node e') ∧
  (rn_CommitIndex (e_node e') = rn_CommitIndex (e_node e) ∨
   rn_Role (e_node e) = Leader ∧ rn_term (e_node e') = rn_term (e_node e)) ∧
  ∃ es, stretch (e_raftLog e) (rn_LastApplied (e_node e) + 1) es ∧
    rn_LastApplied (e_node e') = rn_LastApplied (e_node e) + Z.of_nat (length es) ∧
    replay (rn_LastApplied (e_node e) + 1) es (e_stateMachine e) = Some (e_stateMachine e').

Lemma tick_rest_executes now e :
  log_pos (e_raftLog e) → e_fatal e = None → int64 (rn_LastApplied (e_node e)) →
  rn_LastApplied (e_node e) ≤ rn_CommitIndex (e_node e) → rn_CommitIndex (e_node e) ≤ MaxInt64 →
  let e' := tick_rest now e in
  e_fatal e' = None →
  rn_LastApplied (e_node e') = rn_CommitIndex (e_node e) ∧
  ∃ es, stretch (e_raftLog e) (rn_LastApplied (e_node e) + 1) es ∧
    rn_LastApplied (e_node e') = rn_LastApplied (e_node e) + Z.of_nat (length es) ∧
    replay (rn_LastApplied (e_node e) + 1) es (e_stateMachine e) = Some (e_stateMachine e').
Proof.
  intros Hp Hf Hi Hle Hmax. cbv zeta. destruct (tick_rest_closed holds_reads now e) as (_ & _ & ->).
  destruct (applyCommitted_replay e Hp Hf Hi Hmax Hle) as (es & m & Hst & Hr & Hla & Hok & _).
  destruct (e_fatal (applyCommitted e)) as [msg|] eqn:Hfa; [congruence|]. intros _. destruct (Hok eq_refl) as [Hc Hm].
  assert (unmoved (applyCommitted e) (tick_end now (fireApplyWaiters (fireReadWaiters (maybeCompact (applyCommitted e)))))) as [-> ->].
  { etransitivity; [apply maybeCompact_unmoved|]. etransitivity; [apply fireReadWaiters_unmoved|].
    etransitivity; [apply fireApplyWaiters_unmoved|apply tick_end_unmoved]. }
  rewrite Hm. split; [done|]. by exists es.
Qed.

(** The role's part of a tick moves the commit index, if at all, within a term it
    leads, and leaves what is committed in the log. *)
Lemma tick_role_prepares now d d' e :
  log_wf (e_raftLog e) → rl_nextIndex (e_raftLog e) < MaxInt64 →
  rn_LastApplied (e_node e) ≤ rn_CommitIndex (e_node e) < rl_nextIndex (e_raftLog e) →
  let e' := (tick_role now d d' e).2 in
  log_pos (e_raftLog e') ∧ rn_LastApplied (e_node e) ≤ rn_CommitIndex (e_node e') ∧
  (∀ i, i ≤ rn_CommitIndex (e_node e') → entry_at (e_raftLog e') i = entry_at (e_raftLog e) i) ∧
  (rn_CommitIndex (e_node e') = rn_CommitIndex (e_node e) ∨
   rn_Role (e_node e) = Leader ∧ rn_term (e_node e') = rn_term (e_node e)).
Proof.
  intros Hwf Hroom Hle. unfold tick_role, State. case_bool_decide as Hr.
  - destruct (AdvanceCommitIndex _ _ _ _) as [r n] eqn:Ha. pose proof (AdvanceCommitIndex_term _ _ _ _ _ _ Ha) as Ht.
    assert (rn_CommitIndex (e_node e) ≤ rn_CommitIndex n) as Hci.
    { unfold AdvanceCommitIndex in Ha. case_bool_decide; [by injection Ha as _ <-|].
      destruct (_ && _) eqn:Hb; injection Ha as _ <-; [b2p; simpl; lia|done]. }
    unfold CommitAndApplyBoundary, fireCommittedWaiters. case_match. simpl. split_and!; [apply Hwf|lia|done|]. by right.
  - case_match; [|split_and!; [apply Hwf|simpl; lia|done|by left]]. simpl.
    destruct (startPreVote_below now d d' e Hwf Hroom) as [Hc Hi]. destruct (startPreVote_fits now d d' e Hwf Hroom) as [[Hp _] _].
    rewrite Hc. split_and!; [done|lia| |by left]. intros i Hx. apply Hi. lia.
Qed.

Lemma onTick_executes now d d' e :
  log_wf (e_raftLog e) → rl_nextIndex (e_raftLog e) < MaxInt64 → e_fatal e = None → int64 (rn_LastApplied (e_node e)) →
  rn_LastApplied (e_node e) ≤ rn_CommitIndex (e_node e) < rl_nextIndex (e_raftLog e) →
  let e' := (onTick now d d' e).2 in
  e_fatal e' = None → rn_CommitIndex (e_node e') ≤ MaxInt64 → executed e e'.
Proof.
  intros Hwf Hroom Hf Hi Hle. cbv zeta. unfold onTick. set (er := reconcileLeadership e).
  destruct (reconcileLeadership_core e) as [Hlog Hnode]. pose proof (reconcileLeadership_unmoved e) as Hu.
  pose proof (reconcileLeadership_fatal e) as Hfr. fold er in Hlog, Hnode, Hu, Hfr.
  pose proof (tick_role_prepares now d d' er) as Hprep. rewrite Hlog, Hnode in Hprep.
  destruct (Hprep Hwf Hroom Hle) as (Hp & Hle2 & Hat & Hcase). clear Hprep.
  pose proof (tick_role_unmoved now d d' er) as Hu2. pose proof (tick_role_fatal now d d' er) as Hf2.
  destruct (tick_role now d d' er) as [out e2]. simpl in *. intros Hf' Hmax.
  assert (unmoved e e2) as [Hm Ha] by by transitivity er.
  destruct (tick_rest_acks now e2) as (Hb & _). unfold boundary in Hb. injection Hb as Ht Hc. rewrite Hc in Hmax.
  destruct (tick_rest_executes now e2 Hp) as (Hla & es & Hst & Hlen & Hrep); [congruence|by rewrite Ha|lia|done|done|].
  unfold executed. rewrite Ht, Hc. split_and!; [done|done|]. rewrite Ha in Hst, Hlen, Hrep. rewrite Hm in Hrep.
  exists es. split_and!; [|done|done]. intros k x Hk. rewrite <-Hat; [by apply Hst|].
  apply lookup_lt_Some in Hk. lia.
Qed.

(** ** Every action *)

(** A snapshot that is refused, that the log has, or that is not older than the state
    and can be written once it is restored. *)
Definition clean_install n rl (m : MemoryStateMachine) (path : string) (req : InstallSnapshotRequest) : Prop :=
  let meta := mkSnapshotMeta (is_LastIncludedIndex req) (is_LastIncludedTerm req) in
  is_Term req < rn_term n ∨
  is_LastIncludedIndex req ≤ rl_lastIncludedIndex rl ∨
  rn_LastApplied n ≤ is_LastIncludedIndex req ∧
  ∀ m1 os1, restore_callback (is_Data req) (m, rl_disk rl) = (Ok tt, (m1, os1)) →
    ∃ x, persist_callback path meta (m1, os1) = (Ok tt, x).

Definition clean (a : action) e : Prop :=
  match a with
  | RpcInstallSnapshot req _ => clean_install (e_node e) (e_raftLog e) (e_stateMachine e) (e_snapshotPath e) req
  | _ => True
  end.

(** The state is the snapshot's. *)
Definition installed (req : InstallSnapshotRequest) e e' : Prop :=
  rn_LastApplied (e_node e') = is_LastIncludedIndex req ∧
  Restore (is_Data req) (e_stateMachine e) = (Ok tt, e_stateMachine e').

Lemma install_moves req now e :
  log_pos (e_raftLog e) → clean_install (e_node e) (e_raftLog e) (e_stateMachine e) (e_snapshotPath e) req →
  let e' := (EngineHandleInstallSnapshot req now e).2 in
  unmoved e e' ∨ installed req e e'.
Proof.
  intros Hp Hc. cbv zeta. unfold EngineHandleInstallSnapshot.
  unfold clean_install in Hc. cbv zeta in Hc. cbv zeta.
  unfold HandleInstallSnapshot.
  destruct (Z.ltb_spec (is_Term req) (CurrentTerm (rn_persistent (e_node e)))) as [Hlt|Hge]; [by left|].
  destruct Hc as [Hc|Hc]; [unfold rn_term in Hc; lia|].
  destruct (accept_leader _ _ (e_node e)) as [r1 n1] eqn:Ha. apply accept_leader_bounds in Ha as (_ & Ha & _).
  destruct r1 as [u|er]; [|by left]. pose proof (lp_first _ Hp). pose proof (lp_low _ Hp). pose proof (lp_high _ Hp).
  unfold FirstIndex. rewrite i64_id by (unfold int64, cache_len in *; lia).
  destruct (Z.leb_spec (is_LastIncludedIndex req) (rl_firstIndex (e_raftLog e) - 1)); [by left|].
  destruct Hc as [Hc|[Hi Hpersist]]; [lia|].
  destruct (restore_callback _ _) as [[[]|er] [m1 os1]] eqn:Hr.
  2:{ apply restore_callback_err in Hr as [-> _]. by left. }
  destruct (Hpersist _ _ eq_refl) as [[m2 os2] Hw]. rewrite Hw. apply persist_callback_same in Hw as ->.
  unfold restore_callback in Hr. destruct (Restore _ (e_stateMachine e)) as [r m'] eqn:Hrest. injection Hr as -> -> _.
  assert (rn_LastApplied (seedFromSnapshotLocked (is_LastIncludedIndex req) (set_contact now n1)) = is_LastIncludedIndex req) as Hs.
  { simpl. rewrite Ha. destruct (Z.ltb_spec (rn_LastApplied (e_node e)) (is_LastIncludedIndex req)); lia. }
  right. destruct (ResetToSnapshot _ _ _) as [[v|er] rl2]; by split.
Qed.

(** What one action does to the state machine. *)
Lemma act_machine a l :
  let e := lp_engine l in
  let e' := lp_engine (act a l) in
  log_wf (e_raftLog e) → rl_nextIndex (e_raftLog e) < MaxInt64 → e_fatal e = None → int64 (rn_LastApplied (e_node e)) →
  rn_LastApplied (e_node e) ≤ rn_CommitIndex (e_node e) < rl_nextIndex (e_raftLog e) → clean a e →
  e_fatal e' = None → rn_CommitIndex (e_node e') ≤ MaxInt64 →
  unmoved e e' ∨ executed e e' ∨ ∃ req now, a = RpcInstallSnapshot req now ∧ installed req e e'.
Proof.
  intros e e' Hwf Hroom Hf Hi Hle Hclean. unfold e', act. fold e. rewrite Hf.
  destruct a as [ev now d d'|req now|req now|req now|p|rd r]; simpl.
  - case_match; [by left|]. intros Hf' Hmax.
    assert (ev = Tick ∨ ev ≠ Tick) as [->|Hne] by (destruct ev; by (left + right)); [|left; by apply select_arm_unmoved].
    right. left. by apply onTick_executes.
  - left. unfold EngineHandleAppendEntries. destruct (HandleAppendEntries _ req now _) as [[resp n] rl] eqn:Hh.
    apply HandleAppendEntries_applied in Hh. by split.
  - left. unfold EngineHandleRequestVote. destruct (HandleRequestVote req _ now _) as [resp n] eqn:Hh.
    apply HandleRequestVote_bounds in Hh as (_ & ? & _). by split.
  - intros _ _. destruct (install_moves req now e (proj1 Hwf) Hclean) as [?|?]; [by left|]. right. right. by exists req, now.
  - left. case_match; [|done]. destruct (nextRoundSeq e) as [seq e1] eqn:Hs. injection Hs as _ <-. by apply unmoved_same.
  - left. case_decide; [|done]. destruct (reply_progress _ r _) as [t n] eqn:Hr. split; [done|]. simpl.
    destruct r as [u [resp|]|u k [resp|]]; simpl in Hr; unfold append_reply, snapshot_reply, UpdatePeerProgress in Hr;
      by repeat (case_match; simplify_eq/=).
Qed.

End Machine.
