(* ===== verification/EngineServe.v ===== *)
(** * Serving reads

    What a caller of the read entry points may rely on when they return nil: the
    guarantees of the loop (EngineReads, EngineWrites) carried through the channels
    and, for a read at a follower, through the ReadIndex RPC and a second engine. *)

From S2P Require Import Prelude Configuration Os Json Types Encoding RaftLog RaftLogFacts RaftNode RaftNodeFacts RaftNodeRoles StateMachine Snapshot Replicator Engine EngineLoop EngineFacts EngineApi EngineRun EngineFrame EngineChannels EngineMoves EngineBounds EngineReplica EngineReads EngineWrites.

Section Serve.
Context {S : Type} `{StateStoreLaws S} `{Codec LogEntry} `{Codec Command}.
Implicit Types (e : Engine S) (l : Loop S).

(** A caller's handoff reports what the loop sent on its channel. *)
Definition reported_read (ch : nat) l (h : handoff readResult) : Prop :=
  ∀ r, h = Answer r → (ch, RRead (rr_index r) (rr_err r)) ∈ e_sent (lp_engine l).

Definition reported (ch : nat) l (h : handoff err) : Prop :=
  ∀ r, h = Answer r → (ch, RErr r) ∈ e_sent (lp_engine l).

(** The index was applied when the caller looked, or at some point of [acts]. *)
Definition caught_up (index : Z) e (acts : list action) l1 : Prop :=
  index ≤ rn_LastApplied (e_node e) ∨
  ∃ reached rest, acts = reached ++ rest ∧ index ≤ rn_LastApplied (e_node (lp_engine (run reached l1))).

Lemma awaitApplied_caught_up e index deadline ch h now d d' after l0 :
  let l1 := act (Select (ApplyWait (mkApplyWaiter index deadline ch)) now d d') l0 in
  accounted l0 → lp_stopped l0 = false → e_fatal (lp_engine l0) = None → NoDup (lp_asked (run after l1)) →
  reported ch (run after l1) h → awaitApplied index e h = None → caught_up index e after l1.
Proof.
  intros l1 Hacc Hrun Hf Hnd Hrep. unfold awaitApplied, CommitAndApplyBoundary, caught_up.
  destruct (Z.leb_spec index (rn_LastApplied (e_node e))) as [|_]; [by left|].
  destruct h as [r| | |]; intros Hr; try done. subst r. right.
  apply (wait_answered (mkApplyWaiter index deadline ch) now d d' after l0); try done. by apply Hrep.
Qed.

Lemma HandleReadIndex_success req h e :
  rir_Success (HandleReadIndex req h e) = true →
  ∃ r, h = Answer r ∧ rr_err r = None ∧ rir_ReadIndex (HandleReadIndex req h e) = rr_index r.
Proof. destruct h as [[i [er|]]| | |]; simpl; try done. intros _. by eexists. Qed.

Lemma followerRead_nil e e1 e2 send h :
  followerRead e e1 e2 send h = None →
  ∃ addr resp, currentPeers e1 !! CurrentLeader (e_node e) = Some addr ∧
    send addr (mkReadIndexRequest (NodeID (e_node e1))) = Some resp ∧ rir_Success resp = true ∧
    awaitApplied (rir_ReadIndex resp) e2 h = None.
Proof.
  unfold followerRead, ReadIndexFrom. destruct (_ =? 0); [done|].
  destruct (currentPeers e1 !! _) as [addr|] eqn:Ha; [|done].
  destruct (send addr _) as [resp|] eqn:Hs; simpl; [|done].
  destruct (rir_Success resp) eqn:Hok; simpl; [|done]. intros Hw. by exists addr, resp.
Qed.

Context (L : limits S) (HL : campaign_limits L).

(** C15: a linearizable read at a follower.  A leader and a follower each run their
    loop: messages, RPCs and rounds in any order, result channels used once.  The
    follower asks the leader for a read index and waits for it to be applied; the
    network loses or delays what it likes but invents no reply.  If the read is
    then permitted, the index is one the leader held as its commit frontier when
    the RPC reached it and confirmed with a quorum of its term afterwards, and the
    follower's own state machine has reached it. *)
Theorem follower_read
    (node1 node2 : RaftNode S) (rl1 rl2 : RaftLog) (sm1 sm2 : MemoryStateMachine) (path1 path2 : string)
    (draw1 draw2 : Z) (before1 after1 before2 after2 : list action) (ch1 ch2 : nat)
    (now1 d1 d1' now2 d2 d2' deadline : Z) (h1 : handoff readResult) (h2 : handoff err)
    (asked replied : Engine S) (e e1 : Engine S)
    (send : string → ReadIndexRequest → option ReadIndexResponse) :
  let lead0 := run before1 (start (NewWithTransport node1 rl1 sm1 path1 draw1)) in
  let ask1 := Select (ReadRequest ch1 false) now1 d1 d1' in
  let lead1 := act ask1 lead0 in
  let fol0 := run before2 (start (NewWithTransport node2 rl2 sm2 path2 draw2)) in
  let i := match h1 with Answer r => rr_index r | _ => 0 end in
  let fol1 := act (Select (ApplyWait (mkApplyWaiter i deadline ch2)) now2 d2 d2') fol0 in
  simple node1 → run_within L (before1 ++ ask1 :: after1) (start (NewWithTransport node1 rl1 sm1 path1 draw1)) →
  Z.of_nat (length (before1 ++ ask1 :: after1)) < 18446744073709551616 →
  lp_stopped lead0 = false → e_fatal (lp_engine lead0) = None → NoDup (lp_asked (run after1 lead1)) →
  lp_stopped fol0 = false → e_fatal (lp_engine fol0) = None → NoDup (lp_asked (run after2 fol1)) →
  reported_read ch1 (run after1 lead1) h1 → reported ch2 (run after2 fol1) h2 →
  (∀ addr req resp, send addr req = Some resp → resp = HandleReadIndex req h1 replied) →
  followerRead asked e e1 send h2 = None →
  safe_index i false lead0 after1 lead1 ∧ caught_up i e1 after2 fol1.
Proof.
  intros lead0 ask1 lead1 fol0 i fol1 Hsimple Hw Hlen Hrun1 Hf1 Hnd1 Hrun2 Hf2 Hnd2 Hrep1 Hrep2 Hsend Hread.
  apply followerRead_nil in Hread as (addr & resp & _ & Hresp & Hok & Hwait).
  apply Hsend in Hresp as ->. apply HandleReadIndex_success in Hok as (r & -> & Herr & Hidx).
  pose proof (Hrep1 r eq_refl) as Hsent. rewrite Herr in Hsent. rewrite Hidx in Hwait. split.
  - by eapply read_index_safe.
  - eapply awaitApplied_caught_up; try done. apply run_accounted, start_accounted.
Qed.

(** a bounded read keeps its bound.  A read that allows staleness [d] is permitted
    only for a positive [d]; on a follower heard from a leader within [d], a leader
    whose quorum was confirmed within [d], or a server alone in its cluster; and
    once everything this node knew to be committed after that check is applied.
    A leader that never confirmed a quorum is refused, whatever the bound below the
    largest duration. *)
Theorem bounded_read
    (node : RaftNode S) (rl : RaftLog) (sm : MemoryStateMachine) (path : string) (draw : Z)
    (before after : list action) (ch : nat) (now nowA dA dA' deadline bound : Z) (w : read_world S) :
  let l0 := run before (start (NewWithTransport node rl sm path draw)) in
  let commitIndex := rn_CommitIndex (e_node (wd_leader w)) in
  let l1 := act (Select (ApplyWait (mkApplyWaiter commitIndex deadline ch)) nowA dA dA') l0 in
  lp_stopped l0 = false → e_fatal (lp_engine l0) = None → NoDup (lp_asked (run after l1)) →
  reported ch (run after l1) (wd_apply w) →
  EngineRead (mkReadOptions BoundedStale bound) now w = None →
  let e := wd_entry w in
  0 < bound ∧ caught_up commitIndex (wd_reply w) after l1 ∧
  (currentPeers e = ∅ ∨
   rn_Role (e_node e) ≠ Leader ∧ TimeSinceContact now (e_node e) ≤ bound ∨
   rn_Role (e_node e) = Leader ∧ (e_lastQuorumNanos e ≠ 0 ∧ time_Since now (e_lastQuorumNanos e) ≤ bound ∨
                                  MaxInt64 ≤ bound)).
Proof.
  intros l0 commitIndex l1 Hrun Hf Hnd Hrep Hread e.
  unfold EngineRead, boundedRead, CommitAndApplyBoundary in Hread. cbn [ro_Consistency ro_MaxStaleness] in Hread.
  destruct (Z.leb_spec bound 0); [done|]. destruct (Z.ltb_spec bound (staleness now (wd_entry w))) as [|Hst]; [done|].
  fold commitIndex in Hread.
  destruct (awaitApplied commitIndex (wd_reply w) (wd_apply w)) eqn:Hwait; [done|]. split_and!; [done| |].
  - eapply awaitApplied_caught_up; try done. apply run_accounted, start_accounted.
  - unfold staleness in Hst. fold e in Hst. case_decide; [by left|right].
    unfold IsLeader in Hst. case_bool_decide; simpl in Hst; [right|by left]. split; [done|].
    destruct (Z.eqb_spec (e_lastQuorumNanos e) 0); [by right|by left].
Qed.

(** ** The state at every point of a run *)

(** C21: the engine's state is well formed at every point of a run within
    [sound_limits]. Started on a well-formed node and log: positions and indices of
    the log correspond and the next index follows the last entry; the applied index
    is at most the commit index; replicators run only for the other members, and
    while this node leads they carry its term; and every piece of leadership
    evidence is about another member and a round already begun. [sound_limits]: the
    log has room; a batch that passes the consistency check starts at or above the
    boundary, is contiguous and meets no disk error; a snapshot is not older than
    what is applied ([snapshot_regresses_machine]), extends the log or is held by it
    ([ResetToSnapshot_stale_nextIndex]), and can be written once restored
    ([failed_install_diverges]). Handlers, RPCs and rounds run one at a time, fewer
    than 2^64 of them. *)
Theorem run_well_formed (node : RaftNode S) (rl : RaftLog) (sm : MemoryStateMachine) (path : string)
    (draw : Z) (acts : list action) :
  let s := start (NewWithTransport node rl sm path draw) in
  let e := lp_engine (run acts s) in
  limits_le L sound_limits → node_bounds node → log_wf rl → run_within L acts s →
  Z.of_nat (length acts) < 18446744073709551616 →
  log_wf (e_raftLog e) ∧ node_bounds (e_node e) ∧
  (∀ p, p ∈ e_replicators e → p ∈ dom (currentPeers e)) ∧
  (rn_Role (e_node e) = Leader → e_replicators e = ∅ ∨ e_replicatorsTerm e = rn_term (e_node e)) ∧
  (∀ p a, e_lastAck e !! p = Some a →
     p ∈ dom (currentPeers e) ∧ (0 < pa_startSeq a → pa_startSeq a ≤ e_roundSeq e)).
Proof.
  intros s e Hsound Hb Hwf Hw Hlen.
  destruct (run_rounds L HL acts s Hw) as ([Rr Ro Rd Ra] & _ & _); [split; simpl; lia|apply start_rounds|].
  destruct (run_replica L Hsound acts s Hw) as [Hn Hl]; [split; [by destruct Hb|done]|].
  split_and!; [done..|]. intros p a Ha. destruct (Ra p a Ha) as [Hp Hex]. split; [done|].
  intros Hpos. destruct (Hex Hpos) as (rd & Hin & _ & <-). by destruct (Rd rd (or_intror Hin)) as (_ & ? & _).
Qed.

End Serve.
