(* ===== verification/Startup.v ===== *)
(** * Starting a server

    What [main] does between its configuration and the control loop, over any store
    of node metadata: open the WAL, load the term and the vote, restore the snapshot,
    construct the engine.  The clusters of FleetSafety.v start their servers with it,
    from what a reboot left of their disks. *)

From S2P Require Import Prelude Configuration Os Json FsUtil Types Encoding StateMachine RaftLog RaftLogFacts RaftLogDisk WorkingDisk RaftNode RaftNodeFacts Snapshot Replicator Engine EngineLoop EngineRun.

(** The part of the configuration that a start reads. *)
Record Settings := mkSettings {
  st_wal : string;
  st_snapshot : string;
  st_sessionTTL : Z;
  st_threshold : Z;
}.

Lemma SetCompactionThreshold_same n rl :
  let rl' := SetCompactionThreshold n rl in
  rl_cache rl' = rl_cache rl ∧ rl_walOpen rl' = rl_walOpen rl ∧ rl_disk rl' = rl_disk rl ∧
  rl_nextIndex rl' = rl_nextIndex rl ∧ rl_firstIndex rl' = rl_firstIndex rl ∧
  rl_lastIncludedIndex rl' = rl_lastIncludedIndex rl.
Proof. unfold SetCompactionThreshold. by destruct (n <=? 0). Qed.


Section Startup.
Context {Store : Type} `{StateStoreLaws Store} `{Codec LogEntry} `{Codec Command}.

(** The loop, or the call that failed; the disk as it is then, and the metadata if they
    were opened. *)
Definition startup (su : Settings) (config : Configuration) (id now draw : Z) (disk : Os) (s : Store)
    : result (Loop Store) * (Os * option Store) :=
  match NewRaftLog (st_wal su) disk with
  | (Err e, rl) => (Err e, (rl_disk rl, None))
  | (Ok _, rl) =>
      let rl := SetCompactionThreshold (st_threshold su) rl in
      let m := SetSessionTTL (st_sessionTTL su) NewMemoryStateMachine in
      match NewRaftNode id config s Follower now with
      | (Err e, s) => (Err e, (rl_disk rl, Some s))
      | (Ok n, s) =>
          match restoreFromSnapshot (st_snapshot su) m rl n with
          | (Err e, (_, rl, _)) => (Err e, (rl_disk rl, Some s))
          | (Ok _, (m, rl, n)) => (Ok (start (NewWithTransport n rl m (st_snapshot su) draw)), (rl_disk rl, Some s))
          end
      end
  end.

(** ** What a start leaves, if it completes *)

(** Nothing of the program [m] moves the boundary of a log. *)
Definition boundary_kept {A} (m : M RaftLog A) : Prop :=
  ∀ rl r rl', m rl = (r, rl') → rl_lastIncludedIndex rl' = rl_lastIncludedIndex rl.

Lemma disk_only_kept {A} (m : M RaftLog A) : disk_only m → boundary_kept m.
Proof. intros Hm rl r rl' Hx1. apply Hm in Hx1. by injection Hx1. Qed.

Lemma kept_bind {A B} (m : M RaftLog A) (k : A → M RaftLog B) :
  boundary_kept m → (∀ a, boundary_kept (k a)) → boundary_kept (m_bind m k).
Proof.
  intros Hm Hk rl r rl' [(a & rl1 & Hx1 & Hx2)|(e & Hx1 & _)]%m_bind_inv.
  - rewrite (Hk a _ _ _ Hx2). by eapply Hm.
  - by eapply Hm.
Qed.

Lemma kept_modify f : (∀ rl, rl_lastIncludedIndex (f rl) = rl_lastIncludedIndex rl) → boundary_kept (m_modify f).
Proof. intros Hf rl r rl' [= _ <-]. apply Hf. Qed.

Lemma recover_loop_kept fuel f pos good : boundary_kept (recover_loop fuel f pos good).
Proof.
  revert pos good. induction fuel as [|fuel IH]; intros pos good; simpl; [by intros ??? [= _ <-]|].
  apply kept_bind; [apply disk_only_kept, on_disk_only|intros _].
  apply kept_bind; [apply disk_only_kept, on_disk_only|intros fr].
  destruct fr as [| |buf]; [by intros ??? [= _ <-]|apply disk_only_kept, on_disk_only|].
  destruct (Unmarshal buf) as [entry|e]; [|by intros ??? [= _ <-]].
  apply kept_bind; [apply kept_modify; intros rl; by case_decide|intros _].
  apply kept_bind; [by apply kept_modify|intros _; apply IH].
Qed.

Lemma recover_kept : boundary_kept recover.
Proof.
  assert (boundary_kept (@m_get RaftLog)) as Hget by by intros ??? [= _ <-].
  unfold recover. apply kept_bind; [done|intros rl]. apply kept_bind; [apply disk_only_kept, on_disk_only|intros f].
  apply kept_bind; [done|intros rl']. apply kept_bind; [apply recover_loop_kept|intros _].
  apply disk_only_kept, on_disk_only.
Qed.

Lemma NewRaftLog_boundary p disk r rl : NewRaftLog p disk = (r, rl) → rl_lastIncludedIndex rl = 0.
Proof.
  unfold NewRaftLog. set (rl0 := mkRaftLog _ _ _ _ _ _ _ _ _ _). intros Hn.
  change 0 with (rl_lastIncludedIndex rl0). revert Hn.
  apply kept_bind; [|intros _; apply kept_bind; [apply disk_only_kept, on_disk_only|intros f; by apply kept_modify]].
  intros rl1 r1 rl1' (r2 & Hx1 & _)%m_wrap_inv. by eapply recover_kept.
Qed.

Lemma RestoreOffset_boundary i t rl r rl' : RestoreOffset i t rl = (r, rl') → rl_lastIncludedIndex rl' = i.
Proof.
  unfold RestoreOffset. intros Hr.
  change i with (rl_lastIncludedIndex (set_boundary i t rl)). revert Hr. unfold m_bind at 1 2, m_get, m_modify.
  case_decide; [by intros [= _ <-]|]. destruct (keep_contiguous _ _) as [kept next]. unfold m_bind. intros Hr.
  case_match; [by injection Hr as _ <-|]. apply rewriteWALLocked_only in Hr. by injection Hr.
Qed.

Lemma seeded_nothing (n : RaftNode Store) :
  rn_CommitIndex n = 0 → rn_LastApplied n = 0 → SeedFromSnapshot 0 n = n.
Proof. destruct n. simpl. intros -> ->. done. Qed.

Lemma restoreFromSnapshot_seeds path m rl (n : RaftNode Store) m' rl' n' :
  restoreFromSnapshot path m rl n = (Ok tt, (m', rl', n')) →
  rl_lastIncludedIndex rl = 0 → rn_CommitIndex n = 0 → rn_LastApplied n = 0 →
  n' = SeedFromSnapshot (rl_lastIncludedIndex rl') n.
Proof.
  intros Hr Hl Hc Ha. unfold restoreFromSnapshot, on_disk in Hr.
  destruct (Read path (rl_disk rl)) as [[[snap|]|] os]; [| |done].
  2:{ injection Hr as _ <- <-. simpl. by rewrite Hl, seeded_nothing. }
  destruct (EncodeState snap) as [raw|]; [|done]. destruct (Restore raw m) as [[u|] m1]; [|done].
  destruct (RestoreOffset _ _ _) as [[u'|] rl1] eqn:Ho; [|done]. apply RestoreOffset_boundary in Ho.
  injection Hr as _ <- <-. by rewrite Ho.
Qed.

Lemma NewRaftNode_zero id config (s : Store) now n s' :
  NewRaftNode id config s Follower now = (Ok n, s') → rn_CommitIndex n = 0 ∧ rn_LastApplied n = 0.
Proof. unfold NewRaftNode, loadPersistentState. intros Hn. by repeat (case_match; simplify_eq/=). Qed.

Lemma NewRaftNode_store id config (s : Store) now n s' :
  NewRaftNode id config s Follower now = (Ok n, s') → rn_store n = s'.
Proof. unfold NewRaftNode. intros Hn. destruct (Validate _); [done|]. destruct (loadPersistentState _) as [[u|] n']; [congruence|done]. Qed.

Lemma startup_inv su config id now draw disk (s : Store) l os o :
  startup su config id now draw disk s = (Ok l, (os, o)) →
  ∃ n s' rl m, NewRaftNode id config s Follower now = (Ok n, s') ∧
    l = start (NewWithTransport (SeedFromSnapshot (rl_lastIncludedIndex rl) n) rl m (st_snapshot su) draw).
Proof.
  unfold startup. intros Hs. destruct (NewRaftLog _ disk) as [[u|] rl0] eqn:Hn; [|done]. apply NewRaftLog_boundary in Hn.
  destruct (NewRaftNode _ _ _ _ _) as [[n|] s1] eqn:Hr; [|done].
  destruct (restoreFromSnapshot _ _ _ n) as [[[]|] [[m rl] n']] eqn:Hres; [|done]. injection Hs as <- _ _.
  destruct (NewRaftNode_zero _ _ _ _ _ _ Hr) as [Hc Ha]. exists n, s1, rl, m. split; [done|].
  destruct (SetCompactionThreshold_same (st_threshold su) rl0) as (_ & _ & _ & _ & _ & Hl).
  apply restoreFromSnapshot_seeds in Hres as ->; [done|by rewrite Hl|done|done].
Qed.

(** A start that fails has not opened the metadata, or has. *)
Lemma startup_err su config id now draw disk (s : Store) er os o :
  startup su config id now draw disk s = (Err er, (os, o)) →
  o = None ∨ ∃ r s', NewRaftNode id config s Follower now = (r, s') ∧ o = Some s'.
Proof.
  unfold startup. intros Hs. destruct (NewRaftLog _ disk) as [[u|] rl0]; [|left; by injection Hs].
  right. destruct (NewRaftNode _ _ _ _ _) as [[n|] s1]; [|injection Hs as _ _ <-; by eexists _, _].
  destruct (restoreFromSnapshot _ _ _ n) as [[[]|] [[m rl] n']]; [done|]. injection Hs as _ _ <-. by eexists _, _.
Qed.

(** ** Its parts on a working disk *)

Lemma recovered_wf rl es :
  rl_cache rl = es → contiguous 1 es → 1 + Z.of_nat (length es) ≤ MaxInt64 →
  rl_firstIndex rl = from_option le_Index 1 (head es) →
  rl_nextIndex rl = from_option (λ e, le_Index e +! 1) 1 (last es) → rl_lastIncludedIndex rl = 0 → log_wf rl.
Proof.
  intros Hc Hcont Hmax Hf Hn Hl.
  assert (rl_firstIndex rl = 1) as Hf1.
  { rewrite Hf. destruct es as [|e es]; [done|]. pose proof (Hcont 0%nat e eq_refl). simpl. lia. }
  split; [split|]; unfold cache_len; rewrite ?Hf1, ?Hl, ?Hc; try done.
  rewrite Hn. destruct (last es) as [e|] eqn:Hlast; simpl.
  - rewrite (contiguous_last 1 es e) by done. wrapless. lia.
  - apply last_None in Hlast. by rewrite Hlast.
Qed.

Lemma restore_nothing path sm rl (n : RaftNode Store) :
  working (rl_disk rl) → visible (os_fs (rl_disk rl)) path = None →
  ∃ os, restoreFromSnapshot path sm rl n = (Ok tt, (sm, set_disk os rl, n)).
Proof.
  intros [Hf Hd] Hv. unfold restoreFromSnapshot, on_disk, Read, m_bind, m_wrap, os_ReadFile.
  rewrite (syscall_no_faults _ _ _ Hd Hf), Hv. by eexists.
Qed.

(** What is on disk is well formed, so nothing but the disk can fail the restore. *)
Lemma restore_completes path sm m rl (n : RaftNode Store) meta :
  rl_walOpen rl = true → working (rl_disk rl) →
  visible (os_fs (rl_disk rl)) path = Some (snapshot_text meta m) →
  machine_ok m → int64 (LastIncludedIndex meta) → int64 (LastIncludedTerm meta) →
  ∃ rl' os, restoreFromSnapshot path sm rl n =
      (Ok tt, (mkMachine (sm_data m) (sm_sessions m) (sm_now m) (sm_appliesSinceSweep m) (sm_sessionTTL sm), rl',
        SeedFromSnapshot (LastIncludedIndex meta) n)) ∧
    RestoreOffset (LastIncludedIndex meta) (LastIncludedTerm meta) (set_disk os rl) = (Ok tt, rl').
Proof.
  intros Hopen [Hf Hd] Hv Hok Hi Ht.
  unfold restoreFromSnapshot, on_disk, Read, m_bind, m_wrap, os_ReadFile.
  rewrite (syscall_no_faults _ _ _ Hd Hf), Hv. cbn [fst snd]. rewrite Unmarshal_snapshot_text by done.
  unfold m_ret, EncodeState. cbn [sf_State sf_Meta]. case_decide as Hnil.
  { pose proof (length_render (machineState_to_json m)) as Hl. rewrite Hnil in Hl. simpl in Hl. lia. }
  rewrite (Restore_Snapshot m sm _ Hok eq_refl).
  edestruct (RestoreOffset_completes (LastIncludedIndex meta) (LastIncludedTerm meta)) as [rl' Hr];
    [| |rewrite Hr; by eexists _, _]; done.
Qed.

(** ** A restart recovers the log the server stopped with

    If every operation on the WAL had completed, and the snapshot file is the one the
    log's boundary was cut at, a start after a crash gives back the log, as the
    orderly runs of FleetSafety.v suppose, and the machine of the snapshot.  A crash
    in the middle of an operation may leave the WAL torn (RaftLogDisk.v says what is
    recovered then) or the snapshot ahead of the WAL
    ([restart_keeps_conflicting_suffix]). *)

Definition empty_of (ttl : Z) : MemoryStateMachine := SetSessionTTL ttl NewMemoryStateMachine.

(** The snapshot file at [path] holds machine [m] at the boundary of [rl]; a log that
    was never cut needs none. *)
Definition snapshot_of (rl : RaftLog) (path : string) (ttl : Z) (fs : Fs) (m : MemoryStateMachine) : Prop :=
  visible fs path = None ∧ rl_lastIncludedIndex rl = 0 ∧ rl_lastIncludedTerm rl = 0 ∧ m = empty_of ttl ∨
  visible fs path = Some (snapshot_text (mkSnapshotMeta (rl_lastIncludedIndex rl) (rl_lastIncludedTerm rl)) m) ∧
    machine_ok m ∧ sm_sessionTTL m = sm_sessionTTL (empty_of ttl) ∧ int64 (rl_lastIncludedTerm rl).

Lemma reopened rl os :
  settled_wal rl → reboot (rl_disk rl) os → os_faults os = [] →
  ∃ rl0, NewRaftLog (rl_walPath rl) os = (Ok tt, rl0) ∧ recovered (rl_cache rl) (rl_walPath rl) rl0 ∧ working (rl_disk rl0) ∧
    ∀ q, q ≠ rl_walPath rl → visible (os_fs (rl_disk rl0)) q = visible (os_fs os) q.
Proof.
  intros Hset (Hwf & [Hold Hsy] & Hdead & Hc) Hfaults.
  destruct (settled_recoverable rl Hset _ (Hc (rl_walPath rl))) as (l & t & Hv & Hl & Ht & ->).
  unfold visible in Hv. destruct (fs_dir (os_fs os) !! rl_walPath rl) as [i|] eqn:Hdir; [|done]. simpl in Hv.
  destruct (fs_inodes (os_fs os) !! i) as [nd|] eqn:Hi; [|done]. injection Hv as Hv.
  assert (wal_file (os_fs os) (rl_walPath rl) i nd) as Hw.
  { split_and!; try done. unfold old_bindings. by rewrite Hold, lookup_empty. }
  assert (os = calm (os_fs os)) as -> by (destruct os; simpl in *; by subst). simpl.
  pose proof (NewRaftLog_frames _ _ _ _ _ _ Hw Hv Hl Ht) as Hn.
  destruct (NewRaftLog_calm _ _ _ _ _ _ _ Hw Hv Hl Ht eq_refl) as (fs' & Hd & Hsame).
  destruct (NewRaftLog _ _) as [r rl0]. cbn [snd] in Hd. destruct Hn as (_ & -> & Hn).
  exists rl0. split_and!; [done|done|by rewrite Hd|]. intros q Hq. rewrite Hd. simpl. by apply Hsame.
Qed.

Theorem settled_restart su config id now draw rl os (s s' : Store) n m :
  log_wf rl → settled_wal rl → reboot (rl_disk rl) os → os_faults os = [] →
  st_wal su = rl_walPath rl → st_snapshot su ≠ rl_walPath rl → snapshot_of rl (st_snapshot su) (st_sessionTTL su) (os_fs os) m →
  NewRaftNode id config s Follower now = (Ok n, s') →
  ∃ l left, startup su config id now draw os s = (Ok l, left) ∧
    log_wf (e_raftLog (lp_engine l)) ∧ same_contents rl (e_raftLog (lp_engine l)) ∧ e_stateMachine (lp_engine l) = m.
Proof.
  intros Hwf Hset Hre Hfaults Hwal Hne Hsnap Hn.
  destruct (reopened rl os Hset Hre Hfaults) as (rl0 & Hopen & ((Hopen0 & _) & Hc & _ & Hf & Hnx & Hli & Hlt) & Hw & Hvis).
  specialize (Hvis _ Hne). unfold startup. rewrite Hwal, Hopen, Hn.
  destruct (SetCompactionThreshold_same (st_threshold su) rl0) as (Hc' & Ho' & Hd' & Hn' & Hf' & Hl').
  assert (rl_lastIncludedTerm (SetCompactionThreshold (st_threshold su) rl0) = rl_lastIncludedTerm rl0) as Ht'
    by (unfold SetCompactionThreshold; by case_match).
  rewrite Hc in Hc'. rewrite Hopen0 in Ho'. rewrite Hnx in Hn'. rewrite Hf in Hf'. rewrite Hli in Hl'. rewrite Hlt in Ht'.
  rewrite <-Hd' in Hw, Hvis. set (rl1 := SetCompactionThreshold _ rl0) in *. clearbody rl1. fold (empty_of (st_sessionTTL su)).
  pose proof Hwf as [Hp _]. pose proof (lp_first _ Hp) as Hfirst. pose proof (lp_low _ Hp). pose proof (lp_high _ Hp) as Hhigh.
  pose proof (lp_entries _ Hp) as Hcont. unfold cache_len in *.
  destruct Hsnap as [(Hv & Hi & Ht & ->)|(Hv & Hok & Httl & Ht)]; rewrite <-Hvis in Hv.
  - destruct (restore_nothing _ (empty_of (st_sessionTTL su)) rl1 n Hw Hv) as [os' ->]. eexists _, _. split; [done|]. simpl.
    assert (rl_firstIndex rl = 1) as Hf1 by lia. rewrite Hf1 in Hcont, Hhigh.
    split_and!; [|split_and!; simpl; congruence|done].
    eapply (logical_wf rl1); [done|]. apply (recovered_wf rl1 (rl_cache rl)); [done|done|lia|done|done|done].
  - destruct (restore_completes (st_snapshot su) (empty_of (st_sessionTTL su)) m rl1 n _ Ho' Hw Hv Hok)
      as (rl' & os' & -> & Hr); [simpl; unfold int64; lia|done|]. eexists _, _. split; [done|]. simpl in Hr |- *.
    apply (RestoreOffset_spec _ _ (rl_firstIndex rl)) in Hr as (Hwf' & Hl2 & Ht2 & Hc2);
      [|by simpl; rewrite Hc'|lia|simpl; unfold cache_len; simpl; rewrite Hc'; lia|lia].
    simpl in Hc2. rewrite Hc', decide_True in Hc2 by lia.
    replace (Z.to_nat (rl_lastIncludedIndex rl + 1 - rl_firstIndex rl)) with 0%nat in Hc2 by lia. rewrite drop_0 in Hc2.
    unfold TermAt in Ht2. rewrite Hl2, Z.eqb_refl in Ht2.
    split_and!; [done|by split_and!|]. rewrite <-Httl. by destruct m.
Qed.

End Startup.
