(* ===== verification/Main.v ===== *)
(** * The composition root (cmd/crystal/main.go)

    [main] up to the start of the engine: open the WAL, build the state machine and
    the node, restore the snapshot, construct the engine.  The WAL and the snapshot
    are on one disk, the metadata on another, as everywhere in the development.
    Log output, the data directory's creation and the HTTP listener are outside. *)

From S2P Require Import Prelude Configuration Os Json FsUtil Types Encoding StateMachine RaftLog RaftLogFacts RaftLogDisk WorkingDisk RaftNode Snapshot RaftNodeFacts StateFile Config Replicator Engine EngineLoop EngineRun EngineBounds EngineReads Startup.

Definition main (c : Config) (disk meta : Os) (now draw : Z) : result (Loop fileStateStore) :=
  match NewRaftLog (WALPath c) disk with
  | (Err e, _) => Err ("Cannot open WAL at " +:+ WALPath c +:+ ": " +:+ e)%string
  | (Ok _, raftLog) =>
      let raftLog := SetCompactionThreshold (CompactionThreshold c) raftLog in
      let stateMachine := SetSessionTTL (cfg_SessionTTL c) NewMemoryStateMachine in
      match (NewRaftNode (NodeID c) (bootstrap c) (mkFileStateStore (MetadataPath c) meta) Follower now).1 with
      | Err e => Err ("Cannot initialize Raft node: " +:+ e)%string
      | Ok node =>
          match restoreFromSnapshot (SnapshotPath c) stateMachine raftLog node with
          | (Err e, _) => Err ("Snapshot restore failed: " +:+ e)%string
          | (Ok _, (stateMachine, raftLog, node)) =>
              Ok (start (NewWithTransport node raftLog stateMachine (SnapshotPath c) draw))
          end
      end
  end.

Definition settings (c : Config) : Settings :=
  mkSettings (WALPath c) (SnapshotPath c) (cfg_SessionTTL c) (CompactionThreshold c).

(** [main] is [startup], with its messages. *)
Lemma main_starts c disk meta now draw l :
  main c disk meta now draw = Ok l ↔
  (startup (settings c) (bootstrap c) (NodeID c) now draw disk (mkFileStateStore (MetadataPath c) meta)).1 = Ok l.
Proof.
  unfold main, startup. simpl. destruct (NewRaftLog (WALPath c) disk) as [[u|er] rl]; [|done].
  destruct (NewRaftNode _ _ _ _ _) as [[n|er] s]; [|done]. cbn [fst].
  by destruct (restoreFromSnapshot _ _ _ n) as [[[]|er] [[m rl'] n']].
Qed.

(** ** What a boot starts from *)

(** The machine [main] starts with. *)
Definition empty_machine (c : Config) : MemoryStateMachine :=
  SetSessionTTL (cfg_SessionTTL c) NewMemoryStateMachine.

(** What the crash theorems say the disks of a stopped server hold: a WAL of whole
    frames and at most a torn one, with consecutive indices from [first]; a
    snapshot or none; a metadata record or none. *)
Record bootable (c : Config) (fs mfs : Fs) (first : Z) (es : list LogEntry)
    (snap : option (SnapshotMeta * MemoryStateMachine)) (ps : option PersistentState) : Prop := {
  bt_wal : ∃ i nd t, wal_file fs (WALPath c) i nd ∧ i_data nd = frames es ++ t ∧ torn t;
  bt_entries : Forall storable es ∧ contiguous first es ∧ 0 < first ∧ first + Z.of_nat (length es) ≤ MaxInt64;
  bt_snapshot : visible fs (SnapshotPath c) = (λ s, snapshot_text s.1 s.2) <$> snap;
  bt_boundary :
    match snap with
    | None => first = 1
    | Some (meta, m) =>
        machine_ok m ∧ sm_sessionTTL (empty_machine c) = sm_sessionTTL m ∧
        0 ≤ LastIncludedIndex meta < MaxInt64 ∧ int64 (LastIncludedTerm meta)
    end;
  bt_meta : fs_wf mfs ∧ all_synced mfs ∧ visible mfs (MetadataPath c) = Marshal <$> ps ∧
    ∀ p, ps = Some p → json_ok p;
}.

(** ** Each part boots *)

Lemma NewRaftNode_boots id conf f now ps :
  Validate conf = None → working (fss_os f) →
  visible (os_fs (fss_os f)) (fss_path f) = Marshal <$> ps → (∀ p, ps = Some p → json_ok p) →
  ∃ n, (NewRaftNode id conf f Follower now).1 = Ok n ∧ rn_persistent n = loaded ps ∧
    rn_MatchIndex n = (λ _, 0) <$> Peers conf id.
Proof.
  intros Hv Hw Hvis Hok. unfold NewRaftNode. rewrite Hv. unfold loadPersistentState. simpl.
  unfold fileLoad, os_ReadFile. destruct Hw as [Hf Hd].
  rewrite (syscall_no_faults _ _ _ Hd Hf), Hvis. cbn [fst]. destruct ps as [p|]; cbn [fmap option_fmap option_map].
  - replace (Unmarshal (Marshal p)) with (Ok p : result PersistentState)
      by (symmetry; exact (Unmarshal_Marshal p (Hok p eq_refl))).
    eexists. by split.
  - cbn [with_os fst snd]. unfold fileSave, with_os. cbn [fss_os fss_path].
    edestruct (completes_wrap _ _ "persist raft metadata" _ (WriteFileAtomic_completes (fss_path f) (Marshal initial_state)))
      as ([] & os & He & _); [|exact I|].
    2:{ unfold initial_state in He. rewrite He. eexists. by split. }
    done.
Qed.

(** A node at index [k] of a bootstrap configuration, as the theorems about runs
    want it. *)
Lemma bootstrap_ready c (n : RaftNode fileStateStore) :
  rn_config n = bootstrap c → rn_nodeID n = NodeID c → simple n ∧ gm (Voters (rn_config n)) ≠ ∅.
Proof.
  intros Hc Hid. unfold simple. rewrite Hc, Hid. unfold bootstrap, NewConfiguration. rewrite copyMembers_id.
  simpl. split_and!; [done|done|by rewrite lookup_insert_eq|apply insert_non_empty].
Qed.

Lemma seeded_bounds k (n : RaftNode fileStateStore) id conf :
  0 ≤ k ≤ MaxInt64 → rn_LastApplied n = 0 → rn_CommitIndex n = 0 → gm (Voters (rn_config n)) ≠ ∅ →
  rn_MatchIndex n = (λ _, 0) <$> Peers conf id →
  node_bounds (SeedFromSnapshot k n) ∧
  rn_LastApplied (SeedFromSnapshot k n) = k ∧ rn_CommitIndex (SeedFromSnapshot k n) = k.
Proof.
  intros Hk Hla Hci Hv Hm. unfold SeedFromSnapshot, seedFromSnapshotLocked. rewrite Hla, Hci.
  assert (map_Forall (λ _ m, m ≤ MaxInt64) (rn_MatchIndex n)) as Hz.
  { rewrite Hm. intros p m Hp. rewrite lookup_fmap in Hp. destruct (_ !! p); [|done]. injection Hp as <-. lia. }
  destruct (Z.ltb_spec 0 k); (split_and!; [split|..]); simpl; try done; lia.
Qed.

Lemma opened_wal c fs mfs first es snap ps :
  bootable c fs mfs first es snap ps → SnapshotPath c ≠ WALPath c →
  ∃ rl, NewRaftLog (WALPath c) (calm fs) = (Ok tt, rl) ∧ rl_walOpen rl = true ∧ working (rl_disk rl) ∧
    rl_cache rl = es ∧ rl_firstIndex rl = from_option le_Index 1 (head es) ∧
    rl_nextIndex rl = from_option (λ e, le_Index e +! 1) 1 (last es) ∧ rl_lastIncludedIndex rl = 0 ∧
    visible (os_fs (rl_disk rl)) (SnapshotPath c) = (λ s, snapshot_text s.1 s.2) <$> snap.
Proof.
  intros [(i & nd & t & Hw & Hd & Ht) (Hes & _) Hsnap _ _] Hne.
  pose proof (NewRaftLog_frames _ _ _ _ _ _ Hw Hd Hes Ht) as Hn.
  destruct (NewRaftLog_calm _ _ _ _ _ _ _ Hw Hd Hes Ht eq_refl) as (fs' & Hdisk & Hsame).
  destruct (NewRaftLog (WALPath c) (calm fs)) as [r rl]. cbn [snd] in Hdisk.
  destruct Hn as (_ & -> & (Hopen & _) & Hc & _ & Hf & Hn & Hl & _).
  exists rl. split_and!; try done; rewrite Hdisk; [done|]. simpl. rewrite <-Hsnap. by apply Hsame.
Qed.

(** ** The boot *)

(** C36: a stopped server comes back.  On disks that hold what the crash theorems
    promise, whatever frame was torn and whatever the snapshot and the WAL overlap,
    [main] succeeds with nothing but a working disk, and the server it starts has
    the term and vote of its metadata, the machine of its snapshot, the applied
    index at the snapshot's boundary and the WAL's entries after it; its log and
    node satisfy everything the theorems about runs ask of a start. *)
Theorem main_recovers (c : Config) (fs mfs : Fs) (first : Z) (es : list LogEntry)
    (snap : option (SnapshotMeta * MemoryStateMachine)) (ps : option PersistentState) (now draw : Z) :
  bootable c fs mfs first es snap ps → Validate (bootstrap c) = None → DataDir c ≠ ""%string →
  ∃ l, main c (calm fs) (calm mfs) now draw = Ok l ∧
    let e := lp_engine l in
    let n := e_node e in
    rn_Role n = Follower ∧ rn_persistent n = loaded ps ∧ rn_nodeID n = NodeID c ∧
    node_durable n ∧ node_bounds n ∧ simple n ∧ log_wf (e_raftLog e) ∧
    rn_LastApplied n = rl_lastIncludedIndex (e_raftLog e) ∧ rn_CommitIndex n = rl_lastIncludedIndex (e_raftLog e) ∧
    match snap with
    | None => e_stateMachine e = empty_machine c ∧ rl_lastIncludedIndex (e_raftLog e) = 0 ∧ rl_cache (e_raftLog e) = es
    | Some (meta, m) =>
        e_stateMachine e = m ∧ rl_lastIncludedIndex (e_raftLog e) = LastIncludedIndex meta ∧
        rl_cache (e_raftLog e) =
          if decide (first ≤ LastIncludedIndex meta + 1) then drop (Z.to_nat (LastIncludedIndex meta + 1 - first)) es else []
    end.
Proof.
  intros Hboot Hvalid Hdir.
  assert (SnapshotPath c ≠ WALPath c) as Hne.
  { pose proof (data_files_apart_spec c Hdir) as Hnd. rewrite !NoDup_cons in Hnd.
    intros Heq. destruct Hnd as [Hnd _]. apply Hnd. rewrite <-Heq. set_solver. }
  destruct (opened_wal _ _ _ _ _ _ _ Hboot Hne) as (rl & Hnew & Hopen & Hw & Hc & Hf & Hn & Hl & Hvis).
  pose proof Hboot as [_ (Hst & Hcont & Hpos & Hmax) _ Hbd (Hmwf & Hmset & Hmvis & Hmok)].
  destruct (NewRaftNode_boots (NodeID c) (bootstrap c) (mkFileStateStore (MetadataPath c) (calm mfs)) now ps)
    as (n & Hnode & Hps & Hmatch); [done..|].
  destruct (NewRaftNode (NodeID c) (bootstrap c) (mkFileStateStore (MetadataPath c) (calm mfs)) Follower now)
    as [rn s'] eqn:Hrn. simpl in Hnode. subst rn. pose proof Hrn as Hrn0.
  apply NewRaftNode_inv in Hrn as (_ & Hid & Hconf & Hrole & Hvotes & Hci & Hla & _ & Hdur & _); [|done..].
  unfold main. rewrite Hnew, Hrn0. cbn [fst].
  destruct (SetCompactionThreshold_same (CompactionThreshold c) rl) as (Hc' & Ho' & Hd' & Hn' & Hf' & Hl').
  rewrite Hc in Hc'. rewrite Hopen in Ho'. rewrite Hn in Hn'. rewrite Hf in Hf'. rewrite Hl in Hl'.
  rewrite <-Hd' in Hw, Hvis. set (rl1 := SetCompactionThreshold (CompactionThreshold c) rl) in *. clearbody rl1.
  destruct (bootstrap_ready c n Hconf Hid) as [Hsimple Hvoters]. fold (empty_machine c).
  destruct snap as [[meta m]|].
  - destruct Hbd as (Hok & Httl & Hi & Ht).
    destruct (restore_completes (SnapshotPath c) (empty_machine c) m rl1 n meta) as (rl2 & os2 & Hr & _);
      [done..|unfold int64; lia|done|].
    rewrite Hr. eexists. split; [done|]. cbv zeta. simpl.
    destruct (seeded_bounds (LastIncludedIndex meta) n _ _ ltac:(lia) Hla Hci Hvoters Hmatch) as (Hnb & Happ & Hcom).
    eapply (restoreFromSnapshot_spec _ _ m _ _ _ _ _ first meta) in Hr as (-> & Hwf & Hli & _ & _ & Hcache);
      rewrite ?Hc'; try done; [|unfold cache_len; by rewrite Hc'].
    rewrite Hli. split_and!; try done; [destruct Hnb; by split|by rewrite Hcache, Hc'].
  - destruct (restore_nothing (SnapshotPath c) (empty_machine c) rl1 n Hw Hvis) as [os Hr]. rewrite Hr.
    eexists. split; [done|]. cbv zeta. simpl. subst first.
    assert (log_wf rl1) as Hwf by by apply (recovered_wf rl1 es).
    rewrite Hla, Hci, Hl'. split_and!; try done; [|by apply (logical_wf rl1)].
    split; simpl; rewrite ?Hla, ?Hci, ?Hmatch; try done.
    intros p k Hp. rewrite lookup_fmap in Hp. destruct (_ !! p); [|done]. injection Hp as <-. lia.
Qed.
