(* ===== verification/Transport.v ===== *)
(** * The HTTP surface (internal/transport/http.go, internal/raft/transport.go)

    Each handler as a function from the request and the answers of the parts it
    calls (the node's role and leader, the engine's verdict on a proposal or a
    read, the state machine) to the response.  Sockets, routing and URL decoding
    are outside the model: a request is its method, its query values and its body;
    [time.ParseDuration] is a parameter.  [postJSON] is the client side of an RPC,
    a function of what the network returned. *)

From Stdlib Require Import Strings.Byte.
From stdpp Require Import pretty.
From S2P Require Import Prelude Configuration Os Json Types Rpc Encoding RaftLog RaftNode StateMachine Engine EngineApi.

(** ** Messages *)

Record http_request := mkRequest {
  r_Method : string;
  r_Query : string → string;   (** the empty string when absent *)
  r_Body : bytes;
}.

Record http_response := mkResponse {
  r_Status : Z;
  r_Header : gmap string string;
  r_Text : bytes;
}.

Definition StatusOK : Z := 200.
Definition StatusBadRequest : Z := 400.
Definition StatusNotFound : Z := 404.
Definition StatusMethodNotAllowed : Z := 405.
Definition StatusMisdirectedRequest : Z := 421.
Definition StatusInternalServerError : Z := 500.
Definition StatusServiceUnavailable : Z := 503.

Definition newline : Byte.byte := x0a.

(** [http.Error(w, msg, code)] *)
Definition http_Error (msg : string) (code : Z) : http_response :=
  mkResponse code ∅ (str msg ++ [newline]).

Definition set_header (k v : string) (r : http_response) : http_response :=
  mkResponse (r_Status r) (<[k := v]> (r_Header r)) (r_Text r).

Definition leaderHintHeader : string := "X-Raft-Leader".
Definition stalenessHeader : string := "X-Raft-Staleness".

(** [json.NewDecoder(body).Decode(&v)]: the first JSON value of the stream. *)
Definition decode_first {A} (of_json : json → result A) (body : bytes) : result A :=
  match parse_value (S (length body)) body with
  | Err e => Err e
  | Ok (j, _) => of_json j
  end.

(** ** Redirects *)

(** What the handlers ask of the node. *)
Record node_view := mkNodeView { nv_IsLeader : bool; nv_CurrentLeader : Z }.

Definition redirectToLeader (peers : gmap Z string) (nv : node_view) : http_response :=
  let leaderID := nv_CurrentLeader nv in
  if leaderID =? 0 then
    http_Error "not the leader; no known leader, retry shortly" StatusMisdirectedRequest
  else
    match peers !! leaderID with
    | None => http_Error ("not the leader; leader is node " +:+ pretty leaderID) StatusMisdirectedRequest
    | Some addr =>
        set_header leaderHintHeader addr
          (http_Error ("not the leader; leader is node " +:+ pretty leaderID +:+ " at " +:+ addr)
             StatusMisdirectedRequest)
    end.

(** ** Writes *)

Record setRequest := mkSetRequest { sr_Key : string; sr_Value : string; sr_ClientID : string; sr_Seq : Z }.

Definition setRequest_names : list bytes := map str ["key"; "value"; "client_id"; "seq"]%string.

Definition setRequest_of_json (j : json) : result setRequest :=
  m <-? members j ;;
  x <-? dec_string (jget setRequest_names (str "key") m None) ;;
  y <-? dec_string (jget setRequest_names (str "value") m None) ;;
  z <-? dec_string (jget setRequest_names (str "client_id") m None) ;;
  u <-? dec_uint64 (jget setRequest_names (str "seq") m None) ;;
  Ok (mkSetRequest x y z u).

Record deleteRequest := mkDeleteRequest { dr_Key : string; dr_ClientID : string; dr_Seq : Z }.

Definition deleteRequest_names : list bytes := map str ["key"; "client_id"; "seq"]%string.

Definition deleteRequest_of_json (j : json) : result deleteRequest :=
  m <-? members j ;;
  x <-? dec_string (jget deleteRequest_names (str "key") m None) ;;
  z <-? dec_string (jget deleteRequest_names (str "client_id") m None) ;;
  u <-? dec_uint64 (jget deleteRequest_names (str "seq") m None) ;;
  Ok (mkDeleteRequest x z u).

Definition validateClientTag (clientID : string) (seq : Z) : option go_error :=
  if String.eqb clientID "" && (seq =? 0) then None
  else if String.eqb clientID "" then
    Some "seq given without client_id: a sequence number needs a client to be a sequence of"%string
  else if seq =? 0 then
    Some "client_id given without seq: exactly-once needs a per-client sequence number, starting at 1"%string
  else None.

(** What became of a proposal: the queue stayed full, the engine answered, or it
    did not answer in time. *)
Inductive submit_outcome := QueueFull | Answered (e : option engine_error) | NoAnswer.

Definition error_text (e : engine_error) : string :=
  match e with
  | ErrNotLeader => "not the leader"
  | ErrCommitTimeout => "commit timeout: not committed within the deadline (the entry may still commit)"
  | ErrReadTimeout => "read timeout: could not confirm leadership with a quorum"
  | ErrTooStale => "read too stale: this node has not confirmed currency with a leader recently enough"
  | ErrMaxStalenessRequired => "bounded reads require a positive max staleness"
  | ErrOther e => e
  end.

(** [nv]: the node when the answer is in. *)
Definition submitAndRespond (peers : gmap Z string) (nv : node_view) (out : submit_outcome) : http_response :=
  match out with
  | QueueFull => http_Error "proposal queue full" StatusServiceUnavailable
  | NoAnswer => http_Error "engine response timeout" StatusServiceUnavailable
  | Answered None => mkResponse StatusOK ∅ (str "OK" ++ [newline])
  | Answered (Some ErrNotLeader) => redirectToLeader peers nv
  | Answered (Some ErrCommitTimeout) => http_Error (error_text ErrCommitTimeout) StatusServiceUnavailable
  | Answered (Some e) => http_Error (error_text e) StatusInternalServerError
  end.

(** The guards the two write handlers share, up to the command to submit. *)
Definition write_command {A} (of_json : json → result A) (key client : A → string) (seq : A → Z)
    (command : A → Command) (peers : gmap Z string) (nv : node_view) (r : http_request)
    : http_response + Command :=
  if negb (String.eqb (r_Method r) "POST") then inl (http_Error "POST required" StatusMethodNotAllowed)
  else if negb (nv_IsLeader nv) then inl (redirectToLeader peers nv)
  else
    match decode_first of_json (r_Body r) with
    | Err e => inl (http_Error e StatusBadRequest)
    | Ok req =>
        if String.eqb (key req) "" then inl (http_Error "key cannot be empty" StatusBadRequest)
        else
          match validateClientTag (client req) (seq req) with
          | Some e => inl (http_Error e StatusBadRequest)
          | None => inr (command req)
          end
    end.

Definition set_command (r : setRequest) : Command :=
  mkCommand OpSet (sr_Key r) (sr_Value r) (sr_ClientID r) (sr_Seq r) 0.

Definition delete_command (r : deleteRequest) : Command :=
  mkCommand OpDelete (dr_Key r) "" (dr_ClientID r) (dr_Seq r) 0.

(** [submit] is the engine; [nv'] the node when it answers. *)
Definition respond (peers : gmap Z string) (nv' : node_view) (submit : Command → submit_outcome)
    (w : http_response + Command) : http_response :=
  match w with
  | inl resp => resp
  | inr cmd => submitAndRespond peers nv' (submit cmd)
  end.

Definition handleSet (peers : gmap Z string) (nv nv' : node_view) (submit : Command → submit_outcome)
    (r : http_request) : http_response :=
  respond peers nv' submit (write_command setRequest_of_json sr_Key sr_ClientID sr_Seq set_command peers nv r).

Definition handleDelete (peers : gmap Z string) (nv nv' : node_view) (submit : Command → submit_outcome)
    (r : http_request) : http_response :=
  respond peers nv' submit
    (write_command deleteRequest_of_json dr_Key dr_ClientID dr_Seq delete_command peers nv r).

(** ** Reads *)

Section Reads.
(** [time.ParseDuration] and [Duration.String] after truncation to milliseconds. *)
Context (ParseDuration : string → result Z) (show_staleness : Z → string).

Definition parseMaxStaleness (r : http_request) : result Z :=
  let raw := r_Query r "max_staleness" in
  if String.eqb raw "" then Err "consistency=bounded requires max_staleness (e.g. max_staleness=2s)"%string
  else
    match ParseDuration raw with
    | Err e => Err ("invalid max_staleness " +:+ quote raw +:+ ": " +:+ e)%string
    | Ok d => if d <=? 0 then Err ("max_staleness must be positive, got " +:+ show_staleness d)%string else Ok d
    end.

(** [None]: the read may be served.  [verdict] is the engine's answer, [staleness]
    its reported staleness. *)
Definition serveRead (peers : gmap Z string) (nv : node_view) (staleness : Z)
    (verdict : option engine_error) : option http_response :=
  match verdict with
  | None => None
  | Some ErrNotLeader => Some (redirectToLeader peers nv)
  | Some ErrTooStale =>
      Some (set_header stalenessHeader (show_staleness staleness)
              (http_Error (error_text ErrTooStale) StatusServiceUnavailable))
  | Some ErrMaxStalenessRequired => Some (http_Error (error_text ErrMaxStalenessRequired) StatusBadRequest)
  | Some ErrReadTimeout => Some (http_Error (error_text ErrReadTimeout) StatusServiceUnavailable)
  | Some e => Some (http_Error (error_text e) StatusInternalServerError)
  end.

(** The value found once the read is permitted. *)
Definition answer_value (staleness : Z) (val : option string) : http_response :=
  match val with
  | None => http_Error "key not found" StatusNotFound
  | Some v =>
      set_header stalenessHeader (show_staleness staleness)
        (set_header "Content-Type" "application/json"
           (mkResponse StatusOK ∅ (render (JObj [(str "value", enc_string v)]) ++ [newline])))
  end.

(** [read opts] is the engine's verdict; [get] the state machine after it. *)
Definition handleGet (peers : gmap Z string) (nv : node_view) (staleness : Z)
    (read : ReadOptions → option engine_error) (get : string → option string) (r : http_request)
    : http_response :=
  if negb (String.eqb (r_Method r) "GET") then http_Error "GET required" StatusMethodNotAllowed
  else
    let key := r_Query r "key" in
    if String.eqb key "" then http_Error "missing key parameter" StatusBadRequest
    else
      let consistency := r_Query r "consistency" in
      if String.eqb consistency "" || String.eqb consistency "linearizable" then
        match serveRead peers nv staleness (read (mkReadOptions Linearizable 0)) with
        | Some resp => resp
        | None => answer_value staleness (get key)
        end
      else if String.eqb consistency "bounded" then
        match parseMaxStaleness r with
        | Err e => http_Error e StatusBadRequest
        | Ok d =>
            match serveRead peers nv staleness (read (mkReadOptions BoundedStale d)) with
            | Some resp => resp
            | None => answer_value staleness (get key)
            end
        end
      else if String.eqb consistency "local" then answer_value staleness (get key)
      else http_Error ("unknown consistency " +:+ quote consistency +:+ ": want linearizable, bounded or local")
             StatusBadRequest.

End Reads.

(** ** Internal RPCs *)

(** The shared body of the five internal handlers: decode, delegate, encode. *)
Definition handleInternal {Req Resp T} `{JsonRep Req} `{JsonRep Resp} (handle : Req → T → Resp * T)
    (r : http_request) (t : T) : http_response * T :=
  if negb (String.eqb (r_Method r) "POST") then (http_Error "POST required" StatusMethodNotAllowed, t)
  else
    match decode_first of_json (r_Body r) with
    | Err e => (http_Error e StatusBadRequest, t)
    | Ok req =>
        let '(resp, t) := handle req t in
        (set_header "Content-Type" "application/json"
           (mkResponse StatusOK ∅ (render (to_json resp) ++ [newline])), t)
    end.

Section Internal.
Context {T Env : Type} `{rpcHandler T Env} (env : Env).

Definition handleInternalAppend : http_request → T → http_response * T :=
  handleInternal (rpc_AppendEntries env).

Definition handleInternalPreVote : http_request → T → http_response * T :=
  handleInternal (rpc_PreVote env).

Definition handleInternalReadIndex : http_request → T → http_response * T :=
  handleInternal (rpc_ReadIndex env).

Definition handleInternalVote : http_request → T → http_response * T :=
  handleInternal (rpc_RequestVote env).

Definition handleInternalSnapshot : http_request → T → http_response * T :=
  handleInternal (rpc_InstallSnapshot env).

(** The routes, the internal ones with their handlers; the client's are served by
    [handleSet], [handleGet] and [handleDelete] above. *)
Inductive route :=
  | ClientRoute (name : string)
  | InternalRoute (serve : http_request → T → http_response * T).

Definition RegisterRoutes : gmap string route := list_to_map [
  ("/set", ClientRoute "set"); ("/get", ClientRoute "get"); ("/delete", ClientRoute "delete");
  ("/internal/append", InternalRoute handleInternalAppend);
  ("/internal/prevote", InternalRoute handleInternalPreVote);
  ("/internal/readindex", InternalRoute handleInternalReadIndex);
  ("/internal/vote", InternalRoute handleInternalVote);
  ("/internal/snapshot", InternalRoute handleInternalSnapshot)]%string.

End Internal.

(** [postJSON]: the network maps a URL and a request to a response or an error. *)
Definition postJSON {Req Resp} `{JsonRep Req} `{JsonRep Resp}
    (post : string → http_request → result http_response) (addr path : string) (req : Req) : result Resp :=
  match post ("http://" +:+ addr +:+ "/" +:+ path)%string (mkRequest "POST" (λ _, ""%string) (render (to_json req))) with
  | Err e => Err ("post " +:+ path +:+ " to " +:+ addr +:+ ": " +:+ e)%string
  | Ok resp =>
      if negb (r_Status resp =? StatusOK) then
        Err ("peer " +:+ addr +:+ " returned HTTP " +:+ pretty (r_Status resp) +:+ " for " +:+ path)%string
      else
        match decode_first of_json (r_Text resp) with
        | Err e => Err ("decode " +:+ path +:+ " response from " +:+ addr +:+ ": " +:+ e)%string
        | Ok v => Ok v
        end
  end.

Definition HTTPTransport (post : string → http_request → result http_response) : Transport :=
  mkTransport
    (λ addr, postJSON post addr "internal/append")
    (λ addr, postJSON post addr "internal/prevote")
    (λ addr, postJSON post addr "internal/vote")
    (λ addr, postJSON post addr "internal/snapshot")
    (λ addr, postJSON post addr "internal/readindex").

(** ** Properties *)

Lemma decode_first_render {A} (dec : json → result A) j rest :
  terminated rest → decode_first dec (render j ++ rest) = dec j.
Proof.
  intros Hr. unfold decode_first. rewrite parse_render; [done| |done].
  pose proof (length_render j). rewrite length_app. lia.
Qed.

(** An RPC delivers the request and returns the reply: when the peer answers with
    one of its internal handlers, the caller decodes exactly the response the
    handler computed from exactly the request that was sent. *)
Theorem rpc_faithful {Req Resp T} `{JsonRep Req} `{JsonRep Resp} (handle : Req → T → Resp * T)
    (t t' : T) (addr path : string) (req : Req) (resp : Resp)
    (post : string → http_request → result http_response) :
  json_ok req → json_ok resp →
  handle req t = (resp, t') →
  (∀ body, post ("http://" +:+ addr +:+ "/" +:+ path)%string (mkRequest "POST" (λ _, ""%string) body)
     = Ok (handleInternal handle (mkRequest "POST" (λ _, ""%string) body) t).1) →
  postJSON post addr path req = Ok resp ∧
  (handleInternal handle (mkRequest "POST" (λ _, ""%string) (render (to_json req))) t).2 = t'.
Proof.
  intros Hreq Hresp Hh Hpost.
  assert (handleInternal handle (mkRequest "POST" (λ _, ""%string) (render (to_json req))) t
    = (set_header "Content-Type" "application/json"
         (mkResponse StatusOK ∅ (render (to_json resp) ++ [newline])), t')) as Hi.
  { unfold handleInternal. cbn [r_Method r_Body]. simpl negb. cbn match.
    rewrite <-(app_nil_r (render (to_json req))), decode_first_render by done.
    rewrite of_to_json by done. by rewrite Hh. }
  split; [|by rewrite Hi]. unfold postJSON. rewrite Hpost, Hi. cbn [fst set_header r_Status r_Text].
  simpl negb. cbn match.
  rewrite decode_first_render by (simpl; tauto). by rewrite of_to_json.
Qed.

(** What a server at [addr] whose handlers act on [t] makes of a request: its routes
    decide, and what they do not know is not found. *)
Definition served {T Env} `{rpcHandler T Env} (env : Env) (addr : string) (t : T)
    (post : string → http_request → result http_response) : Prop :=
  ∀ path rt r, RegisterRoutes env !! ("/" +:+ path)%string = Some (InternalRoute rt) →
    post ("http://" +:+ addr +:+ "/" +:+ path)%string r = Ok (rt r t).1.

(** C39: the five RPCs reach their handlers.  A caller that posts to a server which
    serves its routes gets, from each method of the HTTP transport, exactly the
    response the handler of that name computed from exactly the request that was
    sent: no method is wired to another's path, and nothing is lost on the wire. *)
Theorem http_transport_faithful {T Env} `{rpcHandler T Env} (env : Env) (t : T) (addr : string)
    (post : string → http_request → result http_response) :
  served env addr t post →
  let tr := HTTPTransport post in
  (∀ req, json_ok req → json_ok (rpc_AppendEntries env req t).1 →
     tr_AppendEntries tr addr req = Ok (rpc_AppendEntries env req t).1) ∧
  (∀ req, json_ok req → json_ok (rpc_PreVote env req t).1 →
     tr_PreVote tr addr req = Ok (rpc_PreVote env req t).1) ∧
  (∀ req, json_ok req → json_ok (rpc_RequestVote env req t).1 →
     tr_RequestVote tr addr req = Ok (rpc_RequestVote env req t).1) ∧
  (∀ req, json_ok req → json_ok (rpc_InstallSnapshot env req t).1 →
     tr_InstallSnapshot tr addr req = Ok (rpc_InstallSnapshot env req t).1) ∧
  (∀ req, json_ok req → json_ok (rpc_ReadIndex env req t).1 →
     tr_ReadIndex tr addr req = Ok (rpc_ReadIndex env req t).1).
Proof.
  intros Hserved tr. split_and!; intros req Hreq Hresp; simpl.
  - by eapply (rpc_faithful (rpc_AppendEntries env)); [..|apply surjective_pairing|intros body; by apply Hserved].
  - by eapply (rpc_faithful (rpc_PreVote env)); [..|apply surjective_pairing|intros body; by apply Hserved].
  - by eapply (rpc_faithful (rpc_RequestVote env)); [..|apply surjective_pairing|intros body; by apply Hserved].
  - by eapply (rpc_faithful (rpc_InstallSnapshot env)); [..|apply surjective_pairing|intros body; by apply Hserved].
  - by eapply (rpc_faithful (rpc_ReadIndex env)); [..|apply surjective_pairing|intros body; by apply Hserved].
Qed.

(** C40: a write reaches consensus only when it is well formed, and is acknowledged
    only when consensus says so.  Whatever a handler sends to the engine has a key
    and either both halves of a client tag or neither; a 200 means the engine
    answered nil for exactly that command; and a request to a follower never
    reaches the engine and names the leader whenever its address is known. *)
Theorem write_handlers_correct (peers : gmap Z string) (nv nv' : node_view)
    (submit : Command → submit_outcome) (r : http_request) :
  let wset := write_command setRequest_of_json sr_Key sr_ClientID sr_Seq set_command peers nv r in
  let wdel := write_command deleteRequest_of_json dr_Key dr_ClientID dr_Seq delete_command peers nv r in
  (∀ w cmd, (w = wset ∨ w = wdel) → w = inr cmd →
     r_Method r = "POST"%string ∧ nv_IsLeader nv = true ∧ cmd_Key cmd ≠ ""%string ∧
     (cmd_ClientID cmd = ""%string ↔ cmd_Seq cmd = 0) ∧ cmd_Timestamp cmd = 0) ∧
  (∀ w, (w = wset ∨ w = wdel) → r_Status (respond peers nv' submit w) = StatusOK →
     ∃ cmd, w = inr cmd ∧ submit cmd = Answered None) ∧
  (∀ w addr, (w = wset ∨ w = wdel) → r_Method r = "POST"%string → nv_IsLeader nv = false →
     nv_CurrentLeader nv ≠ 0 → peers !! nv_CurrentLeader nv = Some addr →
     ∃ resp, w = inl resp ∧ r_Status resp = StatusMisdirectedRequest ∧
       r_Header resp !! leaderHintHeader = Some addr).
Proof.
  intros wset wdel.
  assert (∀ id seq, validateClientTag id seq = None → (id = ""%string ↔ seq = 0)) as Htag.
  { intros id seq. unfold validateClientTag.
    destruct (String.eqb_spec id ""), (Z.eqb_spec seq 0); simpl; naive_solver. }
  assert (∀ nv, r_Status (redirectToLeader peers nv) = StatusMisdirectedRequest) as Hred.
  { intros nv0. unfold redirectToLeader. destruct (_ =? 0); [done|]. by destruct (peers !! _). }
  assert (∀ A (of_json : json → result A) key client seq command,
    (∀ resp, write_command of_json key client seq command peers nv r = inl resp → r_Status resp ≠ StatusOK) ∧
    (∀ cmd, write_command of_json key client seq command peers nv r = inr cmd →
       r_Method r = "POST"%string ∧ nv_IsLeader nv = true ∧
       ∃ a, command a = cmd ∧ key a ≠ ""%string ∧ (client a = ""%string ↔ seq a = 0))) as Hw.
  { intros A dec key client seq command. unfold write_command.
    destruct (String.eqb_spec (r_Method r) "POST"); simpl; [|split; [by intros ? [= <-]|done]].
    destruct (nv_IsLeader nv); simpl; [|split; [intros ? [= <-]; by rewrite Hred|done]].
    destruct (decode_first dec (r_Body r)) as [a|]; [|split; [by intros ? [= <-]|done]].
    destruct (String.eqb_spec (key a) ""); [split; [by intros ? [= <-]|done]|].
    destruct (validateClientTag (client a) (seq a)) eqn:Ht; [split; [by intros ? [= <-]|done]|].
    split; [done|]. intros cmd [= <-]. split_and!; try done. exists a. split_and!; try done; by apply Htag. }
  destruct (Hw _ setRequest_of_json sr_Key sr_ClientID sr_Seq set_command) as [Hs1 Hs2].
  destruct (Hw _ deleteRequest_of_json dr_Key dr_ClientID dr_Seq delete_command) as [Hd1 Hd2].
  fold wset in Hs1, Hs2. fold wdel in Hd1, Hd2. split_and!.
  - intros w cmd [-> | ->] Hc; [destruct (Hs2 _ Hc) as (? & ? & a & <- & ? & ?)|
      destruct (Hd2 _ Hc) as (? & ? & a & <- & ? & ?)]; done.
  - assert (∀ w, (∀ resp, w = inl resp → r_Status resp ≠ StatusOK) →
      r_Status (respond peers nv' submit w) = StatusOK → ∃ cmd, w = inr cmd ∧ submit cmd = Answered None) as Hok.
    { intros [resp|cmd] Hn Hr; [by destruct (Hn resp)|]. exists cmd. split; [done|]. revert Hr. simpl.
      unfold submitAndRespond. destruct (submit cmd) as [|[[]|]|]; try done. by rewrite Hred. }
    intros w [-> | ->]; by apply Hok.
  - intros w addr Hor Hm Hl Hz Ha. assert (w = inl (redirectToLeader peers nv)) as ->.
    { destruct Hor as [-> | ->]; unfold wset, wdel, write_command; by rewrite Hm, Hl. }
    eexists. split; [done|]. split; [apply Hred|]. unfold redirectToLeader.
    destruct (Z.eqb_spec (nv_CurrentLeader nv) 0); [done|]. rewrite Ha. simpl. by rewrite lookup_insert_eq.
Qed.

(** a read is answered only at the consistency the client asked for.  A value
    or a not-found comes from the state machine only after the engine permitted the
    read at the requested level, linearizable being the default, or when the client
    asked for local explicitly; a bounded read needs a positive bound, and an
    unknown level is refused. *)
Theorem handleGet_correct (ParseDuration : string → result Z) (show : Z → string)
    (peers : gmap Z string) (nv : node_view) (staleness : Z)
    (read : ReadOptions → option engine_error) (get : string → option string) (r : http_request) :
  let resp := handleGet ParseDuration show peers nv staleness read get r in
  (r_Status resp = StatusOK ∨ r_Status resp = StatusNotFound) →
  resp = answer_value show staleness (get (r_Query r "key")) ∧
  r_Method r = "GET"%string ∧ r_Query r "key" ≠ ""%string ∧
  ((r_Query r "consistency" = ""%string ∨ r_Query r "consistency" = "linearizable"%string) ∧
     read (mkReadOptions Linearizable 0) = None ∨
   r_Query r "consistency" = "bounded"%string ∧
     (∃ d, ParseDuration (r_Query r "max_staleness") = Ok d ∧ 0 < d ∧ read (mkReadOptions BoundedStale d) = None) ∨
   r_Query r "consistency" = "local"%string).
Proof.
  assert (∀ v resp, serveRead show peers nv staleness v = Some resp →
    r_Status resp ≠ StatusOK ∧ r_Status resp ≠ StatusNotFound) as Hserve.
  { assert (∀ nv, r_Status (redirectToLeader peers nv) = StatusMisdirectedRequest) as Hred.
    { intros nv0. unfold redirectToLeader. destruct (_ =? 0); [done|]. by destruct (peers !! _). }
    unfold serveRead. intros [[]|] resp; intros [= <-]; try done. by rewrite Hred. }
  assert (∀ v, serveRead show peers nv staleness v = None → v = None) as Hnone.
  { unfold serveRead. by intros [[]|]. }
  cbv zeta. unfold handleGet. destruct (String.eqb_spec (r_Method r) "GET"); simpl; [|by intros [|]].
  destruct (String.eqb_spec (r_Query r "key") ""); [by intros [|]|].
  destruct (String.eqb_spec (r_Query r "consistency") "") as [Hc|Hc]; simpl;
    [|destruct (String.eqb_spec (r_Query r "consistency") "linearizable") as [Hl|Hl]].
  1, 2: destruct (serveRead _ _ _ _ _) eqn:Hv; [apply Hserve in Hv; naive_solver|apply Hnone in Hv; naive_solver].
  destruct (String.eqb_spec (r_Query r "consistency") "bounded") as [Hb|Hb].
  - unfold parseMaxStaleness. destruct (String.eqb _ ""); [by intros [|]|].
    destruct (ParseDuration _) as [d|]; [|by intros [|]].
    destruct (Z.leb_spec d 0); [by intros [|]|].
    destruct (serveRead _ _ _ _ _) eqn:Hv; [apply Hserve in Hv; naive_solver|apply Hnone in Hv].
    intros _. split_and!; try done. right. left. eauto.
  - destruct (String.eqb_spec (r_Query r "consistency") "local"); [|by intros [|]]. naive_solver.
Qed.
