(* ===== verification/Cluster.v ===== *)
(** * Elections across a cluster

    Servers built from the real methods of RaftNode and RaftLog, interleaved at
    critical-section granularity under an adversarial network: any request may
    arrive at any time with any contents, a granted vote is recorded forever and
    may be delivered to the candidate it names any number of times, in any order
    or never; a server may crash at any point of a disk write and come back with
    anything that crash allows.  Election Safety is proved for every reachable
    state. *)

From stdpp Require Import functions.
From S2P Require Import Prelude Configuration Os FsUtil Types RaftLog RaftNode RaftNodeFacts RaftNodeRoles.

Section Cluster.
Context {S : Type} `{StateStoreLaws S} `{Codec LogEntry}.

(** The static configuration every server is started with. *)
Context (config : Configuration).

(** ** State *)

(** A running server: its node, its log, and the terms in which its control loop
    has seen a majority but not yet promoted itself. *)
Record Server := mkServer { sv_node : RaftNode S; sv_log : RaftLog; sv_won : gset Z }.

Inductive status := Up (sv : Server) | Down (store : S).

(** [(term, candidate, voter)]: [voter] granted [candidate] its vote in [term]. *)
Abbreviation ballot_t := (Z * Z * Z)%type.

Record Cluster := mkCluster {
  cl_status : Z → status;
  cl_ballots : list ballot_t;
  cl_elected : list (Z * Z);  (** [(term, leader)], every promotion so far *)
}.

Definition set_server (i : Z) (sv : Server) (c : Cluster) : Cluster :=
  mkCluster (<[i := Up sv]> (cl_status c)) (cl_ballots c) (cl_elected c).

Definition set_down (i : Z) (s : S) (c : Cluster) : Cluster :=
  mkCluster (<[i := Down s]> (cl_status c)) (cl_ballots c) (cl_elected c).

Definition cast (b : ballot_t) (c : Cluster) : Cluster :=
  mkCluster (cl_status c) (b :: cl_ballots c) (cl_elected c).

Definition elect (t i : Z) (c : Cluster) : Cluster :=
  mkCluster (cl_status c) (cl_ballots c) ((t, i) :: cl_elected c).

Definition with_node (n : RaftNode S) (sv : Server) : Server := mkServer n (sv_log sv) (sv_won sv).

(** The methods of a leader or applier that touch only volatile bookkeeping. *)
Inductive bookkeeping (rl : RaftLog) (n : RaftNode S) : RaftNode S → Prop :=
  | bk_progress p m : bookkeeping rl n (UpdatePeerProgress p m n)
  | bk_backtrack p h : bookkeeping rl n (BacktrackNextIndex p h n)
  | bk_commit t : bookkeeping rl n (AdvanceCommitIndex (LatestIndex rl) (TermAt rl) t n).2
  | bk_apply : bookkeeping rl n (AdvanceLastApplied n).2
  | bk_seed k : bookkeeping rl n (SeedFromSnapshot k n)
  | bk_follower_commit lc k : bookkeeping rl n (SetFollowerCommitIndex lc k n)
  | bk_contact now : bookkeeping rl n (noteContact now n)
  | bk_timeout d : bookkeeping rl n (SetMinElectionTimeout d n).

(** ** Steps *)

Inductive step (c : Cluster) : Cluster → Prop :=
  | step_request_vote i sv req now resp n' :
      cl_status c i = Up sv →
      HandleRequestVote req (LastLogState (sv_log sv)) now (sv_node sv) = (resp, n') →
      step c (set_server i (with_node n' sv)
               (if rvr_VoteGranted resp then cast (rvr_Term resp, rv_CandidateID req, i) c else c))
  | step_campaign i sv now t n' :
      cl_status c i = Up sv →
      int64 (rn_term (sv_node sv)) → rn_term (sv_node sv) < MaxInt64 →
      BecomeCandidate now (sv_node sv) = (Ok t, n') →
      step c (set_server i
               (mkServer n' (sv_log sv)
                  (if decide (NodePeers n' = ∅) then {[t]} ∪ sv_won sv else sv_won sv))
               (cast (t, NodeID n', i) c))
  | step_campaign_failed i sv now e n' :
      cl_status c i = Up sv →
      int64 (rn_term (sv_node sv)) → rn_term (sv_node sv) < MaxInt64 →
      BecomeCandidate now (sv_node sv) = (Err e, n') →
      step c (set_server i (with_node n' sv) c)
  | step_vote i sv voter t won n' :
      cl_status c i = Up sv →
      (t, i, voter) ∈ cl_ballots c →
      RecordVoteAndCheckMajority voter t (sv_node sv) = (won, n') →
      step c (set_server i
               (mkServer n' (sv_log sv) (if won then {[t]} ∪ sv_won sv else sv_won sv)) c)
  | step_promote i sv t k promoted n' :
      cl_status c i = Up sv →
      t ∈ sv_won sv →
      BecomeLeader t k (sv_node sv) = (promoted, n') →
      step c (set_server i (with_node n' sv) (if promoted then elect t i c else c))
  | step_follow i sv t l r n' :
      cl_status c i = Up sv →
      BecomeFollower t l (sv_node sv) = (r, n') →
      step c (set_server i (with_node n' sv) c)
  | step_append i sv req now resp n' rl' :
      cl_status c i = Up sv →
      HandleAppendEntries (sv_log sv) req now (sv_node sv) = (resp, n', rl') →
      step c (set_server i (mkServer n' rl' (sv_won sv)) c)
  | step_snapshot {X} i sv req restore persist now (x : X) resp n' rl' x' :
      cl_status c i = Up sv →
      HandleInstallSnapshot (sv_log sv) req restore persist now (sv_node sv) x = (resp, n', rl', x') →
      step c (set_server i (mkServer n' rl' (sv_won sv)) c)
  | step_bookkeeping i sv n' :
      cl_status c i = Up sv →
      bookkeeping (sv_log sv) (sv_node sv) n' →
      step c (set_server i (with_node n' sv) c)
  | step_log i sv cmd t r rl' :
      cl_status c i = Up sv →
      AppendLeader cmd t (sv_log sv) = (r, rl') →
      step c (set_server i (mkServer (sv_node sv) rl' (sv_won sv)) c)
  | step_compact i sv k t r rl' :
      cl_status c i = Up sv →
      TruncateBeforeIndex k t (sv_log sv) = (r, rl') →
      step c (set_server i (mkServer (sv_node sv) rl' (sv_won sv)) c)
  | step_disk i sv os :
      cl_status c i = Up sv →
      step c (set_server i (mkServer (sv_node sv) (set_disk os (sv_log sv)) (sv_won sv)) c)
  | step_crash i sv s' :
      cl_status c i = Up sv →
      ss_reboot (rn_store (sv_node sv)) s' →
      step c (set_down i s' c)
  | step_boot i s now n s' k rl :
      cl_status c i = Down s → 0 < i →
      NewRaftNode i config s Follower now = (Ok n, s') →
      step c (set_server i (mkServer (SeedFromSnapshot k n) rl ∅) c)
  | step_boot_failed i s now e s1 s2 :
      cl_status c i = Down s →
      NewRaftNode i config s Follower now = (Err e, s1) →
      ss_reboot s1 s2 →
      step c (set_down i s2 c).

(** A cluster before its first boot: any stores, nothing voted or elected. *)
Definition initial (c : Cluster) : Prop :=
  (∀ i, ∃ s, cl_status c i = Down s ∧ ss_inv s ∧ ss_settled s) ∧
  cl_ballots c = [] ∧ cl_elected c = [].

Inductive reachable (c0 : Cluster) : Cluster → Prop :=
  | reach_here : reachable c0 c0
  | reach_step c c' : reachable c0 c → step c c' → reachable c0 c'.

(** ** The invariant *)

(** A quorum of the configuration voted for [i] in [t]. *)
Definition carried (bs : list ballot_t) (t i : Z) : Prop :=
  ∃ have, HasQuorum config have = true ∧ ∀ v, gm_bool have v = true → (t, i, v) ∈ bs.

(** [status_bound st p]: whatever the server does next, it stands at or after [p]. *)
Definition status_bound (st : status) (p : PersistentState) : Prop :=
  match st with
  | Up sv => ps_le p (rn_persistent (sv_node sv))
  | Down s => ∀ q, may_load s q → ps_le p (loaded q)
  end.

(** What a running server's own memory says about the ballots cast. *)
Record server_ok (bs : list ballot_t) (el : list (Z * Z)) (i : Z) (sv : Server) : Prop := {
  so_id : rn_nodeID (sv_node sv) = i;
  so_pos : 0 < i;
  so_config : rn_config (sv_node sv) = config;
  so_durable : node_durable (sv_node sv);
  so_tally : rn_Role (sv_node sv) = Candidate →
    ∃ votes, rn_votesFrom (sv_node sv) = Some votes ∧
      ∀ v, gm_bool (Some votes) v = true → (rn_term (sv_node sv), i, v) ∈ bs;
  so_won : ∀ t, t ∈ sv_won sv → carried bs t i;
  so_leader : rn_Role (sv_node sv) = Leader → (rn_term (sv_node sv), i) ∈ el;
}.

Definition status_ok (bs : list ballot_t) (el : list (Z * Z)) (i : Z) (st : status) : Prop :=
  match st with
  | Up sv => server_ok bs el i sv
  | Down s => ss_inv s ∧ ss_settled s
  end.

Record cluster_inv (c : Cluster) : Prop := {
  ci_status : ∀ i, status_ok (cl_ballots c) (cl_elected c) i (cl_status c i);
  ci_bound : ∀ t cand v, (t, cand, v) ∈ cl_ballots c → cand ≠ -1 →
    status_bound (cl_status c v) (mkPersistentState t cand);
  ci_once : ∀ t c1 c2 v, (t, c1, v) ∈ cl_ballots c → (t, c2, v) ∈ cl_ballots c →
    c1 ≠ -1 → c2 ≠ -1 → c1 = c2;
  ci_elected : ∀ t i, (t, i) ∈ cl_elected c → 0 < i ∧ carried (cl_ballots c) t i;
}.

Lemma carried_mono bs bs' t i : bs ⊆ bs' → carried bs t i → carried bs' t i.
Proof. intros Hs (have & Hq & Hv). exists have. split; [done|]. intros v Hb. by apply Hs, Hv. Qed.

Lemma server_ok_mono bs bs' el el' i sv :
  bs ⊆ bs' → el ⊆ el' → server_ok bs el i sv → server_ok bs' el' i sv.
Proof.
  intros Hb He [? ? ? ? Ht Hw Hl]. split; try done; eauto using carried_mono.
  intros Hr. destruct (Ht Hr) as (votes & Hv & Hin). eauto.
Qed.

Lemma status_ok_mono bs bs' el el' i st :
  bs ⊆ bs' → el ⊆ el' → status_ok bs el i st → status_ok bs' el' i st.
Proof. destruct st; [|done]. apply server_ok_mono. Qed.

(** ** Preservation *)

(** The parts of [server_ok] that follow from the node having evolved. *)
Lemma server_ok_step bs el bs' el' i sv sv' :
  server_ok bs el i sv → evolves (sv_node sv) (sv_node sv') →
  (rn_Role (sv_node sv') = Candidate →
     ∃ votes, rn_votesFrom (sv_node sv') = Some votes ∧
       ∀ v, gm_bool (Some votes) v = true → (rn_term (sv_node sv'), i, v) ∈ bs') →
  (∀ t, t ∈ sv_won sv' → carried bs' t i) →
  (rn_Role (sv_node sv') = Leader → (rn_term (sv_node sv'), i) ∈ el') →
  server_ok bs' el' i sv'.
Proof.
  intros [Hi Hp Hc Hd _ _ _] ((Hi' & Hc') & _ & Hd') Ht Hw Hl.
  split; try done; [congruence|congruence|by apply Hd'].
Qed.

Lemma server_ok_quiet bs el bs' el' i sv sv' :
  server_ok bs el i sv → bs ⊆ bs' → el ⊆ el' →
  evolves (sv_node sv) (sv_node sv') → quiet (sv_node sv) (sv_node sv') →
  sv_won sv' = sv_won sv →
  server_ok bs' el' i sv'.
Proof.
  intros Hok Hb He Hev Hq Hw. eapply server_ok_step; [done..| | |].
  - destruct Hq as [Hq|(Hr & Ht & Hv)]; [congruence|]. rewrite Hr, Ht, Hv. intros Hcand.
    destruct (so_tally _ _ _ _ Hok Hcand) as (votes & Hvotes & Hin). exists votes. split; [done|]. eauto.
  - rewrite Hw. intros t Hin. eapply carried_mono; [done|]. by eapply so_won.
  - destruct Hq as [Hq|(Hr & Ht & _)]; [congruence|]. rewrite Hr, Ht. intros Hlead.
    apply He. by eapply so_leader.
Qed.

(** One running server moves, possibly casting one ballot of its own. *)
Lemma inv_update c i sv sv' (b : option (Z * Z)) el' :
  cluster_inv c → cl_status c i = Up sv → evolves (sv_node sv) (sv_node sv') →
  (∀ t cand, b = Some (t, cand) → rn_persistent (sv_node sv') = mkPersistentState t cand) →
  let bs' := match b with Some (t, cand) => (t, cand, i) :: cl_ballots c | None => cl_ballots c end in
  (∀ t j, (t, j) ∈ el' → (t, j) ∈ cl_elected c ∨ j = i ∧ 0 < i ∧ carried bs' t i) →
  cl_elected c ⊆ el' →
  server_ok bs' el' i sv' →
  cluster_inv (mkCluster (<[i := Up sv']> (cl_status c)) bs' el').
Proof.
  intros [Hst Hbd Hon Hel] Hi Hev Hb bs' Hel' Hsub Hok.
  assert (cl_ballots c ⊆ bs') as Hbs by (unfold bs'; destruct b as [[]|]; set_solver).
  pose proof Hev as (_ & Hle & _).
  assert (∀ t cand v, (t, cand, v) ∈ bs' →
    (t, cand, v) ∈ cl_ballots c ∨ v = i ∧ b = Some (t, cand)) as Hcases.
  { unfold bs'. destruct b as [[t0 c0]|]; [|auto]. intros t cand v [[= -> -> ->]|?]%elem_of_cons; auto. }
  split; simpl.
  - intros j. destruct (decide (i = j)) as [<-|Hne]; [by rewrite fn_lookup_insert|].
    rewrite fn_lookup_insert_ne by done. by eapply status_ok_mono.
  - intros t cand v Hin Hc. destruct (decide (i = v)) as [<-|Hne].
    + rewrite fn_lookup_insert. simpl. destruct (Hcases _ _ _ Hin) as [Ho|[_ ->]].
      * etransitivity; [|exact Hle]. pose proof (Hbd _ _ _ Ho Hc) as Hb'. by rewrite Hi in Hb'.
      * by rewrite (Hb _ _ eq_refl).
    + rewrite fn_lookup_insert_ne by done. destruct (Hcases _ _ _ Hin) as [Ho|[-> _]]; [eauto|done].
  - assert (∀ t c1, (t, c1, i) ∈ cl_ballots c → c1 ≠ -1 → ps_le (mkPersistentState t c1) (rn_persistent (sv_node sv'))) as Hown.
    { intros t c1 Ho Hc. etransitivity; [|exact Hle]. pose proof (Hbd _ _ _ Ho Hc) as Hb'. by rewrite Hi in Hb'. }
    intros t c1 c2 v Hx1 Hx2 Hc1 Hc2.
    destruct (Hcases _ _ _ Hx1) as [Ho1|[-> Hb1]], (Hcases _ _ _ Hx2) as [Ho2|[Hv2 Hb2]]; subst.
    + eauto.
    + pose proof (Hown _ _ Ho1 Hc1) as Hb'. rewrite (Hb _ _ eq_refl) in Hb'. by apply ps_le_vote in Hb'.
    + pose proof (Hown _ _ Ho2 Hc2) as Hb'. rewrite (Hb _ _ eq_refl) in Hb'. by apply ps_le_vote in Hb'.
    + congruence.
  - intros t j Hin. destruct (Hel' _ _ Hin) as [Ho|(-> & Hp & Hc)]; [|done].
    destruct (Hel _ _ Ho). split; [done|]. by eapply carried_mono.
Qed.

(** The common case: no ballot, no promotion. *)
Lemma inv_quiet c i sv sv' :
  cluster_inv c → cl_status c i = Up sv →
  evolves (sv_node sv) (sv_node sv') → quiet (sv_node sv) (sv_node sv') →
  sv_won sv' = sv_won sv →
  cluster_inv (set_server i sv' c).
Proof.
  intros Hinv Hi Hev Hq Hw. pose proof (ci_status _ Hinv i) as Hok. rewrite Hi in Hok.
  apply (inv_update c i sv sv' None (cl_elected c)); try done; [auto|].
  by eapply server_ok_quiet.
Qed.

Lemma inv_down c i s :
  cluster_inv c → ss_inv s → ss_settled s →
  (∀ p, status_bound (cl_status c i) p → status_bound (Down s) p) →
  cluster_inv (set_down i s c).
Proof.
  intros [Hst Hbd Hon Hel] Hs Hset Hb. split; simpl; try done.
  - intros j. destruct (decide (i = j)) as [<-|Hne]; [by rewrite fn_lookup_insert|].
    by rewrite fn_lookup_insert_ne.
  - intros t cand v Hin Hc. destruct (decide (i = v)) as [<-|Hne].
    + rewrite fn_lookup_insert. eauto.
    + rewrite fn_lookup_insert_ne by done. eauto.
Qed.

(** ** What bookkeeping does to role, term and tally *)

Lemma bookkeeping_ok rl n n' : bookkeeping rl n n' → evolves n n' ∧ quiet n n'.
Proof.
  assert (∀ n1, rn_nodeID n1 = rn_nodeID n → rn_config n1 = rn_config n →
    rn_persistent n1 = rn_persistent n → rn_store n1 = rn_store n → rn_Role n1 = rn_Role n →
    rn_votesFrom n1 = rn_votesFrom n → evolves n n1 ∧ quiet n n1) as Hsame.
  { intros n1 ??? ???. split; [by apply evolves_volatile|]. right. unfold rn_term. by split_and!; congruence. }
  intros [p m|p h|t| |k|lc k|now|d]; try by apply Hsame.
  - apply Hsame; unfold UpdatePeerProgress; by destruct (rn_MatchIndex n !! p).
  - apply Hsame; unfold AdvanceCommitIndex; case_bool_decide; try done;
      match goal with |- context [if ?b then _ else _] => by destruct b end.
  - split; [apply setFollowerCommit_evolves|apply setFollowerCommit_quiet].
  - apply Hsame; unfold SetMinElectionTimeout; by destruct (d <=? 0).
Qed.

(** ** Election Safety *)

(** A granted vote: the ballot is recorded under the voter's new state. *)
Lemma inv_request_vote c i sv req last now resp n' :
  cluster_inv c → cl_status c i = Up sv →
  HandleRequestVote req last now (sv_node sv) = (resp, n') →
  cluster_inv (set_server i (with_node n' sv)
    (if rvr_VoteGranted resp then cast (rvr_Term resp, rv_CandidateID req, i) c else c)).
Proof.
  intros Hinv Hi Hh. pose proof (HandleRequestVote_quiet _ _ _ _ _ _ Hh) as Hq.
  pose proof (HandleRequestVote_evolves _ _ _ _ _ _ Hh) as Hev.
  pose proof (ci_status _ Hinv i) as Hok. rewrite Hi in Hok.
  destruct (rvr_VoteGranted resp) eqn:Hg; [|by apply (inv_quiet c i sv)].
  destruct (HandleRequestVote_granted _ _ _ _ _ _ Hh Hg) as [Ht Hp].
  apply (inv_update c i sv (with_node n' sv) (Some (rvr_Term resp, rv_CandidateID req)) (cl_elected c));
    try done; [|by auto|].
  - intros t cand [= <- <-]. simpl. by rewrite Ht.
  - eapply server_ok_quiet; try done. simpl. set_solver.
Qed.

(** The candidate's own vote opens its tally; alone, it is a quorum. *)
Lemma alone_quorum i :
  gm (Voters config) ≠ ∅ → Peers config i = ∅ →
  HasQuorum config (Some {[i := true]}) = true.
Proof.
  intros Hne Hp. apply HasQuorum_spec.
  assert (∀ ms, (∀ k, is_Some (gm ms !! k) → is_Some (Members config !! k)) →
    hasMajority ms (Some {[i := true]}) = true) as Hall.
  { intros ms Hms. apply hasMajority_spec.
    destruct (decide (gm ms = ∅)) as [|Hms0]; [by left|right].
    assert (dom (gm ms) ⊆ {[i]}) as Hdom.
    { intros k Hk%elem_of_dom%Hms. destruct (decide (k = i)) as [->|Hki]; [set_solver|].
      rewrite <-(lookup_delete_ne _ i k) in Hk by done. fold (Peers config i) in Hk.
      rewrite Hp, lookup_empty in Hk. by destruct Hk. }
    assert (dom (gm ms) = {[i]}) as Heq.
    { apply (anti_symm (⊆)); [done|].  apply map_choose in Hms0 as (k & x & Hk). apply elem_of_dom_2 in Hk. set_solver. }
    assert (backing ms (Some {[i := true]}) = {[i]}) as ->.
    { unfold backing. rewrite Heq. apply set_eq. intros k. rewrite elem_of_filter, elem_of_singleton.
      split; [by intros [_ ?]|intros ->]. split; [|done]. unfold gm_bool. simpl. by rewrite lookup_singleton_eq. }
    rewrite Heq, size_singleton. done. }
  split; apply Hall; auto using Voters_Members, OldVoters_Members.
Qed.

Lemma inv_campaign c i sv now t n' :
  gm (Voters config) ≠ ∅ →
  cluster_inv c → cl_status c i = Up sv →
  int64 (rn_term (sv_node sv)) → rn_term (sv_node sv) < MaxInt64 →
  BecomeCandidate now (sv_node sv) = (Ok t, n') →
  cluster_inv (set_server i
    (mkServer n' (sv_log sv) (if decide (NodePeers n' = ∅) then {[t]} ∪ sv_won sv else sv_won sv))
    (cast (t, NodeID n', i) c)).
Proof.
  intros Hne Hinv Hi Hint Hmax Hb. pose proof (ci_status _ Hinv i) as Hok. rewrite Hi in Hok.
  apply BecomeCandidate_inv in Hb as (Hev & -> & Hp & Hr & Hv); [|done..].
  pose proof Hev as ((Hid & Hcf) & _).
  assert (rn_nodeID n' = i) as Hi' by (rewrite Hid; by apply (so_id _ _ _ _ Hok)).
  set (t := rn_term (sv_node sv) + 1) in *.
  assert (∀ v, gm_bool (Some {[i := true]}) v = true → v = i) as Hself.
  { intros v. unfold gm_bool. simpl. destruct (decide (i = v)) as [|Hn]; [done|].
    by rewrite lookup_singleton_ne. }
  apply (inv_update c i sv _ (Some (t, NodeID n')) (cl_elected c)); try done; [|by auto|].
  { intros ? ? [= <- <-]. simpl. rewrite Hp. unfold NodeID. by rewrite Hid. }
  unfold NodeID. rewrite Hi'. eapply server_ok_step; [done..| | |].
  - intros _. rewrite (so_id _ _ _ _ Hok) in Hv. eexists. split; [exact Hv|].
    intros v ->%Hself. unfold rn_term. simpl. rewrite Hp. left.
  - intros t' Ht'. simpl in Ht'.
    assert (t' ∈ sv_won sv ∨ t' = t ∧ NodePeers n' = ∅) as [Hold|[-> Hpe]]
      by (case_decide; set_solver).
    + eapply carried_mono; [|by eapply so_won]. set_solver.
    + exists (Some {[i := true]}). split; [|intros v ->%Hself; left].
      apply alone_quorum; [done|]. unfold NodePeers in Hpe. by rewrite Hi', Hcf, (so_config _ _ _ _ Hok) in Hpe.
  - simpl. congruence.
Qed.

Lemma inv_vote c i sv voter t won n' :
  cluster_inv c → cl_status c i = Up sv → (t, i, voter) ∈ cl_ballots c →
  RecordVoteAndCheckMajority voter t (sv_node sv) = (won, n') →
  cluster_inv (set_server i
    (mkServer n' (sv_log sv) (if won then {[t]} ∪ sv_won sv else sv_won sv)) c).
Proof.
  intros Hinv Hi Hin. pose proof (ci_status _ Hinv i) as Hok. rewrite Hi in Hok.
  unfold RecordVoteAndCheckMajority. case_bool_decide as Hr; simpl.
  { intros [= <- <-]. apply (inv_quiet c i sv); try done. by right. }
  destruct (Z.eqb_spec t (CurrentTerm (rn_persistent (sv_node sv)))) as [->|]; simpl;
    [|intros [= <- <-]; apply (inv_quiet c i sv); try done; by right].
  destruct (so_tally _ _ _ _ Hok Hr) as (votes & Hv & Htally). rewrite Hv, (so_config _ _ _ _ Hok).
  intros [= <- <-].
  assert (∀ v, gm_bool (Some (<[voter := true]> votes)) v = true →
    (rn_term (sv_node sv), i, v) ∈ cl_ballots c) as Htally'.
  { intros v. unfold gm_bool. simpl. destruct (decide (voter = v)) as [<-|Hn]; [done|].
    rewrite lookup_insert_ne by done. apply Htally. }
  apply (inv_update c i sv _ None (cl_elected c)); try done; [by auto|].
  eapply server_ok_step; [done|by apply evolves_volatile| | |].
  - intros _. eexists. split; [done|exact Htally'].
  - intros t Ht. simpl in Ht. assert (t ∈ sv_won sv ∨ HasQuorum config (Some (<[voter := true]> votes)) = true ∧
      t = CurrentTerm (rn_persistent (sv_node sv))) as [Hold|[Hq ->]] by (destruct (HasQuorum _ _); set_solver).
    + by eapply so_won.
    + by exists (Some (<[voter := true]> votes)).
  - simpl. congruence.
Qed.

Lemma inv_promote c i sv t k promoted n' :
  cluster_inv c → cl_status c i = Up sv → t ∈ sv_won sv →
  BecomeLeader t k (sv_node sv) = (promoted, n') →
  cluster_inv (set_server i (with_node n' sv) (if promoted then elect t i c else c)).
Proof.
  intros Hinv Hi Hwon. pose proof (ci_status _ Hinv i) as Hok. rewrite Hi in Hok.
  unfold BecomeLeader. case_bool_decide as Hr; simpl.
  { intros [= <- <-]. apply (inv_quiet c i sv); try done. by right. }
  destruct (Z.eqb_spec (CurrentTerm (rn_persistent (sv_node sv))) t) as [<-|]; simpl;
    [|intros [= <- <-]; apply (inv_quiet c i sv); try done; by right].
  intros [= <- <-]. pose proof (so_won _ _ _ _ Hok _ Hwon) as Hc.
  apply (inv_update c i sv _ None ((rn_term (sv_node sv), i) :: cl_elected c)); try done.
  - intros t j [[= -> ->]|?]%elem_of_cons; [right|by left].
    split_and!; [done|by apply (so_pos _ _ _ _ Hok)|done].
  - set_solver.
  - eapply server_ok_step; [done|by apply evolves_volatile|done| |].
    + intros t Ht. by eapply so_won.
    + intros _. left.
Qed.

Lemma inv_crash c i sv s' :
  cluster_inv c → cl_status c i = Up sv → ss_reboot (rn_store (sv_node sv)) s' →
  cluster_inv (set_down i s' c).
Proof.
  intros Hinv Hi Hrb. pose proof (ci_status _ Hinv i) as Hok. rewrite Hi in Hok.
  destruct (so_durable _ _ _ _ Hok) as [Hs Hd].
  apply inv_down; [done|by eapply reboot_inv|by eapply reboot_settled|].
  rewrite Hi. simpl. intros p Hp q Hq. etransitivity; [exact Hp|].
  apply Hd. by eapply reboot_may.
Qed.

Lemma inv_boot c i s now n s' k rl :
  cluster_inv c → cl_status c i = Down s → 0 < i →
  NewRaftNode i config s Follower now = (Ok n, s') →
  cluster_inv (set_server i (mkServer (SeedFromSnapshot k n) rl ∅) c).
Proof.
  intros Hinv Hi Hpos Hn. pose proof Hinv as [Hst Hbd Hon Hel].
  pose proof (Hst i) as Hok. rewrite Hi in Hok. destruct Hok as [Hs Hset].
  apply NewRaftNode_inv in Hn as (_ & Hid & Hcf & Hr & _ & _ & _ & _ & Hd & q & Hq & Hp); [|done..].
  split; simpl; try done.
  - intros j. destruct (decide (i = j)) as [<-|Hne]; [|by rewrite fn_lookup_insert_ne].
    rewrite fn_lookup_insert. split; simpl; try done; congruence.
  - intros t cand v Hin Hc. destruct (decide (i = v)) as [<-|Hne].
    + rewrite fn_lookup_insert. simpl. rewrite Hp. pose proof (Hbd _ _ _ Hin Hc) as Hb.
      rewrite Hi in Hb. by apply Hb.
    + rewrite fn_lookup_insert_ne by done. eauto.
Qed.

Lemma inv_boot_failed c i s now e s1 s2 :
  cluster_inv c → cl_status c i = Down s →
  NewRaftNode i config s Follower now = (Err e, s1) → ss_reboot s1 s2 →
  cluster_inv (set_down i s2 c).
Proof.
  intros Hinv Hi Hn Hrb. pose proof (ci_status _ Hinv i) as Hok. rewrite Hi in Hok.
  destruct Hok as [Hs Hset].
  apply NewRaftNode_err in Hn as [Hs1 Hm]; [|done..].
  apply inv_down; [done|exact (reboot_inv _ _ Hs1 Hrb)|exact (reboot_settled _ _ Hs1 Hrb)|].
  rewrite Hi. simpl. intros p Hp q Hq. apply (reboot_may _ _ _ Hs1 Hrb), Hm in Hq as (q' & Hq' & ->).
  by apply Hp.
Qed.

Lemma inv_step c c' :
  gm (Voters config) ≠ ∅ → cluster_inv c → step c c' → cluster_inv c'.
Proof.
  intros Hne Hinv [].
  - by eapply inv_request_vote.
  - by eapply inv_campaign.
  - match goal with Hb : BecomeCandidate _ _ = _ |- _ =>
      apply BecomeCandidate_inv in Hb as (Hev & Hv & Hp); [|done..] end.
    eapply inv_quiet; [done..| | |done]; simpl; [done|by apply same_volatile_quiet].
  - by eapply inv_vote.
  - by eapply inv_promote.
  - eapply inv_quiet; [done..| | |done]; simpl.
    + by eapply becomeFollowerLocked_inv.
    + by eapply becomeFollower_quiet.
  - eapply inv_quiet; [done..| | |done]; by eapply HandleAppendEntries_ok.
  - eapply inv_quiet; [done..| | |done]; by eapply HandleInstallSnapshot_ok.
  - eapply inv_quiet; [done..| | |done]; by eapply bookkeeping_ok.
  - eapply inv_quiet; [done..| | |done]; [reflexivity|by right].
  - eapply inv_quiet; [done..| | |done]; [reflexivity|by right].
  - eapply inv_quiet; [done..| | |done]; [reflexivity|by right].
  - by eapply inv_crash.
  - by eapply inv_boot.
  - by eapply inv_boot_failed.
Qed.

Lemma inv_reachable c0 c :
  gm (Voters config) ≠ ∅ → initial c0 → reachable c0 c → cluster_inv c.
Proof.
  intros Hne (Hst & Hb & He). induction 1 as [|c c' _ IH Hstep]; [|by eapply inv_step].
  split; rewrite ?Hb, ?He; try set_solver.
  intros i. destruct (Hst i) as (s & -> & ? & ?). done.
Qed.

Lemma reachable_trans c0 c1 c2 : reachable c0 c1 → reachable c1 c2 → reachable c0 c2.
Proof. intros Hr. induction 1; [done|]. by eapply reach_step. Qed.

(** What was promoted stays recorded. *)
Lemma step_elected c c' : step c c' → cl_elected c ⊆ cl_elected c'.
Proof. intros []; simpl; repeat case_match; simpl; set_solver. Qed.

Lemma reachable_elected c c' : reachable c c' → cl_elected c ⊆ cl_elected c'.
Proof. induction 1 as [|c1 c2 _ IH Hs]; [done|]. etransitivity; [exact IH|]. by apply step_elected. Qed.

Lemma leader_elected c0 c i sv :
  gm (Voters config) ≠ ∅ → initial c0 → reachable c0 c → cl_status c i = Up sv →
  rn_Role (sv_node sv) = Leader → (rn_term (sv_node sv), i) ∈ cl_elected c.
Proof.
  intros Hne Hinit Hreach Hi Hl. pose proof (inv_reachable _ _ Hne Hinit Hreach) as Hinv.
  pose proof (ci_status _ Hinv i) as Hok. rewrite Hi in Hok. by apply (so_leader _ _ _ _ Hok).
Qed.

(** Two candidates carried by quorums in one term are one. *)
Lemma carried_unique c t i j :
  gm (Voters config) ≠ ∅ → cluster_inv c → 0 < i → 0 < j →
  carried (cl_ballots c) t i → carried (cl_ballots c) t j → i = j.
Proof.
  intros Hne Hinv Hi Hj (h1 & Hq1 & Hv1) (h2 & Hq2 & Hv2).
  apply HasQuorum_spec in Hq1 as [Hq1 _]. apply HasQuorum_spec in Hq2 as [Hq2 _].
  destruct (hasMajority_meet _ _ _ Hne Hq1 Hq2) as (v & _ & Ho1 & Ho2).
  eapply (ci_once _ Hinv t i j v); auto; lia.
Qed.

Lemma elected_unique c0 c t i j :
  gm (Voters config) ≠ ∅ → initial c0 → reachable c0 c →
  (t, i) ∈ cl_elected c → (t, j) ∈ cl_elected c → i = j.
Proof.
  intros Hne Hinit Hreach Hi Hj. pose proof (inv_reachable _ _ Hne Hinit Hreach) as Hinv.
  destruct (ci_elected _ Hinv _ _ Hi) as [? Hci], (ci_elected _ Hinv _ _ Hj) as [? Hcj].
  by eapply carried_unique.
Qed.

(** C9: Election Safety (Raft section 5.2).  In every reachable state of the
    cluster, under message loss, duplication, reordering and forgery, failed disk
    writes and crashes at any system call, at most one server has ever been
    promoted in a term, and every server that holds the leader role was promoted
    in its own term. *)
Theorem election_safety (c0 c : Cluster) :
  Validate config = None → initial c0 → reachable c0 c →
  (∀ t i j, (t, i) ∈ cl_elected c → (t, j) ∈ cl_elected c → i = j) ∧
  (∀ i sv, cl_status c i = Up sv → rn_Role (sv_node sv) = Leader →
     (rn_term (sv_node sv), i) ∈ cl_elected c).
Proof.
  intros Hval Hinit Hreach.
  assert (gm (Voters config) ≠ ∅) as Hne by by apply Validate_voters.
  split; [intros t i j; by eapply elected_unique|intros i sv; by apply leader_elected with (c0 := c0)].
Qed.

(** C10: votes are durable.  A vote granted to a server in a term binds the voter
    in every reachable state after it, across any number of crashes: its record,
    in memory while it runs and on any disk it may come back with while it is
    down, stays in a later term or names the same candidate. *)
Theorem votes_bind (c0 c : Cluster) (t cand v : Z) :
  Validate config = None → initial c0 → reachable c0 c →
  (t, cand, v) ∈ cl_ballots c → cand ≠ -1 →
  status_bound (cl_status c v) (mkPersistentState t cand).
Proof.
  intros Hval Hinit Hreach. assert (gm (Voters config) ≠ ∅) as Hne by by apply Validate_voters.
  by apply (ci_bound _ (inv_reachable _ _ Hne Hinit Hreach)).
Qed.

End Cluster.
