(* ===== verification/RaftSpec.v ===== *)
(** * Raft, as the program means it (the abstract specification)

    Servers with a term, a role, a log and a commit index; votes, requests and
    acknowledgements that stay in the network for ever, so that it may lose, delay,
    duplicate and reorder them; and two things no server stores, which the safety
    argument is about: for each term the log of the server that led it, as long as
    it ever got, and with each vote the voter's log when it was cast.  RaftSafety.v
    proves the properties of section 5 of the paper for this machine, RaftSimulation.v
    that clusters of the real servers refine it.

    Positions count from 0 and lengths from the start of the log: nothing is
    compacted here, a log is a server's whole history. *)

From stdpp Require Import functions.
From S2P Require Import Prelude Types RaftLogFacts.

(** ** Quorums *)

(** What the argument needs of a quorum system.  [quorum P]: some quorum's members
    all satisfy [P]. *)
Class Quorums (quorum : (Z → Prop) → Prop) := {
  quorum_mono : ∀ P Q : Z → Prop, (∀ j, P j → Q j) → quorum P → quorum Q;
  quorum_meet : ∀ P Q : Z → Prop, quorum P → quorum Q → ∃ j, P j ∧ Q j;
  quorum_split : ∀ P D : Z → Prop, (∀ j, Decision (D j)) →
    quorum P → quorum (λ j, P j ∧ ¬ D j) ∨ ∃ j, P j ∧ D j;
}.

(** ** Logs *)

Definition last_term (l : list LogEntry) : Z := default 0 (le_Term <$> last l).

(** Section 5.4.1: [l1] is at least as up to date as [l2]. *)
Definition up_to_date (l1 l2 : list LogEntry) : Prop :=
  last_term l2 < last_term l1 ∨ last_term l2 = last_term l1 ∧ (length l2 ≤ length l1)%nat.

(** The term of the entry before position [p]; 0 at the start. *)
Definition prev_term (l : list LogEntry) (p : nat) : Z := last_term (take p l).

(** Figure 2, AppendEntries, steps 3 and 4, after the prefix of length [p] the two
    sides share. *)
Definition merge_at (l : list LogEntry) (p : nat) (es : list LogEntry) : list LogEntry :=
  take p l ++ merge (drop p l) es.

(** ** State *)

Record append := mkAppend {
  ap_term : Z;
  ap_prev : nat;
  ap_prevTerm : Z;
  ap_entries : list LogEntry;
  ap_commit : nat;
}.

Record spec := mkSpec {
  sp_term : Z → Z;
  sp_role : Z → NodeRole;
  sp_log : Z → list LogEntry;
  sp_commit : Z → nat;
  sp_asks : list (Z * Z * list LogEntry);        (** term, candidate, its log *)
  sp_votes : list (Z * Z * Z * list LogEntry);   (** term, candidate, voter, the voter's log *)
  sp_msgs : list append;
  sp_acks : list (Z * Z * nat);                  (** follower, term, matched length *)
  sp_leader : Z → option (Z * list LogEntry);    (** by term: who led it, and its log *)
}.

(** A server's own fields. *)
Definition set_spec (i t : Z) (r : NodeRole) (l : list LogEntry) (c : nat) (s : spec) : spec :=
  mkSpec (<[i := t]> (sp_term s)) (<[i := r]> (sp_role s)) (<[i := l]> (sp_log s)) (<[i := c]> (sp_commit s))
    (sp_asks s) (sp_votes s) (sp_msgs s) (sp_acks s) (sp_leader s).

Definition add_ask a s :=
  mkSpec (sp_term s) (sp_role s) (sp_log s) (sp_commit s) (a :: sp_asks s) (sp_votes s) (sp_msgs s) (sp_acks s) (sp_leader s).
Definition add_vote v s :=
  mkSpec (sp_term s) (sp_role s) (sp_log s) (sp_commit s) (sp_asks s) (v :: sp_votes s) (sp_msgs s) (sp_acks s) (sp_leader s).
Definition add_msg m s :=
  mkSpec (sp_term s) (sp_role s) (sp_log s) (sp_commit s) (sp_asks s) (sp_votes s) (m :: sp_msgs s) (sp_acks s) (sp_leader s).
Definition add_ack a s :=
  mkSpec (sp_term s) (sp_role s) (sp_log s) (sp_commit s) (sp_asks s) (sp_votes s) (sp_msgs s) (a :: sp_acks s) (sp_leader s).
Definition set_leader (t i : Z) (l : list LogEntry) s :=
  mkSpec (sp_term s) (sp_role s) (sp_log s) (sp_commit s) (sp_asks s) (sp_votes s) (sp_msgs s) (sp_acks s)
    (<[t := Some (i, l)]> (sp_leader s)).

Section Spec.
Context (quorum : (Z → Prop) → Prop).

(** ** Steps *)

Inductive spec_step (s : spec) : spec → Prop :=
  (** step down, or learn of a higher term, or restart, which may forget some of the
      commit index *)
  | sp_step_down i t c :
      sp_term s i ≤ t → (c ≤ sp_commit s i)%nat →
      spec_step s (set_spec i t Follower (sp_log s i) c s)
  (** start an election, with a vote of one's own *)
  | sp_campaign i t :
      sp_term s i < t → 0 < t →
      spec_step s (add_vote (t, i, i, sp_log s i) (set_spec i t Candidate (sp_log s i) (sp_commit s i) s))
  (** ask for votes; once out of the race, with whatever log *)
  | sp_ask i t l :
      t ≤ sp_term s i → (sp_role s i = Candidate → sp_term s i = t → l = sp_log s i) →
      spec_step s (add_ask (t, i, l) s)
  (** vote *)
  | sp_vote j t i l :
      (t, i, l) ∈ sp_asks s → sp_term s j ≤ t → up_to_date l (sp_log s j) →
      spec_step s (add_vote (t, i, j, sp_log s j)
        (set_spec j t (if sp_term s j =? t then sp_role s j else Follower) (sp_log s j) (sp_commit s j) s))
  (** win *)
  | sp_promote i t :
      sp_role s i = Candidate → sp_term s i = t → sp_leader s t = None →
      quorum (λ j, ∃ l, (t, i, j, l) ∈ sp_votes s) →
      spec_step s (add_ack (i, t, length (sp_log s i)) (set_leader t i (sp_log s i)
        (set_spec i t Leader (sp_log s i) (sp_commit s i) s)))
  (** append at the leader *)
  | sp_append i e :
      sp_role s i = Leader → le_Term e = sp_term s i →
      let l := sp_log s i ++ [e] in
      spec_step s (add_ack (i, sp_term s i, length l) (set_leader (sp_term s i) i l
        (set_spec i (sp_term s i) Leader l (sp_commit s i) s)))
  (** replicate: any window of the leader's log *)
  | sp_send i p n :
      sp_role s i = Leader → (p ≤ length (sp_log s i))%nat →
      spec_step s (add_msg (mkAppend (sp_term s i) p (prev_term (sp_log s i) p)
        (take n (drop p (sp_log s i))) (sp_commit s i)) s)
  (** accept: what the message carries is merged and acknowledged, and the commit
      index follows as far as the message vouches for the log *)
  | sp_accept j m :
      m ∈ sp_msgs s → sp_term s j ≤ ap_term m →
      (ap_prev m ≤ length (sp_log s j))%nat → prev_term (sp_log s j) (ap_prev m) = ap_prevTerm m →
      let len := (ap_prev m + length (ap_entries m))%nat in
      spec_step s (add_ack (j, ap_term m, len)
        (set_spec j (ap_term m) Follower (merge_at (sp_log s j) (ap_prev m) (ap_entries m))
           (sp_commit s j `max` (ap_commit m `min` len))%nat s))
  (** commit: an entry of the leader's term on a quorum *)
  | sp_commit_at i k e :
      sp_role s i = Leader → sp_log s i !! k = Some e → le_Term e = sp_term s i →
      quorum (λ j, ∃ m, (j, sp_term s i, m) ∈ sp_acks s ∧ (k < m)%nat) →
      spec_step s (set_spec i (sp_term s i) Leader (sp_log s i) (sp_commit s i `max` S k)%nat s).

(** Servers with nothing in their logs, in any terms, and an empty network. *)
Definition spec_initial (s : spec) : Prop :=
  (∀ i, 0 ≤ sp_term s i ∧ sp_role s i = Follower ∧ sp_log s i = [] ∧ sp_commit s i = 0%nat) ∧
  sp_asks s = [] ∧ sp_votes s = [] ∧ sp_msgs s = [] ∧ sp_acks s = [] ∧ (∀ t, sp_leader s t = None).

Definition spec_reachable (s0 s : spec) : Prop := spec_initial s0 ∧ rtc spec_step s0 s.

End Spec.
