(* ===== verification/RaftSafety.v ===== *)
(** * The safety of Raft (section 5.4 of the paper)

    Log matching, leader completeness and state machine safety for the abstract
    machine of RaftSpec.v, by one inductive invariant.  Its heart is what makes an
    entry safe: at a term [t] an entry of [t] is either in every later leader's
    log, or blocked: a quorum has moved past [t] without acknowledging it, so it
    can never be committed at [t]. *)

From stdpp Require Import functions.
From S2P Require Import Prelude Types RaftLogFacts RaftSpec.

(** ** Common prefixes *)

(** The first [n] entries of both logs exist and are the same. *)
Definition common (n : nat) (l1 l2 : list LogEntry) : Prop :=
  take n l1 = take n l2 ∧ (n ≤ length l1)%nat ∧ (n ≤ length l2)%nat.

Lemma common_sym n l1 l2 : common n l1 l2 → common n l2 l1.
Proof. by intros (? & ? & ?). Qed.

Lemma common_trans n l1 l2 l3 : common n l1 l2 → common n l2 l3 → common n l1 l3.
Proof. intros (? & ? & ?) (? & ? & ?). split_and!; [congruence|done..]. Qed.

Lemma common_refl n l : (n ≤ length l)%nat → common n l l.
Proof. done. Qed.

Lemma common_le n m l1 l2 : (n ≤ m)%nat → common m l1 l2 → common n l1 l2.
Proof.
  intros Hle (Ht & H1 & H2). split_and!; [|lia..].
  apply (f_equal (take n)) in Ht. by rewrite !take_take, Nat.min_l in Ht.
Qed.

Lemma common_prefix n l L L' : L `prefix_of` L' → common n l L → common n l L'.
Proof.
  intros [k ->] (Ht & H1 & H2). split_and!; [|done|rewrite length_app; lia]. by rewrite take_app_le.
Qed.

Lemma common_lookup n k l1 l2 : common n l1 l2 → (k < n)%nat → l1 !! k = l2 !! k.
Proof. intros (Ht & _ & _) Hk. apply (f_equal (.!! k)) in Ht. by rewrite !lookup_take_lt in Ht by done. Qed.

Lemma common_take q l L : (q ≤ length L)%nat → l = take q L → common q l L.
Proof. intros Hq ->. split_and!; [by rewrite take_take, Nat.min_id|rewrite length_take; lia|done]. Qed.

(** Same entry wherever the terms are the same. *)
Definition matching (l L : list LogEntry) : Prop :=
  ∀ k x y, l !! k = Some x → L !! k = Some y → le_Term x = le_Term y → common (S k) l L.

(** ** Merging a window of the leader's log *)

Lemma merge_window (a es : list LogEntry) :
  (∀ k x y, a !! k = Some x → es !! k = Some y → le_Term x = le_Term y → x = y) →
  (es `prefix_of` a ∧ merge a es = a) ∨
  (merge a es = es ∧ ∃ d, (d < length es)%nat ∧ take d a = take d es ∧
     (d = length a ∨ ∃ x y, a !! d = Some x ∧ es !! d = Some y ∧ le_Term x ≠ le_Term y)).
Proof.
  revert es. induction a as [|x a IH]; intros es Hm.
  { destruct es as [|y es]; [left|right]; split; [by apply prefix_nil|done|done|]. exists 0%nat. simpl. auto with lia. }
  destruct es as [|y es]; [left; split; [apply prefix_nil|done]|]. simpl.
  destruct (Z.eqb_spec (le_Term x) (le_Term y)) as [He|Hne].
  - pose proof (Hm 0%nat x y eq_refl eq_refl He) as ->.
    destruct (IH es) as [[Hp ->]|[-> (d & Hd & Ht & Hc)]]; [intros k; by apply (Hm (S k))|left|right].
    + split; [by apply prefix_cons|done].
    + split; [done|]. exists (S d). simpl. split_and!; [lia|by f_equal|].
      destruct Hc as [->|Hc]; [by left|by right].
  - right. split; [done|]. exists 0%nat. simpl. split_and!; [lia|done|]. right. eauto.
Qed.

(** A log that shares the prefix before the window keeps whatever it shares with
    the leader's log, and shares the window afterwards. *)
Lemma merge_at_log l L p es l' :
  matching l L → common p l L → es `prefix_of` drop p L → l' = merge_at l p es →
  let q := (p + length es)%nat in
  (l' = l ∨ l' = take q L) ∧ common q l' L ∧ ∀ k, common k l L → common k l' L.
Proof.
  intros Hm (Htp & Hp1 & Hp2) [rest Hes] -> q.
  assert (take q L = take p L ++ es) as HqL.
  { unfold q. rewrite <-(take_drop p L) at 1. rewrite take_app_ge, length_take_le, Hes by (rewrite ?length_take; lia).
    f_equal. replace (p + length es - p)%nat with (length es) by lia. apply take_app_length. }
  assert (q ≤ length L)%nat as HqLen.
  { apply (f_equal length) in Hes. rewrite length_drop, length_app in Hes. unfold q. lia. }
  assert (∀ k y, es !! k = Some y → L !! (p + k)%nat = Some y) as HesL.
  { intros k y Hk. rewrite <-lookup_drop, Hes. by apply lookup_app_l_Some. }
  destruct (merge_window (drop p l) es) as [[[r Hpre] Heq]|[Heq (d & Hd & Htd & Hc)]].
  { intros k x y Hx Hy Hterm. rewrite lookup_drop in Hx. pose proof (HesL _ _ Hy) as HyL.
    pose proof (common_lookup _ (p + k)%nat _ _ (Hm _ _ _ Hx HyL Hterm) ltac:(lia)). congruence. }
  - unfold merge_at. rewrite Heq, take_drop. split; [by left|].
    assert (common q l L) as Hq; [|done].
    apply (f_equal length) in Hpre as Hlen. rewrite length_drop, length_app in Hlen.
    split_and!; [|unfold q; lia|done]. rewrite HqL. unfold q.
    rewrite <-(take_drop p l) at 1. rewrite take_app_ge, length_take_le by (rewrite ?length_take; lia).
    rewrite Htp, Hpre. f_equal. replace (p + length es - p)%nat with (length es) by lia. apply take_app_length.
  - assert (merge_at l p es = take q L) as -> by (unfold merge_at; by rewrite Heq, HqL, Htp).
    split; [by right|]. split; [by apply common_take|]. intros k Hk.
    assert (k ≤ q)%nat as Hkq; [|eapply common_le; [exact Hkq|by apply common_take]].
    destruct Hk as (Htk & Hk1 & Hk2). destruct Hc as [Hd'|(x & y & Hx & Hy & Hne)].
    + rewrite length_drop in Hd'. unfold q. lia.
    + destruct (decide (k ≤ p + d)%nat) as [|Hgt]; [unfold q; lia|]. exfalso. apply Hne.
      rewrite lookup_drop in Hx. pose proof (HesL _ _ Hy) as HyL.
      rewrite (common_lookup k (p + d)%nat l L) in Hx by (done || lia). congruence.
Qed.

Section Safety.
Context {quorum : (Z → Prop) → Prop} {Hq : Quorums quorum}.

(** ** What an entry may rely on *)

(** Every entry is where the leader of its term put it. *)
Definition owned (s : spec) (l : list LogEntry) : Prop :=
  ∀ k e, l !! k = Some e →
    0 < le_Term e ∧ ∃ o L, sp_leader s (le_Term e) = Some (o, L) ∧ common (S k) l L.

(** [j] has acknowledged the entry at [k] to the leader of term [t]. *)
Definition acked (s : spec) (j t : Z) (k : nat) : Prop := ∃ m, (j, t, m) ∈ sp_acks s ∧ (k < m)%nat.

(** The leader of [t] holds an entry of its own term at [k]. *)
Definition proper (s : spec) (t : Z) (k : nat) : Prop :=
  ∃ o L e, sp_leader s t = Some (o, L) ∧ L !! k = Some e ∧ le_Term e = t.

(** Section 5.4.2: an entry of the leader's term on a quorum. *)
Definition committed (s : spec) (t : Z) (k : nat) : Prop :=
  proper s t k ∧ quorum (λ j, acked s j t k).

(** It can never be: a quorum has gone past [t] without acknowledging it. *)
Definition blocked (s : spec) (t : Z) (k : nat) : Prop :=
  quorum (λ j, t < sp_term s j ∧ ¬ acked s j t k).

(** The log [l] does not stand in the way of the entry at [k] of [L], the log of the
    leader of [t]. *)
Definition safe (s : spec) (t : Z) (k : nat) (L l : list LogEntry) : Prop :=
  (∃ e, L !! k = Some e ∧ le_Term e = t) → common (S k) L l ∨ blocked s t k.

(** The first [c] entries of [l] are committed, by a term up to [t]. *)
Definition covered (s : spec) (t : Z) (l : list LogEntry) (c : nat) : Prop :=
  c = 0%nat ∨ ∃ u k o L, u ≤ t ∧ sp_leader s u = Some (o, L) ∧ committed s u k ∧ (c ≤ S k)%nat ∧ common c l L.

#[local] Instance acked_dec s j t k : Decision (acked s j t k).
Proof.
  refine (cast_if (decide (Exists (λ a, a.1 = (j, t) ∧ (k < a.2)%nat) (sp_acks s)))); unfold acked.
  - abstract (rewrite Exists_exists in *; destruct e as ([a m] & Hin & [= ->] & Hk); eauto).
  - abstract (intros (m & Hin & Hk); apply n, Exists_exists; by exists (j, t, m)).
Defined.

Lemma committed_not_blocked s t k : committed s t k → blocked s t k → False.
Proof. intros [_ Hc] Hb. destruct (quorum_meet _ _ Hc Hb) as (j & ? & _ & ?). done. Qed.

Lemma owned_matching s l L : owned s l → owned s L → matching l L.
Proof.
  intros Hl HL k x y Hx Hy Ht. destruct (Hl _ _ Hx) as (_ & o1 & L1 & H1 & Hc1).
  destruct (HL _ _ Hy) as (_ & o2 & L2 & H2 & Hc2). rewrite Ht, H2 in H1. injection H1 as <- <-.
  eapply common_trans; [done|by apply common_sym].
Qed.

Lemma owned_take s l n : owned s l → owned s (take n l).
Proof.
  intros Hl k e (Hk & Hlt)%lookup_take_Some. destruct (Hl _ _ Hk) as (? & o & L & ? & Hc). split; [done|].
  exists o, L. split; [done|]. destruct Hc as (Ht & H1 & H2).
  split_and!; [rewrite take_take; by replace (S k `min` n)%nat with (S k) by lia|rewrite length_take; lia|done].
Qed.

Lemma owned_prev_pos s l p : owned s l → (p ≤ length l)%nat → prev_term l p = 0 → p = 0%nat.
Proof.
  destruct p as [|k]; [done|]. intros Ho Hp Ht. destruct (lookup_lt_is_Some_2 l k ltac:(lia)) as [e He].
  unfold prev_term, last_term in Ht. rewrite (take_S_r _ _ _ He), last_snoc in Ht. simpl in Ht.
  destruct (Ho _ _ He) as [? _]. lia.
Qed.

(** ** The invariant *)

Definition member_ok (s : spec) (i : Z) : Prop :=
  owned s (sp_log s i) ∧
  (∀ e, e ∈ sp_log s i → le_Term e ≤ sp_term s i) ∧
  (sp_role s i = Candidate → 0 < sp_term s i ∧ ∀ e, e ∈ sp_log s i → le_Term e < sp_term s i) ∧
  (sp_role s i = Leader → sp_leader s (sp_term s i) = Some (i, sp_log s i)) ∧
  covered s (sp_term s i) (sp_log s i) (sp_commit s i).

Definition ask_ok (s : spec) (a : Z * Z * list LogEntry) : Prop :=
  let '(t, c, l) := a in
  t ≤ sp_term s c ∧ (sp_role s c = Candidate → sp_term s c = t → l = sp_log s c).

Definition vote_ok (s : spec) (v : Z * Z * Z * list LogEntry) : Prop :=
  let '(t, c, j, l) := v in
  t ≤ sp_term s c ∧ t ≤ sp_term s j ∧ owned s l ∧
  (sp_role s c = Candidate → sp_term s c = t → up_to_date (sp_log s c) l) ∧
  ∀ u o L k, u < t → sp_leader s u = Some (o, L) → acked s j u k → safe s u k L l.

Definition ack_ok (s : spec) (a : Z * Z * nat) : Prop :=
  let '(j, t, m) := a in
  t ≤ sp_term s j ∧ ∃ o L, sp_leader s t = Some (o, L) ∧ (m ≤ length L)%nat ∧
    ∀ k, (k < m)%nat → safe s t k L (sp_log s j).

Definition msg_ok (s : spec) (m : append) : Prop :=
  ∃ o L, sp_leader s (ap_term m) = Some (o, L) ∧ (ap_prev m ≤ length L)%nat ∧
    prev_term L (ap_prev m) = ap_prevTerm m ∧ ap_entries m `prefix_of` drop (ap_prev m) L ∧
    covered s (ap_term m) L (ap_commit m).

Definition leader_ok (s : spec) (t o : Z) (L : list LogEntry) : Prop :=
  0 < t ∧ owned s L ∧ (∀ e, e ∈ L → le_Term e ≤ t) ∧ quorum (λ j, t ≤ sp_term s j).

Record raft_inv (s : spec) : Prop := {
  raft_server : ∀ i, member_ok s i;
  raft_ask : ∀ a, a ∈ sp_asks s → ask_ok s a;
  raft_vote : ∀ v, v ∈ sp_votes s → vote_ok s v;
  raft_ack : ∀ a, a ∈ sp_acks s → ack_ok s a;
  raft_msg : ∀ m, m ∈ sp_msgs s → msg_ok s m;
  raft_leader : ∀ t o L, sp_leader s t = Some (o, L) → leader_ok s t o L;
  raft_elect : ∀ t u o L o' L' k, t < u → sp_leader s t = Some (o, L) → sp_leader s u = Some (o', L') →
    safe s t k L L';
}.

(** ** What only grows *)

Record grows (s s' : spec) : Prop := {
  grows_term : ∀ j, sp_term s j ≤ sp_term s' j;
  grows_acked : ∀ j t k, acked s j t k → acked s' j t k;
  grows_new : ∀ j t k, acked s' j t k → acked s j t k ∨ sp_term s j ≤ t;
  grows_leader : ∀ t o L, sp_leader s t = Some (o, L) → ∃ L', sp_leader s' t = Some (o, L') ∧ L `prefix_of` L';
}.

Lemma blocked_grows s s' t k : grows s s' → blocked s t k → blocked s' t k.
Proof.
  intros Hg. unfold blocked. apply quorum_mono. intros j [Ht Hn]. pose proof (grows_term _ _ Hg j).
  split; [lia|]. intros [|]%(grows_new _ _ Hg); [done|lia].
Qed.

Lemma proper_grows s s' t k : grows s s' → proper s t k → proper s' t k.
Proof.
  intros Hg (o & L & e & HL & He & Ht). destruct (grows_leader _ _ Hg _ _ _ HL) as (L' & HL' & Hp).
  exists o, L', e. by rewrite (prefix_lookup_Some _ _ _ _ He Hp).
Qed.

Lemma committed_grows s s' t k : grows s s' → committed s t k → committed s' t k.
Proof.
  intros Hg [Hp Hk]. split; [by eapply proper_grows|]. revert Hk. apply quorum_mono. intros j. apply (grows_acked _ _ Hg).
Qed.

Lemma owned_grows s s' l : grows s s' → owned s l → owned s' l.
Proof.
  intros Hg Hl k e Hk. destruct (Hl _ _ Hk) as (? & o & L & HL & ?). split; [done|].
  destruct (grows_leader _ _ Hg _ _ _ HL) as (L' & HL' & ?). exists o, L'. split; [done|]. by eapply common_prefix.
Qed.

Lemma covered_grows s s' t t' l l' c :
  grows s s' → t ≤ t' → l `prefix_of` l' → covered s t l c → covered s' t' l' c.
Proof.
  intros Hg Ht Hl [|(u & k & o & L & Hu & HL & Hk & Hc & Hcom)]; [by left|right].
  destruct (grows_leader _ _ Hg _ _ _ HL) as (L' & HL' & ?). exists u, k, o, L'.
  split_and!; [lia|done|by eapply committed_grows|done|].
  eapply common_prefix; [done|]. by eapply common_sym, common_prefix, common_sym.
Qed.

(** The index lies in the older log. *)
Lemma safe_grows s s' t k L L' l :
  grows s s' → L `prefix_of` L' → (k < length L)%nat → safe s t k L l → safe s' t k L' l.
Proof.
  intros Hg Hp Hk Hs (e & He & Ht). destruct Hs as [Hc|Hb].
  - destruct (lookup_lt_is_Some_2 _ _ Hk) as [x Hx]. exists x. split; [done|].
    rewrite (prefix_lookup_Some _ _ _ _ Hx Hp) in He. congruence.
  - left. by eapply common_sym, common_prefix, common_sym.
  - right. by eapply blocked_grows.
Qed.

Lemma safe_prefix s t k L l l' : l `prefix_of` l' → safe s t k L l → safe s t k L l'.
Proof. intros Hp Hs He. destruct (Hs He); [left; by eapply common_prefix|by right]. Qed.

Lemma covered_le s t l c c' : (c' ≤ c)%nat → covered s t l c → covered s t l c'.
Proof.
  intros Hle [->|(u & k & o & L & ? & ? & ? & ? & ?)]; [left; lia|right]. exists u, k, o, L.
  split_and!; [done..|lia|by eapply common_le].
Qed.

Lemma safe_mono s s' t k L l : grows s s' → safe s t k L l → safe s' t k L l.
Proof. intros Hg Hs He. destruct (Hs He); [by left|right; by eapply blocked_grows]. Qed.

(** An acknowledgement is of something the leader has. *)
Lemma acked_leader s j t k :
  raft_inv s → acked s j t k → t ≤ sp_term s j ∧ ∃ o L, sp_leader s t = Some (o, L) ∧ (k < length L)%nat.
Proof.
  intros Hi (m & Hin & Hk). destruct (raft_ack _ Hi _ Hin) as (? & o & L & ? & ? & _).
  split; [done|]. exists o, L. split; [done|lia].
Qed.

Lemma acked_safe s j t k o L :
  raft_inv s → acked s j t k → sp_leader s t = Some (o, L) → safe s t k L (sp_log s j).
Proof.
  intros Hi (m & Hin & Hk) HL. destruct (raft_ack _ Hi _ Hin) as (? & o' & L' & HL' & ? & Hs).
  rewrite HL in HL'. injection HL' as <- <-. by apply Hs.
Qed.

(** A candidate of this term was one before, with the same log. *)
Definition stays (s s' : spec) : Prop := ∀ c,
  sp_role s' c = Candidate → sp_term s c < sp_term s' c ∨
    sp_role s c = Candidate ∧ sp_term s c = sp_term s' c ∧ sp_log s' c = sp_log s c.

(** No log loses what it acknowledged. *)
Definition keeps (s s' : spec) : Prop := ∀ j u o L k,
  sp_leader s u = Some (o, L) → acked s j u k → safe s u k L (sp_log s' j).

Lemma ask_ok_grows s s' a : grows s s' → stays s s' → ask_ok s a → ask_ok s' a.
Proof.
  destruct a as [[t c] l]. intros Hg Hst [Ht Hl]. pose proof (grows_term _ _ Hg c). split; [lia|].
  intros Hr He. destruct (Hst c Hr) as [|(? & ? & ->)]; [lia|]. apply Hl; [done|lia].
Qed.

Lemma vote_ok_grows s s' v : raft_inv s → grows s s' → stays s s' → vote_ok s v → vote_ok s' v.
Proof.
  destruct v as [[[t c] j] l]. intros Hi Hg Hst (Htc & Htj & Ho & Hup & Hs).
  pose proof (grows_term _ _ Hg c). pose proof (grows_term _ _ Hg j).
  split_and!; [lia|lia|by eapply owned_grows| |].
  - intros Hr He. destruct (Hst c Hr) as [|(? & ? & ->)]; [lia|]. apply Hup; [done|lia].
  - intros u o L' k Hu HL' [Ha|]%(grows_new _ _ Hg); [|lia].
    destruct (acked_leader _ _ _ _ Hi Ha) as (_ & o0 & L & HL & Hk).
    destruct (grows_leader _ _ Hg _ _ _ HL) as (L2 & HL2 & Hp). rewrite HL' in HL2. injection HL2 as <- <-.
    eapply safe_grows; [done..|]. by eapply Hs.
Qed.

Lemma ack_ok_grows s s' a :
  grows s s' → keeps s s' → a ∈ sp_acks s → ack_ok s a → ack_ok s' a.
Proof.
  destruct a as [[j t] m]. intros Hg Hk Hin (Ht & o & L & HL & Hm & _). pose proof (grows_term _ _ Hg j).
  split; [lia|]. destruct (grows_leader _ _ Hg _ _ _ HL) as (L' & HL' & Hp). exists o, L'.
  split_and!; [done|by apply prefix_length in Hp; lia|]. intros k Hkm.
  eapply safe_grows; [done|done|lia|]. eapply Hk; [done|]. by exists m.
Qed.

Lemma msg_ok_grows s s' m : grows s s' → msg_ok s m → msg_ok s' m.
Proof.
  intros Hg (o & L & HL & Hp & Hpt & Hes & Hc). destruct (grows_leader _ _ Hg _ _ _ HL) as (L' & HL' & Hpre).
  exists o, L'. split_and!; [done|by apply prefix_length in Hpre; lia| | |by eapply covered_grows].
  - destruct Hpre as [r ->]. unfold prev_term in *. by rewrite take_app_le.
  - destruct Hpre as [r ->]. rewrite drop_app_le by done. by apply prefix_app_r.
Qed.

Lemma leader_ok_grows s s' t o L : grows s s' → leader_ok s t o L → leader_ok s' t o L.
Proof.
  intros Hg (? & ? & ? & Hk). split_and!; [done|by eapply owned_grows|done|].
  revert Hk. apply quorum_mono. intros j Hj. pose proof (grows_term _ _ Hg j). lia.
Qed.

(** What a step does to a state that satisfies the invariant. *)
Definition advances (s s' : spec) : Prop := grows s s' ∧ raft_inv s'.

(** A step preserves the invariant when what is new satisfies it. *)
Lemma raft_grows s s' :
  raft_inv s → grows s s' → stays s s' → keeps s s' →
  (∀ i, member_ok s' i) →
  (∀ a, a ∈ sp_asks s' → a ∈ sp_asks s ∨ ask_ok s' a) →
  (∀ v, v ∈ sp_votes s' → v ∈ sp_votes s ∨ vote_ok s' v) →
  (∀ a, a ∈ sp_acks s' → a ∈ sp_acks s ∨ ack_ok s' a) →
  (∀ m, m ∈ sp_msgs s' → m ∈ sp_msgs s ∨ msg_ok s' m) →
  (∀ t o L, sp_leader s' t = Some (o, L) → sp_leader s t = Some (o, L) ∨ leader_ok s' t o L) →
  (∀ t u o L o' L' k, t < u → sp_leader s' t = Some (o, L) → sp_leader s' u = Some (o', L') →
     sp_leader s t = Some (o, L) ∧ sp_leader s u = Some (o', L') ∨ safe s' t k L L') →
  advances s s'.
Proof.
  intros Hi Hg Hst Hk Hsv Ha Hv Hc Hm Hl He. split; [done|]. split.
  - done.
  - intros a [Hin|]%Ha; [|done]. by eapply ask_ok_grows, raft_ask.
  - intros v [Hin|]%Hv; [|done]. by eapply vote_ok_grows, raft_vote.
  - intros a [Hin|]%Hc; [|done]. by eapply ack_ok_grows, raft_ack.
  - intros m [Hin|]%Hm; [|done]. by eapply msg_ok_grows, raft_msg.
  - intros t o L [Hin|]%Hl; [|done]. by eapply leader_ok_grows, raft_leader.
  - intros t u o L o' L' k Htu H1 H2. destruct (He _ _ _ _ _ _ k Htu H1 H2) as [[H1' H2']|]; [|done].
    eapply safe_mono; [done|]. by eapply (raft_elect _ Hi t u).
Qed.

(** Steps that touch no log, no leader and no acknowledgement. *)
Record still (s s' : spec) : Prop := {
  still_leader : sp_leader s' = sp_leader s;
  still_acks : sp_acks s' = sp_acks s;
  still_log : ∀ j, sp_log s' j = sp_log s j;
  still_role : ∀ j,
    sp_role s' j = sp_role s j ∧ sp_term s' j = sp_term s j ∨
    sp_role s' j = Follower ∧ sp_term s j ≤ sp_term s' j ∨
    sp_role s' j = Candidate ∧ sp_term s j < sp_term s' j ∧ 0 < sp_term s' j;
  still_commit : ∀ j,
    (sp_commit s' j ≤ sp_commit s j)%nat ∨ covered s (sp_term s' j) (sp_log s j) (sp_commit s' j);
}.

Lemma still_grows s s' : still s s' → grows s s'.
Proof.
  intros [Hl Ha _ Hr _]. split; unfold acked in *; rewrite ?Ha, ?Hl; [| |by left|by eauto].
  - intros j. destruct (Hr j) as [[_ ->]|[[_ ?]|(_ & ? & _)]]; lia.
  - done.
Qed.

Lemma raft_still s s' :
  raft_inv s → still s s' →
  (∀ a, a ∈ sp_asks s' → a ∈ sp_asks s ∨ ask_ok s' a) →
  (∀ v, v ∈ sp_votes s' → v ∈ sp_votes s ∨ vote_ok s' v) →
  (∀ m, m ∈ sp_msgs s' → m ∈ sp_msgs s ∨ msg_ok s' m) → advances s s'.
Proof.
  intros Hi Hqt Ha Hv Hm. pose proof (still_grows _ _ Hqt) as Hg. destruct Hqt as [Hl Hac Hlog Hr Hc].
  apply (raft_grows s); [done|done| | | |done|done| |done| |].
  - intros c Hcd. destruct (Hr c) as [[? ?]|[[? _]|(_ & ? & _)]]; [right|congruence|by left].
    split_and!; [congruence|done|done].
  - intros j u o L k HL Hk. rewrite Hlog. by eapply acked_safe.
  - intros j. destruct (raft_server _ Hi j) as (Ho & Ht & Hcd & Hld & Hcm). unfold member_ok.
    pose proof (grows_term _ _ Hg j) as Hle. rewrite Hlog, Hl. split_and!.
    + by eapply owned_grows.
    + intros e He. specialize (Ht e He). lia.
    + intros Hcand. destruct (Hr j) as [[Hr' ->]|[[? _]|(_ & ? & ?)]]; [|congruence|].
      * rewrite Hr' in Hcand. by apply Hcd.
      * split; [done|]. intros e He. specialize (Ht e He). lia.
    + intros Hlead. destruct (Hr j) as [[Hr' ->]|[[? _]|(? & _ & _)]]; [|congruence..].
      rewrite Hr' in Hlead. by apply Hld.
    + eapply covered_grows with (t := sp_term s' j); [done|done|done|].
      destruct (Hc j) as [Hle0|?]; [|done]. apply (covered_le _ _ _ _ _ Hle0).
      destruct Hcm as [|(u & k & o & L & ? & Hrest)]; [by left|right]. exists u, k, o, L. split; [lia|done].
  - rewrite Hac. auto.
  - rewrite Hl. auto.
  - rewrite Hl. auto.
Qed.

(** ** Steps *)

Ltac at_server i j :=
  destruct (decide (j = i)) as [->|];
  [rewrite ?fn_lookup_insert in *|rewrite ?fn_lookup_insert_ne in * by done].

(** Setting one server's term, role and commit index. *)
Lemma still_set s s' i t r c :
  sp_term s' = <[i := t]> (sp_term s) → sp_role s' = <[i := r]> (sp_role s) →
  sp_log s' = <[i := sp_log s i]> (sp_log s) → sp_commit s' = <[i := c]> (sp_commit s) →
  sp_leader s' = sp_leader s → sp_acks s' = sp_acks s →
  r = sp_role s i ∧ t = sp_term s i ∨ r = Follower ∧ sp_term s i ≤ t ∨ r = Candidate ∧ sp_term s i < t ∧ 0 < t →
  (c ≤ sp_commit s i)%nat ∨ covered s t (sp_log s i) c →
  still s s'.
Proof.
  intros Ht Hr Hl Hc HL Ha Hrole Hcommit. split; [done|done|..].
  - intros j. rewrite Hl. by at_server i j.
  - intros j. rewrite Hr, Ht. at_server i j; [|by left]. destruct Hrole as [[-> ->]|[[-> ?]|(-> & ? & ?)]]; auto.
  - intros j. rewrite Hc, Ht. at_server i j; auto.
Qed.

Lemma raft_step_down s i t c :
  raft_inv s → sp_term s i ≤ t → (c ≤ sp_commit s i)%nat →
  advances s (set_spec i t Follower (sp_log s i) c s).
Proof.
  intros Hi Ht Hc. eapply raft_still; [done| |by left..].
  eapply still_set; try done; by auto.
Qed.

Lemma raft_campaign s i t :
  raft_inv s → sp_term s i < t → 0 < t →
  advances s (add_vote (t, i, i, sp_log s i) (set_spec i t Candidate (sp_log s i) (sp_commit s i) s)).
Proof.
  intros Hi Ht Hpos. set (s' := add_vote _ _).
  assert (still s s') as Hqt by (eapply still_set; try done; auto).
  apply (raft_still s); [done|done|by left| |by left].
  intros v [->|]%elem_of_cons; [right|by left]. pose proof (still_grows _ _ Hqt) as Hg.
  destruct (raft_server _ Hi i) as (Ho & _). subst s'. simpl in *. rewrite !fn_lookup_insert.
  split_and!; [lia|lia|by eapply owned_grows|intros _ _; right; done|].
  intros u o L k Hu HL Hk. eapply safe_mono; [done|]. by eapply acked_safe.
Qed.

Lemma raft_ask_step s i t l :
  raft_inv s → t ≤ sp_term s i → (sp_role s i = Candidate → sp_term s i = t → l = sp_log s i) →
  advances s (add_ask (t, i, l) s).
Proof.
  intros Hi Ht Hl. eapply raft_still; [done| | |by left|by left].
  - split; try done; auto.
  - intros a [->|]%elem_of_cons; [by right|by left].
Qed.

Lemma raft_vote_step s j t i l :
  raft_inv s → (t, i, l) ∈ sp_asks s → sp_term s j ≤ t → up_to_date l (sp_log s j) →
  advances s (add_vote (t, i, j, sp_log s j)
    (set_spec j t (if sp_term s j =? t then sp_role s j else Follower) (sp_log s j) (sp_commit s j) s)).
Proof.
  intros Hi Hin Ht Hup. set (s' := add_vote _ _).
  assert (still s s') as Hqt.
  { eapply still_set; try done; [|by auto]. destruct (Z.eqb_spec (sp_term s j) t); auto. }
  apply (raft_still s); [done|done|by left| |by left].
  intros v [->|]%elem_of_cons; [right|by left]. pose proof (still_grows _ _ Hqt) as Hg.
  destruct (raft_server _ Hi j) as (Ho & _). destruct (raft_ask _ Hi _ Hin) as [Hti Hl].
  pose proof (grows_term _ _ Hg i). split_and!.
  - lia.
  - subst s'. simpl. by rewrite fn_lookup_insert.
  - by eapply owned_grows.
  - subst s'. simpl. at_server j i.
    + destruct (Z.eqb_spec (sp_term s j) t); [|done]. intros Hr _. rewrite Hl in Hup; done.
    + intros Hr He. rewrite Hl in Hup; done.
  - intros u o L k Hu HL Hk. eapply safe_mono; [done|]. by eapply acked_safe.
Qed.

Lemma raft_send s i p n :
  raft_inv s → sp_role s i = Leader → (p ≤ length (sp_log s i))%nat →
  advances s (add_msg (mkAppend (sp_term s i) p (prev_term (sp_log s i) p)
        (take n (drop p (sp_log s i))) (sp_commit s i)) s).
Proof.
  intros Hi Hr Hp. eapply raft_still; [done| |by left|by left|].
  - split; try done; auto.
  - intros m [->|]%elem_of_cons; [right|by left]. destruct (raft_server _ Hi i) as (_ & _ & _ & Hld & Hc).
    exists i, (sp_log s i). split_and!; [by apply Hld|done|done| |done]. by apply prefix_take.
Qed.

Lemma raft_commit_at s i k e :
  raft_inv s → sp_role s i = Leader → sp_log s i !! k = Some e → le_Term e = sp_term s i →
  quorum (λ j, ∃ m, (j, sp_term s i, m) ∈ sp_acks s ∧ (k < m)%nat) →
  advances s (set_spec i (sp_term s i) Leader (sp_log s i) (sp_commit s i `max` S k)%nat s).
Proof.
  intros Hi Hr Hk Ht Hquo. destruct (raft_server _ Hi i) as (_ & _ & _ & Hld & Hc).
  eapply raft_still; [done| |by left..]. eapply still_set; try done; [by auto|].
  destruct (Nat.max_spec (sp_commit s i) (S k)) as [[_ ->]|[_ ->]]; [right; right|by left].
  exists (sp_term s i), k, i, (sp_log s i). specialize (Hld Hr).
  split_and!; [done|done| |done|apply common_refl; by apply lookup_lt_Some in Hk].
  split; [|done]. by exists i, (sp_log s i), e.
Qed.

(** The last term of a log says whose it is. *)
Lemma last_owned s l :
  owned s l → (0 < length l)%nat →
  ∃ y o L, l !! Nat.pred (length l) = Some y ∧ last_term l = le_Term y ∧
    sp_leader s (le_Term y) = Some (o, L) ∧ common (length l) l L.
Proof.
  intros Hol Hlen. destruct (lookup_lt_is_Some_2 l (Nat.pred (length l)) ltac:(lia)) as [y Hy].
  destruct (Hol _ _ Hy) as (_ & o & L & HL & Hc). replace (S (Nat.pred (length l))) with (length l) in Hc by lia.
  exists y, o, L. unfold last_term. by rewrite last_lookup, Hy.
Qed.

Lemma last_term_pos l : 0 < last_term l → (0 < length l)%nat.
Proof. destruct l; [done|simpl; lia]. Qed.

(** A log that holds an entry of term [u] of its leader ends in [u] or later. *)
Lemma last_term_ge s l u k o L e :
  raft_inv s → owned s l → sp_leader s u = Some (o, L) → L !! k = Some e → le_Term e = u → common (S k) L l →
  u ≤ last_term l.
Proof.
  intros Hi Hol HL He <- Hcom. pose proof Hcom as (_ & _ & Hk).
  destruct (last_owned _ _ Hol) as (y & oy & Ly & _ & -> & HLy & Hcy); [lia|].
  destruct (raft_leader _ Hi _ _ _ HLy) as (_ & _ & Hmax & _). apply Hmax, list_elem_of_lookup. exists k.
  rewrite <-(common_lookup (length l) k l Ly) by (done || lia).
  by rewrite <-(common_lookup (S k) k L l) by (done || lia).
Qed.

(** The heart of the matter: what a quorum of voters had acknowledged is in the
    winner's log, or can no longer be committed. *)
Lemma elect_safe s t i u o L k :
  raft_inv s → quorum (λ j, ∃ l, (t, i, j, l) ∈ sp_votes s) →
  sp_role s i = Candidate → sp_term s i = t → u < t → sp_leader s u = Some (o, L) →
  safe s u k L (sp_log s i).
Proof.
  intros Hi Hquo Hr Ht Hu HL (e & He & Heu).
  destruct (quorum_split _ (λ j, acked s j u k) _ Hquo) as [Hno|(j & (l & Hin) & Hk)].
  { right. revert Hno. unfold blocked. apply quorum_mono. intros j ((l & Hin) & Hn). split; [|done].
    destruct (raft_vote _ Hi _ Hin) as (_ & ? & _). lia. }
  destruct (raft_vote _ Hi _ Hin) as (_ & _ & Hol & Hup & Hs). specialize (Hup Hr Ht).
  destruct (Hs _ _ _ _ Hu HL Hk) as [Hcom|]; [by eexists| |by right].
  destruct (raft_server _ Hi i) as (Ho & _). destruct (raft_leader _ Hi _ _ _ HL) as (Hu0 & HoL & HtL & _).
  pose proof Hcom as (_ & HkL & Hkl). pose proof (last_term_ge _ _ _ _ _ _ _ Hi Hol HL He Heu Hcom) as Hul.
  destruct (last_owned _ _ Hol) as (y & oy & Ly & _ & Hly & HLy & Hcy); [lia|].
  destruct (last_owned _ (sp_log s i) Ho) as (x & ox & Lx & Hx & Hlx & HLx & Hcx).
  { apply last_term_pos. destruct Hup as [|[]]; lia. }
  destruct Hup as [Hlt|[Heq Hle]].
  - (* the winner ends in a later term, whose leader held the entry *)
    destruct (raft_elect _ Hi u (le_Term x) _ _ _ _ k ltac:(lia) HL HLx) as [Hc|Hb]; [by eexists|left|by right].
    eapply common_trans; [done|]. destruct (decide (k < length (sp_log s i))%nat).
    + apply common_sym. by eapply common_le; [|exact Hcx].
    + exfalso. pose proof (lookup_lt_Some _ _ _ Hx). rewrite (common_lookup (length (sp_log s i))) with (l2 := Lx) in Hx by (done || lia).
      rewrite <-(common_lookup (S k) _ L Lx) in Hx by (done || lia).
      pose proof (HtL x ltac:(by eapply list_elem_of_lookup_2)). lia.
  - (* both end in the same term, and the winner's log is no shorter *)
    left. rewrite <-Hlx, <-Heq, Hly, HLy in HLx. injection HLx as <- <-.
    eapply common_trans; [done|]. eapply common_le; [exact Hkl|].
    eapply common_trans; [done|]. eapply common_le; [exact Hle|]. by apply common_sym.
Qed.

(** Winning an election and appending at the leader both set the log [l] of server
    [i] and of its term. *)
Definition lead (i : Z) (l : list LogEntry) (s : spec) : spec :=
  add_ack (i, sp_term s i, length l) (set_leader (sp_term s i) i l
    (set_spec i (sp_term s i) Leader l (sp_commit s i) s)).

Lemma lead_term i l s j : sp_term (lead i l s) j = sp_term s j.
Proof. simpl. by at_server i j. Qed.
Lemma lead_commit i l s j : sp_commit (lead i l s) j = sp_commit s j.
Proof. simpl. by at_server i j. Qed.
Lemma lead_log i l s : sp_log (lead i l s) i = l.
Proof. simpl. by rewrite fn_lookup_insert. Qed.
Lemma lead_role i l s : sp_role (lead i l s) i = Leader.
Proof. simpl. by rewrite fn_lookup_insert. Qed.
Lemma lead_leader i l s : sp_leader (lead i l s) (sp_term s i) = Some (i, l).
Proof. simpl. by rewrite fn_lookup_insert. Qed.
Lemma lead_other i l s j : j ≠ i → sp_role (lead i l s) j = sp_role s j ∧ sp_log (lead i l s) j = sp_log s j.
Proof. intros ?. simpl. by at_server i j. Qed.
Lemma lead_leader_other i l s u : u ≠ sp_term s i → sp_leader (lead i l s) u = sp_leader s u.
Proof. intros ?. simpl. by at_server (sp_term s i) u. Qed.

(** The term is the server's: nobody else leads it. *)
Definition own_term (s : spec) (i : Z) : Prop :=
  sp_leader s (sp_term s i) = None ∨ sp_leader s (sp_term s i) = Some (i, sp_log s i).

Lemma lead_grows i l s : own_term s i → sp_log s i `prefix_of` l → grows s (lead i l s).
Proof.
  intros Hown Hp. split.
  - intros j. by rewrite lead_term.
  - intros j u k (m & Hin & Hk). exists m. by split; [right|].
  - intros j u k (m & [[= -> -> ->]|Hin]%elem_of_cons & Hk); [by right|left; by exists m].
  - intros u o L HL. destruct (decide (u = sp_term s i)) as [->|]; [|rewrite lead_leader_other by done; eauto].
    rewrite lead_leader. destruct Hown as [Hn|Hs]; rewrite HL in *; [done|]. injection Hs as -> ->. eauto.
Qed.

Lemma raft_lead i l s :
  raft_inv s → own_term s i → sp_log s i `prefix_of` l → 0 < sp_term s i →
  owned (lead i l s) l → (∀ e, e ∈ l → le_Term e ≤ sp_term s i) → quorum (λ j, sp_term s i ≤ sp_term s j) →
  (∀ u o L k, u < sp_term s i → sp_leader s u = Some (o, L) → safe s u k L l) →
  (∀ u o L k, sp_term s i < u → sp_leader s u = Some (o, L) → safe (lead i l s) (sp_term s i) k l L) →
  advances s (lead i l s).
Proof.
  intros Hi Hown Hp Hpos Ho Hmax Hquo Hbefore Hafter. pose proof (lead_grows _ _ _ Hown Hp) as Hg.
  apply (raft_grows s); [done|done| | | |by left|by left| |by left| |].
  - intros c Hcand. destruct (decide (c = i)) as [->|Hne]; [by rewrite lead_role in Hcand|right].
    destruct (lead_other i l s c Hne) as [Hr Hl]. by rewrite lead_term, <-Hr, Hl.
  - intros j u o L k HL Hk. pose proof (acked_safe _ _ _ _ _ _ Hi Hk HL).
    destruct (decide (j = i)) as [->|Hne]; [rewrite lead_log; by eapply safe_prefix|].
    destruct (lead_other i l s j Hne) as [_ Hl]. by rewrite Hl.
  - intros j. destruct (raft_server _ Hi j) as (? & ? & Hcd & Hld & ?). unfold member_ok.
    rewrite lead_term, lead_commit. destruct (decide (j = i)) as [->|Hne].
    + rewrite lead_log, lead_role, lead_leader. split_and!; [done..|by eapply covered_grows].
    + destruct (lead_other i l s j Hne) as [-> ->]. split_and!; [by eapply owned_grows|done|done| |by eapply covered_grows].
      intros Hr. specialize (Hld Hr). rewrite lead_leader_other; [done|]. intros Heq. rewrite Heq in Hld.
      destruct Hown as [Hn|Hs]; rewrite Hld in *; [done|congruence].
  - intros a [->|]%elem_of_cons; [right|by left]. split; [by rewrite lead_term|]. exists i, l.
    rewrite lead_leader, lead_log. split_and!; [done|done|]. intros k Hk _. left. by apply common_refl.
  - intros u o L HL. destruct (decide (u = sp_term s i)) as [->|]; [right|left; by rewrite <-(lead_leader_other i l)].
    rewrite lead_leader in HL. injection HL as <- <-. split_and!; [done..|].
    revert Hquo. apply quorum_mono. intros j. by rewrite lead_term.
  - intros u v o L o' L' k Huv HL HL'.
    destruct (decide (u = sp_term s i)) as [->|Hut]; [|destruct (decide (v = sp_term s i)) as [->|Hvt]].
    + right. rewrite lead_leader in HL. injection HL as <- <-. rewrite lead_leader_other in HL' by lia. by eapply Hafter.
    + right. rewrite lead_leader in HL'. injection HL' as <- <-. rewrite lead_leader_other in HL by done.
      eapply safe_mono; [done|]. by eapply Hbefore.
    + left. by rewrite !lead_leader_other in HL, HL' by done.
Qed.

Lemma raft_promote s i :
  raft_inv s → sp_role s i = Candidate → sp_leader s (sp_term s i) = None →
  quorum (λ j, ∃ l, (sp_term s i, i, j, l) ∈ sp_votes s) →
  advances s (lead i (sp_log s i) s).
Proof.
  intros Hi Hr Hnone Hquo. destruct (raft_server _ Hi i) as (Ho & Hmax & Hcd & _ & _). destruct (Hcd Hr) as [Hpos Hlt].
  apply raft_lead; try done; [by left| | | |].
  - eapply owned_grows; [|done]. apply lead_grows; [by left|done].
  - revert Hquo. apply quorum_mono. intros j (l & Hin). by destruct (raft_vote _ Hi _ Hin) as (_ & ? & _).
  - intros u o L k Hu HL. by eapply elect_safe.
  - intros u o L k Hu HL (e & He & Het). apply list_elem_of_lookup_2 in He. specialize (Hlt _ He). lia.
Qed.

(** Nobody has acknowledged what the leader has not got. *)
Lemma beyond_blocked s t u o L o' L' k :
  raft_inv s → t < u → sp_leader s t = Some (o, L) → sp_leader s u = Some (o', L') → (length L ≤ k)%nat →
  quorum (λ j, t < sp_term s j ∧ ¬ acked s j t k).
Proof.
  intros Hi Htu HL HL' Hk. destruct (raft_leader _ Hi _ _ _ HL') as (_ & _ & _ & Hquo).
  revert Hquo. apply quorum_mono. intros j Hj. split; [lia|]. intros Ha.
  destruct (acked_leader _ _ _ _ Hi Ha) as (_ & o2 & L2 & HL2 & ?). rewrite HL in HL2. injection HL2 as <- <-. lia.
Qed.

Lemma owned_snoc s l e o L :
  owned s l → 0 < le_Term e → sp_leader s (le_Term e) = Some (o, L) → l ++ [e] `prefix_of` L → owned s (l ++ [e]).
Proof.
  intros Hl Hpos HL Hp k x [Hx|[Hk Hx]]%lookup_app_Some.
  - destruct (Hl _ _ Hx) as (? & o' & L' & ? & ?). split; [done|]. exists o', L'. split; [done|].
    eapply common_sym, common_prefix; [by apply prefix_app_r|by apply common_sym].
  - apply list_lookup_singleton_Some in Hx as [Hk0 <-]. split; [done|]. exists o, L. split; [done|].
    eapply common_prefix; [done|]. apply common_refl. rewrite length_app. simpl. lia.
Qed.

Lemma raft_append s i e :
  raft_inv s → sp_role s i = Leader → le_Term e = sp_term s i → advances s (lead i (sp_log s i ++ [e]) s).
Proof.
  intros Hi Hr He. destruct (raft_server _ Hi i) as (Ho & Hmax & _ & Hld & Hc). specialize (Hld Hr).
  destruct (raft_leader _ Hi _ _ _ Hld) as (Hpos & _ & _ & Hquo).
  assert (grows s (lead i (sp_log s i ++ [e]) s)) as Hg by (apply lead_grows; [by right|by apply prefix_app_r]).
  apply raft_lead; try done; [by right|by apply prefix_app_r| | | |].
  - eapply owned_snoc; [by eapply owned_grows|lia|rewrite He; apply lead_leader|done].
  - intros x [?| ->%list_elem_of_singleton]%elem_of_app; [auto|lia].
  - intros u o L k Hu HL. eapply safe_prefix; [by apply prefix_app_r|]. by eapply (raft_elect _ Hi u).
  - intros u o L k Hu HL. destruct (decide (k < length (sp_log s i))%nat).
    + eapply safe_grows; [done|by apply prefix_app_r|done|]. by eapply raft_elect.
    + intros _. right. eapply blocked_grows; [done|]. eapply beyond_blocked; [done|done..|lia].
Qed.

Lemma prev_term_common l L p :
  matching l L → (p ≤ length l)%nat → (p ≤ length L)%nat → prev_term l p = prev_term L p → common p l L.
Proof.
  intros Hm H1 H2. destruct p as [|k]; [intros _; split; [done|lia]|].
  destruct (lookup_lt_is_Some_2 l k ltac:(lia)) as [x Hx]. destruct (lookup_lt_is_Some_2 L k ltac:(lia)) as [y Hy].
  unfold prev_term, last_term. rewrite (take_S_r _ _ _ Hx), (take_S_r _ _ _ Hy), !last_snoc. simpl. by apply Hm.
Qed.

(** What was committed in a term is in the log of that and of every later leader. *)
Lemma committed_later s t u k o L o' L' :
  raft_inv s → committed s t k → t ≤ u → sp_leader s t = Some (o, L) → sp_leader s u = Some (o', L') → common (S k) L L'.
Proof.
  intros Hi Hc Htu HL HL'. pose proof Hc as [(o2 & L2 & e & HL2 & He & Het) _]. rewrite HL in HL2. injection HL2 as <- <-.
  destruct (decide (t = u)) as [->|].
  - rewrite HL in HL'. injection HL' as <- <-. apply common_refl. by apply lookup_lt_Some in He.
  - destruct (raft_elect _ Hi t u _ _ _ _ k ltac:(lia) HL HL') as [|Hb]; [by eexists|done|].
    by destruct (committed_not_blocked s t k).
Qed.

(** Whatever is covered by a term is in the log of that and of every later leader. *)
Lemma covered_in_leader s u t l o L c :
  raft_inv s → u ≤ t → sp_leader s t = Some (o, L) → covered s u l c → common c l L.
Proof.
  intros Hi Hu HL [->|(v & k & ov & Lv & Hv & HLv & Hk & Hc & Hcom)]; [split; [done|lia]|].
  eapply common_trans; [done|]. eapply common_le; [exact Hc|].
  eapply (committed_later s v t); by eauto using Z.le_trans.
Qed.

(** What an acceptor knew to be committed is what the sender knew. *)
Lemma covered_leader s u t l l' o L c :
  raft_inv s → u ≤ t → sp_leader s t = Some (o, L) → covered s u l c →
  (common c l L → common c l' L) → covered s t l' c.
Proof.
  intros Hi Hu HL Hcov Hl. pose proof (covered_in_leader _ _ _ _ _ _ _ Hi Hu HL Hcov) as HlL.
  destruct Hcov as [|(v & k & ov & Lv & Hv & HLv & Hk & Hc & Hcom)]; [by left|right].
  exists v, k, ov, Lv. split_and!; [lia|done..|].
  eapply common_trans; [by apply Hl|]. eapply common_trans; [by apply common_sym|done].
Qed.

Lemma raft_accept s j m :
  raft_inv s → m ∈ sp_msgs s → sp_term s j ≤ ap_term m →
  (ap_prev m ≤ length (sp_log s j))%nat → prev_term (sp_log s j) (ap_prev m) = ap_prevTerm m →
  let len := (ap_prev m + length (ap_entries m))%nat in
  advances s (add_ack (j, ap_term m, len)
    (set_spec j (ap_term m) Follower (merge_at (sp_log s j) (ap_prev m) (ap_entries m))
       (sp_commit s j `max` (ap_commit m `min` len))%nat s)).
Proof.
  intros Hi Hin Hterm Hp Hpt len. destruct (raft_msg _ Hi _ Hin) as (o & L & HL & HpL & HptL & Hes & Hcm).
  destruct (raft_server _ Hi j) as (Ho & Hmax & _ & _ & Hc).
  destruct (raft_leader _ Hi _ _ _ HL) as (_ & HoL & HmaxL & _).
  pose proof (owned_matching _ _ _ Ho HoL) as Hm.
  destruct (merge_at_log _ _ _ _ _ Hm (prev_term_common _ _ _ Hm Hp HpL ltac:(congruence)) Hes eq_refl) as (Hl' & Hlen & Hkeep).
  fold len in Hl', Hlen. set (l' := merge_at _ _ _) in *. set (c' := Nat.max _ _). set (s' := add_ack _ _).
  assert (grows s s') as Hg.
  { split; simpl; [|intros i t k (n & Hn & Hk); exists n; by split; [right|]| |by eauto].
    - intros i. by at_server j i.
    - intros i t k (n & [[= -> -> ->]|Hn]%elem_of_cons & Hk); [by right|left; by exists n]. }
  apply (raft_grows s); [done|done| | | |by left|by left| |by left|by left|by left].
  - intros i. simpl. at_server j i; [done|by right].
  - intros i u ou Lu k HLu Hk Hpr. destruct (acked_safe _ _ _ _ _ _ Hi Hk HLu Hpr) as [Hcom|]; [|by right].
    simpl. at_server j i; [|by left]. destruct (acked_leader _ _ _ _ Hi Hk) as [Hu _].
    destruct (decide (u = ap_term m)) as [->|].
    { left. rewrite HL in HLu. injection HLu as <- <-. by apply common_sym, Hkeep, common_sym. }
    destruct (raft_elect _ Hi u (ap_term m) _ _ _ _ k ltac:(lia) HLu HL Hpr) as [HcL|]; [left|by right].
    eapply common_trans; [exact HcL|]. apply common_sym, Hkeep. eapply common_trans; [by apply common_sym|done].
  - intros i. destruct (decide (i = j)) as [->|Hne].
    + unfold member_ok. simpl. rewrite !fn_lookup_insert. split_and!; [| |done|done|].
      * eapply owned_grows; [done|]. destruct Hl' as [->| ->]; [done|by apply owned_take].
      * intros e He. destruct Hl' as [->| ->]; [specialize (Hmax e He); lia|].
        apply HmaxL. eapply elem_of_take in He as (n & ? & _). by eapply list_elem_of_lookup_2.
      * apply (covered_grows s s' (ap_term m) _ l'); [done|done|done|].
        assert (covered s (ap_term m) l' (sp_commit s j)) as Hc1 by (by eapply covered_leader; [..|apply Hkeep]).
        assert (covered s (ap_term m) l' (ap_commit m `min` len)%nat) as Hc2.
        { eapply (covered_leader s (ap_term m) _ L); [done|done|exact HL| |].
          - eapply covered_le; [|exact Hcm]. lia.
          - intros _. eapply common_le; [|done]. lia. }
        unfold c'. by destruct (Nat.max_spec (sp_commit s j) (ap_commit m `min` len)) as [[_ ->]|[_ ->]].
    + destruct (raft_server _ Hi i) as (? & ? & ? & ? & ?). unfold member_ok. simpl. rewrite !fn_lookup_insert_ne by done.
      split_and!; [by eapply owned_grows|done..|by eapply covered_grows].
  - intros a [->|]%elem_of_cons; [right|by left]. split; [simpl; by rewrite fn_lookup_insert|]. exists o, L.
    split_and!; [done|by destruct Hlen as (_ & _ & ?)|]. intros k Hk _. left. simpl. rewrite fn_lookup_insert.
    apply common_sym. by eapply common_le; [|exact Hlen].
Qed.

(** ** Whole runs *)

Lemma raft_step s s' : raft_inv s → spec_step quorum s s' → advances s s'.
Proof.
  intros Hi Hs. destruct Hs.
  - by apply raft_step_down.
  - by apply raft_campaign.
  - by apply raft_ask_step.
  - by eapply raft_vote_step.
  - subst t. by apply raft_promote.
  - by apply raft_append.
  - by apply raft_send.
  - by apply raft_accept.
  - by eapply raft_commit_at.
Qed.

Lemma grows_refl s : grows s s.
Proof. split; [done|done|by left|eauto]. Qed.

Lemma grows_trans s1 s2 s3 : grows s1 s2 → grows s2 s3 → grows s1 s3.
Proof.
  intros H12 H23. split.
  - intros j. pose proof (grows_term _ _ H12 j). pose proof (grows_term _ _ H23 j). lia.
  - intros j t k Hk. by apply (grows_acked _ _ H23), (grows_acked _ _ H12).
  - intros j t k [[?|?]%(grows_new _ _ H12)|Hk]%(grows_new _ _ H23); [by left|by right|right].
    pose proof (grows_term _ _ H12 j). lia.
  - intros t o L HL. destruct (grows_leader _ _ H12 _ _ _ HL) as (L2 & HL2 & ?).
    destruct (grows_leader _ _ H23 _ _ _ HL2) as (L3 & ? & ?). exists L3. split; [done|by etrans].
Qed.

Lemma advances_rtc s s' : raft_inv s → rtc (spec_step quorum) s s' → advances s s'.
Proof.
  intros Hi Hr. induction Hr as [s|s1 s2 s3 Hs _ IH]; [by split; [apply grows_refl|]|].
  destruct (raft_step _ _ Hi Hs) as [Hg Hi2]. destruct (IH Hi2) as [Hg2 ?]. split; [by eapply grows_trans|done].
Qed.

Lemma raft_initial s : spec_initial s → raft_inv s.
Proof.
  intros (Hs & Ha & Hv & Hm & Hc & Hl). split; rewrite ?Ha, ?Hv, ?Hm, ?Hc; try (intros ? ?%elem_of_nil; done).
  - intros i. destruct (Hs i) as (_ & Hr & Hlog & Hcm). unfold member_ok. rewrite Hr, Hlog, Hcm.
    split_and!; [by intros k e ?|by intros e ?%elem_of_nil|done|done|by left].
  - intros t o L. by rewrite Hl.
  - intros t u o L o' L' k _. by rewrite Hl.
Qed.

Lemma raft_reachable s0 s : spec_reachable quorum s0 s → raft_inv s.
Proof. intros [Hi%raft_initial Hr]. by apply (advances_rtc _ _ Hi Hr). Qed.

(** ** Section 5.4 *)

(** Log Matching: logs that hold an entry of the same index and term are the same up
    to it. *)
Lemma spec_log_matching s i j k x y :
  raft_inv s → sp_log s i !! k = Some x → sp_log s j !! k = Some y → le_Term x = le_Term y →
  common (S k) (sp_log s i) (sp_log s j).
Proof. intros Hi. apply owned_matching with s; apply (raft_server _ Hi). Qed.

(** Leader Completeness: what was committed in a term is in the log of every leader of
    that term or a later one, in every state from then on. *)
Lemma spec_leader_completeness s s' t k o L i :
  raft_inv s → rtc (spec_step quorum) s s' → committed s t k → sp_leader s t = Some (o, L) →
  sp_role s' i = Leader → t ≤ sp_term s' i → common (S k) L (sp_log s' i).
Proof.
  intros Hi Hr Hc HL Hld Ht. destruct (advances_rtc _ _ Hi Hr) as [Hg Hi'].
  destruct (grows_leader _ _ Hg _ _ _ HL) as (L' & HL' & Hp).
  destruct (raft_server _ Hi' i) as (_ & _ & _ & Hown & _). specialize (Hown Hld).
  eapply common_trans; [|eapply (committed_later s' t); [done|by eapply committed_grows|done..]].
  eapply common_prefix; [done|]. apply common_refl.
  destruct Hc as [(o2 & L2 & e & HL2 & He & _) _]. rewrite HL in HL2. injection HL2 as <- <-.
  by apply lookup_lt_Some in He.
Qed.

(** Two committed prefixes agree. *)
Lemma covered_agree s t1 t2 l1 l2 c1 c2 k :
  raft_inv s → covered s t1 l1 c1 → covered s t2 l2 c2 → (k < c1)%nat → (k < c2)%nat →
  l1 !! k = l2 !! k ∧ is_Some (l1 !! k).
Proof.
  intros Hi [->|(u1 & k1 & o1 & L1 & _ & HL1 & Hc1 & Hle1 & Hcom1)]; [lia|].
  intros [->|(u2 & k2 & o2 & L2 & _ & HL2 & Hc2 & Hle2 & Hcom2)] Hk1 Hk2; [lia|].
  rewrite (common_lookup _ k _ _ Hcom1), (common_lookup _ k _ _ Hcom2) by done.
  split; [|apply lookup_lt_is_Some_2; by destruct Hcom1 as (_ & _ & ?); lia].
  destruct (Z.le_ge_cases u1 u2) as [Hu|Hu].
  - apply (common_lookup (S k1)); [by eapply (committed_later s u1 u2)|lia].
  - symmetry. apply (common_lookup (S k2)); [by eapply (committed_later s u2 u1)|lia].
Qed.

(** State Machine Safety, across servers and across time: whatever two servers ever
    take to be committed at an index is the same entry. *)
Lemma spec_state_machine_safety s s' i j k :
  raft_inv s → rtc (spec_step quorum) s s' → (k < sp_commit s i)%nat → (k < sp_commit s' j)%nat →
  sp_log s i !! k = sp_log s' j !! k ∧ is_Some (sp_log s i !! k).
Proof.
  intros Hi Hr. destruct (advances_rtc _ _ Hi Hr) as [Hg Hi'].
  destruct (raft_server _ Hi i) as (_ & _ & _ & _ & Hci). destruct (raft_server _ Hi' j) as (_ & _ & _ & _ & Hcj).
  eapply covered_agree; [done| |done]. by eapply covered_grows.
Qed.

End Safety.
