(* ===== verification/RaftReads.v ===== *)
(** * What a leader may answer reads with (section 8 of the paper)

    On the machine of RaftSpec.v: a leader that has an entry of its term in its log,
    and that a quorum has not moved past, knows every committed index up to that
    entry or its own commit index.  The invariant is about commit indices only: each
    is owed to some term, and if that term still has its leader, the leader has
    committed as much. *)

From stdpp Require Import functions.
From S2P Require Import Prelude Types RaftLogFacts RaftSpec RaftSafety.

Section Reads.
Context {quorum : (Z → Prop) → Prop} {Hq : Quorums quorum}.

(** ** Who a commit index is owed to *)

(** The commit index [c] is owed to a term up to [t]. *)
Definition known (s : spec) (t : Z) (c : nat) : Prop :=
  c = 0%nat ∨ ∃ u k, u ≤ t ∧ committed (quorum := quorum) s u k ∧ (c ≤ S k)%nat ∧
    ∀ i, sp_role s i = Leader → sp_term s i = u → (c ≤ sp_commit s i)%nat.

Record knowing (s : spec) : Prop := {
  kn_server : ∀ j, known s (sp_term s j) (sp_commit s j);
  kn_msg : ∀ m, m ∈ sp_msgs s → known s (ap_term m) (ap_commit m);
}.

(** Whoever leads a term that had a leader led it before, with no higher commit index. *)
Definition leads_on (s s' : spec) : Prop := ∀ i,
  sp_role s' i = Leader → is_Some (sp_leader s (sp_term s' i)) →
  sp_role s i = Leader ∧ sp_term s i = sp_term s' i ∧ (sp_commit s i ≤ sp_commit s' i)%nat.

Lemma step_leads_on s s' : spec_step quorum s s' → leads_on s s'.
Proof.
  intros Hs i. destruct Hs as [j t c Ht Hc|j t Ht Hpos|j t l Ht Hl|j t c l Hin Ht Hup|j t Hr Ht Hnone Hvotes|j e Hr Ht l|j p n Hr Hp|
      j m Hin Ht Hp Hpt len|j k e Hr Hk Ht Hacks]; simpl; try done;
    (destruct (decide (i = j)) as [->|]; [rewrite ?fn_lookup_insert|by rewrite ?fn_lookup_insert_ne]); try done.
  - destruct (Z.eqb_spec (sp_term s j) t); [done|by intros].
  - intros _ [x Hx]. congruence.
  - intros _ _. split_and!; [done|done|lia].
Qed.

Lemma known_mono s s' t t' c :
  grows s s' → leads_on s s' → t ≤ t' → known s t c → known s' t' c.
Proof.
  intros Hg Hl Ht [->|(u & k & Hu & Hk & Hc & Hld)]; [by left|right]. exists u, k.
  split_and!; [lia|by eapply committed_grows|done|]. intros i Hr Hi.
  destruct (Hl i Hr) as (Hr0 & Ht0 & Hc0).
  { rewrite Hi. destruct Hk as [(o & L & e & HL & _) _]. by exists (o, L). }
  specialize (Hld i Hr0 ltac:(congruence)). lia.
Qed.

Lemma known_le s t c c' : (c' ≤ c)%nat → known s t c → known s t c'.
Proof.
  intros Hle [->|(u & k & Hu & Hk & Hc & Hld)]; [left; lia|right]. exists u, k.
  split_and!; [done|done|lia|]. intros i Hr Hi. specialize (Hld i Hr Hi). lia.
Qed.

Lemma known_max s t c c' : known s t c → known s t c' → known s t (c `max` c')%nat.
Proof. intros H1 H2. by destruct (Nat.max_spec c c') as [[_ ->]|[_ ->]]. Qed.

(** Where commit indices come from: they were there, a leader counted, or a request
    carried one. *)
Lemma step_commit s s' j :
  spec_step quorum s s' → let c := sp_commit s' j in
  sp_term s j ≤ sp_term s' j ∧
  ((c ≤ sp_commit s j)%nat ∨
   (∃ k e, sp_role s j = Leader ∧ sp_role s' j = Leader ∧ sp_term s' j = sp_term s j ∧ sp_log s j !! k = Some e ∧
      le_Term e = sp_term s j ∧ quorum (λ v, acked s v (sp_term s j) k) ∧ c = (sp_commit s j `max` S k)%nat) ∨
   (∃ m d, m ∈ sp_msgs s ∧ ap_term m ≤ sp_term s' j ∧ (d ≤ ap_commit m)%nat ∧ c = (sp_commit s j `max` d)%nat)).
Proof.
  intros Hs. destruct Hs as [i t c Ht Hc|i t Ht Hpos|i t l Ht Hl|i t c l Hin Ht Hup|i t Hr Ht Hnone Hvotes|i e Hr Ht l|i p n Hr Hp|
      i m Hin Ht Hp Hpt len|i k e Hr Hk Ht Hacks]; simpl; try (split; [lia|by left]);
    (destruct (decide (j = i)) as [->|];
      [rewrite ?fn_lookup_insert|rewrite ?fn_lookup_insert_ne by done; split; [lia|by left]]).
  - split; [done|by left].
  - split; [lia|by left].
  - split; [done|by left].
  - split; [lia|by left].
  - split; [lia|by left].
  - split; [done|]. right. right. exists m, (ap_commit m `min` len)%nat. split_and!; [done|done|lia|done].
  - split; [lia|]. right. left. exists k, e. split_and!; done.
Qed.

(** And what the requests carry. *)
Lemma step_msg s s' m :
  spec_step quorum s s' → m ∈ sp_msgs s' → m ∈ sp_msgs s ∨ ∃ i, ap_term m = sp_term s i ∧ ap_commit m = sp_commit s i.
Proof.
  intros Hs. destruct Hs; simpl; try (intros ?; by left). intros [->|]%elem_of_cons; [right; by exists i|by left].
Qed.

Lemma knowing_step s s' : raft_inv (quorum := quorum) s → knowing s → spec_step quorum s s' → knowing s'.
Proof.
  intros Hi [Hks Hkm] Hs. destruct (raft_step _ _ Hi Hs) as [Hg Hi']. pose proof (step_leads_on _ _ Hs) as Hl. split.
  - intros j. pose proof (step_commit s s' j Hs) as [Ht Hcases].
    assert (known s' (sp_term s' j) (sp_commit s j)) as Hj by (apply (known_mono s s' (sp_term s j)); [done|done|done|by apply Hks]).
    destruct Hcases as [Hc|[(k & e & Hr & Hr' & Ht' & Hk & He & Hquo & Heq)|(m & d & Hin & Hm & Hd & ->)]].
    + by eapply known_le.
    + rewrite Heq. apply known_max; [done|]. right. exists (sp_term s j), k.
      destruct (raft_server _ Hi j) as (_ & _ & _ & Hld & _). specialize (Hld Hr).
      split_and!; [done| |lia|].
      * eapply committed_grows; [done|]. split; [|done]. by exists j, (sp_log s j), e.
      * intros i Hri Hti. destruct (Hl i Hri) as (Hri0 & Hti0 & _); [rewrite Hti; eauto|].
        destruct (raft_server _ Hi i) as (_ & _ & _ & Hldi & _). specialize (Hldi Hri0).
        rewrite Hti0, Hti, Hld in Hldi. injection Hldi as -> _. lia.
    + apply known_max; [done|]. eapply known_le; [exact Hd|]. eapply known_mono; [done|done|done|by apply Hkm].
  - intros m [Hin|(i & -> & ->)]%(step_msg s s' m Hs); (eapply known_mono; [done|done|reflexivity|]); by auto.
Qed.

Lemma knowing_initial s : spec_initial s → knowing s.
Proof.
  intros (Hs & _ & _ & Hm & _). split.
  - intros j. destruct (Hs j) as (_ & _ & _ & ->). by left.
  - rewrite Hm. by intros m ?%elem_of_nil.
Qed.

Lemma knowing_rtc s s' : raft_inv (quorum := quorum) s → knowing s → rtc (spec_step quorum) s s' → knowing s'.
Proof.
  intros Hi Hk Hr. induction Hr as [s|s1 s2 s3 Hs _ IH]; [done|].
  apply IH; [by apply (raft_step _ _ Hi Hs)|by eapply knowing_step].
Qed.

Lemma leads_on_rtc s s' : raft_inv (quorum := quorum) s → rtc (spec_step quorum) s s' → leads_on s s'.
Proof.
  intros Hi Hr. induction Hr as [s|s1 s2 s3 Hs _ IH]; [by intros i|]. destruct (raft_step _ _ Hi Hs) as [Hg Hi2].
  intros i Hld [[o L] HL]. destruct (grows_leader _ _ Hg _ _ _ HL) as (L2 & HL2 & _).
  destruct (IH Hi2 i Hld) as (Hr2 & Ht2 & Hc2); [by exists (o, L2)|].
  destruct (step_leads_on _ _ Hs i Hr2) as (Hr1 & Ht1 & Hc1); [rewrite Ht2; by exists (o, L)|].
  split_and!; [done|congruence|lia].
Qed.

(** ** The floor of a leader's reads *)

(** The read index of section 8, step 2: the leader's commit index, or the position
    of an entry of its own term if that is higher. *)
Lemma read_floor s s' i j n x :
  raft_inv (quorum := quorum) s → knowing s → rtc (spec_step quorum) s s' →
  sp_role s' i = Leader → sp_log s' i !! n = Some x → le_Term x = sp_term s' i →
  quorum (λ p, sp_term s' p ≤ sp_term s' i) →
  (sp_commit s j ≤ sp_commit s' i `max` n)%nat.
Proof.
  intros Hi Hk Hr Hld Hn Hx Hquo. destruct (advances_rtc _ _ Hi Hr) as [Hg Hi'].
  pose proof (leads_on_rtc _ _ Hi Hr) as Hl. pose proof (kn_server _ Hk j) as Hj.
  eapply known_mono in Hj as [->|(u & k & _ & Hc & Hle & Hown)]; [lia| |exact Hg|exact Hl|reflexivity].
  destruct (raft_server _ Hi' i) as (_ & _ & _ & Hlead & _). specialize (Hlead Hld).
  destruct (Z.lt_trichotomy u (sp_term s' i)) as [Hu|[Hu|Hu]].
  - pose proof Hc as [(o & L & e & HL & He & Het) _].
    pose proof (committed_later s' u (sp_term s' i) k _ _ _ _ Hi' Hc ltac:(lia) HL Hlead) as Hcom.
    destruct (raft_leader _ Hi' _ _ _ HL) as (_ & _ & Hmax & _).
    destruct (Nat.le_gt_cases (S k) n) as [|Hgt]; [lia|exfalso].
    rewrite <-(common_lookup (S k) n _ _ Hcom) in Hn by done.
    specialize (Hmax x (list_elem_of_lookup_2 _ _ _ Hn)). lia.
  - specialize (Hown i Hld (eq_sym Hu)). lia.
  - destruct Hc as [_ Hack]. destruct (quorum_meet _ _ Hack Hquo) as (p & Hp & Hpt).
    destruct (acked_leader _ _ _ _ Hi' Hp) as [Hpu _]. lia.
Qed.

End Reads.
