(* ===== verification/RaftSystem.v ===== *)
(** * Clusters of the real servers are Raft

    The servers of Cluster.v, built from the methods of raft/node.go and raft/log.go,
    joined by a network that loses, delays, duplicates and reorders what they send
    and adds nothing.  The theorem is a simulation: every run is a run of the
    abstract machine of RaftSpec.v, so that what RaftSafety.v proves of it holds of
    the servers: their logs match, a leader has everything committed, and no two
    servers ever take different entries to be committed at an index.

    A server compacts what it has applied and ships it as a snapshot, so a log is the
    end of the server's history and the abstract machine keeps all of that
    ([segment]).

    This is the proof's middle layer and translates no code of its own: its steps are
    what the actions of an orderly fleet (FleetSafety.v, which states the theorems) do
    with the methods of the node and the log, one round or step of the control loop
    at a time.  Left out, each because the property fails or is not defined with it: a round torn by a change of term
    ([torn_round_breaks_log_matching]); a reply used by a later leadership of the
    server it came back to ([stale_reply_loses_write]); a batch a disk fault cuts in
    two; an install that leaves the log ill formed
    ([ResetToSnapshot_stale_nextIndex]) or that a crash interrupts
    ([restart_keeps_conflicting_suffix]).  Otherwise a server that boots has in its
    log what it had when it stopped, which is what RaftLogDisk.v proves of the WAL. *)

From stdpp Require Import functions.
From S2P Require Import Prelude Configuration Os FsUtil Types RaftLog RaftLogFacts RaftNode RaftNodeFacts RaftNodeRoles.
From S2P Require Import Replicator Cluster RaftSpec RaftSafety.

(** ** The quorums of a configuration *)

Definition quorum_of (config : Configuration) (P : Z → Prop) : Prop :=
  ∃ have, HasQuorum config have = true ∧ ∀ v, gm_bool have v = true → P v.

Lemma quorum_of_Quorums config : gm (Voters config) ≠ ∅ → Quorums (quorum_of config).
Proof.
  intros Hne. split.
  - intros P Q HPQ (have & Hh & HP). exists have. split; [done|]. auto.
  - intros P Q (h1 & Hh1 & HP) (h2 & Hh2 & HQ). apply HasQuorum_spec in Hh1 as [Hh1 _], Hh2 as [Hh2 _].
    destruct (hasMajority_meet _ _ _ Hne Hh1 Hh2) as (v & _ & H1 & H2). eauto.
  - intros P D HD (have & Hh & HP).
    destruct (decide (map_Exists (λ v b, b = true ∧ D v) (gm have))) as [(v & b & Hv & -> & Hd)|Hno].
    + right. exists v. split; [|done]. apply HP. unfold gm_bool. by rewrite Hv.
    + left. exists have. split; [done|]. intros v Hv. split; [by apply HP|]. intros Hd. apply Hno.
      unfold gm_bool in Hv. destruct (gm have !! v) as [b|] eqn:Hl; [|done]. by exists v, b.
Qed.

(** ** A log and the history it is the end of *)

(** The last index the log has forgotten. *)
Definition base (rl : RaftLog) : nat := Z.to_nat (rl_lastIncludedIndex rl).

(** [l] is every entry since the first; the log holds those after its boundary, and
    at the boundary the term. *)
Record segment (rl : RaftLog) (l : list LogEntry) : Prop := {
  seg_wf : log_wf rl;
  seg_base : (base rl ≤ length l)%nat;
  seg_cache : rl_cache rl = drop (base rl) l;
  seg_term : rl_lastIncludedTerm rl = prev_term l (base rl);
}.

Lemma prev_term_S l k e : l !! k = Some e → prev_term l (S k) = le_Term e.
Proof. intros He. unfold prev_term, last_term. by rewrite (take_S_r _ _ _ He), last_snoc. Qed.

Lemma seg_lii rl l : segment rl l → rl_lastIncludedIndex rl = Z.of_nat (base rl).
Proof. intros [[Hp _] _ _ _]. pose proof (lp_low _ Hp). unfold base. lia. Qed.

Lemma seg_first rl l : segment rl l → rl_firstIndex rl = Z.of_nat (base rl) + 1.
Proof. intros Hs. rewrite <-(seg_lii _ _ Hs). destruct Hs as [[Hp _] _ _ _]. apply (lp_first _ Hp). Qed.

Lemma seg_len rl l : segment rl l → cache_len rl = Z.of_nat (length l) - Z.of_nat (base rl).
Proof. intros [_ Hb Hc _]. unfold cache_len. rewrite Hc, length_drop. lia. Qed.

Lemma seg_bound rl l : segment rl l → Z.of_nat (length l) + 1 ≤ MaxInt64.
Proof.
  intros Hs. pose proof (seg_first _ _ Hs). pose proof (seg_len _ _ Hs).
  destruct Hs as [[Hp _] _ _ _]. pose proof (lp_high _ Hp). lia.
Qed.

Lemma seg_last rl l : segment rl l → lastIndexLocked rl = Z.of_nat (length l).
Proof.
  intros Hs. pose proof Hs as [[Hp _] _ _ _]. rewrite lastIndexLocked_spec by done.
  rewrite (seg_first _ _ Hs), (seg_len _ _ Hs). lia.
Qed.

Lemma seg_entry_at rl l i : segment rl l → Z.of_nat (base rl) < i → entry_at rl i = l !! Z.to_nat (i - 1).
Proof.
  intros Hs Hi. unfold entry_at. rewrite (seg_first _ _ Hs), decide_True by lia.
  rewrite (seg_cache _ _ Hs), lookup_drop. f_equal. lia.
Qed.

Lemma seg_LastLogState rl l : segment rl l → LastLogState rl = (Z.of_nat (length l), last_term l).
Proof.
  intros Hs. pose proof (seg_last _ _ Hs) as Hl. revert Hl. unfold LastLogState, lastIndexLocked.
  destruct (last (rl_cache rl)) as [e|] eqn:He; simpl; intros ->; f_equal.
  - rewrite (seg_cache _ _ Hs) in He. unfold last_term. rewrite <-(take_drop (base rl) l), last_app, He. done.
  - apply last_None in He. rewrite (seg_term _ _ Hs). unfold prev_term. pose proof (seg_base _ _ Hs).
    rewrite (seg_cache _ _ Hs) in He. apply (f_equal length) in He. rewrite length_drop in He.
    f_equal. apply take_ge. simpl in He. lia.
Qed.

Lemma seg_lookup rl l k :
  segment rl l → Z.of_nat (base rl) < k ≤ Z.of_nat (length l) → getEntryLocked rl k = l !! Z.to_nat (k - 1).
Proof.
  intros Hs Hk. pose proof (seg_bound _ _ Hs). pose proof Hs as [[Hp _] _ _ _].
  rewrite getEntryLocked_spec by (try done; unfold int64; lia). apply seg_entry_at; [done|lia].
Qed.

Lemma seg_lookup_inv rl l k e :
  segment rl l → int64 k → getEntryLocked rl k = Some e →
  Z.of_nat (base rl) < k ≤ Z.of_nat (length l) ∧ l !! Z.to_nat (k - 1) = Some e.
Proof.
  intros Hs Hint He. pose proof Hs as [[Hp _] _ _ _]. rewrite getEntryLocked_spec in He by done.
  assert (is_Some (entry_at rl k)) as Hk by eauto. apply entry_at_Some in Hk.
  rewrite (seg_first _ _ Hs), (seg_len _ _ Hs) in Hk. split; [lia|]. by rewrite <-(seg_entry_at rl l) by (done || lia).
Qed.

Lemma seg_TermAt rl l p :
  segment rl l → Z.of_nat (base rl) ≤ p ≤ Z.of_nat (length l) → TermAt rl p = prev_term l (Z.to_nat p).
Proof.
  intros Hs Hp. unfold TermAt. rewrite (seg_lii _ _ Hs). destruct (Z.eqb_spec p (Z.of_nat (base rl))) as [->|].
  { by rewrite (seg_term _ _ Hs), Nat2Z.id. }
  rewrite (seg_lookup _ _ _ Hs) by lia.
  destruct (lookup_lt_is_Some_2 l (Z.to_nat (p - 1)) ltac:(lia)) as [e He]. rewrite He, <-(prev_term_S _ _ _ He).
  f_equal. lia.
Qed.

Lemma seg_TermAt_below rl l p : segment rl l → 0 ≤ p < Z.of_nat (base rl) → TermAt rl p = 0.
Proof.
  intros Hs Hp. pose proof (seg_bound _ _ Hs). pose proof (seg_base _ _ Hs). unfold TermAt.
  rewrite (seg_lii _ _ Hs). destruct (Z.eqb_spec p (Z.of_nat (base rl))); [lia|].
  destruct (getEntryLocked rl p) eqn:He; [|done]. apply (seg_lookup_inv _ _ _ _ Hs) in He; [lia|unfold int64; lia].
Qed.

(** Logs with the same contents end the same histories. *)
Lemma seg_same rl rl' l : segment rl l → log_wf rl' → same_contents rl rl' → segment rl' l.
Proof.
  intros [Hwf Hb Hc Ht] Hwf' (Hc' & Hi & Ht'). unfold base in *. split; unfold base; rewrite ?Hi, ?Hc', ?Ht'; done.
Qed.

Lemma seg_logical rl rl' l : segment rl l → logical rl' = logical rl → segment rl' l.
Proof.
  intros Hs Hl. eapply seg_same; [done|eapply logical_wf; [done|by apply (seg_wf _ _ Hs)]|]. by injection Hl.
Qed.

(** A log with the right entries above its boundary, and the right term there. *)
Lemma seg_intro rl l :
  log_wf rl → (base rl ≤ length l)%nat → lastIndexLocked rl = Z.of_nat (length l) →
  (∀ i, Z.of_nat (base rl) < i → entry_at rl i = l !! Z.to_nat (i - 1)) →
  rl_lastIncludedTerm rl = prev_term l (base rl) → segment rl l.
Proof.
  intros Hwf Hb Hlast He Ht. split; try done. apply list_eq. intros n. pose proof Hwf as [Hp _].
  pose proof (lp_first _ Hp) as Hf. pose proof (lp_low _ Hp).
  specialize (He (Z.of_nat (base rl) + 1 + Z.of_nat n) ltac:(lia)). unfold entry_at in He.
  assert (rl_firstIndex rl = Z.of_nat (base rl) + 1) as Hf' by (unfold base; lia).
  rewrite decide_True, Hf' in He by lia. rewrite lookup_drop.
  replace (Z.to_nat (Z.of_nat (base rl) + 1 + Z.of_nat n - (Z.of_nat (base rl) + 1))) with n in He by lia.
  rewrite He. f_equal. lia.
Qed.

Section System.
Context {Store : Type} `{StateStoreLaws Store} `{Codec LogEntry}.
Context (config : Configuration).
Implicit Types n : RaftNode Store.

(** ** State *)

(** A cluster, the log each stopped server has on its disk, and everything ever
    sent: requests for votes, requests to append and snapshots; and, with the server
    that answered and the term of the request, the answers to the last two. *)
Record System := mkSystem {
  sy_cluster : Cluster (S := Store);
  sy_wal : Z → RaftLog;
  sy_asks : list RequestVoteRequest;
  sy_appends : list AppendEntriesRequest;
  sy_replies : list (Z * Z * AppendEntriesResponse);
  sy_snaps : list InstallSnapshotRequest;
  sy_installs : list (Z * Z * Z * InstallSnapshotResponse);  (** and the snapshot's index *)
}.

Definition with_cluster (c : Cluster) (y : System) : System :=
  mkSystem c (sy_wal y) (sy_asks y) (sy_appends y) (sy_replies y) (sy_snaps y) (sy_installs y).
Definition with_wal (w : Z → RaftLog) (y : System) : System :=
  mkSystem (sy_cluster y) w (sy_asks y) (sy_appends y) (sy_replies y) (sy_snaps y) (sy_installs y).
Definition asked (req : RequestVoteRequest) (y : System) : System :=
  mkSystem (sy_cluster y) (sy_wal y) (req :: sy_asks y) (sy_appends y) (sy_replies y) (sy_snaps y) (sy_installs y).
Definition sent (req : AppendEntriesRequest) (y : System) : System :=
  mkSystem (sy_cluster y) (sy_wal y) (sy_asks y) (req :: sy_appends y) (sy_replies y) (sy_snaps y) (sy_installs y).
Definition answered r (y : System) : System :=
  mkSystem (sy_cluster y) (sy_wal y) (sy_asks y) (sy_appends y) (r :: sy_replies y) (sy_snaps y) (sy_installs y).
Definition shipped (req : InstallSnapshotRequest) (y : System) : System :=
  mkSystem (sy_cluster y) (sy_wal y) (sy_asks y) (sy_appends y) (sy_replies y) (req :: sy_snaps y) (sy_installs y).
Definition installed r (y : System) : System :=
  mkSystem (sy_cluster y) (sy_wal y) (sy_asks y) (sy_appends y) (sy_replies y) (sy_snaps y) (r :: sy_installs y).

Definition server_at (y : System) (i : Z) (sv : Server (S := Store)) : Prop :=
  cl_status (sy_cluster y) i = Up sv.

Definition put (i : Z) (sv : Server) (y : System) : System := with_cluster (set_server i sv (sy_cluster y)) y.

(** ** Steps

    The guards that no method has are the limits of [orderly_action] in Fleet.v: in
    [sys_append] the batch is not cut in two, in [sys_reply] and [sys_installed] a
    leader uses no reply to another of its leaderships, in [sys_install] the log stays
    well formed, in [sys_send] the request is read from one state. *)

Inductive sys_step (y : System) : System → Prop :=
  (** elections *)
  | sys_campaign i sv now t n' :
      server_at y i sv → int64 (rn_term (sv_node sv)) → rn_term (sv_node sv) < MaxInt64 →
      BecomeCandidate now (sv_node sv) = (Ok t, n') →
      sys_step y (put i (mkServer n' (sv_log sv) (if decide (NodePeers n' = ∅) then {[t]} ∪ sv_won sv else sv_won sv))
        (with_cluster (cast (t, NodeID n', i) (sy_cluster y)) y))
  | sys_campaign_failed i sv now e n' :
      server_at y i sv → int64 (rn_term (sv_node sv)) → rn_term (sv_node sv) < MaxInt64 →
      BecomeCandidate now (sv_node sv) = (Err e, n') →
      sys_step y (put i (with_node n' sv) y)
  | sys_ask i sv t :
      server_at y i sv → t ≤ rn_term (sv_node sv) →
      sys_step y (asked (mkRequestVoteRequest t i (LastLogState (sv_log sv)).1 (LastLogState (sv_log sv)).2) y)
  | sys_request_vote i sv req now resp n' :
      server_at y i sv → req ∈ sy_asks y →
      HandleRequestVote req (LastLogState (sv_log sv)) now (sv_node sv) = (resp, n') →
      sys_step y (put i (with_node n' sv) (with_cluster
        (if rvr_VoteGranted resp then cast (rvr_Term resp, rv_CandidateID req, i) (sy_cluster y) else sy_cluster y) y))
  | sys_vote i sv voter t won n' :
      server_at y i sv → (t, i, voter) ∈ cl_ballots (sy_cluster y) →
      RecordVoteAndCheckMajority voter t (sv_node sv) = (won, n') →
      sys_step y (put i (mkServer n' (sv_log sv) (if won then {[t]} ∪ sv_won sv else sv_won sv)) y)
  | sys_promote i sv t promoted n' :
      server_at y i sv → t ∈ sv_won sv →
      BecomeLeader t (LatestIndex (sv_log sv)) (sv_node sv) = (promoted, n') →
      sys_step y (put i (with_node n' sv)
        (with_cluster (if promoted then elect t i (sy_cluster y) else sy_cluster y) y))
  | sys_follow i sv t l r n' :
      server_at y i sv → BecomeFollower t l (sv_node sv) = (r, n') →
      sys_step y (put i (with_node n' sv) y)
  (** replication *)
  | sys_propose i sv cmd r rl' :
      server_at y i sv → rn_Role (sv_node sv) = Leader → rl_nextIndex (sv_log sv) < MaxInt64 →
      AppendLeader cmd (rn_term (sv_node sv)) (sv_log sv) = (r, rl') →
      sys_step y (put i (mkServer (sv_node sv) rl' (sv_won sv)) y)
  | sys_send i sv p :
      server_at y i sv → rn_Role (sv_node sv) = Leader →
      sys_step y (sent (append_request (sv_node sv) (sv_node sv) (sv_node sv) (sv_log sv) (sv_log sv) p) y)
  | sys_append i sv req now resp n' rl' :
      server_at y i sv → req ∈ sy_appends y →
      HandleAppendEntries (sv_log sv) req now (sv_node sv) = (resp, n', rl') →
      (aer_Success resp = true ∨ logical rl' = logical (sv_log sv)) →
      sys_step y (put i (mkServer n' rl' (sv_won sv)) (answered (i, ae_Term req, resp) y))
  (** a reply, to a round of this leadership or at a server that does not lead *)
  | sys_reply i sv p u resp t n' :
      server_at y i sv → (p, u, resp) ∈ sy_replies y → (rn_Role (sv_node sv) = Leader → u = rn_term (sv_node sv)) →
      append_reply u p (Some resp) (sv_node sv) = (t, n') →
      sys_step y (put i (with_node n' sv) y)
  | sys_commit i sv r n' :
      server_at y i sv →
      AdvanceCommitIndex (LatestIndex (sv_log sv)) (TermAt (sv_log sv)) (rn_term (sv_node sv)) (sv_node sv) = (r, n') →
      sys_step y (put i (with_node n' sv) y)
  (** snapshots: of anything applied, once it is on disk *)
  | sys_compact i sv k r rl' :
      server_at y i sv → k ≤ rn_LastApplied (sv_node sv) →
      TruncateBeforeIndex k (TermAt (sv_log sv) k) (sv_log sv) = (r, rl') →
      sys_step y (put i (mkServer (sv_node sv) rl' (sv_won sv)) y)
  | sys_ship i sv k data :
      server_at y i sv → rn_Role (sv_node sv) = Leader →
      rl_lastIncludedIndex (sv_log sv) ≤ k ≤ rn_LastApplied (sv_node sv) →
      sys_step y (shipped (mkInstallSnapshotRequest (rn_term (sv_node sv)) i k (TermAt (sv_log sv) k) data) y)
  | sys_install {X} i sv req restore persist now (x : X) resp n' rl' x' :
      server_at y i sv → req ∈ sy_snaps y →
      HandleInstallSnapshot (sv_log sv) req restore persist now (sv_node sv) x = (resp, n', rl', x') →
      log_wf rl' →
      sys_step y (put i (mkServer n' rl' (sv_won sv)) (installed (i, is_Term req, is_LastIncludedIndex req, resp) y))
  | sys_installed i sv p u k resp t n' :
      server_at y i sv → (p, u, k, resp) ∈ sy_installs y → (rn_Role (sv_node sv) = Leader → u = rn_term (sv_node sv)) →
      snapshot_reply u p k (Some resp) (sv_node sv) = (t, n') →
      sys_step y (put i (with_node n' sv) y)
  (** the rest of a server's life *)
  | sys_apply i sv :
      server_at y i sv → rn_LastApplied (sv_node sv) < rn_CommitIndex (sv_node sv) →
      sys_step y (put i (with_node (AdvanceLastApplied (sv_node sv)).2 sv) y)
  | sys_contact i sv now :
      server_at y i sv → sys_step y (put i (with_node (noteContact now (sv_node sv)) sv) y)
  | sys_disk i sv os :
      server_at y i sv → sys_step y (put i (mkServer (sv_node sv) (set_disk os (sv_log sv)) (sv_won sv)) y)
  | sys_timeout i sv d :
      server_at y i sv → sys_step y (put i (with_node (SetMinElectionTimeout d (sv_node sv)) sv) y)
  | sys_crash i sv s' :
      server_at y i sv → ss_reboot (rn_store (sv_node sv)) s' →
      sys_step y (with_wal (<[i := sv_log sv]> (sy_wal y)) (with_cluster (set_down i s' (sy_cluster y)) y))
  | sys_boot i s now n s' rl :
      cl_status (sy_cluster y) i = Down s → 0 < i →
      NewRaftNode i config s Follower now = (Ok n, s') → log_wf rl → same_contents (sy_wal y i) rl →
      sys_step y (put i (mkServer (SeedFromSnapshot (rl_lastIncludedIndex rl) n) rl ∅) y)
  | sys_boot_failed i s now e s1 s2 :
      cl_status (sy_cluster y) i = Down s →
      NewRaftNode i config s Follower now = (Err e, s1) → ss_reboot s1 s2 →
      sys_step y (with_cluster (set_down i s2 (sy_cluster y)) y).

(** Servers that have never run: nothing on any log, no negative term on any disk. *)
Definition sys_initial (y : System) : Prop :=
  initial (sy_cluster y) ∧
  (∀ i s p, cl_status (sy_cluster y) i = Down s → may_load s p → 0 ≤ CurrentTerm (loaded p)) ∧
  (∀ i, segment (sy_wal y i) [] ∧ base (sy_wal y i) = 0%nat) ∧
  sy_asks y = [] ∧ sy_appends y = [] ∧ sy_replies y = [] ∧ sy_snaps y = [] ∧ sy_installs y = [].

(** What the cluster of Cluster.v sees of a step is at most one of its own. *)
Lemma sys_step_cluster y y' :
  sys_step y y' → reachable config (sy_cluster y) (sy_cluster y').
Proof.
  assert (∀ c', step config (sy_cluster y) c' → reachable config (sy_cluster y) c') as Hone.
  { intros c'. apply reach_step, reach_here. }
  assert (∀ i sv n', server_at y i sv → bookkeeping (sv_log sv) (sv_node sv) n' →
    reachable config (sy_cluster y) (sy_cluster (put i (with_node n' sv) y))) as Hbook.
  { intros. apply Hone. by eapply step_bookkeeping. }
  intros [].
  - apply Hone. by eapply step_campaign.
  - apply Hone. by eapply step_campaign_failed.
  - apply reach_here.
  - apply Hone. pose proof (step_request_vote config (sy_cluster y) i sv req now resp n') as Hs.
    destruct (rvr_VoteGranted resp); by apply Hs.
  - apply Hone. by eapply step_vote.
  - apply Hone. pose proof (step_promote config (sy_cluster y) i sv t (LatestIndex (sv_log sv)) promoted n') as Hs.
    destruct promoted; by apply Hs.
  - apply Hone. by eapply step_follow.
  - apply Hone. by eapply step_log.
  - apply reach_here.
  - apply Hone. by eapply step_append.
  - apply Hbook; [done|].
    match goal with Hr : append_reply _ _ _ _ = _ |- _ => revert Hr end. unfold append_reply.
    destruct (_ <? _); [|destruct (aer_Success resp)]; intros [= _ <-].
    + apply (bk_timeout _ _ 0).
    + apply bk_progress.
    + apply bk_backtrack.
  - apply Hbook; [done|].
    match goal with Hc : AdvanceCommitIndex ?k ?f ?t ?n = (_, n') |- _ =>
      assert (n' = (AdvanceCommitIndex k f t n).2) as -> by by rewrite Hc end. apply bk_commit.
  - apply Hone. by eapply step_compact.
  - apply reach_here.
  - apply Hone. by eapply step_snapshot.
  - apply Hbook; [done|].
    match goal with Hr : snapshot_reply _ _ _ _ _ = _ |- _ => revert Hr end. unfold snapshot_reply.
    destruct (_ <? _); [|destruct (negb _)]; intros [= _ <-];
      [apply (bk_timeout _ _ 0)|apply (bk_timeout _ _ 0)|apply bk_progress].
  - apply Hbook; [done|]. apply bk_apply.
  - apply Hbook; [done|]. apply bk_contact.
  - apply Hone. by eapply step_disk.
  - apply Hbook; [done|]. apply bk_timeout.
  - apply Hone. by eapply step_crash.
  - apply Hone. by eapply step_boot.
  - apply Hone. by eapply step_boot_failed.
Qed.

Lemma sys_rtc_cluster y y' : rtc sys_step y y' → reachable config (sy_cluster y) (sy_cluster y').
Proof.
  induction 1 as [|y1 y2 y3 Hs _ IH]; [apply reach_here|]. eapply reachable_trans; [by apply sys_step_cluster|done].
Qed.

(** ** The correspondence *)

(** A leader's bookkeeping: every peer is probed inside the log or right after it,
    and what is credited to a peer was acknowledged in this term. *)
Definition progress_ok (s : spec) (i : Z) (sv : Server (S := Store)) : Prop :=
  let n := sv_node sv in
  let len := Z.of_nat (length (sp_log s i)) in
  (∀ p v, rn_NextIndex n !! p = Some v → 1 ≤ v ≤ len + 1) ∧
  (∀ p m, rn_MatchIndex n !! p = Some m → m ≤ 0 ∨ ∃ k, (p, rn_term n, k) ∈ sp_acks s ∧ m ≤ Z.of_nat k) ∧
  (i, rn_term n, length (sp_log s i)) ∈ sp_acks s.

(** The abstract log is the whole history; the commit index covers what was applied,
    and that what was compacted. *)
Record up_ok (s : spec) (i : Z) (sv : Server) : Prop := {
  up_term : sp_term s i = rn_term (sv_node sv);
  up_pos : 0 ≤ rn_term (sv_node sv);
  up_role : sp_role s i = rn_Role (sv_node sv);
  up_log : segment (sv_log sv) (sp_log s i);
  up_commit : Z.of_nat (sp_commit s i) = rn_CommitIndex (sv_node sv);
  up_applied : rl_lastIncludedIndex (sv_log sv) ≤ rn_LastApplied (sv_node sv) ≤ rn_CommitIndex (sv_node sv);
  up_progress : rn_Role (sv_node sv) = Leader → progress_ok s i sv;
}.

Record down_ok (s : spec) (i : Z) (st : Store) (rl : RaftLog) : Prop := {
  down_term : ∀ p, may_load st p → sp_term s i ≤ CurrentTerm (loaded p);
  down_pos : 0 ≤ sp_term s i;
  down_role : sp_role s i = Follower;
  down_log : segment rl (sp_log s i);
  down_commit : sp_commit s i = base rl;
}.

Definition status_rel (s : spec) (i : Z) (st : status (S := Store)) (rl : RaftLog) : Prop :=
  match st with Up sv => up_ok s i sv | Down st => down_ok s i st rl end.

Definition ask_rel (s : spec) (req : RequestVoteRequest) : Prop :=
  ∃ l, (rv_Term req, rv_CandidateID req, l) ∈ sp_asks s ∧
    rv_LastLogIndex req = Z.of_nat (length l) ∧ rv_LastLogTerm req = last_term l.

(** A window of the leader's log; or, when the entry before the window is no longer
    in it, a request with no term and no entries. *)
Definition append_rel (s : spec) (req : AppendEntriesRequest) : Prop :=
  ∃ m, m ∈ sp_msgs s ∧ ap_term m = ae_Term req ∧ Z.of_nat (ap_prev m) = ae_PrevLogIndex req ∧
    (ap_prevTerm m = ae_PrevLogTerm req ∨ ae_PrevLogTerm req = 0 ∧ ae_Entries req = []) ∧
    ap_entries m = ae_Entries req ∧ Z.of_nat (ap_commit m) = ae_LeaderCommit req ∧
    contiguous (ae_PrevLogIndex req + 1) (ae_Entries req) ∧
    ae_PrevLogIndex req + 1 + Z.of_nat (length (ae_Entries req)) ≤ MaxInt64.

Definition reply_rel (s : spec) (r : Z * Z * AppendEntriesResponse) : Prop :=
  let '(p, t, resp) := r in
  aer_Success resp = true → aer_Term resp = t ∧ ∃ k, (p, t, k) ∈ sp_acks s ∧ aer_MatchIndex resp = Z.of_nat k.

(** A snapshot is the log up to its index, all of it committed. *)
Definition snap_rel (s : spec) (req : InstallSnapshotRequest) : Prop :=
  ∃ m, m ∈ sp_msgs s ∧ ap_term m = is_Term req ∧ ap_prev m = 0%nat ∧ ap_prevTerm m = 0 ∧
    Z.of_nat (length (ap_entries m)) = is_LastIncludedIndex req ∧ last_term (ap_entries m) = is_LastIncludedTerm req ∧
    (length (ap_entries m) ≤ ap_commit m)%nat ∧ is_LastIncludedIndex req < MaxInt64.

Definition install_rel (s : spec) (r : Z * Z * Z * InstallSnapshotResponse) : Prop :=
  let '(p, t, k, resp) := r in
  isr_Success resp = true → ∃ k', (p, t, k') ∈ sp_acks s ∧ k = Z.of_nat k'.

(** Whoever led a term in the abstract run was promoted in it, and is done with its
    election. *)
Definition leader_rel (s : spec) (elected : list (Z * Z)) : Prop :=
  ∀ t o L, sp_leader s t = Some (o, L) →
    (t, o) ∈ elected ∧ t ≤ sp_term s o ∧ (sp_term s o = t → sp_role s o ≠ Candidate).

Record related (y : System) (s : spec) : Prop := {
  rel_status : ∀ i, status_rel s i (cl_status (sy_cluster y) i) (sy_wal y i);
  rel_ask : ∀ req, req ∈ sy_asks y → ask_rel s req;
  rel_ballot : ∀ t c v, (t, c, v) ∈ cl_ballots (sy_cluster y) → ∃ l, (t, c, v, l) ∈ sp_votes s;
  rel_append : ∀ req, req ∈ sy_appends y → append_rel s req;
  rel_reply : ∀ r, r ∈ sy_replies y → reply_rel s r;
  rel_snap : ∀ req, req ∈ sy_snaps y → snap_rel s req;
  rel_install : ∀ r, r ∈ sy_installs y → install_rel s r;
  rel_leader : leader_rel s (cl_elected (sy_cluster y));
}.

End System.
