(* ===== verification/RaftSimulation.v ===== *)
(** * Clusters of the real servers refine Raft

    The simulation between RaftSystem.v and RaftSpec.v, step by step, and what it
    brings back to the servers from RaftSafety.v. *)

From stdpp Require Import functions.
From S2P Require Import Prelude Configuration Os FsUtil Types RaftLog RaftLogFacts RaftNode RaftNodeFacts RaftNodeRoles.
From S2P Require Import Replicator Cluster RaftSpec RaftSafety RaftSystem.

Section Simulation.
Context {Store : Type} `{StateStoreLaws Store} `{Codec LogEntry}.
Context (config : Configuration) (Hvoters : gm (Voters config) ≠ ∅).
#[local] Instance config_quorums : Quorums (quorum_of config) := quorum_of_Quorums config Hvoters.
Implicit Types (n : RaftNode Store) (sv : Server (S := Store)) (y : System (Store := Store)).

(** ** What never goes away *)

Record retains (s s' : spec) : Prop := {
  ret_asks : sp_asks s ⊆ sp_asks s';
  ret_votes : sp_votes s ⊆ sp_votes s';
  ret_msgs : sp_msgs s ⊆ sp_msgs s';
  ret_acks : sp_acks s ⊆ sp_acks s';
}.

Lemma ask_rel_mono s s' req : retains s s' → ask_rel s req → ask_rel s' req.
Proof. intros [Ha _ _ _] (l & ? & ?). exists l. split; [by apply Ha|done]. Qed.

Lemma append_rel_mono s s' req : retains s s' → append_rel s req → append_rel s' req.
Proof. intros [_ _ Hm _] (m & ? & ?). exists m. split; [by apply Hm|done]. Qed.

Lemma snap_rel_mono s s' req : retains s s' → snap_rel s req → snap_rel s' req.
Proof. intros [_ _ Hm _] (m & ? & ?). exists m. split; [by apply Hm|done]. Qed.

Lemma install_rel_mono s s' r : retains s s' → install_rel s r → install_rel s' r.
Proof.
  destruct r as [[[p t] k] resp]. intros [_ _ _ Ha] Hr Hs. destruct (Hr Hs) as (k' & ? & ?).
  exists k'. split; [by apply Ha|done].
Qed.

Lemma reply_rel_mono s s' r : retains s s' → reply_rel s r → reply_rel s' r.
Proof.
  destruct r as [[p t] resp]. intros [_ _ _ Ha] Hr Hs. destruct (Hr Hs) as (? & k & ? & ?).
  split; [done|]. exists k. split; [by apply Ha|done].
Qed.

Lemma progress_ok_mono s s' i sv :
  retains s s' → sp_log s' i = sp_log s i → progress_ok s i sv → progress_ok s' i sv.
Proof.
  intros [_ _ _ Ha] Hl (Hn & Hm & Hi). unfold progress_ok. rewrite Hl. split_and!; [done| |by apply Ha].
  intros p m Hp. destruct (Hm p m Hp) as [|(k & ? & ?)]; [by left|right]. exists k. split; [by apply Ha|done].
Qed.

(** Server [i] is where the two states differ. *)
Definition elsewhere (i : Z) (s s' : spec) : Prop := ∀ j, j ≠ i →
  sp_term s' j = sp_term s j ∧ sp_role s' j = sp_role s j ∧ sp_log s' j = sp_log s j ∧ sp_commit s' j = sp_commit s j.

Lemma status_rel_other i s s' j st es :
  retains s s' → elsewhere i s s' → j ≠ i → status_rel s j st es → status_rel s' j st es.
Proof.
  intros Hret He Hj. destruct (He j Hj) as (Ht & Hr & Hl & Hc). destruct st as [sv|st]; simpl.
  - intros [??? Hs ? ? Hp]. split; try congruence; try done.
    intros Hld. by eapply progress_ok_mono, Hp.
  - intros []. split; rewrite ?Ht, ?Hr, ?Hl, ?Hc; done.
Qed.

(** One server moves, in both. *)
Lemma related_move y s y' s' i st' :
  related y s → retains s s' → elsewhere i s s' →
  cl_status (sy_cluster y') = <[i := st']> (cl_status (sy_cluster y)) →
  (∀ j, j ≠ i → sy_wal y' j = sy_wal y j) →
  cl_elected (sy_cluster y) ⊆ cl_elected (sy_cluster y') →
  status_rel s' i st' (sy_wal y' i) →
  (∀ req, req ∈ sy_asks y' → req ∈ sy_asks y ∨ ask_rel s' req) →
  (∀ t c v, (t, c, v) ∈ cl_ballots (sy_cluster y') → (t, c, v) ∈ cl_ballots (sy_cluster y) ∨ ∃ l, (t, c, v, l) ∈ sp_votes s') →
  (∀ req, req ∈ sy_appends y' → req ∈ sy_appends y ∨ append_rel s' req) →
  (∀ r, r ∈ sy_replies y' → r ∈ sy_replies y ∨ reply_rel s' r) →
  (∀ req, req ∈ sy_snaps y' → req ∈ sy_snaps y ∨ snap_rel s' req) →
  (∀ r, r ∈ sy_installs y' → r ∈ sy_installs y ∨ install_rel s' r) →
  sp_term s i ≤ sp_term s' i →
  (sp_role s' i = Candidate → sp_term s i < sp_term s' i ∨ sp_role s i = Candidate ∧ sp_term s i = sp_term s' i) →
  (∀ t o L, sp_leader s' t = Some (o, L) → (∃ L0, sp_leader s t = Some (o, L0)) ∨
     (t, o) ∈ cl_elected (sy_cluster y') ∧ t ≤ sp_term s' o ∧ sp_role s' o ≠ Candidate) →
  related y' s'.
Proof.
  intros [Hst Ha Hb Hm Hr Hs Hin Hl] Hret He Hcl Hwal Hel Hi Ha' Hb' Hm' Hr' Hs' Hin' Hterm Hcand Hld. split.
  - intros j. rewrite Hcl. destruct (decide (j = i)) as [->|Hne]; [by rewrite fn_lookup_insert|].
    rewrite fn_lookup_insert_ne, Hwal by done. by eapply status_rel_other.
  - intros req [?|]%Ha'; [|done]. by eapply ask_rel_mono, Ha.
  - intros t c v [[l ?]%Hb|]%Hb'; [|done]. exists l. by apply (ret_votes _ _ Hret).
  - intros req [?|]%Hm'; [|done]. by eapply append_rel_mono, Hm.
  - intros r [?|]%Hr'; [|done]. by eapply reply_rel_mono, Hr.
  - intros req [?|]%Hs'; [|done]. by eapply snap_rel_mono, Hs.
  - intros r [?|]%Hin'; [|done]. by eapply install_rel_mono, Hin.
  - intros t o L HL. destruct (Hld _ _ _ HL) as [[L0 HL0]|(? & ? & ?)]; [|done].
    destruct (Hl _ _ _ HL0) as (? & Ht & Hc). split; [by apply Hel|]. destruct (decide (o = i)) as [->|Hne].
    + split; [lia|]. intros Heq Hc'. destruct (Hcand Hc') as [|[??]]; [lia|]. apply Hc; [lia|done].
    + destruct (He o Hne) as (-> & -> & _). done.
Qed.

(** ** Steps that leave the log alone *)

(** The node stepped down, or kept its role and term; its commit index and what it
    knows of its peers are as before. *)
Record gentle (n n' : RaftNode Store) : Prop := {
  gentle_role : rn_Role n' = Follower ∧ rn_term n ≤ rn_term n' ∨ rn_Role n' = rn_Role n ∧ rn_term n' = rn_term n;
  gentle_commit : rn_CommitIndex n' = rn_CommitIndex n;
  gentle_next : rn_NextIndex n' = rn_NextIndex n;
  gentle_match : rn_MatchIndex n' = rn_MatchIndex n;
  gentle_applied : rn_LastApplied n' = rn_LastApplied n;
}.

Lemma gentle_refl n : gentle n n.
Proof. split; auto. Qed.

Lemma gentle_trans n1 n2 n3 : gentle n1 n2 → gentle n2 n3 → gentle n1 n3.
Proof.
  intros [Hr1 ? ? ? ?] [Hr2 ? ? ? ?]. split; try congruence.
  destruct Hr2 as [[??]|[Hr2 ?]]; [left; split; [done|]; destruct Hr1 as [[]|[]]; lia|].
  destruct Hr1 as [[??]|[Hr1 ?]]; [left|right]; (split; [congruence|lia]).
Qed.

Lemma gentle_volatile n n' : same_volatile n n' → rn_persistent n' = rn_persistent n → gentle n n'.
Proof. intros (_ & Hr & _ & Hc & Ha & _ & _ & _ & Hn & Hm) Hp. split; try done. right. unfold rn_term. by rewrite Hp. Qed.

Lemma gentle_evolves n n' :
  evolves n n' → quiet n n' → rn_CommitIndex n' = rn_CommitIndex n →
  rn_NextIndex n' = rn_NextIndex n → rn_MatchIndex n' = rn_MatchIndex n →
  rn_LastApplied n' = rn_LastApplied n → gentle n n'.
Proof.
  intros (_ & Hp & _) Hq Hc Hn Hm Ha. split; try done. apply ps_le_term in Hp.
  destruct Hq as [Hq|(Hr & Ht & _)]; [by left|by right].
Qed.

Lemma commit_gentle next n r n' :
  commitPersistentLocked next n = (r, n') →
  rn_CommitIndex n' = rn_CommitIndex n ∧ rn_NextIndex n' = rn_NextIndex n ∧ rn_MatchIndex n' = rn_MatchIndex n ∧
  rn_LastApplied n' = rn_LastApplied n.
Proof. intros Hc. by apply commitPersistentLocked_inv in Hc as [(_ & _ & _ & Hc & Ha & _ & _ & _ & Hn & Hm) _]. Qed.

Lemma becomeFollower_gentle t l n r n' : becomeFollowerLocked t l n = (r, n') → gentle n n'.
Proof.
  intros Hb. pose proof (becomeFollower_quiet _ _ _ _ _ Hb) as Hq. apply becomeFollowerLocked_inv in Hb as Hi.
  destruct Hi as [Hev _]. revert Hb. unfold becomeFollowerLocked.
  destruct (commitPersistentLocked _ n) as [[u|e] n1] eqn:Hc; intros [= <- <-];
    apply commit_gentle in Hc as (? & ? & ? & ?); by apply gentle_evolves.
Qed.

Lemma accept_leader_gentle t l n r n' : accept_leader t l n = (r, n') → gentle n n'.
Proof.
  unfold accept_leader. destruct (_ || _); [apply becomeFollower_gentle|]. intros [= <- <-]. split; auto.
Qed.

Lemma HandleRequestVote_gentle req last now n resp n' : HandleRequestVote req last now n = (resp, n') → gentle n n'.
Proof.
  intros Hh. pose proof (HandleRequestVote_quiet _ _ _ _ _ _ Hh) as Hq.
  pose proof (HandleRequestVote_evolves _ _ _ _ _ _ Hh) as Hev.
  apply HandleRequestVote_cases in Hh
    as [(_ & -> & _)|[(e & Hc & _ & _)|[(n1 & Hc & _ & _ & ->)|(r & n1 & Hc & _ & _ & ->)]]].
  - apply gentle_refl.
  - apply commit_gentle in Hc as (? & ? & ? & ?). by apply gentle_evolves.
  - apply commit_gentle in Hc as (? & ? & ? & ?). apply gentle_evolves; try done; by destruct (_ <? _).
  - apply commit_gentle in Hc as (? & ? & ? & ?). apply gentle_evolves; try done; destruct r; try done; by destruct (_ <? _).
Qed.

Lemma RecordVote_gentle v t n won n' : RecordVoteAndCheckMajority v t n = (won, n') → gentle n n'.
Proof.
  unfold RecordVoteAndCheckMajority. destruct (_ || _); intros [= _ <-]; [apply gentle_refl|]. split; auto.
Qed.

(** ** Simulation *)

#[local] Abbreviation steps := (rtc (spec_step (quorum_of config))).

Lemma up_ok_gentle s s' i sv sv' :
  up_ok s i sv → gentle (sv_node sv) (sv_node sv') → logical (sv_log sv') = logical (sv_log sv) → retains s s' →
  sp_term s' i = rn_term (sv_node sv') → sp_role s' i = rn_Role (sv_node sv') →
  sp_log s' i = sp_log s i → sp_commit s' i = sp_commit s i → up_ok s' i sv'.
Proof.
  intros [Ht Hpos Hr Hs Hc Ha Hp] [Hg1 Hg2 Hg3 Hg4 Hg5] Hlog Hret Ht' Hr' Hl' Hc'.
  assert (rl_lastIncludedIndex (sv_log sv') = rl_lastIncludedIndex (sv_log sv)) as Hi by by (injection Hlog).
  split; try done.
  - destruct Hg1 as [[_ ?]|[_ ->]]; lia.
  - rewrite Hl'. by eapply seg_logical.
  - by rewrite Hc', Hg2.
  - by rewrite Hi, Hg5, Hg2.
  - intros Hld. destruct Hg1 as [[? _]|[Hr1 Ht1]]; [congruence|].
    rewrite Hr1 in Hld. apply (progress_ok_mono _ _ _ _ Hret Hl') in Hp; [|done].
    unfold progress_ok in *. rewrite Hg3, Hg4, Ht1. done.
Qed.

(** The rest of the system is as it was; refusals may have been sent. *)
Record only_server (i : Z) sv' y y' : Prop := {
  os_status : cl_status (sy_cluster y') = <[i := Up sv']> (cl_status (sy_cluster y));
  os_ballots : cl_ballots (sy_cluster y') = cl_ballots (sy_cluster y);
  os_elected : cl_elected (sy_cluster y') = cl_elected (sy_cluster y);
  os_wal : sy_wal y' = sy_wal y;
  os_asks : sy_asks y' = sy_asks y;
  os_appends : sy_appends y' = sy_appends y;
  os_replies : ∀ r, r ∈ sy_replies y' → r ∈ sy_replies y ∨ aer_Success r.2 = false;
  os_snaps : sy_snaps y' = sy_snaps y;
  os_installs : ∀ r, r ∈ sy_installs y' → r ∈ sy_installs y ∨ isr_Success r.2 = false;
}.

Lemma put_only i sv' y : only_server i sv' y (put i sv' y).
Proof. split; try done; by left. Qed.

Lemma related_up y s i sv : related y s → server_at y i sv → up_ok s i sv.
Proof. intros Hr Hi. pose proof (rel_status _ _ Hr i) as Hs. unfold server_at in Hi. by rewrite Hi in Hs. Qed.

Lemma retains_refl s : retains s s.
Proof. by split. Qed.

Lemma related_server y s y' s' i sv sv' :
  related y s → server_at y i sv → only_server i sv' y y' → retains s s' → elsewhere i s s' → up_ok s' i sv' →
  sp_term s i ≤ sp_term s' i →
  (sp_role s' i = Candidate → sp_term s i < sp_term s' i ∨ sp_role s i = Candidate ∧ sp_term s i = sp_term s' i) →
  (∀ t o L, sp_leader s' t = Some (o, L) → ∃ L0, sp_leader s t = Some (o, L0)) →
  related y' s'.
Proof.
  intros Hrel Hi [Hst Hb He Hw Ha Hm Hr Hs Hin] Hret Hel Hup Ht Hc HL.
  apply (related_move y s y' s' i (Up sv')); try done.
  - by rewrite Hw.
  - by rewrite He.
  - intros req. rewrite Ha. auto.
  - intros t c v. rewrite Hb. auto.
  - intros req. rewrite Hm. auto.
  - intros [[p t] resp] [?|Hf]%Hr; [by left|right]. simpl in Hf. intros Hs'. congruence.
  - intros req. rewrite Hs. auto.
  - intros [[[p t] k] resp] [?|Hf]%Hin; [by left|right]. simpl in Hf. intros Hs'. congruence.
  - intros t o L HL'. left. by eapply HL.
Qed.

Lemma elsewhere_set i t r l c s : elsewhere i s (set_spec i t r l c s).
Proof. intros j Hj. simpl. by rewrite !fn_lookup_insert_ne by done. Qed.

Lemma sim_gentle y s y' i sv sv' :
  related y s → server_at y i sv → only_server i sv' y y' →
  gentle (sv_node sv) (sv_node sv') → logical (sv_log sv') = logical (sv_log sv) →
  ∃ s', steps s s' ∧ related y' s'.
Proof.
  intros Hrel Hi Hy Hg Hlog. pose proof (related_up _ _ _ _ Hrel Hi) as Hup.
  destruct (gentle_role _ _ Hg) as [[Hr Ht]|[Hr Ht]].
  - exists (set_spec i (rn_term (sv_node sv')) Follower (sp_log s i) (sp_commit s i) s). split.
    + apply rtc_once, sp_step_down; [by rewrite (up_term _ _ _ Hup)|done].
    + eapply related_server; [done..|by split|apply elsewhere_set| | | |by eauto]; simpl; rewrite ?fn_lookup_insert; [| |done].
      * eapply up_ok_gentle; [done..|by split| | | |]; simpl; by rewrite ?fn_lookup_insert.
      * by rewrite (up_term _ _ _ Hup).
  - exists s. split; [done|]. eapply related_server; [done..|by split|by intros ? ?| |done|by auto|by eauto].
    eapply up_ok_gentle; [done..|by split| | |done|done].
    + by rewrite Ht, (up_term _ _ _ Hup).
    + by rewrite Hr, (up_role _ _ _ Hup).
Qed.

(** Something is sent, and no server changes. *)
Lemma related_net y s y' s' :
  related y s → retains s s' →
  (∀ j, sp_term s' j = sp_term s j ∧ sp_role s' j = sp_role s j ∧ sp_log s' j = sp_log s j ∧ sp_commit s' j = sp_commit s j) →
  sp_leader s' = sp_leader s → sy_cluster y' = sy_cluster y → sy_wal y' = sy_wal y →
  sy_replies y' = sy_replies y → sy_installs y' = sy_installs y →
  (∀ req, req ∈ sy_asks y' → req ∈ sy_asks y ∨ ask_rel s' req) →
  (∀ req, req ∈ sy_appends y' → req ∈ sy_appends y ∨ append_rel s' req) →
  (∀ req, req ∈ sy_snaps y' → req ∈ sy_snaps y ∨ snap_rel s' req) →
  related y' s'.
Proof.
  intros [Hst Ha Hb Hm Hr Hs Hin Hl] Hret Hsame HL Hc Hw Hrep Hins Ha' Hm' Hs'. split; rewrite ?Hc, ?Hw, ?Hrep, ?Hins.
  - intros j. apply (status_rel_other (j + 1) s); [done| |lia|done]. intros k _. apply Hsame.
  - intros req [?|]%Ha'; [|done]. by eapply ask_rel_mono, Ha.
  - intros t c v [l ?]%Hb. exists l. by apply (ret_votes _ _ Hret).
  - intros req [?|]%Hm'; [|done]. by eapply append_rel_mono, Hm.
  - intros r ?. by eapply reply_rel_mono, Hr.
  - intros req [?|]%Hs'; [|done]. by eapply snap_rel_mono, Hs.
  - intros r ?. by eapply install_rel_mono, Hin.
  - intros t o L. rewrite HL. destruct (Hsame o) as (-> & -> & _). apply Hl.
Qed.

Lemma up_server_ok y i sv :
  cluster_inv config (sy_cluster y) → server_at y i sv →
  server_ok config (cl_ballots (sy_cluster y)) (cl_elected (sy_cluster y)) i sv.
Proof. intros Hc Hi. pose proof (ci_status _ _ Hc i) as Hs. unfold server_at in Hi. by rewrite Hi in Hs. Qed.

Lemma BecomeCandidate_commit now n t n' :
  BecomeCandidate now n = (Ok t, n') → rn_CommitIndex n' = rn_CommitIndex n ∧ rn_LastApplied n' = rn_LastApplied n.
Proof.
  unfold BecomeCandidate. destruct (commitPersistentLocked _ n) as [[u|e] n1] eqn:Hc; intros [= _ <-].
  by apply commit_gentle in Hc as (? & _ & _ & ?).
Qed.

Lemma sim_campaign y s i sv now t n' won :
  cluster_inv config (sy_cluster y) → related y s → server_at y i sv →
  int64 (rn_term (sv_node sv)) → rn_term (sv_node sv) < MaxInt64 →
  BecomeCandidate now (sv_node sv) = (Ok t, n') →
  ∃ s', steps s s' ∧
    related (put i (mkServer n' (sv_log sv) won) (with_cluster (cast (t, NodeID n', i) (sy_cluster y)) y)) s'.
Proof.
  intros Hc Hrel Hi Hint Hmax Hb. pose proof (related_up _ _ _ _ Hrel Hi) as Hup.
  pose proof (so_id _ _ _ _ _ (up_server_ok _ _ _ Hc Hi)) as Hid. destruct (BecomeCandidate_commit _ _ _ _ Hb) as [Hcm Hap].
  apply BecomeCandidate_inv in Hb as (((Hid' & _) & _) & -> & Hp & Hr & _); [|done..].
  pose proof (up_pos _ _ _ Hup). set (t := rn_term (sv_node sv) + 1) in *.
  assert (rn_term n' = t) as Htn by (unfold rn_term; by rewrite Hp).
  eexists. split; [apply rtc_once, (sp_campaign _ s i t); rewrite ?(up_term _ _ _ Hup); lia|].
  assert (NodeID n' = i) as -> by (unfold NodeID; congruence).
  eapply (related_move y s _ _ i); [done|split; simpl; set_solver| | |done|done| |by left| |by left|by left|by left|by left| | |]; simpl.
  - intros j Hj. simpl. by rewrite !fn_lookup_insert_ne.
  - done.
  - destruct Hup as [? ? ? Hl Hcom Ha _]. split; simpl; rewrite ?fn_lookup_insert, ?Hcm, ?Hap; try done; try lia; try congruence.
  - intros t' c v [[= -> -> ->]|?]%elem_of_cons; [right|by left]. eexists. left.
  - rewrite fn_lookup_insert, (up_term _ _ _ Hup). lia.
  - rewrite !fn_lookup_insert, (up_term _ _ _ Hup). left. lia.
  - eauto.
Qed.

Lemma sim_ask y s i sv t :
  related y s → server_at y i sv → t ≤ rn_term (sv_node sv) →
  ∃ s', steps s s' ∧
    related (asked (mkRequestVoteRequest t i (LastLogState (sv_log sv)).1 (LastLogState (sv_log sv)).2) y) s'.
Proof.
  intros Hrel Hi Ht. pose proof (related_up _ _ _ _ Hrel Hi) as Hup.
  eexists. split; [apply rtc_once, (sp_ask _ s i t (sp_log s i)); [by rewrite (up_term _ _ _ Hup)|done]|].
  eapply related_net; [done|split; simpl; set_solver|done|done|done|done|done|done| |by left|by left]; simpl.
  intros req [->|]%elem_of_cons; [right|by left]. exists (sp_log s i).
  rewrite (seg_LastLogState _ _ (up_log _ _ _ Hup)). split; [left|done].
Qed.

Lemma sim_granted y s i sv req now resp n' :
  related y s → server_at y i sv → req ∈ sy_asks y →
  HandleRequestVote req (LastLogState (sv_log sv)) now (sv_node sv) = (resp, n') → rvr_VoteGranted resp = true →
  ∃ s', steps s s' ∧ related (put i (with_node n' sv)
    (with_cluster (cast (rvr_Term resp, rv_CandidateID req, i) (sy_cluster y)) y)) s'.
Proof.
  intros Hrel Hi Hin Hh Hg. pose proof (related_up _ _ _ _ Hrel Hi) as Hup.
  pose proof (HandleRequestVote_gentle _ _ _ _ _ _ Hh) as Hgt.
  destruct (HandleRequestVote_granted _ _ _ _ _ _ Hh Hg) as [Hrt Hp].
  assert (vote_guards (sv_node sv) req (LastLogState (sv_log sv)) now ∧
    rn_Role n' = if rn_term (sv_node sv) =? rv_Term req then rn_Role (sv_node sv) else Follower) as [(Hfree & _ & Hutd) Hrole].
  { apply HandleRequestVote_cases in Hh
      as [(-> & _)|[(e & _ & _ & ->)|[(n1 & Hc & Hgd & _ & ->)|(r & n1 & _ & _ & Hf & _)]]];
      [done|done| |congruence].
    split; [done|]. apply commitPersistentLocked_inv in Hc as [(_ & Hr & _) _].
    destruct Hgd as ([|[]] & _); unfold rn_term in *;
      [rewrite (proj2 (Z.ltb_lt _ _)), (proj2 (Z.eqb_neq _ _)) by lia|
       rewrite (proj2 (Z.ltb_ge _ _)), (proj2 (Z.eqb_eq _ _)) by lia]; done. }
  destruct (rel_ask _ _ Hrel _ Hin) as (l & Hl & Hli & Hlt).
  assert (rn_term n' = rv_Term req) as Htn by (unfold rn_term; by rewrite Hp).
  assert (rn_term (sv_node sv) ≤ rv_Term req) as Hle by (unfold vote_free, rn_term in *; lia).
  rewrite Hrt. eexists. split.
  { apply rtc_once, (sp_vote _ s i (rv_Term req) (rv_CandidateID req) l); [done|by rewrite (up_term _ _ _ Hup)|].
    rewrite (seg_LastLogState _ _ (up_log _ _ _ Hup)), Hli, Hlt in Hutd.
    unfold log_up_to_date, up_to_date in *. simpl in Hutd.
    destruct Hutd as [|[? ?]]; [by left|right]. split; [done|lia]. }
  eapply (related_move y s _ _ i); [done|split; simpl; set_solver| | |done|done| |by left| |by left|by left|by left|by left| | |]; simpl.
  - intros j Hj. simpl. by rewrite !fn_lookup_insert_ne.
  - done.
  - eapply (up_ok_gentle s); [done|done|done|split; simpl; set_solver|..]; simpl; rewrite fn_lookup_insert; [done| |done|done].
    by rewrite Hrole, (up_term _ _ _ Hup), (up_role _ _ _ Hup).
  - intros t' c v [[= -> -> ->]|?]%elem_of_cons; [right|by left]. eexists. left.
  - rewrite fn_lookup_insert. by rewrite (up_term _ _ _ Hup).
  - rewrite !fn_lookup_insert. destruct (Z.eqb_spec (sp_term s i) (rv_Term req)); [auto|done].
  - eauto.
Qed.

(** Server [i] leads its term with log [l]. *)
Lemma lead_elsewhere i l s : elsewhere i s (lead i l s).
Proof. intros j Hj. destruct (lead_other i l s j Hj) as [-> ->]. by rewrite lead_term, lead_commit. Qed.

Lemma lead_retains i l s : retains s (lead i l s).
Proof. split; simpl; set_solver. Qed.

Lemma lead_up_ok s i sv n' rl' l :
  up_ok s i sv → rn_term n' = rn_term (sv_node sv) → rn_Role n' = Leader →
  rn_CommitIndex n' = rn_CommitIndex (sv_node sv) → rn_LastApplied n' = rn_LastApplied (sv_node sv) →
  segment rl' l → rl_lastIncludedIndex rl' = rl_lastIncludedIndex (sv_log sv) →
  (∀ p v, rn_NextIndex n' !! p = Some v → 1 ≤ v ≤ Z.of_nat (length l) + 1) →
  (∀ p m, rn_MatchIndex n' !! p = Some m → m ≤ 0 ∨ ∃ k, (p, rn_term n', k) ∈ sp_acks s ∧ m ≤ Z.of_nat k) →
  up_ok (lead i l s) i (mkServer n' rl' (sv_won sv)).
Proof.
  intros [Ht Hpos Hr Hl Hc Ha _] Ht' Hr' Hc' Ha' Hl' Hi' Hn Hm.
  split; rewrite ?lead_term, ?lead_role, ?lead_log, ?lead_commit; simpl; rewrite ?Ha', ?Hi', ?Hc'; try congruence; try done; try (by rewrite Ht').
  intros _. unfold progress_ok. rewrite lead_log. split_and!; simpl; [done| |].
  - intros p m Hp. destruct (Hm p m Hp) as [|(k & ? & ?)]; [by left|right]. exists k. split; [by right|done].
  - rewrite Ht', <-Ht. left.
Qed.

Lemma lead_leader_new i l s t o L :
  sp_leader (lead i l s) t = Some (o, L) → (∃ L0, sp_leader s t = Some (o, L0)) ∨ t = sp_term s i ∧ o = i.
Proof.
  destruct (decide (t = sp_term s i)) as [->|]; [rewrite lead_leader|rewrite lead_leader_other by done; eauto].
  intros [= <- <-]. by right.
Qed.

Lemma carried_quorum s y t i :
  related y s → carried config (cl_ballots (sy_cluster y)) t i → quorum_of config (λ j, ∃ l, (t, i, j, l) ∈ sp_votes s).
Proof. intros Hrel (have & Hq & Hv). exists have. split; [done|]. intros v Hb. by apply (rel_ballot _ _ Hrel), Hv. Qed.

(** A candidate has not led its term, and nobody else has. *)
Lemma fresh_term y s i sv :
  cluster_inv config (sy_cluster y) → related y s → server_at y i sv →
  rn_Role (sv_node sv) = Candidate → carried config (cl_ballots (sy_cluster y)) (rn_term (sv_node sv)) i →
  sp_leader s (rn_term (sv_node sv)) = None.
Proof.
  intros Hc Hrel Hi Hr Hcar. pose proof (related_up _ _ _ _ Hrel Hi) as Hup.
  destruct (sp_leader s (rn_term (sv_node sv))) as [[o L]|] eqn:HL; [|done]. exfalso.
  destruct (rel_leader _ _ Hrel _ _ _ HL) as (Hel & _ & Hcand). destruct (ci_elected _ _ Hc _ _ Hel) as [Ho Hcar'].
  assert (o = i) as ->.
  { eapply carried_unique; [exact Hvoters|done|done| |done..]. by apply (so_pos _ _ _ _ _ (up_server_ok _ _ _ Hc Hi)). }
  apply Hcand; [by rewrite (up_term _ _ _ Hup)|by rewrite (up_role _ _ _ Hup)].
Qed.

Lemma sim_promote y s i sv t n' :
  cluster_inv config (sy_cluster y) → related y s → server_at y i sv → t ∈ sv_won sv →
  BecomeLeader t (LatestIndex (sv_log sv)) (sv_node sv) = (true, n') →
  ∃ s', steps s s' ∧ related (put i (with_node n' sv) (with_cluster (elect t i (sy_cluster y)) y)) s'.
Proof.
  intros Hc Hrel Hi Hwon. pose proof (related_up _ _ _ _ Hrel Hi) as Hup.
  pose proof (so_won _ _ _ _ _ (up_server_ok _ _ _ Hc Hi) _ Hwon) as Hcar. pose proof (up_log _ _ _ Hup) as Hw.
  unfold BecomeLeader. case_bool_decide as Hr; simpl; [done|].
  destruct (Z.eqb_spec (CurrentTerm (rn_persistent (sv_node sv))) t) as [<-|]; simpl; [|done].
  fold (rn_term (sv_node sv)) in *.
  intros [= <-]. exists (lead i (sp_log s i) s). split.
  { apply rtc_once. pose proof (sp_promote (quorum_of config) s i (sp_term s i)) as Hp. apply Hp.
    - by rewrite (up_role _ _ _ Hup).
    - done.
    - rewrite (up_term _ _ _ Hup). by eapply fresh_term.
    - rewrite (up_term _ _ _ Hup). by eapply carried_quorum. }
  eapply (related_move y s _ _ i); [done|apply lead_retains|apply lead_elsewhere|done|done|simpl; set_solver| |by left|by left|by left|by left|by left|by left| | |].
  - pose proof (seg_bound _ _ Hw). eapply lead_up_ok; [done..| |]; simpl.
    + intros p v (a & <- & _)%lookup_fmap_Some. unfold LatestIndex. rewrite (seg_last _ _ Hw). wrapless. lia.
    + intros p m (a & <- & _)%lookup_fmap_Some. by left.
  - by rewrite lead_term.
  - by rewrite lead_role.
  - intros u o L [?|[-> ->]]%lead_leader_new; [by left|right].
    rewrite lead_term, lead_role, (up_term _ _ _ Hup). split_and!; [left|done|done].
Qed.

Lemma sim_propose y s i sv cmd r rl' :
  raft_inv (quorum := quorum_of config) s → related y s → server_at y i sv → rn_Role (sv_node sv) = Leader → rl_nextIndex (sv_log sv) < MaxInt64 →
  AppendLeader cmd (rn_term (sv_node sv)) (sv_log sv) = (r, rl') →
  ∃ s', steps s s' ∧ related (put i (mkServer (sv_node sv) rl' (sv_won sv)) y) s'.
Proof.
  intros Hinv Hrel Hi Hr Hmax Ha. pose proof (related_up _ _ _ _ Hrel Hi) as Hup. pose proof (up_log _ _ _ Hup) as Hl.
  pose proof (AppendLeader_spec (sv_log sv) cmd (rn_term (sv_node sv)) (seg_wf _ _ Hl) Hmax) as Hs. rewrite Ha in Hs.
  destruct r as [e|]; [|by eapply sim_gentle; [done|done|apply put_only|apply gentle_refl|]].
  destruct Hs as (He & Hcache & Hf & Hlt & _ & Hwf).
  exists (lead i (sp_log s i ++ [e]) s). split.
  { apply rtc_once, sp_append; [by rewrite (up_role _ _ _ Hup)|by rewrite He, (up_term _ _ _ Hup)]. }
  assert (rl_lastIncludedIndex rl' = rl_lastIncludedIndex (sv_log sv)) as Hlii.
  { destruct Hwf as [Hp _]. destruct (seg_wf _ _ Hl) as [Hp0 _]. pose proof (lp_first _ Hp). pose proof (lp_first _ Hp0). lia. }
  destruct (up_progress _ _ _ Hup Hr) as (Hn & Hm & _).
  eapply (related_server y s _ _ i); [done|done|apply put_only|apply lead_retains|apply lead_elsewhere| | | |].
  - eapply lead_up_ok; [done..| |done| |done].
    + pose proof (seg_base _ _ Hl) as Hb. assert (base rl' = base (sv_log sv)) as Hbase by (unfold base; by rewrite Hlii).
      split; [done| | |]; rewrite Hbase.
      * rewrite length_app. lia.
      * rewrite Hcache, (seg_cache _ _ Hl). by rewrite drop_app_le.
      * rewrite Hlt, (seg_term _ _ Hl). unfold prev_term. by rewrite take_app_le.
    + intros p v Hp. specialize (Hn p v Hp). rewrite length_app. lia.
  - by rewrite lead_term.
  - by rewrite lead_role.
  - intros t o L [?|[-> ->]]%lead_leader_new; [done|].
    destruct (raft_server _ Hinv i) as (_ & _ & _ & Hld & _). exists (sp_log s i). apply Hld.
    by rewrite (up_role _ _ _ Hup).
Qed.

Lemma next_in_log s i sv p :
  up_ok s i sv → rn_Role (sv_node sv) = Leader →
  1 ≤ NextIndexFor p (sv_node sv) ≤ Z.of_nat (length (sp_log s i)) + 1.
Proof.
  intros Hup Hr. destruct (up_progress _ _ _ Hup Hr) as (Hn & _). unfold NextIndexFor, gm_int.
  destruct (rn_NextIndex (sv_node sv) !! p) as [v|] eqn:Hp; simpl; [|lia].
  specialize (Hn p v Hp). destruct (Z.ltb_spec v 1); lia.
Qed.

(** What a leader sends: from its log, or from below what its log still has. *)
Lemma request_shape s i sv p :
  up_ok s i sv → rn_Role (sv_node sv) = Leader →
  let req := append_request (sv_node sv) (sv_node sv) (sv_node sv) (sv_log sv) (sv_log sv) p in
  ∃ k w, (k ≤ length (sp_log s i))%nat ∧ ae_PrevLogIndex req = Z.of_nat k ∧
    ae_Entries req = take w (drop k (sp_log s i)) ∧
    (prev_term (sp_log s i) k = ae_PrevLogTerm req ∨ ae_PrevLogTerm req = 0 ∧ ae_Entries req = []) ∧
    contiguous (ae_PrevLogIndex req + 1) (ae_Entries req).
Proof.
  intros Hup Hr req. pose proof (next_in_log _ _ _ p Hup Hr) as Hnx. pose proof (up_log _ _ _ Hup) as Hs.
  pose proof (seg_bound _ _ Hs) as Hbd. pose proof (seg_first _ _ Hs) as Hf. pose proof (seg_base _ _ Hs).
  set (next := NextIndexFor p (sv_node sv)) in *. set (l := sp_log s i) in *.
  assert (ae_PrevLogIndex req = next - 1) as Hprev by (change (ae_PrevLogIndex req) with (next -! 1); wrapless; done).
  assert (ae_PrevLogTerm req = if 0 <? next - 1 then TermAt (sv_log sv) (next - 1) else 0) as Hpt by by rewrite <-Hprev.
  assert (ae_Entries req = GetEntriesFrom (sv_log sv) next) as Hes by done.
  assert (rl_firstIndex (sv_log sv) ≤ next →
    ae_Entries req = drop (Z.to_nat (next - rl_firstIndex (sv_log sv))) (rl_cache (sv_log sv)) ∧
    contiguous (ae_PrevLogIndex req + 1) (ae_Entries req)) as Hwin.
  { intros Hle. destruct (append_request_window (sv_node sv) (sv_log sv) p) as (_ & ? & ? & _); [apply (seg_wf _ _ Hs)| | |done].
    - fold next. unfold int64. lia.
    - fold next. rewrite (seg_len _ _ Hs). lia. }
  clearbody next. exists (Z.to_nat (next - 1)). destruct (decide (rl_firstIndex (sv_log sv) ≤ next)) as [Hle|Hlt].
  - destruct (Hwin Hle) as [Hw Hcon]. exists (length l). split_and!; [lia|lia| | |done].
    + rewrite Hw, Hf, (seg_cache _ _ Hs), drop_drop. fold l. rewrite take_ge by (rewrite length_drop; lia). f_equal. lia.
    + left. rewrite Hpt. destruct (Z.ltb_spec 0 (next - 1)) as [Hp|Hz].
      * symmetry. apply seg_TermAt; [done|]. fold l. lia.
      * by replace (Z.to_nat (next - 1)) with 0%nat by lia.
  - assert (ae_Entries req = []) as Hnil.
    { rewrite Hes. unfold GetEntriesFrom. wrapless. by rewrite (proj2 (Z.ltb_lt _ _)) by lia. }
    exists 0%nat. rewrite Hnil. split_and!; [lia|lia|done| |apply contiguous_nil]. right. split; [|done]. rewrite Hpt.
    destruct (Z.ltb_spec 0 (next - 1)); [|done]. eapply seg_TermAt_below; [done|lia].
Qed.

Lemma sim_send y s i sv p :
  related y s → server_at y i sv → rn_Role (sv_node sv) = Leader →
  ∃ s', steps s s' ∧
    related (sent (append_request (sv_node sv) (sv_node sv) (sv_node sv) (sv_log sv) (sv_log sv) p) y) s'.
Proof.
  intros Hrel Hi Hr. pose proof (related_up _ _ _ _ Hrel Hi) as Hup.
  destruct (request_shape _ _ _ p Hup Hr) as (k & w & Hk & Hprev & Hes & Hpt & Hcon).
  pose proof (seg_bound _ _ (up_log _ _ _ Hup)) as Hbd.
  assert (∀ req, req = append_request (sv_node sv) (sv_node sv) (sv_node sv) (sv_log sv) (sv_log sv) p →
    ae_Term req = rn_term (sv_node sv) ∧ ae_LeaderCommit req = rn_CommitIndex (sv_node sv)) as Hreq by by intros req ->.
  remember (append_request _ _ _ _ _ p) as req eqn:Heq. destruct (Hreq _ eq_refl) as [Hterm Hcommit].
  eexists. split; [apply rtc_once, (sp_send _ s i k w); [by rewrite (up_role _ _ _ Hup)|done]|].
  eapply related_net; [done|split; simpl; set_solver|done|done|done|done|done|done|by left| |by left]; simpl.
  intros req' [->|]%elem_of_cons; [right|by left]. eexists. split; [left|]. simpl.
  rewrite (up_term _ _ _ Hup), (up_commit _ _ _ Hup).
  split_and!; [done|done|done|done|done|done|].
  rewrite Hprev, Hes, length_take, length_drop. lia.
Qed.

Lemma drop_merge_at l p b es :
  (b ≤ p)%nat → (p ≤ length l)%nat →
  drop b (merge_at l p es) = take (p - b) (drop b l) ++ merge (drop (p - b) (drop b l)) es.
Proof.
  intros Hb Hp. unfold merge_at. rewrite drop_app_le by (rewrite length_take; lia).
  rewrite drop_drop, <-(skipn_firstn_comm). by replace (b + (p - b))%nat with p by lia.
Qed.

Lemma take_merge_at l p b es : (b ≤ p)%nat → (p ≤ length l)%nat → take b (merge_at l p es) = take b l.
Proof.
  intros Hb Hp. unfold merge_at. rewrite take_app_le by (rewrite length_take; lia).
  rewrite take_take. f_equal. lia.
Qed.

Lemma merge_at_nil l p : merge_at l p [] = l.
Proof. unfold merge_at. destruct (drop p l) eqn:Hd; simpl; rewrite <-Hd; apply take_drop. Qed.

(** What the log does with an honest request that succeeds. *)
Lemma append_shape s i sv req rl' m mi ct ci o L :
  raft_inv (quorum := quorum_of config) s → up_ok s i sv → rn_term (sv_node sv) ≤ ae_Term req →
  msg_ok (quorum := quorum_of config) s m → ap_term m = ae_Term req → sp_leader s (ae_Term req) = Some (o, L) →
  Z.of_nat (ap_prev m) = ae_PrevLogIndex req →
  (ap_prevTerm m = ae_PrevLogTerm req ∨ ae_PrevLogTerm req = 0 ∧ ae_Entries req = []) →
  ap_entries m = ae_Entries req →
  contiguous (ae_PrevLogIndex req + 1) (ae_Entries req) →
  ae_PrevLogIndex req + 1 + Z.of_nat (length (ae_Entries req)) ≤ MaxInt64 →
  AppendEntriesToLog (ae_PrevLogIndex req) (ae_PrevLogTerm req) (ae_Entries req) (sv_log sv) = ((mi, ct, ci, true), rl') →
  (ap_prev m ≤ length (sp_log s i))%nat ∧ prev_term (sp_log s i) (ap_prev m) = ap_prevTerm m ∧
  mi = ae_PrevLogIndex req + Z.of_nat (length (ae_Entries req)) ∧
  segment rl' (merge_at (sp_log s i) (ap_prev m) (ap_entries m)) ∧
  rl_lastIncludedIndex rl' = rl_lastIncludedIndex (sv_log sv).
Proof.
  intros Hinv Hup Hterm Hm Hmt HL Hmp Hpt Hme Hcon Hbd Hlog. pose proof (up_log _ _ _ Hup) as Hs.
  destruct Hm as (o' & L' & HL' & HpL & HptL & _). rewrite Hmt, HL in HL'. injection HL' as <- <-.
  destruct (raft_server _ Hinv i) as (Ho & _ & _ & _ & Hcov). destruct (raft_leader _ Hinv _ _ _ HL) as (_ & HoL & _).
  set (l := sp_log s i) in *. set (p := ap_prev m) in *. pose proof (seg_base _ _ Hs) as Hb. pose proof (seg_lii _ _ Hs) as Hlii.
  destruct (decide (p < base (sv_log sv))%nat) as [Hlow|Hhigh].
  - assert (common p l L) as Hcom.
    { eapply common_le; [|eapply (covered_in_leader s (sp_term s i)); [done| |done|exact Hcov]].
      - pose proof (up_applied _ _ _ Hup). pose proof (up_commit _ _ _ Hup). lia.
      - by rewrite (up_term _ _ _ Hup). }
    assert (prev_term l p = ap_prevTerm m) as Hpl by (rewrite <-HptL; unfold prev_term; by destruct Hcom as (-> & _)).
    destruct (decide (ae_Entries req = [])) as [Hnil|Hne].
    + rewrite Hnil in Hlog. apply AppendEntriesToLog_empty in Hlog as [-> ->].
      rewrite Hme, Hnil, merge_at_nil. split_and!; [lia|done|simpl; lia|done|done].
    + rewrite AppendEntriesToLog_below_boundary in Hlog; [done|by apply (seg_wf _ _ Hs)|lia| |done|done].
      intros Hp0. destruct Hpt as [<-|[_ ?]]; [|done]. rewrite <-HptL. intros ?%(owned_prev_pos s); [lia|done|done].
  - pose proof (AppendEntriesToLog_spec (sv_log sv) (ae_PrevLogIndex req) (ae_PrevLogTerm req) (ae_Entries req)
      (seg_wf _ _ Hs) ltac:(lia) Hcon Hbd) as Hspec.
    rewrite Hlog in Hspec. cbv zeta in Hspec. destruct Hspec as (Hpm & -> & Hcache & Hwf & Hbase).
    assert ((p ≤ length l)%nat ∧ prev_term l p = ap_prevTerm m) as [Hple Hpl].
    { unfold prev_matches in Hpm. rewrite (seg_last _ _ Hs) in Hpm. fold l in Hpm.
      apply orb_true_iff in Hpm as [?%Z.leb_le|[Hle%Z.leb_le Heq%Z.eqb_eq]%andb_true_iff].
      - assert (p = 0%nat) as Hz by lia. rewrite <-HptL, Hz. split; [lia|done].
      - rewrite (seg_TermAt _ _ _ Hs) in Heq by (fold l; lia). fold l in Heq. rewrite <-Hmp, Nat2Z.id in Heq.
        split; [lia|]. destruct Hpt as [->|[Hz _]]; [done|]. rewrite Hz in Heq.
        apply (owned_prev_pos s) in Heq as Hp0; [|done|lia]. rewrite Heq, <-HptL. by rewrite Hp0. }
    assert (base rl' = base (sv_log sv)) as Hbeq by (unfold base; by destruct Hbase as (_ & -> & _)).
    split_and!; [done|done|done| |by destruct Hbase as (_ & -> & _)].
    split; [done| | |]; rewrite Hbeq.
    + unfold merge_at. rewrite length_app, length_take. lia.
    + rewrite drop_merge_at, Hcache, (seg_cache _ _ Hs), Hme by lia. fold l.
      by replace (Z.to_nat (ae_PrevLogIndex req - rl_lastIncludedIndex (sv_log sv))) with (p - base (sv_log sv))%nat by lia.
    + unfold prev_term. rewrite take_merge_at by lia. destruct Hbase as (_ & _ & -> & _). apply (seg_term _ _ Hs).
Qed.

Lemma setFollowerCommit_applied c k n : rn_LastApplied (setFollowerCommitIndexLocked c k n) = rn_LastApplied n.
Proof. unfold setFollowerCommitIndexLocked. by destruct (_ <? _). Qed.

(** Server [i] takes in message [m], in the abstract run. *)
Definition accepted (i : Z) (m : append) (s : spec) : spec :=
  let len := (ap_prev m + length (ap_entries m))%nat in
  add_ack (i, ap_term m, len)
    (set_spec i (ap_term m) Follower (merge_at (sp_log s i) (ap_prev m) (ap_entries m))
       (sp_commit s i `max` (ap_commit m `min` len))%nat s).

Lemma sim_accept y s y' i sv sv' m :
  related y s → server_at y i sv → m ∈ sp_msgs s → rn_term (sv_node sv) ≤ ap_term m →
  (ap_prev m ≤ length (sp_log s i))%nat → prev_term (sp_log s i) (ap_prev m) = ap_prevTerm m →
  rn_term (sv_node sv') = ap_term m → rn_Role (sv_node sv') = Follower →
  rn_CommitIndex (sv_node sv') = Z.max (rn_CommitIndex (sv_node sv))
    (Z.min (Z.of_nat (ap_commit m)) (Z.of_nat (ap_prev m + length (ap_entries m)))) →
  rl_lastIncludedIndex (sv_log sv') ≤ rn_LastApplied (sv_node sv') ≤ rn_CommitIndex (sv_node sv') →
  segment (sv_log sv') (merge_at (sp_log s i) (ap_prev m) (ap_entries m)) →
  cl_status (sy_cluster y') = <[i := Up sv']> (cl_status (sy_cluster y)) →
  cl_ballots (sy_cluster y') = cl_ballots (sy_cluster y) → cl_elected (sy_cluster y') = cl_elected (sy_cluster y) →
  sy_wal y' = sy_wal y → sy_asks y' = sy_asks y → sy_appends y' = sy_appends y → sy_snaps y' = sy_snaps y →
  (∀ r, r ∈ sy_replies y' → r ∈ sy_replies y ∨ reply_rel (accepted i m s) r) →
  (∀ r, r ∈ sy_installs y' → r ∈ sy_installs y ∨ install_rel (accepted i m s) r) →
  ∃ s', steps s s' ∧ related y' s'.
Proof.
  intros Hrel Hi Hm Hterm Hple Hpt Ht Hr Hc Ha Hseg Hst Hb He Hw Has Hap Hsn Hre Hin.
  pose proof (related_up _ _ _ _ Hrel Hi) as Hup. exists (accepted i m s). split.
  { apply rtc_once, (sp_accept _ s i m); [done|by rewrite (up_term _ _ _ Hup)|done|done]. }
  eapply (related_move y s _ _ i); [done|split; simpl; set_solver| |done|by rewrite Hw|by rewrite He| | | | |done| |done| | |].
  - intros j Hj. simpl. by rewrite !fn_lookup_insert_ne by done.
  - simpl. pose proof (up_commit _ _ _ Hup). pose proof (up_pos _ _ _ Hup).
    split; simpl; rewrite ?fn_lookup_insert; try done; [lia|lia|congruence].
  - rewrite Has. by left.
  - rewrite Hb. by left.
  - rewrite Hap. by left.
  - rewrite Hsn. by left.
  - simpl. rewrite fn_lookup_insert, (up_term _ _ _ Hup). lia.
  - simpl. by rewrite fn_lookup_insert.
  - simpl. eauto.
Qed.

Lemma sim_append y s i sv req now resp n' rl' :
  raft_inv (quorum := quorum_of config) s → related y s → server_at y i sv → req ∈ sy_appends y →
  HandleAppendEntries (sv_log sv) req now (sv_node sv) = (resp, n', rl') → aer_Success resp = true →
  ∃ s', steps s s' ∧ related (put i (mkServer n' rl' (sv_won sv)) (answered (i, ae_Term req, resp) y)) s'.
Proof.
  intros Hinv Hrel Hi Hin Hh Hs. pose proof (related_up _ _ _ _ Hrel Hi) as Hup.
  destruct (rel_append _ _ Hrel _ Hin) as (m & Hm & Hmt & Hmp & Hmpt & Hme & Hmc & Hcon & Hbd).
  apply HandleAppendEntries_cases in Hh as [(_ & -> & _)|(Hterm & r1 & n1 & Hacc & Hh)]; [done|].
  pose proof (accept_leader_gentle _ _ _ _ _ Hacc) as Hg. apply accept_leader_inv in Hacc as [_ Hacc]; [|done].
  destruct r1 as [[]|]; [|by destruct Hh as [-> _]]. destruct Hacc as (Hrole & _ & Ht1 & _).
  destruct Hh as (mi & ct & ci & ok & Hlog & Hh). destruct ok; [destruct Hh as [-> ->]|by destruct Hh as [-> _]].
  pose proof (raft_msg _ Hinv _ Hm) as Hmok. pose proof Hmok as (o & L & HL & _). rewrite Hmt in HL.
  destruct (append_shape _ _ _ _ _ _ _ _ _ _ _ Hinv Hup Hterm Hmok Hmt HL Hmp Hmpt Hme Hcon Hbd Hlog)
    as (Hple & Hpt & -> & Hseg & Hlii).
  set (mi := ae_PrevLogIndex req + Z.of_nat (length (ae_Entries req))) in *.
  destruct (setFollowerCommit_fields (ae_LeaderCommit req) mi (set_contact now n1)) as (Hr' & _ & Hp' & Hc').
  pose proof (setFollowerCommit_applied (ae_LeaderCommit req) mi (set_contact now n1)) as Ha'. simpl in Hr', Hp', Hc', Ha'.
  pose proof (gentle_commit _ _ Hg) as Hgc. pose proof (gentle_applied _ _ Hg) as Hga. pose proof (up_applied _ _ _ Hup).
  assert (Z.of_nat (ap_prev m + length (ap_entries m)) = mi) as Hlen by (unfold mi; rewrite <-Hmp, <-Hme; lia).
  set (n' := setFollowerCommitIndexLocked _ _ _) in *.
  eapply (sim_accept y s _ i sv (mkServer n' rl' (sv_won sv)) m); try done; simpl; rewrite ?Hmt; try done.
  - unfold rn_term. by rewrite Hp'.
  - by rewrite Hr'.
  - by rewrite Hc', Hgc, Hlen, Hmc.
  - rewrite Hlii, Ha', Hc', Hga, Hgc. lia.
  - intros r [->|]%elem_of_cons; [right|by left]. intros _. split; [done|].
    exists (ap_prev m + length (ap_entries m))%nat. split; [|by rewrite Hlen]. simpl. rewrite Hmt. left.
  - by left.
Qed.

(** A leader updates what it knows of its peers. *)
Lemma sim_progress y s i sv next match_ :
  related y s → server_at y i sv →
  (rn_Role (sv_node sv) = Leader →
    (∀ p v, next !! p = Some v → 1 ≤ v ≤ Z.of_nat (length (sp_log s i)) + 1) ∧
    (∀ p m, match_ !! p = Some m → m ≤ 0 ∨ ∃ k, (p, rn_term (sv_node sv), k) ∈ sp_acks s ∧ m ≤ Z.of_nat k)) →
  related (put i (with_node (set_progress next match_ (sv_node sv)) sv) y) s.
Proof.
  intros Hrel Hi Hp. pose proof (related_up _ _ _ _ Hrel Hi) as Hup.
  eapply (related_server y s _ _ i); [done|done|apply put_only|apply retains_refl|by intros ? ?| |done|by auto|by eauto].
  destruct Hup as [????? ? Hprog]. split; try done. intros Hr. destruct (Hp Hr) as [Hn Hm].
  destruct (Hprog Hr) as (_ & _ & ?). by split_and!.
Qed.

Lemma ack_in_log s i sv p k :
  raft_inv (quorum := quorum_of config) s → up_ok s i sv → rn_Role (sv_node sv) = Leader →
  (p, rn_term (sv_node sv), k) ∈ sp_acks s → (k ≤ length (sp_log s i))%nat.
Proof.
  intros Hinv Hup Hr Hk. destruct (raft_ack _ Hinv _ Hk) as (_ & o & L & HL & Hle & _).
  destruct (raft_server _ Hinv i) as (_ & _ & _ & Hld & _).
  rewrite (up_role _ _ _ Hup), (up_term _ _ _ Hup) in Hld. rewrite Hld in HL by done.
  by injection HL as _ <-.
Qed.

(** Crediting a peer with what it acknowledged. *)
Lemma sim_credit y s i sv p k :
  raft_inv (quorum := quorum_of config) s → related y s → server_at y i sv →
  (p, rn_term (sv_node sv), k) ∈ sp_acks s →
  related (put i (with_node (UpdatePeerProgress p (Z.of_nat k) (sv_node sv)) sv) y) s.
Proof.
  intros Hinv Hrel Hi Hk. pose proof (related_up _ _ _ _ Hrel Hi) as Hup.
  pose proof (seg_bound _ _ (up_log _ _ _ Hup)) as Hhi. unfold UpdatePeerProgress.
  assert (∀ n, set_progress (rn_NextIndex n) (rn_MatchIndex n) n = n) as Hid by by intros [].
  destruct (rn_MatchIndex (sv_node sv) !! p) as [known|] eqn:Hknown.
  2:{ rewrite <-(Hid (sv_node sv)) at 1. apply sim_progress; [done|done|]. intros Hr.
      by destruct (up_progress _ _ _ Hup Hr) as (? & ? & _). }
  apply sim_progress; [done|done|]. intros Hr.
  pose proof (ack_in_log _ _ _ _ _ Hinv Hup Hr Hk) as Hle. destruct (up_progress _ _ _ Hup Hr) as (Hn & Hmi & _). split.
  - intros q v. destruct (_ <? Z.of_nat k +! 1); [|apply Hn]. intros [[<- <-]|[_ ?]]%lookup_insert_Some; [|by eapply Hn].
    wrapless. lia.
  - intros q v. destruct (known <? Z.of_nat k); [|apply Hmi]. intros [[<- <-]|[_ ?]]%lookup_insert_Some; [|by eapply Hmi].
    right. by exists k.
Qed.

Lemma sim_same y s i sv : related y s → server_at y i sv → ∃ s', steps s s' ∧ related (put i (with_node (sv_node sv) sv) y) s'.
Proof. intros Hrel Hi. by eapply sim_gentle; [done|done|apply put_only|apply gentle_refl|]. Qed.

Lemma set_progress_id n : set_progress (rn_NextIndex n) (rn_MatchIndex n) n = n.
Proof. by destruct n. Qed.

(** A server that does not lead may believe anything of its peers. *)
Lemma sim_idle y s i sv n' :
  related y s → server_at y i sv → rn_Role (sv_node sv) ≠ Leader →
  (∃ next match_, n' = set_progress next match_ (sv_node sv)) → ∃ s', steps s s' ∧ related (put i (with_node n' sv) y) s'.
Proof. intros Hrel Hi Hr (next & match_ & ->). exists s. split; [done|]. by apply sim_progress. Qed.

Lemma append_reply_progress u p r n t n' :
  append_reply u p r n = (t, n') → ∃ next match_, n' = set_progress next match_ n.
Proof.
  unfold append_reply, UpdatePeerProgress, BacktrackNextIndex.
  repeat case_match; intros [= _ <-]; eexists _, _; try done; symmetry; apply set_progress_id.
Qed.

Lemma snapshot_reply_progress u p k r n t n' :
  snapshot_reply u p k r n = (t, n') → ∃ next match_, n' = set_progress next match_ n.
Proof.
  unfold snapshot_reply, UpdatePeerProgress.
  repeat case_match; intros [= _ <-]; eexists _, _; try done; symmetry; apply set_progress_id.
Qed.

Lemma sim_reply y s i sv p u resp t n' :
  raft_inv (quorum := quorum_of config) s → related y s → server_at y i sv →
  (p, u, resp) ∈ sy_replies y → (rn_Role (sv_node sv) = Leader → u = rn_term (sv_node sv)) →
  append_reply u p (Some resp) (sv_node sv) = (t, n') →
  ∃ s', steps s s' ∧ related (put i (with_node n' sv) y) s'.
Proof.
  intros Hinv Hrel Hi Hin Hu Ha. destruct (decide (rn_Role (sv_node sv) = Leader)) as [Hld|];
    [|by eapply sim_idle, append_reply_progress]. rewrite (Hu Hld) in *. pose proof (related_up _ _ _ _ Hrel Hi) as Hup.
  pose proof (seg_bound _ _ (up_log _ _ _ Hup)) as Hhi.
  revert Ha. unfold append_reply. destruct (_ <? _); [intros [= _ <-]; by apply sim_same|].
  destruct (aer_Success resp) eqn:Hs; intros [= _ <-].
  - destruct (rel_reply _ _ Hrel _ Hin Hs) as (_ & k & Hk & ->). exists s. split; [done|]. by apply sim_credit.
  - exists s. split; [done|]. apply sim_progress; [done|done|]. intros Hr.
    destruct (up_progress _ _ _ Hup Hr) as (Hn & Hmi & _). split; [|done].
    intros q v [[<- <-]|[_ ?]]%lookup_insert_Some; [|by eapply Hn].
    assert (0 ≤ gm_int (rn_NextIndex (sv_node sv)) p ≤ Z.of_nat (length (sp_log s i)) + 1) as Hcur.
    { unfold gm_int. destruct (rn_NextIndex (sv_node sv) !! p) as [v|] eqn:Hv; simpl; [specialize (Hn _ _ Hv)|]; lia. }
    set (cur := gm_int _ p) in *. rewrite (i64_id (cur - 1)) by (unfold int64; lia).
    destruct (_ && _) eqn:Hb; [apply andb_true_iff in Hb as [?%Z.ltb_lt ?%Z.ltb_lt]|];
      match goal with |- context [if ?b <? 1 then _ else _] => destruct (Z.ltb_spec b 1) end; lia.
Qed.

Lemma sim_installed y s i sv p u k resp t n' :
  raft_inv (quorum := quorum_of config) s → related y s → server_at y i sv →
  (p, u, k, resp) ∈ sy_installs y → (rn_Role (sv_node sv) = Leader → u = rn_term (sv_node sv)) →
  snapshot_reply u p k (Some resp) (sv_node sv) = (t, n') →
  ∃ s', steps s s' ∧ related (put i (with_node n' sv) y) s'.
Proof.
  intros Hinv Hrel Hi Hin Hu Ha. destruct (decide (rn_Role (sv_node sv) = Leader)) as [Hld|];
    [|by eapply sim_idle, snapshot_reply_progress]. rewrite (Hu Hld) in *. revert Ha. unfold snapshot_reply. destruct (_ <? _); [intros [= _ <-]; by apply sim_same|].
  destruct (isr_Success resp) eqn:Hs; simpl; intros [= _ <-]; [|by apply sim_same].
  destruct (rel_install _ _ Hrel _ Hin Hs) as (k' & Hk & ->). exists s. split; [done|]. by apply sim_credit.
Qed.

(** A quorum has acknowledged everything up to the quorum frontier. *)
Lemma frontier_acked y s i sv :
  cluster_inv config (sy_cluster y) → related y s → server_at y i sv → rn_Role (sv_node sv) = Leader →
  let q := QuorumIndex (rn_config (sv_node sv))
             (<[rn_nodeID (sv_node sv) := LatestIndex (sv_log sv)]> (rn_MatchIndex (sv_node sv))) in
  0 < q → quorum_of config (λ j, ∃ k, (j, sp_term s i, k) ∈ sp_acks s ∧ q ≤ Z.of_nat k).
Proof.
  intros Hc Hrel Hi Hld q Hq. pose proof (related_up _ _ _ _ Hrel Hi) as Hup. pose proof (up_log _ _ _ Hup) as Hs.
  pose proof (so_id _ _ _ _ _ (up_server_ok _ _ _ Hc Hi)) as Hid.
  pose proof (so_config _ _ _ _ _ (up_server_ok _ _ _ Hc Hi)) as Hcf.
  destruct (up_progress _ _ _ Hup Hld) as (_ & Hm & Hself).
  exists (reached_by config (<[rn_nodeID (sv_node sv) := LatestIndex (sv_log sv)]> (rn_MatchIndex (sv_node sv))) q). split.
  { apply QuorumIndex_HasQuorum; [done|]. subst q. by rewrite Hcf. }
  intros j Hj. unfold reached_by in Hj. rewrite gm_bool_reached in Hj. apply andb_true_iff in Hj as [_ Hj%Z.leb_le].
  rewrite (up_term _ _ _ Hup). revert Hj. unfold gm_int. rewrite Hid.
  destruct (decide (j = i)) as [->|]; [rewrite lookup_insert_eq|rewrite lookup_insert_ne by done]; simpl.
  - unfold LatestIndex. rewrite (seg_last _ _ Hs). intros ?. by eexists.
  - destruct (rn_MatchIndex (sv_node sv) !! j) as [m|] eqn:Hmj; simpl; [|lia]. intros Hqm.
    destruct (Hm _ _ Hmj) as [|(k & ? & ?)]; [lia|]. exists k. split; [done|lia].
Qed.

Lemma sim_commit y s i sv r n' :
  cluster_inv config (sy_cluster y) →
  raft_inv (quorum := quorum_of config) s → related y s → server_at y i sv →
  AdvanceCommitIndex (LatestIndex (sv_log sv)) (TermAt (sv_log sv)) (rn_term (sv_node sv)) (sv_node sv) = (r, n') →
  ∃ s', steps s s' ∧ related (put i (with_node n' sv) y) s'.
Proof.
  intros Hc Hinv Hrel Hi. pose proof (related_up _ _ _ _ Hrel Hi) as Hup. pose proof (up_log _ _ _ Hup) as Hs.
  unfold AdvanceCommitIndex. case_bool_decide as Hr; [intros [= _ <-]; by apply sim_same|].
  pose proof (frontier_acked y s i sv Hc Hrel Hi Hr) as Hquo. cbv zeta in Hquo. set (q := QuorumIndex _ _) in *.
  destruct (_ && _) eqn:Hb; intros [= _ <-]; [|by apply sim_same].
  apply andb_true_iff in Hb as [Hlt%Z.ltb_lt Hterm%Z.eqb_eq].
  pose proof (up_commit _ _ _ Hup) as Hcm. pose proof (up_applied _ _ _ Hup) as Hap. pose proof (seg_lii _ _ Hs) as Hlii.
  specialize (Hquo ltac:(lia)).
  assert (q ≤ Z.of_nat (length (sp_log s i))) as Hqlen.
  { destruct (quorum_meet _ _ Hquo Hquo) as (j & (k & Hk & ?) & _). rewrite (up_term _ _ _ Hup) in Hk.
    pose proof (ack_in_log _ _ _ _ _ Hinv Hup Hr Hk). lia. }
  set (k := Z.to_nat (q - 1)). rewrite (seg_TermAt _ _ _ Hs) in Hterm by lia.
  destruct (lookup_lt_is_Some_2 (sp_log s i) k) as [e He]; [lia|].
  replace (Z.to_nat q) with (Datatypes.S k) in Hterm by lia. rewrite (prev_term_S _ _ _ He) in Hterm.
  eexists. split.
  { apply rtc_once, (sp_commit_at _ s i k e); [by rewrite (up_role _ _ _ Hup)|done|by rewrite (up_term _ _ _ Hup)|].
    revert Hquo. apply quorum_mono. intros v (m & ? & ?). exists m. split; [done|lia]. }
  eapply (related_server y s _ _ i); [done|done|apply put_only|by split|apply elsewhere_set| | | |by eauto]; simpl;
    rewrite ?fn_lookup_insert; [|done|done].
  destruct Hup as [? ? ? ? ? ? Hp]. split; simpl; rewrite ?fn_lookup_insert; try done; [lia|lia|].
  intros Hld. unfold progress_ok in *. simpl. rewrite fn_lookup_insert. by apply Hp.
Qed.

Lemma related_down y s i st :
  related y s → cl_status (sy_cluster y) i = Down st → down_ok s i st (sy_wal y i).
Proof. intros Hr Hi. pose proof (rel_status _ _ Hr i) as Hs. by rewrite Hi in Hs. Qed.

(** A stopped server is a follower that knows what its snapshot covers to be committed. *)
Lemma sim_crash y s i sv st :
  cluster_inv config (sy_cluster y) → related y s → server_at y i sv → ss_reboot (rn_store (sv_node sv)) st →
  ∃ s', steps s s' ∧
    related (with_wal (<[i := sv_log sv]> (sy_wal y)) (with_cluster (set_down i st (sy_cluster y)) y)) s'.
Proof.
  intros Hc Hrel Hi Hrb. pose proof (related_up _ _ _ _ Hrel Hi) as Hup. pose proof (up_log _ _ _ Hup) as Hl.
  destruct (so_durable _ _ _ _ _ (up_server_ok _ _ _ Hc Hi)) as [Hs Hd].
  exists (set_spec i (rn_term (sv_node sv)) Follower (sp_log s i) (base (sv_log sv)) s). split.
  { apply rtc_once, sp_step_down; [by rewrite (up_term _ _ _ Hup)|].
    pose proof (up_applied _ _ _ Hup). pose proof (up_commit _ _ _ Hup). pose proof (seg_lii _ _ Hl). lia. }
  eapply (related_move y s _ _ i); [done|by split|apply elsewhere_set|done| |done| |by left|by left|by left|by left|by left|by left| | |by eauto]; simpl.
  - intros j Hj. by rewrite fn_lookup_insert_ne.
  - split; simpl; rewrite ?fn_lookup_insert; try done; [|by apply (up_pos _ _ _ Hup)].
    intros p Hp. apply ps_le_term, Hd. by eapply reboot_may.
  - by rewrite fn_lookup_insert, (up_term _ _ _ Hup).
  - by rewrite fn_lookup_insert.
Qed.

Lemma sim_boot y s i st now n st' rl :
  cluster_inv config (sy_cluster y) → related y s → cl_status (sy_cluster y) i = Down st →
  NewRaftNode i config st Follower now = (Ok n, st') → log_wf rl → same_contents (sy_wal y i) rl →
  ∃ s', steps s s' ∧ related (put i (mkServer (SeedFromSnapshot (rl_lastIncludedIndex rl) n) rl ∅) y) s'.
Proof.
  intros Hc Hrel Hi Hn Hwf Hsame. pose proof (ci_status _ _ Hc i) as Hok. rewrite Hi in Hok. destruct Hok as [Hs Hset].
  apply NewRaftNode_inv in Hn as (_ & _ & _ & Hr & _ & Hc0 & Ha0 & _ & _ & p & Hp & Hps); [|done..].
  destruct (related_down _ _ _ _ Hrel Hi) as [Ht Hpos Hrole Hlog Hcm]. specialize (Ht p Hp).
  assert (rn_term n = CurrentTerm (loaded p)) as Hterm by (unfold rn_term; by rewrite Hps).
  pose proof (seg_same _ _ _ Hlog Hwf Hsame) as Hseg. pose proof (seg_lii _ _ Hseg) as Hlii.
  assert (base rl = base (sy_wal y i)) as Hbase by (unfold base; by destruct Hsame as (_ & -> & _)).
  exists (set_spec i (rn_term n) Follower (sp_log s i) (sp_commit s i) s). split.
  { apply rtc_once, sp_step_down; [by rewrite Hterm|done]. }
  eapply (related_move y s _ _ i (Up (mkServer (SeedFromSnapshot (rl_lastIncludedIndex rl) n) rl ∅)));
    [done|by split|apply elsewhere_set|done|done|done| |by left|by left|by left|by left|by left|by left| | |by eauto]; simpl.
  - split; simpl; rewrite ?fn_lookup_insert, ?Hc0, ?Ha0; try done; [change (0 ≤ rn_term n); lia| | |congruence].
    + rewrite Hcm, <-Hbase, Hlii. destruct (Z.ltb_spec 0 (Z.of_nat (base rl))); lia.
    + rewrite Hlii. destruct (Z.ltb_spec 0 (Z.of_nat (base rl))); lia.
  - rewrite fn_lookup_insert. by rewrite Hterm.
  - by rewrite fn_lookup_insert.
Qed.

Lemma sim_boot_failed y s i st now e s1 s2 :
  cluster_inv config (sy_cluster y) → related y s → cl_status (sy_cluster y) i = Down st →
  NewRaftNode i config st Follower now = (Err e, s1) → ss_reboot s1 s2 →
  related (with_cluster (set_down i s2 (sy_cluster y)) y) s.
Proof.
  intros Hc Hrel Hi Hn Hrb. pose proof (ci_status _ _ Hc i) as Hok. rewrite Hi in Hok. destruct Hok as [Hs Hset].
  apply NewRaftNode_err in Hn as [Hs1 Hm]; [|done..].
  destruct (related_down _ _ _ _ Hrel Hi) as [Ht Hpos Hrole Hlog Hcm].
  eapply (related_move y s _ _ i (Down s2)); [done|apply retains_refl|by intros ? ?|done|done|done| |by left|by left|by left|by left|by left|by left|done|by auto|by eauto].
  split; try done. intros p Hp. apply (reboot_may _ _ _ Hs1 Hrb), Hm in Hp as (q & Hq & ->). by apply Ht.
Qed.

(** ** Snapshots *)

Lemma committed_length s :
  raft_inv (quorum := quorum_of config) s → ∀ i, (sp_commit s i ≤ length (sp_log s i))%nat.
Proof.
  intros Hinv i. destruct (raft_server _ Hinv i) as (_ & _ & _ & _ & [|(u & m & o & L & _ & _ & _ & _ & _ & Hle & _)]); lia.
Qed.

(** Compaction moves the boundary of the log, not its history. *)
Lemma sim_compact y s i sv k r rl' :
  raft_inv (quorum := quorum_of config) s → related y s → server_at y i sv → k ≤ rn_LastApplied (sv_node sv) →
  TruncateBeforeIndex k (TermAt (sv_log sv) k) (sv_log sv) = (r, rl') →
  ∃ s', steps s s' ∧ related (put i (mkServer (sv_node sv) rl' (sv_won sv)) y) s'.
Proof.
  intros Hinv Hrel Hi Hk Ht. pose proof (related_up _ _ _ _ Hrel Hi) as Hup. pose proof (up_log _ _ _ Hup) as Hs.
  pose proof (up_applied _ _ _ Hup) as Hap.
  destruct (decide (k < rl_firstIndex (sv_log sv))) as [Hlt|Hge].
  { revert Ht. unfold TruncateBeforeIndex, m_bind, m_get. simpl. rewrite (proj2 (Z.ltb_lt _ _)) by done.
    intros [= _ <-]. by eapply sim_gentle; [done|done|apply put_only|apply gentle_refl|]. }
  pose proof (up_commit _ _ _ Hup). pose proof (committed_length _ Hinv i).
  apply TruncateBeforeIndex_spec in Ht as (Hwf & Hlii & Hterm & Hlast & Habove & _);
    [|apply (seg_wf _ _ Hs)|rewrite (seg_last _ _ Hs); lia].
  pose proof (seg_first _ _ Hs) as Hf. assert (base rl' = Z.to_nat k) as Hb by (unfold base; by rewrite Hlii).
  exists s. split; [done|].
  eapply (related_server y s _ _ i); [done|done|apply put_only|apply retains_refl|by intros ? ?| |done|by auto|by eauto].
  destruct Hup as [? ? ? ? ? ? Hprog]. split; try done; simpl; [|rewrite Hlii; lia].
  apply seg_intro; [done|lia|by rewrite Hlast, (seg_last _ _ Hs)| |].
  - intros j Hj. rewrite Habove by lia. apply seg_entry_at; [done|lia].
  - rewrite Hb, <-(seg_TermAt (sv_log sv)) by (done || lia). rewrite <-Hterm. unfold TermAt. by rewrite Hlii, Z.eqb_refl.
Qed.

Lemma sim_ship y s i sv k data :
  raft_inv (quorum := quorum_of config) s → related y s → server_at y i sv → rn_Role (sv_node sv) = Leader →
  rl_lastIncludedIndex (sv_log sv) ≤ k ≤ rn_LastApplied (sv_node sv) →
  ∃ s', steps s s' ∧
    related (shipped (mkInstallSnapshotRequest (rn_term (sv_node sv)) i k (TermAt (sv_log sv) k) data) y) s'.
Proof.
  intros Hinv Hrel Hi Hr Hk. pose proof (related_up _ _ _ _ Hrel Hi) as Hup. pose proof (up_log _ _ _ Hup) as Hs.
  pose proof (seg_lii _ _ Hs) as Hlii. pose proof (up_applied _ _ _ Hup) as Hap. pose proof (up_commit _ _ _ Hup) as Hcm.
  pose proof (seg_bound _ _ Hs) as Hbd. pose proof (seg_base _ _ Hs) as Hb.
  pose proof (committed_length _ Hinv i).
  eexists. split; [apply rtc_once, (sp_send _ s i 0 (Z.to_nat k)); [by rewrite (up_role _ _ _ Hup)|lia]|].
  eapply related_net; [done|split; simpl; set_solver|done|done|done|done|done|done|by left|by left|]; simpl.
  intros req [->|]%elem_of_cons; [right|by left]. eexists. split; [left|]. simpl. rewrite drop_0.
  rewrite (up_term _ _ _ Hup), length_take, (seg_TermAt _ _ _ Hs) by lia. split_and!; try done; lia.
Qed.

Lemma merge_self (l : list LogEntry) k : merge l (take k l) = l.
Proof. revert k. induction l as [|e l IH]; intros [|k]; simpl; try done. by rewrite Z.eqb_refl, IH. Qed.

(** A snapshot and the log it meets: either the log has the snapshot's last entry
    and keeps what follows it, or the snapshot is all there is. *)
Lemma merge_snapshot s l L k :
  owned s l → owned s L → (0 < k ≤ length L)%nat →
  let l' := merge_at l 0 (take k L) in
  (∃ e e', l !! (k - 1)%nat = Some e ∧ L !! (k - 1)%nat = Some e' ∧ le_Term e = le_Term e' ∧ l' = l ∧ common k l L) ∨
  ((∀ e e', l !! (k - 1)%nat = Some e → L !! (k - 1)%nat = Some e' → le_Term e ≠ le_Term e') ∧ l' = take k L).
Proof.
  intros Hl HL Hk l'. pose proof (owned_matching _ _ _ Hl HL) as Hm.
  destruct (merge_at_log l L 0 (take k L) l' Hm) as (Hcases & Hcom & _); [split; [done|lia]|apply prefix_take|done|].
  rewrite length_take_le in Hcases, Hcom by lia. simpl in Hcases, Hcom.
  destruct (lookup_lt_is_Some_2 L (k - 1)%nat ltac:(lia)) as [e' He'].
  destruct (l !! (k - 1)%nat) as [e|] eqn:He; [destruct (decide (le_Term e = le_Term e')) as [Heq|Hne]|].
  - left. exists e, e'. assert (common k l L) as Hkl by (replace k with (S (k - 1)) by lia; by eapply Hm).
    split_and!; try done. destruct Hcases as [|Hcut]; [done|].
    unfold l', merge_at. simpl. rewrite drop_0. destruct Hkl as (<- & _). apply merge_self.
  - right. split; [intros e1 e2 [= <-]; rewrite He'; by intros [= <-]|]. destruct Hcases as [Heq|]; [|done].
    exfalso. apply Hne. rewrite Heq in Hcom. rewrite (common_lookup k (k - 1) l L Hcom) in He by lia. congruence.
  - right. split; [done|]. destruct Hcases as [Heq|]; [|done]. exfalso. rewrite Heq in Hcom.
    rewrite (common_lookup k (k - 1) l L Hcom) in He by lia. congruence.
Qed.

(** What an install does to the log. *)
Lemma install_segment s i sv L k T os r rl' :
  up_ok s i sv → owned s (sp_log s i) → owned s L → (0 < k ≤ length L)%nat → T = last_term (take k L) →
  (base (sv_log sv) < k)%nat → Z.of_nat k < MaxInt64 →
  ResetToSnapshot (Z.of_nat k) T (set_disk os (sv_log sv)) = (r, rl') → log_wf rl' →
  segment rl' (merge_at (sp_log s i) 0 (take k L)) ∧ rl_lastIncludedIndex rl' = Z.of_nat k.
Proof.
  intros Hup Ho HoL Hk HT Hb Hmax Hreset Hwf. pose proof (up_log _ _ _ Hup) as Hs. pose proof (seg_lii _ _ Hs) as Hlii.
  set (rl0 := set_disk os (sv_log sv)) in *.
  assert (segment rl0 (sp_log s i)) as Hs0 by by eapply seg_logical.
  destruct (ResetToSnapshot_spec rl0 rl' (Z.of_nat k) T r (seg_wf _ _ Hs0)) as (_ & Hlii' & Hterm & Hkeep & Hdrop);
    [change (rl_lastIncludedIndex rl0) with (rl_lastIncludedIndex (sv_log sv)); lia|done|].
  split; [|done]. assert (base rl' = k) as Hbase by (unfold base; rewrite Hlii'; lia).
  assert (rl_lastIncludedTerm rl' = T) as Hlit by (rewrite <-Hterm; unfold TermAt; by rewrite Hlii', Z.eqb_refl).
  assert (∀ e', L !! (k - 1)%nat = Some e' → T = le_Term e') as HTe.
  { intros e' He'. rewrite HT, <-(prev_term_S _ _ _ He'). unfold prev_term. do 2 f_equal. lia. }
  assert (∀ e, entry_at rl0 (Z.of_nat k) = Some e ↔ sp_log s i !! (k - 1)%nat = Some e) as Hat.
  { intros e. rewrite (seg_entry_at rl0 (sp_log s i)) by (done || (change (base rl0) with (base (sv_log sv)); lia)).
    by replace (Z.to_nat (Z.of_nat k - 1)) with (k - 1)%nat by lia. }
  destruct (merge_snapshot s _ _ k Ho HoL Hk) as [(e & e' & He & He' & Heq & -> & Hcom)|[Hne ->]].
  - destruct Hkeep as (_ & Habove & Hlast).
    { exists e. split; [by apply Hat|]. by rewrite Heq, (HTe e' He'). }
    apply seg_intro; [done|rewrite Hbase; by destruct Hcom as (_ & ? & _)|by rewrite Hlast, (seg_last _ _ Hs0)| |].
    + rewrite Hbase. intros j Hj. rewrite Habove by lia. apply seg_entry_at; [done|].
      change (base rl0) with (base (sv_log sv)). lia.
    + rewrite Hbase, Hlit, (HTe e' He'), <-Heq, <-(prev_term_S _ _ _ He). f_equal. lia.
  - destruct Hdrop as (Hnil & _).
    { intros (e & He%Hat & Het). destruct (lookup_lt_is_Some_2 L (k - 1)%nat ltac:(lia)) as [e' He'].
      apply (Hne e e' He He'). by rewrite Het, (HTe e' He'). }
    split; [done|rewrite Hbase, length_take; lia| |]; rewrite Hbase.
    + rewrite Hnil, drop_ge; [done|]. rewrite length_take. lia.
    + unfold prev_term. rewrite take_take, Nat.min_id. by rewrite Hlit.
Qed.

Lemma sim_install {X} y s i sv req restore persist now (x : X) resp n' rl' x' :
  raft_inv (quorum := quorum_of config) s → related y s → server_at y i sv → req ∈ sy_snaps y →
  HandleInstallSnapshot (sv_log sv) req restore persist now (sv_node sv) x = (resp, n', rl', x') → log_wf rl' →
  ∃ s', steps s s' ∧ related (put i (mkServer n' rl' (sv_won sv)) (installed (i, is_Term req, is_LastIncludedIndex req, resp) y)) s'.
Proof.
  intros Hinv Hrel Hi Hin Hh Hwf. pose proof (related_up _ _ _ _ Hrel Hi) as Hup. pose proof (up_log _ _ _ Hup) as Hs.
  assert (isr_Success resp = false → gentle (sv_node sv) n' → logical rl' = logical (sv_log sv) →
    ∃ s', steps s s' ∧ related (put i (mkServer n' rl' (sv_won sv)) (installed (i, is_Term req, is_LastIncludedIndex req, resp) y)) s') as Hrefused.
  { intros Hf Hg Hl. eapply (sim_gentle y s _ i sv (mkServer n' rl' (sv_won sv))); [done|done| |done|done].
    split; try done; [by left|]. intros r [->|?]%elem_of_cons; [by right|by left]. }
  destruct (rel_snap _ _ Hrel _ Hin) as (m & Hm & Hmt & Hmp & Hmp0 & Hml & Hmlt & Hmc & Hmax).
  apply HandleInstallSnapshot_cases in Hh as [(_ & Hf & -> & -> & _)|(Hterm & r1 & n1 & Hacc & Hh)];
    [apply Hrefused; [done|apply gentle_refl|done]|].
  pose proof (accept_leader_gentle _ _ _ _ _ Hacc) as Hg. apply accept_leader_inv in Hacc as [_ Hacc]; [|done].
  destruct r1 as [[]|]; [|by destruct Hh as (Hf & -> & -> & _); apply Hrefused].
  destruct Hacc as (Hrole & _ & Ht1 & _).
  assert (gentle (sv_node sv) (set_contact now n1)) as Hg' by (destruct Hg; by split).
  destruct (raft_msg _ Hinv _ Hm) as (o & L & HL & _ & _ & Hpre & _). rewrite Hmp, drop_0 in Hpre.
  set (k := length (ap_entries m)) in *.
  assert (ap_entries m = take k L) as Hes by (destruct Hpre as [w Hw]; unfold k; by rewrite Hw, take_app_length).
  assert (k ≤ length L)%nat as HkL by (unfold k; by apply prefix_length).
  destruct (raft_server _ Hinv i) as (Ho & _ & _ & _ & Hcov). destruct (raft_leader _ Hinv _ _ _ HL) as (_ & HoL & _).
  assert (∀ n2 rl2, rn_term n2 = is_Term req → rn_Role n2 = Follower →
    rn_CommitIndex n2 = Z.max (rn_CommitIndex (sv_node sv)) (Z.of_nat k) →
    rl_lastIncludedIndex rl2 ≤ rn_LastApplied n2 ≤ rn_CommitIndex n2 →
    segment rl2 (merge_at (sp_log s i) 0 (take k L)) →
    ∃ s', steps s s' ∧ related (put i (mkServer n2 rl2 (sv_won sv)) (installed (i, is_Term req, is_LastIncludedIndex req, resp) y)) s') as Haccept.
  { intros n2 rl2 Ht2 Hr2 Hc2 Ha2 Hs2.
    eapply (sim_accept y s _ i sv (mkServer n2 rl2 (sv_won sv)) m); rewrite ?Hmt, ?Hmp, ?Hmp0; try done; simpl; fold k; [lia|lia|by rewrite Hes|by left|].
    intros r [->|]%elem_of_cons; [right|by left]. intros _. exists k. split; [|done]. simpl. rewrite Hmt, Hmp. left. }
  pose proof (up_commit _ _ _ Hup) as Hcm. pose proof (up_applied _ _ _ Hup) as Hap. pose proof (seg_first _ _ Hs) as Hf.
  pose proof (seg_lii _ _ Hs) as Hlii. pose proof (seg_bound _ _ Hs). pose proof (seg_base _ _ Hs).
  assert (FirstIndex (sv_log sv) -! 1 = Z.of_nat (base (sv_log sv))) as Hfl by (unfold FirstIndex; wrapless; lia).
  rewrite Hfl in Hh. destruct Hh as [(Hle & _ & -> & -> & _)|(Hgt & [(Hf' & -> & Hl)|(x1 & os1 & os2 & r2 & _ & _ & -> & Hreset & _)])].
  - (* nothing new *)
    apply Haccept; simpl; [done|done| | |].
    + rewrite (gentle_commit _ _ Hg). lia.
    + by rewrite (gentle_commit _ _ Hg), (gentle_applied _ _ Hg).
    + assert (common k (sp_log s i) L) as (<- & _ & _); [|unfold merge_at; simpl; by rewrite drop_0, merge_self].
      eapply common_le; [|eapply (covered_in_leader s (sp_term s i)); [done| |exact HL|exact Hcov]]; [lia|].
      rewrite (up_term _ _ _ Hup), Hmt. done.
  - by apply Hrefused.
  - rewrite <-Hml in Hreset.
    destruct (install_segment s i sv L k (is_LastIncludedTerm req) os2 r2 rl' Hup Ho HoL) as [Hseg Hlii'];
      [lia|by rewrite <-Hmlt, Hes|lia|lia|done|done|].
    apply Haccept; simpl; [done|done| | |done]; rewrite ?Hlii', <-Hml, (gentle_commit _ _ Hg), ?(gentle_applied _ _ Hg).
    + destruct (Z.ltb_spec (rn_CommitIndex (sv_node sv)) (Z.of_nat k)); lia.
    + destruct (Z.ltb_spec (rn_CommitIndex (sv_node sv)) (Z.of_nat k)), (Z.ltb_spec (rn_LastApplied (sv_node sv)) (Z.of_nat k)); lia.
Qed.

(** Applying an entry moves the applied index, within what is committed. *)
Lemma sim_apply y s i sv :
  raft_inv (quorum := quorum_of config) s → related y s → server_at y i sv →
  rn_LastApplied (sv_node sv) < rn_CommitIndex (sv_node sv) →
  ∃ s', steps s s' ∧ related (put i (with_node (AdvanceLastApplied (sv_node sv)).2 sv) y) s'.
Proof.
  intros Hinv Hrel Hi Hlt. pose proof (related_up _ _ _ _ Hrel Hi) as Hup. exists s. split; [done|].
  eapply (related_server y s _ _ i); [done|done|apply put_only|apply retains_refl|by intros ? ?| |done|by auto|by eauto].
  pose proof (up_log _ _ _ Hup) as Hs. pose proof (seg_lii _ _ Hs). pose proof (seg_bound _ _ Hs).
  pose proof (committed_length _ Hinv i). destruct Hup as [? ? ? ? Hc Ha Hp]. split; try done. simpl.
  rewrite i64_id by (unfold int64; lia). lia.
Qed.

(** A refused batch leaves the node where accepting its sender left it. *)
Lemma HandleAppendEntries_gentle rl req now n resp n' rl' :
  HandleAppendEntries rl req now n = (resp, n', rl') → aer_Success resp = false → gentle n n'.
Proof.
  intros Hh Hs. apply HandleAppendEntries_cases in Hh as [(_ & _ & -> & _)|(_ & r1 & n1 & Hacc & Hh)]; [apply gentle_refl|].
  apply accept_leader_gentle in Hacc as [Hr Hc Hn Hm].
  destruct r1 as [[]|]; [|destruct Hh as (_ & -> & _); by split].
  destruct Hh as (m & ct & ci & ok & _ & Hh). destruct ok; destruct Hh as [-> ->]; [done|by split].
Qed.

Lemma put_only_same i sv' y : only_server i sv' y (put i sv' (with_cluster (sy_cluster y) y)).
Proof. split; try done; by left. Qed.

(** ** The simulation *)

Lemma sim_step y s y' :
  cluster_inv config (sy_cluster y) → raft_inv (quorum := quorum_of config) s →
  related y s → sys_step config y y' → ∃ s', steps s s' ∧ related y' s'.
Proof.
  intros Hc Hinv Hrel [].
  - by eapply sim_campaign.
  - match goal with Hb : BecomeCandidate _ _ = _ |- _ => apply BecomeCandidate_inv in Hb as (_ & Hv & Hp); [|done..] end.
    eapply sim_gentle; [done|done|apply put_only|by apply gentle_volatile|done].
  - by apply sim_ask.
  - destruct (rvr_VoteGranted resp) eqn:Hg; [by eapply sim_granted|].
    eapply sim_gentle; [done|done|apply put_only_same|by eapply HandleRequestVote_gentle|done].
  - eapply sim_gentle; [done|done|apply put_only|by eapply RecordVote_gentle|done].
  - destruct promoted; [by eapply sim_promote|].
    assert (n' = sv_node sv) as ->.
    { match goal with Hb : BecomeLeader _ _ _ = _ |- _ => revert Hb end. unfold BecomeLeader. by destruct (_ || _); intros [=]. }
    eapply sim_gentle; [done|done|apply put_only_same|apply gentle_refl|done].
  - eapply sim_gentle; [done|done|apply put_only|by eapply becomeFollower_gentle|done].
  - by eapply sim_propose.
  - by eapply sim_send.
  - destruct (aer_Success resp) eqn:Hs; [by eapply sim_append|].
    match goal with Hl : false = true ∨ _ |- _ => destruct Hl as [|Hl]; [done|] end.
    eapply (sim_gentle y s _ i sv (mkServer n' rl' (sv_won sv))); [done|done| |by eapply HandleAppendEntries_gentle|done].
    split; try done; [|by left]. intros r [->|?]%elem_of_cons; [by right|by left].
  - by eapply sim_reply.
  - by eapply sim_commit.
  - by eapply sim_compact.
  - by eapply sim_ship.
  - by eapply sim_install.
  - by eapply sim_installed.
  - by eapply sim_apply.
  - eapply sim_gentle; [done|done|apply put_only|by split; auto|done].
  - eapply (sim_gentle y s _ i sv (mkServer (sv_node sv) (set_disk os (sv_log sv)) (sv_won sv)));
      [done|done|apply put_only|apply gentle_refl|done].
  - eapply sim_gentle; [done|done|apply put_only| |done]. unfold SetMinElectionTimeout. destruct (_ <=? _); by split; auto.
  - by eapply sim_crash.
  - by eapply sim_boot.
  - exists s. split; [done|]. by eapply sim_boot_failed.
Qed.

Definition spec0 : spec :=
  mkSpec (λ _, 0) (λ _, Follower) (λ _, []) (λ _, 0%nat) [] [] [] [] (λ _, None).

Lemma related_initial y : sys_initial y → related y spec0 ∧ spec_initial spec0.
Proof.
  intros ((Hst & Hb & He) & Hpos & Hw & Ha & Hm & Hr & Hs & Hin). split; [|by split_and!].
  split; rewrite ?Ha, ?Hm, ?Hr, ?Hb, ?Hs, ?Hin; try (intros; set_solver).
  - intros i. destruct (Hst i) as (st & Hi & _ & _). rewrite Hi. destruct (Hw i) as [? Hbase].
    split; try done. intros p. by eapply Hpos.
  - by intros t o L.
Qed.

(** What holds of a state reached from [y0]. *)
Record simulated (y0 y : System) (s : spec) : Prop := {
  si_cluster : reachable config (sy_cluster y0) (sy_cluster y);
  si_inv : raft_inv (quorum := quorum_of config) s;
  si_related : related y s;
}.

(** A run continues the abstract run it is related to. *)
Lemma sim_run y0 y s y' :
  sys_initial y0 → simulated y0 y s → rtc (sys_step config) y y' →
  ∃ s', steps s s' ∧ simulated y0 y' s'.
Proof.
  intros Hinit Hsim Hr. revert s Hsim.
  induction Hr as [y|y1 y2 y3 Hs _ IH]; intros s [Hc Hinv Hrel]; [by exists s|].
  assert (cluster_inv config (sy_cluster y1)) as Hci by (by eapply inv_reachable; [| |exact Hc]; [|apply Hinit]).
  destruct (sim_step _ _ _ Hci Hinv Hrel Hs) as (s2 & Hs2 & Hrel2).
  destruct (IH s2) as (s3 & Hs3 & ?).
  - split; [|by apply (advances_rtc s s2 Hinv Hs2)|done]. eapply reachable_trans; [done|by apply sys_step_cluster].
  - exists s3. split; [by etrans|done].
Qed.

Lemma sim_initial y0 : sys_initial y0 → simulated y0 y0 spec0.
Proof.
  intros Hi. destruct (related_initial _ Hi) as [Hr Hs]. split; [apply reach_here|by apply raft_initial|done].
Qed.

Lemma sim_from y0 y : sys_initial y0 → rtc (sys_step config) y0 y → ∃ s, simulated y0 y s.
Proof.
  intros Hinit Hr. destruct (sim_run y0 y0 spec0 y Hinit (sim_initial _ Hinit) Hr) as (s & _ & Hsim). by exists s.
Qed.

(** ** Back to the servers *)

(** An entry above the boundary, in the terms of the abstract log. *)
Lemma up_entry s i sv k :
  up_ok s i sv → rl_lastIncludedIndex (sv_log sv) < k ≤ Z.of_nat (length (sp_log s i)) →
  GetEntry (sv_log sv) k = sp_log s i !! Z.to_nat (k - 1).
Proof. intros Hup Hk. apply seg_lookup; [apply Hup|]. by rewrite <-(seg_lii _ _ (up_log _ _ _ Hup)). Qed.

Lemma entry_in_log s i sv k e :
  up_ok s i sv → int64 k → GetEntry (sv_log sv) k = Some e →
  rl_lastIncludedIndex (sv_log sv) < k ≤ Z.of_nat (length (sp_log s i)) ∧ sp_log s i !! Z.to_nat (k - 1) = Some e.
Proof. intros Hup Hint He. rewrite (seg_lii _ _ (up_log _ _ _ Hup)). by apply (seg_lookup_inv (sv_log sv)); [apply Hup| |]. Qed.

Lemma up_base s i sv : up_ok s i sv → 0 ≤ rl_lastIncludedIndex (sv_log sv).
Proof. intros Hup. rewrite (seg_lii _ _ (up_log _ _ _ Hup)). lia. Qed.

(** An index a server takes to be committed is in its history. *)
Lemma up_committed s i sv k :
  raft_inv (quorum := quorum_of config) s → up_ok s i sv → 0 < k ≤ rn_CommitIndex (sv_node sv) →
  (Z.to_nat (k - 1) < sp_commit s i)%nat ∧ k ≤ Z.of_nat (length (sp_log s i)).
Proof.
  intros Hinv Hup Hk. rewrite <-(up_commit _ _ _ Hup) in Hk. pose proof (committed_length _ Hinv i). lia.
Qed.

End Simulation.

(** ** Properties *)

Section Properties.
Context {Store : Type} `{StateStoreLaws Store} `{Codec LogEntry}.
Context (config : Configuration).
Implicit Types (sv : Server (S := Store)) (y : System (Store := Store)).

(** clusters of these servers are Raft.  Every run of the system, whatever the
    network, the clocks and the disks do, and whatever the servers compact and ship
    as snapshots, is a run of the abstract machine: there is a reachable state of it
    in which every running server has the term, role and commit index of the real
    one and a log that the real one is the end of, and every continuation of the run
    is a continuation there. *)
Theorem system_refines_raft y0 y y' :
  Validate config = None → sys_initial y0 → rtc (sys_step config) y0 y → rtc (sys_step config) y y' →
  ∃ s s', spec_reachable (quorum_of config) spec0 s ∧ related y s ∧
    rtc (spec_step (quorum_of config)) s s' ∧ related y' s'.
Proof.
  intros Hval Hinit Hr Hr'. assert (gm (Voters config) ≠ ∅) as Hne by by apply Validate_voters.
  destruct (sim_run config Hne y0 y0 spec0 y Hinit (sim_initial config Hne _ Hinit) Hr) as (s & Hs & Hsim).
  destruct (sim_run config Hne y0 y s y' Hinit Hsim Hr') as (s' & Hs' & Hsim').
  destruct (related_initial config Hne _ Hinit) as [_ Hi0]. exists s, s'.
  split_and!; [by split|apply (si_related _ _ _ _ Hsim)|done|apply (si_related _ _ _ _ Hsim')].
Qed.

End Properties.
