(* ===== verification/Fleet.v ===== *)
(** * Clusters of whole programs

    The control loop of EngineRun.v at every server: what a loop does to its node and
    its log is a run of the servers of RaftSystem.v, so that clusters of loops, with
    the messages they exchange, are Raft too. *)

From stdpp Require Import functions.
From S2P Require Import Cluster RaftSystem.
From S2P Require Import Prelude Configuration Os Json Types Encoding RaftLog RaftLogFacts RaftNode RaftNodeFacts StateMachine Snapshot Replicator Engine EngineLoop EngineFacts EngineRun EngineMoves.

Section Drive.
Context {Store : Type} `{StateStoreLaws Store} `{Codec LogEntry} `{Codec Command}.
Context (config : Configuration).
Implicit Types (e : Engine Store) (l : Loop Store) (n : RaftNode Store) (rl : RaftLog) (y : System (Store := Store)).

(** ** What a server's steps leave of the rest *)

Record beyond (i : Z) y y' : Prop := {
  by_status : ∀ j, j ≠ i → cl_status (sy_cluster y') j = cl_status (sy_cluster y) j;
  by_wal : ∀ j, j ≠ i → sy_wal y' j = sy_wal y j;
  by_ballots : cl_ballots (sy_cluster y) ⊆ cl_ballots (sy_cluster y');
  by_asks : sy_asks y ⊆ sy_asks y';
  by_appends : sy_appends y ⊆ sy_appends y';
  by_replies : sy_replies y ⊆ sy_replies y';
  by_snaps : sy_snaps y ⊆ sy_snaps y';
  by_installs : sy_installs y ⊆ sy_installs y';
}.

#[export] Instance beyond_preorder i : PreOrder (beyond i).
Proof.
  split; [by intros y; split|]. intros y1 y2 y3 [Hs Hw ? ? ? ? ? ?] [Hs' Hw' ? ? ? ? ? ?].
  split; try (by etrans); intros j Hj; [by rewrite Hs', Hs|by rewrite Hw', Hw].
Qed.

Lemma beyond_put i sv y : beyond i y (put i sv y).
Proof. split; try done. intros j Hj. simpl. by rewrite fn_lookup_insert_ne. Qed.

Lemma beyond_put_with i sv c y :
  cl_status c = cl_status (sy_cluster y) → cl_ballots (sy_cluster y) ⊆ cl_ballots c → beyond i y (put i sv (with_cluster c y)).
Proof. intros Hc Hb. split; try done. intros j Hj. simpl. by rewrite Hc, fn_lookup_insert_ne. Qed.

(** Server [i] runs the node and the log of [e], and counts the terms [won]. *)
Definition runs (i : Z) e (won : gset Z) y : Prop := server_at y i (mkServer (e_node e) (e_raftLog e) won).

Definition at_engine (i : Z) e y : Prop := ∃ won, runs i e won y.

(** The system gets from [y] to where [i] runs [e'], moving nothing else. *)
Definition gets (i : Z) y e' (Q : gset Z → System → Prop) : Prop :=
  ∃ y' won, rtc (sys_step config) y y' ∧ beyond i y y' ∧ runs i e' won y' ∧ Q won y'.

Definition drives (i : Z) e e' : Prop := ∀ y won, runs i e won y → gets i y e' (λ won' _, won ⊆ won').

#[export] Instance drives_preorder i : PreOrder (drives i).
Proof.
  split; [intros e y won Hr; by exists y, won|].
  intros e1 e2 e3 H12 H23 y won Hr. destruct (H12 y won Hr) as (y2 & w2 & Hs2 & Hb2 & Hr2 & Hw2).
  destruct (H23 y2 w2 Hr2) as (y3 & w3 & Hs3 & Hb3 & Hr3 & Hw3).
  exists y3, w3. split_and!; [by etrans|by etrans|done|by etrans].
Qed.

(** What the node and the log do not see. *)
Lemma drives_same i e e' : e_node e' = e_node e → e_raftLog e' = e_raftLog e → drives i e e'.
Proof. intros Hn Hl y won Hr. exists y, won. split_and!; try done. unfold runs. by rewrite Hn, Hl. Qed.

(** One step of the server, to [put]. *)
Lemma drives_put i e e' :
  (∀ y won, runs i e won y → sys_step config y (put i (mkServer (e_node e') (e_raftLog e') won) y)) → drives i e e'.
Proof.
  intros Hs y won Hr. exists (put i (mkServer (e_node e') (e_raftLog e') won) y), won.
  split_and!; [by apply rtc_once, Hs|apply beyond_put| |done]. unfold runs, server_at. simpl. apply fn_lookup_insert.
Qed.

Lemma follow_drives i t leader r n e : BecomeFollower t leader (e_node e) = (r, n) → drives i e (with_node n e).
Proof. intros Hb. apply drives_put. intros y won Hr. by apply (sys_follow config y i (mkServer (e_node e) (e_raftLog e) won) t leader r n). Qed.

Lemma disk_drives i os e : drives i e (with_log (set_disk os (e_raftLog e)) e).
Proof. apply drives_put. intros y won Hr. by apply (sys_disk config y i (mkServer (e_node e) (e_raftLog e) won) os). Qed.

Lemma append_drives i e cmd r rl :
  rn_Role (e_node e) = Leader → rl_nextIndex (e_raftLog e) < MaxInt64 →
  AppendLeader cmd (rn_term (e_node e)) (e_raftLog e) = (r, rl) → drives i e (with_log rl e).
Proof.
  intros Hl Hroom Ha. apply drives_put. intros y won Hr.
  by apply (sys_propose config y i (mkServer (e_node e) (e_raftLog e) won) cmd r rl).
Qed.

Lemma truncate_drives i e k r rl :
  k ≤ rn_LastApplied (e_node e) → TruncateBeforeIndex k (TermAt (e_raftLog e) k) (e_raftLog e) = (r, rl) →
  drives i e (with_log rl e).
Proof.
  intros Hk Ht. apply drives_put. intros y won Hr.
  by apply (sys_compact config y i (mkServer (e_node e) (e_raftLog e) won) k r rl).
Qed.

Lemma commit_drives i e r n :
  AdvanceCommitIndex (LatestIndex (e_raftLog e)) (TermAt (e_raftLog e)) (rn_term (e_node e)) (e_node e) = (r, n) →
  drives i e (with_node n e).
Proof.
  intros Ha. apply drives_put. intros y won Hr.
  by apply (sys_commit config y i (mkServer (e_node e) (e_raftLog e) won) r n).
Qed.

Lemma advance_drives i e :
  rn_LastApplied (e_node e) < rn_CommitIndex (e_node e) → drives i e (apply_advance e).2.
Proof.
  intros Hlt. apply drives_put. intros y won Hr.
  exact (sys_apply config y i (mkServer (e_node e) (e_raftLog e) won) Hr Hlt).
Qed.

(** ** The handlers *)

Lemma stopReplicators_drives i e : drives i e (stopReplicators e).
Proof. unfold stopReplicators. case_decide; by apply drives_same. Qed.

Lemma startReplicators_core e :
  e_node (startReplicators e) = e_node e ∧ e_raftLog (startReplicators e) = e_raftLog e.
Proof. unfold startReplicators, stopReplicators. case_match; [done|]. by case_decide. Qed.

Lemma fireCommittedWaiters_drives i c t e : drives i e (fireCommittedWaiters c t e).
Proof. unfold fireCommittedWaiters. case_match. by apply drives_same. Qed.

Lemma fireReadWaiters_drives i e : drives i e (fireReadWaiters e).
Proof. unfold fireReadWaiters. case_match. by apply drives_same. Qed.

Lemma fireApplyWaiters_drives i e : drives i e (fireApplyWaiters e).
Proof. unfold fireApplyWaiters, CommitAndApplyBoundary. case_match. by apply drives_same. Qed.

Lemma sweepExpired_drives i now e :
  drives i e (sweepExpiredApplyWaiters now (sweepExpiredReads now (sweepExpiredWaiters now e))).
Proof.
  unfold sweepExpiredWaiters, sweepExpiredReads, sweepExpiredApplyWaiters.
  rewrite !reply_to_spec. by apply drives_same.
Qed.

Lemma abandon_drives i e : drives i e (abandon e).
Proof. unfold abandon. etrans; [apply stopReplicators_drives|by apply drives_same]. Qed.

Lemma handleStepDown_drives i t e : drives i e (handleStepDown t e).
Proof.
  unfold handleStepDown. case_match; [done|]. destruct (BecomeFollower t 0 (e_node e)) as [r n] eqn:Hb.
  etrans; [by eapply follow_drives|apply abandon_drives].
Qed.

Lemma checkQuorum_drives i now e : drives i e (checkQuorum now e).
Proof.
  unfold checkQuorum. case_decide; [done|]. case_match; [by apply drives_same|].
  destruct (BecomeFollower _ 0 (e_node e)) as [[u|er] n] eqn:Hb; [|by eapply follow_drives].
  etrans; [by eapply follow_drives|apply abandon_drives].
Qed.

Lemma apply_one_drives i e a' e' :
  apply_one (rn_LastApplied (e_node e)) (rn_CommitIndex (e_node e)) e = Some (a', e') →
  drives i e e' ∧ (e_fatal e' = None → a' = rn_LastApplied (e_node e') ∧ rn_CommitIndex (e_node e) = rn_CommitIndex (e_node e')).
Proof.
  intros Ho. unfold apply_one in Ho.
  destruct (Z.ltb_spec (rn_LastApplied (e_node e)) (rn_CommitIndex (e_node e))) as [Hlt|]; [|done].
  destruct (GetEntry _ _) as [entry|] eqn:Hg; [|injection Ho as <- <-; split; [by apply drives_same|done]].
  unfold apply_entry in Ho. destruct (DecodeCommand _) as [cmd|er] eqn:Hd;
    [|injection Ho as <- <-; split; [by apply drives_same|done]].
  destruct (Apply _ cmd _) as [[er|] m] eqn:Ha; injection Ho as <- <-; (split; [|done]); [by apply drives_same|].
  etrans; [by apply (drives_same i e (with_machine m e))|by apply (advance_drives i (with_machine m e))].
Qed.

Lemma apply_loop_drives i fuel a c e :
  a = rn_LastApplied (e_node e) → c = rn_CommitIndex (e_node e) → drives i e (apply_loop fuel a c e).
Proof.
  revert a c e. induction fuel as [|fuel IH]; intros a c e -> ->; simpl; [done|].
  destruct (apply_one _ _ e) as [[a' e']|] eqn:Ho; [|done]. apply (apply_one_drives i) in Ho as [Hd Hn].
  destruct (e_fatal e') eqn:Hf; [done|]. destruct (Hn eq_refl) as [-> ->]. etrans; [exact Hd|by apply IH].
Qed.

Lemma applyCommitted_drives i e : drives i e (applyCommitted e).
Proof. unfold applyCommitted, CommitAndApplyBoundary. by apply apply_loop_drives. Qed.

Lemma maybeCompact_drives i e : drives i e (maybeCompact e).
Proof.
  unfold maybeCompact, compact, CommitAndApplyBoundary. case_match; [|done].
  case_match; [done|]. unfold on_disk. destruct (Write _ _ _ _) as [[u|er] os]; [|apply disk_drives].
  set (k := rn_LastApplied (e_node e)). set (e1 := with_log (set_disk os (e_raftLog e)) e).
  destruct (TruncateBeforeIndex k (TermAt (e_raftLog e) k) (set_disk os (e_raftLog e))) as [r rl] eqn:Ht.
  etrans; [apply (disk_drives i os)|]. fold e1. etrans; [eapply (truncate_drives i e1 k r rl); [done|exact Ht]|].
  by apply drives_same.
Qed.

Lemma tick_rest_drives i now e : drives i e (tick_rest now e).
Proof.
  unfold tick_rest. etrans; [apply applyCommitted_drives|]. case_match; [done|]. set (e1 := applyCommitted e).
  etrans; [apply maybeCompact_drives|]. etrans; [apply fireReadWaiters_drives|].
  etrans; [apply fireApplyWaiters_drives|]. etrans; [|apply sweepExpired_drives].
  case_match; [apply checkQuorum_drives|done].
Qed.

Lemma handleProposal_drives i cmd ch now e :
  rl_nextIndex (e_raftLog e) < MaxInt64 → drives i e (handleProposal cmd ch now e).
Proof.
  intros Hroom. unfold handleProposal, proposal_append, EncodeCommand, rn_CurrentTerm.
  destruct (IsLeader (e_node e)) eqn:Hl; [|by apply drives_same]. apply bool_decide_eq_true in Hl. simpl.
  destruct (AppendLeader _ (rn_term (e_node e)) (e_raftLog e)) as [[entry|er] rl] eqn:Ha;
    (etrans; [by eapply append_drives|by apply drives_same]).
Qed.

(** ** Elections *)

Definition asks_of (b : broadcast) : list RequestVoteRequest :=
  match b with PollVote req => [req] | _ => [] end.

Lemma LastLogState_index rl : (LastLogState rl).1 = LatestIndex rl.
Proof. unfold LastLogState, LatestIndex, lastIndexLocked. by destruct (last (rl_cache rl)). Qed.

(** A handler that only drives. *)
Lemma gets_drives i y e' e'' won :
  gets i y e' (λ won' _, won ⊆ won') → drives i e' e'' → gets i y e'' (λ won' _, won ⊆ won').
Proof.
  intros (y1 & w1 & Hs1 & Hb1 & Hr1 & Hw1) Hd. destruct (Hd y1 w1 Hr1) as (y2 & w2 & Hs2 & Hb2 & Hr2 & Hw2).
  exists y2, w2. split_and!; [by etrans|by etrans|done|by etrans].
Qed.

Lemma becomeLeader_gets i t now e y won :
  runs i e won y → t ∈ won → rl_nextIndex (e_raftLog e) < MaxInt64 →
  gets i y (becomeLeader t (LatestIndex (e_raftLog e)) now e) (λ won' _, won ⊆ won').
Proof.
  intros Hr Ht Hroom. unfold becomeLeader.
  destruct (BecomeLeader t (LatestIndex (e_raftLog e)) (e_node e)) as [b n] eqn:Hb.
  pose proof (sys_promote config y i (mkServer (e_node e) (e_raftLog e) won) t b n Hr Ht Hb) as Hs.
  destruct b.
  2:{ exists (put i (mkServer n (e_raftLog e) won) (with_cluster (sy_cluster y) y)), won.
      split_and!; [by apply rtc_once|by apply beyond_put_with|apply fn_lookup_insert|done]. }
  assert (rn_Role n = Leader ∧ rn_term n = t) as [Hld Htn].
  { revert Hb. unfold BecomeLeader. case_bool_decide; simpl; [done|].
    destruct (Z.eqb_spec (CurrentTerm (rn_persistent (e_node e))) t) as [<-|]; simpl; [|done]. by intros [= <-]. }
  eapply (gets_drives i y (with_node n e)).
  { exists (put i (mkServer n (e_raftLog e) won) (with_cluster (elect t i (sy_cluster y)) y)), won.
    split_and!; [by apply rtc_once|by apply beyond_put_with|apply fn_lookup_insert|done]. }
  assert (∀ e1 e2, drives i e1 e2 → drives i e1 (startReplicators e2)) as Hstart.
  { intros e1 e2 Hd. etrans; [exact Hd|]. by apply drives_same; apply startReplicators_core. }
  apply Hstart. unfold EncodeCommand. set (e1 := with_noop 0 _).
  destruct (AppendLeader _ t (e_raftLog e1)) as [[entry|er] rl] eqn:Ha; rewrite <-Htn in Ha;
    (etrans; [by eapply (append_drives i (with_node n e))|by apply drives_same]).
Qed.

(** What a handler that may campaign leaves, and asks. *)
Definition campaigns (i : Z) y won (r : broadcast * Engine Store) : Prop :=
  gets i y r.2 (λ won' y', won ⊆ won' ∧ asks_of r.1 ⊆ sy_asks y').

Lemma campaigns_silent i y won e : gets i y e (λ won' _, won ⊆ won') → campaigns i y won (Silent, e).
Proof. intros (y' & w' & ? & ? & ? & ?). exists y', w'. split_and!; try done. apply list_subseteq_nil. Qed.

Lemma campaigns_drives i y won e e' : runs i e won y → drives i e e' → campaigns i y won (Silent, e').
Proof. intros Hr Hd. by apply campaigns_silent, Hd. Qed.

Lemma runElection_campaigns i now draw e y won :
  runs i e won y → rn_nodeID (e_node e) = i → rl_nextIndex (e_raftLog e) < MaxInt64 →
  int64 (rn_term (e_node e)) → rn_term (e_node e) < MaxInt64 → campaigns i y won (runElection now draw e).
Proof.
  intros Hr Hid Hroom Hint Hmax. unfold runElection.
  destruct (BecomeCandidate now (e_node e)) as [[t|er] n] eqn:Hb.
  2:{ apply (campaigns_drives i y won e); [done|]. apply drives_put. intros y' won' Hr'.
      by apply (sys_campaign_failed config y' i (mkServer (e_node e) (e_raftLog e) won') now er n). }
  pose proof (sys_campaign config y i (mkServer (e_node e) (e_raftLog e) won) now t n Hr Hint Hmax Hb) as Hs.
  set (won1 := if decide (NodePeers n = ∅) then {[t]} ∪ won else won). simpl in Hs. fold won1 in Hs.
  set (y1 := put i _ _) in Hs. set (e1 := resetElectionTimeout draw (with_node n e)).
  assert (runs i e1 won1 y1) as Hr1 by apply fn_lookup_insert.
  assert (beyond i y y1) as Hb1 by (apply beyond_put_with; [done|simpl; set_solver]).
  assert (won ⊆ won1) as Hw1 by (unfold won1; case_decide; set_solver).
  apply BecomeCandidate_inv in Hb as (Hev & -> & Hp & _); [|done..].
  destruct (LastLogState (e_raftLog e1)) as [li lt] eqn:Hlast.
  pose proof (LastLogState_index (e_raftLog e1)) as Hli. rewrite Hlast in Hli. simpl in Hli. subst li.
  case_decide as Hpeers.
  - apply campaigns_silent. edestruct (becomeLeader_gets i (rn_term (e_node e) + 1) now e1 y1 won1)
      as (y2 & w2 & Hs2 & Hb2 & Hr2 & Hw2); [done| |done|].
    { unfold won1. rewrite decide_True by done. set_solver. }
    exists y2, w2. split_and!; [by eapply rtc_l|by etrans|done|by etrans].
  - assert (rn_nodeID n = i) as Hidn by (by destruct Hev as ((-> & _) & _)).
    assert (rn_term n = rn_term (e_node e) + 1) as Htn by exact (f_equal CurrentTerm Hp).
    pose proof (sys_ask config y1 i (mkServer n (e_raftLog e) won1) (rn_term (e_node e) + 1) Hr1 ltac:(simpl; lia)) as Ha.
    simpl in Ha. change (e_raftLog e1) with (e_raftLog e) in Hlast. rewrite Hlast in Ha. simpl in Ha.
    exists (asked (mkRequestVoteRequest (rn_term (e_node e) + 1) i (LatestIndex (e_raftLog e)) lt) y1), won1.
    split_and!; [eapply rtc_l; [exact Hs|by apply rtc_once]| |done|done|].
    + etrans; [exact Hb1|]. split; try done. simpl. set_solver.
    + simpl. unfold NodeID. rewrite Hidn. set_solver.
Qed.

(** What a handler needs to know of its server before it may campaign. *)
Definition fit (i : Z) e : Prop :=
  rn_nodeID (e_node e) = i ∧ rl_nextIndex (e_raftLog e) < MaxInt64 ∧
  int64 (rn_term (e_node e)) ∧ rn_term (e_node e) < MaxInt64.

(** A handler that first drives and then may campaign. *)
Lemma campaigns_after i y won e e' r :
  runs i e won y → drives i e e' → (∀ y' won', runs i e' won' y' → campaigns i y' won' r) → campaigns i y won r.
Proof.
  intros Hr Hd Hc. destruct (Hd y won Hr) as (y1 & w1 & Hs1 & Hb1 & Hr1 & Hw1).
  destruct (Hc y1 w1 Hr1) as (y2 & w2 & Hs2 & Hb2 & Hr2 & Hw2 & Ha2).
  exists y2, w2. split_and!; [by etrans|by etrans|done|by etrans|done].
Qed.

(** And one that may campaign and then drives. *)
Lemma campaigns_then i y won b e e' : campaigns i y won (b, e) → drives i e e' → campaigns i y won (b, e').
Proof.
  intros (y1 & w1 & Hs1 & Hb1 & Hr1 & Hw1 & Ha1) Hd. destruct (Hd y1 w1 Hr1) as (y2 & w2 & Hs2 & Hb2 & Hr2 & Hw2).
  exists y2, w2. split_and!; [by etrans|by etrans|done|by etrans|]. etrans; [exact Ha1|apply (by_asks _ _ _ Hb2)].
Qed.

Lemma elect_campaigns i now draw e e' y won :
  runs i e won y → fit i e → e_node e' = e_node e → e_raftLog e' = e_raftLog e →
  campaigns i y won (runElection now draw e').
Proof.
  intros Hr (Hid & Hroom & Hint & Hmax) Hn Hl.
  apply runElection_campaigns; rewrite ?Hn, ?Hl; try done. unfold runs. by rewrite Hn, Hl.
Qed.

Lemma startPreVote_campaigns i now d d' e y won :
  runs i e won y → fit i e → campaigns i y won (startPreVote now d d' e).
Proof.
  intros Hr Hfit. unfold startPreVote. destruct (LastLogState _). case_decide.
  - by eapply elect_campaigns.
  - exists y, won. split_and!; try done. apply list_subseteq_nil.
Qed.

Lemma handlePreVoteResult_campaigns i t v resp now d e y won :
  runs i e won y → fit i e → campaigns i y won (handlePreVoteResult t v resp now d e).
Proof.
  intros Hr Hfit. unfold handlePreVoteResult, State. case_match; [by eapply campaigns_drives|].
  case_match; [by eapply campaigns_drives|].
  destruct (rn_term (e_node e) <? pvr_Term resp).
  { destruct (BecomeFollower _ 0 (e_node e)) as [r n] eqn:Hb. eapply campaigns_drives; [done|].
    etrans; [by eapply follow_drives|by apply drives_same]. }
  case_match; [by eapply campaigns_drives|]. case_match; [by eapply elect_campaigns|].
  eapply campaigns_drives; [done|by apply drives_same].
Qed.

Lemma handleVoteResult_gets i t v resp now e y won :
  runs i e won y → rl_nextIndex (e_raftLog e) < MaxInt64 →
  (rvr_VoteGranted resp = true → (t, i, v) ∈ cl_ballots (sy_cluster y)) →
  gets i y (handleVoteResult t v resp now e) (λ won' _, won ⊆ won').
Proof.
  intros Hr Hroom Hcast. assert (drives i e e) as Hid by reflexivity.
  unfold handleVoteResult, State. case_match; [by apply Hid|].
  destruct (rn_term (e_node e) <? rvr_Term resp).
  { destruct (BecomeFollower _ 0 (e_node e)) as [r n] eqn:Hb. by eapply follow_drives in Hb; apply Hb. }
  destruct (rvr_VoteGranted resp); [|by apply Hid]. specialize (Hcast eq_refl). simpl.
  destruct (RecordVoteAndCheckMajority v t (e_node e)) as [b n] eqn:Hv.
  pose proof (sys_vote config y i (mkServer (e_node e) (e_raftLog e) won) v t b n Hr Hcast Hv) as Hs. simpl in Hs.
  set (won1 := if b then {[t]} ∪ won else won) in Hs. set (y1 := put i _ y) in Hs.
  assert (runs i (with_node n e) won1 y1) as Hr1 by apply fn_lookup_insert.
  assert (won ⊆ won1) as Hw1 by (unfold won1; destruct b; set_solver).
  destruct b; [|by exists y1, won1; split_and!; [apply rtc_once|apply beyond_put|..]].
  destruct (becomeLeader_gets i t now (with_node n e) y1 won1) as (y2 & w2 & Hs2 & Hb2 & Hr2 & Hw2);
    [done|set_solver|done|].
  exists y2, w2. split_and!; [by eapply rtc_l|etrans; [apply beyond_put|done]|done|by etrans].
Qed.

Lemma tick_role_campaigns i now d d' e y won :
  runs i e won y → fit i e → campaigns i y won (tick_role now d d' e).
Proof.
  intros Hr Hfit. unfold tick_role, State. case_bool_decide.
  - destruct (AdvanceCommitIndex _ _ _ _) as [r n] eqn:Ha. eapply campaigns_drives; [done|].
    etrans; [by eapply commit_drives|apply fireCommittedWaiters_drives].
  - case_match; [by apply startPreVote_campaigns|by eapply campaigns_drives].
Qed.

Lemma onTick_campaigns i now d d' e y won :
  runs i e won y → fit i e → campaigns i y won (onTick now d d' e).
Proof.
  intros Hr Hfit. unfold onTick. pose proof (reconcileLeadership_log e) as Hl. pose proof (reconcileLeadership_node e) as Hn.
  assert (campaigns i y won (tick_role now d d' (reconcileLeadership e))) as Hc.
  { apply tick_role_campaigns; unfold runs, fit; by rewrite Hl, Hn. }
  destruct (tick_role _ _ _ _) as [b e']. eapply campaigns_then; [exact Hc|apply tick_rest_drives].
Qed.

(** What the loop hears from the network. *)
Definition heard (i : Z) (ev : event) (ballots : list (Z * Z * Z)) : Prop :=
  match ev with
  | VoteResult t v resp => rvr_VoteGranted resp = true → (t, i, v) ∈ ballots
  | _ => True
  end.

Lemma select_arm_campaigns i ev now d d' e y won :
  runs i e won y → fit i e → heard i ev (cl_ballots (sy_cluster y)) → campaigns i y won (select_arm ev now d d' e).
Proof.
  intros Hr Hfit Hh. destruct ev; simpl.
  - eapply campaigns_drives; [done|]. unfold shutdown. etrans; [|apply stopReplicators_drives]. by apply drives_same.
  - eapply campaigns_drives; [done|]. apply handleProposal_drives, Hfit.
  - eapply campaigns_drives; [done|]. apply handleStepDown_drives.
  - by apply handlePreVoteResult_campaigns.
  - apply campaigns_silent, handleVoteResult_gets; [done|apply Hfit|done].
  - eapply campaigns_drives; [done|]. unfold handleAck. etrans; [|apply fireReadWaiters_drives]. by apply drives_same.
  - eapply campaigns_drives; [done|]. unfold handleRead, State, CommitAndApplyBoundary.
    case_bool_decide; [by apply drives_same|]. etrans; [|apply fireReadWaiters_drives]. by apply drives_same.
  - eapply campaigns_drives; [done|]. unfold handleApplyWait, CommitAndApplyBoundary.
    case_match; by apply drives_same.
  - by apply onTick_campaigns.
Qed.

(** ** Mail

    Everything ever sent: requests for votes, the votes granted, requests to append,
    their answers, snapshots and theirs, as in RaftSystem.v. *)

Record Mail := mkMail {
  ml_asks : list RequestVoteRequest;
  ml_ballots : list (Z * Z * Z);
  ml_appends : list AppendEntriesRequest;
  ml_replies : list (Z * Z * AppendEntriesResponse);
  ml_snaps : list InstallSnapshotRequest;
  ml_installs : list (Z * Z * Z * InstallSnapshotResponse);
}.

Definition no_mail : Mail := mkMail [] [] [] [] [] [].

Definition post (m m' : Mail) : Mail :=
  mkMail (ml_asks m ++ ml_asks m') (ml_ballots m ++ ml_ballots m') (ml_appends m ++ ml_appends m')
    (ml_replies m ++ ml_replies m') (ml_snaps m ++ ml_snaps m') (ml_installs m ++ ml_installs m').

Record carries y (m : Mail) : Prop := {
  ca_asks : ml_asks m ⊆ sy_asks y;
  ca_ballots : ml_ballots m ⊆ cl_ballots (sy_cluster y);
  ca_appends : ml_appends m ⊆ sy_appends y;
  ca_replies : ml_replies m ⊆ sy_replies y;
  ca_snaps : ml_snaps m ⊆ sy_snaps y;
  ca_installs : ml_installs m ⊆ sy_installs y;
}.

Lemma carries_nothing y : carries y no_mail.
Proof. split; apply list_subseteq_nil. Qed.

Lemma carries_post y m m' : carries y m → carries y m' → carries y (post m m').
Proof. intros [] []. split; simpl; by apply list_subseteq_app_iff_l. Qed.

Lemma carries_beyond i y y' m : beyond i y y' → carries y m → carries y' m.
Proof. intros [] []. split; by etrans. Qed.

(** What the round begun at [e] sends to [p]: a snapshot if the peer needs entries the
    log has given up and there is one on the disk, otherwise the entries.  [cached]
    is the encoded snapshot kept from an earlier round. *)
Definition round_sends (cached : option encodedSnapshot) (p : Z) e : Mail :=
  let n := e_node e in
  let entries := mkMail [] [] [append_request n n n (e_raftLog e) (e_raftLog e) p] [] [] [] in
  if NextIndexFor p n <? FirstIndex (e_raftLog e) then
    match (buildSnapshotRequest cached e).1.1 with
    | Some req => mkMail [] [] [] [] [req] []
    | None => entries
    end
  else entries.

(** What an action of server [i] sends. *)
Definition outbox (i : Z) (cached : option encodedSnapshot) (a : action) l : Mail :=
  let e := lp_engine l in
  match a with
  | Select ev now d d' =>
      if lp_stopped l || bool_decide (¬ possible ev l) then no_mail
      else mkMail (asks_of (select_arm ev now d d' e).1) [] [] [] [] []
  | RpcAppendEntries req now =>
      mkMail [] [] [] [(i, ae_Term req, (EngineHandleAppendEntries req now e).1)] [] []
  | RpcRequestVote req now =>
      let resp := (EngineHandleRequestVote req now e).1 in
      mkMail [] (if rvr_VoteGranted resp then [(rvr_Term resp, rv_CandidateID req, i)] else []) [] [] [] []
  | RpcInstallSnapshot req now =>
      mkMail [] [] [] [] [] [(i, is_Term req, is_LastIncludedIndex req, (EngineHandleInstallSnapshot req now e).1)]
  | RoundBegin p => if IsLeader (e_node e) && bool_decide (p ∈ e_replicators e) then round_sends cached p e else no_mail
  | RoundEnd _ _ => no_mail
  end.

(** What came to server [i] was sent: a reply, by the peer of the round it ends. *)
Definition replied (rd : round) (r : round_reply) (m : Mail) : Prop :=
  match r with
  | AppendReply u (Some resp) => (rd_peer rd, u, resp) ∈ ml_replies m
  | SnapshotReply u k (Some resp) => (rd_peer rd, u, k, resp) ∈ ml_installs m
  | AppendReply _ None | SnapshotReply _ _ None => True
  end.

(** What the network hands server [i] with an action: anything that was ever sent to
    it or to another, late, twice or never. *)
Definition delivered (i : Z) (a : action) (m : Mail) : Prop :=
  match a with
  | Select ev _ _ _ => heard i ev (ml_ballots m)
  | RpcAppendEntries req _ => req ∈ ml_appends m
  | RpcRequestVote req _ => req ∈ ml_asks m
  | RpcInstallSnapshot req _ => req ∈ ml_snaps m
  | RoundBegin _ => True
  | RoundEnd rd r => replied rd r m
  end.

(** ** Orderly actions

    The rest of this file is about actions within the following limits.  The program
    enforces none of them, and each is here because a run that breaks it can leave
    Raft behind. *)

(** The term of the leadership whose round a reply ends. *)
Definition sent_term (r : round_reply) : option Z :=
  match r with
  | AppendReply u (Some _) | SnapshotReply u _ (Some _) => Some u
  | AppendReply _ None | SnapshotReply _ _ None => None
  end.

(** A leader uses no reply to a round of another of its leaderships
    ([stale_reply_loses_write]). *)
Definition current (r : round_reply) n : Prop :=
  ∀ u, sent_term r = Some u → rn_Role n = Leader → u = rn_term n.

(** The disk does not cut a batch in two: it is written, or the log is as it was. *)
Definition whole_batch (req : AppendEntriesRequest) (now : Z) e : Prop :=
  let '(resp, e') := EngineHandleAppendEntries req now e in
  aer_Success resp = true ∨ logical (e_raftLog e') = logical (e_raftLog e).

(** The snapshot a round ships is of entries this server has applied, and its log
    goes on from it. *)
Definition meets (m : Mail) e : Prop :=
  ∀ req, req ∈ ml_snaps m →
    rl_lastIncludedIndex (e_raftLog e) ≤ is_LastIncludedIndex req ≤ rn_LastApplied (e_node e) ∧
    is_LastIncludedTerm req = TermAt (e_raftLog e) (is_LastIncludedIndex req).

(** Room in the words for one more index and one more term; and, by the kind of
    action, no batch cut in two, no install that leaves the log ill formed
    ([ResetToSnapshot_stale_nextIndex]), no snapshot its log does not meet, no reply
    to another leadership. *)
Definition orderly_action (i : Z) (cached : option encodedSnapshot) (a : action) l : Prop :=
  let e := lp_engine l in
  (rl_nextIndex (e_raftLog e) < MaxInt64 ∧ int64 (rn_term (e_node e)) ∧ rn_term (e_node e) < MaxInt64) ∧
  match a with
  | Select _ _ _ _ | RpcRequestVote _ _ => True
  | RpcAppendEntries req now => whole_batch req now e
  | RpcInstallSnapshot req now => log_wf (e_raftLog (EngineHandleInstallSnapshot req now e).2)
  | RoundBegin p => meets (outbox i cached a l) e
  | RoundEnd _ r => current r (e_node e)
  end.

(** A live server takes an orderly action on what it was handed. *)
Record takes (i : Z) (cached : option encodedSnapshot) (a : action) l (m : Mail) : Prop := {
  tk_alive : e_fatal (lp_engine l) = None;
  tk_delivered : delivered i a m;
  tk_orderly : orderly_action i cached a l;
}.

(** ** Every action is a run of the system *)

(** The system gets to where [i] runs [e'] and has sent [m]. *)
Definition delivers (i : Z) y e' (m : Mail) : Prop := gets i y e' (λ _ y', carries y' m).

(** One step that leaves server [i] as it is given. *)
Lemma delivers_step i y y' e' won m :
  sys_step config y y' → beyond i y y' → runs i e' won y' → carries y' m → delivers i y e' m.
Proof. intros Hs Hb Hr Hm. exists y', won. split_and!; [by apply rtc_once|done..]. Qed.

Lemma delivers_nothing i y e e' won : runs i e won y → drives i e e' → delivers i y e' no_mail.
Proof.
  intros Hr Hd. destruct (Hd y won Hr) as (y' & w' & ? & ? & ? & _). exists y', w'.
  split_and!; try done. apply carries_nothing.
Qed.

Lemma incl_one {A} (x : A) (xs : list A) : [x] ⊆ x :: xs.
Proof. set_solver. Qed.

Ltac posts := split; simpl; try apply list_subseteq_nil; try apply incl_one.

Lemma select_delivers i ev now d d' e y won :
  runs i e won y → fit i e → heard i ev (cl_ballots (sy_cluster y)) →
  delivers i y (select_arm ev now d d' e).2 (mkMail (asks_of (select_arm ev now d d' e).1) [] [] [] [] []).
Proof.
  intros Hr Hfit Hh. destruct (select_arm_campaigns i ev now d d' e y won Hr Hfit Hh) as (y' & w' & ? & ? & ? & ? & Ha).
  exists y', w'. split_and!; try done. split; simpl; try apply list_subseteq_nil. done.
Qed.

Lemma append_delivers i req now e y won :
  runs i e won y → req ∈ sy_appends y → whole_batch req now e →
  let '(resp, e') := EngineHandleAppendEntries req now e in
  delivers i y e' (mkMail [] [] [] [(i, ae_Term req, resp)] [] []).
Proof.
  intros Hr Hreq. unfold whole_batch, EngineHandleAppendEntries.
  destruct (HandleAppendEntries (e_raftLog e) req now (e_node e)) as [[resp n] rl] eqn:Hh. intros Hok.
  pose proof (sys_append config y i (mkServer (e_node e) (e_raftLog e) won) req now resp n rl Hr Hreq Hh Hok) as Hs.
  eapply delivers_step; [exact Hs| |apply fn_lookup_insert|posts].
  etrans; [|apply beyond_put]. split; try done. simpl. set_solver.
Qed.

Lemma vote_delivers i req now e y won :
  runs i e won y → req ∈ sy_asks y →
  let '(resp, e') := EngineHandleRequestVote req now e in
  delivers i y e' (mkMail [] (if rvr_VoteGranted resp then [(rvr_Term resp, rv_CandidateID req, i)] else []) [] [] [] []).
Proof.
  intros Hr Hreq. unfold EngineHandleRequestVote.
  destruct (HandleRequestVote req (LastLogState (e_raftLog e)) now (e_node e)) as [resp n] eqn:Hh.
  pose proof (sys_request_vote config y i (mkServer (e_node e) (e_raftLog e) won) req now resp n Hr Hreq Hh) as Hs.
  eapply delivers_step; [exact Hs| |apply fn_lookup_insert|].
  - apply beyond_put_with; [by destruct (rvr_VoteGranted resp)|]. destruct (rvr_VoteGranted resp); [|done]. simpl. set_solver.
  - destruct (rvr_VoteGranted resp); posts.
Qed.

Lemma install_delivers i req now e y won :
  runs i e won y → req ∈ sy_snaps y → log_wf (e_raftLog (EngineHandleInstallSnapshot req now e).2) →
  let '(resp, e') := EngineHandleInstallSnapshot req now e in
  delivers i y e' (mkMail [] [] [] [] [] [(i, is_Term req, is_LastIncludedIndex req, resp)]).
Proof.
  intros Hr Hreq. unfold EngineHandleInstallSnapshot.
  destruct (HandleInstallSnapshot (e_raftLog e) req _ _ now (e_node e) (e_stateMachine e)) as [[[resp n] rl] m] eqn:Hh.
  intros Hwf. simpl in Hwf.
  pose proof (sys_install config y i (mkServer (e_node e) (e_raftLog e) won) req _ _ now _ resp n rl m Hr Hreq Hh Hwf) as Hs.
  eapply delivers_step; [exact Hs| |apply fn_lookup_insert|posts].
  etrans; [|apply beyond_put]. split; try done. simpl. set_solver.
Qed.

(** A round reads the node and the log, and claims a number. *)
Lemma begin_delivers i cached p e y won :
  runs i e won y → rn_nodeID (e_node e) = i → rn_Role (e_node e) = Leader → meets (round_sends cached p e) e →
  delivers i y (nextRoundSeq e).2 (round_sends cached p e).
Proof.
  intros Hr Hid Hl Hmeets. set (sv := mkServer (e_node e) (e_raftLog e) won).
  assert (∀ y' m, sys_step config y y' → beyond i y y' → runs i e won y' → carries y' m →
    delivers i y (nextRoundSeq e).2 m) as Hone by (intros y' m ? ? ? ?; by eapply (delivers_step i y y')).
  pose proof (sys_send config y i sv p Hr Hl) as Hsend. revert Hmeets. unfold round_sends.
  assert (delivers i y (nextRoundSeq e).2
    (mkMail [] [] [append_request (e_node e) (e_node e) (e_node e) (e_raftLog e) (e_raftLog e) p] [] [] [])) as Hentries.
  { eapply Hone; [exact Hsend| |exact Hr|posts]. split; try done. simpl. set_solver. }
  case_match; [|by intros _]. destruct (buildSnapshotRequest cached e) as [[[req|] c] e'] eqn:Hb; simpl; [|by intros _].
  intros Hmeets. destruct (Hmeets req) as [Hk Ht]; [left|].
  assert (req = mkInstallSnapshotRequest (rn_term (e_node e)) i (is_LastIncludedIndex req)
    (TermAt (e_raftLog e) (is_LastIncludedIndex req)) (is_Data req)) as Hreq.
  { rewrite <-Ht. revert Hb. unfold buildSnapshotRequest, NodeID, rn_CurrentTerm. rewrite Hid.
    repeat case_match; intros [=]; subst; done. }
  pose proof (sys_ship config y i sv (is_LastIncludedIndex req) (is_Data req) Hr Hl Hk) as Hs. simpl in Hs. rewrite <-Hreq in Hs.
  eapply Hone; [exact Hs| |exact Hr|posts]. split; try done. simpl. set_solver.
Qed.

Lemma end_delivers i rd r e y won m t n :
  runs i e won y → carries y m → replied rd r m → current r (e_node e) → reply_progress (rd_peer rd) r (e_node e) = (t, n) →
  delivers i y (with_node n e) no_mail.
Proof.
  intros Hr Hm Hrep Hcur Hp. set (sv := mkServer (e_node e) (e_raftLog e) won).
  assert (∀ n', sys_step config y (put i (Cluster.with_node n' sv) y) → delivers i y (with_node n' e) no_mail) as Hone.
  { intros n' Hs. eapply delivers_step; [exact Hs|apply beyond_put|apply fn_lookup_insert|apply carries_nothing]. }
  destruct r as [u [resp|]|u k [resp|]]; simpl in Hrep, Hp.
  - apply Hone. eapply (sys_reply config y i sv); [exact Hr|by apply (ca_replies _ _ Hm)|by apply Hcur|exact Hp].
  - injection Hp as _ <-. eapply delivers_nothing; [exact Hr|by apply drives_same].
  - apply Hone. eapply (sys_installed config y i sv); [exact Hr|by apply (ca_installs _ _ Hm)|by apply Hcur|exact Hp].
  - injection Hp as _ <-. eapply delivers_nothing; [exact Hr|by apply drives_same].
Qed.

Lemma act_delivers i cached a l y won m :
  runs i (lp_engine l) won y → rn_nodeID (e_node (lp_engine l)) = i → carries y m → takes i cached a l m →
  delivers i y (lp_engine (act a l)) (outbox i cached a l).
Proof.
  intros Hr Hid Hm [Hf Hd ((Hroom & Hint & Hmax) & Ho)]. unfold act. rewrite Hf. set (e := lp_engine l) in *.
  assert (delivers i y e no_mail) as Hnone by (eapply delivers_nothing; [exact Hr|done]).
  destruct a as [ev now d d'|req now|req now|req now|p|rd r]; cbn [outbox delivered] in *; fold e.
  - case_match; [done|]. apply (select_delivers i ev now d d' e y won Hr); [done|].
    destruct ev; try done. simpl in *. intros Hg. by apply (ca_ballots _ _ Hm), Hd.
  - pose proof (append_delivers i req now e y won Hr) as Ha. fold e in Ho.
    destruct (EngineHandleAppendEntries req now e) as [resp e']. apply Ha; [by apply (ca_appends _ _ Hm)|done].
  - pose proof (vote_delivers i req now e y won Hr) as Ha. destruct (EngineHandleRequestVote req now e) as [resp e'].
    apply Ha. by apply (ca_asks _ _ Hm).
  - pose proof (install_delivers i req now e y won Hr) as Ha. fold e in Ho.
    destruct (EngineHandleInstallSnapshot req now e) as [resp e']. apply Ha; [by apply (ca_snaps _ _ Hm)|done].
  - cbn [outbox] in Ho. fold e in Ho. destruct (IsLeader (e_node e)) eqn:Hl; cbn [andb] in *; [|done].
    case_bool_decide; [|done]. pose proof (begin_delivers i cached p e y won Hr Hid) as Ha.
    apply bool_decide_eq_true in Hl. destruct (nextRoundSeq e) as [seq e']. by apply Ha.
  - case_decide; [|done]. destruct (reply_progress _ r _) as [t n] eqn:Hp. by eapply end_delivers.
Qed.

End Drive.
