(* ===== verification/FleetSafety.v ===== *)
(** * A cluster of running programs

    Servers that run the control loop of EngineRun.v, stop, and start again from their
    disks, joined by the mail of Fleet.v.  A running server is the loop it started as
    and the actions since, so that a state has the history the theorems about one
    server's runs are stated on.

    [fleet_step] is everything such a cluster does, an action at a time.  The
    theorems are about the runs of [orderly_step], a step of the fleet within the
    limits of [orderly]: the program enforces none of them, and the examples named
    there and in Fleet.v show that what is proved fails without them. *)

From stdpp Require Import functions.
From S2P Require Import Cluster RaftSpec RaftSafety RaftSystem RaftSimulation.
From S2P Require Import Prelude Configuration Os Json Types Encoding RaftLog RaftLogFacts RaftLogDisk RaftNode RaftNodeFacts StateMachine Snapshot Replicator Engine EngineLoop EngineFacts EngineRun EngineMoves Startup Fleet.

Section Fleets.
Context {Store : Type} `{StateStoreLaws Store} `{Codec LogEntry} `{Codec Command}.
Context (config : Configuration).
Implicit Types (e : Engine Store) (l : Loop Store) (n : RaftNode Store) (rl : RaftLog) (y : System (Store := Store)).

(** ** State *)

(** A stopped server is its metadata and the disk of its log: [rl] is the log it had,
    and its [rl_disk] what a reboot made of the disk.  A start reads the disk. *)
Inductive place :=
  | Stopped (s : Store) (rl : RaftLog)
  | Running (l0 : Loop Store) (acts : list (action)).

Record Fleet := mkFleet { fl_place : Z → place; fl_mail : Mail }.
Implicit Types f : Fleet.

Definition settle (i : Z) (p : place) f : Fleet := mkFleet (<[i := p]> (fl_place f)) (fl_mail f).

(** The fleet after an action. *)
Definition acted (i : Z) cached a (l0 : Loop Store) acts f : Fleet :=
  mkFleet (<[i := Running l0 (acts ++ [a])]> (fl_place f)) (post (outbox i cached a (run acts l0)) (fl_mail f)).

(** ** Everything a fleet can do

    One handler, round or start of the program at a time; the races inside a handler
    are those of EngineRaces.v.  What stops is the machine ([reboot]). *)

(** A round reads the node and the log in several critical sections, so what it
    sends can be put together from several states: [e1] to [e5], in their order. *)
Definition torn_round (cached : option encodedSnapshot) (p : Z) e1 e2 e3 e4 e5 (m : Mail) : Prop :=
  m = mkMail [] [] [append_request (e_node e1) (e_node e2) (e_node e3) (e_raftLog e4) (e_raftLog e5) p] [] [] [] ∨
  ∃ req, (buildSnapshotRequest cached (with_node (e_node e2) e1)).1.1 = Some req ∧ m = mkMail [] [] [] [] [req] [].

(** The metadata a failed start leaves: as it was, unless it was opened. *)
Definition left_behind (s : Store) (o : option Store) (s' : Store) : Prop :=
  match o with None => s' = s | Some s1 => ss_reboot s1 s' end.

(** Who moves, and how. *)
Inductive move :=
  | Acts (i : Z) (cached : option encodedSnapshot) (a : action)
  | Tears (i : Z)
  | Stops (i : Z)
  | Starts (i : Z)
  | Fails (i : Z).

Inductive fleet_step f : move → Fleet → Prop :=
  | fs_act i l0 acts cached a :
      fl_place f i = Running l0 acts → e_fatal (lp_engine (run acts l0)) = None → delivered i a (fl_mail f) →
      fleet_step f (Acts i cached a) (acted i cached a l0 acts f)
  (** a round in flight sends what it has read so far and reads now *)
  | fs_torn i l0 acts cached rd k1 k2 k3 k4 m :
      fl_place f i = Running l0 acts → e_fatal (lp_engine (run acts l0)) = None → rd ∈ lp_flight (run acts l0) →
      (k1 ≤ k2 ≤ k3 ∧ k3 ≤ k4)%nat →
      let seen k := lp_engine (run (take k acts) l0) in
      torn_round cached (rd_peer rd) (seen k1) (seen k2) (seen k3) (seen k4) (lp_engine (run acts l0)) m →
      fleet_step f (Tears i) (mkFleet (fl_place f) (post m (fl_mail f)))
  (** the machine stops, between two handlers or at a call of the disk *)
  | fs_crash i l0 acts s' os :
      let e := lp_engine (run acts l0) in
      fl_place f i = Running l0 acts → ss_reboot (rn_store (e_node e)) s' → reboot (rl_disk (e_raftLog e)) os →
      fleet_step f (Stops i) (settle i (Stopped s' (set_disk os (e_raftLog e))) f)
  (** it starts, from its disks *)
  | fs_boot i s rl su now draw l left :
      fl_place f i = Stopped s rl → 0 < i → startup su config i now draw (rl_disk rl) s = (Ok l, left) →
      fleet_step f (Starts i) (settle i (Running l []) f)
  | fs_boot_failed i s rl su now draw er os o os' s' :
      fl_place f i = Stopped s rl → 0 < i → startup su config i now draw (rl_disk rl) s = (Err er, (os, o)) →
      reboot os os' → left_behind s o s' →
      fleet_step f (Fails i) (settle i (Stopped s' (set_disk os' rl)) f).

(** ** Orderly runs

    The limits of Fleet.v on actions; every request is read from one state
    ([torn_round_breaks_log_matching]); and a start recovers the log the server had
    when it stopped, which a crash inside an operation on the disk may prevent
    ([restart_keeps_conflicting_suffix]). *)

Definition recovers (rl : RaftLog) (p : place) : Prop :=
  match p with
  | Stopped _ _ => True
  | Running l _ => log_wf (e_raftLog (lp_engine l)) ∧ same_contents rl (e_raftLog (lp_engine l))
  end.

Definition orderly f (mv : move) f' : Prop :=
  match mv with
  | Acts i cached a => ∀ l0 acts, fl_place f i = Running l0 acts → orderly_action i cached a (run acts l0)
  | Tears _ => False
  | Stops _ | Fails _ => True
  | Starts i => ∀ s rl, fl_place f i = Stopped s rl → recovers rl (fl_place f' i)
  end.

(** What the theorems are about: runs of orderly steps. *)
Definition orderly_step f f' : Prop := ∃ mv, fleet_step f mv f' ∧ orderly f mv f'.

Lemma orderly_act f i l0 acts cached a :
  fl_place f i = Running l0 acts → takes i cached a (run acts l0) (fl_mail f) → orderly_step f (acted i cached a l0 acts f).
Proof.
  intros Hp [Hf Hd Ho]. exists (Acts i cached a). split; [by apply fs_act|].
  intros l1 acts1 Hp1. by assert (Running l1 acts1 = Running l0 acts) as [= -> ->] by congruence.
Qed.

(** A server whose last operation on the WAL had completed starts orderly: it finds on
    its disks the log it had, and the machine of its snapshot. *)
Lemma settled_start f i s rl os su (now draw : Z) (m : MemoryStateMachine) n s' :
  fl_place f i = Stopped s (set_disk os rl) → 0 < i → log_wf rl → settled_wal rl → reboot (rl_disk rl) os → os_faults os = [] →
  st_wal su = rl_walPath rl → st_snapshot su ≠ rl_walPath rl → snapshot_of rl (st_snapshot su) (st_sessionTTL su) (os_fs os) m →
  NewRaftNode i config s Follower now = (Ok n, s') →
  ∃ l, orderly_step f (settle i (Running l []) f) ∧ e_stateMachine (lp_engine l) = m.
Proof.
  intros Hp Hi Hwf Hset Hre Hfaults Hwal Hne Hsnap Hn.
  destruct (settled_restart su config i now draw rl os s s' n m) as (l & left & Hs & Hwf' & Hsame & Hm); [done..|].
  exists l. split; [|done]. exists (Starts i). split; [by eapply fs_boot|].
  intros s1 rl1 Hp1. assert (Stopped s1 rl1 = Stopped s (set_disk os rl)) as [= -> ->] by congruence.
  simpl. rewrite fn_lookup_insert. by split.
Qed.

(** The orderly steps, in the terms of the node and the log. *)
Inductive orderly_cases f : Fleet → Prop :=
  | oc_act i l0 acts cached a :
      fl_place f i = Running l0 acts → takes i cached a (run acts l0) (fl_mail f) →
      orderly_cases f (acted i cached a l0 acts f)
  | oc_crash i l0 acts s' os :
      fl_place f i = Running l0 acts → ss_reboot (rn_store (e_node (lp_engine (run acts l0)))) s' →
      orderly_cases f (settle i (Stopped s' (set_disk os (e_raftLog (lp_engine (run acts l0))))) f)
  | oc_boot i s rl rl' now n s' m path draw :
      fl_place f i = Stopped s rl → 0 < i → NewRaftNode i config s Follower now = (Ok n, s') →
      log_wf rl' → same_contents rl rl' →
      orderly_cases f (settle i (Running
        (start (NewWithTransport (SeedFromSnapshot (rl_lastIncludedIndex rl') n) rl' m path draw)) []) f)
  | oc_fail i s rl s' os :
      fl_place f i = Stopped s rl → 0 < i →
      (s' = s ∨ ∃ now r s1, NewRaftNode i config s Follower now = (r, s1) ∧ ss_reboot s1 s') →
      orderly_cases f (settle i (Stopped s' (set_disk os rl)) f).

Lemma orderly_inv f f' : orderly_step f f' → orderly_cases f f'.
Proof.
  intros (mv & [i l0 acts cached a Hp Hf Hd|i l0 acts cached rd k1 k2 k3 k4 m Hp Hf Hfl Hk seen Ht|i l0 acts s' os e Hp Hs Hr|
    i s rl su now draw l left Hp Hi Hs|i s rl su now draw er os o os' s' Hp Hi Hs Hr Hleft] & Ho); simpl in Ho.
  - apply oc_act; [done|]. split; [done..|]. by apply Ho.
  - done.
  - by apply oc_crash.
  - destruct left as [os o]. destruct (startup_inv _ _ _ _ _ _ _ _ _ _ Hs) as (n & s' & rl' & m & Hn & ->).
    specialize (Ho s rl Hp). rewrite fn_lookup_insert in Ho. destruct Ho as [Hwf Hsame]. by eapply oc_boot.
  - apply oc_fail with (s := s); [done..|].
    destruct (startup_err _ _ _ _ _ _ _ _ _ _ Hs) as [->|(r & s1 & Hn & ->)]; [by left|right]. by exists now, r, s1.
Qed.

(** The servers of RaftSystem.v in a fleet. *)
Definition status_of (p : place) : status :=
  match p with
  | Stopped s _ => Down s
  | Running l0 acts => let e := lp_engine (run acts l0) in Up (mkServer (e_node e) (e_raftLog e) ∅)
  end.

Definition log_at (p : place) : RaftLog :=
  match p with Stopped _ rl => rl | Running l0 acts => e_raftLog (lp_engine (run acts l0)) end.

Definition system_of f : System :=
  let m := fl_mail f in
  mkSystem (mkCluster (λ i, status_of (fl_place f i)) (ml_ballots m) []) (λ i, log_at (fl_place f i))
    (ml_asks m) (ml_appends m) (ml_replies m) (ml_snaps m) (ml_installs m).

(** Nothing has run and nothing was sent. *)
Definition fleet_initial f : Prop := sys_initial (system_of f).

(** ** A fleet runs the system *)

Definition place_rel (i : Z) (p : place) y : Prop :=
  match p with
  | Stopped s rl => cl_status (sy_cluster y) i = Down s ∧ same_contents (sy_wal y i) rl
  | Running l0 acts => at_engine i (lp_engine (run acts l0)) y
  end.

Record sees y f : Prop := {
  se_place : ∀ i, place_rel i (fl_place f i) y;
  se_mail : carries y (fl_mail f);
}.

Lemma system_of_sees f : sees (system_of f) f.
Proof. split; [|by split]. intros i. unfold place_rel. destruct (fl_place f i) eqn:Hp; simpl; [|exists ∅; unfold runs, server_at; simpl]; by rewrite Hp. Qed.

Lemma place_rel_beyond i j p y y' : beyond i y y' → j ≠ i → place_rel j p y → place_rel j p y'.
Proof.
  intros [Hs Hw _ _ _ _ _ _] Hj. destruct p as [s rl|l0 acts]; simpl.
  - by rewrite Hs, Hw.
  - intros [won Hr]. exists won. unfold runs, server_at. by rewrite Hs.
Qed.

(** Server [i] moves, in both. *)
Lemma sees_move i p m y y' f :
  sees y f → beyond i y y' → place_rel i p y' → carries y' m → sees y' (mkFleet (<[i := p]> (fl_place f)) m).
Proof.
  intros [Hp Hm] Hb Hi Hm'. split; [|done]. intros j. simpl. destruct (decide (j = i)) as [->|Hj].
  - by rewrite fn_lookup_insert.
  - rewrite fn_lookup_insert_ne by done. by eapply place_rel_beyond.
Qed.

Lemma run_snoc acts a l : run (acts ++ [a]) l = act a (run acts l).
Proof. unfold run. by rewrite foldl_app. Qed.

(** A system in which [i] has stopped, and no other server has moved. *)
Lemma stopped_beyond i s w y y' :
  (∀ j, cl_status (sy_cluster y') j = if decide (j = i) then Down s else cl_status (sy_cluster y) j) →
  (∀ j, sy_wal y' j = if decide (j = i) then w else sy_wal y j) → cl_ballots (sy_cluster y') = cl_ballots (sy_cluster y) →
  sy_asks y' = sy_asks y → sy_appends y' = sy_appends y → sy_replies y' = sy_replies y → sy_snaps y' = sy_snaps y →
  sy_installs y' = sy_installs y → beyond i y y'.
Proof. intros Hs Hw Hba Ha Hb Hc Hd He. split; rewrite ?Hba, ?Ha, ?Hb, ?Hc, ?Hd, ?He; try done; intros j Hj; [rewrite Hs|rewrite Hw]; by rewrite decide_False. Qed.

(** A server that boots and stops again. *)
Lemma boot_crash_system y i s now n s1 s2 :
  cl_status (sy_cluster y) i = Down s → 0 < i → NewRaftNode i config s Follower now = (Ok n, s1) → ss_reboot s1 s2 →
  log_wf (sy_wal y i) → rn_store n = s1 →
  ∃ y', rtc (sys_step config) y y' ∧ beyond i y y' ∧ cl_status (sy_cluster y') i = Down s2 ∧ sy_wal y' i = sy_wal y i.
Proof.
  intros Hd Hi Hn Hre Hwf Hst. set (n1 := SeedFromSnapshot (rl_lastIncludedIndex (sy_wal y i)) n).
  set (sv := mkServer n1 (sy_wal y i) ∅).
  assert (sys_step config y (put i sv y)) as Hb by (by apply (sys_boot config y i s now n s1)).
  assert (server_at (put i sv y) i sv) as Hat by apply fn_lookup_insert.
  pose proof (sys_crash config (put i sv y) i sv s2 Hat) as Hc. eexists.
  split; [eapply rtc_l; [exact Hb|apply rtc_once, Hc]|]; [simpl; by rewrite Hst|]. simpl. split.
  - eapply (stopped_beyond i s2 (sy_wal y i)); try done; intros j; simpl; case_decide as Hj;
      [subst; by rewrite fn_lookup_insert|by rewrite !fn_lookup_insert_ne|subst; by rewrite fn_lookup_insert|by rewrite fn_lookup_insert_ne].
  - by rewrite !fn_lookup_insert.
Qed.

Lemma orderly_step_system y f f' :
  cluster_inv config (sy_cluster y) → (∀ i s, cl_status (sy_cluster y) i = Down s → log_wf (sy_wal y i)) →
  sees y f → orderly_step f f' → ∃ y', rtc (sys_step config) y y' ∧ sees y' f'.
Proof.
  intros Hc Hwfs Hsees Hs%orderly_inv.
  destruct Hs as [i l0 acts cached a Hp Ha|i l0 acts s' os Hp Hre|i s rl rl' now n s' m path draw Hp Hpos Hn Hwf Hsame|i s rl s2 os Hp Hpos Hleft];
    pose proof (se_place _ _ Hsees i) as Hi; rewrite Hp in Hi; simpl in Hi.
  - destruct Hi as [won Hr]. assert (rn_nodeID (e_node (lp_engine (run acts l0))) = i) as Hid.
    { pose proof (ci_status _ _ Hc i) as Hst. unfold runs, server_at in Hr. rewrite Hr in Hst. apply (so_id _ _ _ _ _ Hst). }
    destruct (act_delivers config i cached a (run acts l0) y won (fl_mail f) Hr Hid) as (y' & w' & Hs & Hb & Hr' & Hm');
      [apply Hsees|done|].
    exists y'. split; [done|]. eapply sees_move; [done|done| |].
    + simpl. rewrite run_snoc. by exists w'.
    + apply carries_post; [done|]. eapply carries_beyond; [done|apply Hsees].
  - destruct Hi as [won Hr]. eexists. split; [apply rtc_once; by apply (sys_crash config y i _ s' Hr)|].
    assert (∀ z, z = with_wal (<[i := e_raftLog (lp_engine (run acts l0))]> (sy_wal y)) (with_cluster (set_down i s' (sy_cluster y)) y) →
      beyond i y z) as Hb.
    { intros z ->. split; try done; intros j Hj; simpl; by rewrite fn_lookup_insert_ne. }
    eapply sees_move; [done|by apply Hb| |eapply carries_beyond; [by apply Hb|apply Hsees]].
    simpl. by rewrite !fn_lookup_insert.
  - destruct Hi as [Hd (Hw1 & Hw2 & Hw3)]. assert (same_contents (sy_wal y i) rl') as Hsame'.
    { destruct Hsame as (? & ? & ?). split_and!; congruence. }
    pose proof (sys_boot config y i s now n s' rl' Hd Hpos Hn Hwf Hsame') as Hs.
    set (sv := mkServer (SeedFromSnapshot (rl_lastIncludedIndex rl') n) rl' ∅) in Hs.
    pose proof (sys_timeout config (put i sv y) i sv electionTimeoutMin (fn_lookup_insert _ _ _)) as Ht.
    exists (put i (Cluster.with_node (SetMinElectionTimeout electionTimeoutMin (sv_node sv)) sv) (put i sv y)).
    assert (beyond i y (put i (Cluster.with_node (SetMinElectionTimeout electionTimeoutMin (sv_node sv)) sv) (put i sv y))) as Hb
      by (etrans; apply beyond_put).
    split; [by eapply rtc_l, rtc_once|]. eapply sees_move; [done|done| |eapply carries_beyond; [done|apply Hsees]].
    exists ∅. apply fn_lookup_insert.
  - destruct Hi as [Hd Hw].
    assert (∃ y', rtc (sys_step config) y y' ∧ beyond i y y' ∧ cl_status (sy_cluster y') i = Down s2 ∧ sy_wal y' i = sy_wal y i)
      as (y' & Hs & Hb & Hd' & Hw').
    { destruct Hleft as [->|(now & r & s1 & Hn & Hre)]; [by exists y|]. destruct r as [n|er].
      - eapply (boot_crash_system y i s now n s1); [done..|by eapply Hwfs|]. by eapply NewRaftNode_store.
      - eexists. split; [apply rtc_once; by eapply (sys_boot_failed config y i s)|]. split; [|split; [apply fn_lookup_insert|done]].
        eapply (stopped_beyond i s2 (sy_wal y i)); try done; intros j; simpl; case_decide as Hj; subst;
          [by rewrite fn_lookup_insert|by rewrite fn_lookup_insert_ne|done|done]. }
    exists y'. split; [done|]. eapply sees_move; [done|done| |eapply carries_beyond; [done|apply Hsees]].
    simpl. by rewrite Hw'.
Qed.

(** Orderly runs of fleets are runs of the system. *)
Lemma orderly_run_system y0 y f f' :
  gm (Voters config) ≠ ∅ → sys_initial y0 → rtc (sys_step config) y0 y → sees y f → rtc orderly_step f f' →
  ∃ y', rtc (sys_step config) y y' ∧ sees y' f'.
Proof.
  intros Hne Hinit Hy Hsees Hf. revert y Hy Hsees. induction Hf as [f|f1 f2 f3 Hs _ IH]; intros y Hy Hsees; [by exists y|].
  assert (cluster_inv config (sy_cluster y)) as Hc.
  { eapply inv_reachable; [done|apply Hinit|by apply sys_rtc_cluster]. }
  destruct (sim_from config Hne y0 y Hinit Hy) as (s & [_ _ Hrel]).
  destruct (orderly_step_system y f1 f2 Hc) as (y2 & Hs2 & Hsees2); [|done..|].
  { intros i st Hd. pose proof (related_down _ _ _ _ Hrel Hd) as Hdown. apply (seg_wf _ _ (down_log _ _ _ _ Hdown)). }
  destruct (IH y2) as (y3 & Hs3 & Hsees3); [by etrans|done|]. exists y3. split; [by etrans|done].
Qed.

(** ** The abstract run a fleet follows *)

(** A state of the abstract machine that [f], reached from [f0], corresponds to. *)
Definition tracks f0 f (s : spec) : Prop :=
  ∃ y, rtc (sys_step config) (system_of f0) y ∧ sees y f ∧ simulated config (system_of f0) y s.

Lemma tracks_initial f0 : gm (Voters config) ≠ ∅ → fleet_initial f0 → tracks f0 f0 spec0.
Proof.
  intros Hne Hi. exists (system_of f0). split_and!; [done|apply system_of_sees|by apply (sim_initial config Hne)].
Qed.

Lemma tracks_run f0 f f' s :
  gm (Voters config) ≠ ∅ → fleet_initial f0 → tracks f0 f s → rtc orderly_step f f' →
  ∃ s', rtc (spec_step (quorum_of config)) s s' ∧ tracks f0 f' s'.
Proof.
  intros Hne Hi (y & Hy & Hsees & Hsim) Hf.
  destruct (orderly_run_system (system_of f0) y f f' Hne Hi Hy Hsees Hf) as (y' & Hy' & Hsees').
  destruct (sim_run config Hne (system_of f0) y s y' Hi Hsim Hy') as (s' & Hs' & Hsim').
  exists s'. split; [done|]. exists y'. split_and!; [by etrans|done|done].
Qed.

Lemma tracks_from f0 f :
  gm (Voters config) ≠ ∅ → fleet_initial f0 → rtc orderly_step f0 f →
  ∃ s, rtc (spec_step (quorum_of config)) spec0 s ∧ tracks f0 f s.
Proof. intros Hne Hi Hf. by apply (tracks_run f0 f0); [done|done|apply tracks_initial|]. Qed.

(** Server [i] runs, and [e] is its engine. *)
Definition engine_at f (i : Z) e : Prop := ∃ l0 acts, fl_place f i = Running l0 acts ∧ e = lp_engine (run acts l0).

Lemma tracks_up f0 f s i e :
  tracks f0 f s → engine_at f i e → ∃ won, up_ok s i (mkServer (e_node e) (e_raftLog e) won).
Proof.
  intros (y & _ & Hsees & [_ _ Hrel]) (l0 & acts & Hp & ->). pose proof (se_place _ _ Hsees i) as Hi. rewrite Hp in Hi.
  destruct Hi as [won Hr]. exists won. by apply (related_up y s i).
Qed.

Lemma tracks_inv f0 f s : tracks f0 f s → raft_inv (quorum := quorum_of config) s.
Proof. by intros (y & _ & _ & [_ Hinv _]). Qed.

(** ** The past of a running server *)

(** A place with no actions behind it. *)
Definition idle (p : place) : Prop :=
  match p with Stopped _ _ => True | Running _ acts => acts = [] end.

(** The step in which a running server took an action of its history, and its life
    since.  [view] is the fleet of a state that may hold more, as those of
    FleetReads.v and FleetReplicas.v do, and [R] its steps. *)
Lemma did {T} (view : T → Fleet) (R : relation T) t0 t i l0 p a q :
  (∀ t t', R t t' → orderly_step (view t) (view t')) → (∀ j, ∃ s rl, fl_place (view t0) j = Stopped s rl) →
  rtc R t0 t → fl_place (view t) i = Running l0 (p ++ a :: q) →
  ∃ t1 t2 cached, rtc R t0 t1 ∧ R t1 t2 ∧ rtc (λ t t', R t t' ∧ ¬ idle (fl_place (view t') i)) t2 t ∧
    fl_place (view t1) i = Running l0 p ∧ takes i cached a (run p l0) (fl_mail (view t1)) ∧
    fl_place (view t2) i = Running l0 (p ++ [a]).
Proof.
  intros HR Hinit Ht. revert q. pattern t. revert t Ht. apply rtc_ind_r.
  { intros q Hp. destruct (Hinit i) as (s & rl & Hi). congruence. }
  intros t1 t2 Ht Hs IH q Hp.
  assert ((∃ q', fl_place (view t1) i = Running l0 (p ++ a :: q')) →
    ∃ t3 t4 c, rtc R t0 t3 ∧ R t3 t4 ∧ rtc (λ t t', R t t' ∧ ¬ idle (fl_place (view t') i)) t4 t2 ∧
      fl_place (view t3) i = Running l0 p ∧ takes i c a (run p l0) (fl_mail (view t3)) ∧
      fl_place (view t4) i = Running l0 (p ++ [a])) as Hearlier.
  { intros [q' Hq']. destruct (IH q' Hq') as (t3 & t4 & c & ? & ? & ? & ? & ? & ?). exists t3, t4, c.
    split_and!; try done. eapply rtc_r; [done|]. split; [done|]. rewrite Hp. simpl. by destruct p. }
  pose proof (HR _ _ Hs) as Hstep. pose proof Hp as Hp2. revert Hp. destruct (view t2) as [pl m] eqn:Ht2.
  apply orderly_inv in Hstep.
  inversion Hstep as [j l1 acts c b Hj Hb Heq|j l1 acts s' os Hj _ Heq|j s rl rl' now n s' m' path draw Hj _ _ _ _ Heq|j s rl s' os Hj _ _ Heq];
    subst pl; simpl;
    (destruct (decide (i = j)) as [<-|Hne]; [rewrite fn_lookup_insert|rewrite fn_lookup_insert_ne by done; by eauto]).
  - intros [= -> Hq]. destruct q as [|b' q _] using rev_ind.
    + apply app_inj_tail in Hq as [-> ->]. exists t1, t2, c. split_and!; try done. by rewrite Ht2.
    + rewrite app_comm_cons, app_assoc in Hq. apply app_inj_tail in Hq as [-> ->]. apply Hearlier. by exists q.
  - done.
  - intros [= _ Hnil]. by destruct p.
  - done.
Qed.

Lemma did_rtc {T} (R : relation T) (P : T → Prop) t t' : rtc (λ t t', R t t' ∧ P t') t t' → rtc R t t'.
Proof. intros Hr. eapply (rtc_congruence id); [|exact Hr]. by intros x y []. Qed.

Lemma fleet_did f0 f i l0 p a q :
  (∀ j, ∃ s rl, fl_place f0 j = Stopped s rl) → rtc orderly_step f0 f → fl_place f i = Running l0 (p ++ a :: q) →
  ∃ f1 f2 cached, rtc orderly_step f0 f1 ∧ orderly_step f1 f2 ∧ rtc orderly_step f2 f ∧
    fl_place f1 i = Running l0 p ∧ takes i cached a (run p l0) (fl_mail f1) ∧ fl_place f2 i = Running l0 (p ++ [a]).
Proof.
  intros Hinit Hf Hp. destruct (did id orderly_step f0 f i l0 p a q) as (f1 & f2 & c & ? & ? & Hl & ? & ? & ?); [done..|].
  exists f1, f2, c. split_and!; try done. exact (did_rtc orderly_step (λ f, ¬ idle (fl_place f i)) _ _ Hl).
Qed.

(** A running server started as a fresh loop. *)
Lemma running_started f0 f i l0 acts :
  (∀ j, ∃ s rl, fl_place f0 j = Stopped s rl) → rtc orderly_step f0 f → fl_place f i = Running l0 acts →
  ∃ n rl m path draw, l0 = start (NewWithTransport n rl m path draw).
Proof.
  intros Hinit Hf. revert acts. pattern f. revert f Hf. apply rtc_ind_r.
  { intros acts Hp. destruct (Hinit i) as (s & rl & Hi). congruence. }
  intros f1 f2 Hf Hs IH acts'.
  apply orderly_inv in Hs.
  destruct Hs as [j l1 acts c b Hj Hb|j l1 acts s' os Hj|j s rl rl' now n s' m path draw Hj|j s rl s' os Hj]; simpl;
    (destruct (decide (i = j)) as [<-|Hne]; [rewrite fn_lookup_insert|rewrite fn_lookup_insert_ne by done; by eauto]); try done.
  - intros [= -> _]. by eapply IH.
  - intros [= <- _]. by eexists _, _, _, _, _.
Qed.

Lemma initial_stopped f0 : fleet_initial f0 → ∀ j, ∃ s rl, fl_place f0 j = Stopped s rl.
Proof.
  intros ((Hst & _) & _) j. destruct (Hst j) as (st & Hj & _). simpl in Hj.
  destruct (fl_place f0 j) as [s rl|l0 acts]; [by exists s, rl|done].
Qed.

(** ** Properties *)

(** C11: an orderly run of a cluster of programs is a run of Raft. Every running
    server has the term, the role and the commit index of the abstract one, and a
    log that ends its log; and the abstract run up to a state of the cluster goes on
    to the abstract run from it. Orderly (FleetSafety.v), and not enforced by the
    programs: handlers, rounds and starts run one at a time; every request is read
    from one state of its sender ([torn_round_breaks_log_matching]); a leader uses
    no reply to a round of another of its leaderships ([stale_reply_loses_write]); a
    batch is written whole or not at all, and an install leaves a well-formed log
    ([ResetToSnapshot_stale_nextIndex]); a shipped snapshot is of applied entries
    its sender's log goes on from; a start recovers the log the server stopped with
    ([settled_start], but [restart_keeps_conflicting_suffix] and WalRaces.v);
    indices and terms fit. *)
Theorem fleet_refines_raft f0 f f' :
  Validate config = None → fleet_initial f0 → rtc orderly_step f0 f → rtc orderly_step f f' →
  let agrees g (s : spec) := ∀ i e, engine_at g i e →
    sp_term s i = rn_term (e_node e) ∧ sp_role s i = rn_Role (e_node e) ∧
    Z.of_nat (sp_commit s i) = rn_CommitIndex (e_node e) ∧ segment (e_raftLog e) (sp_log s i) in
  ∃ s s', spec_reachable (quorum_of config) spec0 s ∧ agrees f s ∧
    rtc (spec_step (quorum_of config)) s s' ∧ agrees f' s'.
Proof.
  intros Hval Hinit Hf Hf' agrees. assert (gm (Voters config) ≠ ∅) as Hne by by apply Validate_voters.
  assert (∀ g s, tracks f0 g s → agrees g s) as Hagrees.
  { intros g s Ht i e He. destruct (tracks_up _ _ _ _ _ Ht He) as [won []]. by split_and!. }
  destruct (tracks_from f0 f Hne Hinit Hf) as (s & Hs & Ht). destruct (tracks_run f0 f f' s Hne Hinit Ht Hf') as (s' & Hs' & Ht').
  exists s, s'. split_and!; [split; [|done]|by apply Hagrees|done|by apply Hagrees].
  by apply (related_initial config Hne (system_of f0)).
Qed.

(** An entry of a log, in the abstract log. *)
Lemma entry_held s i e w k :
  up_ok s i (mkServer (e_node e) (e_raftLog e) w) → rl_lastIncludedIndex (e_raftLog e) < k ≤ Z.of_nat (length (sp_log s i)) →
  GetEntry (e_raftLog e) k = sp_log s i !! Z.to_nat (k - 1).
Proof. intros Hup Hk. exact (up_entry _ _ _ _ Hup Hk). Qed.

Lemma held_entry f0 f s i e k x :
  tracks f0 f s → engine_at f i e → int64 k → GetEntry (e_raftLog e) k = Some x →
  rl_lastIncludedIndex (e_raftLog e) < k ≤ Z.of_nat (length (sp_log s i)) ∧ sp_log s i !! Z.to_nat (k - 1) = Some x.
Proof. intros Ht He Hk Hx. destruct (tracks_up _ _ _ _ _ Ht He) as [w Hup]. exact (entry_in_log _ _ _ _ _ Hup Hk Hx). Qed.

(** C12: Log Matching (section 5.3). In an orderly run of the cluster, if the logs
    of two servers hold entries of one term at one index, they agree on every index
    up to it that both still have: those after what the further compacted of them
    has given up, and they have all of those. Orderly (FleetSafety.v), and not
    enforced by the programs: handlers, rounds and starts run one at a time; every
    request is read from one state of its sender ([torn_round_breaks_log_matching]);
    a leader uses no reply to a round of another of its leaderships
    ([stale_reply_loses_write]); a batch is written whole or not at all, and an
    install leaves a well-formed log ([ResetToSnapshot_stale_nextIndex]); a shipped
    snapshot is of applied entries its sender's log goes on from; a start recovers
    the log the server stopped with ([settled_start], but
    [restart_keeps_conflicting_suffix] and WalRaces.v); indices and terms fit. *)
Theorem log_matching f0 f (i j : Z) e e' (k : Z) (x y : LogEntry) :
  Validate config = None → fleet_initial f0 → rtc orderly_step f0 f →
  engine_at f i e → engine_at f j e' → int64 k →
  GetEntry (e_raftLog e) k = Some x → GetEntry (e_raftLog e') k = Some y → le_Term x = le_Term y →
  ∀ k', rl_lastIncludedIndex (e_raftLog e) < k' ≤ k → rl_lastIncludedIndex (e_raftLog e') < k' →
    GetEntry (e_raftLog e) k' = GetEntry (e_raftLog e') k' ∧ is_Some (GetEntry (e_raftLog e) k').
Proof.
  intros Hval Hinit Hr Hi Hj Hint Hx Hy Ht k' Hk' Hk''. assert (gm (Voters config) ≠ ∅) as Hne by by apply Validate_voters.
  pose proof (quorum_of_Quorums config Hne) as HQ. destruct (tracks_from f0 f Hne Hinit Hr) as (s & _ & Htr).
  destruct (tracks_up _ _ _ _ _ Htr Hi) as [w Hui], (tracks_up _ _ _ _ _ Htr Hj) as [w' Huj].
  destruct (held_entry _ _ _ _ _ _ _ Htr Hi Hint Hx) as [Hki Hli]. destruct (held_entry _ _ _ _ _ _ _ Htr Hj Hint Hy) as [Hkj Hlj].
  pose proof (up_base _ _ _ Hui). simpl in *.
  rewrite (entry_held _ _ _ _ _ Hui), (entry_held _ _ _ _ _ Huj) by lia. split.
  - apply (common_lookup (S (Z.to_nat (k - 1)))); [|lia]. eapply spec_log_matching; [exact (tracks_inv _ _ _ Htr)|done..].
  - apply lookup_lt_is_Some. lia.
Qed.

(** C8: Leader Completeness (section 5.4). In an orderly run of the cluster, an
    entry a server takes to be committed is in the log of every server that leads
    its term or a later one, from then on, unless that leader has it in its
    snapshot. Orderly (FleetSafety.v), and not enforced by the programs: handlers,
    rounds and starts run one at a time; every request is read from one state of its
    sender ([torn_round_breaks_log_matching]); a leader uses no reply to a round of
    another of its leaderships ([stale_reply_loses_write]); a batch is written whole
    or not at all, and an install leaves a well-formed log
    ([ResetToSnapshot_stale_nextIndex]); a shipped snapshot is of applied entries
    its sender's log goes on from; a start recovers the log the server stopped with
    ([settled_start], but [restart_keeps_conflicting_suffix] and WalRaces.v);
    indices and terms fit. *)
Theorem leader_completeness f0 f f' (i j : Z) e e' (k : Z) (x : LogEntry) :
  Validate config = None → fleet_initial f0 → rtc orderly_step f0 f → rtc orderly_step f f' →
  engine_at f i e → k ≤ rn_CommitIndex (e_node e) → int64 k → GetEntry (e_raftLog e) k = Some x →
  engine_at f' j e' → rn_Role (e_node e') = Leader → rn_term (e_node e) ≤ rn_term (e_node e') →
  GetEntry (e_raftLog e') k = Some x ∨ k ≤ rl_lastIncludedIndex (e_raftLog e').
Proof.
  intros Hval Hinit Hr Hr' Hi Hk Hint Hx Hj Hld Ht. assert (gm (Voters config) ≠ ∅) as Hne by by apply Validate_voters.
  pose proof (quorum_of_Quorums config Hne) as HQ. destruct (tracks_from f0 f Hne Hinit Hr) as (s & _ & Htr).
  destruct (tracks_run f0 f f' s Hne Hinit Htr Hr') as (s' & Hs' & Htr').
  destruct (tracks_up _ _ _ _ _ Htr Hi) as [w Hui], (tracks_up _ _ _ _ _ Htr' Hj) as [w' Huj].
  pose proof (tracks_inv _ _ _ Htr) as Hinv. pose proof (tracks_inv _ _ _ Htr') as Hinv'.
  destruct (held_entry _ _ _ _ _ _ _ Htr Hi Hint Hx) as [Hki Hli]. pose proof (up_base _ _ _ Hui) as Hb. simpl in Hb.
  destruct (up_committed config s i _ k Hinv Hui ltac:(simpl; lia)) as [Hc _].
  destruct (raft_server _ Hinv i) as (_ & _ & _ & _ & [Hz|(u & m & o & L & Hu & HL & Hcm & Hcle & Hcom)]); [lia|].
  assert (common (S m) L (sp_log s' j)) as Hj'.
  { eapply (spec_leader_completeness s s'); [done|done|done|done|by rewrite (up_role _ _ _ Huj)|].
    rewrite (up_term _ _ _ Huj). rewrite (up_term _ _ _ Hui) in Hu. simpl in *. lia. }
  assert (S m ≤ length (sp_log s' j))%nat as Hlen by apply Hj'.
  destruct (Z.le_gt_cases k (rl_lastIncludedIndex (e_raftLog e'))); [by right|left].
  rewrite (entry_held _ _ _ _ _ Huj) by lia. rewrite <-Hli.
  rewrite (common_lookup (sp_commit s i) _ _ L Hcom) by lia. symmetry. apply (common_lookup (S m)); [done|lia].
Qed.

(** C5: State Machine Safety (section 5.4.3), across servers and across time. In an
    orderly run of the cluster, once any server has taken an index to be committed,
    every server that ever takes it to be committed, now or after whatever happens
    next, has the same entry there, for as long as the two logs hold it. Orderly
    (FleetSafety.v), and not enforced by the programs: handlers, rounds and starts
    run one at a time; every request is read from one state of its sender
    ([torn_round_breaks_log_matching]); a leader uses no reply to a round of another
    of its leaderships ([stale_reply_loses_write]); a batch is written whole or not
    at all, and an install leaves a well-formed log
    ([ResetToSnapshot_stale_nextIndex]); a shipped snapshot is of applied entries
    its sender's log goes on from; a start recovers the log the server stopped with
    ([settled_start], but [restart_keeps_conflicting_suffix] and WalRaces.v);
    indices and terms fit. *)
Theorem state_machine_safety f0 f f' (i j : Z) e e' (k : Z) :
  Validate config = None → fleet_initial f0 → rtc orderly_step f0 f → rtc orderly_step f f' →
  engine_at f i e → rl_lastIncludedIndex (e_raftLog e) < k ≤ rn_CommitIndex (e_node e) →
  engine_at f' j e' → rl_lastIncludedIndex (e_raftLog e') < k ≤ rn_CommitIndex (e_node e') →
  GetEntry (e_raftLog e') k = GetEntry (e_raftLog e) k ∧ is_Some (GetEntry (e_raftLog e) k).
Proof.
  intros Hval Hinit Hr Hr' Hi Hk Hj Hkj. assert (gm (Voters config) ≠ ∅) as Hne by by apply Validate_voters.
  pose proof (quorum_of_Quorums config Hne) as HQ. destruct (tracks_from f0 f Hne Hinit Hr) as (s & _ & Htr).
  destruct (tracks_run f0 f f' s Hne Hinit Htr Hr') as (s' & Hs' & Htr').
  destruct (tracks_up _ _ _ _ _ Htr Hi) as [w Hui], (tracks_up _ _ _ _ _ Htr' Hj) as [w' Huj].
  pose proof (tracks_inv _ _ _ Htr) as Hinv. pose proof (tracks_inv _ _ _ Htr') as Hinv'.
  pose proof (up_base _ _ _ Hui). pose proof (up_base _ _ _ Huj). simpl in *.
  destruct (up_committed config s i _ k Hinv Hui ltac:(simpl; lia)) as [Hc Hle].
  destruct (up_committed config s' j _ k Hinv' Huj ltac:(simpl; lia)) as [Hc' Hle'].
  rewrite (entry_held _ _ _ _ _ Hui), (entry_held _ _ _ _ _ Huj) by lia.
  destruct (spec_state_machine_safety s s' i j _ Hinv Hs' Hc Hc') as [-> ?]. done.
Qed.

End Fleets.
