(* ===== verification/FleetWrites.v ===== *)
(** * Acknowledged writes survive

    The whole program, end to end: a client whose proposal a server answered nil will
    find its command at the same place in every log from then on, whatever servers
    crash, restart, are elected or compact their logs. *)

From stdpp Require Import functions.
From S2P Require Import Cluster RaftSpec RaftSafety RaftSystem RaftSimulation.
From S2P Require Import Prelude Configuration Os Json Types Encoding RaftLog RaftLogFacts RaftNode RaftNodeFacts StateMachine Snapshot Replicator Engine EngineLoop EngineFacts EngineRun EngineFrame EngineChannels EngineMoves EngineWrites Fleet FleetSafety.

Section Writes.
Context {Store : Type} `{StateStoreLaws Store} `{Codec LogEntry} `{Codec Command}.
Context (config : Configuration).
Implicit Types (e : Engine Store) (l : Loop Store) (f : Fleet (Store := Store)).

(** ** The one write on a channel *)

(** Channel [ch] waits for nothing but index [i] in term [t]. *)
Definition one_write (ch : nat) (t i : Z) l : Prop :=
  let e := lp_engine l in
  (∀ w, w ∈ e_waiters e → w_resultCh w = ch → w_index w = i ∧ w_term w = t) ∧
  (∀ w, w ∈ e_applyWaiters e → aw_resultCh w ≠ ch).

(** The state a nil is sent in. *)
Definition granted (t i : Z) (r : reply) e e' : Prop :=
  r = RErr None → rn_term (e_node e') = t ∧ i ≤ rn_CommitIndex (e_node e').

Lemma act_one_write ch t i a l :
  ch ∈ lp_asked l → NoDup (lp_asked (act a l)) → one_write ch t i l →
  one_write ch t i (act a l) ∧ ∀ r, (ch, r) ∈ e_sent (lp_engine (act a l)) →
    (ch, r) ∈ e_sent (lp_engine l) ∨ granted t i r (lp_engine l) (lp_engine (act a l)).
Proof.
  intros Hin Hnd (Hone & Hnone). destruct (act_exchange a l) as [_ Ha]. rewrite Ha in Hnd.
  apply NoDup_app in Hnd as (_ & Hdis & _).
  destruct (act_grants a l) as (new & newA & (Hwait & Happly & Hsent) & Hnew & HnewA).
  assert (∀ w, w ∈ newA ++ e_applyWaiters (lp_engine l) → aw_resultCh w ≠ ch) as HnoneA.
  { intros w [Hx%HnewA|Hx]%elem_of_app Hc; [|by apply (Hnone w)]. rewrite Hc in Hx. by apply (Hdis ch). }
  split; [split|].
  - intros w Hx%Hwait Hc. apply elem_of_app in Hx as [Hx%Hnew|Hx]; [|by apply Hone].
    rewrite Hc in Hx. by destruct (Hdis ch).
  - intros w Hx%Happly. by apply HnoneA.
  - intros r Hx. destruct (decide ((ch, r) ∈ e_sent (lp_engine l))) as [|Hn]; [by left|right].
    intros ->. apply Hsent in Hx as [?|[(Hl & Ht & w & Hx & Hc & Hwt & Hi)|(w & Hx & Hc & _)]];
      [done| |by destruct (HnoneA w Hx)].
    destruct (Hone w Hx Hc) as [<- <-]. split; [congruence|done].
Qed.

(** A nil on the channel, traced to the action that sent it. *)
Lemma nil_granted ch t i after l :
  ch ∈ lp_asked l → NoDup (lp_asked (run after l)) → one_write ch t i l →
  (ch, RErr None) ∉ e_sent (lp_engine l) → (ch, RErr None) ∈ e_sent (lp_engine (run after l)) →
  ∃ acts1 a acts2, after = acts1 ++ a :: acts2 ∧
    let e := lp_engine (run (acts1 ++ [a]) l) in rn_term (e_node e) = t ∧ i ≤ rn_CommitIndex (e_node e).
Proof.
  intros Hin Hnd Hone Hns Hs.
  destruct (run_watch (λ _ _, True) ch (one_write ch t i) (granted t i) (λ a l _, act_one_write ch t i a l) after l)
    as [_ Hw]; [done..|]. destruct (Hw _ Hs) as [?|(acts1 & a & acts2 & -> & Hg)]; [done|].
  exists acts1, a, acts2. split; [done|]. rewrite run_snoc. by apply Hg.
Qed.

(** ** The leader's entry *)

(** The entry a leader has in its log is in the abstract log of its term. *)
Lemma leaders_entry f0 f s i e k x :
  tracks config f0 f s → engine_at f i e → rn_Role (e_node e) = Leader → int64 k → GetEntry (e_raftLog e) k = Some x →
  0 < k ∧ ∃ L, sp_leader s (rn_term (e_node e)) = Some (i, L) ∧ L !! Z.to_nat (k - 1) = Some x.
Proof.
  intros Ht He Hl Hk Hx. destruct (tracks_up config _ _ _ _ _ Ht He) as [won Hup].
  destruct (entry_in_log _ _ _ _ _ Hup Hk Hx) as [Hrange Hlog]. pose proof (up_base _ _ _ Hup). simpl in *.
  split; [lia|]. exists (sp_log s i). split; [|done].
  destruct (raft_server _ (tracks_inv config _ _ _ Ht) i) as (_ & _ & _ & Hld & _).
  pose proof (up_term _ _ _ Hup) as Hti. simpl in Hti. rewrite <-Hti. apply Hld. by rewrite (up_role _ _ _ Hup).
Qed.

(** Once a server in term [t] takes index [k] to be committed, it is what the leader of
    [t] has there; and it is in every log that is committed that far and with every
    leader from then on. *)
Lemma committed_forever f0 f f' s t k o L x i j e e' :
  gm (Voters config) ≠ ∅ → fleet_initial f0 → tracks config f0 f s → rtc (orderly_step config) f f' →
  0 < k → sp_leader s t = Some (o, L) → L !! Z.to_nat (k - 1) = Some x →
  engine_at f i e → rn_term (e_node e) = t → k ≤ rn_CommitIndex (e_node e) →
  engine_at f' j e' →
  k ≤ rn_CommitIndex (e_node e') ∨ rn_Role (e_node e') = Leader ∧ t ≤ rn_term (e_node e') →
  GetEntry (e_raftLog e') k = Some x ∨ k ≤ rl_lastIncludedIndex (e_raftLog e').
Proof.
  intros Hne Hinit Htr Hf Hk HL Hx He Ht Hc He' Hcase. pose proof (quorum_of_Quorums config Hne) as HQ.
  destruct (tracks_run config f0 f f' s Hne Hinit Htr Hf) as (s' & Hs' & Htr').
  pose proof (tracks_inv config _ _ _ Htr) as Hinv. pose proof (tracks_inv config _ _ _ Htr') as Hinv'.
  destruct (tracks_up config _ _ _ _ _ Htr He) as [won Hup]. destruct (tracks_up config _ _ _ _ _ Htr' He') as [won' Hup'].
  pose proof (up_committed config s i _ k Hinv Hup ltac:(simpl; lia)) as [Hc' _].
  destruct (raft_server _ Hinv i) as (_ & _ & _ & _ & Hcov).
  pose proof (up_term _ _ _ Hup) as Hti. simpl in Hti. rewrite Hti, Ht in Hcov.
  pose proof (covered_in_leader s t t _ _ _ _ Hinv ltac:(lia) HL Hcov) as Hcom.
  assert (sp_log s i !! Z.to_nat (k - 1) = Some x) as Hxi by by rewrite (common_lookup (sp_commit s i) _ _ L Hcom).
  destruct (Z.le_gt_cases k (rl_lastIncludedIndex (e_raftLog e'))); [by right|left].
  assert (sp_log s' j !! Z.to_nat (k - 1) = Some x) as Hxj.
  { destruct Hcase as [Hcj|[Hld Htj]].
    - pose proof (up_committed config s' j _ k Hinv' Hup' ltac:(simpl; lia)) as [Hcj' _].
      destruct (spec_state_machine_safety s s' i j _ Hinv Hs' Hc' Hcj') as [<- _]. done.
    - destruct Hcov as [?|(u & m & ou & Lu & Hu & HLu & Hm & Hle & Hcu)]; [lia|].
      assert (common (S m) Lu (sp_log s' j)) as Hj.
      { eapply (spec_leader_completeness s s'); [done|done|done|done|by rewrite (up_role _ _ _ Hup')|].
        rewrite (up_term _ _ _ Hup'). simpl. lia. }
      rewrite <-(common_lookup (S m) _ _ _ Hj) by lia. by rewrite <-(common_lookup (sp_commit s i) _ _ _ Hcu) by lia. }
  pose proof (lookup_lt_Some _ _ _ Hxj). rewrite <-Hxj.
  apply (up_entry s' j (mkServer (e_node e') (e_raftLog e') won')); [done|simpl; lia].
Qed.

(** ** The theorem *)

(** What a proposal leaves pending on its channel: the entry it appended, or nothing
    that could be answered nil. *)
Lemma proposal_pending cmd ch now d d' l :
  let ask := Select (Propose cmd ch) now d d' in
  let e := lp_engine l in
  let e1 := lp_engine (act ask l) in
  let entry := mkLogEntry (rl_nextIndex (e_raftLog e)) (rn_term (e_node e))
    (Marshal (mkCommand (cmd_Op cmd) (cmd_Key cmd) (cmd_Value cmd) (cmd_ClientID cmd) (cmd_Seq cmd) now)) in
  log_wf (e_raftLog e) → rl_nextIndex (e_raftLog e) < MaxInt64 → e_fatal e = None → lp_stopped l = false →
  accounted l → NoDup (lp_asked (act ask l)) →
  ch ∈ lp_asked (act ask l) ∧ ¬ (ch, RErr None) ∈ e_sent e1 ∧
  (one_write ch (-1) 0 (act ask l) ∨
   one_write ch (le_Term entry) (le_Index entry) (act ask l) ∧
     rn_Role (e_node e1) = Leader ∧ rn_term (e_node e1) = le_Term entry ∧ entry_at (e_raftLog e1) (le_Index entry) = Some entry).
Proof.
  intros ask e e1 entry Hwf Hroom Hfatal Hrun Hacc Hnd.
  destruct (request_fresh (Propose cmd ch) now d d' ch _ l Hacc Hrun Hfatal eq_refl Hnd) as (_ & Hin & Hnew).
  apply fresh_requests in Hnew as (Hnw & _ & Hna & Hns).
  assert (e1 = handleProposal cmd ch now e) as He1.
  { unfold e1, act, ask. fold e. rewrite Hfatal, Hrun. cbv iota.
    by rewrite bool_decide_false by (intros Hn; by apply Hn). }
  destruct (proposal_appended cmd ch now e Hwf Hroom) as (Ha & Hn & Hs & Hcase).
  fold entry in Hcase. rewrite <-He1 in Ha, Hn, Hs, Hcase. unfold one_write. fold e1.
  split_and!; [done|by intros Hx%Hs; apply (Hns (RErr None))|]. rewrite Ha, Hn.
  destruct Hcase as [->|(Hld & Hat & ->)]; [left|right]; (split; [|done]).
  - intros w Hx Hc. by destruct (Hnw w Hx).
  - split; [|done]. intros w [Hx|Hx]%elem_of_app Hc; [by destruct (Hnw w Hx)|].
    by apply list_elem_of_singleton in Hx as ->.
Qed.

(** The states of the cluster right after the proposal and right after a later action
    of the same server. *)
Lemma two_moments {T} (view : T → Fleet (Store := Store)) (R : relation T) t0 t i l0 before ask acts1 a acts2 :
  (∀ t t', R t t' → orderly_step config (view t) (view t')) → fleet_initial (view t0) → rtc R t0 t →
  fl_place (view t) i = Running l0 (before ++ ask :: acts1 ++ a :: acts2) →
  let l1 := act ask (run before l0) in
  ∃ t2 t4, rtc R t0 t2 ∧ rtc R t2 t4 ∧ rtc R t4 t ∧
    engine_at (view t2) i (lp_engine l1) ∧ engine_at (view t4) i (lp_engine (run (acts1 ++ [a]) l1)).
Proof.
  intros HR Hinit Ht Hp l1. pose proof (initial_stopped _ Hinit) as Hstop.
  assert (∀ q, run (before ++ ask :: q) l0 = run q l1) as Hrun by (intros q; unfold run; by rewrite foldl_app).
  rewrite app_comm_cons, app_assoc in Hp.
  destruct (did config view R t0 t i l0 _ a acts2 HR Hstop Ht Hp) as (t3 & t4 & c4 & Ht3 & Hs4 & Ht4%did_rtc & _ & _ & Hp4).
  rewrite <-app_assoc, <-app_comm_cons in Hp4. assert (rtc R t0 t4) as Ht04 by by eapply rtc_r.
  destruct (did config view R t0 t4 i l0 before ask _ HR Hstop Ht04 Hp4) as (t1 & t2 & c & ? & ? & Ht2%did_rtc & _ & _ & Hp2).
  exists t2, t4. split_and!; [by eapply rtc_r|done|done| |]; (eexists l0, _; split; [eassumption|by rewrite Hrun]).
Qed.

(** The entry a proposal makes. *)
Definition proposed (cmd : Command) (now : Z) e : LogEntry :=
  mkLogEntry (rl_nextIndex (e_raftLog e)) (rn_term (e_node e))
    (Marshal (mkCommand (cmd_Op cmd) (cmd_Key cmd) (cmd_Value cmd) (cmd_ClientID cmd) (cmd_Seq cmd) now)).

(** A proposal answered nil was committed by its server at some moment before: at one
    moment the server led the entry's term and had it in its log, and at a later one,
    in that term, it had committed that far. *)
Lemma acknowledged_moments {T} (view : T → Fleet (Store := Store)) (R : relation T) t0 t (i : Z) l0
    (before after : list action) (cmd : Command) (ch : nat) (now d d' : Z) :
  let ask := Select (Propose cmd ch) now d d' in
  let l := run (before ++ ask :: after) l0 in
  let entry := proposed cmd now (lp_engine (run before l0)) in
  (∀ t t', R t t' → orderly_step config (view t) (view t')) → gm (Voters config) ≠ ∅ → fleet_initial (view t0) → rtc R t0 t →
  fl_place (view t) i = Running l0 (before ++ ask :: after) → lp_stopped (run before l0) = false →
  NoDup (lp_asked l) → (ch, RErr None) ∈ e_sent (lp_engine l) →
  ∃ t2 t4 e2 e4, rtc R t0 t2 ∧ rtc R t2 t4 ∧ rtc R t4 t ∧
    engine_at (view t2) i e2 ∧ rn_Role (e_node e2) = Leader ∧ rn_term (e_node e2) = le_Term entry ∧
    int64 (le_Index entry) ∧ GetEntry (e_raftLog e2) (le_Index entry) = Some entry ∧
    engine_at (view t4) i e4 ∧ rn_term (e_node e4) = le_Term entry ∧ le_Index entry ≤ rn_CommitIndex (e_node e4).
Proof.
  intros ask l entry HR Hne Hinit Ht Hp Hrun Hnd Hnil.
  assert (∀ t t', rtc R t t' → rtc (orderly_step config) (view t) (view t')) as HRs
    by (intros t1 t2; apply rtc_congruence; exact HR).
  pose proof (initial_stopped _ Hinit) as Hstop. set (e0 := lp_engine (run before l0)). set (l1 := act ask (run before l0)).
  assert (l = run after l1) as Hl by (unfold l, run; by rewrite foldl_app). rewrite Hl in Hnd, Hnil.
  destruct (did config view R t0 t i l0 before ask after HR Hstop Ht Hp) as (t1 & _ & c & Ht1%HRs & _ & _ & Hp1 & [Hfatal _ ((Hroom & _) & _)] & _).
  destruct (tracks_from config (view t0) (view t1) Hne Hinit Ht1) as (s1 & _ & Htr1).
  destruct (tracks_up config _ (view t1) s1 i e0 Htr1) as [won Hup]; [by exists l0, before|].
  pose proof (seg_wf _ _ (up_log _ _ _ Hup)) as Hwf.
  destruct (running_started config _ (view t1) i l0 before Hstop Ht1 Hp1) as (n & rl & m & path & draw & Hstart).
  destruct (proposal_pending cmd ch now d d' (run before l0)) as (Hin & Hns & Hpend);
    [exact Hwf|done|done|done|rewrite Hstart; apply run_accounted, start_accounted|by eapply run_NoDup|].
  fold e0 ask l1 in Hin, Hns, Hpend. fold (proposed cmd now e0) in Hpend. fold entry in Hpend.
  destruct Hpend as [Hone|(Hone & Hld & Htm & Hat)];
    destruct (nil_granted _ _ _ _ _ Hin Hnd Hone Hns Hnil) as (acts1 & a & acts2 & -> & Hterm & Hci);
    destruct (two_moments view R t0 t i l0 before ask acts1 a acts2 HR Hinit Ht Hp) as (t2 & t4 & Ht2 & Ht24 & Ht4 & He2 & He4);
    fold l1 in He2, He4.
  { destruct (tracks_from config (view t0) (view t4) Hne Hinit) as (s4 & _ & Htr4); [apply HRs; by etrans|].
    destruct (tracks_up config _ _ _ _ _ Htr4 He4) as [w [_ Hpos _ _ _ _ _]]. simpl in Hpos. lia. }
  exists t2, t4, (lp_engine l1), (lp_engine (run (acts1 ++ [a]) l1)).
  assert (int64 (le_Index entry)) as Hidx.
  { pose proof (seg_first _ _ (up_log _ _ _ Hup)) as Hfi. destruct Hwf as [_ Hnext].
    change (int64 (rl_nextIndex (e_raftLog e0))). fold e0 in Hroom. cbn [sv_log] in *. unfold cache_len in Hnext.
    unfold int64. lia. }
  destruct (tracks_from config (view t0) (view t2) Hne Hinit (HRs _ _ Ht2)) as (s2 & _ & Htr2).
  destruct (tracks_up config _ _ s2 i _ Htr2 He2) as [won2 Hup2]. split_and!; try done.
  unfold GetEntry. by rewrite getEntryLocked_spec by (done || apply (seg_wf _ _ (up_log _ _ _ Hup2))).
Qed.

(** There is a leader's log of the entry's term with the entry in it. *)
Lemma acknowledged_committed f0 f (i : Z) l0 (before after : list action) (cmd : Command) (ch : nat) (now d d' : Z) :
  let ask := Select (Propose cmd ch) now d d' in
  let l := run (before ++ ask :: after) l0 in
  let entry := proposed cmd now (lp_engine (run before l0)) in
  gm (Voters config) ≠ ∅ → fleet_initial f0 → rtc (orderly_step config) f0 f →
  fl_place f i = Running l0 (before ++ ask :: after) → lp_stopped (run before l0) = false →
  NoDup (lp_asked l) → (ch, RErr None) ∈ e_sent (lp_engine l) →
  ∃ g s e o L, rtc (orderly_step config) f0 g ∧ rtc (orderly_step config) g f ∧ tracks config f0 g s ∧
    engine_at g i e ∧ rn_term (e_node e) = le_Term entry ∧ le_Index entry ≤ rn_CommitIndex (e_node e) ∧
    0 < le_Index entry ∧ sp_leader s (le_Term entry) = Some (o, L) ∧ L !! Z.to_nat (le_Index entry - 1) = Some entry.
Proof.
  intros ask l entry Hne Hinit Hf Hp Hrun Hnd Hnil.
  destruct (acknowledged_moments id (orderly_step config) f0 f i l0 before after cmd ch now d d')
    as (g2 & g4 & e2 & e4 & Hg2 & Hg24 & Hg4 & He2 & Hld & Htm & Hidx & Hx & He4 & Ht & Hc); [done..|]. fold entry in Htm, Hidx, Hx, Ht, Hc.
  destruct (tracks_from config f0 g2 Hne Hinit Hg2) as (s2 & _ & Htr2).
  destruct (tracks_run config f0 g2 g4 s2 Hne Hinit Htr2 Hg24) as (s4 & Hs4 & Htr4).
  destruct (leaders_entry f0 g2 s2 i e2 (le_Index entry) entry Htr2 He2 Hld Hidx Hx) as (Hpos & L & HL & HLx).
  rewrite Htm in HL. pose proof (quorum_of_Quorums config Hne) as HQ.
  destruct (advances_rtc s2 s4 (tracks_inv config _ _ _ Htr2) Hs4) as [Hgrow _].
  destruct (grows_leader _ _ Hgrow _ _ _ HL) as (L4 & HL4 & Hpre).
  exists g4, s4, e4, i, L4. split_and!; try done; [by etrans|by eapply prefix_lookup_Some].
Qed.

(** C1: an acknowledged write is never lost, in an orderly run of the cluster. If
    the loop of a server has answered a proposal nil, at any time since it started,
    then it appended the command, stamped with its clock, to its log in its term;
    and in every state the cluster reaches by orderly steps from then on, every
    server that has committed that far and every leader of that term or a later one
    holds exactly that entry there, or has it in its snapshot. Orderly
    (FleetSafety.v), and not enforced by the programs: handlers, rounds and starts
    run one at a time; every request is read from one state of its sender
    ([torn_round_breaks_log_matching]); a leader uses no reply to a round of another
    of its leaderships ([stale_reply_loses_write]); a batch is written whole or not
    at all, and an install leaves a well-formed log
    ([ResetToSnapshot_stale_nextIndex]); a shipped snapshot is of applied entries
    its sender's log goes on from; a start recovers the log the server stopped with
    ([settled_start], but [restart_keeps_conflicting_suffix] and WalRaces.v);
    indices and terms fit. *)
Theorem acknowledged_write_survives f0 f (i : Z) l0 (before after : list action) (cmd : Command) (ch : nat) (now d d' : Z) :
  let ask := Select (Propose cmd ch) now d d' in
  let l := run (before ++ ask :: after) l0 in
  Validate config = None → fleet_initial f0 → rtc (orderly_step config) f0 f →
  fl_place f i = Running l0 (before ++ ask :: after) → lp_stopped (run before l0) = false →
  NoDup (lp_asked l) → (ch, RErr None) ∈ e_sent (lp_engine l) →
  let e0 := lp_engine (run before l0) in
  ∃ data, EncodeCommand (mkCommand (cmd_Op cmd) (cmd_Key cmd) (cmd_Value cmd) (cmd_ClientID cmd) (cmd_Seq cmd) now)
      = Ok data ∧
    let entry := mkLogEntry (rl_nextIndex (e_raftLog e0)) (rn_term (e_node e0)) data in
    ∀ f' j e', rtc (orderly_step config) f f' → engine_at f' j e' →
      le_Index entry ≤ rn_CommitIndex (e_node e') ∨ rn_Role (e_node e') = Leader ∧ le_Term entry ≤ rn_term (e_node e') →
      GetEntry (e_raftLog e') (le_Index entry) = Some entry ∨ le_Index entry ≤ rl_lastIncludedIndex (e_raftLog e').
Proof.
  intros ask l Hval Hinit Hf Hp Hrun Hnd Hnil e0. eexists. split; [reflexivity|]. intros entry f' j e' Hf' He' Hcase.
  assert (gm (Voters config) ≠ ∅) as Hne by by apply Validate_voters.
  destruct (acknowledged_committed f0 f i l0 before after cmd ch now d d' Hne Hinit Hf Hp Hrun Hnd Hnil)
    as (g & s & e & o & L & Hg & Hgf & Htr & He & Ht & Hc & Hpos & HL & Hx).
  by eapply (committed_forever f0 g f' s); [..|by etrans| | | | | | | |].
Qed.

End Writes.
