(* ===== verification/FleetReads.v ===== *)
(** * Reads see what was committed

    Linearizable reads across the cluster: an index that a leader's loop answers a
    read with is at or beyond everything any server had committed, and every write
    any server had acknowledged, when the read came in.

    The promise rests on one fact about the transport that the mail of Fleet.v does
    not have: a round is a call, and the reply it ends with was made after the call
    was.  [Timed] pairs a fleet with the moment each round in flight began, and its
    steps end a round only with a reply sent since. *)

From stdpp Require Import functions.
From S2P Require Import Cluster RaftSpec RaftSafety RaftReads RaftSystem RaftSimulation.
From S2P Require Import Prelude Configuration Os Json Types Encoding RaftLog RaftLogFacts RaftNode RaftNodeFacts StateMachine Snapshot Replicator Engine EngineLoop EngineFacts EngineRun EngineFrame EngineChannels EngineMoves EngineBounds EngineReads EngineWrites EngineFloor Fleet FleetSafety FleetWrites.

Section Reads.
Context {Store : Type} `{StateStoreLaws Store} `{Codec LogEntry} `{Codec Command}.
Context (config : Configuration).
Implicit Types (e : Engine Store) (l : Loop Store) (f : Fleet (Store := Store)).

(** ** Rounds are calls *)

(** [x] was sent between [old] and [new]: mail grows at the front. *)
Definition since_then {A} (old new : list A) (x : A) : Prop := ∃ late, new = late ++ old ∧ x ∈ late.

(** The rounds an action begins, with the mail there was. *)
Definition begins (a : action) l (m : Mail) : list (round * Mail) :=
  map (λ rd, (rd, m)) (filter (λ rd, rd ∉ lp_flight l) (lp_flight (act a l))).

(** The reply a round ends with was sent since the round began. *)
Definition prompt (begun : list (round * Mail)) (a : action) (m : Mail) : Prop :=
  match a with
  | RoundEnd rd (AppendReply u (Some resp)) =>
      ∃ m0, (rd, m0) ∈ begun ∧ since_then (ml_replies m0) (ml_replies m) (rd_peer rd, u, resp)
  | RoundEnd rd (SnapshotReply u k (Some resp)) =>
      ∃ m0, (rd, m0) ∈ begun ∧ since_then (ml_installs m0) (ml_installs m) (rd_peer rd, u, k, resp)
  | _ => True
  end.

Record Timed := mkTimed { td_fleet : Fleet (Store := Store); td_begun : Z → list (round * Mail) }.
Implicit Types t : Timed.

Inductive timed_step t : Timed → Prop :=
  | ts_act i l0 acts cached a :
      fl_place (td_fleet t) i = Running l0 acts → takes i cached a (run acts l0) (fl_mail (td_fleet t)) →
      prompt (td_begun t i) a (fl_mail (td_fleet t)) →
      timed_step t (mkTimed (acted i cached a l0 acts (td_fleet t))
        (<[i := begins a (run acts l0) (fl_mail (td_fleet t)) ++ td_begun t i]> (td_begun t)))
  (** a server stops or starts *)
  | ts_other i p :
      orderly_step config (td_fleet t) (settle i p (td_fleet t)) → idle p →
      timed_step t (mkTimed (settle i p (td_fleet t)) (<[i := []]> (td_begun t))).

Definition timed_initial t : Prop := fleet_initial (td_fleet t) ∧ ∀ i, td_begun t i = [].

Lemma timed_step_fleet t t' : timed_step t t' → orderly_step config (td_fleet t) (td_fleet t').
Proof. intros [i l0 acts cached a Hp Ha _|i p Hs _]; [by apply orderly_act|done]. Qed.

Lemma timed_fleet t t' : rtc timed_step t t' → rtc (orderly_step config) (td_fleet t) (td_fleet t').
Proof. induction 1 as [|t1 t2 t3 Hs _ IH]; [done|]. eapply rtc_l; [by apply timed_step_fleet|done]. Qed.

(** ** Runs within limits *)

(** The limits every action of a fleet is within. *)
Definition fleet_limits : limits Store :=
  mkLimits (λ _, True) (λ _ _ _, True) (λ _ _ _ _ _, True) (λ _, True) (λ u, int64 u ∧ u < MaxInt64).

Lemma fleet_limits_campaign : campaign_limits fleet_limits.
Proof. by intros u. Qed.

Lemma fleet_within f0 f i l0 acts acts' :
  (∀ j, ∃ s rl, fl_place f0 j = Stopped s rl) → rtc (orderly_step config) f0 f → fl_place f i = Running l0 (acts ++ acts') →
  run_within fleet_limits acts l0.
Proof.
  intros Hinit Hf. revert acts'. induction acts as [|a acts IH] using rev_ind; intros acts' Hp; [done|].
  rewrite <-app_assoc in Hp. apply run_within_app. split; [by eapply IH|].
  destruct (fleet_did config f0 f i l0 acts a acts' Hinit Hf Hp) as (f1 & f2 & c & _ & _ & _ & _ & [_ _ ((_ & Hi & Hm) & _)] & _).
  split; [|done]. destruct a as [ev now d d'| | | | |rd [u [resp|]|u k resp]]; done.
Qed.

(** ** The invariant of the floor *)

(** A leader's no-op is where it says, unless its append failed. *)
Definition floored f (s : spec) : Prop := ∀ i e,
  engine_at f i e → rn_Role (e_node e) = Leader → e_noopIndex e = 0 ∨
  0 < e_noopIndex e ∧ ∃ x, sp_log s i !! Z.to_nat (e_noopIndex e - 1) = Some x ∧ le_Term x = rn_term (e_node e).

(** A leader that still leads its term has in its log what it had. *)
Lemma leader_keeps s s' i k x :
  raft_inv (quorum := quorum_of config) s → raft_inv (quorum := quorum_of config) s' → grows s s' →
  sp_role s i = Leader → sp_role s' i = Leader → sp_term s' i = sp_term s i →
  sp_log s i !! k = Some x → sp_log s' i !! k = Some x.
Proof.
  intros Hi Hi' Hg Hr Hr' Ht Hk.
  destruct (raft_server _ Hi i) as (_ & _ & _ & Hl & _), (raft_server _ Hi' i) as (_ & _ & _ & Hl' & _).
  specialize (Hl Hr). specialize (Hl' Hr'). destruct (grows_leader _ _ Hg _ _ _ Hl) as (L & HL & Hp).
  rewrite Ht, HL in Hl'. injection Hl' as ->. by eapply prefix_lookup_Some.
Qed.

Lemma up_int64 s i e won : up_ok s i (mkServer (e_node e) (e_raftLog e) won) → raft_inv (quorum := quorum_of config) s →
  int64 (rn_LastApplied (e_node e)) ∧ rn_CommitIndex (e_node e) < rl_nextIndex (e_raftLog e) ∧
  0 < rl_nextIndex (e_raftLog e) ∧ Z.of_nat (length (sp_log s i)) + 1 = rl_nextIndex (e_raftLog e).
Proof.
  intros Hup Hi. pose proof (up_base _ _ _ Hup) as Hb. pose proof (up_applied _ _ _ Hup) as Ha.
  pose proof (committed_length config s Hi i) as Hc. pose proof (up_commit _ _ _ Hup) as Hci.
  pose proof (seg_bound _ _ (up_log _ _ _ Hup)). pose proof (seg_first _ _ (up_log _ _ _ Hup)) as Hf.
  pose proof (seg_len _ _ (up_log _ _ _ Hup)) as Hlen. pose proof (seg_wf _ _ (up_log _ _ _ Hup)) as [_ Hn].
  unfold int64. simpl in *. unfold cache_len in *. split_and!; lia.
Qed.

(** Where the engine after a step comes from. *)
Lemma fleet_step_engine f f' j e' :
  orderly_step config f f' → engine_at f' j e' →
  engine_at f j e' ∨
  (∃ l0 acts c a, fl_place f j = Running l0 acts ∧ takes j c a (run acts l0) (fl_mail f) ∧
     e' = lp_engine (act a (run acts l0))) ∨
  rn_Role (e_node e') ≠ Leader.
Proof.
  intros Hs (l0' & acts' & Hp' & ->).
  apply orderly_inv in Hs.
  destruct Hs as [i l1 acts c a Hp Ha|i l1 acts s' os Hp|i s rl rl' now n s' m path draw Hp Hpos Hn|i s rl s' os Hp]; simpl in Hp';
    (destruct (decide (j = i)) as [->|Hne];
      [rewrite fn_lookup_insert in Hp'|rewrite fn_lookup_insert_ne in Hp' by done; left; by exists l0', acts']); try done.
  - injection Hp' as <- <-. right. left. exists l1, acts, c, a. by rewrite run_snoc.
  - injection Hp' as <- <-. right. right. simpl.
    assert (rn_Role n = Follower) as Hr; [|by rewrite Hr].
    unfold NewRaftNode, loadPersistentState in Hn. by repeat (case_match; simplify_eq/=).
Qed.

Lemma floored_step f0 f f' s :
  gm (Voters config) ≠ ∅ → fleet_initial f0 → tracks config f0 f s → floored f s → orderly_step config f f' →
  ∃ s', rtc (spec_step (quorum_of config)) s s' ∧ tracks config f0 f' s' ∧ floored f' s'.
Proof.
  intros Hne Hinit Ht Hfl Hs. pose proof (quorum_of_Quorums config Hne) as HQ.
  destruct (tracks_run config f0 f f' s Hne Hinit Ht (rtc_once _ _ Hs)) as (s' & Hss & Ht'). exists s'. split_and!; [done..|].
  pose proof (tracks_inv config _ _ _ Ht) as Hi. pose proof (tracks_inv config _ _ _ Ht') as Hi'.
  destruct (advances_rtc s s' Hi Hss) as [Hg _].
  assert (∀ j e e' k x, engine_at f j e → engine_at f' j e' → rn_Role (e_node e) = Leader → rn_Role (e_node e') = Leader →
    rn_term (e_node e') = rn_term (e_node e) → sp_log s j !! k = Some x → sp_log s' j !! k = Some x) as Hkeep.
  { intros j e e' k x He He' Hr Hr' Hterm. destruct (tracks_up config _ _ _ _ _ Ht He) as [w Hup], (tracks_up config _ _ _ _ _ Ht' He') as [w' Hup'].
    pose proof (up_role _ _ _ Hup). pose proof (up_role _ _ _ Hup'). pose proof (up_term _ _ _ Hup). pose proof (up_term _ _ _ Hup').
    simpl in *. by apply leader_keeps; congruence || lia. }
  intros j e' He' Hld. destruct (fleet_step_engine f f' j e' Hs He') as [He|[(l0 & acts & c & a & Hp & Ha & ->)|?]]; [| |done].
  - destruct (Hfl j e' He Hld) as [|(? & x & Hx & ?)]; [by left|right]. split; [done|]. exists x. split; [by eapply Hkeep|done].
  - set (e := lp_engine (run acts l0)) in *. assert (engine_at f j e) as He by by exists l0, acts.
    destruct (tracks_up config _ _ _ _ _ Ht He) as [w Hup]. destruct (up_int64 s j e w Hup Hi) as (Hint & Hcn & Hpos & Hlen).
    destruct Ha as [_ _ ((Hroom & _) & _)]. fold e in Hroom.
    pose proof (act_rests a (run acts l0)) as Hrests. cbv zeta in Hrests. fold e in Hrests.
    destruct (Hrests (seg_wf _ _ (up_log _ _ _ Hup)) Hroom Hint) as [[[Hk Hn]|[Hz|(x & Hx & Hn & Hst & Hci)]]|?];
      [| |right|done].
    + destruct (Hk Hld) as [Hld0 Hterm]. rewrite Hn. destruct (Hfl j e He Hld0) as [|(? & x & Hx & Hxt)]; [by left|right].
      split; [done|]. exists x. split; [by eapply Hkeep|congruence].
    + by left.
    + split; [lia|]. exists x. split; [|done]. destruct (tracks_up config _ _ _ _ _ Ht' He') as [w' Hup'].
      pose proof (up_applied _ _ _ Hup') as Hap. pose proof (seg_lii _ _ (up_log _ _ _ Hup')) as Hlii. simpl in Hap, Hlii.
      destruct Hst as [Hst|Hle]; [|lia].
      rewrite (seg_entry_at _ _ _ (up_log _ _ _ Hup')) in Hst by (simpl; lia). done.
Qed.

Lemma floored_run f0 f f' s :
  gm (Voters config) ≠ ∅ → fleet_initial f0 → tracks config f0 f s → floored f s → rtc (orderly_step config) f f' →
  ∃ s', rtc (spec_step (quorum_of config)) s s' ∧ tracks config f0 f' s' ∧ floored f' s'.
Proof.
  intros Hne Hinit Ht Hfl Hr. revert s Ht Hfl. induction Hr as [f|f1 f2 f3 Hs _ IH]; intros s Ht Hfl; [by exists s|].
  destruct (floored_step f0 f1 f2 s Hne Hinit Ht Hfl Hs) as (s2 & Hs2 & Ht2 & Hfl2).
  destruct (IH s2 Ht2 Hfl2) as (s3 & Hs3 & Ht3 & Hfl3). exists s3. split_and!; [by etrans|done|done].
Qed.

Lemma floored_initial f0 s : fleet_initial f0 → floored f0 s.
Proof. intros Hinit i e (l0 & acts & Hp & _). destruct (initial_stopped _ Hinit i) as (st & rl & Hi). congruence. Qed.

(** ** The rounds of one server's life *)

(** The numbers of a server's rounds, while they fit their words. *)
Lemma history_rounds f0 f i l0 acts :
  fleet_initial f0 → rtc (orderly_step config) f0 f → fl_place f i = Running l0 acts →
  Z.of_nat (length acts) < 18446744073709551616 →
  rounds_inv (run acts l0) ∧ 0 ≤ e_roundSeq (lp_engine (run acts l0)) ≤ Z.of_nat (length acts).
Proof.
  intros Hinit Hf Hp Hlen. pose proof (initial_stopped _ Hinit) as Hstop.
  destruct (running_started config f0 f i l0 acts Hstop Hf Hp) as (n & rl & m & path & draw & ->).
  pose proof (fleet_within f0 f i _ acts [] Hstop Hf ltac:(by rewrite app_nil_r)) as Hw.
  destruct (run_rounds fleet_limits fleet_limits_campaign acts _ Hw) as (Hr & Hs & _);
    [split; simpl; lia|apply start_rounds|]. split; [done|exact Hs].
Qed.

(** What is marked as begun has a number that was claimed. *)
Definition marked t : Prop := ∀ i rd m0, (rd, m0) ∈ td_begun t i →
  ∃ l0 acts, fl_place (td_fleet t) i = Running l0 acts ∧
    (Z.of_nat (length acts) < 18446744073709551616 → rd_seq rd ≤ e_roundSeq (lp_engine (run acts l0))).

Lemma marked_step t0 t t' : timed_initial t0 → rtc timed_step t0 t → timed_step t t' → marked t → marked t'.
Proof.
  intros [Hinit _] Hr Hs Hm j rd m0. pose proof (timed_fleet _ _ (rtc_r _ _ _ Hr Hs)) as Hf.
  destruct Hs as [i l0 acts c a Hp Ha Hprompt|i p Hs Hidle]; simpl;
    (destruct (decide (j = i)) as [->|Hne]; [rewrite !fn_lookup_insert|rewrite !fn_lookup_insert_ne by done; by apply Hm]).
  2:{ by intros ?%elem_of_nil. }
  intros Hin. exists l0, (acts ++ [a]). split; [done|]. intros Hlen.
  destruct (history_rounds _ _ i l0 (acts ++ [a]) Hinit Hf) as [Hinv Hseq]; [simpl; by rewrite fn_lookup_insert|done|].
  destruct (history_rounds _ _ i l0 acts Hinit (timed_fleet _ _ Hr) Hp) as [_ Hseq0]; [rewrite length_app in Hlen; lia|].
  rewrite run_snoc in *. apply elem_of_app in Hin as [Hin|Hin].
  - apply list_elem_of_fmap in Hin as (rd' & [= -> ->] & [_ Hfl]%list_elem_of_filter).
    by destruct (ri_rounds _ Hinv rd' (or_introl Hfl)) as (_ & ? & _).
  - destruct (Hm i rd m0 Hin) as (l1 & acts1 & Hp1 & Hle). rewrite Hp in Hp1. injection Hp1 as <- <-.
    rewrite length_app in Hlen. simpl in Hlen. specialize (Hle ltac:(lia)).
    destruct (act_roundSeq a (run acts l0)) as [Hmono _]; lia.
Qed.

Lemma marked_run t0 t : timed_initial t0 → rtc timed_step t0 t → marked t.
Proof.
  intros Hinit Hr. pattern t. revert t Hr. apply rtc_ind_r.
  - intros i rd m0. destruct Hinit as [_ Hb]. rewrite Hb. by intros ?%elem_of_nil.
  - intros t t' Hr Hs Hm. by eapply marked_step.
Qed.

(** A step in which server [i] neither stops nor starts. *)
Definition busy (i : Z) t t' : Prop := timed_step t t' ∧ ¬ idle (fl_place (td_fleet t') i).

(** The moment a running server took an action of its history, and its life since. *)
Lemma timed_did t0 t i l0 p a q :
  (∀ j, ∃ s rl, fl_place (td_fleet t0) j = Stopped s rl) → rtc timed_step t0 t →
  fl_place (td_fleet t) i = Running l0 (p ++ a :: q) →
  ∃ t1 c, rtc timed_step t0 t1 ∧ fl_place (td_fleet t1) i = Running l0 p ∧
    takes i c a (run p l0) (fl_mail (td_fleet t1)) ∧ rtc (busy i) t1 t.
Proof.
  intros Hinit Hr Hp. destruct (did config td_fleet timed_step t0 t i l0 p a q) as (t1 & t2 & c & ? & Hs & Hl & ? & ? & Hp2);
    [apply timed_step_fleet|done..|].
  exists t1, c. split_and!; [done..|]. eapply rtc_l; [|exact Hl]. split; [done|]. rewrite Hp2. simpl. by destruct p.
Qed.

(** ** Replies say what the peer's term was *)

Lemma append_reply_term rl req now (n : RaftNode Store) resp n' rl' :
  HandleAppendEntries rl req now n = (resp, n', rl') → rn_term n ≤ aer_Term resp.
Proof.
  intros [(_ & -> & _)|(Hge & r & n1 & Ha & Hrest)]%HandleAppendEntries_cases; [done|].
  apply accept_leader_inv in Ha as [_ Hr]; [|done]. destruct r as [u|er]; [|by destruct Hrest as (-> & _)].
  destruct Hr as (_ & _ & Ht & _), Hrest as (m & ct & ci & ok & _ & Hok). destruct ok; destruct Hok as [-> _]; simpl; lia.
Qed.

Lemma install_reply_term {X} rl req restore persist now (n : RaftNode Store) (x : X) resp n' rl' x' :
  HandleInstallSnapshot rl req restore persist now n x = (resp, n', rl', x') → rn_term n ≤ isr_Term resp.
Proof.
  unfold HandleInstallSnapshot. destruct (Z.ltb_spec (is_Term req) (CurrentTerm (rn_persistent n))) as [|Hge]; [by intros [= <- _ _ _]|].
  destruct (accept_leader _ _ n) as [r n1] eqn:Ha. apply accept_leader_inv in Ha as [_ Hr]; [|done].
  destruct r as [u|er]; [|by intros [= <- _ _ _]]. destruct Hr as (_ & _ & Ht & _). unfold rn_term in *.
  repeat case_match; intros [= <- _ _ _]; simpl; lia.
Qed.

(** A round is acknowledged by a reply of its term. *)
Lemma act_acked a l rd :
  rd ∈ lp_acked (act a l) → rd ∈ lp_acked l ∨
  ∃ r, a = RoundEnd rd r ∧ (reply_progress (rd_peer rd) r (e_node (lp_engine l))).1 = rd_term rd.
Proof.
  unfold act. destruct (e_fatal (lp_engine l)); [by left|].
  destruct a as [ev now d d'|req now|req now|req now|p|rd' r]; cbn [lp_acked]; try by left.
  - case_match; by left.
  - case_match; [|by left]. destruct (nextRoundSeq _); by left.
  - case_decide; [|by left]. destruct (reply_progress (rd_peer rd') r _) as [u n] eqn:Hr. cbn [lp_acked].
    unfold report_of. destruct (Z.ltb_spec (rd_term rd') u); [by left|].
    destruct (Z.eqb_spec u (rd_term rd')) as [Hu|]; [|by left].
    intros [->|]%elem_of_cons; [right|by left]. exists r. by rewrite Hr.
Qed.

Lemma run_acked acts l : lp_acked l ⊆ lp_acked (run acts l).
Proof.
  revert l. induction acts as [|a acts IH]; intros l; [done|]. etransitivity; [|apply (IH (act a l))].
  unfold act. destruct (e_fatal (lp_engine l)); [done|].
  destruct a as [ev now d d'|req now|req now|req now|p|rd' r]; cbn [lp_acked]; try done.
  - by case_match.
  - case_match; [|done]. by destruct (nextRoundSeq _).
  - case_decide; [|done]. destruct (reply_progress _ r _). cbn [lp_acked]. case_match; set_solver.
Qed.

(** ** From the moment a read comes in *)

(** Nothing that was sent is unsent. *)
Definition later (m m' : Mail) : Prop :=
  (∃ r, ml_replies m' = r ++ ml_replies m) ∧ ∃ r, ml_installs m' = r ++ ml_installs m.

#[export] Instance later_preorder : PreOrder later.
Proof.
  split; [intros m; split; by exists []|].
  intros m1 m2 m3 ([r1 R1] & [i1 I1]) ([r2 R2] & [i2 I2]). rewrite R1 in R2. rewrite I1 in I2.
  split; [exists (r2 ++ r1)|exists (i2 ++ i1)]; by rewrite <-app_assoc.
Qed.

Lemma post_later m m' : later m' (post m m').
Proof. split; simpl; eauto. Qed.

Lemma since_nothing {A} (xs : list A) x : ¬ since_then xs xs x.
Proof.
  intros (late & Heq & Hin). apply (f_equal length) in Heq. rewrite length_app in Heq.
  destruct late; [by apply elem_of_nil in Hin|simpl in Heq; lia].
Qed.

Lemma since_more {A} (old mid new : list A) x r : mid = r ++ old → since_then mid new x → since_then old new x.
Proof. intros -> (late & -> & Hin). exists (late ++ r). rewrite app_assoc. split; [done|]. apply elem_of_app. by left. Qed.

Lemma since_posted {A} (old mid new : list A) x r :
  mid = r ++ old → since_then old (new ++ mid) x → x ∈ new ∨ since_then old mid x.
Proof.
  intros -> (late & Heq & Hin). rewrite app_assoc in Heq. apply app_inv_tail in Heq as <-.
  apply elem_of_app in Hin as [?|?]; [by left|right]. by exists r.
Qed.

(** From [t1], tracked by [s1], to [t]: whatever the peers have replied since tells
    their terms of then, and so do the acknowledgements of rounds begun since, which
    are the ones server [i] numbers above [b]. *)
Record witnessed f0 t1 (s1 : spec) (i b : Z) t : Prop := {
  wi_tracks : ∃ s, rtc (spec_step (quorum_of config)) s1 s ∧ tracks config f0 (td_fleet t) s;
  wi_mail : later (fl_mail (td_fleet t1)) (fl_mail (td_fleet t));
  wi_begun : ∀ rd m0, (rd, m0) ∈ td_begun t i → b < rd_seq rd → later (fl_mail (td_fleet t1)) m0;
  wi_replies : ∀ p u resp, since_then (ml_replies (fl_mail (td_fleet t1))) (ml_replies (fl_mail (td_fleet t))) (p, u, resp) →
    sp_term s1 p ≤ aer_Term resp;
  wi_installs : ∀ p u k resp, since_then (ml_installs (fl_mail (td_fleet t1))) (ml_installs (fl_mail (td_fleet t))) (p, u, k, resp) →
    sp_term s1 p ≤ isr_Term resp;
  wi_acked : ∀ l0 acts rd, fl_place (td_fleet t) i = Running l0 acts → rd ∈ lp_acked (run acts l0) → b < rd_seq rd →
    0 < rd_term rd → sp_term s1 (rd_peer rd) ≤ rd_term rd;
}.

Lemma witnessed_here f0 t0 t1 s1 i l0 acts :
  f0 = td_fleet t0 → timed_initial t0 → rtc timed_step t0 t1 → tracks config f0 (td_fleet t1) s1 →
  fl_place (td_fleet t1) i = Running l0 acts → Z.of_nat (length acts) < 18446744073709551616 →
  witnessed f0 t1 s1 i (e_roundSeq (lp_engine (run acts l0))) t1.
Proof.
  intros -> Hinit Hr Ht Hp Hlen. split; [by exists s1|done| | | |].
  - intros rd m0 Hin Hlt. destruct (marked_run t0 t1 Hinit Hr i rd m0 Hin) as (l1 & acts1 & Hp1 & Hle).
    rewrite Hp in Hp1. injection Hp1 as <- <-. specialize (Hle Hlen). lia.
  - by intros p u resp ?%since_nothing.
  - by intros p u k resp ?%since_nothing.
  - intros l1 acts1 rd Hp1 Hin Hlt. rewrite Hp in Hp1. injection Hp1 as <- <-.
    destruct (history_rounds _ _ i l0 acts (proj1 Hinit) (timed_fleet _ _ Hr) Hp Hlen) as [Hinv _].
    destruct (ri_rounds _ Hinv rd (or_intror Hin)) as (_ & ? & _). lia.
Qed.

(** What a running server sends tells its term, which has not fallen since. *)
Lemma outbox_terms s1 s i c a l won p :
  raft_inv (quorum := quorum_of config) s1 → Quorums (quorum_of config) → rtc (spec_step (quorum_of config)) s1 s →
  up_ok s i (mkServer (e_node (lp_engine l)) (e_raftLog (lp_engine l)) won) →
  (∀ u resp, (p, u, resp) ∈ ml_replies (outbox i c a l) → sp_term s1 p ≤ aer_Term resp) ∧
  (∀ u k resp, (p, u, k, resp) ∈ ml_installs (outbox i c a l) → sp_term s1 p ≤ isr_Term resp).
Proof.
  intros Hi HQ Hs Hup. destruct (advances_rtc s1 s Hi Hs) as [Hg _]. pose proof (grows_term _ _ Hg i) as Hle.
  rewrite (up_term _ _ _ Hup) in Hle. simpl in Hle. unfold outbox, round_sends.
  destruct a as [ev now d d'|req now|req now|req now|q|rd r]; cbn [ml_replies ml_installs no_mail].
  - case_match; split; intros *; by intros ?%elem_of_nil.
  - split; [|intros *; by intros ?%elem_of_nil]. intros u resp [= -> -> ->]%list_elem_of_singleton.
    unfold EngineHandleAppendEntries. destruct (HandleAppendEntries _ req now _) as [[resp n] rl] eqn:Hh. simpl.
    apply append_reply_term in Hh. lia.
  - split; intros *; by intros ?%elem_of_nil.
  - split; [intros *; by intros ?%elem_of_nil|]. intros u k resp [= -> -> -> ->]%list_elem_of_singleton.
    unfold EngineHandleInstallSnapshot. destruct (HandleInstallSnapshot _ req _ _ now _ _) as [[[resp n] rl] m] eqn:Hh. simpl.
    apply install_reply_term in Hh. lia.
  - repeat case_match; split; intros *; by intros ?%elem_of_nil.
  - split; intros *; by intros ?%elem_of_nil.
Qed.

(** The reply that acknowledges a round begun since. *)
Lemma acked_since f0 t1 s1 i b t l0 acts a rd :
  witnessed f0 t1 s1 i b t → fl_place (td_fleet t) i = Running l0 acts →
  prompt (td_begun t i) a (fl_mail (td_fleet t)) →
  rd ∈ lp_acked (act a (run acts l0)) → b < rd_seq rd → 0 < rd_term rd →
  (∀ m0, (rd, m0) ∈ td_begun t i → later (fl_mail (td_fleet t1)) m0) → sp_term s1 (rd_peer rd) ≤ rd_term rd.
Proof.
  intros Hw Hp Hprompt Hin Hb Hpos Hlater. apply act_acked in Hin as [Hin|(r & -> & Hr)]; [by eapply (wi_acked _ _ _ _ _ _ Hw)|].
  destruct r as [u [resp|]|u k [resp|]]; simpl in Hr, Hprompt; try lia.
  - destruct Hprompt as (m0 & Hm0 & Hsince). destruct (Hlater m0 Hm0) as [[late Hl] _].
    rewrite <-Hr. unfold append_reply. assert (sp_term s1 (rd_peer rd) ≤ aer_Term resp) as Hle.
    { eapply (wi_replies _ _ _ _ _ _ Hw). by eapply since_more. }
    by repeat case_match.
  - destruct Hprompt as (m0 & Hm0 & Hsince). destruct (Hlater m0 Hm0) as [_ [late Hl]].
    rewrite <-Hr. unfold snapshot_reply. assert (sp_term s1 (rd_peer rd) ≤ isr_Term resp) as Hle.
    { eapply (wi_installs _ _ _ _ _ _ Hw). by eapply since_more. }
    by repeat case_match.
Qed.

Lemma witnessed_step f0 t1 s1 i b t t' :
  gm (Voters config) ≠ ∅ → fleet_initial f0 → raft_inv (quorum := quorum_of config) s1 →
  witnessed f0 t1 s1 i b t → busy i t t' → witnessed f0 t1 s1 i b t'.
Proof.
  intros Hne Hinit Hi1 Hw [Hs Hidle]. pose proof Hw as [(s & Hss & Ht) Hm Hbg Hrp Hin Hak].
  destruct (tracks_run config f0 _ _ s Hne Hinit Ht (rtc_once _ _ (timed_step_fleet _ _ Hs))) as (s' & Hss' & Ht').
  assert (∃ s, rtc (spec_step (quorum_of config)) s1 s ∧ tracks config f0 (td_fleet t') s) as Htr
    by (exists s'; split; [by etrans|done]).
  destruct Hs as [j l0 acts c a Hp Ha Hprompt|j p Hs Hp]; simpl in *.
  2:{ destruct (decide (i = j)) as [<-|Hne']; [by rewrite fn_lookup_insert in Hidle|].
      split; simpl; rewrite ?fn_lookup_insert_ne by done; done. }
  destruct (tracks_up config _ _ _ j (lp_engine (run acts l0)) Ht) as [won Hup]; [by exists l0, acts|].
  pose proof (quorum_of_Quorums config Hne) as HQ.
  pose proof (λ p, outbox_terms s1 s j c a (run acts l0) won p Hi1 HQ Hss Hup) as Hout.
  pose proof Hm as [[r Hmr] [k Hmk]].
  split; simpl; [done|etrans; [exact Hm|apply post_later]| | | |].
  - destruct (decide (i = j)) as [<-|Hne']; [rewrite fn_lookup_insert|by rewrite fn_lookup_insert_ne].
    intros rd m0 [Hx|Hx]%elem_of_app Hlt; [|by eapply Hbg].
    apply list_elem_of_fmap in Hx as (rd' & [= <- ->] & _). done.
  - intros p u resp [Hx|Hx]%(since_posted _ _ _ _ _ Hmr); [by eapply Hout|by eapply Hrp].
  - intros p u n resp [Hx|Hx]%(since_posted _ _ _ _ _ Hmk); [by eapply Hout|by eapply Hin].
  - intros l1 acts1 rd. destruct (decide (i = j)) as [<-|Hne']; [rewrite fn_lookup_insert|rewrite fn_lookup_insert_ne by done; by apply Hak].
    intros [= <- <-] Hx Hlt Hpos. rewrite run_snoc in Hx.
    by eapply (acked_since f0 t1 s1 i b t l0 acts); eauto.
Qed.

Lemma witnessed_run f0 t1 s1 i b t t' :
  gm (Voters config) ≠ ∅ → fleet_initial f0 → raft_inv (quorum := quorum_of config) s1 →
  witnessed f0 t1 s1 i b t → rtc (busy i) t t' → witnessed f0 t1 s1 i b t'.
Proof. intros ? ? ? Hw Hr. induction Hr as [|t2 t3 t4 Hb _ IH]; [done|]. by eapply IH, witnessed_step. Qed.

(** ** The theorem *)

(** Server [k]'s loop has answered the proposal of [x] nil. *)
Definition acknowledged f (k : Z) (x : LogEntry) : Prop :=
  ∃ l0 before after cmd ch now d d',
    fl_place f k = Running l0 (before ++ Select (Propose cmd ch) now d d' :: after) ∧
    lp_stopped (run before l0) = false ∧
    (let l := run (before ++ Select (Propose cmd ch) now d d' :: after) l0 in
     NoDup (lp_asked l) ∧ (ch, RErr None) ∈ e_sent (lp_engine l)) ∧
    x = proposed cmd now (lp_engine (run before l0)).

(** One set of voters, [i] among them. *)
Definition plain (i : Z) : Prop :=
  gm (OldVoters config) = ∅ ∧ gm (Learners config) = ∅ ∧ is_Some (gm (Voters config) !! i).

Lemma running_config f0 f s i e :
  gm (Voters config) ≠ ∅ → fleet_initial f0 → tracks config f0 f s → engine_at f i e →
  rn_config (e_node e) = config ∧ rn_nodeID (e_node e) = i.
Proof.
  intros Hne Hinit (y & Hy & Hsees & [Hcl _ _]) (l0 & acts & Hp & ->).
  assert (cluster_inv config (sy_cluster y)) as Hc by (eapply inv_reachable; [done|apply Hinit|done]).
  pose proof (se_place _ _ Hsees i) as Hi.
  rewrite Hp in Hi. destruct Hi as [won Hr]. pose proof (ci_status _ _ Hc i) as Hst.
  unfold runs, server_at in Hr. rewrite Hr in Hst. split; [apply (so_config _ _ _ _ _ Hst)|apply (so_id _ _ _ _ _ Hst)].
Qed.

(** Whoever confirmed a read had not moved past its term when it came in. *)
Lemma confirmed_quorum f0 t1 t s1 i l0 before acts rest :
  gm (Voters config) ≠ ∅ → let l := run before l0 in let b := e_roundSeq (lp_engine l) in
  let m := run acts l0 in
  witnessed f0 t1 s1 i b t → fl_place (td_fleet t) i = Running l0 (acts ++ rest) →
  sp_term s1 i = rn_term (e_node (lp_engine l)) → 0 < rn_term (e_node (lp_engine l)) →
  rn_config (e_node (lp_engine m)) = config → rn_nodeID (e_node (lp_engine m)) = i →
  confirmed_since b (rn_term (e_node (lp_engine l))) m →
  quorum_of config (λ p, sp_term s1 p ≤ sp_term s1 i).
Proof.
  intros Hne l b m Hw Hp Hterm Hpos Hcfg Hid (Q & HQ & Hconf). rewrite Hcfg in HQ.
  exists (ballot_of Q). split; [done|]. intros p Hpb. rewrite gm_bool_ballot_of in Hpb. apply bool_decide_eq_true in Hpb.
  destruct (Hconf p Hpb) as [->|(rd & Hrd & <- & Ht & Hlt)]; [by rewrite Hid|].
  rewrite Hterm, <-Ht. apply (wi_acked _ _ _ _ _ _ Hw l0 (acts ++ rest)); [done| |done|lia].
  unfold run. rewrite foldl_app. by apply run_acked.
Qed.

(** What the reply to a read says of the server that sent it (EngineReads.v), for a
    server of a fleet. *)
Lemma read_released f0 f i l0 before after ch awaitApply now d d' idx :
  let ask := Select (ReadRequest ch awaitApply) now d d' in
  let l := run (before ++ ask :: after) l0 in
  let e0 := lp_engine (run before l0) in
  gm (Voters config) ≠ ∅ → plain i → fleet_initial f0 → rtc (orderly_step config) f0 f →
  fl_place f i = Running l0 (before ++ ask :: after) → rn_config (e_node e0) = config → rn_nodeID (e_node e0) = i →
  Z.of_nat (length (before ++ ask :: after)) < 18446744073709551616 →
  lp_stopped (run before l0) = false → e_fatal e0 = None → NoDup (lp_asked l) → (ch, RRead idx None) ∈ e_sent (lp_engine l) →
  rn_Role (e_node e0) = Leader ∧ rn_CommitIndex (e_node e0) `max` e_noopIndex e0 ≤ idx ∧
  ∃ acts rest, before ++ ask :: after = acts ++ rest ∧
    let m := run acts l0 in
    rn_config (e_node (lp_engine m)) = config ∧ rn_nodeID (e_node (lp_engine m)) = i ∧
    confirmed_since (e_roundSeq e0) (rn_term (e_node e0)) m.
Proof.
  intros ask l e0 Hne (Hold & Hlearn & Hvoter) Hinit Hf Hp Hcfg Hid Hlen Hrun Hfatal Hnd Hsent.
  pose proof (initial_stopped _ Hinit) as Hstop.
  assert (run_within fleet_limits (before ++ ask :: after) l0) as Hw
    by (eapply (fleet_within f0 f i l0 _ []); rewrite ?app_nil_r; done).
  assert (∀ acts rest, before ++ ask :: after = acts ++ rest → same_identity (e_node (lp_engine l0)) (e_node (lp_engine (run acts l0)))) as Hsame.
  { intros acts rest Heq. rewrite Heq in Hw. apply run_within_app in Hw as [Hwa _].
    by apply (run_evolves fleet_limits fleet_limits_campaign acts l0). }
  destruct (Hsame before (ask :: after) eq_refl) as [Hid0 Hcfg0]. fold e0 in Hid0, Hcfg0. rewrite Hid in Hid0. rewrite Hcfg in Hcfg0.
  destruct (running_started config f0 f i l0 _ Hstop Hf Hp) as (n & rl & sm & path & draw & ->).
  assert (l = run after (act ask (run before (start (NewWithTransport n rl sm path draw))))) as Hl by (unfold l, run; by rewrite foldl_app).
  rewrite Hl in Hnd, Hsent.
  destruct (read_index_safe fleet_limits fleet_limits_campaign n rl sm path draw before after ch awaitApply now d d' idx)
    as (Hld & Hmax & answered & rest & -> & _ & _ & _ & Hconf); try done.
  { simpl in Hid0, Hcfg0. split_and!; congruence. }
  split_and!; [done..|]. exists (before ++ ask :: answered), rest. rewrite <-app_assoc, <-app_comm_cons.
  destruct (Hsame (before ++ ask :: answered) rest) as [Hidm Hcfgm]; [by rewrite <-app_assoc, <-app_comm_cons|].
  split; [done|]. split_and!; [by rewrite Hcfgm|by rewrite Hidm|].
  unfold run in Hconf |- *. by rewrite foldl_app.
Qed.

(** Whatever any server had committed when the read came in, the index covers. *)
Lemma read_covers t0 t t1 i l0 before after ch awaitApply now d d' idx f j e :
  let ask := Select (ReadRequest ch awaitApply) now d d' in
  let l := run (before ++ ask :: after) l0 in
  let e0 := lp_engine (run before l0) in
  gm (Voters config) ≠ ∅ → plain i → timed_initial t0 → rtc timed_step t0 t1 → rtc (busy i) t1 t → rtc timed_step t1 t →
  fl_place (td_fleet t1) i = Running l0 before → fl_place (td_fleet t) i = Running l0 (before ++ ask :: after) →
  Z.of_nat (length (before ++ ask :: after)) < 18446744073709551616 →
  lp_stopped (run before l0) = false → e_fatal e0 = None → e_noopIndex e0 ≠ 0 → NoDup (lp_asked l) →
  (ch, RRead idx None) ∈ e_sent (lp_engine l) →
  rtc (orderly_step config) (td_fleet t0) f → rtc (orderly_step config) f (td_fleet t1) → engine_at f j e →
  rn_CommitIndex (e_node e) ≤ idx.
Proof.
  intros ask l e0 Hne Hplain Hinit Hr1 Hbusy Hr1t Hp1 Hp Hlen Hrun Hfatal Hnoop Hnd Hsent Hf Hf1 Hj.
  pose proof (quorum_of_Quorums config Hne) as HQ. pose proof (proj1 Hinit) as Hinit0.
  destruct (floored_run (td_fleet t0) (td_fleet t0) f spec0 Hne Hinit0) as (s & Hs0 & Hts & Hfl);
    [by apply tracks_initial|by apply floored_initial|done|].
  destruct (floored_run (td_fleet t0) f (td_fleet t1) s Hne Hinit0 Hts Hfl Hf1) as (s1 & Hs1 & Hts1 & Hfl1).
  assert (engine_at (td_fleet t1) i e0) as He0 by by exists l0, before.
  destruct (tracks_up config _ _ _ _ _ Hts Hj) as [w Hupj], (tracks_up config _ _ _ _ _ Hts1 He0) as [w1 Hup0].
  pose proof (tracks_inv config _ _ _ Hts) as Hi. pose proof (tracks_inv config _ _ _ Hts1) as Hi1.
  destruct (running_config _ _ _ _ _ Hne Hinit0 Hts1 He0) as [Hcfg Hid].
  destruct (read_released (td_fleet t0) (td_fleet t) i l0 before after ch awaitApply now d d' idx)
    as (Hld & Hmax & acts & rest & Heq & Hcfgm & Hidm & Hconf); try done; [apply timed_fleet; by etrans|].
  fold e0 in Hld, Hmax, Hconf. fold ask in Heq. rewrite Heq in Hp.
  assert (witnessed (td_fleet t0) t1 s1 i (e_roundSeq e0) t) as Hwit.
  { eapply witnessed_run; [done|done|done| |done]. eapply witnessed_here; [done|done|done|done|done|].
    rewrite length_app in Hlen. simpl in Hlen. lia. }
  pose proof (up_role _ _ _ Hup0) as Hrole. pose proof (up_term _ _ _ Hup0) as Hterm. pose proof (up_commit _ _ _ Hup0) as Hci.
  simpl in Hrole, Hterm, Hci. rewrite Hld in Hrole.
  destruct (raft_server _ Hi1 i) as (_ & _ & _ & Hlead & _). destruct (raft_leader _ Hi1 _ _ _ (Hlead Hrole)) as (Hpos & _).
  destruct (Hfl1 i e0 He0 Hld) as [|(Hfloor & x & Hx & Hxt)]; [done|].
  assert (knowing (quorum := quorum_of config) s) as Hk.
  { destruct (related_initial config Hne _ Hinit0) as [_ Hsp].
    eapply (knowing_rtc spec0 s); [by apply raft_initial|by apply knowing_initial|done]. }
  pose proof (up_commit _ _ _ Hupj) as Hcj. simpl in Hcj.
  enough (sp_commit s j ≤ sp_commit s1 i `max` Z.to_nat (e_noopIndex e0 - 1))%nat by lia.
  apply (read_floor s s1 i j _ x Hi Hk Hs1 Hrole Hx ltac:(congruence)).
  eapply (confirmed_quorum (td_fleet t0) t1 t s1 i l0 before acts rest); try done. fold e0. lia.
Qed.

(** C3: reads see every write acknowledged before them, in an orderly run of a
    cluster with one set of voters whose rounds are calls. Take a read that the loop
    of server [i] has answered with an index, the no-op of its leadership having
    been appended ([failed_noop_serves_stale_read]). Then when the read came in no
    server had committed anything beyond that index, and no server's loop had
    acknowledged a write beyond it. Orderly (FleetSafety.v), and not enforced by the
    programs: handlers, rounds and starts run one at a time; every request is read
    from one state of its sender ([torn_round_breaks_log_matching]); a leader uses
    no reply to a round of another of its leaderships ([stale_reply_loses_write]); a
    batch is written whole or not at all, and an install leaves a well-formed log
    ([ResetToSnapshot_stale_nextIndex]); a shipped snapshot is of applied entries
    its sender's log goes on from; a start recovers the log the server stopped with
    ([settled_start], but [restart_keeps_conflicting_suffix] and WalRaces.v);
    indices and terms fit. *)
Theorem reads_see_writes t0 t (i : Z) l0 (before after : list action) (ch : nat) (awaitApply : bool) (now d d' idx : Z) :
  let ask := Select (ReadRequest ch awaitApply) now d d' in
  let l := run (before ++ ask :: after) l0 in
  Validate config = None → plain i → timed_initial t0 → rtc timed_step t0 t →
  fl_place (td_fleet t) i = Running l0 (before ++ ask :: after) →
  Z.of_nat (length (before ++ ask :: after)) < 18446744073709551616 →
  lp_stopped (run before l0) = false → e_noopIndex (lp_engine (run before l0)) ≠ 0 → NoDup (lp_asked l) →
  (ch, RRead idx None) ∈ e_sent (lp_engine l) →
  ∃ t1, rtc timed_step t0 t1 ∧ rtc timed_step t1 t ∧ fl_place (td_fleet t1) i = Running l0 before ∧
    ∀ f, rtc (orderly_step config) (td_fleet t0) f → rtc (orderly_step config) f (td_fleet t1) →
      (∀ j e, engine_at f j e → rn_CommitIndex (e_node e) ≤ idx) ∧
      (∀ k x, acknowledged f k x → le_Index x ≤ idx).
Proof.
  intros ask l Hval Hplain Hinit Hr Hp Hlen Hrun Hnoop Hnd Hsent.
  assert (gm (Voters config) ≠ ∅) as Hne by by apply Validate_voters. pose proof (proj1 Hinit) as Hinit0.
  destruct (timed_did t0 t i l0 before ask after (initial_stopped _ Hinit0) Hr Hp) as (t1 & c & Hr1 & Hp1 & [Hfatal _ _] & Hbusy).
  assert (rtc timed_step t1 t) as Hr1t by (eapply (rtc_congruence id); [|exact Hbusy]; by intros x y []).
  exists t1. split_and!; [done..|].
  assert (∀ f, rtc (orderly_step config) (td_fleet t0) f → rtc (orderly_step config) f (td_fleet t1) →
    ∀ j e, engine_at f j e → rn_CommitIndex (e_node e) ≤ idx) as Hall
    by (intros f Hf Hf1 j e Hj; by eapply read_covers).
  intros f Hf Hf1. split; [by apply Hall|].
  intros k x (lk & bk & ak & cmd & chk & nk & dk & dk' & Hpk & Hrunk & [Hndk Hnil] & ->).
  destruct (acknowledged_committed config _ f k lk bk ak cmd chk nk dk dk' Hne Hinit0 Hf Hpk Hrunk Hndk Hnil)
    as (g & s & e & o & L & Hg & Hgf & _ & He & _ & Hc & _).
  etrans; [exact Hc|]. eapply (Hall g); [done|by etrans|done].
Qed.

End Reads.
