(* ===== verification/FleetReplicas.v ===== *)
(** * Replicas agree

    What every server's state machine is: the committed entries up to its applied
    index, executed in order on an empty machine.  So servers that have applied as
    much have the same state, and a server that has applied a write a client was
    acknowledged has executed it.

    The runs are the orderly ones of FleetSafety.v, and the snapshots besides are
    trusted: a server starts from, and ships, machines that some server had, at the
    applied index it had them at.  What recovery gives for one server is in Startup.v
    ([settled_restart]) and Main.v.  [Replicas] pairs a fleet
    with every machine any server ever had and the applied index it had it at.  The
    installs are [clean]: EngineRaces.v shows runs in which an older snapshot, or one
    that cannot be written, leaves a server with a state that is no replica's. *)

From stdpp Require Import functions.
From S2P Require Import Cluster RaftSpec RaftSafety RaftSystem RaftSimulation.
From S2P Require Import Prelude Configuration Os Json Types Encoding RaftLog RaftLogFacts RaftNode RaftNodeFacts StateMachine Snapshot Replicator Engine EngineLoop EngineFacts EngineRun EngineMoves EngineBounds EngineMachine Fleet FleetSafety FleetWrites FleetReads.

(** ** Machines *)

Lemma Apply_ttl i cmd m : sm_sessionTTL (Apply i cmd m).2 = sm_sessionTTL m.
Proof.
  assert (sm_sessionTTL (advance cmd m) = sm_sessionTTL m) as Ha by (unfold advance, expireSessions; by case_match).
  unfold Apply. destruct (duplicate_of cmd (advance cmd m)); [done|].
  pose proof (execute_sessions i cmd (advance cmd m)) as (_ & _ & _ & He).
  destruct (execute i cmd (advance cmd m)) as [err m']. simpl in *.
  destruct (record_outcome_fields cmd err m') as (_ & _ & _ & ->). congruence.
Qed.

Lemma replay_ttl `{Codec Command} i es m m' : replay i es m = Some m' → sm_sessionTTL m' = sm_sessionTTL m.
Proof.
  revert i m. induction es as [|x es IH]; intros i m; simpl; [by intros [= <-]|].
  destruct (DecodeCommand _) as [cmd|]; [|done]. pose proof (Apply_ttl i cmd m) as Ht.
  destruct (Apply i cmd m) as [[er|] m1]; [done|]. simpl in Ht. intros Hr. rewrite <-Ht. by eapply IH.
Qed.

Lemma advance_data cmd m : sm_data (advance cmd m) = sm_data m.
Proof. unfold advance, expireSessions. by case_match. Qed.

(** The command of [x] sets or deletes [k]. *)
Definition touches `{Codec Command} (k : string) (x : LogEntry) : Prop :=
  ∃ cmd, DecodeCommand (le_Command x) = Ok cmd ∧ cmd_Key cmd = k ∧ (cmd_Op cmd = OpSet ∨ cmd_Op cmd = OpDelete).

Lemma Apply_untouched i cmd m k :
  ¬ (cmd_Key cmd = k ∧ (cmd_Op cmd = OpSet ∨ cmd_Op cmd = OpDelete)) → Get k (Apply i cmd m).2 = Get k m.
Proof.
  intros Hk. unfold Get, Apply. rewrite <-(advance_data cmd m). set (m1 := advance cmd m).
  destruct (duplicate_of cmd m1); [done|].
  assert (sm_data (execute i cmd m1).2 !! k = sm_data m1 !! k) as He.
  { unfold execute. destruct (String.eqb_spec (cmd_Op cmd) OpSet) as [Hs|].
    { case_match; [done|]. simpl. apply lookup_insert_ne. intros ?. apply Hk. auto. }
    destruct (String.eqb_spec (cmd_Op cmd) OpDelete) as [Hd|]; [|by case_match].
    case_match; [done|]. simpl. apply lookup_delete_ne. intros ?. apply Hk. auto. }
  destruct (execute i cmd m1) as [err m2]. simpl in *. by destruct (record_outcome_fields cmd err m2) as (-> & _).
Qed.

Lemma Apply_set i cmd m m' :
  Apply i cmd m = (None, m') → cmd_Op cmd = OpSet → cmd_ClientID cmd = ""%string → Get (cmd_Key cmd) m' = Some (cmd_Value cmd).
Proof.
  unfold Apply, duplicate_of, execute, Get. intros Ha Ho Hc. rewrite Hc, Ho in Ha. simpl in Ha.
  destruct (String.eqb (cmd_Key cmd) ""); [done|]. injection Ha as <-.
  unfold record_outcome. rewrite Hc. simpl. apply lookup_insert_eq.
Qed.

Lemma replay_untouched `{Codec Command} i es m m' k :
  replay i es m = Some m' → Forall (λ x, ¬ touches k x) es → Get k m' = Get k m.
Proof.
  revert i m. induction es as [|x es IH]; intros i m Hr Hall; simpl in Hr; [by injection Hr as <-|].
  apply Forall_cons in Hall as [Hx Hall]. destruct (DecodeCommand _) as [cmd|] eqn:Hd; [|done].
  pose proof (Apply_untouched i cmd m k) as Hu. destruct (Apply i cmd m) as [[er|] m1]; [done|].
  rewrite (IH _ _ Hr Hall). apply Hu. intros Ht. apply Hx. by exists cmd.
Qed.

(** A key has the value it was last set to. *)
Lemma replay_last_set `{Codec Command} i es n x cmd m m' :
  replay i es m = Some m' → es !! n = Some x → DecodeCommand (le_Command x) = Ok cmd →
  cmd_Op cmd = OpSet → cmd_ClientID cmd = ""%string → Forall (λ y, ¬ touches (cmd_Key cmd) y) (drop (S n) es) →
  Get (cmd_Key cmd) m' = Some (cmd_Value cmd).
Proof.
  intros Hr Hn Hd Ho Hc Hall. rewrite <-(take_drop_middle es n x Hn), replay_app in Hr.
  destruct (replay i (take n es) m) as [m1|]; [|done]. simpl in Hr. rewrite Hd in Hr.
  match type of Hr with context [Apply ?a cmd m1] => destruct (Apply a cmd m1) as [[er|] m2] eqn:Ha end; [done|].
  rewrite (replay_untouched _ _ _ _ _ Hr Hall). by eapply Apply_set.
Qed.

(** The bytes of a snapshot that gives [m] back. *)
Definition pictures (data : bytes) (m : MemoryStateMachine) : Prop :=
  ∀ m0, sm_sessionTTL m0 = sm_sessionTTL m → Restore data m0 = (Ok tt, m).

Lemma Snapshot_pictures m data : machine_ok m → Snapshot m = Ok data → pictures data m.
Proof. intros Hok Hd m0 Ht. rewrite (Restore_Snapshot m m0 data Hok Hd), Ht. by destruct m. Qed.

Section Replicas.
Context {Store : Type} `{StateStoreLaws Store} `{Codec LogEntry} `{Codec Command}.
(** [ttl]: the session lifetime every server is configured with. *)
Context (config : Configuration) `{!Quorums (quorum_of config)} (ttl : Z).
#[local] Abbreviation covered := (covered (quorum := quorum_of config)).
#[local] Abbreviation raft_inv := (raft_inv (quorum := quorum_of config)).
Implicit Types (e : Engine Store) (f : Fleet (Store := Store)).

(** The machine a server without a snapshot starts with. *)
Definition blank : MemoryStateMachine := SetSessionTTL ttl NewMemoryStateMachine.

(** ** Machines that are what was committed *)

Definition genuine (s : spec) (k : Z) (m : MemoryStateMachine) : Prop :=
  0 ≤ k ∧ ∃ t l, covered s t l (Z.to_nat k) ∧ replay 1 (take (Z.to_nat k) l) blank = Some m.

Lemma genuine_grows s s' k m : grows s s' → genuine s k m → genuine s' k m.
Proof. intros Hg (Hk & t & l & Hc & Hr). split; [done|]. exists t, l. split; [by eapply covered_grows|done]. Qed.

Lemma genuine_blank s : genuine s 0 blank.
Proof. split; [done|]. exists 0, []. split; [by left|done]. Qed.

Lemma genuine_ttl s k m : genuine s k m → sm_sessionTTL m = sm_sessionTTL blank.
Proof. intros (_ & t & l & _ & Hr). by eapply replay_ttl. Qed.

Lemma covered_take s t1 t2 l1 l2 c k :
  raft_inv s → covered s t1 l1 k → covered s t2 l2 c → (k ≤ c)%nat → take k l1 = take k l2.
Proof.
  intros Hi H1' H2' Hle. apply list_eq. intros n. destruct (decide (n < k)%nat) as [Hn|Hn].
  - rewrite !lookup_take_lt by done. destruct (covered_agree s t1 t2 l1 l2 k c n Hi H1' H2' Hn ltac:(lia)) as [-> _]. done.
  - rewrite !lookup_take_ge by lia. done.
Qed.

Lemma covered_length s t l c : covered s t l c → (c ≤ length l)%nat.
Proof. intros [->|(u & n & o & L & _ & _ & _ & _ & (_ & Hl & _))]; lia. Qed.

(** The first [c] entries are as good as the log. *)
Lemma covered_first s t l c : covered s t l c → covered s t (take c l) c ∧ length (take c l) = c.
Proof.
  intros Hc. pose proof (covered_length _ _ _ _ Hc) as Hl. rewrite length_take_le by done. split; [|done].
  destruct Hc as [->|(u & n & o & L & Hu & HL & Hn & Hle & (Ht & H1' & H2'))]; [by left|right].
  exists u, n, o, L. split_and!; [done..|]. split; [by rewrite take_take, Nat.min_id|]. by rewrite length_take_le.
Qed.

(** Any log that is committed that far has what made the machine. *)
Lemma genuine_log s k m t l c :
  raft_inv s → genuine s k m → covered s t l c → (Z.to_nat k ≤ c)%nat →
  replay 1 (take (Z.to_nat k) l) blank = Some m.
Proof. intros Hi (_ & t' & l' & Hc' & Hr) Hc Hle. by rewrite <-(covered_take s t' t l' l c). Qed.

(** One more stretch of the log. *)
Lemma genuine_more s k m t l (es : list LogEntry) m' :
  raft_inv s → genuine s k m → covered s t l (Z.to_nat k + length es) →
  (∀ n x, es !! n = Some x → l !! (Z.to_nat k + n)%nat = Some x) →
  replay (k + 1) es m = Some m' → genuine s (k + Z.of_nat (length es)) m'.
Proof.
  intros Hi Hg Hc Hes Hr. pose proof (genuine_log s k m t l _ Hi Hg Hc ltac:(lia)) as Hm. destruct Hg as [Hk _].
  split; [lia|]. exists t, l. replace (Z.to_nat (k + Z.of_nat (length es))) with (Z.to_nat k + length es)%nat by lia.
  split; [done|].
  assert (∀ n, (n < length es)%nat → l !! (Z.to_nat k + n)%nat = es !! n) as Hat.
  { intros n Hn. destruct (lookup_lt_is_Some_2 es n Hn) as [x Hx]. rewrite Hx. by apply Hes. }
  assert (take (length es) (drop (Z.to_nat k) l) = es) as Htd.
  { apply list_eq. intros n. destruct (decide (n < length es)%nat) as [Hn|Hn].
    - rewrite lookup_take_lt, lookup_drop by done. by apply Hat.
    - rewrite lookup_take_ge, lookup_ge_None_2 by lia. done. }
  pose proof (covered_length _ _ _ _ Hc) as Hlen.
  rewrite <-take_take_drop, Htd, replay_app, Hm. simpl. rewrite length_take.
  by replace (1 + Z.of_nat (Z.to_nat k `min` length l)) with (k + 1) by lia.
Qed.

(** ** Fleets with their machines *)

Record Replicas := mkReplicas {
  rp_fleet : Fleet (Store := Store);
  rp_had : list (Z * MemoryStateMachine);   (** every machine there was, and how far it had applied *)
}.
Implicit Types r : Replicas.

Definition state_of e : Z * MemoryStateMachine := (rn_LastApplied (e_node e), e_stateMachine e).

(** A process that has halted serves nothing. *)
Definition recorded e (had : list (Z * MemoryStateMachine)) : list (Z * MemoryStateMachine) :=
  match e_fatal e with None => state_of e :: had | Some _ => had end.

(** What is shipped is a picture of a machine some server had. *)
Definition ships (had : list (Z * MemoryStateMachine)) (m : Mail) : Prop :=
  ∀ req, req ∈ ml_snaps m → ∃ x, (is_LastIncludedIndex req, x) ∈ had ∧ pictures (is_Data req) x.

(** A server starts with a machine some server had. *)
Definition remembers (had : list (Z * MemoryStateMachine)) (p : place (Store := Store)) : Prop :=
  match p with Stopped _ _ => True | Running l0 acts => acts = [] ∧ state_of (lp_engine l0) ∈ had end.

Inductive replicas_step r : Replicas → Prop :=
  | rs_act i l0 acts cached a :
      fl_place (rp_fleet r) i = Running l0 acts → takes i cached a (run acts l0) (fl_mail (rp_fleet r)) →
      clean a (lp_engine (run acts l0)) → ships (rp_had r) (outbox i cached a (run acts l0)) →
      replicas_step r (mkReplicas (acted i cached a l0 acts (rp_fleet r))
        (recorded (lp_engine (act a (run acts l0))) (rp_had r)))
  (** a server stops or starts *)
  | rs_other i p :
      orderly_step config (rp_fleet r) (settle i p (rp_fleet r)) → remembers (rp_had r) p →
      replicas_step r (mkReplicas (settle i p (rp_fleet r)) (rp_had r)).

Definition replicas_initial r : Prop := fleet_initial (rp_fleet r) ∧ rp_had r = [(0, blank)].

Lemma replicas_step_fleet r r' : replicas_step r r' → orderly_step config (rp_fleet r) (rp_fleet r').
Proof. intros [i l0 acts cached a Hp Ha _ _|i p Hs _]; [by apply orderly_act|done]. Qed.

Lemma replicas_fleet r r' : rtc replicas_step r r' → rtc (orderly_step config) (rp_fleet r) (rp_fleet r').
Proof. induction 1 as [|r1 r2 r3 Hs _ IH]; [done|]. eapply rtc_l; [by apply replicas_step_fleet|done]. Qed.

(** ** The invariant *)

Record replicated r0 r (s : spec) : Prop := {
  rd_tracks : tracks config (rp_fleet r0) (rp_fleet r) s;
  rd_had : ∀ k m, (k, m) ∈ rp_had r → genuine s k m;
  rd_engine : ∀ i e, engine_at (rp_fleet r) i e → e_fatal e = None → state_of e ∈ rp_had r;
  rd_mail : ships (rp_had r) (fl_mail (rp_fleet r));
}.

Lemma ships_more had had' m : had ⊆ had' → ships had m → ships had' m.
Proof. intros Hs Hm req Hreq. destruct (Hm req Hreq) as (x & Hx & Hp). exists x. split; [by apply Hs|done]. Qed.

Lemma recorded_more e had : had ⊆ recorded e had.
Proof. unfold recorded. destruct (e_fatal e); [done|]. by apply list_subseteq_cons. Qed.

(** What a server had committed it still has, after a step that commits nothing or
    commits what it leads. *)
Lemma committed_kept f0 f f' s s' i e e' k x :
  fleet_initial f0 → gm (Voters config) ≠ ∅ → tracks config f0 f s → tracks config f0 f' s' → rtc (spec_step (quorum_of config)) s s' →
  engine_at f i e → engine_at f' i e' →
  rn_CommitIndex (e_node e') = rn_CommitIndex (e_node e) ∨ rn_Role (e_node e) = Leader ∧ rn_term (e_node e') = rn_term (e_node e) →
  (k < sp_commit s' i)%nat → sp_log s i !! k = Some x → sp_log s' i !! k = Some x.
Proof.
  intros Hinit Hne Ht Ht' Hss He He' Hcase Hk Hx.
  pose proof (tracks_inv config _ _ _ Ht) as Hi. pose proof (tracks_inv config _ _ _ Ht') as Hi'.
  destruct (advances_rtc s s' Hi Hss) as [Hg _].
  destruct (tracks_up config _ _ _ _ _ Ht He) as [w Hup], (tracks_up config _ _ _ _ _ Ht' He') as [w' Hup'].
  destruct (raft_server _ Hi i) as (_ & _ & _ & Hl & Hcov), (raft_server _ Hi' i) as (_ & _ & _ & _ & Hcov').
  pose proof (up_commit _ _ _ Hup). pose proof (up_commit _ _ _ Hup'). simpl in *.
  destruct Hcase as [Hc|[Hld Hterm]].
  - destruct (covered_agree s' (sp_term s i) _ _ _ _ _ k Hi' (covered_grows _ _ _ _ _ _ _ Hg (Z.le_refl _) (reflexivity _) Hcov) Hcov')
      as [<- _]; [lia|done|done].
  - pose proof (up_role _ _ _ Hup) as Hr. pose proof (up_term _ _ _ Hup) as Hti. pose proof (up_term _ _ _ Hup') as Hti'. simpl in *.
    assert (sp_role s i = Leader) as Hlead by congruence.
    destruct (grows_leader _ _ Hg _ _ _ (Hl Hlead)) as (L & HL & Hpre).
    pose proof (covered_in_leader s' (sp_term s' i) (sp_term s i) _ _ _ _ Hi' ltac:(lia) HL Hcov') as Hcom.
    rewrite (common_lookup _ k _ _ Hcom) by done. by eapply prefix_lookup_Some.
Qed.

(** The machine after an action is what was committed, if those before were. *)
Lemma act_genuine r0 r s s' i l0 acts cached a :
  let l := run acts l0 in
  let e := lp_engine l in
  let e' := lp_engine (act a l) in
  fleet_initial (rp_fleet r0) → gm (Voters config) ≠ ∅ → replicated r0 r s →
  fl_place (rp_fleet r) i = Running l0 acts → takes i cached a l (fl_mail (rp_fleet r)) → clean a e →
  tracks config (rp_fleet r0) (acted i cached a l0 acts (rp_fleet r)) s' → rtc (spec_step (quorum_of config)) s s' →
  e_fatal e' = None → genuine s' (rn_LastApplied (e_node e')) (e_stateMachine e').
Proof.
  intros l e e' Hinit Hne [Ht Hhad Heng Hmail] Hp Ha Hclean Ht' Hss Hf'.
  assert (engine_at (rp_fleet r) i e) as He by by exists l0, acts.
  assert (engine_at (acted i cached a l0 acts (rp_fleet r)) i e') as He'.
  { exists l0, (acts ++ [a]). simpl. rewrite fn_lookup_insert. split; [done|]. by rewrite run_snoc. }
  pose proof (tracks_inv config _ _ _ Ht) as Hi. pose proof (tracks_inv config _ _ _ Ht') as Hi'.
  destruct (advances_rtc s s' Hi Hss) as [Hg _].
  destruct (tracks_up config _ _ _ _ _ Ht He) as [w Hup], (tracks_up config _ _ _ _ _ Ht' He') as [w' Hup'].
  destruct (up_int64 config s i e w Hup Hi) as (Hint & Hcn & _ & _). pose proof (up_applied _ _ _ Hup) as Hap.
  destruct (up_int64 config s' i e' w' Hup' Hi') as (_ & Hcn' & _ & Hlen'). pose proof (seg_bound _ _ (up_log _ _ _ Hup')) as Hb'.
  pose proof (up_commit _ _ _ Hup') as Hcm'. pose proof (seg_lii _ _ (up_log _ _ _ Hup)) as Hlii. simpl in Hap, Hcm', Hb', Hlii.
  destruct Ha as [Hf Ha ((Hroom & _ & _) & _)]. fold l e in Hf, Hroom.
  assert (∀ k m, (k, m) ∈ rp_had r → genuine s' k m) as Hhad' by (intros k m Hkm; by eapply genuine_grows, Hhad).
  assert (genuine s' (rn_LastApplied (e_node e)) (e_stateMachine e)) as Hold by (by apply Hhad', (Heng i)).
  pose proof (act_machine a l) as Hact. cbv zeta in Hact. fold e e' in Hact.
  destruct Hact as [[Hm Hla]|[(Hla & Hcase & es & Hst & Hlen & Hrep)|(req & now & -> & Hla & Hres)]];
    [apply (seg_wf _ _ (up_log _ _ _ Hup))|done|done|done|lia|done|done|lia| | |].
  - by rewrite Hm, Hla.
  - rewrite Hlen.
    destruct (raft_server _ Hi' i) as (_ & _ & _ & _ & Hcov').
    replace (sp_commit s' i) with (Z.to_nat (rn_LastApplied (e_node e)) + length es)%nat in Hcov' by lia.
    eapply genuine_more; [exact Hi'|exact Hold|exact Hcov'| |exact Hrep].
    intros n x Hx. eapply (committed_kept (rp_fleet r0) (rp_fleet r)); [done|done|exact Ht|exact Ht'|exact Hss|exact He|exact He'|done| |].
    + apply lookup_lt_Some in Hx. lia.
    + apply Hst in Hx. rewrite (seg_entry_at _ _ _ (up_log _ _ _ Hup)) in Hx by (simpl; lia). simpl in Hx. rewrite <-Hx. f_equal. lia.
  - destruct (Hmail req Ha) as (x & Hx & Hpic). apply Hhad' in Hx.
    rewrite (Hpic (e_stateMachine e)) in Hres by by rewrite (genuine_ttl _ _ _ Hold), (genuine_ttl _ _ _ Hx).
    injection Hres as Hres. by rewrite Hla, <-Hres.
Qed.

Lemma replicated_step r0 r r' s :
  replicas_initial r0 → gm (Voters config) ≠ ∅ → replicated r0 r s → replicas_step r r' →
  ∃ s', rtc (spec_step (quorum_of config)) s s' ∧ replicated r0 r' s'.
Proof.
  intros [Hinit _] Hne Hr Hs. pose proof (rd_tracks _ _ _ Hr) as Ht.
  destruct (tracks_run config _ _ (rp_fleet r') s Hne Hinit Ht (rtc_once _ _ (replicas_step_fleet _ _ Hs))) as (s' & Hss & Ht').
  exists s'. split; [done|]. destruct (advances_rtc s s' (tracks_inv config _ _ _ Ht) Hss) as [Hg _].
  assert (∀ k m, (k, m) ∈ rp_had r → genuine s' k m) as Hhad by (intros k m Hkm; eapply genuine_grows, (rd_had _ _ _ Hr); done).
  destruct Hs as [i l0 acts cached a Hp Ha Hcl Hsh|i p Hs Hm]; simpl in *.
  - split; simpl; [done| | |].
    + intros k m. unfold recorded. destruct (e_fatal _) eqn:Hf; [apply Hhad|]. intros [[= -> ->]|Hin]%elem_of_cons; [|by apply Hhad].
      by eapply (act_genuine r0 r s).
    + intros j e (l1 & acts1 & Hj & ->) Hf. simpl in Hj. destruct (decide (j = i)) as [->|Hji].
      * rewrite fn_lookup_insert in Hj. injection Hj as <- <-. rewrite run_snoc in *. unfold recorded. rewrite Hf. left.
      * rewrite fn_lookup_insert_ne in Hj by done. apply recorded_more, (rd_engine _ _ _ Hr j); [|done]. by exists l1, acts1.
    + eapply ships_more; [apply recorded_more|]. intros req [Hq|Hq]%elem_of_app; [by apply Hsh|by apply (rd_mail _ _ _ Hr)].
  - split; simpl; [done|done| |exact (rd_mail _ _ _ Hr)].
    intros j e (l1 & acts1 & Hj & ->) Hf. simpl in Hj. destruct (decide (j = i)) as [->|Hji].
    + rewrite fn_lookup_insert in Hj. subst p. by destruct Hm as [-> Hm].
    + rewrite fn_lookup_insert_ne in Hj by done. apply (rd_engine _ _ _ Hr j); [|done]. by exists l1, acts1.
Qed.

Lemma replicated_run r0 r r' s :
  replicas_initial r0 → gm (Voters config) ≠ ∅ → replicated r0 r s → rtc replicas_step r r' →
  ∃ s', rtc (spec_step (quorum_of config)) s s' ∧ replicated r0 r' s'.
Proof.
  intros Hinit Hne Hr Hs. revert s Hr. induction Hs as [r|r1 r2 r3 Hs _ IH]; intros s Hr; [by exists s|].
  destruct (replicated_step r0 r1 r2 s Hinit Hne Hr Hs) as (s2 & Hs2 & Hr2).
  destruct (IH s2 Hr2) as (s3 & Hs3 & Hr3). exists s3. split; [by etrans|done].
Qed.

Lemma replicated_from r0 r :
  replicas_initial r0 → gm (Voters config) ≠ ∅ → rtc replicas_step r0 r → ∃ s, replicated r0 r s.
Proof.
  intros [Hinit Hh] Hne Hs. destruct (replicated_run r0 r0 r spec0) as (s & _ & Hr); [done|done| |done|by exists s].
  split; [by apply tracks_initial| | |].
  - rewrite Hh. intros k m [= -> ->]%list_elem_of_singleton. apply genuine_blank.
  - intros i e (l0 & acts & Hp & _). destruct (initial_stopped _ Hinit i) as (st & rl & Hi). congruence.
  - destruct Hinit as (_ & _ & _ & _ & _ & _ & Hsn & _). intros req. simpl in Hsn. rewrite Hsn. by intros ?%elem_of_nil.
Qed.

(** ** The theorems *)

(** The state after the first [k] of the entries [es]. *)
Definition state_after (es : list LogEntry) (k : Z) : option MemoryStateMachine := replay 1 (take (Z.to_nat k) es) blank.

(** What the log of [e] still holds of the entries its machine has executed is [es]. *)
Definition holds_executed e (es : list LogEntry) : Prop :=
  ∀ k x, 0 < k ≤ rn_LastApplied (e_node e) → GetEntry (e_raftLog e) k = Some x → es !! Z.to_nat (k - 1) = Some x.

(** A server at an earlier moment, seen from a later one. *)
Lemma replica_log r0 r s s' i e t l :
  replicated r0 r s → grows s s' → raft_inv s' → engine_at (rp_fleet r) i e → e_fatal e = None →
  covered s' t l (Z.to_nat (rn_LastApplied (e_node e))) →
  0 ≤ rn_LastApplied (e_node e) ∧ state_after l (rn_LastApplied (e_node e)) = Some (e_stateMachine e) ∧ holds_executed e l.
Proof.
  intros Hr Hg Hi' He Hf Hcov. pose proof (rd_had _ _ _ Hr _ _ (rd_engine _ _ _ Hr i e He Hf)) as Hgen.
  split; [apply Hgen|]. split.
  { eapply genuine_log; [exact Hi'|by eapply genuine_grows|exact Hcov|done]. }
  intros k x Hk Hx. pose proof (rd_tracks _ _ _ Hr) as Ht. destruct (tracks_up config _ _ _ _ _ Ht He) as [w Hup].
  destruct (up_int64 config s i e w Hup (tracks_inv config _ _ _ Ht)) as (Hint & _ & _ & _).
  destruct (entry_in_log _ _ _ k x Hup ltac:(unfold int64 in *; lia) Hx) as [_ Hlog].
  pose proof (up_applied _ _ _ Hup) as Hap. pose proof (up_commit _ _ _ Hup) as Hcm. simpl in Hap, Hcm.
  destruct (raft_server _ (tracks_inv config _ _ _ Ht) i) as (_ & _ & _ & _ & Hci).
  destruct (covered_agree s' (sp_term s i) t (sp_log s i) l _ _ (Z.to_nat (k - 1)) Hi'
    (covered_grows _ _ _ _ _ _ _ Hg (Z.le_refl _) (reflexivity _) Hci) Hcov) as [<- _]; [lia|lia|done].
Qed.

End Replicas.

Section Agreement.
Context {Store : Type} `{StateStoreLaws Store} `{Codec LogEntry} `{Codec Command}.
Context (config : Configuration) (ttl : Z).
Implicit Types (e : Engine Store) (r : Replicas (Store := Store)).

(** C4: replicas agree, in an orderly run of the cluster. Take two servers, at one
    moment or two, neither halted. There is one list of entries that the machine of
    each is the result of executing, on an empty machine, as far as that server has
    applied; and what their logs still hold of what they have applied is in it. So
    two servers that have applied as much have the same state. Orderly
    (FleetSafety.v), and not enforced by the programs: handlers, rounds and starts
    run one at a time; every request is read from one state of its sender
    ([torn_round_breaks_log_matching]); a leader uses no reply to a round of another
    of its leaderships ([stale_reply_loses_write]); a batch is written whole or not
    at all, and an install leaves a well-formed log
    ([ResetToSnapshot_stale_nextIndex]); a shipped snapshot is of applied entries
    its sender's log goes on from; a start recovers the log the server stopped with
    ([settled_start], but [restart_keeps_conflicting_suffix] and WalRaces.v);
    indices and terms fit. On the machines, also not enforced: one session lifetime;
    a server starts with and ships only machines some server had at that applied
    index; an install is not older than what is applied and can be written
    ([snapshot_regresses_machine], [failed_install_diverges]). *)
Theorem replicas_agree r0 r r' (i j : Z) e e' :
  Validate config = None → replicas_initial ttl r0 → rtc (replicas_step config) r0 r → rtc (replicas_step config) r r' →
  engine_at (rp_fleet r) i e → engine_at (rp_fleet r') j e' → e_fatal e = None → e_fatal e' = None →
  ∃ es, Z.of_nat (length es) = rn_LastApplied (e_node e) `max` rn_LastApplied (e_node e') ∧
    state_after ttl es (rn_LastApplied (e_node e)) = Some (e_stateMachine e) ∧ holds_executed e es ∧
    state_after ttl es (rn_LastApplied (e_node e')) = Some (e_stateMachine e') ∧ holds_executed e' es.
Proof.
  intros Hval Hinit Hr Hr' He He' Hf Hf'. assert (gm (Voters config) ≠ ∅) as Hne by by apply Validate_voters. pose proof (quorum_of_Quorums config Hne) as HQ.
  destruct (replicated_from config ttl r0 r Hinit Hne Hr) as [s Hs].
  destruct (replicated_run config ttl r0 r r' s Hinit Hne Hs Hr') as (s' & Hss & Hs').
  pose proof (tracks_inv config _ _ _ (rd_tracks _ _ _ _ _ Hs')) as Hi'.
  destruct (advances_rtc s s' (tracks_inv config _ _ _ (rd_tracks _ _ _ _ _ Hs)) Hss) as [Hg _].
  destruct (genuine_grows _ _ _ _ _ _ Hg (rd_had _ _ _ _ _ Hs _ _ (rd_engine _ _ _ _ _ Hs i e He Hf))) as (Hk & t & l & Hc & _).
  destruct (rd_had _ _ _ _ _ Hs' _ _ (rd_engine _ _ _ _ _ Hs' j e' He' Hf')) as (Hk' & t' & l' & Hc' & _).
  assert (∃ u L, covered (quorum := quorum_of config) s' u L (Z.to_nat (rn_LastApplied (e_node e) `max` rn_LastApplied (e_node e')))) as (u & L & HL).
  { destruct (Z.le_ge_cases (rn_LastApplied (e_node e)) (rn_LastApplied (e_node e'))) as [Hle|Hle];
      [rewrite Z.max_r by done; by exists t', l'|rewrite Z.max_l by done; by exists t, l]. }
  apply covered_first in HL as [HL Hlen]. exists (take (Z.to_nat (rn_LastApplied (e_node e) `max` rn_LastApplied (e_node e'))) L).
  rewrite Hlen. set (es := take _ L) in *. split; [lia|].
  destruct (replica_log config ttl r0 r s s' i e u es Hs Hg Hi' He Hf) as (_ & ? & ?); [eapply covered_le; [|exact HL]; lia|].
  destruct (replica_log config ttl r0 r' s' s' j e' u es Hs' (grows_refl s') Hi' He' Hf') as (_ & ? & ?); [eapply covered_le; [|exact HL]; lia|].
  done.
Qed.

(** C2: acknowledged writes are executed, in an orderly run of the cluster. Once the
    loop of a server has answered a proposal nil, the machine of every server that
    has not halted and has applied that far, from then on, is the result of
    executing on an empty machine a list of entries that has the command, stamped
    and at its index. If it is a SET without a client session and no later entry
    sets or deletes the key, the key has the value. Orderly (FleetSafety.v), and not
    enforced by the programs: handlers, rounds and starts run one at a time; every
    request is read from one state of its sender ([torn_round_breaks_log_matching]);
    a leader uses no reply to a round of another of its leaderships
    ([stale_reply_loses_write]); a batch is written whole or not at all, and an
    install leaves a well-formed log ([ResetToSnapshot_stale_nextIndex]); a shipped
    snapshot is of applied entries its sender's log goes on from; a start recovers
    the log the server stopped with ([settled_start], but
    [restart_keeps_conflicting_suffix] and WalRaces.v); indices and terms fit. On
    the machines, also not enforced: one session lifetime; a server starts with and
    ships only machines some server had at that applied index; an install is not
    older than what is applied and can be written ([snapshot_regresses_machine],
    [failed_install_diverges]). *)
Theorem acknowledged_write_executed r0 r r' (i j : Z) x e :
  Validate config = None → replicas_initial ttl r0 → rtc (replicas_step config) r0 r → rtc (replicas_step config) r r' →
  acknowledged (rp_fleet r) i x → engine_at (rp_fleet r') j e → e_fatal e = None →
  le_Index x ≤ rn_LastApplied (e_node e) →
  ∃ es, Z.of_nat (length es) = rn_LastApplied (e_node e) ∧ es !! Z.to_nat (le_Index x - 1) = Some x ∧
    state_after ttl es (rn_LastApplied (e_node e)) = Some (e_stateMachine e) ∧ holds_executed e es ∧
    ∀ cmd, DecodeCommand (le_Command x) = Ok cmd → cmd_Op cmd = OpSet → cmd_ClientID cmd = ""%string →
      Forall (λ y, ¬ touches (cmd_Key cmd) y) (drop (Z.to_nat (le_Index x)) es) →
      Get (cmd_Key cmd) (e_stateMachine e) = Some (cmd_Value cmd).
Proof.
  intros Hval Hinit Hr Hr' (l0 & before & after & cmd & ch & now & d & d' & Hp & Hrun & [Hnd Hnil] & ->) He Hf Hidx.
  assert (gm (Voters config) ≠ ∅) as Hne by by apply Validate_voters. pose proof (quorum_of_Quorums config Hne) as HQ. set (x := proposed cmd now _) in *.
  destruct (acknowledged_moments config rp_fleet (replicas_step config) r0 r i l0 before after cmd ch now d d')
    as (g2 & g4 & e2 & e4 & Hg2 & Hg24 & Hg4 & He2 & Hld & Htm & Hint & Hx & He4 & Ht4 & Hc4);
    [apply replicas_step_fleet|done|apply Hinit|done..|]. fold x in Htm, Hint, Hx, Ht4, Hc4.
  destruct (replicated_from config ttl r0 g2 Hinit Hne Hg2) as [s2 Hs2].
  destruct (replicated_run config ttl r0 g2 g4 s2 Hinit Hne Hs2 Hg24) as (s4 & Hs24 & Hs4).
  destruct (replicated_run config ttl r0 g4 r' s4 Hinit Hne Hs4) as (s' & Hs4' & Hs'); [by etrans|].
  pose proof (rd_tracks _ _ _ _ _ Hs2) as T2. pose proof (rd_tracks _ _ _ _ _ Hs4) as T4. pose proof (rd_tracks _ _ _ _ _ Hs') as T'.
  pose proof (tracks_inv config _ _ _ T4) as Hi4. pose proof (tracks_inv config _ _ _ T') as Hi'.
  destruct (leaders_entry config _ _ s2 i e2 _ x T2 He2 Hld Hint Hx) as (Hpos & L & HL & HLx). rewrite Htm in HL.
  destruct (advances_rtc s2 s4 (tracks_inv config _ _ _ T2) Hs24) as [Hg2' _]. destruct (advances_rtc s4 s' Hi4 Hs4') as [Hg4' _].
  destruct (grows_leader _ _ Hg2' _ _ _ HL) as (L4 & HL4 & Hpre).
  destruct (tracks_up config _ _ _ _ _ T4 He4) as [w Hup]. destruct (raft_server _ Hi4 i) as (_ & _ & _ & _ & Hcov4).
  pose proof (up_term _ _ _ Hup) as Hti. simpl in Hti. rewrite Hti, Ht4 in Hcov4.
  destruct (up_committed config s4 i _ (le_Index x) Hi4 Hup) as [Hlt _]; [by split|].
  pose proof (covered_in_leader s4 (le_Term x) (le_Term x) _ _ _ _ Hi4 ltac:(lia) HL4 Hcov4) as Hcom.
  assert (sp_log s4 i !! Z.to_nat (le_Index x - 1) = Some x) as Hx4.
  { rewrite (common_lookup _ _ _ _ Hcom Hlt). by eapply prefix_lookup_Some. }
  destruct (rd_had _ _ _ _ _ Hs' _ _ (rd_engine _ _ _ _ _ Hs' j e He Hf)) as (Hk & t & l & Hc & _).
  apply covered_first in Hc as [Hc Hlen]. set (es := take _ l) in *. exists es. rewrite Hlen. split; [lia|].
  destruct (replica_log config ttl r0 r' s' s' j e t es Hs' (grows_refl s') Hi' He Hf Hc) as (_ & Hst & ?).
  assert (es !! Z.to_nat (le_Index x - 1) = Some x) as Hes; [|split_and!; [done..|]].
  2:{ intros c Hd Ho Hcl Hall. unfold state_after in Hst. rewrite take_ge in Hst by lia.
      eapply (replay_last_set 1 es); [exact Hst|exact Hes|exact Hd|done|done|].
      by replace (S (Z.to_nat (le_Index x - 1))) with (Z.to_nat (le_Index x)) by lia. }
  destruct (covered_agree s' (le_Term x) t (sp_log s4 i) es _ _ (Z.to_nat (le_Index x - 1)) Hi'
    (covered_grows _ _ _ _ _ _ _ Hg4' (Z.le_refl _) (reflexivity _) Hcov4) Hc) as [<- _]; [lia|lia|done].
Qed.

End Agreement.
