(* ===== verification/FakeNet.v ===== *)
(** * The network of the test harness (internal/testcluster/fakenet.go)

    Directed cuts, random loss and delays between registered receivers.  The
    registry holds pointers: receivers live in a store of their own, and a
    delivered call updates the receiver it points to.  The random draw of a lossy
    link is an argument, and so is the network at the moment the reply leaves,
    which may differ from the one the request met. *)

From Stdlib Require Import QArith.
From S2P Require Import Prelude Types Rpc.
#[local] Open Scope Z_scope.

Record fakeNet := mkFakeNet {
  fn_handlers : gmap string Z;   (** address to receiver *)
  fn_cut : gmap string bool;
  fn_dropRate : Q;
  fn_delay : Z;
  fn_blackholeDelay : Z;
}.

Definition newFakeNet : fakeNet := mkFakeNet ∅ ∅ 0%Q 0 0.

Definition with_cut (c : gmap string bool) (n : fakeNet) : fakeNet :=
  mkFakeNet (fn_handlers n) c (fn_dropRate n) (fn_delay n) (fn_blackholeDelay n).

Definition register (addr : string) (h : Z) (n : fakeNet) : fakeNet :=
  mkFakeNet (<[addr := h]> (fn_handlers n)) (fn_cut n) (fn_dropRate n) (fn_delay n) (fn_blackholeDelay n).

Definition linkKey (from to : string) : string := from +:+ "→" +:+ to.

(** A key the map does not hold reads as false. *)
Definition is_cut (n : fakeNet) (from to : string) : bool := default false (fn_cut n !! linkKey from to).

(** ** Cuts *)

Definition cutLink (from to : string) (n : fakeNet) : fakeNet :=
  with_cut (<[linkKey from to := true]> (fn_cut n)) n.

Definition healLink (from to : string) (n : fakeNet) : fakeNet :=
  with_cut (delete (linkKey from to) (fn_cut n)) n.

(** The loops over the registry, in an order the map does not fix. *)
Fixpoint isolate_from (addr : string) (others : list string) (c : gmap string bool) : gmap string bool :=
  match others with
  | [] => c
  | other :: others =>
      if String.eqb other addr then isolate_from addr others c
      else isolate_from addr others (<[linkKey other addr := true]> (<[linkKey addr other := true]> c))
  end.

Definition isolate (addr : string) (n : fakeNet) : fakeNet :=
  with_cut (isolate_from addr (map_to_list (fn_handlers n)).*1 (fn_cut n)) n.

Fixpoint heal_from (addr : string) (others : list string) (c : gmap string bool) : gmap string bool :=
  match others with
  | [] => c
  | other :: others => heal_from addr others (delete (linkKey other addr) (delete (linkKey addr other) c))
  end.

Definition heal (addr : string) (n : fakeNet) : fakeNet :=
  with_cut (heal_from addr (map_to_list (fn_handlers n)).*1 (fn_cut n)) n.

Definition healAll (n : fakeNet) : fakeNet := with_cut ∅ n.

Definition setDropRate (p : Q) (n : fakeNet) : fakeNet :=
  mkFakeNet (fn_handlers n) (fn_cut n) p (fn_delay n) (fn_blackholeDelay n).

Definition setBlackholeDelay (d : Z) (n : fakeNet) : fakeNet :=
  mkFakeNet (fn_handlers n) (fn_cut n) (fn_dropRate n) (fn_delay n) d.

Definition setDelay (d : Z) (n : fakeNet) : fakeNet :=
  mkFakeNet (fn_handlers n) (fn_cut n) (fn_dropRate n) d (fn_blackholeDelay n).

(** ** Delivery *)

Definition Qlt_bool (p q : Q) : bool := negb (Qle_bool q p).

(** The receiver, and how long the caller sleeps first.  [draw] is the random number
    of a lossy link. *)
Definition route (from to : string) (draw : Q) (n : fakeNet) : result Z * Z :=
  if is_cut n from to then (Err ("link " +:+ linkKey from to +:+ " is cut")%string, fn_blackholeDelay n)
  else if Qlt_bool 0 (fn_dropRate n) && Qlt_bool draw (fn_dropRate n) then
    (Err ("packet from " +:+ from +:+ " to " +:+ to +:+ " dropped")%string, 0)
  else
    match fn_handlers n !! to with
    | None => (Err ("no node listening at " +:+ to)%string, 0)
    | Some h => (Ok h, fn_delay n)
    end.

Definition responseBlocked (from to : string) (n : fakeNet) : bool := is_cut n to from.

Section Deliver.
Context {T : Type}.

(** One RPC: the request leg on [n1], the receiver in [nodes], the response leg on
    [n2].  Also how long the caller slept. *)
Definition deliver {Req Resp} (call : Req → T → Resp * T) (n1 n2 : fakeNet) (draw : Q)
    (from to : string) (req : Req) (nodes : gmap Z T) : result Resp * Z * gmap Z T :=
  match route from to draw n1 with
  | (Err e, slept) => (Err e, Z.max 0 slept, nodes)
  | (Ok h, slept) =>
      match nodes !! h with
      | None => (Err "nil receiver"%string, Z.max 0 slept, nodes)
      | Some t =>
          let '(resp, t) := call req t in
          let nodes := <[h := t]> nodes in
          if responseBlocked from to n2 then
            (Err ("response from " +:+ to +:+ " to " +:+ from +:+ " is cut")%string, Z.max 0 slept, nodes)
          else (Ok resp, Z.max 0 slept, nodes)
      end
  end.

(** The network as a transport of one node: what each call returns. *)
Definition nodeTransport {Env} `{rpcHandler T Env} (env : Env) (n1 n2 : fakeNet) (draw : Q) (from : string)
    (nodes : gmap Z T) : Transport :=
  mkTransport
    (λ to req, (deliver (rpc_AppendEntries env) n1 n2 draw from to req nodes).1.1)
    (λ to req, (deliver (rpc_PreVote env) n1 n2 draw from to req nodes).1.1)
    (λ to req, (deliver (rpc_RequestVote env) n1 n2 draw from to req nodes).1.1)
    (λ to req, (deliver (rpc_InstallSnapshot env) n1 n2 draw from to req nodes).1.1)
    (λ to req, (deliver (rpc_ReadIndex env) n1 n2 draw from to req nodes).1.1).

End Deliver.

(** ** Which links a cut touches *)

(** Addresses in which the separator of [linkKey] does not occur. *)
Fixpoint plain_addr (a : string) : Prop :=
  match a with
  | String.EmptyString => True
  | String.String c a => Ascii.nat_of_ascii c ≠ 226%nat ∧ plain_addr a
  end.

#[export] Instance plain_addr_dec a : Decision (plain_addr a).
Proof. induction a as [|c a IH]; simpl; apply _. Defined.

Lemma linkKey_inj f t f' t' :
  plain_addr f → plain_addr f' → linkKey f t = linkKey f' t' → f = f' ∧ t = t'.
Proof.
  unfold linkKey. revert f'. induction f as [|c f IH]; intros [|c' f'] Hf Hf' He.
  - injection He as He. by split.
  - injection He as <- _. by destruct Hf' as [Hc _].
  - injection He as -> _. by destruct Hf as [Hc _].
  - injection He as -> He. destruct Hf as [_ Hf], Hf' as [_ Hf']. by destruct (IH f' Hf Hf' He) as [-> ->].
Qed.

Lemma isolate_from_other addr others k : ∀ c,
  (∀ o, o ∈ others → o ≠ addr → k ≠ linkKey addr o ∧ k ≠ linkKey o addr) →
  isolate_from addr others c !! k = c !! k.
Proof.
  induction others as [|o others IH]; intros c Hk; [done|]. simpl.
  destruct (String.eqb_spec o addr); [apply IH; set_solver|].
  rewrite IH by set_solver. destruct (Hk o) as [H1 H2]; [set_solver|done|].
  by rewrite !lookup_insert_ne.
Qed.

Lemma isolate_from_cut addr others o : ∀ c, o ∈ others → o ≠ addr →
  isolate_from addr others c !! linkKey addr o = Some true ∧
  isolate_from addr others c !! linkKey o addr = Some true.
Proof.
  assert (∀ others c k, c !! k = Some true → isolate_from addr others c !! k = Some true) as Hkeep.
  { clear. induction others as [|o others IH]; intros c k Hc; [done|]. simpl.
    destruct (String.eqb o addr); apply IH; [done|]. by rewrite !lookup_insert_Some, Hc; destruct (decide (linkKey o addr = k)), (decide (linkKey addr o = k)); auto. }
  induction others as [|o' others IH]; intros c Hin Hne; [by apply elem_of_nil in Hin|]. simpl.
  apply elem_of_cons in Hin as [->|Hin]; destruct (String.eqb_spec o' addr); try done; try (by apply IH).
  split; apply Hkeep; [|by rewrite lookup_insert_eq].
  destruct (decide (linkKey o' addr = linkKey addr o')) as [->|Hd]; [by rewrite lookup_insert_eq|].
  by rewrite lookup_insert_ne, lookup_insert_eq.
Qed.

Lemma heal_from_other addr others k : ∀ c,
  (∀ o, o ∈ others → k ≠ linkKey addr o ∧ k ≠ linkKey o addr) → heal_from addr others c !! k = c !! k.
Proof.
  induction others as [|o others IH]; intros c Hk; [done|]. simpl.
  rewrite IH by set_solver. destruct (Hk o) as [H1 H2]; [set_solver|]. by rewrite !lookup_delete_ne.
Qed.

Lemma heal_from_healed addr others o : ∀ c, o ∈ others →
  heal_from addr others c !! linkKey addr o = None ∧ heal_from addr others c !! linkKey o addr = None.
Proof.
  assert (∀ others c k, c !! k = None → heal_from addr others c !! k = None) as Hkeep.
  { clear. induction others as [|o others IH]; intros c k Hc; [done|]. simpl. apply IH.
    by rewrite !lookup_delete_None; auto. }
  induction others as [|o' others IH]; intros c Hin; [by apply elem_of_nil in Hin|]. simpl.
  apply elem_of_cons in Hin as [->|Hin]; [|by apply IH].
  split; apply Hkeep; rewrite lookup_delete_None; [right|by left]. by rewrite lookup_delete_eq.
Qed.

(** The receivers a network knows. *)
Definition listening (n : fakeNet) (a : string) : Prop := is_Some (fn_handlers n !! a).

Lemma listening_list n a : a ∈ (map_to_list (fn_handlers n)).*1 ↔ listening n a.
Proof.
  unfold listening. rewrite list_elem_of_fmap. split.
  - intros ([k h] & -> & Hin%elem_of_map_to_list). by eexists.
  - intros [h Hh]. exists (a, h). split; [done|]. by apply elem_of_map_to_list.
Qed.

(** a partition is what it says.  Isolating an address cuts both directions to
    every other receiver, so no request crosses whatever the draw, and touches no
    link between two others; healing it restores exactly its links with the
    receivers; and the keys of two different links are never confused. *)
Theorem isolate_correct (n : fakeNet) (addr : string) :
  (∀ a, listening n a → plain_addr a) → plain_addr addr →
  (∀ o draw, listening n o → o ≠ addr →
     (∃ e, (route addr o draw (isolate addr n)).1 = Err e) ∧ (∃ e, (route o addr draw (isolate addr n)).1 = Err e)) ∧
  (∀ f t, plain_addr f → plain_addr t → f ≠ addr → t ≠ addr → is_cut (isolate addr n) f t = is_cut n f t) ∧
  (∀ o, listening n o → is_cut (heal addr n) addr o = false ∧ is_cut (heal addr n) o addr = false) ∧
  (∀ f t, plain_addr f → plain_addr t → f ≠ addr → t ≠ addr → is_cut (heal addr n) f t = is_cut n f t).
Proof.
  intros Hplain Ha.
  assert (∀ f t o, plain_addr f → plain_addr o → f ≠ addr → t ≠ addr →
    linkKey f t ≠ linkKey addr o ∧ linkKey f t ≠ linkKey o addr) as Hother.
  { intros f t o Hf Ho Hfa Hta. split; intros [? ?]%linkKey_inj; done. }
  split_and!.
  - intros o draw Ho%listening_list Hne.
    destruct (isolate_from_cut addr _ o (fn_cut n) Ho Hne) as [H1 H2].
    unfold route, is_cut, isolate, with_cut. cbn [fn_cut]. rewrite H1, H2. split; by eexists.
  - intros f t Hf Ht Hfa Hta. unfold is_cut, isolate, with_cut. cbn [fn_cut].
    rewrite isolate_from_other; [done|]. intros o Ho%listening_list _. apply Hother; auto.
  - intros o Ho%listening_list. destruct (heal_from_healed addr _ o (fn_cut n) Ho) as [H1 H2].
    unfold is_cut, heal, with_cut. cbn [fn_cut]. by rewrite H1, H2.
  - intros f t Hf Ht Hfa Hta. unfold is_cut, heal, with_cut. cbn [fn_cut].
    rewrite heal_from_other; [done|]. intros o Ho%listening_list. apply Hother; auto.
Qed.

(** an RPC takes effect exactly when its request gets through, and is answered
    exactly when its reply does too.  On a cut, lossy or dead link nothing happens
    to any receiver; otherwise the receiver runs its handler once, and the caller
    sees the handler's response unless the way back is cut by then, in which case
    it learns nothing although the request took effect. *)
Theorem deliver_correct {Req Resp T} (call : Req → T → Resp * T) (n1 n2 : fakeNet) (draw : Q)
    (from to : string) (req : Req) (nodes : gmap Z T) (r : result Resp) (slept : Z) (nodes' : gmap Z T) :
  deliver call n1 n2 draw from to req nodes = (r, slept, nodes') →
  (∀ h, fn_handlers n1 !! to = Some h → is_Some (nodes !! h)) →
  (is_cut n1 from to = true ∨ fn_handlers n1 !! to = None ∨ (0 < fn_dropRate n1 ∧ draw < fn_dropRate n1)%Q) ∧
    nodes' = nodes ∧ (∃ e, r = Err e) ∨
  ∃ h t, fn_handlers n1 !! to = Some h ∧ nodes !! h = Some t ∧ is_cut n1 from to = false ∧
    nodes' = <[h := (call req t).2]> nodes ∧
    (is_cut n2 to from = true ∧ (∃ e, r = Err e) ∨ is_cut n2 to from = false ∧ r = Ok (call req t).1).
Proof.
  assert (∀ p q, Qlt_bool p q = true ↔ (p < q)%Q) as Hlt.
  { intros p q. unfold Qlt_bool. rewrite negb_true_iff, <-not_true_iff_false, Qle_bool_iff. split; [apply Qnot_le_lt|apply Qlt_not_le]. }
  unfold deliver, route, responseBlocked. destruct (is_cut n1 from to).
  { intros [= <- <- <-] _. left. eauto 7. }
  destruct (Qlt_bool 0 (fn_dropRate n1) && Qlt_bool draw (fn_dropRate n1)) eqn:Hd.
  { intros [= <- <- <-] _. left. apply andb_true_iff in Hd as [?%Hlt ?%Hlt]. eauto 7. }
  destruct (fn_handlers n1 !! to) as [h|] eqn:Hh; [|intros [= <- <- <-] _; left; eauto 7].
  intros He Hlive. destruct (Hlive h eq_refl) as [t Ht]. rewrite Ht in He. right. exists h, t.
  destruct (call req t) as [resp t'] eqn:Hc. destruct (is_cut n2 to from); injection He as <- <- <-; eauto 10.
Qed.
