(* ===== verification/TestCluster.v ===== *)
(** * The test cluster (internal/testcluster/cluster.go)

    Real servers over the fake network, started as main starts them, and the
    harness around them: the election-safety monitor, the waits, which poll, and
    the client operations.  The nodes run while the harness sleeps, so a wait is a
    function of what its polls observed, each an order in which the map of nodes
    was ranged over together with the nodes; fewer polls stand for an earlier
    deadline.  [t.Fatalf] ends the test: it is an error. *)

From stdpp Require Import pretty.
From Stdlib Require Import QArith.
From S2P Require Import Prelude Configuration Os Json FsUtil Types Rpc Encoding StateMachine RaftLog RaftLogFacts RaftNode Snapshot RaftNodeFacts StateFile Config Replicator Engine EngineLoop EngineApi EngineRun Cluster FakeNet.
#[local] Open Scope Z_scope.

(** ** State *)

Record Node := mkNode {
  nd_ID : Z;
  nd_Addr : string;
  nd_Engine : Loop fileStateStore;   (** with the node, the log and the store it owns *)
  nd_DataDir : string;
  nd_done : bool;                    (** the channel is closed *)
}.

Definition nd_Raft (n : Node) : RaftNode fileStateStore := e_node (lp_engine (nd_Engine n)).
Definition nd_Store (n : Node) : MemoryStateMachine := e_stateMachine (lp_engine (nd_Engine n)).

Record TestCluster := mkTestCluster {
  tc_Nodes : gmap Z Node;
  tc_net : fakeNet;
  tc_termLeaders : gmap Z Z;
}.

Record Options := mkOptions { op_Size : Z; op_CompactionThreshold : Z }.

(** ** Construction *)

Definition node_addr (id : Z) : string := "node-" +:+ pretty id.

Definition default_size (opts : Options) : Z := if op_Size opts <=? 0 then 3 else op_Size opts.

Definition voters_of (opts : Options) : gmap Z string :=
  list_to_map ((λ id, (id, node_addr id)) <$> seqZ 1 (default_size opts)).

(** One pass of the loop of [New]: a server on empty disks in the directory [dir]. *)
Definition new_node (opts : Options) (dir : string) (now draw id : Z) : result Node :=
  let voters := voters_of opts in
  let cfg := mkConfig id "" dir (delete id voters) (op_CompactionThreshold opts) 0 in
  match NewRaftLog (WALPath cfg) blank with
  | (Err e, _) => Err ("node " +:+ pretty id +:+ ": NewRaftLog: " +:+ e)%string
  | (Ok _, rl) =>
      let rl := SetCompactionThreshold (op_CompactionThreshold opts) rl in
      match (NewRaftNode id (NewConfiguration (Some voters)) (mkFileStateStore (MetadataPath cfg) blank) Follower now).1 with
      | Err e => Err ("node " +:+ pretty id +:+ ": NewRaftNode: " +:+ e)%string
      | Ok rn =>
          let eng := NewWithTransport rn rl NewMemoryStateMachine (SnapshotPath cfg) draw in
          Ok (mkNode id (node_addr id) (start eng) dir false)
      end
  end.

Fixpoint new_nodes (opts : Options) (dir : Z → string) (now : Z) (draw : Z → Z) (ids : list Z)
    (c : TestCluster) : result TestCluster :=
  match ids with
  | [] => Ok c
  | id :: ids =>
      match new_node opts (dir id) now (draw id) id with
      | Err e => Err e
      | Ok n =>
          new_nodes opts dir now draw ids
            (mkTestCluster (<[id := n]> (tc_Nodes c)) (register (nd_Addr n) id (tc_net c)) (tc_termLeaders c))
      end
  end.

Definition New (opts : Options) (dir : Z → string) (now : Z) (draw : Z → Z) : result TestCluster :=
  new_nodes opts dir now draw (seqZ 1 (default_size opts)) (mkTestCluster ∅ newFakeNet ∅).

(** The loop takes [done], then the WAL is closed. *)
Definition stop_node (now : Z) (n : Node) : Node :=
  let l := if nd_done n then nd_Engine n else act (Select Done now 0 0) (nd_Engine n) in
  let e := lp_engine l in
  let l := mkLoop (with_log (Close (e_raftLog e)).2 e) (lp_stopped l) (lp_asked l) (lp_flight l) (lp_acked l) in
  mkNode (nd_ID n) (nd_Addr n) l (nd_DataDir n) true.

Definition Stop (now : Z) (c : TestCluster) : TestCluster :=
  mkTestCluster (stop_node now <$> tc_Nodes c) (tc_net c) (tc_termLeaders c).

(** ** The monitor *)

(** [CheckSingleLeaderPerTerm] over the nodes in the order of the range. *)
Fixpoint CheckSingleLeaderPerTerm (ns : list Node) (termLeaders : gmap Z Z) : result unit * gmap Z Z :=
  match ns with
  | [] => (Ok tt, termLeaders)
  | n :: ns =>
      let '(role, term) := State (nd_Raft n) in
      if bool_decide (role ≠ Leader) then CheckSingleLeaderPerTerm ns termLeaders
      else
        let seen := termLeaders !! term in
        if bool_decide (is_Some seen) && negb (default 0 seen =? nd_ID n) then
          (Err ("ELECTION SAFETY VIOLATED: nodes " +:+ pretty (default 0 seen) +:+ " and " +:+ pretty (nd_ID n)
                +:+ " both led term " +:+ pretty term)%string, termLeaders)
        else CheckSingleLeaderPerTerm ns (<[term := nd_ID n]> termLeaders)
  end.

(** ** Waits *)

(** What one poll sees. *)
Record poll := mkPoll { po_range : list Node; po_Nodes : gmap Z Node }.

Definition leaders_among (ids : list Z) (nodes : gmap Z Node) : list Node :=
  filter (λ n, IsLeader (nd_Raft n) = true) (omap (nodes !!.) ids).

Fixpoint WaitLeaderAmong (ids : list Z) (polls : list poll) (seen : gmap Z Z) : result Node * gmap Z Z :=
  match polls with
  | [] => (Err "no single leader among the nodes within the timeout"%string, seen)
  | p :: polls =>
      match CheckSingleLeaderPerTerm (po_range p) seen with
      | (Err e, seen) => (Err e, seen)
      | (Ok _, seen) =>
          match leaders_among ids (po_Nodes p) with
          | [n] => (Ok n, seen)
          | _ => WaitLeaderAmong ids polls seen
          end
      end
  end.

(** [ids]: the nodes, in the order of a range. *)
Definition WaitLeader (ids : list Z) (polls : list poll) (seen : gmap Z Z) : result Node * gmap Z Z :=
  WaitLeaderAmong ids polls seen.

Fixpoint WaitNoLeaderAmong (ids : list Z) (polls : list poll) (seen : gmap Z Z) : result unit * gmap Z Z :=
  match polls with
  | [] => (Ok tt, seen)
  | p :: polls =>
      match CheckSingleLeaderPerTerm (po_range p) seen with
      | (Err e, seen) => (Err e, seen)
      | (Ok _, seen) =>
          match leaders_among ids (po_Nodes p) with
          | n :: _ => (Err ("node " +:+ pretty (nd_ID n) +:+ " became leader without a quorum")%string, seen)
          | [] => WaitNoLeaderAmong ids polls seen
          end
      end
  end.

(** A node the map does not hold is a nil dereference. *)
Definition has_applied (key value : string) (nodes : gmap Z Node) (id : Z) : bool :=
  match nodes !! id with
  | Some n => bool_decide (Get key (nd_Store n) = Some value)
  | None => false
  end.

Fixpoint WaitApplied (ids : list Z) (key value : string) (polls : list poll) (seen : gmap Z Z)
    : result unit * gmap Z Z :=
  match polls with
  | [] => (Err ("nodes did not converge on " +:+ key +:+ "=" +:+ value)%string, seen)
  | p :: polls =>
      match CheckSingleLeaderPerTerm (po_range p) seen with
      | (Err e, seen) => (Err e, seen)
      | (Ok _, seen) =>
          if forallb (has_applied key value (po_Nodes p)) ids then (Ok tt, seen)
          else WaitApplied ids key value polls seen
      end
  end.

(** ** Client operations *)

(** [submit]: what became of the proposal at the node's engine. *)
Definition propose (n : Node) (cmd : Command) (submit : Node → Command → handoff err) : err :=
  match submit n cmd with
  | Answer e => e
  | Busy => Some (ErrOther ("node " +:+ pretty (nd_ID n) +:+ ": proposal queue full")%string)
  | Late | Gone => Some (ErrOther ("node " +:+ pretty (nd_ID n) +:+ ": proposal timed out")%string)
  end.

Definition SetVia (n : Node) (key value : string) (submit : Node → Command → handoff err) : err :=
  propose n (mkCommand OpSet key value "" 0 0) submit.

Definition ClusterSet (ids : list Z) (key value : string) (submit : Node → Command → handoff err)
    (polls : list poll) (seen : gmap Z Z) : result err * gmap Z Z :=
  match WaitLeader ids polls seen with
  | (Err e, seen) => (Err e, seen)
  | (Ok leader, seen) => (Ok (SetVia leader key value submit), seen)
  end.

Definition SetTagged (n : Node) (key value clientID : string) (seq : Z) (submit : Node → Command → handoff err) : err :=
  propose n (mkCommand OpSet key value clientID seq 0) submit.

Definition DeleteTagged (n : Node) (key clientID : string) (seq : Z) (submit : Node → Command → handoff err) : err :=
  propose n (mkCommand OpDelete key "" clientID seq 0) submit.

(** [n'] is the node when the value is looked up. *)
Definition ClusterRead (n' : Node) (key : string) (w : read_world fileStateStore) : option string + engine_error :=
  match LinearizableRead w with
  | Some e => inr e
  | None => inl (Get key (nd_Store n'))
  end.

Definition ReadBounded (n' : Node) (key : string) (maxStaleness now : Z) (w : read_world fileStateStore)
    : option string + engine_error :=
  match EngineRead (mkReadOptions BoundedStale maxStaleness) now w with
  | Some e => inr e
  | None => inl (Get key (nd_Store n'))
  end.

(** ** Faults *)

Definition with_net (f : fakeNet → fakeNet) (c : TestCluster) : TestCluster :=
  mkTestCluster (tc_Nodes c) (f (tc_net c)) (tc_termLeaders c).

(** The address of a node the test names. *)
Definition addr_of (id : Z) (c : TestCluster) : string := default ""%string (nd_Addr <$> tc_Nodes c !! id).

Definition Isolate (id : Z) (c : TestCluster) : TestCluster := with_net (isolate (addr_of id c)) c.
Definition Heal (id : Z) (c : TestCluster) : TestCluster := with_net (heal (addr_of id c)) c.
Definition HealAll (c : TestCluster) : TestCluster := with_net healAll c.
Definition Cut (from to : Z) (c : TestCluster) : TestCluster := with_net (cutLink (addr_of from c) (addr_of to c)) c.
Definition SetDropRate (p : Q) (c : TestCluster) : TestCluster := with_net (setDropRate p) c.
Definition SetDelay (d : Z) (c : TestCluster) : TestCluster := with_net (setDelay d) c.
Definition SetBlackholeDelay (d : Z) (c : TestCluster) : TestCluster := with_net (setBlackholeDelay d) c.

(** [range]: the ids in the order of the range. *)
Definition Others (exclude range : list Z) : list Z := filter (λ id, id ∉ exclude) range.

(** The receivers the network points to, and one node's transport over it. *)
Definition receivers (c : TestCluster) : gmap Z (Engine fileStateStore) := (λ n, lp_engine (nd_Engine n)) <$> tc_Nodes c.

Definition transport_of (env : call) (c : TestCluster) (n2 : fakeNet) (draw : Q) (n : Node) : Transport :=
  nodeTransport env (tc_net c) n2 draw (nd_Addr n) (receivers c).

(** ** The monitor is exact *)

Definition leads (n : Node) (t : Z) : Prop := rn_Role (nd_Raft n) = Leader ∧ rn_term (nd_Raft n) = t.

(** The observations, and what was recorded before, name one leader per term. *)
Definition one_leader (ns : list Node) (seen : gmap Z Z) : Prop :=
  (∀ n t p, n ∈ ns → leads n t → seen !! t = Some p → p = nd_ID n) ∧
  (∀ n1 n2 t, n1 ∈ ns → n2 ∈ ns → leads n1 t → leads n2 t → nd_ID n1 = nd_ID n2).

Lemma one_leader_skip n ns seen :
  rn_Role (nd_Raft n) ≠ Leader → one_leader (n :: ns) seen ↔ one_leader ns seen.
Proof.
  intros Hn. unfold one_leader. setoid_rewrite elem_of_cons. split; intros [H1 H2]; split; try naive_solver.
  - intros m t p [->|Hm] Hlm; [by destruct Hlm|]. by apply (H1 m t p).
  - intros n1 n2 t [->|H3] [->|H4] Hl1 Hl2; try (by destruct Hl1); try (by destruct Hl2). by apply (H2 n1 n2 t).
Qed.

Lemma one_leader_record n ns seen :
  rn_Role (nd_Raft n) = Leader →
  one_leader (n :: ns) seen ↔
  (∀ p, seen !! rn_term (nd_Raft n) = Some p → p = nd_ID n) ∧ one_leader ns (<[rn_term (nd_Raft n) := nd_ID n]> seen).
Proof.
  intros Hn. assert (leads n (rn_term (nd_Raft n))) as Hl by done. unfold one_leader. setoid_rewrite elem_of_cons. split.
  - intros [H1 H2]. split_and!; [naive_solver| |naive_solver].
    intros m t p Hm Hlm. rewrite lookup_insert_Some. intros [[<- <-]|[_ Hp]]; [|naive_solver].
    apply (H2 n m (rn_term (nd_Raft n))); auto.
  - intros (H0 & H1 & H2). split.
    + intros m t p [->|Hm] Hlm Hp; [destruct Hlm as [_ <-]; auto|].
      destruct (decide (rn_term (nd_Raft n) = t)) as [<-|Hne].
      * rewrite (H0 p Hp). apply (H1 m (rn_term (nd_Raft n))); [done|done|]. by rewrite lookup_insert_eq.
      * apply (H1 m t); [done|done|]. by rewrite lookup_insert_ne.
    + assert (∀ m t, m ∈ ns → leads m t → leads n t → nd_ID n = nd_ID m) as Hnm.
      { intros m t Hm Hlm [_ <-]. apply (H1 m (rn_term (nd_Raft n))); [done|done|]. by rewrite lookup_insert_eq. }
      intros n1 n2 t [->|H3] [->|H4] Hl1 Hl2; [done|by eapply Hnm|symmetry; by eapply Hnm|by apply (H2 n1 n2 t)].
Qed.

Lemma Check_spec ns : ∀ seen, (CheckSingleLeaderPerTerm ns seen).1 = Ok tt ↔ one_leader ns seen.
Proof.
  induction ns as [|n ns IH]; intros seen; simpl.
  { split; [|done]. intros _. split; intros ? *; by rewrite elem_of_nil. }
  case_bool_decide as Hr; [by rewrite IH, one_leader_skip|].
  assert (rn_Role (nd_Raft n) = Leader) as Hl by (destruct (decide (rn_Role (nd_Raft n) = Leader)); [done|by destruct Hr]).
  rewrite one_leader_record by done. rewrite <-IH.
  destruct (seen !! rn_term (nd_Raft n)) as [p|] eqn:Hp; simpl; [|by naive_solver].
  destruct (Z.eqb_spec p (nd_ID n)) as [->|Hne]; simpl; naive_solver.
Qed.

(** The polls of a test share one record. *)
Fixpoint monitor (ranges : list (list Node)) (seen : gmap Z Z) : result unit * gmap Z Z :=
  match ranges with
  | [] => (Ok tt, seen)
  | ns :: ranges =>
      match CheckSingleLeaderPerTerm ns seen with
      | (Err e, seen) => (Err e, seen)
      | (Ok _, seen) => monitor ranges seen
      end
  end.

Lemma Check_app ns1 ns2 : ∀ seen,
  CheckSingleLeaderPerTerm (ns1 ++ ns2) seen =
  match CheckSingleLeaderPerTerm ns1 seen with
  | (Err e, seen) => (Err e, seen)
  | (Ok _, seen) => CheckSingleLeaderPerTerm ns2 seen
  end.
Proof.
  induction ns1 as [|n ns1 IH]; intros seen; simpl; [done|].
  case_bool_decide; [apply IH|]. by destruct (_ && _).
Qed.

Lemma monitor_concat ranges : ∀ seen, monitor ranges seen = CheckSingleLeaderPerTerm (concat ranges) seen.
Proof.
  induction ranges as [|ns ranges IH]; intros seen; simpl; [done|]. rewrite Check_app.
  destruct (CheckSingleLeaderPerTerm ns seen) as [[]]; [apply IH|done].
Qed.

(** ** The monitor and the cluster model *)

(** Observations of a running cluster, one node at a time while it moves on. *)
Inductive watched (config : Configuration) : Cluster → list Node → Prop :=
  | watched_nil c : watched config c []
  | watched_cons c c' n ns sv :
      reachable config c c' → cl_status c' (nd_ID n) = Up sv → sv_node sv = nd_Raft n →
      watched config c' ns → watched config c (n :: ns).

Lemma watched_elected config c0 c ns :
  gm (Voters config) ≠ ∅ → initial c0 → reachable config c0 c → watched config c ns →
  ∃ c', reachable config c c' ∧ ∀ n t, n ∈ ns → leads n t → (t, nd_ID n) ∈ cl_elected c'.
Proof.
  intros Hne Hinit Hr Hw. revert Hr. induction Hw as [c|c c' n ns sv Hcc' Hup Hsv Hw IH]; intros Hr.
  { exists c. split; [by apply reach_here|]. by intros n t ?%elem_of_nil. }
  pose proof (reachable_trans _ _ _ _ Hr Hcc') as Hr'. destruct (IH Hr') as (c2 & Hr2 & He2).
  exists c2. split; [by eapply reachable_trans|]. intros m t [->|Hm]%elem_of_cons Hl; [|auto].
  apply (reachable_elected _ _ _ Hr2). destruct Hl as [Hl <-]. rewrite <-Hsv in *.
  by eapply leader_elected.
Qed.

(** C38: the harness's check is exact, and it never fires.  Over any polls the monitor
    passes exactly when no two different nodes were seen leading one term; and on
    a cluster of these servers, started on any settled disks and run under any
    faults, whatever instants the nodes are observed at, it passes. *)
Theorem monitor_correct (config : Configuration) (c0 : Cluster) (ranges : list (list Node)) :
  ((monitor ranges ∅).1 = Ok tt ↔
   ∀ n1 n2 t, n1 ∈ concat ranges → n2 ∈ concat ranges → leads n1 t → leads n2 t → nd_ID n1 = nd_ID n2) ∧
  (Validate config = None → initial c0 → watched config c0 (concat ranges) → (monitor ranges ∅).1 = Ok tt).
Proof.
  assert (∀ ns, one_leader ns ∅ ↔
    ∀ n1 n2 t, n1 ∈ ns → n2 ∈ ns → leads n1 t → leads n2 t → nd_ID n1 = nd_ID n2) as Hone.
  { intros ns. split; [by intros []|]. intros Hu. split; [|done]. intros n t p _ _. by rewrite lookup_empty. }
  rewrite monitor_concat, Check_spec, Hone. split; [done|]. intros Hval Hinit Hw.
  assert (gm (Voters config) ≠ ∅) as Hne by by apply Validate_voters.
  destruct (watched_elected _ _ _ _ Hne Hinit (reach_here _ _) Hw) as (c' & Hr & He).
  intros n1 n2 t Hn1 Hn2 Hl1 Hl2. eapply elected_unique; [done..| |]; by apply He.
Qed.
