(* ===== verification/Examples.v ===== *)
(** * The theorems at work

    Closed runs over the file-backed store, the simulated disk and a cluster of
    three: each lemma evaluates the hypotheses of one theorem on concrete states
    and applies the theorem there.  They keep the statements of the library
    honest: no theorem here speaks of states the program cannot be in. *)

From stdpp Require Import functions.
From S2P Require Import Prelude Configuration Os Json FsUtil Types Encoding StateMachine RaftLog RaftLogFacts RaftNode Snapshot RaftNodeFacts StateFile Config Replicator Engine EngineLoop EngineFacts EngineRaces Transport Cluster.

(** ** Concrete states *)

Definition config3 : Configuration := NewConfiguration voters3.

Definition meta_store : fileStateStore := mkFileStateStore "raft.meta" blank.

(** A server booted on a blank disk. *)
Definition booted (id : Z) : RaftNode fileStateStore :=
  match (NewRaftNode id config3 meta_store Follower 0).1 with
  | Ok n => n
  | Err _ => node_with id Follower 0 0
  end.

Lemma booted_boots (id : Z) : NewRaftNode id config3 meta_store Follower 0 = (Ok (booted id), rn_store (booted id)).
Proof. reflexivity. Qed.

Lemma booted_durable (id : Z) : node_durable (booted id).
Proof.
  pose proof (NewRaftNode_inv id config3 meta_store Follower 0 _ _ (booted_boots id) blank_wf blank_settled)
    as (_ & _ & _ & _ & _ & _ & _ & _ & Hd & _).
  exact Hd.
Qed.

(** Lists of entries given by their terms, from index 1. *)
Definition entries_of (terms : list Z) : list LogEntry :=
  imap (λ i t, mkLogEntry (Z.of_nat i + 1) t []) terms.





Lemma fresh_wal_wf : log_wf fresh_wal.
Proof. split; [split|]; vm_compute; congruence. Qed.

Lemma log_1122_wf : log_wf (log_with [1; 1; 2; 2]).
Proof.
  split; [|vm_compute; reflexivity]. split; try (vm_compute; congruence).
  intros [|[|[|[|i]]]] e; vm_compute; intros [=]; subst; done.
Qed.

(** ** An election, and the votes that carried it *)

Section Election.

Definition candidate1 : RaftNode fileStateStore := (BecomeCandidate 0 (booted 1)).2.
Definition ask1 : RequestVoteRequest := mkRequestVoteRequest 1 1 0 0.
Definition voter2 : RaftNode fileStateStore := (HandleRequestVote ask1 (0, 0) 0 (booted 2)).2.
Definition tallied1 : RaftNode fileStateStore := (RecordVoteAndCheckMajority 2 1 candidate1).2.
Definition leader1 : RaftNode fileStateStore := (BecomeLeader 1 0 tallied1).2.

Definition server (n : RaftNode fileStateStore) (won : gset Z) : Server := mkServer n fresh_wal won.

Definition all_down : Cluster := mkCluster (S := fileStateStore) (λ _, Down meta_store) [] [].
Definition two_up : Cluster := set_server 2 (server (booted 2) ∅) (set_server 1 (server (booted 1) ∅) all_down).
Definition campaigning : Cluster := set_server 1 (server candidate1 ∅) (cast (1, 1, 1) two_up).
Definition voted : Cluster := set_server 2 (server voter2 ∅) (cast (1, 1, 2) campaigning).
Definition carried1 : Cluster := set_server 1 (server tallied1 ({[1]} ∪ ∅)) voted.
Definition elected1 : Cluster := set_server 1 (server leader1 ({[1]} ∪ ∅)) (elect 1 1 carried1).

Lemma all_down_initial : initial all_down.
Proof. split; [|done]. intros i. exists meta_store. split_and!; [done|apply blank_wf|apply blank_settled]. Qed.

(** One more step, up to evaluation of the state it leads to. *)
Lemma reach_via (c c' c'' : Cluster) :
  step config3 c c' → c' = c'' → reachable config3 all_down c → reachable config3 all_down c''.
Proof. intros Hs <- Hr. by eapply reach_step. Qed.

Lemma election_run : reachable config3 all_down elected1.
Proof.
  eapply reach_via; [apply (step_promote config3 carried1 1 (server tallied1 ({[1]} ∪ ∅)) 1 0 true leader1);
    [done|set_solver|vm_compute; reflexivity]|reflexivity|].
  eapply reach_via; [apply (step_vote config3 voted 1 (server candidate1 ∅) 2 1 true tallied1);
    [done|left|vm_compute; reflexivity]|reflexivity|].
  eapply reach_via; [apply (step_request_vote config3 campaigning 2 (server (booted 2) ∅) ask1 0
    (mkRequestVoteResponse 1 true) voter2); [done|vm_compute; reflexivity]|reflexivity|].
  eapply reach_via; [apply (step_campaign config3 two_up 1 (server (booted 1) ∅) 0 1 candidate1);
    [done|vm_compute; split; congruence|reflexivity|vm_compute; reflexivity]|reflexivity|].
  eapply reach_via; [by apply (step_boot config3 (set_server 1 (server (booted 1) ∅) all_down) 2 meta_store 0 (booted 2) (rn_store (booted 2)) 0 fresh_wal)|reflexivity|].
  eapply reach_via; [by apply (step_boot config3 all_down 1 meta_store 0 (booted 1) (rn_store (booted 1)) 0 fresh_wal)|reflexivity|].
  apply reach_here.
Qed.

Lemma election_safety_witness :
  (1, 1) ∈ cl_elected elected1 ∧ ∀ j, (1, j) ∈ cl_elected elected1 → 1 = j.
Proof.
  split; [left|]. intros j.
  exact (proj1 (election_safety config3 all_down elected1 eq_refl all_down_initial election_run) 1 1 j ltac:(left)).
Defined.

Lemma votes_bind_witness : status_bound (cl_status elected1 2) (mkPersistentState 1 1).
Proof.
  refine (votes_bind config3 all_down elected1 1 1 2 eq_refl all_down_initial election_run _ _); [left|done].
Defined.

End Election.

(** ** The node *)

Lemma HandleRequestVote_correct_witness :
  rn_persistent voter2 = mkPersistentState 1 1 ∧
  ∀ p, may_load (rn_store voter2) p → ps_le (mkPersistentState 1 1) (loaded p).
Proof.
  destruct (HandleRequestVote_correct (booted 2) voter2 ask1 (0, 0) 0 (mkRequestVoteResponse 1 true))
    as (_ & Hgranted & _); [vm_compute; reflexivity|apply booted_durable|].
  exact (Hgranted eq_refl).
Defined.

Lemma HandlePreVote_predicts_witness :
  pvr_VoteGranted (HandlePreVote (mkPreVoteRequest 1 1 0 0) (0, 0) 0 (booted 2))
  = rvr_VoteGranted (HandleRequestVote ask1 (0, 0) 0 (booted 2)).1.
Proof.
  destruct (HandlePreVote_predicts (booted 2) (mkPreVoteRequest 1 1 0 0) (0, 0) 0) as (_ & _ & Hpredicts).
  apply Hpredicts; vm_compute; reflexivity.
Defined.

(** A leader of three whose two peers hold four and one entries; its own log's
    last entries are from its term. *)
Definition leading (commit : Z) (m : gmap Z Z) : RaftNode fileStateStore :=
  mkRaftNode 1 config3 Leader 1 commit 0 0 None DefaultMinElectionTimeout
    {[2 := 5; 3 := 2]} m (mkPersistentState 2 1) meta_store.

Definition log1122 : RaftLog := log_with [1; 1; 2; 2].

Lemma AdvanceCommitIndex_correct_witness :
  HasQuorum config3 (reached_by config3 (commit_evidence (leading 0 {[2 := 4; 3 := 1]}) 4) 4) = true.
Proof.
  destruct (AdvanceCommitIndex_correct (leading 0 {[2 := 4; 3 := 1]})
    (AdvanceCommitIndex 4 (TermAt log1122) 2 (leading 0 {[2 := 4; 3 := 1]})).2
    4 2 (TermAt log1122) 4 true) as (_ & _ & _ & Hadv & _).
  - vm_compute. reflexivity.
  - vm_compute. congruence.
  - exact (proj1 (proj2 (proj2 (Hadv eq_refl)))).
Defined.

Lemma UpdatePeerProgress_correct_witness :
  gm_int (rn_MatchIndex (UpdatePeerProgress 3 4 (leading 0 {[2 := 4; 3 := 1]}))) 3 = 4.
Proof.
  refine (proj1 (UpdatePeerProgress_correct (leading 0 {[2 := 4; 3 := 1]}) 3 4 _ _) 3);
    vm_compute; [split; congruence|reflexivity].
Defined.

Lemma backtracking_terminates_witness :
  NextIndexFor 2 (foldl (λ rn h, BacktrackNextIndex 2 h rn) (leading 0 ∅) [3; 9; 0; 7; 2]) = 1.
Proof.
  refine (proj1 (proj2 (backtracking_terminates (leading 0 ∅) 2 [3; 9; 0; 7; 2] _ _)) _);
    vm_compute; [split; congruence|reflexivity|congruence].
Defined.

(** ** Replication *)

Definition catch_up : AppendEntriesRequest := mkAppendEntriesRequest 2 1 1 1 (drop 1 (entries_of [1; 1; 2; 2])) 3.

Definition lagging : RaftLog := log_with [1].

Lemma lagging_wf : log_wf lagging.
Proof.
  split; [|vm_compute; reflexivity]. split; try (vm_compute; congruence).
  intros [|i] e; vm_compute; intros [=]; subst; done.
Qed.

Lemma HandleAppendEntries_correct_witness :
  rn_CommitIndex (HandleAppendEntries lagging catch_up 0 (booted 2)).1.2 = 3.
Proof.
  set (h := HandleAppendEntries lagging catch_up 0 (booted 2)).
  destruct (HandleAppendEntries_correct lagging h.2 catch_up 0 (booted 2) h.1.2 h.1.1) as (_ & _ & _ & _ & Hok & _).
  - vm_compute. reflexivity.
  - apply booted_durable.
  - exact (proj2 (proj2 (proj2 (proj2 (proj2 (Hok ltac:(vm_compute; reflexivity))))))).
Defined.

Definition leader_of_3 : RaftNode fileStateStore := leading 0 {[2 := 1; 3 := 1]}.

Definition round_with_3 :=
  HandleAppendEntries lagging (append_request leader_of_3 leader_of_3 leader_of_3 log1122 log1122 3) 0 (booted 3).

Lemma round_brings_level_witness :
  log_wf round_with_3.2 ∧ ∀ i, 2 ≤ i ≤ 4 → agree_at log1122 round_with_3.2 i.
Proof.
  pose proof log_1122_wf as [Hpos _]. set (n := leader_of_3). set (h := round_with_3).
  destruct (round_brings_level n (append_reply 2 3 (Some h.1.1) n).2 3 0 log1122 lagging h.2
    (booted 3) h.1.2 h.1.1 2 Hpos lagging_wf) as (Hwf & Hagree & _);
    [vm_compute; split; congruence|vm_compute; split; congruence|vm_compute; congruence
    |by exists 1|vm_compute; reflexivity|vm_compute; reflexivity|vm_compute; reflexivity
    |vm_compute; reflexivity|].
  split; [exact Hwf|exact Hagree].
Defined.

Definition install_request : InstallSnapshotRequest :=
  mkInstallSnapshotRequest 2 1 3 2 (render (machineState_to_json snapshot_machine)).

Lemma HandleInstallSnapshot_correct_witness :
  rn_CommitIndex (HandleInstallSnapshot lagging install_request (λ _, m_ret tt) (m_ret tt) 0
    (booted 2) 7%nat).1.1.2 = 3.
Proof.
  set (h := HandleInstallSnapshot lagging install_request (λ _, m_ret tt) (m_ret tt) 0 (booted 2) 7%nat).
  destruct (HandleInstallSnapshot_correct lagging h.1.2 install_request (λ _, m_ret tt) (m_ret tt) 0
    (booted 2) h.1.1.2 7%nat h.2 h.1.1.1) as (_ & _ & _ & _ & Hok).
  - vm_compute. reflexivity.
  - apply booted_durable.
  - apply Hok. left. vm_compute. congruence.
Defined.

(** ** The log *)

Lemma AppendEntriesToLog_refines_witness :
  rl_cache (AppendEntriesToLog 1 1 (drop 1 (entries_of [1; 3; 3])) log1122).2
  = take 1 (entries_of [1; 1; 2; 2]) ++ merge (drop 1 (entries_of [1; 1; 2; 2])) (drop 1 (entries_of [1; 3; 3])).
Proof.
  assert (contiguous 2 (drop 1 (entries_of [1; 3; 3]))) as Hc.
  { intros [|[|i]] e; vm_compute; intros [=]; subst; done. }
  pose proof (AppendEntriesToLog_refines log1122 1 1 (drop 1 (entries_of [1; 3; 3]))
    log_1122_wf ltac:(vm_compute; congruence) Hc ltac:(vm_compute; congruence)) as Happ.
  destruct (AppendEntriesToLog 1 1 _ log1122) as [[[[m ct] ci] ok] rl] eqn:Ha.
  destruct ok; [|by vm_compute in Ha]. destruct Happ as (_ & _ & Hcache & _).
  etransitivity; [exact Hcache|]. vm_compute. reflexivity.
Defined.

Lemma AppendLeader_correct_witness :
  LastLogState (AppendLeader [] 2 log1122).2 = (5, 2).
Proof.
  pose proof (AppendLeader_correct log1122 [] 2 log_1122_wf ltac:(vm_compute; reflexivity)) as Happ.
  destruct (AppendLeader [] 2 log1122) as [[e|er] rl] eqn:Ha; [|by vm_compute in Ha].
  destruct Happ as (_ & _ & _ & _ & Hlast & _). exact Hlast.
Defined.

(** A malformed batch: its entries' indices do not follow one another. *)
Lemma AppendEntriesToLog_positional_witness :
  log_pos (AppendEntriesToLog 4 2 [mkLogEntry 5 2 []; mkLogEntry 9 2 []] log1122).2.
Proof.
  refine (proj1 (AppendEntriesToLog_positional log1122 4 2 _ (proj1 log_1122_wf) _)).
  repeat constructor; vm_compute; congruence.
Defined.

Lemma AppendEntriesToLog_hint_witness : ∃ ct ci,
  AppendEntriesToLog 4 3 [] log1122 = ((0, ct, ci, false), log1122) ∧ ct = TermAt log1122 4.
Proof.
  destruct (AppendEntriesToLog_hint log1122 4 3 [] log_1122_wf) as [Hhint _]; [vm_compute; reflexivity|].
  destruct Hhint as (ct & ci & He & _ & Hconflict); [vm_compute; reflexivity|].
  exists ct, ci. split; [exact He|]. apply Hconflict. vm_compute. congruence.
Defined.

Lemma TruncateBeforeIndex_correct_witness :
  TermAt (TruncateBeforeIndex 2 1 log1122).2 2 = 1.
Proof.
  exact (proj1 (proj2 (proj2 (TruncateBeforeIndex_correct log1122 (TruncateBeforeIndex 2 1 log1122).2 2 1
    (TruncateBeforeIndex 2 1 log1122).1 log_1122_wf ltac:(vm_compute; split; congruence)
    (surjective_pairing _))))).
Defined.

Lemma ResetToSnapshot_correct_witness :
  lastIndexLocked (ResetToSnapshot 3 2 log1122).2 = 4.
Proof.
  destruct (ResetToSnapshot_correct log1122 (ResetToSnapshot 3 2 log1122).2 3 2
    (ResetToSnapshot 3 2 log1122).1 log_1122_wf) as (_ & _ & _ & Hkeep & _);
    [vm_compute; done|apply surjective_pairing|].
  refine (proj2 (proj2 (Hkeep _))). eexists. split; vm_compute; reflexivity.
Defined.

Lemma RestoreOffset_correct_witness :
  rl_cache (RestoreOffset 2 1 log1122).2 = drop 2 (entries_of [1; 1; 2; 2]).
Proof.
  exact (proj2 (proj2 (proj2 (RestoreOffset_correct log1122 (RestoreOffset 2 1 log1122).2 1 2 1
    (RestoreOffset 2 1 log1122).1 (lp_entries _ (proj1 log_1122_wf)) ltac:(lia)
    ltac:(vm_compute; congruence) ltac:(lia) (surjective_pairing _))))).
Defined.

(** ** The state machine *)

Definition increment (client : string) (seq now : Z) : Command := mkCommand OpSet "k" client client seq now.

Lemma new_machine_wf : machine_wf NewMemoryStateMachine.
Proof. split; vm_compute; split; congruence. Qed.

(** Retries of client a's first command: after another client's, and after a newer one
    of its own. *)
Definition after_first : MemoryStateMachine := (Apply 1 (increment "a" 1 5) NewMemoryStateMachine).2.
Definition after_second : MemoryStateMachine := apply_all (1 + 1) [increment "b" 1 6] after_first.
Definition after_newer : MemoryStateMachine := apply_all (1 + 1) [increment "b" 1 6; mkCommand OpDelete "k" "" "a" 2 6] after_first.

Lemma exactly_once_witness :
  (Apply 3 (increment "a" 1 7) after_second).1 = None ∧
  sm_data (Apply 4 (increment "a" 1 7) after_newer).2 = sm_data after_newer ∧ sm_data after_newer = ∅.
Proof.
  split; [|split; [|vm_compute; reflexivity]].
  - apply (exactly_once NewMemoryStateMachine after_first 1 3 (increment "a" 1 5) (increment "a" 1 7) None [increment "b" 1 6]);
      [exact new_machine_wf|vm_compute; split; congruence|vm_compute; split; congruence|done|vm_compute; reflexivity|
       vm_compute; reflexivity|repeat constructor; vm_compute; congruence|reflexivity|vm_compute; congruence|vm_compute; congruence|].
    repeat constructor; vm_compute; congruence.
  - apply (exactly_once NewMemoryStateMachine after_first 1 4 (increment "a" 1 5) (increment "a" 1 7) None
      [increment "b" 1 6; mkCommand OpDelete "k" "" "a" 2 6]);
      [exact new_machine_wf|vm_compute; split; congruence|vm_compute; split; congruence|done|vm_compute; reflexivity|
       vm_compute; reflexivity|repeat constructor; vm_compute; congruence|reflexivity|vm_compute; congruence|vm_compute; congruence].
Defined.

Lemma snapshot_machine_ok : machine_ok snapshot_machine.
Proof.
  split; [vm_compute; split; congruence|]. split; [vm_compute; split; congruence|].
  split; [apply map_Forall_empty|]. split; [|apply map_Forall_empty].
  apply map_Forall_insert; [reflexivity|]. split; [|apply map_Forall_empty].
  split; repeat constructor; vm_compute; congruence.
Qed.

Lemma snapshot_is_state_witness :
  Restore (render (machineState_to_json snapshot_machine)) NewMemoryStateMachine = (Ok tt, snapshot_machine).
Proof.
  exact (proj1 (snapshot_is_state snapshot_machine NewMemoryStateMachine _ snapshot_machine_ok eq_refl eq_refl)).
Defined.

Lemma expiry_deterministic_witness :
  sm_now (apply_all 1 [increment "a" 1 5; increment "b" 1 3] NewMemoryStateMachine) = 5.
Proof.
  refine (proj1 (expiry_deterministic NewMemoryStateMachine 1 (increment "a" 1 5) [increment "b" 1 3]
    new_machine_wf _)).
  repeat constructor; vm_compute; congruence.
Defined.

(** ** Files and snapshots *)

Definition meta3 : SnapshotMeta := mkSnapshotMeta 3 2.

Definition torn_write : Os := (WriteFileAtomic "f" [x00; x01] (with_faults [FOk; FFail 1] blank)).2.

Lemma WriteFileAtomic_correct_witness :
  replacing (os_fs blank) (os_fs torn_write) "f" ("f" +:+ tempSuffix) [x00; x01].
Proof.
  exact (proj1 (WriteFileAtomic_correct "f" [x00; x01] (with_faults [FOk; FFail 1] blank) torn_write
    (WriteFileAtomic "f" [x00; x01] (with_faults [FOk; FFail 1] blank)).1 blank_wf (surjective_pairing _))).
Defined.

Definition saved : Os := (Write "snapshot.json" meta3 snapshot_machine blank).2.

Lemma snapshot_durable_witness :
  snapshot_on_disk (os_fs saved) "snapshot.json" meta3 snapshot_machine.
Proof.
  destruct (snapshot_durable "snapshot.json" meta3 snapshot_machine NewMemoryStateMachine blank saved (Ok tt))
    as [_ Hok]; [apply blank_wf|apply snapshot_machine_ok|reflexivity|vm_compute; split; congruence..| |].
  - vm_compute. reflexivity.
  - exact (proj1 (Hok eq_refl)).
Defined.

Definition restarted : result unit * (MemoryStateMachine * RaftLog * RaftNode fileStateStore) :=
  restoreFromSnapshot "snapshot.json" NewMemoryStateMachine (set_disk saved log1122) (booted 1).

Lemma restoreFromSnapshot_correct_witness :
  restarted.2.1.1 = snapshot_machine ∧ log_wf restarted.2.1.2 ∧ rn_LastApplied restarted.2.2 = 3.
Proof.
  destruct (restoreFromSnapshot_correct "snapshot.json" NewMemoryStateMachine snapshot_machine
    (set_disk saved log1122) restarted.2.1.2 (booted 1) restarted.2.2 restarted.2.1.1 1 meta3)
    as (Hsm & Hwf & Hlast & Hla & _).
  - vm_compute. reflexivity.
  - vm_compute. reflexivity.
  - apply snapshot_machine_ok.
  - reflexivity.
  - vm_compute. split; congruence.
  - vm_compute. split; congruence.
  - intros [|[|[|[|i]]]] e; vm_compute; intros [=]; subst; done.
  - reflexivity.
  - vm_compute. congruence.
  - reflexivity.
  - reflexivity.
  - split; [exact Hsm|]. split; [exact Hwf|]. rewrite Hla, Hlast. reflexivity.
Defined.

(** ** Quorums *)

Definition agreed (ids : list Z) : gomap bool := Some (list_to_map (map (λ i, (i, true)) ids)).

Lemma quorums_intersect_witness : ∃ id, is_Some (gm (Voters config3) !! id) ∧
  gm_bool (agreed [1; 2]) id = true ∧ gm_bool (agreed [2; 3]) id = true.
Proof. apply (quorums_intersect config3 (agreed [1; 2]) (agreed [2; 3])); vm_compute; congruence. Defined.

Lemma QuorumIndex_is_quorum_witness :
  HasQuorum config3 (reached_by config3 {[1 := 7; 2 := 4; 3 := 5]} 5) = true.
Proof.
  apply (QuorumIndex_is_quorum config3 {[1 := 7; 2 := 4; 3 := 5]} 5); vm_compute; congruence.
Defined.

Definition new_voters : gomap string := Some {[3 := "c"; 4 := "d"; 5 := "e"]}%string.

Lemma joint_consensus_safe_witness :
  ∃ id, is_Some (gm new_voters !! id) ∧ gm_bool (agreed [2; 3; 4]) id = true ∧ gm_bool (agreed [3; 5]) id = true.
Proof.
  apply (joint_consensus_safe config3 new_voters None (agreed [1; 2]) (agreed [2; 3; 4]) (agreed [3; 5]));
    vm_compute; congruence.
Defined.

(** ** The peer list *)

Lemma parsePeers_correct_witness :
  parsePeers (String.string_of_list_byte (render_peers [(1, "a:80"); (2, "b:81")]%string)) ∅
  = Ok {[1 := "a:80"; 2 := "b:81"]}%string.
Proof.
  rewrite (parsePeers_correct [(1, "a:80"); (2, "b:81")]%string); [vm_compute; reflexivity|done|].
  repeat constructor; try (vm_compute; congruence); vm_compute; intros Hin;
    repeat (apply elem_of_cons in Hin as [?|Hin]; [discriminate|]); by apply not_elem_of_nil in Hin.
Defined.

(** ** The control loop *)

Definition leading_engine (log : RaftLog) (commit : Z) : Engine fileStateStore :=
  mkEngine (leading commit ∅) log NewMemoryStateMachine "snapshot.json" electionTimeoutMin
    [mkWaiter 1 2 7 100; mkWaiter 2 2 8 100] ∅ 0 0 ∅ 4 0 {[2 := mkPeerAck 4 0; 3 := mkPeerAck 2 0]}
    [mkReadWaiter 1 2 3 false 100 9] [] 1 None [].

Definition set_log : RaftLog :=
  (AppendEntriesToLog 0 0 [mkLogEntry 1 2 (command_bytes (set_cmd "x")); mkLogEntry 2 2 (command_bytes (set_cmd "y"))]
     fresh_wal).2.

Lemma set_log_wf : log_wf set_log.
Proof.
  split; [|vm_compute; reflexivity]. split; try (vm_compute; congruence).
  intros [|[|i]] e; vm_compute; intros [=]; subst; done.
Qed.

(** Both entries of one log are executed; of another, whose second entry holds no
    command, only the first. *)
Definition bad_log : RaftLog :=
  (AppendEntriesToLog 0 0 [mkLogEntry 1 2 (command_bytes (set_cmd "x")); mkLogEntry 2 2 (str "{")] fresh_wal).2.

Lemma bad_log_wf : log_wf bad_log.
Proof.
  split; [|vm_compute; reflexivity]. split; try (vm_compute; congruence).
  intros [|[|i]] e; vm_compute; intros [=]; subst; done.
Qed.

Lemma applyCommitted_correct_witness :
  (∃ es, stretch set_log 1 es ∧ length es = 2%nat ∧
    replay 1 es NewMemoryStateMachine = Some (e_stateMachine (applyCommitted (leading_engine set_log 2)))) ∧
  ∃ m, stops_at bad_log 2 m (e_stateMachine (applyCommitted (leading_engine bad_log 2))).
Proof.
  split.
  - destruct (applyCommitted_correct (leading_engine set_log 2) (proj1 set_log_wf)) as (es & m & Hst & Hr & Hla & Hok & _);
      [reflexivity|vm_compute; split; congruence|vm_compute; congruence|vm_compute; congruence|].
    exists es. split; [exact Hst|]. destruct Hok as [Hc ->]; [vm_compute; reflexivity|].
    split; [|exact Hr]. rewrite Hc in Hla. change (2 = 0 + Z.of_nat (length es)) in Hla. lia.
  - destruct (applyCommitted_correct (leading_engine bad_log 2) (proj1 bad_log_wf)) as (es & m & _ & _ & _ & _ & Hbad);
      [reflexivity|vm_compute; split; congruence|vm_compute; congruence|vm_compute; congruence|].
    exists m. assert (rn_LastApplied (e_node (applyCommitted (leading_engine bad_log 2))) + 1 = 2) as Hl by (vm_compute; reflexivity).
    rewrite Hl in Hbad. apply Hbad. vm_compute. congruence.
Defined.

Lemma fireCommittedWaiters_correct_witness :
  mkWaiter 2 2 8 100 ∈ e_waiters (fireCommittedWaiters 1 2 (leading_engine set_log 1)).
Proof.
  apply (fireCommittedWaiters_correct (leading_engine set_log 1) 1 2).
  split; [right; left|split; reflexivity].
Defined.

Lemma handleProposal_correct_witness :
  e_node (handleProposal (set_cmd "z") 5 9 (leading_engine set_log 1)) = leading 1 ∅.
Proof.
  exact (proj1 (handleProposal_correct (leading_engine set_log 1) (set_cmd "z") 5 9 set_log_wf
    ltac:(vm_compute; reflexivity))).
Defined.

(** Peer 2 acknowledged a round started after the read was admitted; peer 3 did not. *)
Lemma read_confirmed_witness :
  HasQuorum config3 (ballot_of (confirmed_by 3 (leading_engine set_log 1))) = true.
Proof.
  destruct (read_confirmed (leading_engine set_log 1) (mkReadWaiter 1 2 3 false 100 9) 1)
    as (_ & _ & _ & _ & _ & Hq & _).
  - reflexivity.
  - vm_compute. congruence.
  - by exists "a"%string.
  - apply (bool_decide_unpack _). vm_compute. exact I.
  - vm_compute. reflexivity.
  - exact Hq.
Defined.

Lemma handleRead_admits_witness : ∃ w, rw_barrier w = 4 ∧
  (nextRoundSeq (handleRead 11 true 0 (leading_engine set_log 1))).1 = rw_barrier w + 1.
Proof.
  destruct (handleRead_admits (leading_engine set_log 1) 11 true 0) as (w & _ & _ & _ & _ & _ & _ & Hb & Hn);
    [reflexivity|vm_compute; split; [congruence|reflexivity]|].
  exists w. split; [exact Hb|exact Hn].
Defined.

Lemma checkQuorum_correct_witness :
  rn_Role (e_node (checkQuorum (10 * Second) (leading_engine set_log 1))) = Follower.
Proof.
  refine (proj1 (proj2 (checkQuorum_correct (leading_engine set_log 1) (10 * Second) _) _));
    vm_compute; congruence.
Defined.

Lemma prevote_nondisruptive_witness :
  e_node (startPreVote 0 0 0 (engine_of (booted 1) fresh_wal)).2 = booted 1.
Proof.
  refine (proj1 (proj1 (prevote_nondisruptive (engine_of (booted 1) fresh_wal)
    (startPreVote 0 0 0 (engine_of (booted 1) fresh_wal)).2 (startPreVote 0 0 0 (engine_of (booted 1) fresh_wal)).1
    0 0 0 0 0 (mkPreVoteResponse 0 false)) _ (surjective_pairing _))).
  vm_compute. congruence.
Defined.

(** ** The HTTP surface *)

Definition poll_handler (req : PreVoteRequest) (n : RaftNode fileStateStore) :=
  (HandlePreVote req (0, 0) 0 n, n).

Definition peer2 (url : string) (r : http_request) : result http_response :=
  Ok (handleInternal poll_handler r (booted 2)).1.

Lemma rpc_faithful_witness :
  postJSON (Resp := PreVoteResponse) peer2 "b" "internal/prevote" (mkPreVoteRequest 1 1 0 0)
  = Ok (HandlePreVote (mkPreVoteRequest 1 1 0 0) (0, 0) 0 (booted 2)).
Proof.
  refine (proj1 (rpc_faithful poll_handler (booted 2) (booted 2) "b" "internal/prevote"
    (mkPreVoteRequest 1 1 0 0) _ peer2 _ _ eq_refl _)).
  - vm_compute. repeat split; congruence.
  - vm_compute. repeat split; congruence.
  - intros body. reflexivity.
Defined.

Definition request (method body : string) : http_request := mkRequest method (λ _, ""%string) (str body).

Definition peers2 : gmap Z string := {[2 := "b:81"]}%string.

Lemma write_handlers_correct_witness : ∃ resp,
  handleSet peers2 (mkNodeView false 2) (mkNodeView false 2) (λ _, QueueFull) (request "POST" "") = resp ∧
  r_Header resp !! leaderHintHeader = Some "b:81"%string.
Proof.
  destruct (write_handlers_correct peers2 (mkNodeView false 2) (mkNodeView false 2) (λ _, QueueFull)
    (request "POST" "")) as (_ & _ & Hhint).
  destruct (Hhint _ "b:81"%string (or_introl eq_refl) eq_refl eq_refl) as (resp & Hw & _ & Hh);
    [discriminate|reflexivity|].
  exists resp. split; [|exact Hh]. unfold handleSet. by rewrite Hw.
Defined.

Definition get_k : http_request :=
  mkRequest "GET" (λ q, if String.eqb q "key" then "k" else "")%string [].

Lemma handleGet_correct_witness :
  handleGet (λ _, Err "no duration"%string) (λ _, "0s"%string) peers2 (mkNodeView true 1) 0
    (λ _, None) (λ k, Get k snapshot_machine) get_k = answer_value (λ _, "0s"%string) 0 (Some "v"%string).
Proof.
  exact (proj1 (handleGet_correct (λ _, Err "no duration"%string) (λ _, "0s"%string) peers2 (mkNodeView true 1) 0
    (λ _, None) (λ k, Get k snapshot_machine) get_k (or_introl eq_refl))).
Defined.

(** ** Encodings *)

Lemma Command_roundtrip_witness : ∃ data,
  EncodeCommand (mkCommand OpSet "k" "v" "client" 3 7) = Ok data ∧
  DecodeCommand data = Ok (mkCommand OpSet "k" "v" "client" 3 7).
Proof.
  apply Command_roundtrip. split; [repeat constructor; vm_compute; congruence|vm_compute; repeat split; congruence].
Defined.
