(* ===== verification/DiskExamples.v ===== *)
(** * A WAL at work

    The durability theorems of the log on concrete disks: a torn frame cut at boot,
    and an append, a conflict rewrite and a compaction that survive a crash. *)

From S2P Require Import Prelude Configuration Os Json FsUtil Types Encoding StateMachine RaftLog RaftLogFacts RaftLogDisk RaftNode Snapshot RaftNodeFacts StateFile Config Replicator Engine EngineLoop EngineRun EngineBounds EngineReads Main Examples.

(** ** Disks *)

(** A disk on which the WAL holds [bs], synced. *)
Definition wal_disk (bs : bytes) : Fs :=
  mkFs {[0%nat := mkInode bs bs]} 1 {["raft.wal"%string := 0%nat]} ∅.

Lemma wal_disk_file bs : wal_file (wal_disk bs) "raft.wal" 0 (mkInode bs bs).
Proof.
  assert (∀ p, old_bindings (wal_disk bs) p = []) as Hold
    by (intros p; unfold old_bindings; simpl; by rewrite lookup_empty).
  split; [split|split_and!; [reflexivity|apply Hold|reflexivity]]; simpl.
  - intros p i [<- <-]%lookup_singleton_Some. split; [lia|]. rewrite lookup_singleton_eq. by eexists.
  - intros p i. rewrite Hold. by intros ?%elem_of_nil.
  - intros p q i [<- _]%lookup_singleton_Some [<- _]%lookup_singleton_Some. done.
  - intros p q i _. rewrite Hold. by intros ?%elem_of_nil.
Qed.

(** A reboot that finds everything that was synced. *)
Lemma reboot_same os : fs_wf (os_fs os) → all_synced (os_fs os) → reboot os (calm (os_fs os)).
Proof. intros Hwf Hs. split_and!; [done..|]. intros p. by apply settled_visible. Qed.

Lemma all_synced_now fs :
  fs_old fs = ∅ → map_Forall (λ _ nd, i_synced nd = i_data nd) (fs_inodes fs) → all_synced fs.
Proof. intros Ho Hi. split; [done|]. intros i nd Hnd. exact (Hi i nd Hnd). Qed.

(** ** Recovery *)

Definition entry1 : LogEntry := mkLogEntry 1 1 (str "{}").
Definition entry2 : LogEntry := mkLogEntry 2 1 (str "{}").
Definition entry2' : LogEntry := mkLogEntry 2 2 (str "{}").

Lemma storable1 : storable entry1.
Proof. vm_compute. repeat split; congruence. Qed.

Lemma storable2 : storable entry2.
Proof. vm_compute. repeat split; congruence. Qed.

Lemma storable2' : storable entry2'.
Proof. vm_compute. repeat split; congruence. Qed.

Lemma NewRaftLog_recovers_witness : ∃ rl,
  NewRaftLog "raft.wal" (calm (wal_disk (frames [entry1] ++ take 7 (frame entry2)))) = (Ok tt, rl) ∧
  recovered [entry1] "raft.wal" rl.
Proof.
  refine (NewRaftLog_recovers "raft.wal" _ 0 _ [entry1] (take 7 (frame entry2)) (wal_disk_file _) eq_refl _ _).
  - repeat constructor; vm_compute; congruence.
  - right. exists entry2, (drop 7 (frame entry2)). split_and!; [apply storable2|by rewrite take_drop|].
    vm_compute. congruence.
Defined.

(** ** A log of two entries, settled *)

Definition two_entries : RaftLog := (NewRaftLog "raft.wal" (calm (wal_disk (frames [entry1; entry2])))).2.

Lemma two_entries_settled : settled_wal two_entries.
Proof.
  pose proof (NewRaftLog_frames "raft.wal" (wal_disk (frames [entry1; entry2])) 0 _ [entry1; entry2] []
    (wal_disk_file _)) as Hn.
  unfold two_entries. destruct (NewRaftLog "raft.wal" (calm (wal_disk (frames [entry1; entry2])))) as [r rl].
  apply Hn; [exact (eq_sym (app_nil_r _))| |by left].
  repeat constructor; vm_compute; congruence.
Qed.

(** The append of a third entry on a working disk. *)
Definition appended : result LogEntry * RaftLog := AppendLeader (str "{}") 2 two_entries.

Lemma AppendLeader_durable_witness : ∃ l rl2,
  NewRaftLog "raft.wal" (calm (os_fs (rl_disk appended.2))) = (Ok tt, rl2) ∧ recovered l "raft.wal" rl2 ∧
  l = [entry1; entry2; mkLogEntry 3 2 (str "{}")].
Proof.
  pose proof (AppendLeader_wal two_entries (str "{}") 2 appended.1 appended.2 two_entries_settled) as Hw.
  destruct Hw as (_ & _ & Hok); [vm_compute; repeat split; congruence|reflexivity|].
  destruct (Hok eq_refl) as [(_ & _ & Hwf & _) _].
  destruct (AppendLeader_durable two_entries appended.2 (str "{}") 2 appended.1 (calm (os_fs (rl_disk appended.2))))
    as [(l & rl2 & Hn & Hr & _ & Hl) _].
  - exact two_entries_settled.
  - vm_compute; repeat split; congruence.
  - reflexivity.
  - apply reboot_same; [exact Hwf|]. apply all_synced_now; [reflexivity|].
    apply (bool_decide_unpack _). vm_compute. exact I.
  - reflexivity.
  - exists l, rl2. split; [exact Hn|]. split; [exact Hr|]. rewrite (Hl eq_refl). reflexivity.
Defined.

(** A batch that replaces the second entry, on a working disk. *)
Definition replaced : (Z * Z * Z * bool) * RaftLog := AppendEntriesToLog 1 1 [entry2'] two_entries.

Lemma replaced_eq : AppendEntriesToLog 1 1 [entry2'] two_entries = ((2, 0, 0, true), replaced.2).
Proof. vm_compute. reflexivity. Qed.

Lemma AppendEntriesToLog_durable_witness : ∃ l rl2,
  NewRaftLog "raft.wal" (calm (os_fs (rl_disk replaced.2))) = (Ok tt, rl2) ∧ recovered l "raft.wal" rl2 ∧
  l = [entry1; entry2'].
Proof.
  assert (Forall storable [entry2']) as Hst by (repeat constructor; vm_compute; congruence).
  destruct (AppendEntriesToLog_wal 1 1 [entry2'] two_entries (2, 0, 0, true) replaced.2
    two_entries_settled Hst) as (_ & _ & Hok); [vm_compute; congruence|exact replaced_eq|].
  destruct (Hok eq_refl) as [(_ & _ & Hwf & _) _].
  destruct (AppendEntriesToLog_durable two_entries replaced.2 1 1 [entry2'] 2 0 0 true
    (calm (os_fs (rl_disk replaced.2)))) as [(l & rl2 & Hn & Hr & _ & Hl) _].
  - exact two_entries_settled.
  - exact Hst.
  - vm_compute; congruence.
  - exact replaced_eq.
  - apply reboot_same; [exact Hwf|]. apply all_synced_now; [reflexivity|].
    apply (bool_decide_unpack _). vm_compute. exact I.
  - reflexivity.
  - exists l, rl2. split; [exact Hn|]. split; [exact Hr|]. rewrite (Hl eq_refl). reflexivity.
Defined.

(** A compaction to the first entry that stops at its rename: the old log is still
    on disk, next to a staged file no boot looks at. *)
Definition interrupted : RaftLog :=
  set_disk (with_faults [FOk; FOk; FOk; FOk; FOk; FOk; FCrash 0] (rl_disk two_entries)) two_entries.

Definition half_compacted : result unit * RaftLog := TruncateBeforeIndex 1 1 interrupted.

Lemma half_compacted_dir :
  fs_dir (os_fs (rl_disk half_compacted.2)) = {["raft.wal" := 0; "raft.wal.rewrite" := 1]}%nat ∧
  fs_old (os_fs (rl_disk half_compacted.2)) = {["raft.wal.rewrite"%string := [None]]}.
Proof. split; vm_compute; reflexivity. Qed.

Lemma half_compacted_reboot : reboot (rl_disk half_compacted.2) (calm (wal_disk (frames [entry1; entry2]))).
Proof.
  split_and!; [apply (wal_disk_file (frames [entry1; entry2]))|apply all_synced_now; [reflexivity|]|reflexivity|].
  { apply (bool_decide_unpack _). vm_compute. exact I. }
  destruct half_compacted_dir as [Hdir Hold]. intros p.
  destruct (decide (p = "raft.wal"%string)) as [->|Hp].
  { exists (Some 0%nat). split; [left; vm_compute; reflexivity|]. eexists. split; [vm_compute; reflexivity|].
    left. vm_compute. reflexivity. }
  exists None. split; [|unfold visible; simpl; by rewrite lookup_singleton_ne].
  unfold crash_binding, old_bindings. rewrite Hdir, Hold.
  destruct (decide (p = "raft.wal.rewrite"%string)) as [->|Hp']; [right; vm_compute; left|left].
  by rewrite lookup_insert_ne, lookup_singleton_ne.
Qed.

Lemma half_compacted_eq : TruncateBeforeIndex 1 1 interrupted = (half_compacted.1, half_compacted.2).
Proof. exact (surjective_pairing half_compacted). Qed.

Lemma TruncateBeforeIndex_durable_witness : ∃ l rl2,
  NewRaftLog "raft.wal" (calm (wal_disk (frames [entry1; entry2]))) = (Ok tt, rl2) ∧ recovered l "raft.wal" rl2 ∧
  (l = [entry1; entry2] ∨ l = [entry2]).
Proof.
  destruct (TruncateBeforeIndex_durable interrupted half_compacted.2 1 1 half_compacted.1
    (calm (wal_disk (frames [entry1; entry2])))) as [(l & rl2 & Hn & Hr & Hl & _) _].
  - exact two_entries_settled.
  - vm_compute; congruence.
  - exact half_compacted_eq.
  - exact half_compacted_reboot.
  - reflexivity.
  - exists l, rl2. split; [exact Hn|]. split; [exact Hr|exact Hl].
Defined.

(** ** A server that comes back

    It stopped after a snapshot at index 1, before the WAL was compacted, in the
    middle of writing its third entry. *)

Definition flags : Config := mkConfig 1 ":80" "." {[2 := "b:81"; 3 := "c:82"]}%string 0 0.

Definition one_applied : MemoryStateMachine :=
  apply_all 1 [mkCommand OpSet "k" "v" "" 0 0] (empty_machine flags).

Definition stopped_wal : bytes := frames [entry1; entry2] ++ take 5 (frame entry2').

Definition stopped_snapshot : bytes := snapshot_text (mkSnapshotMeta 1 1) one_applied.

Definition stopped_disk : Fs :=
  mkFs {[0%nat := mkInode stopped_wal stopped_wal; 1%nat := mkInode stopped_snapshot stopped_snapshot]} 2
    {["raft.wal" := 0; "snapshot.json" := 1]}%nat%string ∅.

Definition stopped_meta : Fs :=
  mkFs {[0%nat := mkInode (Marshal (mkPersistentState 2 1)) (Marshal (mkPersistentState 2 1))]} 1
    {["raft.meta"%string := 0%nat]} ∅.

Lemma small_disk_wf inodes n dir :
  map_Forall (λ _ i, i < n ∧ is_Some (inodes !! i))%nat dir →
  (∀ p q i, dir !! p = Some i → dir !! q = Some i → p = q) → fs_wf (mkFs inodes n dir ∅).
Proof.
  intros Hd Hi.
  assert (∀ p, old_bindings (mkFs inodes n dir ∅) p = []) as Hold
    by (intros p; unfold old_bindings; simpl; by rewrite lookup_empty).
  split; [exact Hd| |exact Hi|].
  - intros p i. rewrite Hold. by intros ?%elem_of_nil.
  - intros p q i _. rewrite Hold. by intros ?%elem_of_nil.
Qed.

Lemma settled_disk_wf (fs : Fs) :
  fs_old fs = ∅ → map_Forall (λ _ i, i < fs_next fs ∧ is_Some (fs_inodes fs !! i))%nat (fs_dir fs) →
  NoDup (map_to_list (fs_dir fs)).*2 → fs_wf fs.
Proof.
  destruct fs as [inodes next dir old]. cbn [fs_old fs_next fs_inodes fs_dir]. intros -> Hd Hnd.
  apply small_disk_wf; [done|]. intros p q i Hp Hq.
  apply elem_of_map_to_list, list_elem_of_lookup in Hp as [k Hp], Hq as [k' Hq].
  assert (k = k') as <-; [|congruence].
  eapply NoDup_lookup; [exact Hnd|rewrite list_lookup_fmap, Hp; reflexivity|rewrite list_lookup_fmap, Hq; reflexivity].
Qed.

Lemma reboot_settled (os : Os) :
  bool_decide (fs_old (os_fs os) = ∅) = true →
  bool_decide (map_Forall (λ _ nd, i_synced nd = i_data nd) (fs_inodes (os_fs os))) = true →
  bool_decide (map_Forall (λ _ i, i < fs_next (os_fs os) ∧ is_Some (fs_inodes (os_fs os) !! i))%nat (fs_dir (os_fs os))) = true →
  bool_decide (NoDup (map_to_list (fs_dir (os_fs os))).*2) = true →
  reboot os (calm (os_fs os)).
Proof.
  rewrite !bool_decide_eq_true. intros Hold Hsynced Hdir Hnd.
  apply reboot_same; [by apply settled_disk_wf|by apply all_synced_now].
Qed.

Lemma one_applied_ok : machine_ok one_applied.
Proof.
  split; [vm_compute; split; congruence|]. split; [vm_compute; split; congruence|].
  split; [apply map_Forall_empty|]. split; [|apply map_Forall_empty].
  apply map_Forall_insert; [reflexivity|]. split; [|apply map_Forall_empty].
  split; repeat constructor; vm_compute; congruence.
Qed.

Lemma stopped_bootable :
  bootable flags stopped_disk stopped_meta 1 [entry1; entry2] (Some (mkSnapshotMeta 1 1, one_applied))
    (Some (mkPersistentState 2 1)).
Proof.
  split.
  - exists 0%nat, (mkInode stopped_wal stopped_wal), (take 5 (frame entry2')). split_and!; try reflexivity.
    + split; [|split_and!; vm_compute; reflexivity].
      apply small_disk_wf; [apply (bool_decide_unpack _); vm_compute; exact I|].
      intros p q i. rewrite !lookup_insert_Some, !lookup_singleton_Some. naive_solver.
    + right. exists entry2', (drop 5 (frame entry2')).
      split_and!; [apply storable2'|by rewrite take_drop|vm_compute; congruence].
  - split_and!; [repeat constructor; vm_compute; congruence| |lia|vm_compute; congruence].
    intros [|[|[]]] e; by intros [= <-].
  - vm_compute. reflexivity.
  - split; [exact one_applied_ok|]. split; [reflexivity|]. vm_compute. repeat split; congruence.
  - split_and!; [|apply all_synced_now; [reflexivity|]|reflexivity|].
    + apply small_disk_wf; [apply (bool_decide_unpack _); vm_compute; exact I|].
      intros p q i. rewrite !lookup_singleton_Some. naive_solver.
    + apply (bool_decide_unpack _); vm_compute; exact I.
    + intros p [= <-]. vm_compute. repeat split; congruence.
Qed.

Lemma main_recovers_witness : ∃ l,
  main flags (calm stopped_disk) (calm stopped_meta) 0 0 = Ok l ∧
  rl_cache (e_raftLog (lp_engine l)) = [entry2] ∧ rn_persistent (e_node (lp_engine l)) = mkPersistentState 2 1 ∧
  rn_LastApplied (e_node (lp_engine l)) = 1.
Proof.
  destruct (main_recovers flags stopped_disk stopped_meta 1 [entry1; entry2] (Some (mkSnapshotMeta 1 1, one_applied))
    (Some (mkPersistentState 2 1)) 0 0 stopped_bootable)
    as (l & Hm & _ & Hp & _ & _ & _ & _ & _ & Hla & _ & _ & Hli & Hc); [reflexivity|discriminate|].
  exists l. split; [exact Hm|]. rewrite Hc, Hla, Hli. split; [reflexivity|]. split; [exact Hp|reflexivity].
Defined.
