(* ===== verification/WalRaces.v ===== *)
(** * What a WAL does not survive

    A disk that refuses a call and then works again.  The program goes on after a
    failed append: nothing marks the log as damaged, and the file keeps whatever the
    failed call left in it.  Three runs of two calls each, in which the second is
    reported to be durable and a crash then loses what it wrote.  They are why the
    durability theorems of RaftLogDisk.v begin at a settled WAL, the state every
    successful operation and every recovery leaves. *)

From S2P Require Import Prelude Configuration Os Json FsUtil Types Encoding RaftLog RaftLogFacts RaftLogDisk StateFile Examples DiskExamples.

(** The log of DiskExamples.v, on a disk that is about to do as [fl] says. *)
Definition unreliable (fl : list fault) : RaftLog := set_disk (with_faults fl (rl_disk two_entries)) two_entries.

(** What a start after a crash finds, if the crash loses nothing. *)
Definition reopen (rl : RaftLog) : result unit * RaftLog := NewRaftLog "raft.wal" (calm (os_fs (rl_disk rl))).

(** ** A frame cut in two

    The payload of a frame is refused after one byte.  The bytes stay in the file,
    and the next entry is written after them. *)

Definition refused : result LogEntry * RaftLog := AppendLeader (str "{}") 2 (unreliable [FOk; FFail 1]).
Definition accepted : result LogEntry * RaftLog := AppendLeader (str "{}") 2 refused.2.

(** The append that succeeded is not recovered: the bytes of the failed one are taken
    for the head of its frame, and the server does not start again. *)
Theorem torn_append_stops_recovery :
  is_Ok refused.1 = false ∧ accepted.1 = Ok (mkLogEntry 3 2 (str "{}")) ∧
  reboot (rl_disk accepted.2) (calm (os_fs (rl_disk accepted.2))) ∧
  is_Ok (reopen accepted.2).1 = false.
Proof. split_and!; [vm_compute; reflexivity..| |vm_compute; reflexivity]. apply reboot_settled; vm_compute; reflexivity. Qed.

(** ** An entry refused for its fsync

    The frame is written whole and its fsync fails; the client is told so.  The next
    proposal gets the same index. *)

Definition unsynced : result LogEntry * RaftLog := AppendLeader (str "[1]") 2 (unreliable [FOk; FOk; FFail 0]).
Definition second : result LogEntry * RaftLog := AppendLeader (str "[2]") 2 unsynced.2.

(** After a restart the index holds the entry that was refused, not the one that was
    acknowledged. *)
Theorem failed_fsync_revives_refused :
  is_Ok unsynced.1 = false ∧ second.1 = Ok (mkLogEntry 3 2 (str "[2]")) ∧
  reboot (rl_disk second.2) (calm (os_fs (rl_disk second.2))) ∧
  (reopen second.2).1 = Ok tt ∧ GetEntry (reopen second.2).2 3 = Some (mkLogEntry 3 2 (str "[1]")).
Proof. split_and!; try (vm_compute; reflexivity). apply reboot_settled; vm_compute; reflexivity. Qed.

(** ** A batch acknowledged on the second try

    The fsync of a batch fails and the follower refuses it, but keeps its entries in
    the cache.  When the leader sends it again they are found present, so nothing is
    appended and nothing synced, and the batch is acknowledged. *)

Definition batch : list LogEntry := [mkLogEntry 3 2 (str "{}")].
Definition first_try : (Z * Z * Z * bool) * RaftLog := AppendEntriesToLog 2 1 batch (unreliable [FOk; FOk; FFail 0]).
Definition second_try : (Z * Z * Z * bool) * RaftLog := AppendEntriesToLog 2 1 batch first_try.2.

Lemma second_try_reboot : reboot (rl_disk second_try.2) (calm (wal_disk (frames [entry1; entry2]))).
Proof.
  assert (fs_dir (os_fs (rl_disk second_try.2)) = {["raft.wal"%string := 0%nat]}) as Hdir by (vm_compute; reflexivity).
  assert (fs_old (os_fs (rl_disk second_try.2)) = ∅) as Hold by (vm_compute; reflexivity).
  split_and!; [apply (wal_disk_file (frames [entry1; entry2]))|apply all_synced_now; [reflexivity|]|reflexivity|].
  { apply (bool_decide_unpack _). vm_compute. exact I. }
  intros p. destruct (decide (p = "raft.wal"%string)) as [->|Hp].
  { exists (Some 0%nat). split; [left; vm_compute; reflexivity|]. eexists. split; [vm_compute; reflexivity|].
    left. vm_compute. reflexivity. }
  exists None. split; [|unfold visible; simpl; by rewrite lookup_singleton_ne].
  left. by rewrite Hdir, lookup_singleton_ne.
Qed.

(** A crash may lose the entry the follower has acknowledged. *)
Theorem retried_batch_not_durable :
  first_try.1.2 = false ∧ second_try.1 = (3, 0, 0, true) ∧
  reboot (rl_disk second_try.2) (calm (wal_disk (frames [entry1; entry2]))) ∧
  rl_cache (NewRaftLog "raft.wal" (calm (wal_disk (frames [entry1; entry2])))).2 = [entry1; entry2].
Proof. split_and!; [vm_compute; reflexivity..|exact second_try_reboot|vm_compute; reflexivity]. Qed.
