(* ===== verification/RaftRaces.v ===== *)
(** * What clusters do not survive

    Two runs of the real handlers that leave the abstract machine of RaftSpec.v, one
    through a replication round that outlives the leadership it was sent in and one
    through a crash in the middle of installing a snapshot.  Both start from blank
    disks or from a log any server may have, and every step is a call the program
    makes; the statements are checked by evaluation. *)

From stdpp Require Import functions.
From S2P Require Import Prelude Configuration Os Json FsUtil Types Encoding RaftLog RaftLogFacts RaftLogDisk RaftNode RaftNodeFacts StateMachine Snapshot StateFile Config Replicator Engine EngineLoop EngineRun EngineRaces Main Examples DiskExamples.

(** ** Five servers and what they say to each other *)

Abbreviation engine := (Engine fileStateStore).

Definition world := Z → engine.

Definition meta_file : fileStateStore := mkFileStateStore "raft.meta" blank.

(** A server started on a blank disk. *)
Definition boot5 (i : Z) : engine :=
  match (NewRaftNode i (NewConfiguration voters5) meta_file Follower 0).1 with
  | Ok n => NewWithTransport n fresh_wal NewMemoryStateMachine "snapshot.json" 0
  | Err _ => engine_of (node_with i Follower 0 0) fresh_wal
  end.

Definition at_server {A} (i : Z) (f : engine → A * engine) (w : world) : A * world :=
  let '(a, e) := f (w i) in (a, <[i := e]> w).

Definition act_at (i : Z) (f : engine → engine) (w : world) : world := <[i := f (w i)]> w.

(** [j] answers the broadcast of [i], and the answer reaches the loop of [i]. *)
Definition ask (i j now : Z) (b : broadcast) (w : world) : broadcast * world :=
  match b with
  | Silent => (Silent, w)
  | PollPreVote req => at_server i (handlePreVoteResult (pv_Term req) j (EngineHandlePreVote req now (w j)) now 0) w
  | PollVote req =>
      let '(resp, w) := at_server j (EngineHandleRequestVote req now) w in
      (b, act_at i (handleVoteResult (rv_Term req) j resp now) w)
  end.

(** Two servers are polled, and then asked for their votes. *)
Definition elections (i j k now : Z) (b : broadcast) (w : world) : world :=
  let '(_, w1) := ask i j now b w in
  let '(b, w) := ask i k now b w1 in
  let '(_, w) := ask i j now b w in
  (ask i k now b w).2.

(** What a round to [p] sends, and what becomes of the reply. *)
Definition round_request (i p : Z) (w : world) : AppendEntriesRequest :=
  let e := w i in append_request (e_node e) (e_node e) (e_node e) (e_raftLog e) (e_raftLog e) p.

Definition credit (i p t : Z) (resp : AppendEntriesResponse) : world → world :=
  act_at i (λ e, with_node (append_reply t p (Some resp) (e_node e)).2 e).

Definition exchange (i p now : Z) (w : world) : world :=
  let req := round_request i p w in
  let '(resp, w) := at_server p (EngineHandleAppendEntries req now) w in
  credit i p (ae_Term req) resp w.

Definition tick (i now : Z) (w : world) : broadcast * world := at_server i (onTick now 0 0) w.

(** ** A reply that outlives its leadership *)

Definition ms (t : Z) : Z := t * 1000000.

(** Server 1 is elected by 2 and 5 in term 1; server 3 polls 5 and learns of it. *)
Definition stale0 : world := let '(b, w) := tick 1 (ms 1000) boot5 in elections 1 2 5 (ms 1000) b w.
Definition stale1 : world := let '(b, w) := tick 3 (ms 1000) stale0 in (ask 3 5 (ms 1000) b w).2.

(** Server 1 takes two proposals and starts a round to 2; the reply stays on the
    way. *)
Definition write (v : string) (ch : nat) (i now : Z) : world → world := act_at i (handleProposal (set_cmd v) ch now).
Definition stale2 : world := write "b" 2 1 (ms 1300) (write "a" 1 1 (ms 1300) stale1).
Definition late_request : AppendEntriesRequest := round_request 1 2 stale2.
Definition stale3 : AppendEntriesResponse * world := at_server 2 (EngineHandleAppendEntries late_request (ms 1300)) stale2.
Definition late_reply : AppendEntriesResponse := stale3.1.

(** Servers 4 and 5 elect 3 in term 2.  Its request for a vote deposes 1 between the
    two halves of a tick, so that 1 polls for term 3; then its first round reaches
    1, and what 1 had appended is gone. *)
Definition stale4 : world := let '(b, w) := tick 3 (ms 1300) stale3.2 in elections 3 4 5 (ms 1300) b w.
Definition depose : RequestVoteRequest := mkRequestVoteRequest 2 3 0 0.
Definition stale5 : world := (at_server 1 (EngineHandleRequestVote depose (ms 1300)) (act_at 1 reconcileLeadership stale4)).2.
Definition stale6 : broadcast * world := at_server 1 (tick_role (ms 1300) 0 0) stale5.
Definition stale7 : world := exchange 3 1 (ms 1300) (act_at 1 (tick_rest (ms 1300)) stale6.2).

(** Servers 4 and 5 elect 1 in term 3.  Promoting it stops the replicators of term 1,
    which waits for the round that is still out: the reply is credited now. *)
Definition stale8 : world := elections 1 4 5 (ms 1300) stale6.1 stale7.
Definition stale9 : world := credit 1 2 (ae_Term late_request) late_reply stale8.

(** It takes a write, replicates it to 4 alone, and commits. *)
Definition stale10 : world := exchange 1 4 (ms 1300) (exchange 1 4 (ms 1300) (write "kept?" 7 1 (ms 1300) stale9)).
Definition committed_at_1 : world := (tick 1 (ms 1320) stale10).2.

(** Servers 1 and 4 are cut off.  Server 3 steps down to term 3, is elected by 2 and 5
    in term 4, takes another write, replicates to 2 and 5 and commits. *)
Definition stale11 : world := act_at 3 (handleStepDown 3) committed_at_1.
Definition stale12 : world := let '(b, w) := tick 3 (ms 1700) stale11 in elections 3 2 5 (ms 1700) b w.
Definition stale13 : world := write "theirs" 8 3 (ms 1700) stale12.
Definition stale14 : world :=
  exchange 3 5 (ms 1700) (exchange 3 5 (ms 1700) (exchange 3 2 (ms 1700) (exchange 3 2 (ms 1700) stale13))).
Definition committed_at_3 : world := (tick 3 (ms 1720) stale14).2.

Definition terms_of (w : world) (i : Z) : list Z := le_Term <$> rl_cache (e_raftLog (w i)).
Definition commit_of (w : world) (i : Z) : Z := rn_CommitIndex (e_node (w i)).
Definition state_of (w : world) (i : Z) : NodeRole * Z := State (e_node (w i)).
Definition value_of (w : world) (i : Z) : option string := Get "k" (e_stateMachine (w i)).

(** A reply counts for whatever leadership the node has by the time it arrives: the
    term of the request is compared with the reply's, never with the node's.  The
    reply of term 1 vouches for three entries that server 1 no longer has; in
    term 3 it makes a quorum of servers 1 and 4, a client is told its write is
    committed, and servers 2, 3 and 5 commit another in its place. *)
Theorem stale_reply_loses_write :
  ae_Term late_request = 1 ∧ aer_Term late_reply = 1 ∧ aer_MatchIndex late_reply = 3 ∧
  2 ∈ e_replicators (stale7 1) ∧ e_replicatorsTerm (stale7 1) = 1 ∧
  state_of stale9 1 = (Leader, 3) ∧ terms_of stale9 1 = [2; 3] ∧ rn_MatchIndex (e_node (stale9 1)) !! 2 = Some 3 ∧
  (terms_of committed_at_1 <$> [1; 2; 3; 4; 5]) = [[2; 3; 3]; [1; 1; 1]; [2]; [2; 3; 3]; []] ∧
  commit_of committed_at_1 1 = 3 ∧ (7%nat, RErr None) ∈ e_sent (committed_at_1 1) ∧
  value_of committed_at_1 1 = Some "kept?"%string ∧
  (terms_of committed_at_3 <$> [2; 3; 5]) = [[2; 4; 4]; [2; 4; 4]; [2; 4; 4]] ∧
  state_of committed_at_3 3 = (Leader, 4) ∧ commit_of committed_at_3 3 = 3 ∧
  (8%nat, RErr None) ∈ e_sent (committed_at_3 3) ∧ value_of committed_at_3 3 = Some "theirs"%string.
Proof.
  repeat match goal with
         | |- _ ∧ _ => split
         | |- _ ∈ _ => apply (bool_decide_unpack _); vm_compute; exact I
         | |- _ = _ => vm_compute; reflexivity
         end.
Qed.

(** ** A crash in the middle of an install *)

Definition server2 : Config := mkConfig 2 ":80" "." {[1 := "a"; 3 := "c"; 4 := "d"; 5 := "e"]}%string 0 0.

Definition old_entries : list LogEntry := [mkLogEntry 1 1 (str "{}"); mkLogEntry 2 1 (str "{}"); mkLogEntry 3 1 (str "{}")].

Definition started (disk meta : Os) : engine :=
  match main server2 disk meta 0 0 with Ok l => lp_engine l | Err _ => boot5 2 end.

(** Three uncommitted entries of term 1 are on the disk of server 2. *)
Definition before_install : engine := started (calm (wal_disk (frames old_entries))) blank.

(** The leader of term 2 has committed another entry at index 2 and compacted it. *)
Definition install : InstallSnapshotRequest :=
  mkInstallSnapshotRequest 2 3 2 2 (render (machineState_to_json (applied_upto [put "k" "a"; put "k" "b"]))).

(** The snapshot is written; the machine stops at the first call of the rewrite. *)
Definition stopping : list fault := [FOk; FOk; FOk; FOk; FOk; FOk; FOk; FCrash 0].

Definition stopping_server (e : engine) : engine :=
  with_log (set_disk (with_faults stopping (rl_disk (e_raftLog e))) (e_raftLog e)) e.

Definition installed_whole : InstallSnapshotResponse * engine := EngineHandleInstallSnapshot install 0 before_install.
Definition installed_half : InstallSnapshotResponse * engine := EngineHandleInstallSnapshot install 0 (stopping_server before_install).

Definition disk_of (e : engine) : Os := rl_disk (e_raftLog e).
Definition meta_of (e : engine) : Os := fss_os (rn_store (e_node e)).

Definition restarted : engine :=
  started (calm (os_fs (disk_of installed_half.2))) (calm (os_fs (meta_of installed_half.2))).

(** A candidate whose log ends in the entry the follower was to drop, and has not the
    committed one at index 2. *)
Definition behind : RequestVoteRequest := mkRequestVoteRequest 3 1 3 1.

(** [RestoreOffset] keeps whatever the WAL has after the snapshot, without asking
    whether the WAL agrees with the snapshot where they meet, as [ResetToSnapshot]
    does.  An install that would have emptied the log, if the machine stops between
    its two writes, leaves after the restart an entry of term 1 on top of a
    committed entry of term 2; and the server votes for a candidate it would
    otherwise refuse, and that has not the committed entry. *)
Theorem restart_keeps_conflicting_suffix :
  terms_of (λ _, before_install) 2 = [1; 1; 1] ∧ CommitAndApplyBoundary (e_node before_install) = (0, 0) ∧
  isr_Success installed_whole.1 = true ∧ LastLogState (e_raftLog installed_whole.2) = (2, 2) ∧
  rvr_VoteGranted (EngineHandleRequestVote behind (ms 1000) installed_whole.2).1 = false ∧
  reboot (disk_of installed_half.2) (calm (os_fs (disk_of installed_half.2))) ∧
  reboot (meta_of installed_half.2) (calm (os_fs (meta_of installed_half.2))) ∧
  CommitAndApplyBoundary (e_node restarted) = (2, 2) ∧
  TermAt (e_raftLog restarted) 2 = 2 ∧ le_Term <$> GetEntry (e_raftLog restarted) 3 = Some 1 ∧
  rvr_VoteGranted (EngineHandleRequestVote behind (ms 1000) restarted).1 = true.
Proof.
  split_and!; try (vm_compute; reflexivity); apply reboot_settled; vm_compute; reflexivity.
Qed.
