(* ===== verification/EngineExamples.v ===== *)
(** * A leader at work

    One concrete run of the control loop over the file-backed store and the
    simulated disk: a server of a cluster of three wins an election, commits its
    no-op, serves a read and acknowledges a write, evaluated by the kernel.  The
    theorems about runs are applied to it and to its variations. *)

From S2P Require Import Prelude Configuration Os Json FsUtil Types Rpc Encoding StateMachine RaftLog RaftLogFacts RaftNode Snapshot RaftNodeFacts RaftNodeRoles StateFile Config Replicator Engine EngineLoop EngineFacts EngineApi EngineRun EngineFrame EngineChannels EngineMoves EngineBounds EngineReplica EngineReads EngineWrites EngineServe Transport Examples.

(** ** The run *)

Definition machine0 : MemoryStateMachine := NewMemoryStateMachine.

Definition boot1 : Loop fileStateStore := start (NewWithTransport (booted 1) fresh_wal machine0 "snapshot.json" 0).

Definition second : Z := 1000000000.

(** A replication round to server 2, acknowledged up to index [i]. *)
Definition round2 (seq i now : Z) : list action :=
  [RoundBegin 2;
   RoundEnd (mkRound 2 seq 1) (AppendReply 1 (Some (mkAppendEntriesResponse 1 true i 0 0)));
   Select (AckReport 2 seq) now 0 0].

(** From the first election timeout to the commit of the no-op. *)
Definition to_leadership : list action :=
  [Select Tick second 0 0;
   Select (PreVoteResult 1 2 (mkPreVoteResponse 0 true)) second 0 0;
   Select (VoteResult 1 2 (mkRequestVoteResponse 1 true)) second 0 0] ++
  round2 1 1 second ++ [Select Tick second 0 0].

Definition leading : Loop fileStateStore := run to_leadership boot1.

Example leading_state :
  rn_Role (e_node (lp_engine leading)) = Leader ∧ rn_term (e_node (lp_engine leading)) = 1 ∧
  rn_CommitIndex (e_node (lp_engine leading)) = 1 ∧ rn_LastApplied (e_node (lp_engine leading)) = 1 ∧
  e_roundSeq (lp_engine leading) = 1.
Proof. vm_compute. auto. Qed.

(** The wire's limits, for a node whose term has room to grow. *)
Definition room_to_campaign (t : Z) : Prop := int64 t ∧ t < MaxInt64.

Definition run_limits : limits fileStateStore :=
  mkLimits (λ _, True) (λ _ _ req, typed_entries req) (λ _ _ _ _ req, int64 (is_LastIncludedIndex req)) int64
    room_to_campaign.

Lemma run_limits_campaign : campaign_limits run_limits.
Proof. intros t Ht. exact Ht. Qed.

Definition sound_run_limits : limits fileStateStore :=
  let L := sound_limits (S := fileStateStore) in
  mkLimits (lim_log L) (lim_entries L) (lim_snapshot L) (lim_match L) room_to_campaign.

Lemma sound_run_campaign : campaign_limits sound_run_limits.
Proof. intros t Ht. exact Ht. Qed.

Lemma sound_run_sound : limits_le sound_run_limits sound_limits.
Proof. split_and!; simpl; auto. Qed.

Ltac evaluate := vm_compute; repeat split; congruence.
Ltac decide_now := apply (bool_decide_unpack _); vm_compute; exact I.

Lemma booted_bounds : node_bounds (booted 1).
Proof.
  split; [evaluate|evaluate| |vm_compute; congruence].
  apply (bool_decide_unpack _). vm_compute. exact I.
Qed.

(** ** Writes *)

Definition put_k : Command := mkCommand OpSet "k" "v" "" 0 0.

Definition after_put : list action := round2 2 2 second ++ [Select Tick second 0 0].

Definition written : Loop fileStateStore :=
  run after_put (act (Select (Propose put_k 8) second 0 0) leading).

Lemma acknowledged_write_witness :
  rn_Role (e_node (lp_engine leading)) = Leader ∧ 2 ≤ rn_CommitIndex (e_node (lp_engine written)).
Proof.
  split; [reflexivity|].
  destruct (acknowledged_write sound_run_limits sound_run_campaign sound_run_sound (booted 1) fresh_wal machine0
    "snapshot.json" 0 to_leadership after_put put_k 8 second 0 0 booted_bounds fresh_wal_wf)
    as (data & _ & _ & _ & acts1 & a & acts2 & Hafter & _ & _ & _ & _).
  - evaluate.
  - reflexivity.
  - reflexivity.
  - decide_now.
  - decide_now.
  - vm_compute. congruence.
Defined.

(** ** Reads *)

Definition after_read : list action := round2 2 1 second.

Definition read_done : Loop fileStateStore :=
  run after_read (act (Select (ReadRequest 7 true) second 0 0) leading).

Lemma linearizable_read_witness :
  (7%nat, RRead 1 None) ∈ e_sent (lp_engine read_done) ∧ rn_Role (e_node (lp_engine leading)) = Leader.
Proof.
  split; [decide_now|].
  destruct (linearizable_read run_limits run_limits_campaign (booted 1) fresh_wal machine0
    "snapshot.json" 0 to_leadership after_read 7 true second 0 0 1) as (Hlead & _ & _).
  - split_and!; [reflexivity|reflexivity|vm_compute; eauto].
  - evaluate.
  - evaluate.
  - reflexivity.
  - reflexivity.
  - decide_now.
  - decide_now.
  - exact Hlead.
Defined.

Lemma answered_once_witness : NoDup (e_sent (lp_engine read_done)).*1.
Proof.
  destruct (answered_once (booted 1) fresh_wal machine0 "snapshot.json" 0
    (to_leadership ++ Select (ReadRequest 7 true) second 0 0 :: after_read)) as (_ & Hnd & _).
  assert (NoDup (lp_asked (run (to_leadership ++ Select (ReadRequest 7 true) second 0 0 :: after_read) boot1)))
    as Hask by decide_now.
  destruct (Hnd Hask) as [_ _]. decide_now.
Defined.

(** A read that no round confirms is refused by the first tick after its deadline. *)
Definition overdue : Loop fileStateStore :=
  run [Select Tick (second + readTimeout + 1) 0 0] (act (Select (ReadRequest 7 true) second 0 0) leading).

Lemma answered_in_time_witness : ∃ r, (7%nat, r) ∈ e_sent (lp_engine overdue).
Proof.
  destruct (answered_in_time (booted 1) fresh_wal machine0 "snapshot.json" 0 to_leadership []
    (ReadRequest 7 true) second 0 0 (second + readTimeout + 1) 0 0 7 (second + readTimeout)) as [r Hr].
  - reflexivity.
  - reflexivity.
  - reflexivity.
  - decide_now.
  - reflexivity.
  - exists r. exact Hr.
Defined.

Lemma boundaries_advance_witness :
  0 ≤ rn_LastApplied (e_node (lp_engine leading)) ≤ rn_CommitIndex (e_node (lp_engine leading)).
Proof.
  destruct (boundaries_advance boot1 to_leadership []) as [[Ha _] _]; [split| | |exact Ha].
  - exact booted_bounds.
  - apply log_wf_typed, fresh_wal_wf.
  - evaluate.
  - exact I.
Defined.

Lemma run_remembers_witness :
  ps_le (rn_persistent (booted 1)) (rn_persistent (e_node (lp_engine leading))) ∧
  node_durable (e_node (lp_engine leading)).
Proof.
  destruct (run_remembers run_limits boot1 to_leadership run_limits_campaign) as (_ & Hle & Hd); [evaluate|].
  split; [exact Hle|]. apply Hd. exact (booted_durable 1).
Defined.

Lemma engine_refines_replica_witness :
  rtc (λ c c', move sound_limits c c' ∧ simulated c c') (core (lp_engine boot1)) (core (lp_engine leading)).
Proof.
  destruct (engine_refines_replica boot1 to_leadership) as [Hr _]; [exact booted_bounds|exact fresh_wal_wf|evaluate|].
  exact Hr.
Defined.

Lemma run_well_formed_witness : log_wf (e_raftLog (lp_engine leading)).
Proof.
  destruct (run_well_formed sound_run_limits sound_run_campaign (booted 1) fresh_wal machine0 "snapshot.json" 0
    to_leadership sound_run_sound booted_bounds fresh_wal_wf) as [Hwf _]; [evaluate|evaluate|exact Hwf].
Defined.

(** ** A read at a follower *)

(** The leader's answer to the RPC, and what the follower asks for. *)
Definition index_answer : handoff readResult := Answer (mkReadResult 1 None).

Definition lead_read : Loop fileStateStore :=
  run after_read (act (Select (ReadRequest 7 false) second 0 0) leading).

(** Server 2, following server 1: it gets the no-op and its commitment, and applies it. *)
Definition noop_entry : LogEntry :=
  default (mkLogEntry 0 0 []) (rl_cache (e_raftLog (lp_engine leading)) !! 0%nat).

Definition boot2 : Loop fileStateStore := start (NewWithTransport (booted 2) fresh_wal machine0 "snapshot.json" 0).

Definition following : list action :=
  [RpcAppendEntries (mkAppendEntriesRequest 1 1 0 0 [noop_entry] 1) second].

Definition follower2 : Loop fileStateStore := run following boot2.

Definition ask_leader (addr : string) (req : ReadIndexRequest) : option ReadIndexResponse :=
  Some (HandleReadIndex req index_answer (lp_engine lead_read)).

Definition wait2 : list action := [Select Tick second 0 0].

Lemma follower_read_witness :
  followerRead (lp_engine follower2) (lp_engine follower2) (lp_engine follower2) ask_leader (Answer None) = None ∧
  ∃ reached rest, wait2 = reached ++ rest ∧
    1 ≤ rn_LastApplied (e_node (lp_engine (run reached
      (act (Select (ApplyWait (mkApplyWaiter 1 (2 * second) 9)) second 0 0) follower2)))).
Proof.
  split; [reflexivity|].
  destruct (follower_read run_limits run_limits_campaign (booted 1) (booted 2) fresh_wal fresh_wal machine0 machine0
    "snapshot.json" "snapshot.json" 0 0 to_leadership after_read following wait2 7 9 second 0 0 second 0 0
    (2 * second) index_answer (Answer None) (lp_engine follower2) (lp_engine lead_read)
    (lp_engine follower2) (lp_engine follower2) ask_leader) as [_ Hcaught].
  - split_and!; [reflexivity|reflexivity|vm_compute; eauto].
  - evaluate.
  - evaluate.
  - reflexivity.
  - reflexivity.
  - decide_now.
  - reflexivity.
  - reflexivity.
  - decide_now.
  - intros r [= <-]. decide_now.
  - intros r [= <-]. decide_now.
  - intros addr req resp Hs. exact (eq_sym (f_equal (default resp) Hs)).
  - reflexivity.
  - destruct Hcaught as [Hle|Hex]; [exfalso; vm_compute in Hle; congruence|exact Hex].
Defined.

(** ** A bounded read *)

Definition fresh_world : read_world fileStateStore :=
  mkReadWorld (lp_engine follower2) (lp_engine follower2) (lp_engine follower2) (lp_engine follower2)
    (λ _ _, None) Gone (Answer None).

Lemma bounded_read_witness :
  EngineRead (mkReadOptions BoundedStale second) (second + 5) fresh_world = None ∧
  0 < second.
Proof.
  split; [reflexivity|].
  destruct (bounded_read (booted 2) fresh_wal machine0 "snapshot.json" 0 following wait2 9 (second + 5) second 0 0
    (2 * second) second fresh_world) as [Hpos _].
  - reflexivity.
  - reflexivity.
  - decide_now.
  - intros r [= <-]. decide_now.
  - reflexivity.
  - exact Hpos.
Defined.

(** ** The RPCs over HTTP *)

(** The leader's server: the URL past the host picks the route. *)
Fixpoint past (n : nat) (s : string) : string :=
  match n, s with S n, String.String _ s => past n s | _, _ => s end.

Definition read_call : call := mkCall second index_answer.

Definition serve_leader (url : string) (r : http_request) : result http_response :=
  match RegisterRoutes read_call !! past 11 url with
  | Some (InternalRoute rt) => Ok (rt r (lp_engine lead_read)).1
  | Some (ClientRoute _) => Err "not an RPC"%string
  | None => Ok (http_Error "404 page not found" StatusNotFound)
  end.

Lemma serve_leader_served : served read_call "a:80" (lp_engine lead_read) serve_leader.
Proof.
  intros path rt r Hr. unfold serve_leader.
  change (past 11 ("http://" +:+ "a:80" +:+ "/" +:+ path)) with ("/" +:+ path)%string. by rewrite Hr.
Qed.

Lemma http_transport_faithful_witness :
  tr_ReadIndex (HTTPTransport serve_leader) "a:80" (mkReadIndexRequest 2) = Ok (mkReadIndexResponse 1 1 true).
Proof.
  destruct (http_transport_faithful read_call (lp_engine lead_read) "a:80" serve_leader serve_leader_served)
    as (_ & _ & _ & _ & Hread).
  rewrite Hread; [vm_compute; reflexivity|evaluate|evaluate].
Defined.
