(* ===== verification/TestExamples.v ===== *)
(** * The test cluster at work

    The harness's constructor, network and monitor on concrete clusters. *)

From Stdlib Require Import QArith.
From S2P Require Import Prelude Configuration Os Json FsUtil Types Rpc Encoding StateMachine RaftLog RaftLogFacts RaftNode Snapshot RaftNodeFacts StateFile Config Replicator Engine EngineLoop EngineApi EngineRun Cluster FakeNet TestCluster Examples.
#[local] Open Scope Z_scope.

Definition empty_cluster : TestCluster := mkTestCluster ∅ newFakeNet ∅.

(** Three servers, as [New] starts them. *)
Definition trio : TestCluster :=
  match New (mkOptions 0 0) (λ _, "tmp"%string) 0 (λ _, 0) with Ok c => c | Err _ => empty_cluster end.

Example trio_starts :
  map_to_list (fn_handlers (tc_net trio)) ≡ₚ [("node-1", 1); ("node-2", 2); ("node-3", 3)]%string ∧
  map_Forall (λ i n, nd_ID n = i ∧ rn_Role (nd_Raft n) = Follower ∧ rn_persistent (nd_Raft n) = initial_state ∧
    Members (rn_config (nd_Raft n)) = voters_of (mkOptions 0 0) ∧
    NodePeers (nd_Raft n) = delete i (voters_of (mkOptions 0 0))) (tc_Nodes trio).
Proof. split; apply (bool_decide_unpack _); vm_compute; exact I. Qed.

(** ** Partitions *)

Lemma trio_plain : map_Forall (λ a _, plain_addr a) (fn_handlers (tc_net trio)).
Proof. apply (bool_decide_unpack _). vm_compute. exact I. Qed.

Lemma isolate_correct_witness :
  ∃ e, (route "node-1" "node-2" 0%Q (isolate "node-1" (tc_net trio))).1 = Err e.
Proof.
  destruct (isolate_correct (tc_net trio) "node-1") as (Hcut & _).
  - intros a [h Ha]. exact (trio_plain a h Ha).
  - apply (bool_decide_unpack _). vm_compute. exact I.
  - refine (proj1 (Hcut "node-2"%string 0%Q _ _)); [vm_compute; eauto|discriminate].
Defined.

(** The reply of server 2 is cut while it grants its vote: the vote is cast, and
    the candidate learns nothing. *)
Definition ask_vote (req : RequestVoteRequest) (e : Engine fileStateStore) :=
  rpc_RequestVote (mkCall 0 Gone) req e.

Definition vote_req : RequestVoteRequest := mkRequestVoteRequest 1 1 0 0.

Definition lost_reply : result RequestVoteResponse * Z * gmap Z (Engine fileStateStore) :=
  deliver ask_vote (tc_net trio) (cutLink "node-2" "node-1" (tc_net trio)) 0%Q "node-1" "node-2" vote_req (receivers trio).

Lemma triple_eta {A B C} (x : A * B * C) : x = (x.1.1, x.1.2, x.2).
Proof. by destruct x as [[] ]. Qed.

Lemma deliver_correct_witness :
  ∃ e, lost_reply.1.1 = Err e ∧
    (rn_persistent ∘ e_node) <$> lost_reply.2 !! 2 = Some (mkPersistentState 1 1).
Proof.
  destruct (deliver_correct ask_vote (tc_net trio) (cutLink "node-2" "node-1" (tc_net trio)) 0%Q "node-1" "node-2" vote_req
    (receivers trio) lost_reply.1.1 lost_reply.1.2 lost_reply.2) as [(Hbad & _)|(h & t & Hh & Ht & _ & Hn & Hr)].
  - exact (triple_eta lost_reply).
  - intros h [= <-]. vm_compute. eauto.
  - exfalso. destruct Hbad as [Hb|[Hb|[Hb _]]]; vm_compute in Hb; congruence.
  - destruct Hr as [[_ [e He]]|[Hb _]]; [|exfalso; vm_compute in Hb; congruence].
    exists e. split; [exact He|]. vm_compute. reflexivity.
Defined.

(** ** The monitor *)

(** Server 1 of the elected cluster, as the harness sees it. *)
Definition seen_leader : Node :=
  mkNode 1 "node-1" (start (mkEngine leader1 fresh_wal NewMemoryStateMachine "" 0 [] ∅ 0 0 ∅ 0 0 ∅ [] [] 0 None [])) "" false.

Lemma monitor_correct_witness : (monitor [[seen_leader]; [seen_leader]] ∅).1 = Ok tt.
Proof.
  apply (monitor_correct config3 all_down [[seen_leader]; [seen_leader]]); [reflexivity|exact all_down_initial|].
  eapply (watched_cons _ _ elected1); [exact election_run|reflexivity|reflexivity|].
  eapply (watched_cons _ _ elected1); [apply reach_here|reflexivity|reflexivity|]. apply watched_nil.
Defined.
