(* ===== verification/RaftExamples.v ===== *)
(** * A run of three servers

    Server 1 is elected by server 2, appends a command, replicates and commits it;
    the next round tells server 2.  Then server 1 applies the command, compacts its
    log to nothing, and ships server 3, which boots only now, a snapshot.  The
    theorems of RaftSimulation.v are applied to the servers of the run. *)

From stdpp Require Import functions.
From S2P Require Import Prelude Configuration Os FsUtil Types Encoding RaftLog RaftLogFacts RaftNode RaftNodeFacts StateFile Replicator Cluster RaftSpec RaftSafety RaftSystem RaftSimulation Examples.

Abbreviation sv_t := (Server (S := fileStateStore)).

Definition sys_down : System := mkSystem all_down (λ _, fresh_wal) [] [] [] [] [].

Definition up (i : Z) : sv_t := mkServer (SeedFromSnapshot 0 (booted i)) fresh_wal ∅.
Definition up1 := Eval vm_compute in sv_node (up 1).
Definition sv1a : sv_t := mkServer up1 fresh_wal ∅.
Definition up2 := Eval vm_compute in sv_node (up 2).
Definition sv2a : sv_t := mkServer up2 fresh_wal ∅.
Definition sys_up : System := put 2 sv2a (put 1 sv1a sys_down).

(** Server 1 campaigns and asks; server 2 grants; server 1 counts and takes office. *)
Definition cand := Eval vm_compute in (BecomeCandidate 0 (sv_node sv1a)).2.
Definition sv1b : sv_t := mkServer cand fresh_wal ∅.
Definition sys_campaigning : System := put 1 sv1b (with_cluster (cast (1, 1, 1) (sy_cluster sys_up)) sys_up).
Definition sys_asked : System := asked ask1 sys_campaigning.
Definition vote2 := Eval vm_compute in HandleRequestVote ask1 (0, 0) 0 (sv_node sv2a).
Definition sv2b : sv_t := with_node vote2.2 sv2a.
Definition sys_voted : System := put 2 sv2b (with_cluster (cast (1, 1, 2) (sy_cluster sys_asked)) sys_asked).
Definition tally1 := Eval vm_compute in (RecordVoteAndCheckMajority 2 1 cand).2.
Definition sv1c : sv_t := mkServer tally1 fresh_wal ({[1]} ∪ ∅).
Definition sys_carried : System := put 1 sv1c sys_voted.
Definition lead1 := Eval vm_compute in (BecomeLeader 1 0 tally1).2.
Definition sv1d : sv_t := with_node lead1 sv1c.
Definition sys_led : System := put 1 sv1d (with_cluster (elect 1 1 (sy_cluster sys_carried)) sys_carried).

(** It appends, sends, and is answered. *)
Definition log1 : RaftLog := Eval vm_compute in (AppendLeader [x00] 1 fresh_wal).2.
Definition sv1e : sv_t := mkServer lead1 log1 (sv_won sv1d).
Definition sys_proposed : System := put 1 sv1e sys_led.
Definition first_round : AppendEntriesRequest := Eval vm_compute in append_request lead1 lead1 lead1 log1 log1 2.
Definition sys_sent : System := sent first_round sys_proposed.
Definition append2 := Eval vm_compute in HandleAppendEntries fresh_wal first_round 0 vote2.2.
Definition sv2c : sv_t := mkServer append2.1.2 append2.2 ∅.
Definition sys_appended : System := put 2 sv2c (answered (2, 1, append2.1.1) sys_sent).
Definition reply1 := Eval vm_compute in append_reply 1 2 (Some append2.1.1) lead1.
Definition sv1f : sv_t := with_node reply1.2 sv1e.
Definition sys_answered : System := put 1 sv1f sys_appended.
Definition commit1 := Eval vm_compute in AdvanceCommitIndex (LatestIndex log1) (TermAt log1) 1 (sv_node sv1f).
Definition sv1g : sv_t := with_node commit1.2 sv1f.
Definition sys_committed : System := put 1 sv1g sys_answered.

(** The next round carries the commit index. *)
Definition second_round : AppendEntriesRequest := Eval vm_compute in append_request (sv_node sv1g) (sv_node sv1g) (sv_node sv1g) log1 log1 2.
Definition sys_sent2 : System := sent second_round sys_committed.
Definition append2' := Eval vm_compute in HandleAppendEntries (sv_log sv2c) second_round 0 (sv_node sv2c).
Definition sv2d : sv_t := mkServer append2'.1.2 append2'.2 ∅.
Definition sys_told : System := put 2 sv2d (answered (2, 1, append2'.1.1) sys_sent2).

(** Applied, compacted, shipped, and installed at a server that has just booted. *)
Definition apply1 := Eval vm_compute in (AdvanceLastApplied (sv_node sv1g)).2.
Definition sv1h : sv_t := with_node apply1 sv1g.
Definition sys_applied : System := put 1 sv1h sys_told.
Definition compact1 := Eval vm_compute in TruncateBeforeIndex 1 1 log1.
Definition sv1i : sv_t := mkServer (sv_node sv1h) compact1.2 (sv_won sv1h).
Definition sys_compacted : System := put 1 sv1i sys_applied.
Definition snapshot1 : InstallSnapshotRequest := mkInstallSnapshotRequest 1 1 1 1 [x01].
Definition sys_shipped : System := shipped snapshot1 sys_compacted.
Definition up3 := Eval vm_compute in sv_node (up 3).
Definition sv3a : sv_t := mkServer up3 fresh_wal ∅.
Definition sys_joined : System := put 3 sv3a sys_shipped.
Definition keep : M (unit * Os) unit := λ x, (Ok tt, x).
Definition install3 := Eval vm_compute in HandleInstallSnapshot fresh_wal snapshot1 (λ _, keep) keep 0 (sv_node sv3a) tt.
Definition sv3b : sv_t := mkServer install3.1.1.2 install3.1.2 ∅.
Definition sys_installed3 : System := put 3 sv3b (installed (3, 1, 1, install3.1.1.1) sys_joined).

(** Servers that have never run, with empty logs on any disk. *)
Lemma empty_initial (w : Z → RaftLog) :
  (∀ i, log_wf (w i) ∧ rl_cache (w i) = [] ∧ rl_lastIncludedIndex (w i) = 0 ∧ rl_lastIncludedTerm (w i) = 0) →
  sys_initial (mkSystem all_down w [] [] [] [] []).
Proof.
  intros Hw. split; [exact all_down_initial|]. split; [|split; [|by split_and!]].
  - intros i s p [= <-] (c & Hcc & Hs).
    apply crash_content_settled in Hcc; [|exact blank_wf|exact blank_settled]. subst c.
    vm_compute in Hs. by destruct p.
  - intros i. destruct (Hw i) as (Hwf & Hc & Hi & Ht). assert (base (w i) = 0%nat) as Hb by (unfold base; by rewrite Hi).
    split; [|done]. split; simpl; rewrite ?Hb; done.
Qed.

Lemma sys_down_initial : sys_initial sys_down.
Proof. apply (empty_initial (λ _, fresh_wal)). intros _. by split; [exact fresh_wal_wf|]. Qed.

Lemma boot (y : System) (i : Z) (sv : sv_t) :
  cl_status (sy_cluster y) i = Down meta_store → sy_wal y i = fresh_wal → sv = up i → (0 <? i) = true →
  sys_step config3 y (put i sv y).
Proof.
  intros Hd Hw -> Hi%Z.ltb_lt. apply (sys_boot config3 y i meta_store 0 (booted i) (rn_store (booted i)) fresh_wal);
    [done|done|apply booted_boots|exact fresh_wal_wf|by rewrite Hw].
Qed.

Lemma run_commits : rtc (sys_step config3) sys_down sys_committed.
Proof.
  eapply rtc_l; [exact (boot sys_down 1 sv1a eq_refl eq_refl eq_refl eq_refl)|].
  eapply rtc_l; [exact (boot (put 1 sv1a sys_down) 2 sv2a eq_refl eq_refl eq_refl eq_refl)|].
  eapply rtc_l; [apply (sys_campaign config3 sys_up 1 sv1a 0 1 cand);
    [done|vm_compute; split; congruence|reflexivity|vm_compute; reflexivity]|].
  eapply rtc_l; [apply (sys_ask config3 sys_campaigning 1 sv1b 1); [done|vm_compute; congruence]|].
  eapply rtc_l; [apply (sys_request_vote config3 sys_asked 2 sv2a ask1 0 (mkRequestVoteResponse 1 true) vote2.2);
    [done|left|vm_compute; reflexivity]|].
  eapply rtc_l; [apply (sys_vote config3 sys_voted 1 sv1b 2 1 true tally1); [done|left|vm_compute; reflexivity]|].
  eapply rtc_l; [apply (sys_promote config3 sys_carried 1 sv1c 1 true lead1); [done|set_solver|vm_compute; reflexivity]|].
  eapply rtc_l; [apply (sys_propose config3 sys_led 1 sv1d [x00] (AppendLeader [x00] 1 fresh_wal).1 log1);
    [done|reflexivity|reflexivity|vm_compute; reflexivity]|].
  eapply rtc_l; [apply (sys_send config3 sys_proposed 1 sv1e 2); [done|reflexivity]|].
  eapply rtc_l; [apply (sys_append config3 sys_sent 2 sv2b first_round 0 append2.1.1 append2.1.2 append2.2);
    [done|left| |left; vm_compute; reflexivity]|].
  { vm_compute. reflexivity. }
  eapply rtc_l; [apply (sys_reply config3 sys_appended 1 sv1e 2 1 append2.1.1 reply1.1);
    [done|left|done|vm_compute; reflexivity]|].
  apply rtc_once, (sys_commit config3 sys_answered 1 sv1f commit1.1); [done|vm_compute; reflexivity].
Qed.

Lemma run_tells : rtc (sys_step config3) sys_committed sys_told.
Proof.
  eapply rtc_l; [apply (sys_send config3 sys_committed 1 sv1g 2); [done|vm_compute; reflexivity]|].
  apply rtc_once, (sys_append config3 sys_sent2 2 sv2c second_round 0 append2'.1.1 append2'.1.2 append2'.2);
    [done|left| |left; vm_compute; reflexivity].
  vm_compute. reflexivity.
Qed.

Lemma run_told : rtc (sys_step config3) sys_down sys_told.
Proof. etrans; [exact run_commits|exact run_tells]. Qed.

Lemma run_installs : rtc (sys_step config3) sys_told sys_installed3.
Proof.
  eapply rtc_l; [apply (sys_apply config3 sys_told 1 sv1g); [done|vm_compute; reflexivity]|].
  eapply rtc_l; [apply (sys_compact config3 sys_applied 1 sv1h 1 compact1.1 compact1.2);
    [done|vm_compute; congruence|vm_compute; reflexivity]|].
  eapply rtc_l; [apply (sys_ship config3 sys_compacted 1 sv1i 1 [x01]);
    [done|vm_compute; reflexivity|vm_compute; split; congruence]|].
  eapply rtc_l; [exact (boot sys_shipped 3 sv3a eq_refl eq_refl eq_refl eq_refl)|].
  apply rtc_once, (sys_install config3 sys_joined 3 sv3a snapshot1 (λ _, keep) keep 0 tt install3.1.1.1 install3.1.1.2 install3.1.2 tt);
    [done|left| |].
  - vm_compute. reflexivity.
  - split; [split|]; try (vm_compute; congruence).
Qed.

Lemma system_refines_raft_witness :
  ∃ s s', spec_reachable (quorum_of config3) spec0 s ∧ related sys_told s ∧
    rtc (spec_step (quorum_of config3)) s s' ∧ related sys_installed3 s'.
Proof.
  exact (system_refines_raft config3 sys_down sys_told sys_installed3 eq_refl sys_down_initial
    run_told run_installs).
Defined.
