(* ===== verification/FleetExamples.v ===== *)
(** * A cluster of programs at work

    Two of three servers start, one is elected, takes a client's write, replicates it
    and acknowledges it; the other stops, starts again from its disks, and the next
    round tells it.  The theorems about clusters are applied to the run. *)

From stdpp Require Import functions.
From S2P Require Import Cluster RaftSpec RaftSafety RaftSystem RaftSimulation.
From S2P Require Import Prelude Configuration Os Json FsUtil Types Encoding RaftLog RaftLogFacts RaftLogDisk RaftNode RaftNodeFacts StateMachine Snapshot StateFile Replicator Engine EngineLoop EngineFacts EngineRun EngineMoves Startup Examples DiskExamples RaftExamples Fleet FleetSafety FleetWrites.

Abbreviation fleet := (Fleet (Store := fileStateStore)).

#[export] Instance vote_request_eq_dec : EqDecision RequestVoteRequest.
Proof. solve_decision. Defined.

#[export] Instance append_request_eq_dec : EqDecision AppendEntriesRequest.
Proof. solve_decision. Defined.

#[export] Instance append_response_eq_dec : EqDecision AppendEntriesResponse.
Proof. solve_decision. Defined.

(** ** Running a fleet *)

Definition take_action (i : Z) (a : action) (f : fleet) : fleet :=
  match fl_place f i with
  | Running l0 acts => acted i None a l0 acts f
  | Stopped _ _ => f
  end.

(** [takes], decided, for the actions of the run below. *)
Definition may_take (i : Z) (a : action) (f : fleet) : bool :=
  match fl_place f i with
  | Stopped _ _ => false
  | Running l0 acts =>
      let l := run acts l0 in
      let e := lp_engine l in
      let m := fl_mail f in
      match e_fatal e with None => true | Some _ => false end && (rl_nextIndex (e_raftLog e) <? MaxInt64) &&
      bool_decide (int64 (rn_term (e_node e))) && (rn_term (e_node e) <? MaxInt64) &&
      match a with
      | Select (VoteResult t v resp) _ _ _ => negb (rvr_VoteGranted resp) || bool_decide ((t, i, v) ∈ ml_ballots m)
      | Select _ _ _ _ => true
      | RpcAppendEntries req now => bool_decide (req ∈ ml_appends m) &&
          (aer_Success (EngineHandleAppendEntries req now e).1 ||
           bool_decide (logical (e_raftLog (EngineHandleAppendEntries req now e).2) = logical (e_raftLog e)))
      | RpcRequestVote req _ => bool_decide (req ∈ ml_asks m)
      | RpcInstallSnapshot _ _ => false
      | RoundBegin _ => match ml_snaps (outbox i None a l) with [] => true | _ => false end
      | RoundEnd rd (AppendReply u (Some resp)) =>
          bool_decide ((rd_peer rd, u, resp) ∈ ml_replies m) && (negb (IsLeader (e_node e)) || (u =? rn_term (e_node e)))
      | RoundEnd _ _ => false
      end
  end.

Lemma may_take_takes i a f l0 acts :
  fl_place f i = Running l0 acts → may_take i a f = true → takes i None a (run acts l0) (fl_mail f).
Proof.
  intros Hp. unfold may_take. rewrite Hp, !andb_true_iff.
  intros ((((Hf & Hroom%Z.ltb_lt) & Hint%bool_decide_eq_true) & Hmax%Z.ltb_lt) & Ha).
  split; [by destruct (e_fatal _)| |split; [done|]];
    destruct a as [ev now d d'|req now|req now|req now|p|rd [u [resp|]|]]; try done.
  - destruct ev as [| | | |t v resp| | | |]; try done. simpl. intros Hg. rewrite Hg in Ha. by apply bool_decide_eq_true in Ha.
  - by apply andb_true_iff in Ha as [Hin%bool_decide_eq_true _].
  - by apply bool_decide_eq_true in Ha.
  - by apply andb_true_iff in Ha as [Hin%bool_decide_eq_true _].
  - apply andb_true_iff in Ha as [_ Hs]. unfold whole_batch. destruct (EngineHandleAppendEntries req now _) as [resp e'].
    apply orb_true_iff in Hs as [Hs|Hs%bool_decide_eq_true]; [by left|by right].
  - intros req Hin. destruct (ml_snaps (outbox i None (RoundBegin p) (run acts l0))); [|done]. by apply elem_of_nil in Hin.
  - apply andb_true_iff in Ha as [_ Hu]. intros u' [= <-] Hld.
    unfold IsLeader in Hu. rewrite bool_decide_true in Hu by done. by apply Z.eqb_eq in Hu.
Qed.

Lemma may_take_running i a f : may_take i a f = true → ∃ l0 acts, fl_place f i = Running l0 acts.
Proof. unfold may_take. destruct (fl_place f i) as [|l0 acts]; [done|]. by exists l0, acts. Qed.

Lemma take_action_step i a f : may_take i a f = true → orderly_step config3 f (take_action i a f).
Proof.
  intros Hm. destruct (may_take_running i a f Hm) as (l0 & acts & Hp). unfold take_action. rewrite Hp.
  pose proof (may_take_takes i a f l0 acts Hp Hm) as Ht. exact (orderly_act config3 f i l0 acts None a Hp Ht).
Qed.

Definition take_all (steps : list (Z * action)) (f : fleet) : fleet := foldl (λ f s, take_action s.1 s.2 f) f steps.

Fixpoint may_take_all (steps : list (Z * action)) (f : fleet) : bool :=
  match steps with
  | [] => true
  | (i, a) :: steps => may_take i a f && may_take_all steps (take_action i a f)
  end.

Lemma take_all_steps steps f : may_take_all steps f = true → rtc (orderly_step config3) f (take_all steps f).
Proof.
  revert f. induction steps as [|[i a] steps IH]; intros f; simpl; [done|].
  intros [Ha Hs]%andb_true_iff. eapply rtc_l; [by apply take_action_step|by apply IH].
Qed.

Definition engine_in (f : fleet) (i : Z) : Engine fileStateStore :=
  match fl_place f i with
  | Running l0 acts => lp_engine (run acts l0)
  | Stopped _ rl => NewWithTransport (booted i) rl NewMemoryStateMachine "snapshot.json" 0
  end.

(** What a server starts with on blank disks. *)
Definition setup : Settings := mkSettings "raft.wal" "snapshot.json" DefaultSessionTTL 0.

Definition started_on (i : Z) (disk : Os) (s : fileStateStore) : Loop fileStateStore :=
  match (startup setup config3 i 0 0 disk s).1 with
  | Ok l => l
  | Err _ => start (NewWithTransport (booted i) fresh_wal NewMemoryStateMachine "snapshot.json" 0)
  end.

(** The WAL exists, and is empty. *)
Definition empty_wal : RaftLog := Eval vm_compute in (NewRaftLog "raft.wal" (calm (wal_disk []))).2.

Lemma empty_wal_wf : log_wf empty_wal.
Proof. split; [split|]; vm_compute; congruence. Qed.

Definition first_loop (i : Z) : Loop fileStateStore := started_on i (rl_disk empty_wal) meta_store.

(** ** The run *)

Definition ms (t : Z) : Z := t * 1000000.

Definition fleet_down : fleet := mkFleet (λ _, Stopped meta_store empty_wal) no_mail.

Definition fleet_up : fleet := settle 2 (Running (first_loop 2) []) (settle 1 (Running (first_loop 1) []) fleet_down).

Lemma fleet_down_initial : fleet_initial fleet_down.
Proof. apply (empty_initial (λ _, empty_wal)). intros _. by split; [exact empty_wal_wf|]. Qed.

(** A start that recovers the log it is to recover. *)
Definition starts_b (i : Z) (disk : Os) (s : fileStateStore) (rl : RaftLog) : bool :=
  (0 <? i) && match (startup setup config3 i 0 0 disk s).1 with Ok _ => true | Err _ => false end &&
  bool_decide (logical (e_raftLog (lp_engine (started_on i disk s))) = logical rl).

Lemma start_step (f : fleet) (i : Z) s rl :
  fl_place f i = Stopped s rl → log_wf rl → starts_b i (rl_disk rl) s rl = true →
  orderly_step config3 f (settle i (Running (started_on i (rl_disk rl) s) []) f).
Proof.
  intros Hp Hwf [[Hi%Z.ltb_lt Hs]%andb_true_iff Hl%bool_decide_eq_true]%andb_true_iff.
  exists (Starts i). split.
  - destruct (startup setup config3 i 0 0 (rl_disk rl) s) as [[l|er] left] eqn:He; [|done].
    unfold started_on. rewrite He. by eapply fs_boot.
  - intros s1 rl1 Hp1. assert (Stopped s1 rl1 = Stopped s rl) as [= -> ->] by congruence.
    simpl. rewrite fn_lookup_insert. split; [by eapply logical_wf|]. injection Hl as ? ? ? ? ? ? ?. by split_and!.
Qed.

Lemma boot_step (f : fleet) (i : Z) :
  fl_place f i = Stopped meta_store empty_wal → starts_b i (rl_disk empty_wal) meta_store empty_wal = true →
  orderly_step config3 f (settle i (Running (first_loop i) []) f).
Proof. intros Hp Hs. by apply start_step, Hs; [|exact empty_wal_wf]. Qed.

Lemma run_up : rtc (orderly_step config3) fleet_down fleet_up.
Proof.
  eapply rtc_l; [apply (boot_step fleet_down 1); [reflexivity|vm_compute; reflexivity]|].
  apply rtc_once. apply (boot_step (settle 1 (Running (first_loop 1) []) fleet_down) 2); [reflexivity|vm_compute; reflexivity].
Qed.

Definition the_write : Command := mkCommand OpSet "k" "v" "" 0 0.

(** Server 1 times out, polls, is voted for, and takes a write on channel 7. *)
Definition campaign : list action :=
  [Select Tick (ms 1000) 0 0; Select (PreVoteResult 1 2 (mkPreVoteResponse 0 true)) (ms 1000) 0 0;
   Select (VoteResult 1 2 (mkRequestVoteResponse 1 true)) (ms 1000) 0 0].
Definition write_action : action := Select (Propose the_write 7) (ms 1001) 0 0.
Definition vote_action : action := RpcRequestVote (mkRequestVoteRequest 1 1 0 0) (ms 1000).

Definition to_write : list (Z * action) :=
  [(1, Select Tick (ms 1000) 0 0); (1, Select (PreVoteResult 1 2 (mkPreVoteResponse 0 true)) (ms 1000) 0 0);
   (2, vote_action); (1, Select (VoteResult 1 2 (mkRequestVoteResponse 1 true)) (ms 1000) 0 0);
   (1, write_action); (1, RoundBegin 2)].
Definition fleet_wrote : fleet := take_all to_write fleet_up.

(** The round, its answer, and the tick that commits. *)
Definition carried_write : AppendEntriesRequest :=
  Eval vm_compute in hd (mkAppendEntriesRequest 0 0 0 0 [] 0) (ml_appends (fl_mail fleet_wrote)).
Definition round_end : action := RoundEnd (mkRound 2 1 1) (AppendReply 1 (Some (mkAppendEntriesResponse 1 true 2 0 0))).
Definition next_tick : action := Select Tick (ms 1020) 0 0.
Definition to_ack : list (Z * action) := [(2, RpcAppendEntries carried_write (ms 1002)); (1, round_end); (1, next_tick)].
Definition fleet_acked : fleet := take_all to_ack fleet_wrote.

(** Server 2 stops, and starts from what is on its disks. *)
Definition log2 : RaftLog := Eval vm_compute in e_raftLog (engine_in fleet_acked 2).
Definition disk2 : Os := calm (os_fs (rl_disk log2)).
Definition meta2 : fileStateStore := Eval vm_compute in rn_store (e_node (engine_in fleet_acked 2)).
Definition meta2' : fileStateStore := mkFileStateStore (fss_path meta2) (calm (os_fs (fss_os meta2))).
Definition stopped2 : place := Stopped meta2' (set_disk disk2 log2).
Definition second_loop : Loop fileStateStore := started_on 2 disk2 meta2'.
Definition fleet_restarted : fleet := settle 2 (Running second_loop []) (settle 2 stopped2 fleet_acked).

(** The next round carries the commit index. *)
Definition carried_commit : AppendEntriesRequest :=
  Eval vm_compute in hd (mkAppendEntriesRequest 0 0 0 0 [] 0) (ml_appends (fl_mail (take_action 1 (RoundBegin 2) fleet_acked))).
Definition to_told : list (Z * action) := [(1, RoundBegin 2); (2, RpcAppendEntries carried_commit (ms 1021))].
Definition fleet_told : fleet := take_all to_told fleet_restarted.

Lemma fleet_run_acked : rtc (orderly_step config3) fleet_down fleet_acked.
Proof.
  etrans; [exact run_up|]. etrans; [apply (take_all_steps to_write); vm_compute; reflexivity|].
  apply (take_all_steps to_ack). vm_compute. reflexivity.
Qed.

Definition history2 : list action := [vote_action; RpcAppendEntries carried_write (ms 1002)].

Lemma history_of_2 : fl_place fleet_acked 2 = Running (first_loop 2) history2.
Proof. reflexivity. Qed.

Lemma crash_step : orderly_step config3 fleet_acked (settle 2 stopped2 fleet_acked).
Proof.
  exists (Stops 2). split; [|done].
  set (e := lp_engine (run history2 (first_loop 2))).
  assert (e_raftLog e = log2) as Hl by (vm_compute; reflexivity).
  assert (rn_store (e_node e) = meta2) as Hm by (vm_compute; reflexivity).
  assert (ss_reboot (rn_store (e_node e)) meta2') as Hsm.
  { rewrite Hm. split; [reflexivity|]. apply reboot_settled; vm_compute; reflexivity. }
  assert (reboot (rl_disk (e_raftLog e)) disk2) as Hsl.
  { rewrite Hl. apply reboot_settled; vm_compute; reflexivity. }
  pose proof (fs_crash config3 fleet_acked 2 (first_loop 2) history2 meta2' disk2 history_of_2 Hsm Hsl) as Hs.
  cbv zeta in Hs. fold e in Hs. rewrite Hl in Hs. exact Hs.
Qed.

Lemma fleet_run_restarted : rtc (orderly_step config3) fleet_acked fleet_restarted.
Proof.
  eapply rtc_l; [exact crash_step|]. apply rtc_once.
  apply (start_step (settle 2 stopped2 fleet_acked) 2 meta2' (set_disk disk2 log2)); [reflexivity| |vm_compute; reflexivity].
  split; [split|]; try (vm_compute; congruence).
  intros [|[|i]] e; vm_compute; intros [=]; subst; done.
Qed.

Lemma fleet_run_told : rtc (orderly_step config3) fleet_acked fleet_told.
Proof. etrans; [exact fleet_run_restarted|]. apply (take_all_steps to_told). vm_compute. reflexivity. Qed.

Definition history : list action := campaign ++ write_action :: [RoundBegin 2; round_end; next_tick].

Lemma history_of_1 : fl_place fleet_acked 1 = Running (first_loop 1) history.
Proof. reflexivity. Qed.

Definition the_entry : LogEntry :=
  mkLogEntry 2 1 (Marshal (mkCommand OpSet "k" "v" "" 0 (ms 1001))).

(** The client on channel 7 was answered nil; server 2 commits the entry. *)
Lemma acknowledged_write_survives_witness :
  (7%nat, RErr None) ∈ e_sent (lp_engine (run history (first_loop 1))) ∧
  rn_CommitIndex (e_node (engine_in fleet_told 2)) = 2 ∧
  (GetEntry (e_raftLog (engine_in fleet_told 2)) 2 = Some the_entry ∨ 2 ≤ rl_lastIncludedIndex (e_raftLog (engine_in fleet_told 2))).
Proof.
  assert ((7%nat, RErr None) ∈ e_sent (lp_engine (run history (first_loop 1)))) as Hs
    by (apply (bool_decide_unpack _); vm_compute; exact I).
  split; [exact Hs|]. split; [vm_compute; reflexivity|].
  destruct (acknowledged_write_survives config3 fleet_down fleet_acked 1 (first_loop 1) campaign [RoundBegin 2; round_end; next_tick]
    the_write 7 (ms 1001) 0 0) as (data & Hdata & Hall);
    [reflexivity|exact fleet_down_initial|exact fleet_run_acked|exact history_of_1|vm_compute; reflexivity|
     apply (bool_decide_unpack _); vm_compute; exact I|exact Hs|].
  injection Hdata as <-. specialize (Hall fleet_told 2 (engine_in fleet_told 2) fleet_run_told).
  apply Hall; [eexists _, _; split; reflexivity|left; vm_compute; congruence].
Defined.

(** The same run, as a run of the abstract machine. *)
Lemma fleet_refines_raft_witness :
  ∃ s s', spec_reachable (quorum_of config3) spec0 s ∧ rtc (spec_step (quorum_of config3)) s s' ∧
    sp_role s 1 = Leader ∧ sp_commit s 1 = 2%nat ∧ sp_commit s' 2 = 2%nat ∧ segment (e_raftLog (engine_in fleet_told 2)) (sp_log s' 2).
Proof.
  destruct (fleet_refines_raft config3 fleet_down fleet_acked fleet_told eq_refl fleet_down_initial fleet_run_acked fleet_run_told)
    as (s & s' & Hs & Ha & Hs' & Ha').
  destruct (Ha 1 (engine_in fleet_acked 1)) as (_ & Hr & Hc & _); [eexists _, _; split; reflexivity|].
  destruct (Ha' 2 (engine_in fleet_told 2)) as (_ & _ & Hc' & Hl'); [eexists _, _; split; reflexivity|].
  exists s, s'. split; [exact Hs|]. split; [exact Hs'|].
  split; [rewrite Hr; vm_compute; reflexivity|].
  split; [apply Nat2Z.inj; rewrite Hc; vm_compute; reflexivity|].
  split; [apply Nat2Z.inj; rewrite Hc'; vm_compute; reflexivity|exact Hl'].
Defined.

(** Server 1 has committed index 2; so has server 2, after its restart. *)
Lemma state_machine_safety_witness :
  GetEntry (e_raftLog (engine_in fleet_told 2)) 2 = GetEntry (e_raftLog (engine_in fleet_acked 1)) 2 ∧
  GetEntry (e_raftLog (engine_in fleet_acked 1)) 2 = Some the_entry.
Proof.
  destruct (state_machine_safety config3 fleet_down fleet_acked fleet_told 1 2 (engine_in fleet_acked 1) (engine_in fleet_told 2) 2
    eq_refl fleet_down_initial fleet_run_acked fleet_run_told) as [Heq _];
    [eexists _, _; split; reflexivity|vm_compute; split; congruence|eexists _, _; split; reflexivity|vm_compute; split; congruence|].
  split; [exact Heq|vm_compute; reflexivity].
Defined.

(** What the leader had committed, it has when it has gone on leading. *)
Lemma leader_completeness_witness :
  GetEntry (e_raftLog (engine_in fleet_told 1)) 2 = Some the_entry ∨ 2 ≤ rl_lastIncludedIndex (e_raftLog (engine_in fleet_told 1)).
Proof.
  apply (leader_completeness config3 fleet_down fleet_told fleet_told 2 1 (engine_in fleet_told 2) (engine_in fleet_told 1) 2 the_entry
    eq_refl fleet_down_initial); [|exact (rtc_refl _ _)|eexists _, _; split; reflexivity|vm_compute; congruence|vm_compute; split; congruence|
    vm_compute; reflexivity|eexists _, _; split; reflexivity|vm_compute; reflexivity|vm_compute; congruence].
  etrans; [exact fleet_run_acked|exact fleet_run_told].
Defined.

(** The logs of both servers end in an entry of term 1, so they agree on the no-op. *)
Lemma log_matching_witness :
  GetEntry (e_raftLog (engine_in fleet_acked 2)) 1 = GetEntry (e_raftLog (engine_in fleet_acked 1)) 1.
Proof.
  apply (log_matching config3 fleet_down fleet_acked 2 1 (engine_in fleet_acked 2) (engine_in fleet_acked 1) 2 the_entry the_entry
    eq_refl fleet_down_initial fleet_run_acked); [eexists _, _; split; reflexivity|eexists _, _; split; reflexivity|
    vm_compute; split; congruence|vm_compute; reflexivity|vm_compute; reflexivity|reflexivity|vm_compute; split; congruence|vm_compute; congruence].
Defined.
