(* ===== verification/ReadExamples.v ===== *)
(** * Reads at work

    The run of FleetExamples.v with its rounds timed, and then a read: the leader asks
    its peers whether it still leads before it answers. *)

From stdpp Require Import functions.
From S2P Require Import Cluster RaftSpec RaftSafety RaftSystem RaftSimulation.
From S2P Require Import Prelude Configuration Os Json FsUtil Types Encoding RaftLog RaftLogFacts RaftNode RaftNodeFacts StateMachine Snapshot StateFile Replicator Engine EngineLoop EngineFacts EngineRun EngineMoves Examples RaftExamples Fleet FleetSafety FleetWrites FleetReads FleetExamples.

Abbreviation timed := (Timed (Store := fileStateStore)).

(** ** Running a timed fleet *)

(** [since_then], decided for a list that has only grown at the front. *)
Definition since_b {A} `{EqDecision A} (old new : list A) (x : A) : bool :=
  let k := (length new - length old)%nat in
  bool_decide (drop k new = old) && bool_decide (x ∈ take k new).

Lemma since_b_then {A} `{EqDecision A} (old new : list A) x : since_b old new x = true → since_then old new x.
Proof.
  unfold since_b. intros [Hd%bool_decide_eq_true Ht%bool_decide_eq_true]%andb_true_iff.
  eexists. split; [|exact Ht]. by rewrite <-Hd at 2; rewrite take_drop.
Qed.

Definition prompt_b (begun : list (round * Mail)) (a : action) (m : Mail) : bool :=
  match a with
  | RoundEnd rd (AppendReply u (Some resp)) =>
      existsb (λ b, bool_decide (b.1 = rd) && since_b (ml_replies b.2) (ml_replies m) (rd_peer rd, u, resp)) begun
  | RoundEnd _ (SnapshotReply _ _ (Some _)) => false
  | _ => true
  end.

Lemma prompt_b_prompt begun a m : prompt_b begun a m = true → prompt begun a m.
Proof.
  destruct a as [| | | | |rd [u [resp|]|u k [resp|]]]; try done. simpl.
  intros ([rd' m0] & Hin & [Heq%bool_decide_eq_true Hs]%andb_true_iff)%existsb_exists. simpl in Heq, Hs. subst rd'.
  exists m0. split; [by apply list_elem_of_In|by apply since_b_then].
Qed.

Definition take_timed (i : Z) (a : action) (t : timed) : timed :=
  match fl_place (td_fleet t) i with
  | Running l0 acts =>
      mkTimed (take_action i a (td_fleet t)) (<[i := begins a (run acts l0) (fl_mail (td_fleet t)) ++ td_begun t i]> (td_begun t))
  | Stopped _ _ => t
  end.

Lemma take_timed_acted i a t l0 acts :
  fl_place (td_fleet t) i = Running l0 acts →
  take_timed i a t = mkTimed (acted i None a l0 acts (td_fleet t))
    (<[i := begins a (run acts l0) (fl_mail (td_fleet t)) ++ td_begun t i]> (td_begun t)).
Proof. intros Hp. unfold take_timed, take_action, acted. by rewrite Hp. Qed.

Definition take_timed_all (steps : list (Z * action)) (t : timed) : timed := foldl (λ t s, take_timed s.1 s.2 t) t steps.

Fixpoint may_time_all (steps : list (Z * action)) (t : timed) : bool :=
  match steps with
  | [] => true
  | (i, a) :: steps =>
      may_take i a (td_fleet t) && prompt_b (td_begun t i) a (fl_mail (td_fleet t)) && may_time_all steps (take_timed i a t)
  end.

Lemma take_timed_steps steps t : may_time_all steps t = true → rtc (timed_step config3) t (take_timed_all steps t).
Proof.
  revert t. induction steps as [|[i a] steps IH]; intros t; simpl; [done|].
  intros [[Ha Hb]%andb_true_iff Hs]%andb_true_iff. eapply rtc_l; [|by apply IH].
  destruct (may_take_running i a _ Ha) as (l0 & acts & Hp). rewrite (take_timed_acted i a t l0 acts Hp).
  pose proof (may_take_takes i a _ l0 acts Hp Ha) as Hal. apply prompt_b_prompt in Hb. exact (ts_act config3 t i l0 acts None a Hp Hal Hb).
Qed.

(** ** The run *)

Definition timed_down : timed := mkTimed fleet_down (λ _, []).
Definition timed_boot (i : Z) (t : timed) : timed :=
  mkTimed (settle i (Running (first_loop i) []) (td_fleet t)) (<[i := []]> (td_begun t)).
Definition timed_up : timed := timed_boot 2 (timed_boot 1 timed_down).

Lemma timed_run_up : rtc (timed_step config3) timed_down timed_up.
Proof.
  eapply rtc_l; [apply (ts_other config3 timed_down 1); [apply boot_step; [reflexivity|vm_compute; reflexivity]|done]|].
  apply rtc_once. apply (ts_other config3 (timed_boot 1 timed_down) 2); [apply boot_step; [reflexivity|vm_compute; reflexivity]|done].
Qed.

(** The write, then a read on channel 8, which waits for a round of its own. *)
Definition read_action : action := Select (ReadRequest 8 true) (ms 1025) 0 0.
Definition read_round : action := RoundEnd (mkRound 2 2 1) (AppendReply 1 (Some (mkAppendEntriesResponse 1 true 2 0 0))).
Definition read_ack : action := Select (AckReport 2 2) (ms 1027) 0 0.
Definition to_read : list (Z * action) :=
  [(1, read_action); (1, RoundBegin 2); (2, RpcAppendEntries carried_commit (ms 1026)); (1, read_round); (1, read_ack)].
Definition timed_read : timed := take_timed_all (to_write ++ to_ack ++ to_read) timed_up.

Lemma timed_run_read : rtc (timed_step config3) timed_down timed_read.
Proof. etrans; [exact timed_run_up|]. apply take_timed_steps. vm_compute. reflexivity. Qed.

(** The read is answered with index 2, and the write acknowledged before it is there. *)
Lemma reads_see_writes_witness :
  (8%nat, RRead 2 None) ∈ e_sent (engine_in (td_fleet timed_read) 1) ∧
  ∃ t1, rtc (timed_step config3) timed_down t1 ∧ acknowledged (td_fleet t1) 1 the_entry ∧ le_Index the_entry ≤ 2.
Proof.
  assert ((8%nat, RRead 2 None) ∈ e_sent (lp_engine (run (history ++ read_action :: [RoundBegin 2; read_round; read_ack]) (first_loop 1)))) as Hs
    by (apply (bool_decide_unpack _); vm_compute; exact I).
  split; [exact Hs|].
  destruct (reads_see_writes config3 timed_down timed_read 1 (first_loop 1) history [RoundBegin 2; read_round; read_ack]
    8 true (ms 1025) 0 0 2) as (t1 & Hr1 & Hr & Hp & Hall);
    [reflexivity|split; [reflexivity|split; [reflexivity|by eexists]]|split; [exact fleet_down_initial|reflexivity]|
     exact timed_run_read|reflexivity|vm_compute; reflexivity|vm_compute; reflexivity|vm_compute; congruence|
     apply (bool_decide_unpack _); vm_compute; exact I|exact Hs|].
  assert (acknowledged (td_fleet t1) 1 the_entry) as Hack.
  { exists (first_loop 1), campaign, [RoundBegin 2; round_end; next_tick], the_write, 7%nat, (ms 1001), 0, 0.
    split; [exact Hp|]. split; [vm_compute; reflexivity|]. split; [|vm_compute; reflexivity].
    split; apply (bool_decide_unpack _); vm_compute; exact I. }
  exists t1. split; [exact Hr1|]. split; [exact Hack|].
  destruct (Hall (td_fleet t1)) as [_ Hw]; [by apply timed_fleet|reflexivity|exact (Hw 1 the_entry Hack)].
Defined.
