(* ===== verification/ReplicaExamples.v ===== *)
(** * Replicas at work

    The run of FleetExamples.v with the machines its servers had: once both have
    executed the acknowledged write, both have it. *)

From stdpp Require Import functions.
From S2P Require Import Cluster RaftSpec RaftSafety RaftSystem RaftSimulation.
From S2P Require Import Prelude Configuration Os Json FsUtil Types Encoding RaftLog RaftLogFacts RaftNode RaftNodeFacts StateMachine Snapshot StateFile Replicator Engine EngineLoop EngineFacts EngineRun EngineMoves EngineMachine Examples RaftExamples Fleet FleetSafety FleetWrites FleetReads FleetReplicas FleetExamples.

Abbreviation replicas := (Replicas (Store := fileStateStore)).

(** ** Running replicas *)

Definition take_replica (i : Z) (a : action) (r : replicas) : replicas :=
  match fl_place (rp_fleet r) i with
  | Running l0 acts => mkReplicas (take_action i a (rp_fleet r)) (recorded (lp_engine (act a (run acts l0))) (rp_had r))
  | Stopped _ _ => r
  end.

Lemma take_replica_acted i a r l0 acts :
  fl_place (rp_fleet r) i = Running l0 acts →
  take_replica i a r = mkReplicas (acted i None a l0 acts (rp_fleet r)) (recorded (lp_engine (act a (run acts l0))) (rp_had r)).
Proof. intros Hp. unfold take_replica, take_action, acted. by rewrite Hp. Qed.

(** No action of such a run ships or installs a snapshot. *)
Lemma may_take_plain i a (f : fleet) l0 acts :
  fl_place f i = Running l0 acts → may_take i a f = true →
  clean a (lp_engine (run acts l0)) ∧ ml_snaps (outbox i None a (run acts l0)) = [].
Proof.
  intros Hp. unfold may_take. rewrite Hp. intros [_ Ha]%andb_true_iff.
  destruct a as [ev now d d'|req now|req now|req now|p|rd rep]; try done.
  - split; [done|]. cbn [outbox]. by destruct (_ || _).
  - split; [done|]. cbv zeta in Ha. by destruct (ml_snaps (outbox i None (RoundBegin p) (run acts l0))).
Qed.

Definition take_replica_all (steps : list (Z * action)) (r : replicas) : replicas :=
  foldl (λ r s, take_replica s.1 s.2 r) r steps.

Lemma take_replica_fleet i a r : rp_fleet (take_replica i a r) = take_action i a (rp_fleet r).
Proof. unfold take_replica, take_action. by destruct (fl_place (rp_fleet r) i). Qed.

Lemma take_replica_steps steps r :
  may_take_all steps (rp_fleet r) = true → rtc (replicas_step config3) r (take_replica_all steps r).
Proof.
  revert r. induction steps as [|[i a] steps IH]; intros r; simpl; [done|].
  intros [Ha Hs]%andb_true_iff. rewrite <-take_replica_fleet in Hs. eapply rtc_l; [|by apply IH].
  destruct (may_take_running i a _ Ha) as (l0 & acts & Hp). rewrite (take_replica_acted i a r l0 acts Hp).
  destruct (may_take_plain i a _ l0 acts Hp Ha) as [Hcl Hsn].
  apply (rs_act config3 r i l0 acts None a Hp); [by apply may_take_takes|done|].
  intros req. rewrite Hsn. by intros ?%elem_of_nil.
Qed.

(** ** The run *)

Definition replicas_down : replicas := mkReplicas fleet_down [(0, blank DefaultSessionTTL)].
Definition replicas_up : replicas := mkReplicas fleet_up [(0, blank DefaultSessionTTL)].

Lemma replicas_down_initial : replicas_initial DefaultSessionTTL replicas_down.
Proof. split; [exact fleet_down_initial|reflexivity]. Qed.

Lemma boot_replica (r : replicas) (i : Z) :
  fl_place (rp_fleet r) i = Stopped meta_store empty_wal → starts_b i (rl_disk empty_wal) meta_store empty_wal = true →
  state_of (lp_engine (first_loop i)) ∈ rp_had r →
  replicas_step config3 r (mkReplicas (settle i (Running (first_loop i) []) (rp_fleet r)) (rp_had r)).
Proof. intros Hp Hs Hm. apply (rs_other config3 r i); [by apply boot_step|]. by split. Qed.

Lemma replicas_run_up : rtc (replicas_step config3) replicas_down replicas_up.
Proof.
  assert (state_of (lp_engine (first_loop 1)) = (0, blank DefaultSessionTTL)) as H1 by (vm_compute; reflexivity).
  assert (state_of (lp_engine (first_loop 2)) = (0, blank DefaultSessionTTL)) as H2 by (vm_compute; reflexivity).
  eapply rtc_l; [apply (boot_replica replicas_down 1); [reflexivity|vm_compute; reflexivity|rewrite H1; left]|].
  apply rtc_once. apply (boot_replica (mkReplicas (settle 1 (Running (first_loop 1) []) fleet_down) _) 2);
    [reflexivity|vm_compute; reflexivity|rewrite H2; left].
Qed.

Definition replicas_acked : replicas := take_replica_all (to_write ++ to_ack) replicas_up.

(** Server 2 is told, and its next tick executes. *)
Definition to_executed : list (Z * action) := to_told ++ [(2, Select Tick (ms 1022) 0 0)].
Definition replicas_executed : replicas := take_replica_all to_executed replicas_acked.

Lemma replicas_run_acked : rtc (replicas_step config3) replicas_down replicas_acked.
Proof. etrans; [exact replicas_run_up|]. apply take_replica_steps. vm_compute. reflexivity. Qed.

Lemma replicas_run_executed : rtc (replicas_step config3) replicas_acked replicas_executed.
Proof. apply take_replica_steps. vm_compute. reflexivity. Qed.

(** Server 1 when it acknowledges and server 2 later have applied as much, and are in
    the same state. *)
Lemma replicas_agree_witness :
  let e := engine_in (rp_fleet replicas_acked) 1 in
  let e' := engine_in (rp_fleet replicas_executed) 2 in
  rn_LastApplied (e_node e) = 2 ∧ rn_LastApplied (e_node e') = 2 ∧ e_stateMachine e = e_stateMachine e'.
Proof.
  cbv zeta.
  assert (rn_LastApplied (e_node (engine_in (rp_fleet replicas_acked) 1)) = 2) as Ha by (vm_compute; reflexivity).
  assert (rn_LastApplied (e_node (engine_in (rp_fleet replicas_executed) 2)) = 2) as Ha' by (vm_compute; reflexivity).
  split; [exact Ha|]. split; [exact Ha'|].
  destruct (replicas_agree config3 DefaultSessionTTL replicas_down replicas_acked replicas_executed 1 2
    (engine_in (rp_fleet replicas_acked) 1) (engine_in (rp_fleet replicas_executed) 2)) as (es & _ & Hs & _ & Hs' & _);
    [reflexivity|exact replicas_down_initial|exact replicas_run_acked|exact replicas_run_executed|
     eexists _, _; split; reflexivity|eexists _, _; split; reflexivity|vm_compute; reflexivity|vm_compute; reflexivity|].
  rewrite Ha in Hs. rewrite Ha' in Hs'. exact (Some_inj _ _ (eq_trans (eq_sym Hs) Hs')).
Defined.

(** The write acknowledged on channel 7, in the state of server 2. *)
Lemma acknowledged_write_executed_witness :
  acknowledged (rp_fleet replicas_acked) 1 the_entry ∧ Get "k" (e_stateMachine (engine_in (rp_fleet replicas_executed) 2)) = Some "v"%string.
Proof.
  assert (acknowledged (rp_fleet replicas_acked) 1 the_entry) as Hack.
  { exists (first_loop 1), campaign, [RoundBegin 2; round_end; next_tick], the_write, 7%nat, (ms 1001), 0, 0.
    split; [reflexivity|]. split; [vm_compute; reflexivity|]. split; [|vm_compute; reflexivity].
    split; apply (bool_decide_unpack _); vm_compute; exact I. }
  split; [exact Hack|].
  destruct (acknowledged_write_executed config3 DefaultSessionTTL replicas_down replicas_acked replicas_executed 1 2 the_entry
    (engine_in (rp_fleet replicas_executed) 2)) as (es & Hlen & _ & _ & _ & Hget);
    [reflexivity|exact replicas_down_initial|exact replicas_run_acked|exact replicas_run_executed|exact Hack|
     eexists _, _; split; reflexivity|vm_compute; reflexivity|vm_compute; congruence|].
  assert (rn_LastApplied (e_node (engine_in (rp_fleet replicas_executed) 2)) = 2) as Ha by (vm_compute; reflexivity).
  rewrite Ha in Hlen.
  apply (Hget (mkCommand OpSet "k" "v" "" 0 (ms 1001))); [vm_compute; reflexivity|reflexivity|reflexivity|].
  rewrite drop_ge by (simpl; lia). constructor.
Defined.
