(* ===== verification/ReadRaces.v ===== *)
(** * What a read needs of the no-op

    [reads_see_writes] asks that the leader's no-op was appended.  When the append
    fails, becomeLeader logs it and goes on with [noopIndex] 0: nothing then keeps the
    leader from answering reads at a commit index that lags behind the cluster's.
    Here is such a run, every call of it timed and within the limits of a fleet. *)

From stdpp Require Import functions.
From S2P Require Import Cluster RaftSpec RaftSafety RaftSystem RaftSimulation.
From S2P Require Import Prelude Configuration Os Json FsUtil Types Encoding RaftLog RaftLogFacts RaftNode RaftNodeFacts StateMachine Snapshot StateFile Replicator Engine EngineLoop EngineFacts EngineRun EngineMoves Examples DiskExamples RaftExamples Fleet FleetSafety FleetWrites FleetReads FleetExamples ReadExamples.

(** A disk on which the sixth call after a start fails, once. *)
Definition failing_wal : RaftLog := set_disk (with_faults (repeat FOk 11 ++ [FFail 0]) (rl_disk empty_wal)) empty_wal.

Definition wal_of (i : Z) : RaftLog := if i =? 2 then failing_wal else empty_wal.

Lemma wal_of_wf i : log_wf (wal_of i).
Proof. unfold wal_of. case_match; [|exact empty_wal_wf]. by eapply logical_wf, empty_wal_wf. Qed.

Definition all_stopped : timed := mkTimed (mkFleet (λ i, Stopped meta_store (wal_of i)) no_mail) (λ _, []).

Lemma all_stopped_initial : timed_initial all_stopped.
Proof.
  split; [|done]. apply (empty_initial wal_of). intros i. split; [apply wal_of_wf|]. unfold wal_of. by case_match.
Qed.

Definition loop_on (i : Z) : Loop fileStateStore := started_on i (rl_disk (wal_of i)) meta_store.

Definition boot_on (i : Z) (t : timed) : timed :=
  mkTimed (settle i (Running (loop_on i) []) (td_fleet t)) (<[i := []]> (td_begun t)).

Lemma boot_on_step i t :
  fl_place (td_fleet t) i = Stopped meta_store (wal_of i) → starts_b i (rl_disk (wal_of i)) meta_store (wal_of i) = true →
  timed_step config3 t (boot_on i t).
Proof. intros Hp Hs. apply (ts_other config3 t i); [|done]. by apply start_step, Hs; [|apply wal_of_wf]. Qed.

Definition all_up : timed := boot_on 3 (boot_on 2 (boot_on 1 all_stopped)).

Lemma run_all_up : rtc (timed_step config3) all_stopped all_up.
Proof.
  eapply rtc_l; [apply (boot_on_step 1); [reflexivity|vm_compute; reflexivity]|].
  eapply rtc_l; [apply (boot_on_step 2); [reflexivity|vm_compute; reflexivity]|].
  apply rtc_once. apply (boot_on_step 3); [reflexivity|vm_compute; reflexivity].
Qed.

(** Server 1 leads term 1 and acknowledges a write, which server 2 stored. *)
Definition write_acked : timed := take_timed_all (to_write ++ to_ack) all_up.

(** Server 2 hears no more of it and is elected by server 3; its no-op fails. *)
Definition to_office : list (Z * action) :=
  [(2, Select Tick (ms 5000) 0 0); (2, Select (PreVoteResult 2 3 (mkPreVoteResponse 1 true)) (ms 5000) 0 0);
   (3, RpcRequestVote (mkRequestVoteRequest 2 2 2 1) (ms 5000));
   (2, Select (VoteResult 2 3 (mkRequestVoteResponse 2 true)) (ms 5001) 0 0)].
Definition in_office : timed := take_timed_all to_office write_acked.

(** A read then comes to server 2, and server 3 confirms that it leads. *)
Definition heartbeat : AppendEntriesRequest := mkAppendEntriesRequest 2 2 2 1 [] 0.
Definition to_stale : list (Z * action) :=
  [(2, read_action); (2, RoundBegin 3); (3, RpcAppendEntries heartbeat (ms 5003));
   (2, RoundEnd (mkRound 3 1 2) (AppendReply 2 (Some (mkAppendEntriesResponse 2 false 0 0 1))));
   (2, Select (AckReport 3 1) (ms 5004) 0 0)].
Definition stale : timed := take_timed_all to_stale in_office.

Lemma run_in_office : rtc (timed_step config3) all_stopped in_office.
Proof.
  etrans; [exact run_all_up|]. etrans; [apply (take_timed_steps (to_write ++ to_ack)); vm_compute; reflexivity|].
  apply (take_timed_steps to_office). vm_compute. reflexivity.
Qed.

Lemma run_stale : rtc (timed_step config3) in_office stale.
Proof. apply (take_timed_steps to_stale). vm_compute. reflexivity. Qed.

(** A stale read: the write at index 2 was acknowledged before the read came in, and
    the read is answered with index 0, of which the reader's empty machine is the
    state. *)
Theorem failed_noop_serves_stale_read :
  timed_initial all_stopped ∧ rtc (timed_step config3) all_stopped in_office ∧ rtc (timed_step config3) in_office stale ∧
  acknowledged (td_fleet in_office) 1 the_entry ∧ le_Index the_entry = 2 ∧
  rn_Role (e_node (engine_in (td_fleet in_office) 2)) = Leader ∧ e_noopIndex (engine_in (td_fleet in_office) 2) = 0 ∧
  e_sent (engine_in (td_fleet in_office) 2) = [] ∧
  e_sent (engine_in (td_fleet stale) 2) = [(8%nat, RRead 0 None)] ∧
  sm_data (e_stateMachine (engine_in (td_fleet stale) 2)) = ∅.
Proof.
  split; [exact all_stopped_initial|]. split; [exact run_in_office|]. split; [exact run_stale|]. split.
  { exists (loop_on 1), campaign, [RoundBegin 2; round_end; next_tick], the_write, 7%nat, (ms 1001), 0, 0.
    split; [vm_compute; reflexivity|]. split; [vm_compute; reflexivity|]. split; [|vm_compute; reflexivity].
    split; apply (bool_decide_unpack _); vm_compute; exact I. }
  vm_compute. by split_and!.
Qed.
